(* ===== verification/_CoqProject ===== *)
-Q . S2P
Prelude.v
Runes.v
Decimal.v
Json.v
Persister.v
RaftNode.v
RaftFollower.v
RaftLeader.v
RaftApplier.v
RaftCluster.v
RaftElection.v
RaftLog.v
RaftPersist.v
RaftCommit.v
RaftBackup.v
RaftDelivery.v
RaftFaults.v
RaftGhost.v
RaftInvariant.v
RaftPreserve.v
RaftReplicate.v
RaftSafety.v
RaftProvenance.v
KvSrv.v
KvRaft.v
KvRaftLog.v
KvRaftServer.v
KvRaftSafety.v
KvRaftCluster.v
MrWorker.v
MrEquivalence.v
MrCoordinator.v
MrCoordinatorFacts.v
MrSystem.v
MrApps.v
MrTiming.v
Programs.v
LabRpc.v
LabRpcFacts.v
RaftHarness.v
RaftHarnessFacts.v
RaftWiring.v
KvHarness.v
KvHarnessFacts.v
HarnessRandom.v
Labgob.v
LabgobFacts.v
Shard.v
ShardFacts.v
ServiceHarness.v
ServiceHarnessFacts.v
HarnessStats.v
KvSrvNet.v
Bitset.v
Porcupine.v
PorcupineSpec.v
PorcupineHeap.v
PorcupineSearch.v
PorcupineFacts.v
PorcupineOps.v
PorcupineKv.v
PorcupineEvents.v
PorcupineLocal.v
KvHistory.v
PorcupinePartial.v
PorcupineOrder.v
Visualization.v
VisualizationFacts.v
VisualizationJson.v
VisPage.v
VisPageFacts.v
VisPageLayout.v
VisPageDraw.v
VisPageView.v
VisPageCheck.v
KvSrvLinear.v
KvSrvNetLinear.v
KvRaftClients.v
KvRaftJournal.v
KvRaftLinear.v
