(* ===== verification/Prelude.v ===== *)
(** * A verification library for the MIT 6.824 labs

    The repository holds the distributed-systems labs in Go: MapReduce
    ([src/src/mr], [mrapps]), a key/value server ([kvsrv]), Raft ([raft]), a key/value
    service replicated with Raft ([kvraft]), the sharded service ([shardctrler],
    [shardkv], whose servers are skeletons), the simulated network they run on
    ([labrpc]) with its encoder ([labgob]), the linearizability checker their tests
    use ([porcupine], [models]) and the test harnesses ([config.go] of each).  This
    library translates that code into Rocq functions and proves what makes it
    correct, and where the code does not do what it means to, proves that too.

    ** The parts and how they interact

    - A Raft peer keeps its state in [type Raft] and on a [Persister].  Its
      methods run under one lock, so each is a function on the state: RPC
      handlers, [Start], [Snapshot], the handlers of replies, one iteration of
      each background loop.  Goroutines that take the lock several times
      (the applier, the delivery of a snapshot) are step functions on program
      points.  A cluster is n peers and a pool of messages that are lost, delayed
      and delivered in any order, with crashes and restarts.
    - [kvraft] consumes Raft's [applyCh] in [apply] and answers clerks in [Get]
      and [PutAppend]; the two sides meet on a map of channels under the lock.
      [KvRaftCluster] puts a server on every peer of the cluster: its calls of
      [Start] and [Snapshot] are steps of Raft, and it receives what its peer put on
      [applyCh].
      [KvRaftClients] adds the clerks, which try server after server, and the log
      the tests keep of their calls.
    - [kvsrv] is one server and clerks that retry over a network that loses
      requests and replies.  [KvSrv] treats a call as one step with the outcomes
      [labrpc] can have; [KvSrvNet] runs clerks and server on the network itself,
      as the harness sets it up, with calls as requests in flight.
    - [mr] has a coordinator with task channels and tables, and workers that map
      and reduce files, may die, and whose calls may fail before or after the
      coordinator executes them; [MrSystem] runs them together.
      [main/mrsequential.go] is the reference they must agree with, and [mrapps] the
      applications.
    - [porcupine] takes a history of operations, partitions it by key with the
      model of [models/kv.go] and searches each part for a linearization; the
      partial linearizations it finds go to the visualization, which writes them as
      JSON into a page whose script lays them out, draws them and answers to the
      mouse.  The tests of [kvsrv] and [kvraft] give it the logs of their clerks
      ([KvHistory]).
    - The harnesses wire servers and clerks on the network, crash and restart
      them, and check what Raft delivers.

    ** Conventions

    A Go [int] is a [Z]; it is kept at its width where the code relies on it
    ([ihash], the words of bit sets, the counters of the network) and unbounded
    elsewhere.  [RaftLog] has the RPC handlers of Raft on 64-bit integers too, and shows
    that they do what the handlers on [Z] do while the last index stays below
    [2^63 - 1].  A map is a [gmap], a
    slice a list with [idx], [upd], [slice_from] and [slice_to], which fail where Go
    panics; [None] is a panic unless a comment says otherwise.  Structs are records
    with the names of the source.  Methods of Raft live in a monad over state,
    panic and emitted effects (timers, messages, goroutines), [M] of [RaftNode].
    Encodings ([labgob]) are a parameter with its round-trip law, class [Gob]; sorting
    is a class with the law of [sort.Sort]; the application functions of MapReduce
    are parameters.  In the script of the page, times are counted in halves (the
    script moves ends to the middle between two times) and positions in parts of a
    pixel, both as [Z]; the width of a text is a parameter, [None] an exception, and the
    document is the list of shapes with what the handlers set on them.

    ** Files

    - [Prelude]: slices, loops, machine integers, notation, tactics and hint databases;
      [Decimal]: decimal numerals, printed and read; [Json]: the texts of [encoding/json],
      written and read back.
    - [Persister] (raft/persister.go): the stored bytes; class [Gob].
    - [RaftNode] (raft/raft_definition.go, raft_util.go, parts of raft.go): the
      state, index arithmetic, [persist], [readPersist], [Make], [Kill].
    - [RaftFollower]: [RequestVote], [AppendEntries], [InstallSnapshot], [Snapshot].
    - [RaftLeader]: [startElection], [handleVoteReply], [broadcastHeartbeat], the
      reply handlers, [checkAndCommitLogs], [Start], [ticker] and the heartbeat.
    - [RaftApplier]: the applier and the goroutines that deliver snapshots.
    - [RaftCluster]: n peers, the network, crash and restart, and a concrete instance.
    - [RaftElection] (one leader per term without restarts), [RaftFaults] (two
      after one; an installed snapshot that breaks safety, and one that reaches the
      service late), [RaftLog] (what the handlers do to the log, and that on machine
      integers they never panic), [RaftPersist] (what is on disk in a run of a peer, what
      a restart recovers), [RaftCommit] (commit rule, messages of the leader, [Start]),
      [RaftBackup] (how far a rejected append moves the leader back, and where it
      does not), [RaftDelivery] (order and completeness of [applyCh]).
    - [RaftGhost], [RaftInvariant], [RaftPreserve], [RaftReplicate], [RaftSafety]: log
      matching, leader completeness and state machine safety, by an invariant on
      the history of votes and acknowledgements, in which a compacted log is a view of
      the whole one; [RaftProvenance]: every command applied was given to [Start].
    - [KvSrv]: [kvsrv] and the refinement of an atomic map, a call in one step;
      [KvSrvNet]: the same on the network; [KvSrvLinear], [KvSrvNetLinear]: the log of a
      test is linearizable.
    - [KvRaft] (server state, [apply] on one message, snapshots, clerk), [KvRaftLog]
      (replaying a log with duplicates), [KvRaftServer] (handlers and apply loop as
      threads), [KvRaftSafety] (the replica is the replay of the log; an
      acknowledged write was executed; what a read answers; the deadlock of a
      timed-out handler), [KvRaftCluster] (the servers on the
      cluster), [KvRaftClients] (clerks and the log of the test), [KvRaftJournal] (where
      in the log of Raft an operation executed), [KvRaftLinear] (the log of the test is
      linearizable).
    - [MrWorker] ([ihash], [DoMap], [DoReduce] with the JSON files between them, [mrsequential]), [MrEquivalence] (the
      buckets hold the sequential result), [MrCoordinator] (the handlers as functions, and
      as goroutines that take the steps of the functions when they run alone),
      [MrCoordinatorFacts] (phases, no task lost, timeouts, of handlers one at a time),
      [MrSystem] (the loop of [Worker] and the whole job, with the goroutines), [Runes] (the parts of [unicode] and [strings] used), [MrApps], [MrTiming]
      ([mrapps]), [Programs] ([main], and the debug output).
    - [LabRpc] ([Network], [Server], [Service], [Call], [processReq]), [LabRpcFacts]
      (at most once; the outcomes of a call); [Labgob] ([checkType], [checkDefault] on
      what reflection reports), [LabgobFacts].
    - [Shard] ([shardctrler] and [shardkv] without their harnesses), [ShardFacts].
    - [RaftHarness] (raft/config.go), [RaftHarnessFacts] (what it accepts),
      [RaftWiring] (its network); [KvHarness] (kvraft/config.go), [KvHarnessFacts] (the
      partitions); [ServiceHarness] (config.go of kvsrv, shardctrler and shardkv),
      [ServiceHarnessFacts]; [HarnessStats] (statistics and time limit), [HarnessRandom]
      (random names, orders and timeouts).
    - [Bitset] (porcupine/bitset.go), [Porcupine] (checker.go, model.go,
      porcupine.go), [PorcupineSpec] (linearizability of a history), [PorcupineHeap]
      ([lift], [unlift] and [makeLinkedEntries] on the linked list), [PorcupineSearch] (the search), [PorcupineFacts]
      ([checkSingle] decides linearizability), [PorcupineOps] (operations with times,
      partitions), [PorcupineKv] (models/kv.go), [PorcupineEvents] ([renumber] and
      [checkEvents]), [PorcupineLocal] (locality: the check per
      key is a check of the whole map), [KvHistory] (the logs of the tests),
      [PorcupinePartial] (the partial linearizations), [PorcupineOrder] (they respect
      the times).
    - [Visualization] (visualization.go: the data), [VisualizationFacts];
      [VisualizationJson] ([json.Marshal] of the data, [Visualize], [VisualizePath]; a reader
      of the text gives the data back); the script of the page: [VisPage] (times and layout), [VisPageFacts], [VisPageLayout] (the criteria of
      its comments), [VisPageDraw] (the shapes and notes), [VisPageView] (the handlers of
      the mouse), [VisPageCheck] (the page of a check).

    ** What the theorems show

    Raft: election safety in every run without restarts, log matching, leader
    completeness and state machine safety in those in which services compact the logs of
    their peers and no peer installs the snapshot of another; a run with a restart
    that elects two leaders in a term because [readPersist] does not restore the
    vote, and one with an installed snapshot after which two peers apply different
    commands at one index; the effect of each handler on the log; totality of the handlers;
    durability of term, vote and log in every run of a peer but for one early return of
    [InstallSnapshot]; the commit rule; progress of the backup after a conflict, and
    a livelock after a snapshot; in-order delivery, and a snapshot that undoes a
    later command; with crashes and compaction too, nothing is applied that was not
    given to [Start].  Services: [kvsrv] on its network refines an atomic map with each
    request executed once, and the log of its tests is linearizable; a [kvraft] replica is the replay of the delivered log, each
    request of which takes effect once, across snapshots and restarts; on the
    cluster, with servers that compact the logs, replicas agree, a read sees every write
    acknowledged before it, and the log of the tests is linearizable, so that the
    checker answers [Ok]; a timed-out handler deadlocks the server.
    MapReduce: a job with workers that die, calls that fail and tasks that time out writes the lines
    of the sequential program, however the handlers interleave, if its pairs are UTF-8 and its reduce
    function does not depend on the order of the values, unless a map task is reported after the map
    phase, which can end a reduce task; word count counts words; [nparallel] returns a number between those
    of the workers that were running when it read the directory and when it ends.  Network: at
    most one execution per call.  [labgob]: the warnings are complete, and its
    check of default values panics on unexported fields.  Shards: the clerks never
    index out of range and reach the owner of a key.  Harnesses: that of Raft never reports an
    error on runs of the cluster, its wiring is what [connected] says, a partition
    cuts off the leader [Leader] found with a minority, and that of [shardkv] works only for
    groups of three; every order of handles comes from one sequence of draws.  Checker: [checkSingle] terminates, answers true
    exactly for linearizable histories and reports a linearization; the check with
    the key/value model, key by key, answers [Ok] exactly for histories that are
    linearizable as a map; the check of events does not depend on their ids; an empty history is never answered; the visualization
    never panics on what the checker found, and its JSON text reads back as the data.  Page:
    its layout meets the criteria its comments state and is the leftmost that does,
    every point it draws lies in the box of its operation, and whatever the mouse
    does, what is marked, shown and linked is what the selected element stands for.

    ** Bounds and fuel

    Loops over a range of indices are folds.  The loops that are not structural
    have fuel that is shown or chosen to be enough: the conflict scan of
    [AppendEntries] (the distance to the commit index), the grouping loop of
    [DoReduce] (the number of pairs), the readers of JSON (the length of the text), the walk of [length] (the number of nodes).
    The retry loops of clerks, the search of the checker and the recursion of
    [checkType] take fuel as an argument; the theorems say how much is enough, or that
    enough fuel gives the result, for every larger amount as well.

    ** Not modelled

    Real time (when a timer fires is a choice of the run), printing, the
    HTTP transport of MapReduce, the packages of the older labs that programs of [main]
    call and the repository does not have, the codec of [encoding/gob], and the
    HTML and CSS around the script of the page, an argument of [Visualize].

    Atomicity is that of the locks: data races on fields read without the lock are not
    modelled.  The handlers of the MapReduce coordinator take no lock (they use channels and
    [sync.Map]): a step of theirs is one access to a channel, a table or the phase.
    [checkType] of [labgob] releases its lock before it recurses and is one step as a whole:
    its theorem is about calls that do not overlap.  The directory that [nparallel] lists is
    read in one step.

    The numbers that clerks draw with [nrand] are taken to be distinct.  The numbers of the
    page's script are integers: a time of the data beyond [2^53], which the script would
    round, is kept as it is.

    The safety theorems of Raft and of [kvraft] on it exclude two kinds of steps, because
    with either they are false of this code.  A restart loses the vote, and two peers
    lead one term ([RaftFaults]).  A peer that installs a snapshot ahead of its commit
    index may drop entries another peer counts on, and two peers apply different
    commands ([RaftFaults] again); the snapshot may also reach its service late
    (there too).  What holds with them is validity ([RaftProvenance]) and the theorems
    on each method.  With [maxraftstate] -1 the second kind does not arise
    ([KvRaftCluster.unlimited_keeps]).

    The clerks of [kvraft] reach the servers through handlers that may never take a step
    or take it late, which covers what [labrpc] does to a call; they are not put on the model
    of [labrpc] itself, as those of [kvsrv] are. *)

From Stdlib Require Export ZArith Lia.
From stdpp Require Export base option list gmap strings numbers sorting.

Export Corelib.Init.Byte (byte(..)).

(** ** Notation *)

Declare Scope go_scope.
Delimit Scope go_scope with go.
Open Scope Z_scope.

(** A Go [[]byte]; [nil] and the empty slice are not told apart by the code. *)
Abbreviation bytes := (list byte).

(** [string + string] *)
Notation "a +:+ b" := (String.append a b) (at level 60, right associativity) : go_scope.

(** ** Go slices *)

(** [len(l)] as a Go [int]. *)
Definition zlen {A} (l : list A) : Z := Z.of_nat (length l).

(** [l[i]]: [None] is the run-time panic of an index out of range. *)
Definition idx {A} (l : list A) (i : Z) : option A :=
  if 0 <=? i then l !! Z.to_nat i else None.

(** [l[i] = x]: in place assignment, panicking out of range. *)
Definition upd {A} (l : list A) (i : Z) (x : A) : option (list A) :=
  if (0 <=? i) && (i <? zlen l) then Some (<[Z.to_nat i := x]> l) else None.

(** [l[i:]] *)
Definition slice_from {A} (l : list A) (i : Z) : option (list A) :=
  if (0 <=? i) && (i <=? zlen l) then Some (drop (Z.to_nat i) l) else None.

(** [l[:i]] *)
Definition slice_to {A} (l : list A) (i : Z) : option (list A) :=
  if (0 <=? i) && (i <=? zlen l) then Some (take (Z.to_nat i) l) else None.

(** [for x := range l { acc = f(acc, x) }] where the body may panic. *)
Fixpoint foldM {A B} (f : B → A → option B) (l : list A) (b : B) : option B :=
  match l with
  | [] => Some b
  | x :: l' => b' ← f b x; foldM f l' b'
  end.

(** The indices [lo, lo+1, ..., hi-1] of [for i := lo; i < hi; i++]. *)
Definition range (lo hi : Z) : list Z := seqZ lo (hi - lo).

(** [range l] with the index: the pairs of [for i, x := range l]. *)
Definition enumerate {A} (l : list A) : list (Z * A) := imap (λ i x, (Z.of_nat i, x)) l.

(** ** Machine integers *)

(** A signed integer of [w] bits: [int32], [int64] and [int] wrap around. *)
Definition wrapS (w : Z) (x : Z) : Z := (x + 2 ^ (w - 1)) mod 2 ^ w - 2 ^ (w - 1).

Lemma wrapS_small w x : 0 < w → - 2 ^ (w - 1) ≤ x < 2 ^ (w - 1) → wrapS w x = x.
Proof.
  intros Hw Hx. unfold wrapS. assert (2 ^ w = 2 * 2 ^ (w - 1)) as E by (rewrite <-Z.pow_succ_r by lia; f_equal; lia).
  rewrite Z.mod_small; lia.
Qed.

Lemma wrap64 x : - 2 ^ 63 ≤ x < 2 ^ 63 → wrapS 64 x = x.
Proof. intros Hx. apply wrapS_small; lia. Qed.

(** ** Automation *)

Create HintDb go discriminated.
Create Rewrite HintDb golen.
Create Rewrite HintDb gobool.

#[export] Hint Rewrite Z.ltb_lt Z.ltb_ge Z.leb_le Z.leb_gt Z.eqb_eq Z.eqb_neq
  andb_true_iff andb_false_iff orb_true_iff orb_false_iff negb_true_iff negb_false_iff : gobool.

(** Turn the boolean tests of the code in hypotheses and goal into propositions. *)
Ltac bool_simpl := autorewrite with gobool in *.

(** Split every [match]/[if] of the goal, recording the test. *)
Ltac cases := repeat case_match; bool_simpl; simplify_eq.

(** Invert a chain of [option] binds in hypothesis [H]. *)
Ltac inv_bind H :=
  repeat first
    [ apply bind_Some in H as (? & ? & H)
    | discriminate H ].

(** ** Slices: lemmas *)

Section slices.
Context {A : Type}.
Implicit Types (l k : list A) (i j : Z) (x y : A).

Lemma zlen_nonneg l : 0 ≤ zlen l.
Proof. unfold zlen. lia. Qed.

Lemma zlen_nil : zlen (@nil A) = 0.
Proof. done. Qed.

Lemma zlen_cons x l : zlen (x :: l) = 1 + zlen l.
Proof. unfold zlen. cbn [length]. lia. Qed.

Lemma zlen_app l k : zlen (l ++ k) = zlen l + zlen k.
Proof. unfold zlen. rewrite length_app. lia. Qed.

Lemma idx_Some l i x : idx l i = Some x ↔ 0 ≤ i ∧ l !! Z.to_nat i = Some x.
Proof. unfold idx. destruct (0 <=? i) eqn:E; bool_simpl; (split; [intros ?|intros [? ?]]); first [done|lia|by split]. Qed.

Lemma idx_lt l i x : idx l i = Some x → 0 ≤ i < zlen l.
Proof. intros [? ?%lookup_lt_Some]%idx_Some. unfold zlen. lia. Qed.

Lemma idx_is_Some l i : 0 ≤ i < zlen l → is_Some (idx l i).
Proof.
  intros. unfold idx, zlen in *. destruct (0 <=? i) eqn:E; bool_simpl; [|lia].
  apply lookup_lt_is_Some. lia.
Qed.

Lemma idx_of_nat l (n : nat) : idx l (Z.of_nat n) = l !! n.
Proof. unfold idx. destruct (0 <=? Z.of_nat n) eqn:E; bool_simpl; [by rewrite Nat2Z.id|lia]. Qed.

Lemma idx_app_l l k i : i < zlen l → idx (l ++ k) i = idx l i.
Proof.
  intros. unfold idx, zlen in *. destruct (0 <=? i) eqn:E; bool_simpl; [|done].
  apply lookup_app_l. lia.
Qed.

Lemma idx_app_r l k i : zlen l ≤ i → idx (l ++ k) i = idx k (i - zlen l).
Proof.
  intros. unfold idx, zlen in *. destruct (0 <=? i) eqn:E; bool_simpl; [|lia].
  destruct (0 <=? i - Z.of_nat (length l)) eqn:E'; bool_simpl; [|lia].
  rewrite lookup_app_r by lia. f_equal. lia.
Qed.

Lemma idx_cons_0 x l : idx (x :: l) 0 = Some x.
Proof. done. Qed.

Lemma idx_cons_pos x l i : 0 < i → idx (x :: l) i = idx l (i - 1).
Proof.
  intros. unfold idx. destruct (0 <=? i) eqn:?, (0 <=? i - 1) eqn:?; bool_simpl; try lia.
  replace (Z.to_nat i) with (S (Z.to_nat (i - 1))) by lia. done.
Qed.

Lemma idx_ge l i : zlen l ≤ i → idx l i = None.
Proof.
  intros. unfold idx, zlen in *. destruct (0 <=? i) eqn:E; [|done].
  apply lookup_ge_None. lia.
Qed.

Lemma idx_neg l i : i < 0 → idx l i = None.
Proof. intros. unfold idx. destruct (0 <=? i) eqn:E; bool_simpl; [lia|done]. Qed.

Lemma idx_elem_of l i x : idx l i = Some x → x ∈ l.
Proof. intros [? ?]%idx_Some. by eapply list_elem_of_lookup_2. Qed.

Lemma slice_from_Some l i k :
  slice_from l i = Some k ↔ 0 ≤ i ≤ zlen l ∧ k = drop (Z.to_nat i) l.
Proof. unfold slice_from. destruct (_ && _) eqn:E; bool_simpl; (split; [intros [=]|intros [? ?]]); subst; first [done|lia|by split]. Qed.

Lemma slice_to_Some l i k :
  slice_to l i = Some k ↔ 0 ≤ i ≤ zlen l ∧ k = take (Z.to_nat i) l.
Proof. unfold slice_to. destruct (_ && _) eqn:E; bool_simpl; (split; [intros [=]|intros [? ?]]); subst; first [done|lia|by split]. Qed.

Lemma upd_Some l i x k :
  upd l i x = Some k ↔ 0 ≤ i < zlen l ∧ k = <[Z.to_nat i := x]> l.
Proof. unfold upd. destruct (_ && _) eqn:E; bool_simpl; (split; [intros [=]|intros [? ?]]); subst; first [done|lia|by split]. Qed.

Lemma upd_is_Some l i x : 0 ≤ i < zlen l → is_Some (upd l i x).
Proof. intros. eexists. by apply upd_Some. Qed.

Lemma zlen_drop l (n : nat) : zlen (drop n l) = Z.max 0 (zlen l - Z.of_nat n).
Proof. unfold zlen. rewrite length_drop. lia. Qed.

Lemma zlen_take l (n : nat) : zlen (take n l) = Z.min (Z.of_nat n) (zlen l).
Proof. unfold zlen. rewrite length_take. lia. Qed.

Lemma zlen_insert l (n : nat) x : zlen (<[n := x]> l) = zlen l.
Proof. unfold zlen. by rewrite length_insert. Qed.

Lemma idx_drop l (n : nat) i : 0 ≤ i → idx (drop n l) i = idx l (Z.of_nat n + i).
Proof.
  intros. unfold idx. destruct (0 <=? i) eqn:?, (0 <=? Z.of_nat n + i) eqn:?; bool_simpl; try lia.
  rewrite lookup_drop. f_equal. lia.
Qed.

Lemma idx_take l (n : nat) i : i < Z.of_nat n → idx (take n l) i = idx l i.
Proof.
  intros. unfold idx. destruct (0 <=? i) eqn:?; bool_simpl; [|done].
  apply lookup_take_lt. lia.
Qed.

Lemma idx_insert_eq l i x : 0 ≤ i < zlen l → idx (<[Z.to_nat i := x]> l) i = Some x.
Proof.
  intros. apply idx_Some. split; [lia|]. apply list_lookup_insert_eq. unfold zlen in *. lia.
Qed.

Lemma idx_insert_ne l i j x : 0 ≤ i → i ≠ j → idx (<[Z.to_nat i := x]> l) j = idx l j.
Proof.
  intros. unfold idx. destruct (0 <=? j) eqn:?; bool_simpl; [|done].
  apply list_lookup_insert_ne. lia.
Qed.

Lemma idx_insert_inv l i j x y z :
  idx l i = Some z → idx (<[Z.to_nat i := x]> l) j = Some y →
  (j = i ∧ y = x) ∨ (j ≠ i ∧ idx l j = Some y).
Proof.
  intros ?%idx_lt. destruct (decide (j = i)) as [->|?].
  - rewrite idx_insert_eq by done. intros [= <-]. auto.
  - rewrite idx_insert_ne by lia. auto.
Qed.

Lemma elem_of_range lo hi i : i ∈ range lo hi ↔ lo ≤ i < hi.
Proof. unfold range. rewrite elem_of_seqZ. lia. Qed.

Lemma range_nil lo hi : hi ≤ lo → range lo hi = [].
Proof. intros. unfold range. apply seqZ_nil. lia. Qed.

Lemma range_cons lo hi : lo < hi → range lo hi = lo :: range (lo + 1) hi.
Proof. intros. unfold range. rewrite seqZ_cons by lia. f_equal. f_equal; lia. Qed.

Lemma range_snoc lo hi : lo < hi → range lo hi = range lo (hi - 1) ++ [hi - 1].
Proof.
  intros. unfold range. replace (hi - lo) with ((hi - 1 - lo) + 1) at 1 by lia.
  rewrite seqZ_app by lia. replace (lo + (hi - 1 - lo)) with (hi - 1) by lia.
  done.
Qed.
End slices.

#[export] Hint Rewrite @zlen_nil @zlen_cons @zlen_app @zlen_drop @zlen_take @zlen_insert : golen.

(** The elements and the indices of [enumerate]. *)
Lemma enumerate_snd {A} (l : list A) : (enumerate l).*2 = l.
Proof. unfold enumerate. apply list_eq. intros k. rewrite list_lookup_fmap, list_lookup_imap. by destruct (l !! k). Qed.

Lemma elem_of_enumerate {A} (l : list A) i x : (i, x) ∈ enumerate l → idx l i = Some x.
Proof.
  unfold enumerate. intros [k Hk]%list_elem_of_lookup. rewrite list_lookup_imap in Hk.
  apply fmap_Some in Hk as (y & Hy & [= -> ->]). by rewrite idx_of_nat.
Qed.

Lemma enumerate_NoDup {A} (l : list A) : NoDup (enumerate l).*1.
Proof.
  apply NoDup_alt. intros i j x. unfold enumerate. rewrite !list_lookup_fmap, !list_lookup_imap.
  destruct (l !! i), (l !! j); simpl; try done. intros [= <-] [= ?]. lia.
Qed.

(** [foldM] over a concatenation. *)
Lemma foldM_app {A B} (f : B → A → option B) l k b :
  foldM f (l ++ k) b = (b' ← foldM f l b; foldM f k b').
Proof. revert b. induction l as [|x l IH]; intros b; simpl; [done|]. destruct (f b x); simpl; eauto. Qed.

(** Invariant rule for [foldM]: what the body preserves, the loop preserves. *)
Lemma foldM_inv {A B} (P : B → Prop) (f : B → A → option B) l b b' :
  (∀ x c c', x ∈ l → P c → f c x = Some c' → P c') →
  P b → foldM f l b = Some b' → P b'.
Proof.
  revert b. induction l as [|x l IH]; intros b Hf Hb; simpl; [by intros [= <-]|].
  intros (c & Hc & Hl)%bind_Some. eapply IH; [|eapply Hf; [|exact Hb|exact Hc]|exact Hl].
  - intros. eapply Hf; [by right|done|done].
  - left.
Qed.

(** Total rule for [foldM]: a body that never panics on [P] gives a result in [P]. *)
Lemma foldM_ext {A B} (f g : B → A → option B) l b :
  (∀ c x, x ∈ l → f c x = g c x) → foldM f l b = foldM g l b.
Proof.
  revert b. induction l as [|x l IH]; intros b H; simpl; [done|]. rewrite H by by left.
  destruct (g b x); [|done]. simpl. apply IH. intros. apply H. by right.
Qed.

Lemma foldM_total {A B} (P : B → Prop) (f : B → A → option B) l b :
  (∀ x c, x ∈ l → P c → ∃ c', f c x = Some c' ∧ P c') →
  P b → ∃ b', foldM f l b = Some b' ∧ P b'.
Proof.
  revert b. induction l as [|x l IH]; intros b Hf Hb; simpl; [by exists b|].
  destruct (Hf x b) as (c & -> & Hc); [left|done|]. simpl. apply IH; [|done].
  intros. apply Hf; [by right|done].
Qed.

(** ** Filtered lists *)

Section filter.
Context {A : Type} (P : A → Prop) {HP : ∀ x, Decision (P x)}.

Lemma filter_none (l : list A) : (∀ x, x ∈ l → ¬ P x) → filter P l = [].
Proof.
  induction l as [|x l IH]; intros H; [done|].
  rewrite filter_cons, decide_False by (apply H; by left). apply IH. intros y ?. apply H. by right.
Qed.

Lemma filter_every (l : list A) : (∀ x, x ∈ l → P x) → filter P l = l.
Proof.
  induction l as [|x l IH]; intros H; [done|].
  rewrite filter_cons, decide_True by (apply H; by left). f_equal. apply IH. intros y ?. apply H. by right.
Qed.

Lemma filter_join (ls : list (list A)) : filter P (mjoin ls) = mjoin (filter P <$> ls).
Proof. induction ls as [|l ls IH]; [done|]. simpl. rewrite filter_app. by f_equal. Qed.
End filter.

(** Disjoint duplicate-free lists, joined. *)
Lemma NoDup_join {A B} (f : B → list A) (rs : list B) :
  NoDup rs → (∀ r, r ∈ rs → NoDup (f r)) →
  (∀ r r' x, r ∈ rs → r' ∈ rs → x ∈ f r → x ∈ f r' → r = r') →
  NoDup (mjoin (f <$> rs)).
Proof.
  induction 1 as [|r rs Hr _ IH]; intros Hnd Hdis; [constructor|]. simpl. apply NoDup_app. split_and!.
  - apply Hnd. by left.
  - intros x Hx (l & Hl & (r' & -> & Hr')%list_elem_of_fmap)%list_elem_of_join. apply Hr.
    rewrite (Hdis r r' x); [done|by left|by right|done|done].
  - apply IH; [intros; apply Hnd; by right|]. intros. eapply Hdis; [by right|by right|done|done].
Qed.
