(* ===== verification/Runes.v ===== *)
(** * Runes

    What the program uses of [unicode/utf8], [unicode] and [strings]: decoding the
    first rune of a string, the classes of upper-case letters and letters, and
    [strings.FieldsFunc].  The tables of [unicode] beyond Latin-1 are parameters. *)

From S2P Require Import Prelude.

Definition byteOf (c : Ascii.ascii) : Z := Z.of_N (Ascii.N_of_ascii c).

(** The byte is in [lo..hi]. *)
Definition inRange (lo hi b : Z) : bool := (lo <=? b) && (b <=? hi).

(** [utf8.RuneError], which stands for an invalid byte. *)
Definition RuneError : Z := 65533.

(** [utf8.DecodeRuneInString(s)]: the rune and its width in bytes. *)
Definition decodeRune (s : string) : Z * nat :=
  match s with
  | EmptyString => (RuneError, 0%nat)
  | String.String c0 s1 =>
      let b0 := byteOf c0 in
      let bad := (RuneError, 1%nat) in
      if b0 <? 128 then (b0, 1%nat) else
      match s1 with
      | EmptyString => bad
      | String.String c1 s2 =>
          let b1 := byteOf c1 in
          if inRange 194 223 b0 then
            if inRange 128 191 b1 then ((b0 - 192) * 64 + (b1 - 128), 2%nat) else bad
          else match s2 with
          | EmptyString => bad
          | String.String c2 s3 =>
              let b2 := byteOf c2 in
              if inRange 224 239 b0 then
                if inRange (if b0 =? 224 then 160 else 128) (if b0 =? 237 then 159 else 191) b1 &&
                   inRange 128 191 b2
                then ((b0 - 224) * 4096 + (b1 - 128) * 64 + (b2 - 128), 3%nat) else bad
              else match s3 with
              | EmptyString => bad
              | String.String c3 _ =>
                  let b3 := byteOf c3 in
                  if inRange 240 244 b0 &&
                     inRange (if b0 =? 240 then 144 else 128) (if b0 =? 244 then 143 else 191) b1 &&
                     inRange 128 191 b2 && inRange 128 191 b3
                  then ((b0 - 240) * 262144 + (b1 - 128) * 4096 + (b2 - 128) * 64 + (b3 - 128), 4%nat)
                  else bad
              end
          end
      end
  end.

(** [unicode.IsUpper(r)] and [unicode.IsLetter(r)] with the tables beyond Latin-1. *)
Definition IsUpper (Upper : Z → bool) (r : Z) : bool :=
  if r <=? 255 then inRange 65 90 r || (inRange 192 222 r && negb (r =? 215)) else Upper r.
Definition IsLetter (Letter : Z → bool) (r : Z) : bool :=
  if r <=? 255 then
    inRange 65 90 r || inRange 97 122 r || (r =? 170) || (r =? 181) || (r =? 186) ||
    (inRange 192 255 r && negb (r =? 215) && negb (r =? 247))
  else Letter r.

(** [strings.FieldsFunc(s, f)]: the maximal runs of runes that are no separators;
    [word] is the run so far.  A rune has at least one byte, so the length of the
    string is enough fuel. *)
Fixpoint fields (sep : Z → bool) (fuel : nat) (word s : string) : list string :=
  let done := if bool_decide (word = EmptyString) then [] else [word] in
  match fuel, s with
  | _, EmptyString | O, _ => done
  | S fuel', _ =>
      let (r, n) := decodeRune s in
      if sep r then done ++ fields sep fuel' EmptyString (String.substring n (String.length s) s)
      else fields sep fuel' (String.append word (String.substring 0 n s)) (String.substring n (String.length s) s)
  end.
Definition FieldsFunc (sep : Z → bool) (s : string) : list string := fields sep (String.length s) EmptyString s.
