(* ===== verification/Decimal.v ===== *)
(** * Decimal numbers in strings

    What the program uses of [strconv] and of [fmt] on integers: the decimal form
    of an integer, its digits read back, and a literal at the head of a string.
    What follows a number is kept, so the lemmas compose. *)

From Stdlib Require Import Ascii.
From stdpp Require Import pretty.
From S2P Require Import Prelude.
Open Scope go_scope.

(** [strconv.Itoa] *)
Definition Itoa (n : Z) : string := pretty n.

Fixpoint stripPrefix (p s : string) : option string :=
  match p, s with
  | EmptyString, _ => Some s
  | String c p', String d s' => if Ascii.eqb c d then stripPrefix p' s' else None
  | _, _ => None
  end.

Definition digitOf (c : Ascii.ascii) : option Z :=
  let n := Z.of_nat (Ascii.nat_of_ascii c) in
  if (48 <=? n) && (n <=? 57) then Some (n - 48) else None.

(** The digits at the head of [s] after [acc], and what follows them. *)
Fixpoint scanDigits (s : string) (acc : Z) (seen : bool) : option (Z * string) :=
  match s with
  | EmptyString => if seen then Some (acc, s) else None
  | String c s' =>
      match digitOf c with
      | Some d => scanDigits s' (acc * 10 + d) true
      | None => if seen then Some (acc, s) else None
      end
  end.

(** ** Reading back what [Itoa] printed *)

Lemma stripPrefix_app p s : stripPrefix p (p +:+ s) = Some s.
Proof. induction p as [|c p IH]; [done|]. simpl. by rewrite Ascii.eqb_refl. Qed.

Lemma stripPrefix_Some p s r : stripPrefix p s = Some r → s = p +:+ r.
Proof.
  revert s. induction p as [|c p IH]; intros s H; simpl in H; [by simplify_eq|]. destruct s as [|d s]; [done|].
  destruct (Ascii.eqb_spec c d) as [->|]; [|done]. by rewrite (IH s H).
Qed.

Lemma digitOf_char x : (x < 10)%N → digitOf (pretty_N_char x) = Some (Z.of_N x).
Proof.
  intros Hx. assert (x = 0 ∨ x = 1 ∨ x = 2 ∨ x = 3 ∨ x = 4 ∨ x = 5 ∨ x = 6 ∨ x = 7 ∨ x = 8 ∨ x = 9)%N as H by lia.
  by destruct_or! H; subst x.
Qed.

Lemma pretty_N_go_app x s t : pretty_N_go x s +:+ t = pretty_N_go x (s +:+ t).
Proof.
  revert s. induction (N.lt_wf_0 x) as [x _ IH]; intros s. destruct (decide (x = 0%N)) as [->|]; [done|].
  rewrite !(pretty_N_go_step x) by lia. by rewrite IH by (apply N.div_lt; lia).
Qed.

Lemma scanDigits_go x : (0 < x)%N → ∃ k, 0 ≤ k ∧ ∀ s acc b,
  scanDigits (pretty_N_go x s) acc b = scanDigits s (acc * 10 ^ k + Z.of_N x) true.
Proof.
  induction (N.lt_wf_0 x) as [x _ IH]. intros Hx.
  pose proof (N.div_mod x 10 ltac:(done)) as Hdm. pose proof (N.mod_lt x 10 ltac:(done)) as Hm.
  destruct (decide (x `div` 10 = 0)%N) as [E|E].
  - exists 1. split; [done|]. intros s acc b. rewrite pretty_N_go_step, E, pretty_N_go_0 by done. simpl.
    rewrite digitOf_char by done. f_equal. lia.
  - destruct (IH (x `div` 10)%N) as (k & Hk0 & Hk); [apply N.div_lt; lia|lia|].
    exists (k + 1). split; [lia|]. intros s acc b. rewrite pretty_N_go_step, Hk by done. simpl.
    rewrite digitOf_char by done. f_equal. rewrite Z.pow_add_r by lia. lia.
Qed.

(** What follows a printed number does not start with a digit. *)
Definition noDigit (s : string) : Prop := match s with EmptyString => True | String c _ => digitOf c = None end.

Lemma scanDigits_stop s acc : noDigit s → scanDigits s acc true = Some (acc, s).
Proof. destruct s as [|c s]; [done|]. simpl. by intros ->. Qed.

Lemma Itoa_N x : 0 ≤ x → Itoa x = pretty (Z.to_N x).
Proof. intros Hx. unfold Itoa, pretty, pretty_Z. destruct x; try done; lia. Qed.

Lemma scanDigits_Itoa x s : 0 ≤ x → noDigit s → scanDigits (Itoa x +:+ s) 0 false = Some (x, s).
Proof.
  intros Hx Hs. rewrite Itoa_N by done. unfold pretty, pretty_N. case_decide as E.
  - replace x with 0 by lia. simpl. by rewrite scanDigits_stop.
  - rewrite pretty_N_go_app. destruct (scanDigits_go (Z.to_N x)) as (k & _ & Hk); [lia|]. rewrite Hk. simpl.
    rewrite scanDigits_stop by done. do 2 f_equal. lia.
Qed.

(** The printed form starts with a digit. *)
Lemma pretty_N_go_head x s : (0 < x)%N → ∃ c r, pretty_N_go x s = String c r ∧ is_Some (digitOf c).
Proof.
  revert s. induction (N.lt_wf_0 x) as [x _ IH]. intros s Hx. rewrite pretty_N_go_step by done.
  destruct (decide (x `div` 10 = 0)%N) as [->|E]; [|apply IH; [apply N.div_lt; lia|by apply N.neq_0_lt_0]].
  rewrite pretty_N_go_0. eexists _, _. split; [done|]. rewrite digitOf_char; [by eexists|]. by apply N.mod_lt.
Qed.

Lemma Itoa_head x s : 0 ≤ x → ∃ c r, Itoa x +:+ s = String c r ∧ is_Some (digitOf c).
Proof.
  intros Hx. rewrite Itoa_N by done. unfold pretty, pretty_N. case_decide; [by eexists _, _|].
  rewrite pretty_N_go_app. apply pretty_N_go_head. lia.
Qed.

Lemma append_nil (s : string) : s +:+ EmptyString = s.
Proof. induction s as [|c s IH]; [done|]. change (String c (s +:+ EmptyString) = String c s). by rewrite IH. Qed.

(** ** Signed numbers *)

(** An optional minus sign and digits. *)
Definition readInt (s : string) : option (Z * string) :=
  match s with
  | String c s' =>
      if Ascii.eqb c "-"%char then '(v, r) ← scanDigits s' 0 false; Some (- v, r) else scanDigits s 0 false
  | EmptyString => None
  end.

Lemma digitOf_minus c : is_Some (digitOf c) → Ascii.eqb c "-"%char = false.
Proof. intros [d H]. destruct (Ascii.eqb_spec c "-"%char) as [->|]; [|done]. by vm_compute in H. Qed.

Lemma Itoa_neg x : 0 < x → Itoa (- x) = String "-"%char (Itoa x).
Proof. intros Hx. destruct x; try lia. done. Qed.

Lemma readInt_Itoa x s : noDigit s → readInt (Itoa x +:+ s) = Some (x, s).
Proof.
  intros Hs. destruct (decide (0 ≤ x)) as [Hx|Hx].
  - pose proof (scanDigits_Itoa x s Hx Hs) as H. destruct (Itoa_head x s Hx) as (c & r & E & Hc). rewrite E in *.
    unfold readInt. by rewrite digitOf_minus.
  - replace x with (- (- x)) at 1 by lia. rewrite Itoa_neg by lia. simpl.
    rewrite scanDigits_Itoa by (done || lia). simpl. do 2 f_equal. lia.
Qed.

(** A number starts with a digit or the sign. *)
Definition starts (c : ascii) : bool := Ascii.eqb c "-"%char || bool_decide (is_Some (digitOf c)).

Lemma Itoa_start x s : ∃ c r, Itoa x +:+ s = String c r ∧ starts c = true.
Proof.
  unfold starts. destruct (decide (0 ≤ x)) as [Hx|Hx].
  - destruct (Itoa_head x s Hx) as (c & r & E & Hc). exists c, r. split; [done|]. by rewrite bool_decide_true, orb_true_r.
  - replace x with (- (- x)) by lia. rewrite Itoa_neg by lia. by eexists _, _.
Qed.
