(* ===== verification/Json.v ===== *)
(** * JSON texts

    What the program uses of [encoding/json]: the text of a value (compact, strings
    escaped for HTML and sanitized to UTF-8, a nil slice as [null]), a reader of such
    texts, and the round trip: the reader gets the value back, with every byte that
    is no UTF-8 replaced.  The text has no [<], [>] or [&]. *)

From Stdlib Require Import Ascii.
From stdpp Require Import pretty.
From S2P Require Import Prelude Runes Decimal.
Open Scope go_scope.

(** ** JSON text *)

(** A JSON value with integer numbers; the members of an object in their order. *)
Inductive json :=
  | JNull
  | JNum (n : Z)
  | JStr (s : string)
  | JArr (l : list json)
  | JObj (l : list (string * json)).

Definition quote : ascii := "034"%char.
Definition backslash : ascii := "092"%char.

(** [s[n:]] *)
Fixpoint dropS (n : nat) (s : string) : string :=
  match n, s with S n', String _ s' => dropS n' s' | _, _ => s end.

(** [s[:n]] *)
Fixpoint takeS (n : nat) (s : string) : string :=
  match n, s with S n', String c s' => String c (takeS n' s') | _, _ => EmptyString end.

(** [hex[n]] of [encoding/json]. *)
Definition hexDigit (n : Z) : ascii :=
  ascii_of_N (Z.to_N (if n <? 10 then 48 + n else 87 + n)).

(** A byte below [utf8.RuneSelf]: itself when it is in [htmlSafeSet], or its escape. *)
Definition escapeByte (c : ascii) : string :=
  let b := byteOf c in
  if Ascii.eqb c quote || Ascii.eqb c backslash then String backslash (String c EmptyString)
  else if b =? 8 then "\b"
  else if b =? 12 then "\f"
  else if b =? 10 then "\n"
  else if b =? 13 then "\r"
  else if b =? 9 then "\t"
  else if (b <? 32) || (b =? 60) || (b =? 62) || (b =? 38)
  then "\u00" +:+ String (hexDigit (b `div` 16)) (String (hexDigit (b `mod` 16)) EmptyString)
  else String c EmptyString.

(** The loop of [appendString] with [escapeHTML]: a byte that is no UTF-8 is
    written as the replacement character, and U+2028 and U+2029 are escaped.
    Every round consumes a byte, so the length of the string is enough fuel. *)
Fixpoint escapeString (fuel : nat) (s : string) : string :=
  match fuel, s with
  | S fuel', String c s' =>
      if byteOf c <? 128 then escapeByte c +:+ escapeString fuel' s' else
      let (r, n) := decodeRune s in
      if (r =? RuneError) && bool_decide (n = 1%nat) then "\ufffd" +:+ escapeString fuel' s'
      else if (r =? 8232) || (r =? 8233)
      then "\u202" +:+ String (hexDigit (Z.land r 15)) EmptyString +:+ escapeString fuel' (dropS n s)
      else takeS n s +:+ escapeString fuel' (dropS n s)
  | _, _ => EmptyString
  end.

Definition quoted (s : string) : string :=
  String quote (escapeString (String.length s) s +:+ String quote EmptyString).

(** The elements of an array or the members of an object. *)
Fixpoint commas (l : list string) : string :=
  match l with
  | [] => EmptyString
  | [x] => x
  | x :: l' => x +:+ "," +:+ commas l'
  end.

(** [json.Marshal] of a value. *)
Fixpoint MarshalJson (j : json) : string :=
  match j with
  | JNull => "null"
  | JNum n => Itoa n
  | JStr s => quoted s
  | JArr l => "[" +:+ commas (map MarshalJson l) +:+ "]"
  | JObj l => "{" +:+ commas (map (λ kv, quoted kv.1 +:+ ":" +:+ MarshalJson kv.2) l) +:+ "}"
  end.

(** ** A reader of JSON

    What [encoding/json] reads of the texts it writes, which are all the program gives it:
    no space between the tokens, integers, [null] as the only word, and no escaped
    surrogate pair. *)

Definition hexVal (c : ascii) : option Z :=
  let b := byteOf c in
  if inRange 48 57 b then Some (b - 48)
  else if inRange 97 102 b then Some (b - 87)
  else if inRange 65 70 b then Some (b - 55) else None.

Definition hex4 (a b c d : ascii) : option Z :=
  x ← hexVal a; y ← hexVal b; z ← hexVal c; w ← hexVal d; Some (((x * 16 + y) * 16 + z) * 16 + w).

Definition byteS (b : Z) : string := String (ascii_of_N (Z.to_N b)) EmptyString.

(** The UTF-8 form of a code unit; [None]: half of a surrogate pair. *)
Definition encodeUnit (r : Z) : option string :=
  if r <? 128 then Some (byteS r)
  else if r <? 2048 then Some (byteS (192 + r `div` 64) +:+ byteS (128 + r `mod` 64))
  else if inRange 55296 57343 r then None
  else Some (byteS (224 + r `div` 4096) +:+ byteS (128 + (r `div` 64) `mod` 64) +:+ byteS (128 + r `mod` 64)).

(** The byte a backslash and [c] stand for. *)
Definition unescape (c : ascii) : option ascii :=
  if Ascii.eqb c quote then Some c
  else if Ascii.eqb c backslash then Some c
  else if Ascii.eqb c "/"%char then Some c
  else if Ascii.eqb c "b"%char then Some "008"%char
  else if Ascii.eqb c "f"%char then Some "012"%char
  else if Ascii.eqb c "n"%char then Some "010"%char
  else if Ascii.eqb c "r"%char then Some "013"%char
  else if Ascii.eqb c "t"%char then Some "009"%char
  else None.

(** The contents of a string up to the closing quote. *)
Fixpoint readChars (s : string) : option (string * string) :=
  match s with
  | EmptyString => None
  | String c s1 =>
      if Ascii.eqb c quote then Some (EmptyString, s1)
      else if Ascii.eqb c backslash then
        match s1 with
        | EmptyString => None
        | String e s2 =>
            if Ascii.eqb e "u"%char then
              match s2 with
              | String h1 (String h2 (String h3 (String h4 s3))) =>
                  n ← hex4 h1 h2 h3 h4; u ← encodeUnit n;
                  '(t, r) ← readChars s3; Some (u +:+ t, r)
              | _ => None
              end
            else x ← unescape e; '(t, r) ← readChars s2; Some (String x t, r)
        end
      else if byteOf c <? 32 then None
      else '(t, r) ← readChars s1; Some (String c t, r)
  end.

(** One or more items separated by commas and ended by [close]. *)
Fixpoint readItems {A} (item : string → option (A * string)) (close : ascii) (fuel : nat) (s : string)
    : option (list A * string) :=
  match fuel with
  | O => None
  | S fuel' =>
      '(x, r) ← item s;
      match r with
      | String c r' =>
          if Ascii.eqb c close then Some ([x], r')
          else if Ascii.eqb c ","%char then '(l, r'') ← readItems item close fuel' r'; Some (x :: l, r'')
          else None
      | EmptyString => None
      end
  end.

(** The items between brackets, of which the opening one has been read. *)
Definition readList {A} (item : string → option (A * string)) (close : ascii) (fuel : nat) (s : string)
    : option (list A * string) :=
  match s with
  | String c r => if Ascii.eqb c close then Some ([], r) else readItems item close fuel s
  | EmptyString => None
  end.

(** A member of an object. *)
Definition readMember (value : string → option (json * string)) (s : string) : option ((string * json) * string) :=
  match s with
  | String c s1 =>
      if Ascii.eqb c quote then
        '(k, r) ← readChars s1;
        match r with
        | String c2 r2 => if Ascii.eqb c2 ":"%char then '(v, r3) ← value r2; Some ((k, v), r3) else None
        | EmptyString => None
        end
      else None
  | EmptyString => None
  end.

(** A value at the head of [s], and what follows it. *)
Fixpoint readValue (fuel : nat) (s : string) : option (json * string) :=
  match fuel, s with
  | S fuel', String c s1 =>
      if Ascii.eqb c quote then '(t, r) ← readChars s1; Some (JStr t, r)
      else if Ascii.eqb c "n"%char then r ← stripPrefix "ull" s1; Some (JNull, r)
      else if Ascii.eqb c "["%char then
        '(l, r) ← readList (readValue fuel') "]"%char fuel' s1; Some (JArr l, r)
      else if Ascii.eqb c "{"%char then
        '(l, r) ← readList (readMember (readValue fuel')) "}"%char fuel' s1; Some (JObj l, r)
      else '(n, r) ← readInt s; Some (JNum n, r)
  | _, _ => None
  end.

Definition readJson (s : string) : option json :=
  '(j, r) ← readValue (String.length s) s;
  if bool_decide (r = EmptyString) then Some j else None.

(** The string with every byte that is no UTF-8 replaced by U+FFFD. *)
Definition replacement : string := byteS 239 +:+ byteS 191 +:+ byteS 189.
Fixpoint sanitize (fuel : nat) (s : string) : string :=
  match fuel, s with
  | S fuel', String c s' =>
      if byteOf c <? 128 then String c (sanitize fuel' s') else
      let (r, n) := decodeRune s in
      if (r =? RuneError) && bool_decide (n = 1%nat) then replacement +:+ sanitize fuel' s'
      else takeS n s +:+ sanitize fuel' (dropS n s)
  | _, _ => EmptyString
  end.
Definition toValid (s : string) : string := sanitize (String.length s) s.

Fixpoint validJson (j : json) : json :=
  match j with
  | JNull => JNull
  | JNum n => JNum n
  | JStr s => JStr (toValid s)
  | JArr l => JArr (map validJson l)
  | JObj l => JObj (map (λ kv, (toValid kv.1, validJson kv.2)) l)
  end.

(** Induction with the hypothesis for the parts of an array or an object. *)
Lemma json_nested (P : json → Prop) :
  P JNull → (∀ n, P (JNum n)) → (∀ s, P (JStr s)) → (∀ l, Forall P l → P (JArr l)) →
  (∀ l, Forall (λ kv, P kv.2) l → P (JObj l)) → ∀ j, P j.
Proof.
  intros H0 Hn Hs Ha Ho. fix IH 1. intros [|n|s|l|l]; [apply H0|apply Hn|apply Hs|apply Ha|apply Ho].
  - induction l as [|x l IHl]; constructor; [apply IH|apply IHl].
  - induction l as [|x l IHl]; constructor; [apply IH|apply IHl].
Qed.

(** ** Strings *)

Lemma append_assoc (a b c : string) : (a +:+ b) +:+ c = a +:+ (b +:+ c).
Proof. induction a as [|x a IH]; [done|]. change (String x ((a +:+ b) +:+ c) = String x (a +:+ (b +:+ c))). by rewrite IH. Qed.

Lemma length_append (a b : string) : String.length (a +:+ b) = (String.length a + String.length b)%nat.
Proof. induction a as [|x a IH]; [done|]. simpl. by rewrite <-IH. Qed.

Lemma length_dropS n s : String.length (dropS n s) = (String.length s - n)%nat.
Proof. revert s. induction n as [|n IH]; intros [|c s]; simpl; try done. Qed.

Lemma byteOf_range c : 0 ≤ byteOf c < 256.
Proof. unfold byteOf. pose proof (N_ascii_bounded c). lia. Qed.

Lemma byteS_byteOf c : byteS (byteOf c) = String c EmptyString.
Proof. unfold byteS, byteOf. by rewrite N2Z.id, ascii_N_embedding. Qed.

Lemma String_byteS c n s : byteOf c = n → String c s = byteS n +:+ s.
Proof. intros <-. by rewrite byteS_byteOf. Qed.

(** Every byte of [s] satisfies [P]. *)
Fixpoint allBytes (P : ascii → bool) (s : string) : bool :=
  match s with EmptyString => true | String c s' => P c && allBytes P s' end.

Lemma allBytes_app P a b : allBytes P (a +:+ b) = allBytes P a && allBytes P b.
Proof. induction a as [|c a IH]; [done|]. simpl. by rewrite <-andb_assoc, <-IH. Qed.

Lemma allBytes_weaken (P Q : ascii → bool) s : (∀ c, P c = true → Q c = true) → allBytes P s = true → allBytes Q s = true.
Proof. intros H. induction s as [|c s IH]; [done|]. simpl. rewrite !andb_true_iff. naive_solver. Qed.

Definition high (c : ascii) : bool := 128 <=? byteOf c.

(** A decoded rune beyond ASCII: bytes with the high bit, and the bytes of the two
    line separators. *)
Lemma decodeRune_multi c s r n : high c = true → decodeRune (String c s) = (r, n) →
  (r =? RuneError) && bool_decide (n = 1%nat) = false →
  (2 ≤ n)%nat ∧ allBytes high (takeS n (String c s)) = true ∧
  (r = 8232 ∨ r = 8233 → takeS n (String c s) = byteS 226 +:+ byteS 128 +:+ byteS (128 + (r - 8192))).
Proof.
  unfold high. intros Hc%Z.leb_le H Hgood. unfold decodeRune, inRange in H.
  rewrite (proj2 (Z.ltb_ge (byteOf c) 128)) in H by lia.
  destruct s as [|c1 [|c2 [|c3 s]]];
    repeat match goal with H : (if ?b then _ else _) = _ |- _ => destruct b eqn:? end;
    simplify_eq; try match type of Hgood with (RuneError =? RuneError) && _ = false => by vm_compute in Hgood end; clear Hgood; bool_simpl.
  all: unfold allBytes, takeS, high; rewrite ?andb_true_iff, ?Z.leb_le.
  all: repeat match goal with H : context [if ?b then _ else _] |- _ => destruct b eqn:?; bool_simpl end.
  all: repeat split; try lia; intros Hr; try (exfalso; lia).
  all: rewrite (String_byteS c 226), (String_byteS c1 128), (String_byteS c2 (byteOf c2)) by (done || lia);
    rewrite !append_nil; do 2 f_equal; f_equal; lia.
Qed.

(** ** Reading a string *)

Section readChars.
Context (s t r : string) (Hs : readChars s = Some (t, r)).

(** A byte that stands for itself, a short escape, and an escaped code unit. *)
Definition plain (c : ascii) : bool := negb (Ascii.eqb c quote || Ascii.eqb c backslash || (byteOf c <? 32)).

Lemma readChars_plain c : plain c = true → readChars (String c s) = Some (String c t, r).
Proof.
  unfold plain. rewrite negb_true_iff, !orb_false_iff. intros [[H1 H2] H3]. cbn [readChars]. by rewrite H1, H2, H3, Hs.
Qed.

Lemma readChars_short e x : Ascii.eqb e "u"%char = false → unescape e = Some x →
  readChars (String backslash (String e s)) = Some (String x t, r).
Proof.
  intros He Hx. cbn [readChars]. replace (Ascii.eqb backslash quote) with false by done.
  rewrite Ascii.eqb_refl, He, Hx. simpl. by rewrite Hs.
Qed.

Lemma readChars_unit h1 h2 h3 h4 n u : hex4 h1 h2 h3 h4 = Some n → encodeUnit n = Some u →
  readChars (String backslash (String "u"%char (String h1 (String h2 (String h3 (String h4 s))))))
    = Some (u +:+ t, r).
Proof.
  intros Hh Hu. cbn [readChars]. replace (Ascii.eqb backslash quote) with false by done.
  rewrite !Ascii.eqb_refl, Hh. simpl. by rewrite Hu, Hs.
Qed.

(** Reading back one escaped byte. *)
Lemma readChars_escapeByte c : high c = false → readChars (escapeByte c +:+ s) = Some (String c t, r).
Proof.
  intros Hc. destruct c as [[] [] [] [] [] [] [] []]; try (by vm_compute in Hc);
    (match goal with |- context [escapeByte ?c] =>
       let e := eval vm_compute in (escapeByte c) in change (escapeByte c) with e;
       first [by apply (readChars_plain c)|by apply (readChars_short _ c)
             |by eapply (readChars_unit _ _ _ _ (byteOf c) (String c EmptyString))] end).
Qed.

Lemma readChars_separator n : n = 8232 ∨ n = 8233 →
  readChars ("\u202" +:+ String (hexDigit (Z.land n 15)) EmptyString +:+ s)
    = Some (byteS 226 +:+ byteS 128 +:+ byteS (128 + (n - 8192)) +:+ t, r).
Proof.
  intros [->| ->]; [by eapply (readChars_unit _ _ _ _ 8232 (byteS 226 +:+ byteS 128 +:+ byteS 168))
                  |by eapply (readChars_unit _ _ _ _ 8233 (byteS 226 +:+ byteS 128 +:+ byteS 169))].
Qed.

Lemma readChars_replaced : readChars ("\ufffd" +:+ s) = Some (replacement +:+ t, r).
Proof. by eapply (readChars_unit _ _ _ _ RuneError replacement). Qed.
End readChars.

Lemma high_plain c : high c = true → plain c = true.
Proof.
  unfold high, plain. intros Hc%Z.leb_le. rewrite negb_true_iff, !orb_false_iff, Z.ltb_ge. split_and!; [..|lia];
    apply Ascii.eqb_neq; intros ->; by vm_compute in Hc.
Qed.

Lemma readChars_high u s t r : allBytes high u = true → readChars s = Some (t, r) → readChars (u +:+ s) = Some (u +:+ t, r).
Proof.
  intros Hu Hs. induction u as [|c u IH]; [done|]. simpl in Hu. apply andb_true_iff in Hu as [Hc Hu].
  apply (readChars_plain (u +:+ s)); [by apply IH|by apply high_plain].
Qed.

Lemma readChars_escape fuel s r : (String.length s ≤ fuel)%nat →
  readChars (escapeString fuel s +:+ String quote r) = Some (sanitize fuel s, r).
Proof.
  revert s. induction fuel as [|fuel IH]; intros [|c s] Hl; try done.
  cbn [escapeString sanitize]. destruct (byteOf c <? 128) eqn:Hc.
  - rewrite append_assoc. apply readChars_escapeByte; [apply IH; simpl in Hl; lia|unfold high; by apply Z.leb_gt, Z.ltb_lt].
  - destruct (decodeRune (String c s)) as [n k] eqn:E. destruct ((n =? RuneError) && _) eqn:Hbad.
    { rewrite append_assoc. apply readChars_replaced, IH. simpl in Hl. lia. }
    destruct (decodeRune_multi c s n k) as (Hk & Hhigh & Hsep); [unfold high; by apply Z.leb_le, Z.ltb_ge|done|done|].
    assert (String.length (dropS k (String c s)) ≤ fuel)%nat as Hd by (rewrite length_dropS; lia).
    destruct ((n =? 8232) || (n =? 8233)) eqn:Hn; rewrite !append_assoc.
    + apply orb_true_iff in Hn as Hn'. rewrite !Z.eqb_eq in Hn'. rewrite Hsep, !append_assoc by done.
      apply readChars_separator; [by apply IH|done].
    + by apply readChars_high, IH.
Qed.

Lemma readChars_quoted s r : readChars (escapeString (String.length s) s +:+ String quote EmptyString +:+ r) = Some (toValid s, r).
Proof. by apply readChars_escape. Qed.

(** ** Reading a value *)

(** What follows a value in a list. *)
Lemma readItems_commas {A B} (item : string → option (B * string)) (pr : A → string) (res : A → B) close fuel (l : list A) r :
  l ≠ [] → close ≠ ","%char → digitOf close = None →
  (String.length (commas (map pr l) +:+ String close r) ≤ fuel)%nat →
  (∀ x r', x ∈ l → noDigit r' → (String.length (pr x +:+ r') ≤ String.length (commas (map pr l) +:+ String close r))%nat →
     item (pr x +:+ r') = Some (res x, r')) →
  readItems item close fuel (commas (map pr l) +:+ String close r) = Some (map res l, r).
Proof.
  intros Hne Hcl Hd. revert fuel. induction l as [|x l IH]; intros [|fuel] Hlen Hit; try done.
  { exfalso. rewrite length_append in Hlen. simpl in Hlen. lia. }
  destruct l as [|y l].
  - cbn [readItems commas map]. rewrite (Hit x); [|set_solver|done|done]. simpl. by rewrite Ascii.eqb_refl.
  - change (commas (map pr (x :: y :: l))) with (pr x +:+ "," +:+ commas (map pr (y :: l))) in *.
    set (rest := commas (map pr (y :: l))) in *. cbn [readItems]. rewrite !append_assoc in *.
    rewrite (Hit x); [|set_solver|done|done]. cbn [mbind option_bind].
    change ("," +:+ rest +:+ String close r) with (String ","%char (rest +:+ String close r)) in *. cbv beta iota.
    rewrite (proj2 (Ascii.eqb_neq _ close)), Ascii.eqb_refl by done. rewrite !length_append in Hlen. simpl in Hlen.
    rewrite IH; [done|done|lia|].
    intros z r' Hz Hr' Hl. apply Hit; [set_solver|done|]. etrans; [exact Hl|]. rewrite (length_append (pr x)). simpl. lia.
Qed.

(** The first byte of a value closes no bracket. *)
Lemma starts_ne c d : starts c = true → starts d = false → Ascii.eqb c d = false.
Proof. intros Hc Hd. apply Ascii.eqb_neq. by intros ->; rewrite Hc in Hd. Qed.

Lemma MarshalJson_head j r close : close = "]"%char ∨ close = "}"%char →
  ∃ c s, MarshalJson j +:+ r = String c s ∧ Ascii.eqb c close = false.
Proof.
  intros Hcl. destruct j as [|n|s|l|l]; [by destruct Hcl as [->| ->]; eexists _, _| |by destruct Hcl as [->| ->]; eexists _, _..].
  destruct (Itoa_start n r) as (c & s & E & Hc). exists c, s. split; [done|].
  apply starts_ne; [done|by destruct Hcl as [->| ->]].
Qed.

(** A member of an object. *)
Definition MarshalMember (kv : string * json) : string := quoted kv.1 +:+ ":" +:+ MarshalJson kv.2.

Lemma readMember_Marshal value kv v r : value (MarshalJson kv.2 +:+ r) = Some (v, r) →
  readMember value (MarshalMember kv +:+ r) = Some ((toValid kv.1, v), r).
Proof.
  intros Hv. unfold MarshalMember, quoted. rewrite !append_assoc.
  change (String quote ?x +:+ ?y) with (String quote (x +:+ y)). rewrite append_assoc. cbn [readMember].
  rewrite Ascii.eqb_refl, readChars_quoted. cbn [mbind option_bind].
  change (":" +:+ ?x) with (String ":"%char x). cbv beta iota. by rewrite Ascii.eqb_refl, Hv.
Qed.

(** The brackets around the items, of which [readItems] reads one or more. *)
Lemma readList_commas {A B} (item : string → option (B * string)) (pr : A → string) (res : A → B) close fuel (l : list A) r :
  close = "]"%char ∨ close = "}"%char →
  (∀ x r, x ∈ l → ∃ c s, pr x +:+ r = String c s ∧ Ascii.eqb c close = false) →
  (String.length (commas (map pr l) +:+ String close r) ≤ fuel)%nat →
  (∀ x r', x ∈ l → noDigit r' → (String.length (pr x +:+ r') ≤ fuel)%nat → item (pr x +:+ r') = Some (res x, r')) →
  readList item close fuel (commas (map pr l) +:+ String close r) = Some (map res l, r).
Proof.
  intros Hcl Hhead Hlen Hit. destruct (decide (l = [])) as [->|Hne]; [simpl; by rewrite Ascii.eqb_refl|].
  assert (readItems item close fuel (commas (map pr l) +:+ String close r) = Some (map res l, r)) as H.
  { apply readItems_commas; [done|by destruct Hcl as [->| ->]|by destruct Hcl as [->| ->]|done|].
    intros x r' Hx Hr' Hl. apply Hit; [done|done|lia]. }
  assert (∃ x u, x ∈ l ∧ commas (map pr l) +:+ String close r = pr x +:+ u) as (x & u & Hx & E).
  { destruct l as [|x [|y l]]; [done|exists x, (String close r)|eexists x, _]; (split; [set_solver|]); [done|by rewrite <-append_assoc]. }
  destruct (Hhead x u Hx) as (c & s & E' & Hc). rewrite E, E' in H |- *. unfold readList. by rewrite Hc.
Qed.

Lemma readValue_Marshal j : ∀ fuel r, noDigit r → (String.length (MarshalJson j +:+ r) ≤ fuel)%nat →
  readValue fuel (MarshalJson j +:+ r) = Some (validJson j, r).
Proof.
  induction j as [|n|s|l Hl|l Hl] using json_nested; intros fuel r Hr Hf.
  - cbn [MarshalJson validJson] in *. change ("null" +:+ r) with (String "n"%char ("ull" +:+ r)) in *.
    destruct fuel as [|fuel]; [simpl in Hf; lia|]. cbn [readValue]. rewrite Ascii.eqb_refl, stripPrefix_app. done.
  - destruct (Itoa_start n r) as (c & s & E & Hc). pose proof (readInt_Itoa n r Hr) as Hn.
    cbn [MarshalJson validJson] in *. rewrite E in *. destruct fuel as [|fuel]; [simpl in Hf; lia|]. cbn [readValue].
    rewrite !(starts_ne c) by done. by rewrite Hn.
  - cbn [MarshalJson validJson] in *. unfold quoted in *. change (String quote ?x +:+ ?y) with (String quote (x +:+ y)) in *.
    destruct fuel as [|fuel]; [simpl in Hf; lia|]. cbn [readValue]. rewrite Ascii.eqb_refl, append_assoc, readChars_quoted. done.
  - cbn [MarshalJson validJson] in *. change ("[" +:+ ?x) with (String "["%char x) in *.
    change (String "["%char ?x +:+ ?y) with (String "["%char (x +:+ y)) in *.
    destruct fuel as [|fuel]; [simpl in Hf; lia|]. cbn [readValue].
    rewrite append_assoc in *. change ("]" +:+ r) with (String "]"%char r) in *.
    rewrite (readList_commas _ _ validJson); [done|by left| |simpl in Hf; lia|].
    + intros x r' _. apply MarshalJson_head. by left.
    + intros x r' Hx Hr' Hx'. rewrite Forall_forall in Hl. by apply Hl.
  - cbn [MarshalJson validJson] in *. change (map (λ kv, quoted kv.1 +:+ ":" +:+ MarshalJson kv.2)) with (map MarshalMember) in *.
    change ("{" +:+ ?x) with (String "{"%char x) in *.
    change (String "{"%char ?x +:+ ?y) with (String "{"%char (x +:+ y)) in *.
    destruct fuel as [|fuel]; [simpl in Hf; lia|]. cbn [readValue].
    rewrite append_assoc in *. change ("}" +:+ r) with (String "}"%char r) in *.
    rewrite (readList_commas _ _ (λ kv, (toValid kv.1, validJson kv.2))); [done|by right| |simpl in Hf; lia|].
    + intros x r' _. by eexists _, _.
    + intros x r' Hx Hr' Hx'. rewrite Forall_forall in Hl. apply readMember_Marshal, Hl; [done|done|].
      etrans; [|exact Hx']. unfold MarshalMember. rewrite !length_append. lia.
Qed.

Lemma readJson_Marshal j : readJson (MarshalJson j) = Some (validJson j).
Proof.
  unfold readJson. rewrite <-(append_nil (MarshalJson j)). by rewrite readValue_Marshal.
Qed.

(** ** The parts of a value *)

Definition asNum (j : json) : option Z := match j with JNum n => Some n | _ => None end.
Definition asStr (j : json) : option string := match j with JStr s => Some s | _ => None end.
Definition asArr (j : json) : option (list json) := match j with JArr l => Some l | _ => None end.
Definition asObj (j : json) : option (list (string * json)) := match j with JObj l => Some l | _ => None end.

(** [j['name']] *)
Definition field (name : string) (j : json) : option json :=
  o ← asObj j; '(_, kv) ← list_find (λ kv, kv.1 = name) o; Some kv.2.

Lemma mapM_map {A B D} (f : B → option D) (g : A → B) (h : A → D) (l : list A) :
  (∀ x, f (g x) = Some (h x)) → mapM f (map g l) = Some (map h l).
Proof. intros H. induction l as [|x l IH]; [done|]. simpl. by rewrite H, IH. Qed.

(** Bytes below 128 are UTF-8. *)
Definition low (c : ascii) : bool := byteOf c <? 128.

Lemma sanitize_low fuel s : (String.length s ≤ fuel)%nat → allBytes low s = true → sanitize fuel s = s.
Proof.
  revert s. induction fuel as [|fuel IH]; intros [|c s] Hl Hs; try done; [simpl in Hl; lia|].
  simpl in Hs. apply andb_true_iff in Hs as [Hc Hs]. cbn [sanitize]. unfold low in Hc. rewrite Hc, IH; [done|simpl in Hl; lia|done].
Qed.

(** The bytes of a number. *)
Lemma Itoa_bytes (P : ascii → bool) x : allBytes P "-0123456789" = true → allBytes P (Itoa x) = true.
Proof.
  simpl. rewrite !andb_true_iff. intros Hd.
  assert (∀ n s, allBytes P s = true → allBytes P (pretty_N_go n s) = true) as Hgo.
  { intros n. induction (N.lt_wf_0 n) as [n _ IH]; intros s Hs. destruct (decide (n = 0%N)) as [->|]; [done|].
    rewrite pretty_N_go_step by lia. apply IH; [apply N.div_lt; lia|]. simpl. rewrite Hs, andb_true_r.
    unfold pretty_N_char. by repeat case_match; destruct_and! Hd. }
  assert (∀ n : N, allBytes P (pretty n) = true) as Hn.
  { intros n. unfold pretty, pretty_N. case_decide; [simpl; by destruct_and! Hd; simplify_eq; rewrite andb_true_r|by apply Hgo]. }
  destruct x; [apply (Hn 0%N)|apply (Hn (Npos _))|].
  change (P "-"%char && allBytes P (pretty (Npos p)) = true). rewrite Hn. by destruct_and! Hd; rewrite andb_true_r.
Qed.

(** ** The text stays inside a script element *)

(** No byte that HTML could take for markup. *)
Definition htmlSafe (c : ascii) : bool := negb (Ascii.eqb c "<"%char || Ascii.eqb c ">"%char || Ascii.eqb c "&"%char).

Lemma low_safe c : high c = true → htmlSafe c = true.
Proof.
  unfold high, htmlSafe. intros Hc%Z.leb_le. rewrite negb_true_iff, !orb_false_iff.
  split_and!; apply Ascii.eqb_neq; intros ->; by vm_compute in Hc.
Qed.

Lemma escapeByte_safe c : allBytes htmlSafe (escapeByte c) = true.
Proof. by destruct c as [[] [] [] [] [] [] [] []]; vm_compute. Qed.

Lemma escape_safe fuel s : allBytes htmlSafe (escapeString fuel s) = true.
Proof.
  revert s. induction fuel as [|fuel IH]; intros [|c s]; try done. cbn [escapeString]. destruct (byteOf c <? 128) eqn:Hc.
  - by rewrite allBytes_app, escapeByte_safe, IH.
  - destruct (decodeRune (String c s)) as [n k] eqn:E. destruct ((n =? RuneError) && _) eqn:Hbad; [by rewrite allBytes_app, IH|].
    destruct (decodeRune_multi c s n k) as (_ & Hhigh & _); [unfold high; by apply Z.leb_le, Z.ltb_ge|done|done|].
    destruct ((n =? 8232) || (n =? 8233)) eqn:Hn; rewrite !allBytes_app, IH, andb_true_r.
    + apply orb_true_iff in Hn. rewrite !Z.eqb_eq in Hn. by destruct Hn as [->| ->].
    + by eapply allBytes_weaken; [apply low_safe|].
Qed.

Lemma quoted_safe s : allBytes htmlSafe (quoted s) = true.
Proof. unfold quoted. simpl. by rewrite allBytes_app, escape_safe. Qed.

Lemma commas_safe l : Forall (λ s, allBytes htmlSafe s = true) l → allBytes htmlSafe (commas l) = true.
Proof.
  induction 1 as [|x [|y l] Hx Hl IH]; [done|done|].
  change (commas (x :: y :: l)) with (x +:+ "," +:+ commas (y :: l)). by rewrite !allBytes_app, Hx, IH.
Qed.

Lemma MarshalJson_safe j : allBytes htmlSafe (MarshalJson j) = true.
Proof.
  induction j as [|n|s|l Hl|l Hl] using json_nested; cbn [MarshalJson]; [done|by apply Itoa_bytes|apply quoted_safe|..];
    rewrite !allBytes_app; simpl; rewrite andb_true_r; apply commas_safe, Forall_map; [done|].
  eapply Forall_impl; [exact Hl|]. intros kv Hkv. change (allBytes htmlSafe (MarshalMember kv) = true).
  unfold MarshalMember. by rewrite !allBytes_app, quoted_safe, Hkv.
Qed.

(** ** Strings that JSON leaves alone *)

(** The string is UTF-8. *)
Definition utf8 (s : string) : Prop := toValid s = s.
#[export] Instance utf8_dec s : Decision (utf8 s) := decide (toValid s = s).

(** The string is made of whole runes. *)
Definition wholeRunes (w : string) : Prop := ∀ t, toValid (w +:+ t) = w +:+ toValid t.

Lemma wholeRunes_utf8 w : wholeRunes w → utf8 w.
Proof. intros H. unfold utf8. rewrite <-(append_nil w) at 1. by rewrite H, append_nil. Qed.

Lemma wholeRunes_nil : wholeRunes EmptyString.
Proof. done. Qed.

Lemma wholeRunes_app w u : wholeRunes w → wholeRunes u → wholeRunes (w +:+ u).
Proof. intros Hw Hu t. by rewrite append_assoc, Hw, Hu, append_assoc. Qed.

Lemma takeS_app n s t : (n ≤ String.length s)%nat → dropS n (s +:+ t) = dropS n s +:+ t ∧ takeS n (s +:+ t) = takeS n s.
Proof.
  revert s. induction n as [|n IH]; intros [|c s] Hn; simpl in Hn; try lia; [done|done|].
  destruct (IH s) as [E1 E2]; [lia|]. split; [exact E1|]. change (String c (takeS n (s +:+ t)) = String c (takeS n s)). by rewrite E2.
Qed.

Lemma length_takeS n s : String.length (takeS n s) = Nat.min n (String.length s).
Proof. revert s. induction n as [|n IH]; intros [|c s]; simpl; try done. by rewrite IH. Qed.

Lemma dropS_all n s : String.length s = n → dropS n s = EmptyString ∧ takeS n s = s.
Proof. revert n. induction s as [|c s IH]; intros [|n] H; simpl in H; try done. destruct (IH n) as [E1 E2]; [lia|]. split; [done|]. simpl. by rewrite E2. Qed.

(** Fuel beyond the length changes nothing. *)
Lemma sanitize_fuel fuel s : (String.length s ≤ fuel)%nat → sanitize fuel s = toValid s.
Proof.
  assert (∀ f f' s, String.length s ≤ f → String.length s ≤ f' → sanitize f s = sanitize f' s)%nat as H; [|intros; by apply H].
  clear. induction f as [|f IH]; intros [|f'] [|c s] H H'; simpl in H, H'; try lia; try done. cbn [sanitize].
  destruct (byteOf c <? 128); [f_equal; apply IH; lia|]. destruct (decodeRune (String c s)) as [r n] eqn:E.
  destruct (_ && _) eqn:Hbad; [f_equal; apply IH; lia|]. f_equal.
  destruct (decide (byteOf c < 128)) as [Hlow|Hhigh]; [unfold decodeRune in E; rewrite (proj2 (Z.ltb_lt _ _) Hlow) in E; injection E as <- <-; apply IH; simpl; lia|].
  destruct (decodeRune_multi c s r n) as (Hn & _); [unfold high; apply Z.leb_le; lia|done|done|].
  apply IH; rewrite length_dropS; simpl; lia.
Qed.

Lemma decodeRune_width s r n : s ≠ EmptyString → decodeRune s = (r, n) → (1 ≤ n ≤ String.length s)%nat.
Proof.
  destruct s as [|c [|c1 [|c2 [|c3 s]]]]; intros Hne H; [done|..]; unfold decodeRune in H;
    repeat match goal with H : (if ?b then _ else _) = _ |- _ => destruct b eqn:? end; simplify_eq; simpl; lia.
Qed.

(** A decoded rune is decoded from its own bytes. *)
Lemma decodeRune_own s r n t : s ≠ EmptyString → decodeRune s = (r, n) → (r =? RuneError) && bool_decide (n = 1%nat) = false →
  decodeRune (takeS n s +:+ t) = (r, n).
Proof.
  destruct s as [|c [|c1 [|c2 [|c3 s]]]]; intros Hne H Hgood; [done|..]; unfold decodeRune in H;
    repeat match goal with H : (if ?b then _ else _) = _ |- _ => destruct b eqn:? end; simplify_eq;
    try match type of Hgood with (RuneError =? RuneError) && _ = false => by vm_compute in Hgood end; clear Hgood.
  all: cbn [takeS]; repeat change (String ?a ?b +:+ ?d) with (String a (b +:+ d)); change (EmptyString +:+ t) with t; unfold decodeRune.
  all: by repeat match goal with H : _ = true |- _ => rewrite H; clear H | H : _ = false |- _ => rewrite H; clear H end.
Qed.

Lemma rune_whole s r n : s ≠ EmptyString → decodeRune s = (r, n) → (r =? RuneError) && bool_decide (n = 1%nat) = false →
  wholeRunes (takeS n s).
Proof.
  intros Hne E Hgood t. pose proof (decodeRune_width s r n Hne E) as Hw. pose proof (decodeRune_own s r n t Hne E Hgood) as E'.
  assert (String.length (takeS n s) = n) as Hl by (rewrite length_takeS; lia).
  destruct (dropS_all n (takeS n s) Hl) as [D1 D2]. destruct (takeS_app n (takeS n s) t) as [E1 E2]; [lia|]. rewrite D1 in E1. rewrite D2 in E2.
  destruct (takeS n s) as [|c u] eqn:Eu; [simpl in Hl; lia|].
  change (toValid (String c (u +:+ t)) = String c (u +:+ toValid t)). change (String c u +:+ t) with (String c (u +:+ t)) in *.
  unfold toValid at 1. cbn [String.length sanitize].
  destruct (byteOf c <? 128) eqn:Hc.
  - assert (n = 1%nat) as -> by (unfold decodeRune in E'; rewrite Hc in E'; by injection E').
    destruct u; [|simpl in Hl; lia]. simpl. by rewrite sanitize_fuel.
  - rewrite E', Hgood, E2, E1. change (EmptyString +:+ t) with t.
    change (String c u +:+ sanitize (String.length (u +:+ t)) t = String c u +:+ toValid t). f_equal. apply sanitize_fuel. rewrite length_append. lia.
Qed.

(** [strings.FieldsFunc] with a function that separates at bytes that are no UTF-8. *)
Lemma substring_takeS n s : String.substring 0 n s = takeS n s.
Proof. revert s. induction n as [|n IH]; intros [|c s]; simpl; try done. by rewrite IH. Qed.

Lemma fields_whole sep fuel word s w :
  sep RuneError = true → wholeRunes word → w ∈ fields sep fuel word s → wholeRunes w.
Proof.
  intros Hsep. revert word s. induction fuel as [|fuel IH]; intros word s Hword.
  all: assert (∀ x, x ∈ (if bool_decide (word = EmptyString) then [] else [word]) → wholeRunes x) as Hd
    by (intros x; case_bool_decide; [by intros ?%elem_of_nil|by intros ->%list_elem_of_singleton]).
  all: destruct s as [|c s]; cbn [fields]; try by apply Hd.
  destruct (decodeRune (String c s)) as [r n] eqn:E. destruct (sep r) eqn:Hr.
  - intros [?|?]%elem_of_app; [by apply Hd|]. by eapply IH; [apply wholeRunes_nil|].
  - apply IH. apply wholeRunes_app; [done|]. rewrite substring_takeS. eapply rune_whole; [done|exact E|].
    destruct (Z.eqb_spec r RuneError) as [->|]; [congruence|done].
Qed.

Lemma FieldsFunc_utf8 sep s : sep RuneError = true → Forall utf8 (FieldsFunc sep s).
Proof. intros Hsep. apply Forall_forall. intros w Hw. eapply wholeRunes_utf8, fields_whole; [done|apply wholeRunes_nil|exact Hw]. Qed.
