(* ===== verification/Persister.v ===== *)
(** * Stable storage ([raft/persister.go]) and the [labgob] codec it stores

    The persister keeps the last encoded Raft state and the last snapshot;
    [Save] replaces both at once.  Values are encoded with [labgob], a wrapper
    of [encoding/gob]: the codec is a parameter ([Gob]) whose only assumed
    behaviour ([GobLaws]) is the documented one, that decoding what was encoded
    gives the value back and that an encoding is never empty. *)

From S2P Require Import Prelude.

(** ** The codec *)

(** [labgob.NewEncoder(w).Encode(v)] then [w.Bytes()]: [None] is the returned
    error; [labgob.NewDecoder(r).Decode(&v)] into a zero [v]. *)
Class Gob (A : Type) := {
  gob_encode : A → option bytes;
  gob_decode : bytes → option A;
}.

(** What the code relies on. *)
Class GobLaws (A : Type) `{!Gob A} := {
  gob_roundtrip (a : A) (b : bytes) : gob_encode a = Some b → gob_decode b = Some a;
  gob_nonempty (a : A) (b : bytes) : gob_encode a = Some b → b ≠ [];
  gob_total (a : A) : is_Some (gob_encode a);
}.

(** A concrete codec for every countable type: the binary digits of the
    position of the value in the enumeration, one digit per byte. *)
Fixpoint pos_to_bytes (p : positive) : bytes :=
  match p with
  | xH => [x01]
  | xO p' => x00 :: pos_to_bytes p'
  | xI p' => x01 :: pos_to_bytes p'
  end.

Fixpoint pos_of_bytes (b : bytes) : option positive :=
  match b with
  | [x01] => Some xH
  | x00 :: b' => xO <$> pos_of_bytes b'
  | x01 :: b' => xI <$> pos_of_bytes b'
  | _ => None
  end.

(** The codec used by the witnesses. *)
Definition countable_gob (A : Type) `{Countable A} : Gob A := {|
  gob_encode a := Some (pos_to_bytes (encode a));
  gob_decode b := pos_of_bytes b ≫= decode;
|}.

Section persister.

(** ** [raft/persister.go] *)

(** [type Persister struct] *)
Record Persister := mkPersister {
  ps_raftstate : bytes;
  ps_snapshot : bytes;
}.

(** [copy(dst, src)] *)
Definition go_copy (dst src : bytes) : bytes :=
  take (length dst) src ++ drop (length src) dst.

(** [func MakePersister() *Persister] *)
Definition MakePersister : Persister := mkPersister [] [].

(** [func clone(orig []byte) []byte] *)
Definition clone (orig : bytes) : bytes :=
  let x := replicate (length orig) x00 in
  go_copy x orig.

(** [func (ps *Persister) Copy() *Persister] *)
Definition Copy (ps : Persister) : Persister :=
  mkPersister (ps_raftstate ps) (ps_snapshot ps).

(** [func (ps *Persister) SaveRaftState(state []byte)] *)
Definition SaveRaftState (state : bytes) (ps : Persister) : Persister :=
  mkPersister (clone state) (ps_snapshot ps).

(** [func (ps *Persister) ReadRaftState() []byte] *)
Definition ReadRaftState (ps : Persister) : bytes := clone (ps_raftstate ps).

(** [func (ps *Persister) RaftStateSize() int] *)
Definition RaftStateSize (ps : Persister) : Z := zlen (ps_raftstate ps).

(** [func (ps *Persister) Save(raftstate []byte, snapshot []byte)] *)
Definition Save (raftstate snapshot : bytes) (ps : Persister) : Persister :=
  mkPersister (clone raftstate) (clone snapshot).

(** [func (ps *Persister) ReadSnapshot() []byte] *)
Definition ReadSnapshot (ps : Persister) : bytes := clone (ps_snapshot ps).

(** [func (ps *Persister) SnapshotSize() int] *)
Definition SnapshotSize (ps : Persister) : Z := zlen (ps_snapshot ps).

End persister.

(** ** Lemmas *)

Lemma pos_to_bytes_nonempty p : pos_to_bytes p ≠ [].
Proof. destruct p; discriminate. Qed.

Lemma pos_of_to_bytes p : pos_of_bytes (pos_to_bytes p) = Some p.
Proof.
  induction p as [p IH|p IH|]; simpl; [| |done].
  - rewrite IH. destruct (pos_to_bytes p) eqn:E; [by apply pos_to_bytes_nonempty in E|done].
  - by rewrite IH.
Qed.

Lemma countable_gob_laws (A : Type) `{Countable A} : @GobLaws A (countable_gob A).
Proof.
  split; simpl.
  - intros a b [= <-]. by rewrite pos_of_to_bytes; simpl; rewrite decode_encode.
  - intros a b [= <-]. apply pos_to_bytes_nonempty.
  - eauto.
Qed.

Lemma clone_id b : clone b = b.
Proof.
  unfold clone, go_copy. rewrite length_replicate, take_ge by done.
  by rewrite drop_ge, app_nil_r by by rewrite length_replicate.
Qed.

Lemma ReadRaftState_Save st sn ps : ReadRaftState (Save st sn ps) = st.
Proof. unfold ReadRaftState, Save; simpl. by rewrite !clone_id. Qed.

Lemma ReadSnapshot_Save st sn ps : ReadSnapshot (Save st sn ps) = sn.
Proof. unfold ReadSnapshot, Save; simpl. by rewrite !clone_id. Qed.

#[export] Hint Rewrite clone_id ReadRaftState_Save ReadSnapshot_Save : golen.
