(* ===== verification/RaftNode.v ===== *)
(** * One Raft peer: data, effects and persistence

    [raft/raft_definition.go], [raft/raft_util.go] and the persistence part of
    [raft/raft.go].  The mutable fields of [type Raft struct] are the record
    [Raft]; every method that runs under [rf.mu] is a computation of the monad
    [M], which threads that record, records the asynchronous actions the method
    starts ([effect]: goroutines that send an RPC, timer resets, condition
    signals) and fails ([None]) where the Go code panics.  Terms and indices are
    unbounded integers: Go's [int] has 64 bits and a term or an index grows by
    one per election or per command.  The command type [C] is the [interface{}]
    of a log entry; [None] is [nil]. *)

From S2P Require Import Prelude Persister.

(** ** Data *)

(** The constants [Follower], [Candidate], [Leader]. *)
Inductive role := Follower | Candidate | Leader.

#[export] Instance role_eq_dec : EqDecision role.
Proof. solve_decision. Defined.

(** [const noVote = -1] *)
Definition noVote : Z := -1.

(** [type LogEntry struct] *)
Record LogEntry (C : Type) := mkEntry { le_Term : Z; le_Cmd : option C }.
Arguments mkEntry {_}.
Arguments le_Term {_}.
Arguments le_Cmd {_}.

#[export] Instance LogEntry_eq_dec {C} `{EqDecision C} : EqDecision (LogEntry C).
Proof. solve_decision. Defined.

(** [type ApplyMsg struct] *)
Record ApplyMsg (C : Type) := mkApplyMsg {
  CommandValid : bool;
  Command : option C;
  CommandIndex : Z;
  SnapshotValid : bool;
  Snapshot_ : bytes;
  SnapshotTerm : Z;
  SnapshotIndex : Z;
}.
Arguments mkApplyMsg {_}.
Arguments CommandValid {_}.
Arguments Command {_}.
Arguments CommandIndex {_}.
Arguments SnapshotValid {_}.
Arguments Snapshot_ {_}.
Arguments SnapshotTerm {_}.
Arguments SnapshotIndex {_}.

(** [type RequestVoteArgs struct] *)
Record RequestVoteArgs := mkRVArgs {
  rva_Term : Z; rva_CandidateId : Z; rva_LastLogIndex : Z; rva_LastLogTerm : Z }.

(** [type RequestVoteReply struct] *)
Record RequestVoteReply := mkRVReply { rvr_Term : Z; rvr_VoteGranted : bool }.

(** [type AppendEntriesArgs struct] *)
Record AppendEntriesArgs (C : Type) := mkAEArgs {
  aea_Term : Z; aea_LeaderId : Z; aea_PrevLogIndex : Z; aea_PrevLogTerm : Z;
  aea_Entries : list (LogEntry C); aea_LeaderCommit : Z }.
Arguments mkAEArgs {_}.
Arguments aea_Term {_}.
Arguments aea_LeaderId {_}.
Arguments aea_PrevLogIndex {_}.
Arguments aea_PrevLogTerm {_}.
Arguments aea_Entries {_}.
Arguments aea_LeaderCommit {_}.

(** [type AppendEntriesReply struct] *)
Record AppendEntriesReply := mkAEReply {
  aer_Term : Z; aer_Success : bool; aer_XTerm : Z; aer_XIndex : Z; aer_XLen : Z }.

(** [type InstallSnapshotArgs struct] *)
Record InstallSnapshotArgs := mkISArgs {
  isa_Term : Z; isa_LeaderId : Z; isa_LastIncludedIndex : Z;
  isa_LastIncludedTerm : Z; isa_Data : bytes }.

(** [type InstallSnapshotReply struct] *)
Record InstallSnapshotReply := mkISReply { isr_Term : Z }.

(** [type PersistentStatus struct] *)
Record PersistentStatus (C : Type) := mkStatus {
  st_Logs : list (LogEntry C); st_CurrentTerm : Z; st_VotedFor : Z;
  st_LastIncludedIndex : Z; st_LastIncludedTerm : Z }.
Arguments mkStatus {_}.
Arguments st_Logs {_}.
Arguments st_CurrentTerm {_}.
Arguments st_VotedFor {_}.
Arguments st_LastIncludedIndex {_}.
Arguments st_LastIncludedTerm {_}.

(** [type Raft struct], without its lock, timers and channels. *)
Record Raft (C : Type) := mkRaft {
  npeers : Z;
  me : Z;
  dead : bool;
  persister : Persister;
  currentTerm : Z;
  votedFor : Z;
  state : role;
  logs : list (LogEntry C);
  commitIndex : Z;
  lastApplied : Z;
  nextIndex : list Z;
  matchIndex : list Z;
  snapshot : bytes;
  lastIncludedIndex : Z;
  replicatePreSnapshot : bool;
}.
Arguments mkRaft {_}.
Arguments npeers {_}.
Arguments me {_}.
Arguments dead {_}.
Arguments persister {_}.
Arguments currentTerm {_}.
Arguments votedFor {_}.
Arguments state {_}.
Arguments logs {_}.
Arguments commitIndex {_}.
Arguments lastApplied {_}.
Arguments nextIndex {_}.
Arguments matchIndex {_}.
Arguments snapshot {_}.
Arguments lastIncludedIndex {_}.
Arguments replicatePreSnapshot {_}.

(** The asynchronous actions a method starts while it holds the lock. *)
Inductive effect (C : Type) :=
  | ResetElectionTimer                                  (* electionTimer.Reset *)
  | ResetHeartbeatTicker                                (* heartbeatTicker.Reset *)
  | CondSignal                                          (* cond.Signal *)
  | GoRequestVote (peer : Z) (args : RequestVoteArgs)   (* go func(i) {...}(i) *)
  | GoAppendEntries (peer : Z) (args : AppendEntriesArgs C)
  | GoInstallSnapshot (peer : Z) (args : InstallSnapshotArgs)
  | GoApplySnapshot (msg : ApplyMsg C)                  (* go func() { ... applyMsg <- msg } *)
  | GoAddLogSignal.                                     (* go func() { addLogSignal <- ... } *)
Arguments ResetElectionTimer {_}.
Arguments ResetHeartbeatTicker {_}.
Arguments CondSignal {_}.
Arguments GoRequestVote {_}.
Arguments GoAppendEntries {_}.
Arguments GoInstallSnapshot {_}.
Arguments GoApplySnapshot {_}.
Arguments GoAddLogSignal {_}.

Section setters.
Context {C : Type}.

Definition set_dead (v : bool) (rf : Raft C) : Raft C :=
  {|
     npeers := npeers rf; me := me rf; dead := v; persister := persister rf; currentTerm
     := currentTerm rf; votedFor := votedFor rf; state := state rf; logs := logs rf;
     commitIndex := commitIndex rf; lastApplied := lastApplied rf; nextIndex :=
     nextIndex rf; matchIndex := matchIndex rf; snapshot := snapshot rf;
     lastIncludedIndex := lastIncludedIndex rf; replicatePreSnapshot :=
     replicatePreSnapshot rf |}.

Definition set_persister (v : Persister) (rf : Raft C) : Raft C :=
  {|
     npeers := npeers rf; me := me rf; dead := dead rf; persister := v; currentTerm :=
     currentTerm rf; votedFor := votedFor rf; state := state rf; logs := logs rf;
     commitIndex := commitIndex rf; lastApplied := lastApplied rf; nextIndex :=
     nextIndex rf; matchIndex := matchIndex rf; snapshot := snapshot rf;
     lastIncludedIndex := lastIncludedIndex rf; replicatePreSnapshot :=
     replicatePreSnapshot rf |}.

Definition set_currentTerm (v : Z) (rf : Raft C) : Raft C :=
  {|
     npeers := npeers rf; me := me rf; dead := dead rf; persister := persister rf;
     currentTerm := v; votedFor := votedFor rf; state := state rf; logs := logs rf;
     commitIndex := commitIndex rf; lastApplied := lastApplied rf; nextIndex :=
     nextIndex rf; matchIndex := matchIndex rf; snapshot := snapshot rf;
     lastIncludedIndex := lastIncludedIndex rf; replicatePreSnapshot :=
     replicatePreSnapshot rf |}.

Definition set_votedFor (v : Z) (rf : Raft C) : Raft C :=
  {|
     npeers := npeers rf; me := me rf; dead := dead rf; persister := persister rf;
     currentTerm := currentTerm rf; votedFor := v; state := state rf; logs := logs rf;
     commitIndex := commitIndex rf; lastApplied := lastApplied rf; nextIndex :=
     nextIndex rf; matchIndex := matchIndex rf; snapshot := snapshot rf;
     lastIncludedIndex := lastIncludedIndex rf; replicatePreSnapshot :=
     replicatePreSnapshot rf |}.

Definition set_state (v : role) (rf : Raft C) : Raft C :=
  {|
     npeers := npeers rf; me := me rf; dead := dead rf; persister := persister rf;
     currentTerm := currentTerm rf; votedFor := votedFor rf; state := v; logs := logs
     rf; commitIndex := commitIndex rf; lastApplied := lastApplied rf; nextIndex :=
     nextIndex rf; matchIndex := matchIndex rf; snapshot := snapshot rf;
     lastIncludedIndex := lastIncludedIndex rf; replicatePreSnapshot :=
     replicatePreSnapshot rf |}.

Definition set_logs (v : list (LogEntry C)) (rf : Raft C) : Raft C :=
  {|
     npeers := npeers rf; me := me rf; dead := dead rf; persister := persister rf;
     currentTerm := currentTerm rf; votedFor := votedFor rf; state := state rf; logs :=
     v; commitIndex := commitIndex rf; lastApplied := lastApplied rf; nextIndex :=
     nextIndex rf; matchIndex := matchIndex rf; snapshot := snapshot rf;
     lastIncludedIndex := lastIncludedIndex rf; replicatePreSnapshot :=
     replicatePreSnapshot rf |}.

Definition set_commitIndex (v : Z) (rf : Raft C) : Raft C :=
  {|
     npeers := npeers rf; me := me rf; dead := dead rf; persister := persister rf;
     currentTerm := currentTerm rf; votedFor := votedFor rf; state := state rf; logs :=
     logs rf; commitIndex := v; lastApplied := lastApplied rf; nextIndex := nextIndex
     rf; matchIndex := matchIndex rf; snapshot := snapshot rf; lastIncludedIndex :=
     lastIncludedIndex rf; replicatePreSnapshot := replicatePreSnapshot rf |}.

Definition set_lastApplied (v : Z) (rf : Raft C) : Raft C :=
  {|
     npeers := npeers rf; me := me rf; dead := dead rf; persister := persister rf;
     currentTerm := currentTerm rf; votedFor := votedFor rf; state := state rf; logs :=
     logs rf; commitIndex := commitIndex rf; lastApplied := v; nextIndex := nextIndex
     rf; matchIndex := matchIndex rf; snapshot := snapshot rf; lastIncludedIndex :=
     lastIncludedIndex rf; replicatePreSnapshot := replicatePreSnapshot rf |}.

Definition set_nextIndex (v : list Z) (rf : Raft C) : Raft C :=
  {|
     npeers := npeers rf; me := me rf; dead := dead rf; persister := persister rf;
     currentTerm := currentTerm rf; votedFor := votedFor rf; state := state rf; logs :=
     logs rf; commitIndex := commitIndex rf; lastApplied := lastApplied rf; nextIndex :=
     v; matchIndex := matchIndex rf; snapshot := snapshot rf; lastIncludedIndex :=
     lastIncludedIndex rf; replicatePreSnapshot := replicatePreSnapshot rf |}.

Definition set_matchIndex (v : list Z) (rf : Raft C) : Raft C :=
  {|
     npeers := npeers rf; me := me rf; dead := dead rf; persister := persister rf;
     currentTerm := currentTerm rf; votedFor := votedFor rf; state := state rf; logs :=
     logs rf; commitIndex := commitIndex rf; lastApplied := lastApplied rf; nextIndex :=
     nextIndex rf; matchIndex := v; snapshot := snapshot rf; lastIncludedIndex :=
     lastIncludedIndex rf; replicatePreSnapshot := replicatePreSnapshot rf |}.

Definition set_snapshot (v : bytes) (rf : Raft C) : Raft C :=
  {|
     npeers := npeers rf; me := me rf; dead := dead rf; persister := persister rf;
     currentTerm := currentTerm rf; votedFor := votedFor rf; state := state rf; logs :=
     logs rf; commitIndex := commitIndex rf; lastApplied := lastApplied rf; nextIndex :=
     nextIndex rf; matchIndex := matchIndex rf; snapshot := v; lastIncludedIndex :=
     lastIncludedIndex rf; replicatePreSnapshot := replicatePreSnapshot rf |}.

Definition set_lastIncludedIndex (v : Z) (rf : Raft C) : Raft C :=
  {|
     npeers := npeers rf; me := me rf; dead := dead rf; persister := persister rf;
     currentTerm := currentTerm rf; votedFor := votedFor rf; state := state rf; logs :=
     logs rf; commitIndex := commitIndex rf; lastApplied := lastApplied rf; nextIndex :=
     nextIndex rf; matchIndex := matchIndex rf; snapshot := snapshot rf;
     lastIncludedIndex := v; replicatePreSnapshot := replicatePreSnapshot rf |}.

Definition set_replicatePreSnapshot (v : bool) (rf : Raft C) : Raft C :=
  {|
     npeers := npeers rf; me := me rf; dead := dead rf; persister := persister rf;
     currentTerm := currentTerm rf; votedFor := votedFor rf; state := state rf; logs :=
     logs rf; commitIndex := commitIndex rf; lastApplied := lastApplied rf; nextIndex :=
     nextIndex rf; matchIndex := matchIndex rf; snapshot := snapshot rf;
     lastIncludedIndex := lastIncludedIndex rf; replicatePreSnapshot := v |}.

End setters.

(** ** The monad of the methods *)

Definition M (C : Type) (A : Type) : Type := Raft C → option (A * Raft C * list (effect C)).

#[export] Instance M_ret {C} : MRet (M C) := λ A a rf, Some (a, rf, []).
#[export] Instance M_bind {C} : MBind (M C) := λ A B k m rf,
  match m rf with
  | Some (a, rf', es) =>
      match k a rf' with
      | Some (b, rf'', es') => Some (b, rf'', es ++ es')
      | None => None
      end
  | None => None
  end.

Section monad.
Context {C : Type}.

Definition get : M C (Raft C) := λ rf, Some (rf, rf, []).
Definition modify (f : Raft C → Raft C) : M C unit := λ rf, Some (tt, f rf, []).
Definition emit (es : list (effect C)) : M C unit := λ rf, Some (tt, rf, es).
Definition lift {A} (o : option A) : M C A := λ rf,
  match o with Some a => Some (a, rf, []) | None => None end.
Definition when (b : bool) (m : M C unit) : M C unit := if b then m else mret tt.

End monad.

(** ** [raft/raft_util.go] *)

Section node.
Context {C : Type}.

(** [func (rf *Raft) lastLogTerm() int] *)
Definition lastLogTerm (rf : Raft C) : option Z :=
  if zlen (logs rf) <? 2 then le_Term <$> idx (logs rf) 0
  else le_Term <$> idx (logs rf) (zlen (logs rf) - 1).

(** [func (rf *Raft) lastLogIndex() int] *)
Definition lastLogIndex (rf : Raft C) : Z := lastIncludedIndex rf + zlen (logs rf) - 1.

(** [func (rf *Raft) logIndex(realIndex int) int] *)
Definition logIndex (rf : Raft C) (realIndex : Z) : Z := realIndex - lastIncludedIndex rf.

(** [func (rf *Raft) realIndex(logIndex int) int] *)
Definition realIndex (rf : Raft C) (logIndex : Z) : Z := lastIncludedIndex rf + logIndex.

(** [func (rf *Raft) realLogLen() int] *)
Definition realLogLen (rf : Raft C) : Z := lastIncludedIndex rf + zlen (logs rf).

(** [func (rf *Raft) isLogUpToDate(lastLogTerm, lastLogIndex int) bool] *)
Definition isLogUpToDate (rf : Raft C) (term index : Z) : option bool :=
  t ← lastLogTerm rf;
  Some ((t <? term) || ((term =? t) && (lastLogIndex rf <=? index))).

(** [func (rf *Raft) GetState() (int, bool)] *)
Definition GetState (rf : Raft C) : Z * bool :=
  (currentTerm rf, bool_decide (state rf = Leader)).

(** [func (rf *Raft) Kill()] *)
Definition Kill (rf : Raft C) : Raft C := set_dead true rf.

(** [func (rf *Raft) killed() bool] *)
Definition killed (rf : Raft C) : bool := dead rf.

(** ** Persistence ([raft/raft.go]) *)

Context `{!Gob (PersistentStatus C)}.

(** [func (rf *Raft) persist()] *)
Definition persist : M C unit :=
  rf ← get;
  e0 ← lift (idx (logs rf) 0);
  let status := {|
    st_Logs := logs rf;
    st_CurrentTerm := currentTerm rf;
    st_VotedFor := votedFor rf;
    st_LastIncludedIndex := lastIncludedIndex rf;
    st_LastIncludedTerm := le_Term e0 |} in
  match gob_encode status with
  | None => mret tt
  | Some data => modify (λ rf, set_persister (Save data (snapshot rf) (persister rf)) rf)
  end.

(** [defer rf.persist()] in front of the rest [m] of a method. *)
Definition defer_persist {A} (m : M C A) : M C A :=
  a ← m; _ ← persist; mret a.

(** [func (rf *Raft) readPersist(data []byte)] *)
Definition readPersist (data : bytes) : M C unit :=
  if zlen data <? 1 then mret tt else
  match gob_decode data with
  | None => mret tt
  | Some status =>
      _ ← modify (set_currentTerm (st_CurrentTerm status));
      _ ← modify (set_votedFor (st_CurrentTerm status));
      _ ← modify (set_logs (st_Logs status));
      _ ← modify (set_lastIncludedIndex (st_LastIncludedIndex status));
      rf ← get;
      e0 ← lift (idx (logs rf) 0);
      logs' ← lift (upd (logs rf) 0 (mkEntry (st_LastIncludedTerm status) (le_Cmd e0)));
      _ ← modify (set_logs logs');
      _ ← modify (set_commitIndex (st_LastIncludedIndex status));
      _ ← modify (set_lastApplied (st_LastIncludedIndex status));
      modify (λ rf, set_snapshot (ReadSnapshot (persister rf)) rf)
  end.

(** The composite literal of [Make], before [readPersist]. *)
Definition freshRaft (n i : Z) (ps : Persister) : Raft C := {|
  npeers := n; me := i; dead := false; persister := ps;
  currentTerm := 0; votedFor := noVote; state := Follower;
  logs := [mkEntry 0 None]; commitIndex := 0; lastApplied := 0;
  nextIndex := replicate (Z.to_nat n) 0; matchIndex := replicate (Z.to_nat n) 0;
  snapshot := []; lastIncludedIndex := 0; replicatePreSnapshot := false |}.

(** [func Make(peers, me, persister, applyCh) *Raft]: [None] if it panics. *)
Definition Make (n i : Z) (ps : Persister) : option (Raft C) :=
  match readPersist (ReadRaftState ps) (freshRaft n i ps) with
  | Some (_, rf, _) => Some rf
  | None => None
  end.

End node.

(** ** Inverting computations of [M] *)

Section monad_facts.
Context {C : Type}.
Implicit Types rf : Raft C.

Lemma M_bind_Some {A B} (m : M C A) (k : A → M C B) rf b rf2 es :
  (m ≫= k) rf = Some (b, rf2, es) ↔
  ∃ a rf1 es1 es2, m rf = Some (a, rf1, es1) ∧ k a rf1 = Some (b, rf2, es2) ∧ es = es1 ++ es2.
Proof.
  unfold mbind, M_bind. split.
  - destruct (m rf) as [[[a rf1] es1]|]; [|done].
    destruct (k a rf1) as [[[b' rf2'] es2]|] eqn:E; [|done]. intros [= <- <- <-]. eauto 10.
  - intros (a & rf1 & es1 & es2 & -> & -> & ->). done.
Qed.

Lemma M_bind_run {A B} (m : M C A) (k : A → M C B) rf a rf1 es1 :
  m rf = Some (a, rf1, es1) →
  (m ≫= k) rf = (λ r, (r.1, es1 ++ r.2)) <$> k a rf1.
Proof. unfold mbind, M_bind. intros ->. by destruct (k a rf1) as [[[??]?]|]. Qed.

Lemma M_ret_Some {A} (a b : A) rf rf' es :
  (mret a : M C A) rf = Some (b, rf', es) ↔ b = a ∧ rf' = rf ∧ es = [].
Proof. unfold mret, M_ret. split; [by intros [= -> -> ->]|by intros (-> & -> & ->)]. Qed.

Lemma M_lift_Some {A} (o : option A) rf rf' a es :
  lift o rf = Some (a, rf', es) ↔ o = Some a ∧ rf' = rf ∧ es = [].
Proof.
  unfold lift. destruct o; (split; [intros [=]|intros (? & ? & ?)]); subst; auto; congruence.
Qed.

Lemma M_get_Some rf rf1 rf' es : get rf = Some (rf1, rf', es) ↔ rf1 = rf ∧ rf' = rf ∧ es = [].
Proof. unfold get. split; [by intros [= -> -> ->]|by intros (-> & -> & ->)]. Qed.

Lemma M_modify_Some f rf u rf' es : modify f rf = Some (u, rf', es) ↔ rf' = f rf ∧ es = [].
Proof. unfold modify. destruct u. split; [by intros [= -> ->]|by intros (-> & ->)]. Qed.

Lemma M_emit_Some es0 rf u rf' es : emit es0 rf = Some (u, rf', es) ↔ rf' = rf ∧ es = es0.
Proof. unfold emit. destruct u. split; [by intros [= -> ->]|by intros (-> & ->)]. Qed.

End monad_facts.

(** [minv H] inverts a successful run [H : m rf = Some (a, rf', es)] of a
    straight-line method into the results of its steps, splitting on its tests. *)
Ltac minv H :=
  lazymatch type of H with
  | mbind _ _ _ = Some _ =>
      let H1 := fresh "Hm" in
      apply M_bind_Some in H as (? & ? & ? & ? & H1 & H & ->); minv H1; minv H
  | mret _ _ = Some _ => apply M_ret_Some in H as (-> & -> & ->)
  | lift _ _ = Some _ => apply M_lift_Some in H as (H & -> & ->)
  | get _ = Some _ => apply M_get_Some in H as (-> & -> & ->)
  | modify _ _ = Some _ => apply M_modify_Some in H as (-> & ->)
  | emit _ _ = Some _ => apply M_emit_Some in H as (-> & ->)
  | when ?b _ _ = Some _ => unfold when in H; destruct b eqn:?; minv H
  | defer_persist _ _ = Some _ => unfold defer_persist in H; minv H
  | match ?b with _ => _ end _ = Some _ => destruct b eqn:?; minv H
  | _ => idtac
  end.

Section persist_facts.
Context {C : Type} `{!Gob (PersistentStatus C)}.
Implicit Types rf : Raft C.

(** [persist] only writes the persister. *)
Lemma persist_Some rf u rf' es :
  persist rf = Some (u, rf', es) → ∃ ps, rf' = set_persister ps rf ∧ es = [].
Proof. unfold persist. intros H. minv H; [|exists (persister rf); by destruct rf]. eauto. Qed.

(** [persist] never panics on a log that has its entry 0. *)
Lemma persist_total rf : logs rf ≠ [] → ∃ ps, persist rf = Some (tt, set_persister ps rf, []).
Proof.
  intros Hl. unfold persist, mbind, M_bind, get, lift; simpl.
  destruct (logs rf) as [|e l] eqn:El; [done|]. simpl.
  destruct (gob_encode _) as [b|]; simpl; [eauto|]. exists (persister rf).
  unfold mret, M_ret. simpl. by destruct rf.
Qed.

End persist_facts.

(** Replace the state after a [persist] by its value. *)
Ltac persist_simpl :=
  repeat match goal with H : persist _ = Some _ |- _ => apply persist_Some in H as (? & -> & ->) end.

(** ** Total correctness of computations of [M] *)

Section wp.
Context {C : Type}.
Implicit Types rf : Raft C.

(** [m] does not panic from [rf] and its outcome satisfies [Q]. *)
Definition wp {A} (m : M C A) (Q : A → Raft C → list (effect C) → Prop) rf : Prop :=
  match m rf with Some (a, rf', es) => Q a rf' es | None => False end.

Lemma wp_bind {A B} (m : M C A) (k : A → M C B) Q rf :
  wp m (λ a rf1 es1, wp (k a) (λ b rf2 es2, Q b rf2 (es1 ++ es2)) rf1) rf → wp (m ≫= k) Q rf.
Proof.
  unfold wp, mbind, M_bind. destruct (m rf) as [[[a rf1] es1]|]; [|done].
  by destruct (k a rf1) as [[[b rf2] es2]|].
Qed.

Lemma wp_ret {A} (a : A) Q rf : Q a rf [] → wp (mret a) Q rf.
Proof. done. Qed.

Lemma wp_get Q rf : Q rf rf [] → wp get Q rf.
Proof. done. Qed.

Lemma wp_modify f Q rf : Q tt (f rf) [] → wp (modify f) Q rf.
Proof. done. Qed.

Lemma wp_emit es Q rf : Q tt rf es → wp (emit es) Q rf.
Proof. done. Qed.

Lemma wp_lift {A} (o : option A) a Q rf : o = Some a → Q a rf [] → wp (lift o) Q rf.
Proof. intros ->. done. Qed.

Lemma wp_persist `{!Gob (PersistentStatus C)} Q rf :
  logs rf ≠ [] → (∀ ps, Q tt (set_persister ps rf) []) → wp persist Q rf.
Proof. intros Hl HQ. unfold wp. destruct (persist_total rf Hl) as [ps ->]. apply HQ. Qed.

Lemma wp_total {A} (m : M C A) Q rf :
  wp m Q rf → ∃ a rf' es, m rf = Some (a, rf', es) ∧ Q a rf' es.
Proof. unfold wp. destruct (m rf) as [[[a rf'] es]|]; [eauto 10|done]. Qed.
End wp.

(** One step of symbolic execution; [lift] and [persist] are left to the proof. *)
Ltac wp_step :=
  lazymatch goal with
  | |- wp (mbind _ _) _ _ => apply wp_bind
  | |- wp (mret _) _ _ => apply wp_ret
  | |- wp get _ _ => apply wp_get
  | |- wp (modify _) _ _ => apply wp_modify
  | |- wp (emit _) _ _ => apply wp_emit
  | |- wp (defer_persist _) _ _ => unfold defer_persist
  | |- wp (when ?b _) _ _ => unfold when; destruct b eqn:?
  | |- wp (match ?b with _ => _ end) _ _ => destruct b eqn:?
  end; cbv beta.
Ltac wp_steps := repeat wp_step.
