(* ===== verification/RaftFollower.v ===== *)
(** * The RPC handlers of a Raft peer and the service's [Snapshot] call

    [RequestVote], [AppendEntries], [InstallSnapshot] and [Snapshot] of
    [raft/raft.go]: each is the whole method, from taking the lock to releasing
    it, with [defer rf.persist()] run at the return.  Indices are unbounded; [RaftLog]
    relates them to the integers of the machine. *)

From S2P Require Import Prelude Persister RaftNode.

Section follower.
Context {C : Type} `{!Gob (PersistentStatus C)}.

(** ** [RequestVote] *)

(** [func (rf *Raft) RequestVote(args, reply)] *)
Definition RequestVote (args : RequestVoteArgs) : M C RequestVoteReply :=
  rf ← get;
  if rva_Term args <? currentTerm rf then mret (mkRVReply (currentTerm rf) false) else
  defer_persist (
    _ ← when (currentTerm rf <? rva_Term args) (
          _ ← modify (set_currentTerm (rva_Term args));
          _ ← modify (set_votedFor noVote);
          modify (set_state Follower));
    rf ← get;
    upToDate ← lift (
      if (votedFor rf =? noVote) || (votedFor rf =? rva_CandidateId args)
      then isLogUpToDate rf (rva_LastLogTerm args) (rva_LastLogIndex args)
      else Some false);
    if (upToDate : bool) then
      _ ← modify (set_votedFor (rva_CandidateId args));
      _ ← emit [ResetElectionTimer];
      mret (mkRVReply (currentTerm rf) true)
    else mret (mkRVReply (currentTerm rf) false)).

(** ** [AppendEntries] *)

(** The loop that looks for the first entry of the conflicting term above the
    commit point: [for i := args.PrevLogIndex; i > rf.commitIndex; i-- {...}].
    It runs at most [PrevLogIndex - commitIndex] times, the fuel it is given. *)
Fixpoint scanConflict (fuel : nat) (rf : Raft C) (i conflictTerm conflictIndex : Z) : option Z :=
  match fuel with
  | O => Some conflictIndex
  | S fuel' =>
      if i <=? commitIndex rf then Some conflictIndex else
      e ← idx (logs rf) (logIndex rf i);
      if le_Term e =? conflictTerm then scanConflict fuel' rf (i - 1) conflictTerm i
      else Some conflictIndex
  end.

(** The body of [for i, entry := range args.Entries {...}] on [rf.logs]. *)
Definition copyEntry (lastIncludedIndex prevLogIndex : Z) (logs : list (LogEntry C))
    (ie : Z * LogEntry C) : option (list (LogEntry C)) :=
  let (i, entry) := ie in
  let index := prevLogIndex + i + 1 - lastIncludedIndex in
  if index <? zlen logs then
    e ← idx logs index;
    if le_Term e =? le_Term entry then Some logs
    else l ← slice_to logs index; Some (l ++ [entry])
  else if index =? zlen logs then Some (logs ++ [entry])
  else Some logs.

(** The whole loop. *)
Definition copyEntries (lastIncludedIndex prevLogIndex : Z) (entries logs : list (LogEntry C))
    : option (list (LogEntry C)) :=
  foldM (copyEntry lastIncludedIndex prevLogIndex) (enumerate entries) logs.

(** [func (rf *Raft) AppendEntries(args, reply)] *)
Definition AppendEntries (args : AppendEntriesArgs C) : M C AppendEntriesReply :=
  rf ← get;
  if aea_Term args <? currentTerm rf then mret (mkAEReply (currentTerm rf) false 0 0 0) else
  defer_persist (
    _ ← modify (set_state Follower);
    _ ← emit [ResetElectionTimer];
    _ ← when (currentTerm rf <? aea_Term args) (
          _ ← modify (set_currentTerm (aea_Term args));
          modify (set_votedFor noVote));
    rf ← get;
    if aea_PrevLogIndex args <? lastIncludedIndex rf then
      mret (mkAEReply (currentTerm rf) false 0 0 0)
    else if lastLogIndex rf <? aea_PrevLogIndex args then
      mret (mkAEReply (currentTerm rf) false (-1) (-1) (realLogLen rf))
    else
      e ← lift (idx (logs rf) (logIndex rf (aea_PrevLogIndex args)));
      if negb (le_Term e =? aea_PrevLogTerm args) then
        conflictIndex ← lift (scanConflict (Z.to_nat (aea_PrevLogIndex args - commitIndex rf))
                                rf (aea_PrevLogIndex args) (le_Term e) (-1));
        mret (mkAEReply (currentTerm rf) false (le_Term e) conflictIndex (realLogLen rf))
      else
        logs' ← lift (copyEntries (lastIncludedIndex rf) (aea_PrevLogIndex args)
                        (aea_Entries args) (logs rf));
        _ ← modify (set_logs logs');
        rf ← get;
        _ ← when (commitIndex rf <? aea_LeaderCommit args) (
              _ ← modify (set_commitIndex (Z.min (aea_LeaderCommit args) (lastLogIndex rf)));
              emit [CondSignal]);
        mret (mkAEReply (currentTerm rf) true 0 0 0)).

(** ** [InstallSnapshot] *)

(** The search of [for i := 1; i < len(rf.logs); i++ {...}]: the first log
    position that is the snapshot point, kept only if the term of entry 0 (not
    of that entry) is the snapshot's term. *)
Fixpoint scanKeep (rf : Raft C) (args : InstallSnapshotArgs) (js : list Z) : option (option Z) :=
  match js with
  | [] => Some None
  | i :: js' =>
      keep ← (if realIndex rf i =? isa_LastIncludedIndex args
              then e0 ← idx (logs rf) 0; Some (le_Term e0 =? isa_LastIncludedTerm args)
              else Some false);
      if (keep : bool) then Some (Some i) else scanKeep rf args js'
  end.

(** The assignments both exits of the method make: the new log and the snapshot point. *)
Definition adoptSnapshot (args : InstallSnapshotArgs) (logs' : list (LogEntry C)) : M C unit :=
  _ ← modify (set_logs logs');
  _ ← modify (set_lastIncludedIndex (isa_LastIncludedIndex args));
  _ ← modify (set_commitIndex (isa_LastIncludedIndex args));
  _ ← modify (set_lastApplied (isa_LastIncludedIndex args));
  _ ← modify (set_snapshot (isa_Data args));
  emit [GoApplySnapshot {|
    CommandValid := false; Command := None; CommandIndex := 0;
    SnapshotValid := true; Snapshot_ := isa_Data args;
    SnapshotTerm := isa_LastIncludedTerm args;
    SnapshotIndex := isa_LastIncludedIndex args |}].

(** [func (rf *Raft) InstallSnapshot(args, reply)] *)
Definition InstallSnapshot (args : InstallSnapshotArgs) : M C InstallSnapshotReply :=
  rf ← get;
  if isa_Term args <? currentTerm rf then mret (mkISReply (currentTerm rf)) else
  _ ← when (currentTerm rf <? isa_Term args) (
        _ ← modify (set_currentTerm (isa_Term args));
        modify (set_votedFor noVote));
  _ ← modify (set_state Follower);
  _ ← emit [ResetElectionTimer];
  rf ← get;
  if isa_LastIncludedIndex args <=? lastIncludedIndex rf then mret (mkISReply (currentTerm rf))
  else if isa_LastIncludedIndex args <=? commitIndex rf then mret (mkISReply (currentTerm rf))
  else
  defer_persist (
    found ← lift (scanKeep rf args (range 1 (zlen (logs rf))));
    match found with
    | Some i =>
        tail ← lift (slice_from (logs rf) (i + 1));
        _ ← adoptSnapshot args (mkEntry (isa_LastIncludedTerm args) None :: tail);
        mret (mkISReply (currentTerm rf))
    | None =>
        _ ← adoptSnapshot args [mkEntry (isa_LastIncludedTerm args) None];
        mret (mkISReply (currentTerm rf))
    end).

(** ** [Snapshot] *)

(** [func (rf *Raft) Snapshot(index int, snapshot []byte)] *)
Definition Snapshot (index : Z) (snap : bytes) : M C unit :=
  rf ← get;
  if (commitIndex rf <? index) || (index <=? lastIncludedIndex rf) then mret tt else
  let split := logIndex rf index in
  _ ← modify (set_lastIncludedIndex index);
  e ← lift (idx (logs rf) split);
  tail ← lift (slice_from (logs rf) (split + 1));
  _ ← modify (set_logs (mkEntry (le_Term e) None :: tail));
  _ ← modify (set_snapshot snap);
  persist.

End follower.
