(* ===== verification/RaftLeader.v ===== *)
(** * Elections and replication of a Raft peer

    The candidate and leader side of [raft/raft.go]: [startElection] with the
    closure that handles each vote, [broadcastHeartbeat], the handlers of the
    replies, the commit rule, the back-up of [nextIndex], [Start], and one
    iteration of each background loop. *)

From S2P Require Import Prelude Persister RaftNode.

Section leader.
Context {C : Type} `{!Gob (PersistentStatus C)}.

(** ** Leader state *)

(** The two assignments of the loop of [initializeLeaderEasilyLostState]. *)
Definition initPeer (rf : Raft C) (nm : list Z * list Z) (i : Z) : option (list Z * list Z) :=
  let (nexts, matches) := nm in
  nexts' ← upd nexts i (realLogLen rf);
  matches' ← upd matches i (lastIncludedIndex rf);
  Some (nexts', matches').

(** [func (rf *Raft) initializeLeaderEasilyLostState()] *)
Definition initializeLeaderEasilyLostState : M C unit :=
  rf ← get;
  nm ← lift (foldM (initPeer rf) (range 0 (npeers rf)) (nextIndex rf, matchIndex rf));
  matches' ← lift (upd nm.2 (me rf) (lastLogIndex rf));
  nexts' ← lift (upd nm.1 (me rf) (lastLogIndex rf + 1));
  _ ← modify (set_matchIndex matches');
  modify (set_nextIndex nexts').

(** ** Replication *)

(** The term of the entry before the ones to send: the three cases of
    [broadcastHeartbeat], the last one the [panic]. *)
Definition prevLogTerm (rf : Raft C) (prev : Z) : option Z :=
  if (lastIncludedIndex rf <? prev) && (prev <? lastIncludedIndex rf + zlen (logs rf))
  then le_Term <$> idx (logs rf) (logIndex rf prev)
  else if prev =? lastIncludedIndex rf then le_Term <$> idx (logs rf) 0
  else None.

(** The body of the loop of [broadcastHeartbeat] for peer [i]. *)
Definition broadcastOne (rf : Raft C) (i : Z) : option (effect C) :=
  next ← idx (nextIndex rf) i;
  if next <=? lastIncludedIndex rf then
    e0 ← idx (logs rf) 0;
    Some (GoInstallSnapshot i {|
      isa_Term := currentTerm rf; isa_LeaderId := me rf;
      isa_LastIncludedIndex := lastIncludedIndex rf;
      isa_LastIncludedTerm := le_Term e0; isa_Data := snapshot rf |})
  else
    let prev := next - 1 in
    t ← prevLogTerm rf prev;
    entries ← slice_from (logs rf) (logIndex rf next);
    Some (GoAppendEntries i {|
      aea_Term := currentTerm rf; aea_LeaderId := me rf; aea_PrevLogIndex := prev;
      aea_PrevLogTerm := t; aea_Entries := entries; aea_LeaderCommit := commitIndex rf |}).

(** [func (rf *Raft) broadcastHeartbeat()] *)
Definition broadcastHeartbeat : M C unit :=
  rf ← get;
  es ← lift (mapM (broadcastOne rf) (filter (λ i, i ≠ me rf) (range 0 (npeers rf))));
  emit es.

(** One iteration of [heartbeatEvent] after the tick. *)
Definition heartbeatEvent : M C unit :=
  rf ← get;
  when (bool_decide (state rf = Leader)) (
    _ ← broadcastHeartbeat;
    emit [ResetElectionTimer]).

(** One iteration of [AddLogEvent] after the signal. *)
Definition AddLogEvent : M C unit :=
  rf ← get;
  when (bool_decide (state rf = Leader)) (
    _ ← broadcastHeartbeat;
    _ ← emit [ResetElectionTimer];
    emit [ResetHeartbeatTicker]).

(** ** Elections *)

(** [func (rf *Raft) startElection()]; the counter [voteGrantedCnt] it starts
    at 1 belongs to the closures and is passed to them explicitly below. *)
Definition startElection : M C unit :=
  _ ← modify (λ rf, set_votedFor (me rf) rf);
  _ ← modify (λ rf, set_currentTerm (currentTerm rf + 1) rf);
  _ ← persist;
  _ ← emit [ResetElectionTimer];
  rf ← get;
  es ← lift (mapM (λ i, t ← lastLogTerm rf;
                        Some (GoRequestVote i {|
                          rva_Term := currentTerm rf; rva_CandidateId := me rf;
                          rva_LastLogIndex := lastLogIndex rf; rva_LastLogTerm := t |}))
                  (filter (λ i, i ≠ me rf) (range 0 (npeers rf))));
  emit es.

(** [voteGrantedCnt := 1] *)
Definition voteGrantedCnt0 : Z := 1.

(** The closure of [startElection] after [sendRequestVote] returned [true]: it
    runs under the lock, reads and returns the shared counter [cnt]. *)
Definition handleVoteReply (args : RequestVoteArgs) (reply : RequestVoteReply) (cnt : Z) : M C Z :=
  rf ← get;
  if negb (currentTerm rf =? rva_Term args) || negb (bool_decide (state rf = Candidate))
  then mret cnt
  else if currentTerm rf <? rvr_Term reply then
    _ ← modify (set_currentTerm (rvr_Term reply));
    _ ← modify (set_votedFor noVote);
    _ ← persist;
    _ ← modify (set_state Follower);
    mret cnt
  else if (rvr_Term reply =? currentTerm rf) && bool_decide (state rf = Candidate) then
    let cnt' := if rvr_VoteGranted reply then cnt + 1 else cnt in
    _ ← when (npeers rf ÷ 2 <? cnt') (
          _ ← modify (set_state Leader);
          _ ← initializeLeaderEasilyLostState;
          broadcastHeartbeat);
    mret cnt'
  else mret cnt.

(** One iteration of [ticker] after the election timer fired. *)
Definition ticker : M C unit :=
  _ ← modify (set_state Candidate);
  startElection.

(** ** Replies to the replication RPCs *)

(** [func (rf *Raft) handleSendInstallSnapshot(peer, args)] after the RPC returned [true]. *)
Definition handleSendInstallSnapshot (peer : Z) (args : InstallSnapshotArgs)
    (reply : InstallSnapshotReply) : M C unit :=
  rf ← get;
  if negb (currentTerm rf =? isa_Term args) || negb (bool_decide (state rf = Leader))
  then mret tt
  else if currentTerm rf <? isr_Term reply then
    _ ← modify (set_currentTerm (isr_Term reply));
    _ ← modify (set_state Follower);
    persist
  else
    m ← lift (idx (matchIndex rf) peer);
    ms ← lift (upd (matchIndex rf) peer (Z.max m (isa_LastIncludedIndex args)));
    _ ← modify (set_matchIndex ms);
    n ← lift (idx (nextIndex rf) peer);
    ns ← lift (upd (nextIndex rf) peer (Z.max n (isa_LastIncludedIndex args + 1)));
    modify (set_nextIndex ns).

(** [succeedNum] of one candidate index [N]: the inner loop of [checkAndCommitLogs]. *)
Definition succeedNum (rf : Raft C) (N : Z) : option Z :=
  foldM (λ num p,
    m ← idx (matchIndex rf) p;
    if N <=? m then
      e ← idx (logs rf) (logIndex rf N);
      Some (if le_Term e =? currentTerm rf then num + 1 else num)
    else Some num) (range 0 (npeers rf)) 0.

(** The outer loop: the last index above [commitIndex] that a majority has. *)
Definition findCommit (rf : Raft C) : option Z :=
  foldM (λ N N',
    num ← succeedNum rf N';
    Some (if npeers rf ÷ 2 <? num then N' else N))
    (range (commitIndex rf + 1) (realLogLen rf)) (commitIndex rf).

(** [func (rf *Raft) checkAndCommitLogs()] *)
Definition checkAndCommitLogs : M C unit :=
  rf ← get;
  N ← lift (findCommit rf);
  when (commitIndex rf <? N) (
    _ ← modify (set_commitIndex N);
    emit [CondSignal]).

(** The loop of [findNextIndex]: the last position whose term is [XTerm]. *)
Definition lastWithTerm (rf : Raft C) (xterm : Z) : option Z :=
  foldl (λ acc (ie : Z * LogEntry C),
    if le_Term ie.2 =? xterm then Some (realIndex rf ie.1) else acc) None (enumerate (logs rf)).

(** [func (rf *Raft) findNextIndex(peer, reply)] *)
Definition findNextIndex (peer : Z) (reply : AppendEntriesReply) : M C unit :=
  rf ← get;
  let next :=
    if (aer_XTerm reply =? -1) && (aer_XIndex reply =? -1) then aer_XLen reply
    else match lastWithTerm rf (aer_XTerm reply) with
         | Some i => i
         | None => aer_XIndex reply
         end in
  ns ← lift (upd (nextIndex rf) peer next);
  modify (set_nextIndex ns).

(** [func (rf *Raft) handleSendAppendEntries(peer, args)] after the RPC returned [true]. *)
Definition handleSendAppendEntries (peer : Z) (args : AppendEntriesArgs C)
    (reply : AppendEntriesReply) : M C unit :=
  rf ← get;
  if negb (currentTerm rf =? aea_Term args) || negb (bool_decide (state rf = Leader))
  then mret tt
  else if currentTerm rf <? aer_Term reply then
    _ ← modify (set_currentTerm (aer_Term reply));
    _ ← modify (set_state Follower);
    persist
  else if aer_Success reply then
    let last := aea_PrevLogIndex args + zlen (aea_Entries args) in
    m ← lift (idx (matchIndex rf) peer);
    ms ← lift (upd (matchIndex rf) peer (Z.max m last));
    _ ← modify (set_matchIndex ms);
    n ← lift (idx (nextIndex rf) peer);
    ns ← lift (upd (nextIndex rf) peer (Z.max n (last + 1)));
    _ ← modify (set_nextIndex ns);
    checkAndCommitLogs
  else findNextIndex peer reply.

(** ** [Start] *)

(** [func (rf *Raft) Start(command interface{}) (int, int, bool)] *)
Definition Start (command : C) : M C (Z * Z * bool) :=
  rf ← get;
  if negb (bool_decide (state rf = Leader)) then mret (-1, -1, false) else
  _ ← modify (λ rf, set_logs (logs rf ++ [mkEntry (currentTerm rf) (Some command)]) rf);
  _ ← persist;
  rf ← get;
  ms ← lift (upd (matchIndex rf) (me rf) (lastLogIndex rf));
  _ ← modify (set_matchIndex ms);
  ns ← lift (upd (nextIndex rf) (me rf) (realLogLen rf));
  _ ← modify (set_nextIndex ns);
  _ ← emit [GoAddLogSignal];
  mret (lastLogIndex rf, currentTerm rf, true).

End leader.
