(* ===== verification/RaftApplier.v ===== *)
(** * Delivery to the service: the applier and the snapshot goroutines

    [applierEvent] of [raft/raft.go] and the goroutine [InstallSnapshot] starts
    both send on [applyCh].  A peer ([server]) is its [Raft] state, the program
    point of the applier, the goroutines that wait to send a snapshot, the
    pending [addLogSignal] sends, and what was received from [applyCh] so far.
    One step is one critical section, one atomic access or one channel send. *)

From S2P Require Import Prelude Persister RaftNode.

(** The program points of [applierEvent]. *)
Inductive applier_pc (C : Type) :=
  | ApWait                                                  (* for commitIndex <= lastApplied { cond.Wait() } *)
  | ApLoop (msgs : list (ApplyMsg C))                       (* for _, msg := range msgs *)
  | ApSend (msg : ApplyMsg C) (rest : list (ApplyMsg C))    (* rf.applyMsg <- msg *)
  | ApSent (msg : ApplyMsg C) (rest : list (ApplyMsg C))    (* replicatePreSnapshot.Store(false) *)
  | ApUpdate (msg : ApplyMsg C) (rest : list (ApplyMsg C)). (* lastApplied = max(...) *)
Arguments ApWait {_}.
Arguments ApLoop {_}.
Arguments ApSend {_}.
Arguments ApSent {_}.
Arguments ApUpdate {_}.

(** The program points of the goroutine started by [InstallSnapshot]. *)
Inductive snap_pc (C : Type) :=
  | SnapWait (msg : ApplyMsg C)    (* for replicatePreSnapshot.Load() { time.Sleep(...) } *)
  | SnapSend (msg : ApplyMsg C)    (* rf.applyMsg <- msg *)
  | SnapDone.
Arguments SnapWait {_}.
Arguments SnapSend {_}.
Arguments SnapDone {_}.

Record server (C : Type) := mkServer {
  sv_rf : Raft C;
  sv_applier : applier_pc C;
  sv_snaps : list (snap_pc C);
  sv_signals : nat;                  (* goroutines blocked on addLogSignal <- *)
  sv_applyCh : list (ApplyMsg C);    (* received from applyCh, oldest first *)
}.
Arguments mkServer {_}.
Arguments sv_rf {_}.
Arguments sv_applier {_}.
Arguments sv_snaps {_}.
Arguments sv_signals {_}.
Arguments sv_applyCh {_}.

Section applier.
Context {C : Type}.

(** The message built for index [i]. *)
Definition applyMsgAt (rf : Raft C) (i : Z) : option (ApplyMsg C) :=
  e ← idx (logs rf) (logIndex rf i);
  Some {| CommandValid := true; Command := le_Cmd e; CommandIndex := i;
          SnapshotValid := false; Snapshot_ := []; SnapshotTerm := 0; SnapshotIndex := 0 |}.

(** [msgs] of one round: the entries in [(lastApplied, commitIndex]]. *)
Definition collectMsgs (rf : Raft C) : option (list (ApplyMsg C)) :=
  mapM (applyMsgAt rf) (range (lastApplied rf + 1) (commitIndex rf + 1)).

(** One step of [applierEvent]; [None]: the goroutine waits (or panics). *)
Definition applierStep (sv : server C) : option (server C) :=
  let rf := sv_rf sv in
  match sv_applier sv with
  | ApWait =>
      if commitIndex rf <=? lastApplied rf then None else
      msgs ← collectMsgs rf;
      Some (mkServer rf (ApLoop msgs) (sv_snaps sv) (sv_signals sv) (sv_applyCh sv))
  | ApLoop [] => Some (mkServer rf ApWait (sv_snaps sv) (sv_signals sv) (sv_applyCh sv))
  | ApLoop (msg :: rest) =>
      if negb (CommandIndex msg =? lastApplied rf + 1)
      then Some (mkServer rf (ApLoop rest) (sv_snaps sv) (sv_signals sv) (sv_applyCh sv))
      else Some (mkServer (set_replicatePreSnapshot true rf) (ApSend msg rest)
                   (sv_snaps sv) (sv_signals sv) (sv_applyCh sv))
  | ApSend msg rest =>
      Some (mkServer rf (ApSent msg rest) (sv_snaps sv) (sv_signals sv) (sv_applyCh sv ++ [msg]))
  | ApSent msg rest =>
      Some (mkServer (set_replicatePreSnapshot false rf) (ApUpdate msg rest)
              (sv_snaps sv) (sv_signals sv) (sv_applyCh sv))
  | ApUpdate msg rest =>
      Some (mkServer (set_lastApplied (Z.max (CommandIndex msg) (lastApplied rf)) rf) (ApLoop rest)
              (sv_snaps sv) (sv_signals sv) (sv_applyCh sv))
  end.

(** One step of the [k]-th snapshot goroutine. *)
Definition snapStep (k : nat) (sv : server C) : option (server C) :=
  g ← sv_snaps sv !! k;
  match g with
  | SnapWait msg =>
      if replicatePreSnapshot (sv_rf sv) then None else
      Some (mkServer (sv_rf sv) (sv_applier sv) (<[k := SnapSend msg]> (sv_snaps sv))
              (sv_signals sv) (sv_applyCh sv))
  | SnapSend msg =>
      Some (mkServer (sv_rf sv) (sv_applier sv) (<[k := SnapDone]> (sv_snaps sv))
              (sv_signals sv) (sv_applyCh sv ++ [msg]))
  | SnapDone => None
  end.

(** What the goroutines started by a method add to its own server. *)
Definition spawnLocal (es : list (effect C)) (sv : server C) : server C :=
  foldl (λ sv e,
    match e with
    | GoApplySnapshot msg =>
        mkServer (sv_rf sv) (sv_applier sv) (sv_snaps sv ++ [SnapWait msg])
          (sv_signals sv) (sv_applyCh sv)
    | GoAddLogSignal =>
        mkServer (sv_rf sv) (sv_applier sv) (sv_snaps sv) (S (sv_signals sv)) (sv_applyCh sv)
    | _ => sv
    end) sv es.

(** A server just returned by [Make]. *)
Definition newServer (rf : Raft C) : server C := mkServer rf ApWait [] 0 [].

End applier.
