(* ===== verification/RaftCluster.v ===== *)
(** * A cluster of Raft peers

    The peers of [Make] connected by [labrpc].  The network delivers requests
    and replies in any order, may lose either, and runs a request at most once,
    as [labrpc] does; a call stays in the table [calls] with its status, so the
    table is also the history of the RPCs.  The steps are the atomic actions of
    the program: a timer that fires, a request executed by its handler, a reply
    handled by the goroutine that sent the request, a call of the service, a
    step of the applier, and a crash followed by [Make] on the saved state. *)

From S2P Require Import Prelude Persister RaftNode RaftFollower RaftLeader RaftApplier.

Inductive call_args (C : Type) :=
  | CallRequestVote (args : RequestVoteArgs)
  | CallAppendEntries (args : AppendEntriesArgs C)
  | CallInstallSnapshot (args : InstallSnapshotArgs).
Arguments CallRequestVote {_}.
Arguments CallAppendEntries {_}.
Arguments CallInstallSnapshot {_}.

Inductive call_reply :=
  | ReplyRequestVote (reply : RequestVoteReply)
  | ReplyAppendEntries (reply : AppendEntriesReply)
  | ReplyInstallSnapshot (reply : InstallSnapshotReply).

(** Where an RPC is: the request travels, the handler ran and the reply
    travels, or [Call] returned ([None]: [false]). *)
Inductive call_status :=
  | Requested
  | Executed (r : call_reply)
  | Returned (r : option call_reply).

(** One RPC: the calling peer, the called peer, and whether the peer that
    called is still the incarnation that sent it. *)
Record call (C : Type) := mkCall {
  c_src : Z; c_dst : Z; c_args : call_args C; c_status : call_status; c_alive : bool }.
Arguments mkCall {_}.
Arguments c_src {_}.
Arguments c_dst {_}.
Arguments c_args {_}.
Arguments c_status {_}.
Arguments c_alive {_}.

(** [votes]: the counter [voteGrantedCnt] of the election of a peer in a term. *)
Record cluster (C : Type) := mkCluster {
  servers : list (server C);
  calls : list (call C);
  votes : gmap (Z * Z) Z;
}.
Arguments mkCluster {_}.
Arguments servers {_}.
Arguments calls {_}.
Arguments votes {_}.

(** The atomic actions. *)
Inductive label (C : Type) :=
  | Timeout (i : Z)                           (* ticker *)
  | Heartbeat (i : Z)                         (* heartbeatEvent *)
  | AddLog (i : Z)                            (* AddLogEvent *)
  | Deliver (k : nat)                         (* the handler of call k runs *)
  | Lose (k : nat)                            (* request or reply lost *)
  | Answer (k : nat)                          (* the reply reaches the caller *)
  | ClientStart (i : Z) (cmd : C)             (* rf.Start *)
  | ServiceSnapshot (i : Z) (index : Z) (snap : bytes)  (* rf.Snapshot *)
  | Apply (i : Z)                             (* a step of applierEvent *)
  | ApplySnap (i : Z) (g : nat)               (* a step of a snapshot goroutine *)
  | Restart (i : Z).                          (* crash, then Make *)
Arguments Timeout {_}.
Arguments Heartbeat {_}.
Arguments AddLog {_}.
Arguments Deliver {_}.
Arguments Lose {_}.
Arguments Answer {_}.
Arguments ClientStart {_}.
Arguments ServiceSnapshot {_}.
Arguments Apply {_}.
Arguments ApplySnap {_}.
Arguments Restart {_}.

Section cluster.
Context {C : Type} `{!Gob (PersistentStatus C)}.

(** The calls a method of peer [i] starts. *)
Definition callsOf (i : Z) (es : list (effect C)) : list (call C) :=
  omap (λ e, match e with
             | GoRequestVote p args => Some (mkCall i p (CallRequestVote args) Requested true)
             | GoAppendEntries p args => Some (mkCall i p (CallAppendEntries args) Requested true)
             | GoInstallSnapshot p args => Some (mkCall i p (CallInstallSnapshot args) Requested true)
             | _ => None
             end) es.

(** Replace server [i] by [sv] with the [Raft] state [rf] and start the goroutines of [es]. *)
Definition putServer (i : Z) (sv : server C) (rf : Raft C) (es : list (effect C))
    (w : cluster C) : cluster C :=
  mkCluster
    (<[Z.to_nat i := spawnLocal es
         (mkServer rf (sv_applier sv) (sv_snaps sv) (sv_signals sv) (sv_applyCh sv))]> (servers w))
    (calls w ++ callsOf i es)
    (votes w).

(** Run a method on peer [i]. *)
Definition runOn {A} (i : Z) (m : M C A) (w : cluster C) : option (A * cluster C) :=
  sv ← idx (servers w) i;
  match m (sv_rf sv) with
  | Some (a, rf', es) => Some (a, putServer i sv rf' es w)
  | None => None
  end.

Definition setServer (i : Z) (sv : server C) (w : cluster C) : cluster C :=
  mkCluster (<[Z.to_nat i := sv]> (servers w)) (calls w) (votes w).

Definition setStatus (k : nat) (c : call C) (s : call_status) (w : cluster C) : cluster C :=
  mkCluster (servers w)
    (<[k := mkCall (c_src c) (c_dst c) (c_args c) s (c_alive c)]> (calls w)) (votes w).

Definition setVotes (i term cnt : Z) (w : cluster C) : cluster C :=
  mkCluster (servers w) (calls w) (<[(i, term) := cnt]> (votes w)).

(** The handler a request is dispatched to. *)
Definition handler (a : call_args C) : M C call_reply :=
  match a with
  | CallRequestVote args => r ← RequestVote args; mret (ReplyRequestVote r)
  | CallAppendEntries args => r ← AppendEntries args; mret (ReplyAppendEntries r)
  | CallInstallSnapshot args => r ← InstallSnapshot args; mret (ReplyInstallSnapshot r)
  end.

(** What the goroutine that made the call does with the reply. *)
Definition onReply (c : call C) (r : call_reply) (w : cluster C) : option (cluster C) :=
  match c_args c, r with
  | CallRequestVote args, ReplyRequestVote reply =>
      cnt ← votes w !! (c_src c, rva_Term args);
      '(cnt', w') ← runOn (c_src c) (handleVoteReply args reply cnt) w;
      Some (setVotes (c_src c) (rva_Term args) cnt' w')
  | CallAppendEntries args, ReplyAppendEntries reply =>
      '(_, w') ← runOn (c_src c) (handleSendAppendEntries (c_dst c) args reply) w;
      Some w'
  | CallInstallSnapshot args, ReplyInstallSnapshot reply =>
      '(_, w') ← runOn (c_src c) (handleSendInstallSnapshot (c_dst c) args reply) w;
      Some w'
  | _, _ => None
  end.

(** Calls of a crashed peer lose the goroutine that waits for the reply. *)
Definition orphan (i : Z) (c : call C) : call C :=
  if c_src c =? i then mkCall (c_src c) (c_dst c) (c_args c) (c_status c) false else c.

(** One atomic action; [None]: it is not enabled. *)
Definition step (l : label C) (w : cluster C) : option (cluster C) :=
  match l with
  | Timeout i =>
      '(_, w') ← runOn i ticker w;
      sv ← idx (servers w') i;
      Some (setVotes i (currentTerm (sv_rf sv)) voteGrantedCnt0 w')
  | Heartbeat i => '(_, w') ← runOn i heartbeatEvent w; Some w'
  | AddLog i =>
      sv ← idx (servers w) i;
      match sv_signals sv with
      | O => None
      | S n =>
          '(_, w') ← runOn i AddLogEvent
            (setServer i (mkServer (sv_rf sv) (sv_applier sv) (sv_snaps sv) n (sv_applyCh sv)) w);
          Some w'
      end
  | Deliver k =>
      c ← calls w !! k;
      match c_status c with
      | Requested =>
          '(r, w') ← runOn (c_dst c) (handler (c_args c)) w;
          Some (setStatus k c (Executed r) w')
      | _ => None
      end
  | Lose k =>
      c ← calls w !! k;
      match c_status c with
      | Returned _ => None
      | _ => Some (setStatus k c (Returned None) w)
      end
  | Answer k =>
      c ← calls w !! k;
      match c_status c with
      | Executed r =>
          let w' := setStatus k c (Returned (Some r)) w in
          if c_alive c then onReply c r w' else Some w'
      | _ => None
      end
  | ClientStart i cmd => '(_, w') ← runOn i (Start cmd) w; Some w'
  | ServiceSnapshot i index snap => '(_, w') ← runOn i (Snapshot index snap) w; Some w'
  | Apply i =>
      sv ← idx (servers w) i;
      sv' ← applierStep sv;
      Some (setServer i sv' w)
  | ApplySnap i g =>
      sv ← idx (servers w) i;
      sv' ← snapStep g sv;
      Some (setServer i sv' w)
  | Restart i =>
      sv ← idx (servers w) i;
      rf ← Make (zlen (servers w)) i (Copy (persister (sv_rf sv)));
      Some (mkCluster (<[Z.to_nat i := newServer rf]> (servers w)) (orphan i <$> calls w) (votes w))
  end.

(** A sequence of actions. *)
Definition steps (ls : list (label C)) (w : cluster C) : option (cluster C) :=
  foldM (λ w l, step l w) ls w.

(** [n] peers just made, with empty persisters. *)
Definition initCluster (n : nat) : cluster C :=
  mkCluster (imap (λ i _, newServer (freshRaft (Z.of_nat n) (Z.of_nat i) MakePersister))
               (replicate n ())) [] ∅.

Definition isRestart (l : label C) : bool :=
  match l with Restart _ => true | _ => false end.

(** Reachable by any actions, and by actions without crashes. *)
Inductive reachable (n : nat) : cluster C → Prop :=
  | reach_init : reachable n (initCluster n)
  | reach_step w l w' : reachable n w → step l w = Some w' → reachable n w'.

Inductive reachable_nocrash (n : nat) : cluster C → Prop :=
  | rnc_init : reachable_nocrash n (initCluster n)
  | rnc_step w l w' :
      reachable_nocrash n w → isRestart l = false → step l w = Some w' → reachable_nocrash n w'.

(** Peer [i] believes it is the leader of [term]. *)
Definition leads (w : cluster C) (i term : Z) : Prop :=
  ∃ sv, idx (servers w) i = Some sv ∧ state (sv_rf sv) = Leader ∧ currentTerm (sv_rf sv) = term.

End cluster.

(** ** A concrete instance of the Raft model

    Commands are integers and the codec is the enumeration codec of
    [Persister]; the witnesses and the counterexamples run on it. *)

#[export] Instance LogEntry_countable {C} `{Countable C} : Countable (LogEntry C) :=
  inj_countable' (λ e, (le_Term e, le_Cmd e)) (λ p, mkEntry p.1 p.2) (λ e, match e with mkEntry _ _ => eq_refl end).

#[export] Instance PersistentStatus_eq_dec {C} `{EqDecision C} : EqDecision (PersistentStatus C).
Proof. solve_decision. Defined.

#[export] Instance PersistentStatus_countable {C} `{Countable C} : Countable (PersistentStatus C) :=
  inj_countable'
    (λ s, (st_Logs s, st_CurrentTerm s, st_VotedFor s, st_LastIncludedIndex s, st_LastIncludedTerm s))
    (λ p, match p with (l, t, v, i, it) => mkStatus l t v i it end)
    (λ s, match s with mkStatus _ _ _ _ _ => eq_refl end).

#[export] Instance status_gob : Gob (PersistentStatus Z) := countable_gob (PersistentStatus Z).
#[export] Instance status_gob_laws : GobLaws (PersistentStatus Z) := countable_gob_laws (PersistentStatus Z).
