(* ===== verification/RaftElection.v ===== *)
(** * Election safety

    In a cluster whose peers do not crash there is at most one leader per term
    ([election_safety]): a rule induction on the cluster's actions with the
    invariant [einv], built on a summary of what each method does to the term,
    the vote and the role ([quiet], [RequestVote_vote], [ticker_vote],
    [handleVoteReply_vote]). *)

From S2P Require Import Prelude Persister RaftNode RaftFollower RaftLeader RaftApplier RaftCluster.

Section summaries.
Context {C : Type} `{!Gob (PersistentStatus C)}.
Implicit Types rf : Raft C.

(** What every method but the start of an election does: the term does not go
    back, the vote changes only with the term or when there was none, and a
    candidate or leader was one before, in the same term. *)
Record quiet rf rf' : Prop := {
  q_me : me rf' = me rf;
  q_npeers : npeers rf' = npeers rf;
  q_term : currentTerm rf ≤ currentTerm rf';
  q_vote : currentTerm rf' = currentTerm rf → votedFor rf' = votedFor rf ∨ votedFor rf = noVote;
  q_state : state rf' ≠ Follower → state rf ≠ Follower ∧ currentTerm rf' = currentTerm rf;
}.

(** The method does not make a leader. *)
Definition noPromotion rf rf' : Prop := state rf' = Leader → state rf = Leader.

(** The actions contain no vote request. *)
Definition noVoteCalls (es : list (effect C)) : Prop :=
  ∀ i c args, c ∈ callsOf i es → c_args c ≠ CallRequestVote args.

Lemma noVoteCalls_nil : noVoteCalls [].
Proof. intros i c args H. by apply elem_of_nil in H. Qed.

Lemma noVoteCalls_app es es' : noVoteCalls es → noVoteCalls es' → noVoteCalls (es ++ es').
Proof.
  intros H H' i c args. unfold callsOf. rewrite omap_app, elem_of_app.
  intros [?|?]; [by eapply H|by eapply H'].
Qed.

Lemma noVoteCalls_cons e es :
  match e with GoRequestVote _ _ => False | _ => True end → noVoteCalls es → noVoteCalls (e :: es).
Proof.
  intros He H i c args. unfold callsOf. simpl. destruct e; try done;
    rewrite ?elem_of_cons; intros Hc; try (by eapply H);
    destruct Hc as [->|Hc]; try done; by eapply H.
Qed.

Lemma quiet_refl rf : quiet rf rf.
Proof. split; [done|done|lia|auto|done]. Qed.

Lemma noPromotion_refl rf : noPromotion rf rf.
Proof. unfold noPromotion. auto. Qed.
End summaries.

#[export] Hint Resolve noVoteCalls_nil noVoteCalls_app noVoteCalls_cons quiet_refl noPromotion_refl : go.

(** Close goals [quiet rf rf'], [noPromotion rf rf'] and [noVoteCalls es] by computation. *)
Ltac quiet_solve :=
  persist_simpl; bool_simpl; split_and?;
  try solve
    [ auto with go
    | repeat (first [ apply noVoteCalls_app | apply noVoteCalls_cons | apply noVoteCalls_nil ]); done
    | split; simpl in *; solve [ done | lia | congruence | by intros; split | by auto | intros; exfalso; lia | intros; split; congruence ]
    | unfold noPromotion; simpl in *; congruence ].

Section methods.
Context {C : Type} `{!Gob (PersistentStatus C)}.
Implicit Types rf : Raft C.

Lemma AppendEntries_quiet args rf r rf' es :
  AppendEntries args rf = Some (r, rf', es) →
  quiet rf rf' ∧ noPromotion rf rf' ∧ noVoteCalls es.
Proof. unfold AppendEntries. intros H. minv H; quiet_solve. Qed.

Lemma InstallSnapshot_quiet args rf r rf' es :
  InstallSnapshot args rf = Some (r, rf', es) →
  quiet rf rf' ∧ noPromotion rf rf' ∧ noVoteCalls es.
Proof. unfold InstallSnapshot, adoptSnapshot. intros H. minv H; quiet_solve. Qed.

Lemma Snapshot_quiet index snap rf r rf' es :
  Snapshot index snap rf = Some (r, rf', es) →
  quiet rf rf' ∧ noPromotion rf rf' ∧ noVoteCalls es.
Proof. unfold Snapshot. intros H. minv H; quiet_solve. Qed.

Lemma broadcastHeartbeat_Some rf u rf' es :
  broadcastHeartbeat rf = Some (u, rf', es) → rf' = rf ∧ noVoteCalls es.
Proof.
  unfold broadcastHeartbeat. intros H. minv H. split; [done|]. rewrite app_nil_l.
  match goal with H : mapM _ _ = Some _ |- _ => apply mapM_Some in H; rename H into Hes end.
  induction Hes as [|i e is' es' He _ IH]; [apply noVoteCalls_nil|].
  apply noVoteCalls_cons; [|done]. unfold broadcastOne in He.
  inv_bind He. destruct (_ <=? _); inv_bind He; by simplify_eq.
Qed.

Lemma initializeLeader_Some rf u rf' es :
  initializeLeaderEasilyLostState rf = Some (u, rf', es) →
  es = [] ∧ ∃ ns ms, rf' = set_nextIndex ns (set_matchIndex ms rf).
Proof. unfold initializeLeaderEasilyLostState. intros H. minv H. eauto. Qed.

Lemma heartbeatEvent_quiet rf u rf' es :
  heartbeatEvent rf = Some (u, rf', es) →
  quiet rf rf' ∧ noPromotion rf rf' ∧ noVoteCalls es.
Proof.
  unfold heartbeatEvent. intros H. minv H; [|quiet_solve].
  apply broadcastHeartbeat_Some in Hm as [-> ?]. auto 10 with go.
Qed.

Lemma AddLogEvent_quiet rf u rf' es :
  AddLogEvent rf = Some (u, rf', es) →
  quiet rf rf' ∧ noPromotion rf rf' ∧ noVoteCalls es.
Proof.
  unfold AddLogEvent. intros H. minv H; [|quiet_solve].
  apply broadcastHeartbeat_Some in Hm as [-> ?]. auto 10 with go.
Qed.

Lemma handleSendInstallSnapshot_quiet peer args reply rf u rf' es :
  handleSendInstallSnapshot peer args reply rf = Some (u, rf', es) →
  quiet rf rf' ∧ noPromotion rf rf' ∧ noVoteCalls es.
Proof. unfold handleSendInstallSnapshot. intros H. minv H; quiet_solve. Qed.

Lemma handleSendAppendEntries_quiet peer args reply rf u rf' es :
  handleSendAppendEntries peer args reply rf = Some (u, rf', es) →
  quiet rf rf' ∧ noPromotion rf rf' ∧ noVoteCalls es.
Proof.
  unfold handleSendAppendEntries, checkAndCommitLogs, findNextIndex.
  intros H. minv H; quiet_solve.
Qed.

Lemma Start_quiet cmd rf r rf' es :
  Start cmd rf = Some (r, rf', es) →
  quiet rf rf' ∧ noPromotion rf rf' ∧ noVoteCalls es.
Proof. unfold Start. intros H. minv H; quiet_solve. Qed.

Lemma applierStep_quiet sv sv' :
  applierStep sv = Some sv' →
  quiet (C:=C) (sv_rf sv) (sv_rf sv') ∧ noPromotion (sv_rf sv) (sv_rf sv').
Proof.
  unfold applierStep. destruct (sv_applier sv) as [|[|m ms]|m r|m r|m r]; intros H;
    repeat case_match; inv_bind H; simplify_eq/=; quiet_solve.
Qed.

Lemma snapStep_rf k sv sv' : snapStep (C:=C) k sv = Some sv' → sv_rf sv' = sv_rf sv.
Proof. unfold snapStep. intros H. inv_bind H. repeat case_match; by simplify_eq/=. Qed.

(** [RequestVote]: a grant is for the candidate and leaves the voter in its term. *)
Lemma RequestVote_vote args rf r rf' es :
  RequestVote args rf = Some (r, rf', es) →
  quiet rf rf' ∧ noPromotion rf rf' ∧ noVoteCalls es ∧
  (rvr_VoteGranted r = true →
   currentTerm rf' = rva_Term args ∧ votedFor rf' = rva_CandidateId args).
Proof.
  unfold RequestVote. intros H. minv H; bool_simpl; persist_simpl; split_and!; quiet_solve;
    simpl in *; try done; try lia.
  destruct (_ || _) eqn:E in Hm0; [|done]. bool_simpl.
  split; simpl; [done|done|lia|intros _|by split]. destruct E as [?|<-]; auto.
Qed.

(** What one round of [ticker] does: a new term, a vote for itself, and one
    request of that term to every other peer. *)
Lemma ticker_vote rf u rf' es :
  ticker rf = Some (u, rf', es) →
  me rf' = me rf ∧ npeers rf' = npeers rf ∧ currentTerm rf' = currentTerm rf + 1 ∧
  votedFor rf' = me rf ∧ state rf' = Candidate ∧
  ∃ args, rva_Term args = currentTerm rf' ∧ rva_CandidateId args = me rf ∧
    ∀ i, callsOf i es = (λ p, mkCall i p (CallRequestVote args) Requested true) <$>
                          filter (λ p, p ≠ me rf) (range 0 (npeers rf)).
Proof.
  unfold ticker, startElection. intros H. minv H.
  repeat match goal with H : persist _ = Some _ |- _ => apply persist_Some in H as (? & -> & ->) end.
  simpl in *. split_and!; try done.
  match goal with H : mapM _ _ = Some _ |- _ => apply mapM_Some in H; rename H into Hes end.
  destruct (lastLogTerm _) as [t|] eqn:Et; simpl in Hes.
  - exists (mkRVArgs (currentTerm rf + 1) (me rf) (lastLogIndex rf) t). split_and!; try done.
    intros i. unfold callsOf. simpl. induction Hes as [|p e ps es' He _ IH]; [done|].
    unfold mbind, option_bind in He. simplify_eq. cbn. f_equal. exact IH.
  - exists (mkRVArgs (currentTerm rf + 1) (me rf) 0 0). split_and!; try done.
    intros i. by inversion Hes.
Qed.

(** The closure of [startElection]: it may count the vote, of its own term, and
    only then may it make a leader, if the counter passes half of the peers. *)
Lemma handleVoteReply_vote args reply cnt rf cnt' rf' es :
  handleVoteReply args reply cnt rf = Some (cnt', rf', es) →
  quiet rf rf' ∧ noVoteCalls es ∧
  (cnt' = cnt ∨ cnt' = cnt + 1 ∧ rvr_VoteGranted reply = true) ∧
  (noPromotion rf rf' ∨ currentTerm rf' = rva_Term args ∧ npeers rf ÷ 2 < cnt').
Proof.
  unfold handleVoteReply. intros H. minv H; bool_simpl; simpl in *.
  all: try match goal with H : initializeLeaderEasilyLostState _ = _ |- _ =>
         apply initializeLeader_Some in H as (-> & ? & ? & ->) end.
  all: try match goal with H : broadcastHeartbeat _ = _ |- _ =>
         apply broadcastHeartbeat_Some in H as (-> & ?) end.
  all: persist_simpl; destruct_and?; repeat case_bool_decide; simpl in *; try done.
  all: split_and!; quiet_solve; simpl in *; eauto with go.
  all: try (destruct (rvr_VoteGranted reply); eauto; fail).
  all: try (left; unfold noPromotion; simpl; congruence).
Qed.
End methods.

(** ** The invariant *)

Section invariant.
Context {C : Type} `{!Gob (PersistentStatus C)} (n : nat).
Implicit Types (w : cluster C) (c : call C).

(** The handler of a call granted its vote. *)
Definition granted (s : call_status) : bool :=
  match s with
  | Executed (ReplyRequestVote r) | Returned (Some (ReplyRequestVote r)) => rvr_VoteGranted r
  | _ => false
  end.

(** [c] is a vote request of [i] for [T] whose granting reply reached [i]. *)
Definition countedFor (i T : Z) (c : call C) : bool :=
  match c_args c, c_status c with
  | CallRequestVote a, Returned (Some (ReplyRequestVote r)) =>
      (c_src c =? i) && (rva_Term a =? T) && rvr_VoteGranted r
  | _, _ => false
  end.

(** The peers whose votes for [i] in [T] are known to [i]. *)
Definition voters w (i T : Z) : gset Z :=
  {[i]} ∪ list_to_set (c_dst <$> filter (λ c, countedFor i T c = true) (calls w)).

(** [v] voted for [x] in [T]: it campaigned itself or granted a request of [x]. *)
Definition voted w (v T x : Z) : Prop :=
  (v = x ∧ is_Some (votes w !! (v, T))) ∨
  ∃ k cl args, calls w !! k = Some cl ∧ c_args cl = CallRequestVote args ∧
    c_dst cl = v ∧ c_src cl = x ∧ rva_Term args = T ∧ granted (c_status cl) = true.

(** [rf] is past the vote for [x] in [T]: a later term, or that term and that vote. *)
Definition pastVote (rf : Raft C) (T x : Z) : Prop :=
  T < currentTerm rf ∨ T = currentTerm rf ∧ votedFor rf = x.

Record einv w : Prop := {
  e_len : length (servers w) = n;
  e_ids i sv : idx (servers w) i = Some sv → me (sv_rf sv) = i ∧ npeers (sv_rf sv) = Z.of_nat n;
  e_cand i sv : idx (servers w) i = Some sv → state (sv_rf sv) ≠ Follower →
    votedFor (sv_rf sv) = i ∧ is_Some (votes w !! (i, currentTerm (sv_rf sv)));
  e_calls k c args : calls w !! k = Some c → c_args c = CallRequestVote args →
    rva_CandidateId args = c_src c ∧ c_src c ≠ c_dst c ∧ 0 ≤ c_src c < Z.of_nat n ∧
    0 ≤ c_dst c < Z.of_nat n ∧ is_Some (votes w !! (c_src c, rva_Term args));
  e_once k1 k2 c1 c2 a1 a2 : calls w !! k1 = Some c1 → calls w !! k2 = Some c2 →
    c_args c1 = CallRequestVote a1 → c_args c2 = CallRequestVote a2 →
    c_src c1 = c_src c2 → c_dst c1 = c_dst c2 → rva_Term a1 = rva_Term a2 → k1 = k2;
  e_voted v T x : voted w v T x →
    0 ≤ x ∧ ∃ sv, idx (servers w) v = Some sv ∧ pastVote (sv_rf sv) T x;
  e_uniq v T x y : voted w v T x → voted w v T y → x = y;
  e_count i T cnt : votes w !! (i, T) = Some cnt → cnt ≤ Z.of_nat (size (voters w i T));
  e_leader i sv : idx (servers w) i = Some sv → state (sv_rf sv) = Leader →
    Z.of_nat n ÷ 2 < Z.of_nat (size (voters w i (currentTerm (sv_rf sv))));
}.

Lemma elem_of_voters w i T v :
  v ∈ voters w i T ↔ v = i ∨ ∃ k c, calls w !! k = Some c ∧ countedFor i T c = true ∧ c_dst c = v.
Proof.
  unfold voters. rewrite elem_of_union, elem_of_singleton, elem_of_list_to_set, list_elem_of_fmap.
  f_equiv. split.
  - intros (c & -> & [? Hc]%list_elem_of_filter). apply list_elem_of_lookup in Hc as [k ?]. eauto 10.
  - intros (k & c & Hk & ? & <-). exists c. split; [done|].
    apply list_elem_of_filter. split; [done|]. by eapply list_elem_of_lookup_2.
Qed.

Lemma countedFor_inv i T c :
  countedFor i T c = true →
  ∃ args r, c_args c = CallRequestVote args ∧ c_status c = Returned (Some (ReplyRequestVote r)) ∧
    c_src c = i ∧ rva_Term args = T ∧ rvr_VoteGranted r = true.
Proof.
  unfold countedFor. destruct (c_args c) as [a| |], (c_status c) as [| |[[r| |]|]]; try done.
  rewrite !andb_true_iff, !Z.eqb_eq. naive_solver.
Qed.

Lemma voters_voted w i T v :
  is_Some (votes w !! (i, T)) → v ∈ voters w i T → voted w v T i.
Proof.
  intros Hi [->|(k & c & Hk & (args & r & Ha & Hs & <- & <- & Hr)%countedFor_inv & <-)]%elem_of_voters;
    [by left|].
  right. exists k, c, args. split_and!; try done. by rewrite Hs.
Qed.

(** Two majorities of the peers share a member. *)
Lemma majorities_meet (X Y : gset Z) :
  X ⊆ list_to_set (range 0 (Z.of_nat n)) → Y ⊆ list_to_set (range 0 (Z.of_nat n)) →
  Z.of_nat n ÷ 2 < Z.of_nat (size X) → Z.of_nat n ÷ 2 < Z.of_nat (size Y) → ∃ v, v ∈ X ∧ v ∈ Y.
Proof.
  intros HX HY Hx Hy. destruct (decide (X ∩ Y = ∅)) as [He|Hne].
  - exfalso. assert (size (X ∪ Y) = (size X + size Y)%nat) as Hs by (apply size_union; set_solver).
    assert (size (X ∪ Y) ≤ n)%nat.
    { etrans; [apply subseteq_size; apply union_subseteq; split; [exact HX|exact HY]|].
      rewrite size_list_to_set by apply NoDup_seqZ. unfold range. rewrite length_seqZ. lia. }
    rewrite Z.quot_div_nonneg in * by lia. pose proof (Z.div_mod (Z.of_nat n) 2).
    pose proof (Z.mod_pos_bound (Z.of_nat n) 2). lia.
  - apply set_choose_L in Hne as [v Hv]. exists v. set_solver.
Qed.

(** *** Preservation *)

Lemma pastVote_quiet rf rf' T x : 0 ≤ x → quiet rf rf' → pastVote rf T x → pastVote rf' T x.
Proof.
  intros Hx [_ _ Ht Hv _]. unfold pastVote. intros [?|[-> <-]]; [left; lia|].
  destruct (decide (currentTerm rf' = currentTerm rf)) as [E|E]; [|left; lia].
  right. split; [done|]. destruct (Hv E) as [?|Hn]; [done|]. rewrite Hn in Hx. unfold noVote in Hx. lia.
Qed.

Lemma lookup_calls_app w cs k c args :
  (∀ c args, c ∈ cs → c_args c ≠ CallRequestVote args) →
  (calls w ++ cs) !! k = Some c → c_args c = CallRequestVote args → calls w !! k = Some c.
Proof.
  intros Hcs [?|[_ Hc]]%lookup_app_Some Ha; [done|].
  apply list_elem_of_lookup_2 in Hc. by edestruct Hcs.
Qed.

Lemma voters_app w cs i T svs vs :
  (∀ c, c ∈ cs → countedFor i T c = false) →
  voters (mkCluster svs (calls w ++ cs) vs) i T = voters w i T.
Proof.
  intros Hcs. apply set_eq. intros v. rewrite !elem_of_voters. f_equiv. simpl. split.
  - intros (k & c & [?|[_ Hk]]%lookup_app_Some & Hc & <-); [by eauto|].
    apply list_elem_of_lookup_2, Hcs in Hk. congruence.
  - intros (k & c & Hk & Hc & <-). exists k, c. split_and!; try done. by apply lookup_app_l_Some.
Qed.

Lemma not_counted i T c :
  (∀ args, c_args c ≠ CallRequestVote args) → countedFor i T c = false.
Proof.
  intros Hc. apply not_true_iff_false. intros (args & _ & Ha & _)%countedFor_inv. by eapply Hc.
Qed.

Lemma voted_app w cs svs v T x :
  (∀ c args, c ∈ cs → c_args c ≠ CallRequestVote args) →
  voted (mkCluster svs (calls w ++ cs) (votes w)) v T x → voted w v T x.
Proof.
  intros Hcs [?|(k & cl & args & Hk & Ha & H)]; [by left|right].
  exists k, cl, args. split_and!; try apply H; [|done]. by eapply lookup_calls_app.
Qed.

(** Server [i] moves to [sv'] and makes no vote request. *)
Lemma einv_quiet w i sv sv' cs :
  einv w → idx (servers w) i = Some sv → quiet (sv_rf sv) (sv_rf sv') →
  (noPromotion (sv_rf sv) (sv_rf sv') ∨
   Z.of_nat n ÷ 2 < Z.of_nat (size (voters w i (currentTerm (sv_rf sv'))))) →
  (∀ c args, c ∈ cs → c_args c ≠ CallRequestVote args) →
  einv (mkCluster (<[Z.to_nat i := sv']> (servers w)) (calls w ++ cs) (votes w)).
Proof.
  intros [Hlen Hids Hcand Hcalls Honce Hvoted Huniq Hcount Hlead] Hi Hq Hpro Hcs. split; simpl.
  - by rewrite length_insert.
  - intros j sj [[-> ->]|[_ ?]]%(idx_insert_inv _ _ _ _ _ _ Hi); [|by apply Hids].
    destruct (Hids _ _ Hi) as [<- <-]. by rewrite (q_me _ _ Hq), (q_npeers _ _ Hq).
  - intros j sj [[-> ->]|[_ ?]]%(idx_insert_inv _ _ _ _ _ _ Hi); [|by apply Hcand].
    intros Hs. destruct (q_state _ _ Hq Hs) as [E1 E2]. rewrite E2.
    destruct (Hcand _ _ Hi E1) as [Hv ?]. split; [|done].
    destruct (q_vote _ _ Hq E2) as [->|Hn]; [done|].
    apply idx_lt in Hi. unfold noVote in Hn. lia.
  - intros k c args Hk Ha. eapply Hcalls; [|exact Ha]. by eapply lookup_calls_app.
  - intros k1 k2 c1 c2 a1 a2 H1 H2 E1 E2. eapply Honce; try done; by eapply lookup_calls_app.
  - intros v T x (Hx & sx & Hsx & Hp)%voted_app%Hvoted; [|done]. split; [done|].
    destruct (decide (v = i)) as [->|Hne].
    + exists sv'. rewrite idx_insert_eq by by eapply idx_lt. split; [done|]. simplify_eq.
      by eapply pastVote_quiet.
    + exists sx. rewrite idx_insert_ne by (apply idx_lt in Hi; lia). done.
  - intros v T x y ?%voted_app ?%voted_app; [by eapply Huniq|done|done].
  - intros j T cnt. rewrite voters_app by eauto using not_counted. apply Hcount.
  - intros j sj [[-> ->]|[_ ?]]%(idx_insert_inv _ _ _ _ _ _ Hi) Hs; rewrite voters_app by eauto using not_counted.
    + destruct Hpro as [Hpro|?]; [|done]. destruct (q_state _ _ Hq) as [E1 E2]; [by rewrite Hs|].
      rewrite E2. apply Hlead; [done|]. by apply Hpro.
    + by apply Hlead.
Qed.

(** *** A call changes status *)

Lemma lookup_setStatus w k c s j c' :
  calls w !! k = Some c → calls (setStatus k c s w) !! j = Some c' →
  ∃ c0, calls w !! j = Some c0 ∧ c_src c' = c_src c0 ∧ c_dst c' = c_dst c0 ∧ c_args c' = c_args c0 ∧
    (c' = c0 ∨ j = k ∧ c0 = c ∧ c_status c' = s).
Proof.
  intros Hk. simpl. intros [(-> & <- & _)|[? ?]]%list_lookup_insert_Some; [|naive_solver].
  exists c. naive_solver.
Qed.

Lemma voters_setStatus w k c s i T :
  calls w !! k = Some c → countedFor i T c = false → voters w i T ⊆ voters (setStatus k c s w) i T.
Proof.
  intros Hk Hc v. rewrite !elem_of_voters. intros [?|(j & cj & Hj & Hcj & <-)]; [by left|right].
  exists j, cj. split_and!; try done. simpl. rewrite list_lookup_insert_ne; [done|].
  intros ->. congruence.
Qed.

(** The vote a new status records, if it records one. *)
Definition recordsVote w c s : Prop :=
  granted s = true → granted (c_status c) = true ∨
  ∀ args, c_args c = CallRequestVote args →
    ∃ sv, idx (servers w) (c_dst c) = Some sv ∧
      currentTerm (sv_rf sv) = rva_Term args ∧ votedFor (sv_rf sv) = c_src c.

Lemma voted_setStatus w k c s v T x :
  calls w !! k = Some c → recordsVote w c s → voted (setStatus k c s w) v T x →
  voted w v T x ∨
  ∃ args sv, c_args c = CallRequestVote args ∧ x = c_src c ∧ idx (servers w) v = Some sv ∧
    currentTerm (sv_rf sv) = T ∧ votedFor (sv_rf sv) = x.
Proof.
  intros Hk Hr [?|(j & cj & args & Hj & Ha & <- & <- & <- & Hg)]; [by left; left|].
  destruct (lookup_setStatus _ _ _ _ _ _ Hk Hj) as (c0 & H0 & Es & Ed & Ea & Hc).
  rewrite Es, Ed. rewrite Ea in Ha. destruct Hc as [->|(-> & -> & Hs)].
  - left; right. exists j, c0, args. done.
  - rewrite Hs in Hg. destruct (Hr Hg) as [Hg'|Hv].
    + left; right. exists k, c, args. done.
    + right. destruct (Hv _ Ha) as (sv & ? & ? & ?). eauto 10.
Qed.

Lemma einv_status w k c s :
  einv w → calls w !! k = Some c → (∀ i T, countedFor i T c = false) → recordsVote w c s →
  einv (setStatus k c s w).
Proof.
  intros [Hlen Hids Hcand Hcalls Honce Hvoted Huniq Hcount Hlead] Hk Hc Hr.
  split; [done|done|done| | | | | |].
  - intros j cj args Hj Ha. destruct (lookup_setStatus _ _ _ _ _ _ Hk Hj) as (c0 & H0 & -> & -> & Ea & _).
    rewrite Ea in Ha. by eapply Hcalls.
  - intros k1 k2 c1 c2 a1 a2 H1 H2 Ha1 Ha2 Es Ed ET.
    destruct (lookup_setStatus _ _ _ _ _ _ Hk H1) as (d1 & ? & E1 & E2 & E3 & _).
    destruct (lookup_setStatus _ _ _ _ _ _ Hk H2) as (d2 & ? & F1 & F2 & F3 & _).
    apply (Honce k1 k2 d1 d2 a1 a2); [done|done|congruence..].
  - intros v T x [Hv|(args & sv & Ha & -> & Hi & <- & Hv)]%(voted_setStatus _ _ _ _ _ _ _ Hk Hr).
    + by apply Hvoted.
    + split; [by destruct (Hcalls _ _ _ Hk Ha) as (_ & _ & ? & _); lia|].
      exists sv. split; [done|]. by right.
  - intros v T x y Hx%(voted_setStatus _ _ _ _ _ _ _ Hk Hr) Hy%(voted_setStatus _ _ _ _ _ _ _ Hk Hr).
    destruct Hx as [Hx|(ax & sx & Hax & -> & Hix & Htx & Hvx)],
             Hy as [Hy|(ay & sy & Hay & -> & Hiy & Hty & Hvy)]; [by eapply Huniq| | |done].
    + destruct (Hvoted _ _ _ Hx) as (? & sx & ? & Hp). simplify_eq. destruct Hp as [?|[_ ?]]; [lia|congruence].
    + destruct (Hvoted _ _ _ Hy) as (? & sy & ? & Hp). simplify_eq. destruct Hp as [?|[_ ?]]; [lia|congruence].
  - intros i T cnt Hv. etrans; [by apply Hcount|]. apply Nat2Z.inj_le, subseteq_size.
    by apply voters_setStatus.
  - intros i sv Hi Hs. eapply Z.lt_le_trans; [by apply Hlead|].
    apply Nat2Z.inj_le, subseteq_size. by apply voters_setStatus.
Qed.

(** *** An election starts *)

Definition requests (i : Z) (args : RequestVoteArgs) (ps : list Z) : list (call C) :=
  (λ p, mkCall i p (CallRequestVote args) Requested true) <$> ps.

Lemma lookup_requests i args ps k c :
  requests i args ps !! k = Some c →
  ∃ p, ps !! k = Some p ∧ c = mkCall i p (CallRequestVote args) Requested true.
Proof. unfold requests. intros (p & -> & ?)%list_lookup_fmap_Some_1. eauto. Qed.

Lemma voted_requests w svs i T args ps v T' x :
  voted (mkCluster svs (calls w ++ requests i args ps) (<[(i, T) := 1]> (votes w))) v T' x →
  voted w v T' x ∨ (v = i ∧ T' = T ∧ x = i).
Proof.
  intros [[<- Hs]|(k & c & a & [Hk|[_ Hk]]%lookup_app_Some & Ha & <- & <- & <- & Hg)]; simpl in *.
  - destruct (decide ((i, T) = (v, T'))) as [[= <- <-]|Hne]; [by right|].
    rewrite lookup_insert_ne in Hs by done. by left; left.
  - left; right. exists k, c, a. done.
  - apply lookup_requests in Hk as (p & ? & ->). done.
Qed.

(** The requests of a new term are the only ones of that candidate in that term. *)
Lemma requests_once w i args ps : einv w → votes w !! (i, rva_Term args) = None → NoDup ps →
  ∀ k1 k2 c1 c2 a1 a2, (calls w ++ requests i args ps) !! k1 = Some c1 → (calls w ++ requests i args ps) !! k2 = Some c2 →
    c_args c1 = CallRequestVote a1 → c_args c2 = CallRequestVote a2 →
    c_src c1 = c_src c2 → c_dst c1 = c_dst c2 → rva_Term a1 = rva_Term a2 → k1 = k2.
Proof.
  intros Hinv Hnone Hnd k1 k2 c1 c2 a1 a2 [H1|[L1 H1]]%lookup_app_Some [H2|[L2 H2]]%lookup_app_Some Ha1 Ha2 Es Ed ET.
  - by eapply (e_once _ Hinv).
  - exfalso. apply lookup_requests in H2 as (p & _ & ->). simplify_eq/=.
    destruct (e_calls _ Hinv _ _ _ H1 Ha1) as (_ & _ & _ & _ & Hk). rewrite ?Es, ET, Hnone in Hk. by apply is_Some_None in Hk.
  - exfalso. apply lookup_requests in H1 as (p & _ & ->). simplify_eq/=.
    destruct (e_calls _ Hinv _ _ _ H2 Ha2) as (_ & _ & _ & _ & Hk). rewrite <- ET, Hnone in Hk. by apply is_Some_None in Hk.
  - apply lookup_requests in H1 as (p1 & H1 & ->), H2 as (p2 & H2 & ->). simplify_eq/=.
    assert (k1 - length (calls w) = k2 - length (calls w))%nat; [|lia]. by eapply NoDup_lookup.
Qed.

(** A vote of the past stays one when peer [i] enters a later term. *)
Lemma voted_later w i (sv sv' sx : server C) v T x : idx (servers w) i = Some sv → currentTerm (sv_rf sv) < currentTerm (sv_rf sv') →
  idx (servers w) v = Some sx → pastVote (sv_rf sx) T x →
  ∃ sx', idx (<[Z.to_nat i := sv']> (servers w)) v = Some sx' ∧ pastVote (sv_rf sx') T x.
Proof.
  intros Hi Ht Hsx Hp. pose proof (idx_lt _ _ _ Hi). destruct (decide (v = i)) as [->|Hne].
  - exists sv'. rewrite idx_insert_eq by done. split; [done|]. simplify_eq. left. unfold pastVote in Hp. lia.
  - exists sx. by rewrite idx_insert_ne by lia.
Qed.

Lemma einv_election w i sv sv' args :
  einv w → idx (servers w) i = Some sv →
  me (sv_rf sv') = i → npeers (sv_rf sv') = Z.of_nat n →
  currentTerm (sv_rf sv') = currentTerm (sv_rf sv) + 1 → votedFor (sv_rf sv') = i →
  state (sv_rf sv') = Candidate →
  rva_Term args = currentTerm (sv_rf sv') → rva_CandidateId args = i →
  einv (mkCluster (<[Z.to_nat i := sv']> (servers w))
          (calls w ++ requests i args (filter (λ p, p ≠ i) (range 0 (Z.of_nat n))))
          (<[(i, currentTerm (sv_rf sv')) := 1]> (votes w))).
Proof.
  intros Hinv. pose proof Hinv as [Hlen Hids Hcand Hcalls Honce Hvoted Huniq Hcount Hlead]. intros Hi Hme Hn Ht Hv Hs Ha Hc.
  pose proof (idx_lt _ _ _ Hi) as Hir.
  assert (∀ x, ¬ voted w i (currentTerm (sv_rf sv')) x) as Hfresh.
  { intros x (_ & sx & Hsx & Hp)%Hvoted. rewrite Hi in Hsx. injection Hsx as <-.
    unfold pastVote in Hp. lia. }
  assert (votes w !! (i, currentTerm (sv_rf sv')) = None) as Hnone.
  { apply eq_None_not_Some. intros Hk. apply (Hfresh i). by left. }
  assert (∀ j T, voters (mkCluster (<[Z.to_nat i := sv']> (servers w))
      (calls w ++ requests i args (filter (λ p, p ≠ i) (range 0 (Z.of_nat n))))
      (<[(i, currentTerm (sv_rf sv')) := 1]> (votes w))) j T = voters w j T) as Hvs.
  { intros j T. apply voters_app. intros c (p & -> & ?)%list_elem_of_fmap. done. }
  assert (∀ j T, is_Some (votes w !! (j, T)) →
    is_Some (<[(i, currentTerm (sv_rf sv')) := 1]> (votes w) !! (j, T))) as Hkey.
  { intros j T ?. apply lookup_insert_is_Some. destruct (decide ((i, currentTerm (sv_rf sv')) = (j, T))); auto. }
  assert (∀ j sj, j ≠ i → idx (<[Z.to_nat i := sv']> (servers w)) j = Some sj → idx (servers w) j = Some sj)
    as Hother by (intros j sj ?; by rewrite idx_insert_ne by lia).
  assert (0 ≤ i < Z.of_nat n) as Hin by (unfold zlen in Hir; lia).
  split; simpl; [by rewrite length_insert|clear Hlen..].
  - intros j sj [[-> ->]|[_ ?]]%(idx_insert_inv _ _ _ _ _ _ Hi); [done|by apply Hids].
  - intros j sj [[-> ->]|[_ Hj]]%(idx_insert_inv _ _ _ _ _ _ Hi) Hst.
    + split; [done|]. by rewrite lookup_insert_eq.
    + destruct (Hcand _ _ Hj Hst). auto.
  - intros k c a [Hk|[_ Hk]]%lookup_app_Some Hca.
    + destruct (Hcalls _ _ _ Hk Hca) as (? & ? & ? & ? & ?). auto 10.
    + apply lookup_requests in Hk as (p & [Hp ?%elem_of_range]%list_elem_of_lookup_2%list_elem_of_filter & ->).
      simplify_eq/=.
      split_and!; try done; try lia. rewrite Ha. by rewrite lookup_insert_eq.
  - apply requests_once; [done|by rewrite Ha|apply NoDup_filter, NoDup_seqZ].
  - intros v T x [Hx|(-> & -> & ->)]%voted_requests.
    + destruct (Hvoted _ _ _ Hx) as (? & sx & Hsx & Hp). split; [done|]. eapply (voted_later w i sv); [done|lia|done|done].
    + split; [lia|]. exists sv'. rewrite idx_insert_eq by done. split; [done|]. by right.
  - intros v T x y [Hx|(-> & -> & ->)]%voted_requests [Hy|(Ev & ET & ->)]%voted_requests; try done.
    + by eapply Huniq.
    + subst. by apply Hfresh in Hx.
    + by apply Hfresh in Hy.
  - intros j T cnt. rewrite Hvs.
    destruct (decide ((i, currentTerm (sv_rf sv')) = (j, T))) as [[= <- <-]|Hne].
    + rewrite lookup_insert_eq. intros [= <-].
      assert (size {[i]} ≤ size (voters w i (currentTerm (sv_rf sv'))))%nat as Hsz
        by (apply subseteq_size; set_solver).
      rewrite size_singleton in Hsz. lia.
    + rewrite lookup_insert_ne by done. apply Hcount.
  - intros j sj [[-> ->]|[_ Hj]]%(idx_insert_inv _ _ _ _ _ _ Hi) Hst; [congruence|].
    rewrite Hvs. by apply Hlead.
Qed.

(** *** The actions of the cluster *)

Lemma spawnLocal_rf es (sv : server C) : sv_rf (spawnLocal es sv) = sv_rf sv.
Proof.
  unfold spawnLocal. revert sv. induction es as [|e es IH]; intros sv; simpl; [done|].
  rewrite IH. by destruct e.
Qed.

Lemma runOn_Some {A} i (m : M C A) w a w' :
  runOn i m w = Some (a, w') →
  ∃ sv rf es, idx (servers w) i = Some sv ∧ m (sv_rf sv) = Some (a, rf, es) ∧ w' = putServer i sv rf es w.
Proof.
  unfold runOn. intros (sv & Hi & H)%bind_Some.
  destruct (m (sv_rf sv)) as [[[a' rf] es]|] eqn:E; [|done]. simplify_eq. eauto 10.
Qed.

Lemma einv_putServer w i sv rf es :
  einv w → idx (servers w) i = Some sv → quiet (sv_rf sv) rf → noVoteCalls es →
  (noPromotion (sv_rf sv) rf ∨ Z.of_nat n ÷ 2 < Z.of_nat (size (voters w i (currentTerm rf)))) →
  einv (putServer i sv rf es w).
Proof.
  intros He Hi Hq Hes Hp. unfold putServer. eapply einv_quiet; [done|exact Hi|..].
  - by rewrite spawnLocal_rf.
  - by rewrite spawnLocal_rf.
  - intros c args. apply Hes.
Qed.

Lemma einv_runOn {A} i (m : M C A) w a w' :
  (∀ rf rf' es, m rf = Some (a, rf', es) → quiet rf rf' ∧ noPromotion rf rf' ∧ noVoteCalls es) →
  einv w → runOn i m w = Some (a, w') → einv w'.
Proof.
  intros Hm He (sv & rf & es & Hi & Hr & ->)%runOn_Some.
  destruct (Hm _ _ _ Hr) as (? & ? & ?). apply einv_putServer; auto.
Qed.

Lemma einv_setServer i sv sv' w :
  einv w → idx (servers w) i = Some sv → quiet (sv_rf sv) (sv_rf sv') →
  noPromotion (sv_rf sv) (sv_rf sv') → einv (setServer i sv' w).
Proof.
  intros He Hi Hq Hp. unfold setServer.
  replace (calls w) with (calls w ++ []) by apply app_nil_r.
  eapply einv_quiet; eauto. intros c args Hc. by apply elem_of_nil in Hc.
Qed.

Lemma einv_setVotes i T cnt w :
  einv w → is_Some (votes w !! (i, T)) → cnt ≤ Z.of_nat (size (voters w i T)) →
  einv (setVotes i T cnt w).
Proof.
  intros [Hlen Hids Hcand Hcalls Honce Hvoted Huniq Hcount Hlead] Hk Hcnt.
  assert (∀ j T', is_Some (votes (setVotes i T cnt w) !! (j, T')) ↔ is_Some (votes w !! (j, T'))) as Hkey.
  { intros j T'. simpl. destruct (decide ((i, T) = (j, T'))) as [[= <- <-]|?].
    - rewrite lookup_insert_eq. split; auto.
    - by rewrite lookup_insert_ne. }
  split; [done|done| | |done| | | |done].
  - intros j sj Hj Hs. rewrite Hkey. by apply Hcand.
  - intros k c a Hc Ha. rewrite Hkey. by eapply Hcalls.
  - intros v T' x Hv. apply Hvoted. destruct Hv as [[-> Hv]|?]; [left|by right].
    by rewrite Hkey in Hv.
  - intros v T' x y Hx Hy. apply (Huniq v T').
    + destruct Hx as [[-> Hx]|?]; [left|by right]. by rewrite Hkey in Hx.
    + destruct Hy as [[-> Hy]|?]; [left|by right]. by rewrite Hkey in Hy.
  - intros j T' c. simpl. destruct (decide ((i, T) = (j, T'))) as [[= <- <-]|?].
    + rewrite lookup_insert_eq. by intros [= <-].
    + rewrite lookup_insert_ne by done. apply Hcount.
Qed.

(** Counting a granted vote adds a voter. *)
Lemma voters_count w k c args r :
  einv w → calls w !! k = Some c → c_args c = CallRequestVote args →
  c_status c = Executed (ReplyRequestVote r) → rvr_VoteGranted r = true →
  (S (size (voters w (c_src c) (rva_Term args))) ≤
   size (voters (setStatus k c (Returned (Some (ReplyRequestVote r))) w) (c_src c) (rva_Term args)))%nat.
Proof.
  intros He Hk Ha Hs Hr.
  assert (c_dst c ∉ voters w (c_src c) (rva_Term args)) as Hnew.
  { intros [Hd|(j & cj & Hj & (a & q & Haj & Hsj & Es & ET & _)%countedFor_inv & Ed)]%elem_of_voters.
    - by destruct (e_calls _ He _ _ _ Hk Ha) as (_ & ? & _).
    - assert (j = k) as ->; [|congruence]. by apply (e_once _ He j k cj c a args). }
  transitivity (size ({[c_dst c]} ∪ voters w (c_src c) (rva_Term args))).
  { rewrite size_union by set_solver. rewrite size_singleton. lia. }
  apply subseteq_size, union_subseteq. split.
  - apply singleton_subseteq_l, elem_of_voters. right.
    eexists k, _. split; [apply list_lookup_insert_eq; by eapply lookup_lt_Some|]. split; [|done].
    unfold countedFor. simpl. by rewrite Ha, Hr, !Z.eqb_refl.
  - apply voters_setStatus; [done|]. unfold countedFor. by rewrite Ha, Hs.
Qed.

Lemma voters_putServer i sv rf es w j T :
  noVoteCalls es → voters (putServer i sv rf es w) j T = voters w j T.
Proof. intros Hes. apply voters_app. intros c Hc. apply not_counted. intros args. by apply (Hes i). Qed.

Lemma einv_voteReply w k c args r w' :
  einv w → calls w !! k = Some c → c_args c = CallRequestVote args →
  c_status c = Executed (ReplyRequestVote r) →
  onReply c (ReplyRequestVote r) (setStatus k c (Returned (Some (ReplyRequestVote r))) w) = Some w' →
  einv w'.
Proof.
  intros He Hk Ha Hs. set (w1 := setStatus _ _ _ _). unfold onReply. rewrite Ha.
  intros (cnt & Hcnt & H)%bind_Some. apply bind_Some in H as ([cnt' w2] & Hrun & [= <-]).
  assert (einv w1) as He1.
  { apply einv_status; [done|done| |].
    - intros. unfold countedFor. by rewrite Ha, Hs.
    - intros Hg. left. by rewrite Hs. }
  apply runOn_Some in Hrun as (sv & rf & es & Hi & Hm & ->).
  apply handleVoteReply_vote in Hm as (Hq & Hes & Hc & Hp).
  assert (cnt' ≤ Z.of_nat (size (voters w1 (c_src c) (rva_Term args)))) as Hle.
  { destruct Hc as [->|[-> Hg]]; [by apply (e_count _ He1)|].
    pose proof (voters_count _ _ _ _ _ He Hk Ha Hs Hg). pose proof (e_count _ He _ _ _ Hcnt). fold w1 in H. lia. }
  apply einv_setVotes.
  - apply einv_putServer; try done. destruct Hp as [?|[-> Hp]]; [by left|right].
    rewrite (proj2 (e_ids _ He1 _ _ Hi)) in Hp. lia.
  - by exists cnt.
  - by rewrite voters_putServer.
Qed.

Lemma handler_quiet a rf r rf' es :
  handler a rf = Some (r, rf', es) → quiet rf rf' ∧ noPromotion rf rf' ∧ noVoteCalls es.
Proof.
  unfold handler. destruct a as [args|args|args]; intros H; minv H; rewrite app_nil_r.
  - apply RequestVote_vote in Hm. tauto.
  - by apply AppendEntries_quiet in Hm.
  - by apply InstallSnapshot_quiet in Hm.
Qed.

Lemma einv_deliver w k c r w' :
  einv w → calls w !! k = Some c → c_status c = Requested →
  runOn (c_dst c) (handler (c_args c)) w = Some (r, w') →
  einv (setStatus k c (Executed r) w').
Proof.
  intros He Hk Hs (sv & rf & es & Hi & Hm & ->)%runOn_Some.
  destruct (handler_quiet _ _ _ _ _ Hm) as (Hq & Hp & Hes).
  apply einv_status.
  - apply einv_putServer; auto.
  - simpl. by apply lookup_app_l_Some.
  - intros i T. unfold countedFor. rewrite Hs. by destruct (c_args c).
  - intros Hg. right. intros args Ha. rewrite Ha in Hm. unfold handler in Hm. minv Hm.
    apply RequestVote_vote in Hm0 as (_ & _ & _ & Hv). destruct (Hv Hg) as [Ht Hc].
    eexists. split; [apply idx_insert_eq; by eapply idx_lt|]. rewrite spawnLocal_rf. simpl.
    split; [done|]. rewrite Hc. by apply (e_calls _ He k).
Qed.

Lemma einv_timeout w i u w1 sv1 :
  einv w → runOn i ticker w = Some (u, w1) → idx (servers w1) i = Some sv1 →
  einv (setVotes i (currentTerm (sv_rf sv1)) voteGrantedCnt0 w1).
Proof.
  intros He (sv & rf & es & Hi & Hm & ->)%runOn_Some Hi1.
  destruct (idx_insert_inv _ _ _ _ _ _ Hi Hi1) as [[_ E]|[? _]]; [|done].
  apply ticker_vote in Hm as (Hme & Hn & Ht & Hv & Hst & args & Ha & Hc & Hcalls).
  destruct (e_ids _ He _ _ Hi) as [Ei En]. unfold setVotes, putServer. simpl.
  rewrite <- E, Hcalls, Ei, En. apply (einv_election _ _ sv); try done; rewrite ?E, ?spawnLocal_rf; simpl; congruence.
Qed.

Lemma einv_answer w k c r w' :
  einv w → calls w !! k = Some c → c_status c = Executed r →
  onReply c r (setStatus k c (Returned (Some r)) w) = Some w' → einv w'.
Proof.
  intros He Hk Hs Hr.
  assert (einv (setStatus k c (Returned (Some r)) w)) as He1.
  { apply einv_status; [done|done| |].
    - intros i T. unfold countedFor. rewrite Hs. by destruct (c_args c).
    - intros Hg. left. by rewrite Hs. }
  destruct (c_args c) as [args|args|args] eqn:Ha, r as [r|r|r];
    try (unfold onReply in Hr; rewrite Ha in Hr; discriminate Hr).
  - by apply (einv_voteReply w k c args r).
  - unfold onReply in Hr. rewrite Ha in Hr. apply bind_Some in Hr as ([[] w2] & Hr & [= <-]).
    eapply einv_runOn; [|exact He1|exact Hr]. intros. by eapply handleSendAppendEntries_quiet.
  - unfold onReply in Hr. rewrite Ha in Hr. apply bind_Some in Hr as ([[] w2] & Hr & [= <-]).
    eapply einv_runOn; [|exact He1|exact Hr]. intros. by eapply handleSendInstallSnapshot_quiet.
Qed.

Lemma einv_lose w k c s :
  einv w → calls w !! k = Some c → c_status c = s → (∀ r, s ≠ Returned r) →
  einv (setStatus k c (Returned None) w).
Proof.
  intros He Hk Hs Hn. apply einv_status; [done|done| |by intros].
  intros i T. unfold countedFor. rewrite Hs. destruct (c_args c), s; try done. by edestruct Hn.
Qed.

Lemma einv_step l w w' : isRestart l = false → einv w → step l w = Some w' → einv w'.
Proof.
  intros Hl He Hst. destruct l; simpl in Hst; try done; inv_bind Hst.
  - match goal with H : runOn _ _ _ = Some ?p |- _ => destruct p as [u w1] end.
    inv_bind Hst. simplify_eq. by eapply einv_timeout.
  - match goal with H : runOn _ _ _ = Some ?p |- _ => destruct p as [u w1]; simplify_eq end.
    eapply einv_runOn; [|done|done]. intros. by eapply heartbeatEvent_quiet.
  - case_match; [done|]. apply bind_Some in Hst as ([u w1] & Hr & [= <-]).
    eapply einv_runOn; [| |exact Hr].
    + intros. by eapply AddLogEvent_quiet.
    + eapply einv_setServer; [done|done|..]; simpl; auto with go.
  - case_match; [|done..]. apply bind_Some in Hst as ([r w1] & Hr & [= <-]). by eapply einv_deliver.
  - case_match; try done; simplify_eq; by eapply einv_lose.
  - case_match; [done| |done]. case_match; [by eapply einv_answer|].
    simplify_eq. apply einv_status; [done|done| |].
    + intros i T. unfold countedFor. destruct (c_args _), (c_status _); done.
    + intros Hg. left. by match goal with H : c_status _ = _ |- _ => rewrite H end.
  - match goal with H : runOn _ _ _ = Some ?p |- _ => destruct p as [u w1]; simplify_eq end.
    eapply einv_runOn; [|done|done]. intros. by eapply Start_quiet.
  - match goal with H : runOn _ _ _ = Some ?p |- _ => destruct p as [u w1]; simplify_eq end.
    eapply einv_runOn; [|done|done]. intros. by eapply Snapshot_quiet.
  - simplify_eq. match goal with H : applierStep _ = _ |- _ => apply applierStep_quiet in H as [??] end.
    by eapply einv_setServer.
  - simplify_eq. match goal with H : snapStep _ _ = _ |- _ => apply snapStep_rf in H as E end.
    eapply einv_setServer; [done|done|..]; rewrite E; auto with go.
Qed.

Lemma idx_initCluster i sv :
  idx (servers (initCluster (C:=C) n)) i = Some sv →
  sv = newServer (freshRaft (Z.of_nat n) i MakePersister) ∧ 0 ≤ i < Z.of_nat n.
Proof.
  intros [Hi Hl]%idx_Some. simpl in Hl. rewrite list_lookup_imap in Hl.
  apply fmap_Some in Hl as ([] & [_ Hlt]%lookup_replicate & ->).
  rewrite Z2Nat.id by lia. split; [done|lia].
Qed.

Lemma einv_init : einv (initCluster n).
Proof.
  split.
  - simpl. by rewrite length_imap, length_replicate.
  - intros i sv [-> _]%idx_initCluster. done.
  - intros i sv [-> _]%idx_initCluster. done.
  - intros k c args Hk. done.
  - intros k1 k2 c1 c2 a1 a2 Hk. done.
  - intros v T x [[_ [? Hx]]|(k & c & a & Hk & _)]; [by simpl in Hx; rewrite lookup_empty in Hx|done].
  - intros v T x y [[_ [? Hx]]|(k & c & a & Hk & _)]; [by simpl in Hx; rewrite lookup_empty in Hx|done].
  - intros i T cnt Hx. simpl in Hx. by rewrite lookup_empty in Hx.
  - intros i sv [-> _]%idx_initCluster. done.
Qed.

Lemma einv_reachable w : reachable_nocrash n w → einv w.
Proof. induction 1; [apply einv_init|by eapply einv_step]. Qed.

(** [i] has won the election of [T]: its own vote and a majority of votes. *)
Definition won w (i T : Z) : Prop :=
  is_Some (votes w !! (i, T)) ∧ Z.of_nat n ÷ 2 < Z.of_nat (size (voters w i T)).

Lemma leads_won w i T : einv w → leads w i T → won w i T ∧ 0 ≤ i < Z.of_nat n.
Proof.
  intros He (sv & Hi & Hs & <-). split; [split|].
  - apply (e_cand _ He); [done|by rewrite Hs].
  - by apply (e_leader _ He).
  - apply idx_lt in Hi. unfold zlen in Hi. rewrite (e_len _ He) in Hi. done.
Qed.

Lemma voters_range w i T :
  einv w → 0 ≤ i < Z.of_nat n → voters w i T ⊆ list_to_set (range 0 (Z.of_nat n)).
Proof.
  intros He Hi v. rewrite elem_of_list_to_set, elem_of_range.
  intros [->|(k & c & Hk & (a & r & Ha & _)%countedFor_inv & <-)]%elem_of_voters; [done|].
  apply (e_calls _ He _ _ _ Hk Ha).
Qed.

Lemma won_unique w i j T :
  einv w → 0 ≤ i < Z.of_nat n → 0 ≤ j < Z.of_nat n → won w i T → won w j T → i = j.
Proof.
  intros He Hi Hj [Ki Si] [Kj Sj].
  destruct (majorities_meet (voters w i T) (voters w j T)) as (v & Hvi & Hvj);
    eauto using voters_range.
  apply (e_uniq _ He v T); by apply voters_voted.
Qed.

(** *** Elections stay won *)

Definition evolves w w' : Prop :=
  (∀ i T, is_Some (votes w !! (i, T)) → is_Some (votes w' !! (i, T))) ∧
  (∀ i T, voters w i T ⊆ voters w' i T).

Lemma evolves_refl w : evolves w w.
Proof. done. Qed.

Lemma evolves_trans w1 w2 w3 : evolves w1 w2 → evolves w2 w3 → evolves w1 w3.
Proof. intros [H1 H2] [H3 H4]. split; [auto|]. intros i T. etrans; [apply H2|apply H4]. Qed.

Lemma evolves_putServer i sv rf es w : evolves w (putServer i sv rf es w).
Proof.
  split; [done|]. intros j T v. rewrite !elem_of_voters.
  intros [?|(k & c & Hk & ?)]; [by left|right]. exists k, c. split; [by apply lookup_app_l_Some|done].
Qed.

Lemma evolves_runOn {A} i (m : M C A) w a w' : runOn i m w = Some (a, w') → evolves w w'.
Proof. intros (? & ? & ? & _ & _ & ->)%runOn_Some. apply evolves_putServer. Qed.

Lemma evolves_setServer i sv w : evolves w (setServer i sv w).
Proof. done. Qed.

Lemma evolves_setVotes i T cnt w : evolves w (setVotes i T cnt w).
Proof.
  split; [|done]. intros j T' ?. apply lookup_insert_is_Some.
  destruct (decide ((i, T) = (j, T'))); auto.
Qed.

Lemma evolves_setStatus k c s w :
  calls w !! k = Some c → (∀ r, c_status c ≠ Returned r) → evolves w (setStatus k c s w).
Proof.
  intros Hk Hs. split; [done|]. intros i T. apply voters_setStatus; [done|].
  unfold countedFor. destruct (c_args c), (c_status c) eqn:E; try done. by edestruct Hs.
Qed.

Lemma evolves_onReply c r w w' : onReply c r w = Some w' → evolves w w'.
Proof.
  unfold onReply. destruct (c_args c), r; intros H; inv_bind H;
    match goal with H : runOn _ _ _ = Some ?p |- _ => destruct p as [u w1]; apply evolves_runOn in H end;
    simplify_eq; try done.
  eapply evolves_trans; [eassumption|apply evolves_setVotes].
Qed.

Lemma evolves_step l w w' : isRestart l = false → step l w = Some w' → evolves w w'.
Proof.
  intros Hl Hst. destruct l; simpl in Hst; try done; inv_bind Hst;
    try match goal with H : runOn _ _ _ = Some ?p |- _ => destruct p as [u w1]; apply evolves_runOn in H end;
    inv_bind Hst; simplify_eq; eauto using evolves_setServer.
  - eapply evolves_trans; [eassumption|apply evolves_setVotes].
  - case_match; [done|]. apply bind_Some in Hst as ([u w1] & Hr%evolves_runOn & [= <-]). done.
  - case_match; [|done..]. apply bind_Some in Hst as ([r w1] & Hr & [= <-]).
    eapply evolves_trans; [by eapply evolves_runOn|].
    apply runOn_Some in Hr as (? & ? & ? & _ & _ & ->).
    apply evolves_setStatus; [by apply lookup_app_l_Some|congruence].
  - case_match; try done; simplify_eq; apply evolves_setStatus; try done; congruence.
  - case_match; [done| |done]. case_match; simplify_eq.
    + eapply evolves_trans; [|by eapply evolves_onReply]. apply evolves_setStatus; [done|congruence].
    + apply evolves_setStatus; [done|congruence].
Qed.

Lemma won_evolves w w' i T : evolves w w' → won w i T → won w' i T.
Proof.
  intros [Hk Hv] [K S]. split; [auto|]. eapply Z.lt_le_trans; [exact S|].
  apply Nat2Z.inj_le, subseteq_size, Hv.
Qed.

(** Later states of a run without crashes. *)
Inductive later w : cluster C → Prop :=
  | later_refl : later w w
  | later_step w1 l w2 : later w w1 → isRestart l = false → step l w1 = Some w2 → later w w2.

Lemma later_evolves w w' : later w w' → evolves w w'.
Proof. induction 1; [apply evolves_refl|]. eapply evolves_trans; [eassumption|by eapply evolves_step]. Qed.

Lemma later_reachable w w' : reachable_nocrash n w → later w w' → reachable_nocrash n w'.
Proof. intros Hr. induction 1; [done|]. by eapply rnc_step. Qed.
End invariant.

(** ** Election safety *)

(** C8: Election Safety.  In every run of a cluster of any size whose peers do
    not crash, with messages lost, delayed and reordered at will, two peers that
    lead the same term, even at different moments of the run, are one peer. *)
Theorem election_safety {C} `{!Gob (PersistentStatus C)} (n : nat) (w w' : cluster C) (i j T : Z) :
  reachable_nocrash n w → later w w' → leads w i T → leads w' j T → i = j.
Proof.
  intros Hr Hl Hi Hj.
  pose proof (einv_reachable n w Hr) as He.
  pose proof (einv_reachable n w' (later_reachable n w w' Hr Hl)) as He'.
  destruct (leads_won n w i T He Hi) as [Wi Ri], (leads_won n w' j T He' Hj) as [Wj Rj].
  eapply won_unique; [exact He'|exact Ri|exact Rj| |exact Wj].
  eapply won_evolves; [by apply later_evolves|done].
Qed.
