(* ===== verification/RaftLog.v ===== *)
(** * The replicated log of one peer

    What the handlers of [RaftFollower] do to the log: the loop of
    [AppendEntries] computes the merge of the Raft paper, [Snapshot] only drops
    what it says, [InstallSnapshot] as it is written; and the handlers, also on the
    integers of the machine, never panic on a well-formed peer and keep it well formed. *)

From S2P Require Import Prelude Persister RaftNode RaftFollower RaftCluster.

Section definitions.
Context {C : Type}.

(** The entry at a global index; at the snapshot point it is the entry 0 that
    records the term of the snapshot. *)
Definition entryAt (rf : Raft C) (i : Z) : option (LogEntry C) := idx (logs rf) (logIndex rf i).

(** Well-formed peer: what the handlers need and keep. *)
Record wf (rf : Raft C) : Prop := {
  wf_logs : logs rf ≠ [];
  wf_snap : 0 ≤ lastIncludedIndex rf;
  wf_commit : lastIncludedIndex rf ≤ commitIndex rf;
  wf_me : 0 ≤ me rf < npeers rf;
  wf_next : zlen (nextIndex rf) = npeers rf;
  wf_match : zlen (matchIndex rf) = npeers rf;
}.

(** Reference definition of the log after an accepted [AppendEntries]: the
    entries after the previous one ([tail]) are kept while their terms agree
    with the new ones and replaced from the first disagreement on. *)
Fixpoint mergeEntries (tail entries : list (LogEntry C)) : list (LogEntry C) :=
  match tail, entries with
  | [], _ => entries
  | _, [] => tail
  | e :: tail', x :: entries' =>
      if le_Term e =? le_Term x then e :: mergeEntries tail' entries' else entries
  end.

End definitions.

Section merge.
Context {C : Type}.
Implicit Types (tail entries log : list (LogEntry C)).

Lemma copyEntries_from lii prev entries pre tail k :
  zlen pre = prev + 1 - lii + Z.of_nat k →
  foldM (copyEntry lii prev) (imap (λ i e, (Z.of_nat (k + i), e)) entries) (pre ++ tail)
  = Some (pre ++ mergeEntries tail entries).
Proof.
  revert pre tail k. induction entries as [|x entries IH]; intros pre tail k Hpre.
  { simpl. by destruct tail. }
  assert (∀ y tl, foldM (copyEntry lii prev)
            (imap (λ i e, (Z.of_nat (k + S i), e)) entries) ((pre ++ [y]) ++ tl)
          = Some ((pre ++ [y]) ++ mergeEntries tl entries)) as IH'.
  { intros y tl. rewrite <- (IH (pre ++ [y]) tl (S k)).
    - f_equal. apply imap_ext. intros. do 2 f_equal. lia.
    - autorewrite with golen. lia. }
  rewrite imap_cons. simpl. rewrite Nat.add_0_r. unfold copyEntry at 1.
  replace (prev + Z.of_nat k + 1 - lii) with (zlen pre) by lia.
  destruct tail as [|e tail]; simpl.
  - rewrite app_nil_r. rewrite Z.ltb_irrefl, Z.eqb_refl. simpl.
    replace (pre ++ [x]) with ((pre ++ [x]) ++ []) by apply app_nil_r.
    rewrite IH'. rewrite <- app_assoc. simpl. by destruct entries.
  - destruct (Z.ltb_spec (zlen pre) (zlen (pre ++ e :: tail))) as [_|Hl].
    2:{ autorewrite with golen in Hl. pose proof (zlen_nonneg tail). lia. }
    rewrite idx_app_r by lia. rewrite Z.sub_diag. simpl.
    destruct (le_Term e =? le_Term x) eqn:E; simpl.
    + replace (pre ++ e :: tail) with ((pre ++ [e]) ++ tail) by by rewrite <- app_assoc.
      rewrite IH'. by rewrite <- app_assoc.
    + unfold slice_to.
      destruct ((0 <=? zlen pre) && (zlen pre <=? zlen (pre ++ e :: tail))) eqn:E2.
      2:{ bool_simpl. autorewrite with golen in E2. pose proof (zlen_nonneg tail).
          pose proof (zlen_nonneg pre). lia. }
      replace (Z.to_nat (zlen pre)) with (length pre) by (unfold zlen; lia).
      rewrite take_app_length. simpl.
      replace (pre ++ [x]) with ((pre ++ [x]) ++ []) by apply app_nil_r.
      rewrite IH'. rewrite <- app_assoc. simpl. by destruct entries.
Qed.

Lemma copyEntries_merge lii prev entries log :
  0 ≤ prev + 1 - lii ≤ zlen log →
  copyEntries lii prev entries log =
  Some (take (Z.to_nat (prev + 1 - lii)) log ++ mergeEntries (drop (Z.to_nat (prev + 1 - lii)) log) entries).
Proof.
  intros Hr. unfold copyEntries, enumerate.
  rewrite <- (take_drop (Z.to_nat (prev + 1 - lii)) log) at 1.
  rewrite <- (copyEntries_from lii prev entries _ _ 0); [done|].
  rewrite zlen_take. lia.
Qed.

(** The merge agrees with the new entries on the terms. *)
Lemma mergeEntries_term tail entries k x :
  entries !! k = Some x → ∃ y, mergeEntries tail entries !! k = Some y ∧ le_Term y = le_Term x.
Proof.
  revert tail k. induction entries as [|z entries IH]; intros tail k; [done|].
  destruct tail as [|e tail]; simpl; [eauto|].
  destruct (Z.eqb_spec (le_Term e) (le_Term z)) as [E|_]; [|eauto].
  destruct k; simpl; [intros [= <-]; eauto|apply IH].
Qed.

(** Nothing is dropped when the terms agree on the overlap. *)
Lemma mergeEntries_keep tail entries :
  (∀ k e x, tail !! k = Some e → entries !! k = Some x → le_Term e = le_Term x) →
  tail `prefix_of` mergeEntries tail entries.
Proof.
  revert entries. induction tail as [|e tail IH]; intros entries H; [apply prefix_nil|].
  destruct entries as [|x entries]; simpl; [done|].
  rewrite (proj2 (Z.eqb_eq _ _)); [|by apply (H 0%nat)]. apply prefix_cons, IH.
  intros k. apply (H (S k)).
Qed.

Lemma mergeEntries_length tail entries : zlen entries ≤ zlen (mergeEntries tail entries).
Proof.
  revert entries. induction tail as [|e tail IH]; intros entries; simpl; [lia|].
  destruct entries as [|x entries]; simpl; autorewrite with golen.
  - pose proof (zlen_nonneg tail). lia.
  - destruct (_ =? _); autorewrite with golen; [|lia]. specialize (IH entries). lia.
Qed.

Lemma mergeEntries_upTo tail entries : zlen (mergeEntries tail entries) ≤ Z.max (zlen tail) (zlen entries).
Proof.
  revert entries. induction tail as [|e tail IH]; intros entries; simpl; [lia|].
  destruct entries as [|x entries]; simpl; autorewrite with golen; [lia|].
  destruct (_ =? _); autorewrite with golen; [|lia]. specialize (IH entries). lia.
Qed.
End merge.

(** ** [AppendEntries] *)

Section append.
Context {C : Type} `{!Gob (PersistentStatus C)}.
Implicit Types rf : Raft C.

(** The accepting path of [AppendEntries], field by field. *)
Lemma AppendEntries_accept (args : AppendEntriesArgs C) rf r rf' es :
  AppendEntries args rf = Some (r, rf', es) → aer_Success r = true →
  lastIncludedIndex rf ≤ aea_PrevLogIndex args ≤ lastLogIndex rf ∧
  (∃ e, entryAt rf (aea_PrevLogIndex args) = Some e ∧ le_Term e = aea_PrevLogTerm args) ∧
  copyEntries (lastIncludedIndex rf) (aea_PrevLogIndex args) (aea_Entries args) (logs rf)
    = Some (logs rf') ∧
  currentTerm rf' = aea_Term args ∧ state rf' = Follower ∧
  lastIncludedIndex rf' = lastIncludedIndex rf ∧
  commitIndex rf' = (if commitIndex rf <? aea_LeaderCommit args
                     then Z.min (aea_LeaderCommit args) (lastLogIndex rf') else commitIndex rf).
Proof.
  unfold AppendEntries. intros H Hs. minv H; try done; persist_simpl; bool_simpl; simpl in *;
    (split; [unfold lastLogIndex in *; simpl in *; lia|]);
    (split; [unfold entryAt, logIndex in *; simpl in *; eauto|]);
    (split_and!; [done|lia|done|done|]); destruct (Z.ltb_spec (commitIndex rf) (aea_LeaderCommit args));
    first [done|lia].
Qed.

(** C15: a successful [AppendEntries] leaves the peer a follower in the leader's
    term whose log is its old log up to [PrevLogIndex] followed by the merge of
    the old tail with the new entries; it then holds an entry of the leader's
    term at every index the leader sent, and its commit index is the leader's,
    capped by the end of its log, if that is an advance. *)
Theorem AppendEntries_success (args : AppendEntriesArgs C) rf r rf' es :
  AppendEntries args rf = Some (r, rf', es) → aer_Success r = true →
  let p := Z.to_nat (logIndex rf (aea_PrevLogIndex args) + 1) in
  currentTerm rf' = aea_Term args ∧ state rf' = Follower ∧
  lastIncludedIndex rf' = lastIncludedIndex rf ∧
  logs rf' = take p (logs rf) ++ mergeEntries (drop p (logs rf)) (aea_Entries args) ∧
  (∀ k x, aea_Entries args !! k = Some x →
     ∃ y, entryAt rf' (aea_PrevLogIndex args + 1 + Z.of_nat k) = Some y ∧ le_Term y = le_Term x) ∧
  commitIndex rf' = (if commitIndex rf <? aea_LeaderCommit args
                     then Z.min (aea_LeaderCommit args) (lastLogIndex rf') else commitIndex rf).
Proof.
  intros H Hs p. destruct (AppendEntries_accept _ _ _ _ _ H Hs) as (Hp & _ & Hc & Ht & Hst & Hl & Hci).
  unfold lastLogIndex in Hp.
  rewrite copyEntries_merge in Hc by lia. injection Hc as Hlogs.
  replace (aea_PrevLogIndex args + 1 - lastIncludedIndex rf)
    with (logIndex rf (aea_PrevLogIndex args) + 1) in Hlogs by (unfold logIndex; lia).
  fold p in Hlogs. split_and!; try done.
  intros k x (y & Hy & E)%(mergeEntries_term (drop p (logs rf))). exists y. split; [|done].
  unfold entryAt, logIndex in *. rewrite Hl, <- Hlogs.
  assert (zlen (take p (logs rf)) = aea_PrevLogIndex args + 1 - lastIncludedIndex rf)
    by (rewrite zlen_take; lia).
  rewrite idx_app_r by lia. rewrite H0.
  replace (_ - _ - _) with (Z.of_nat k) by lia. by rewrite idx_of_nat.
Qed.
End append.

(** ** The handlers never panic and keep a peer well formed *)

Section total.
Context {C : Type} `{!Gob (PersistentStatus C)}.
Implicit Types rf : Raft C.

Lemma logs_zlen rf : logs rf ≠ [] → 1 ≤ zlen (logs rf).
Proof. destruct (logs rf) as [|e l]; [done|]. rewrite zlen_cons. pose proof (zlen_nonneg l). lia. Qed.

Lemma lastLogTerm_total rf : logs rf ≠ [] → is_Some (lastLogTerm rf).
Proof.
  intros Hl%logs_zlen. unfold lastLogTerm. destruct (Z.ltb_spec (zlen (logs rf)) 2);
    apply fmap_is_Some, idx_is_Some; lia.
Qed.

(** Close a goal [wf rf'] whose fields are those of a well-formed [rf]. *)
Ltac wf_solve :=
  match goal with H : wf ?rf |- wf _ => destruct H; split; simpl in *; try done; try lia end.

Lemma RequestVote_wp args rf : wf rf → wp (RequestVote args) (λ _ rf' _, wf rf') rf.
Proof.
  intros Hwf. unfold RequestVote. wp_steps; try done.
  all: match goal with |- wp (lift ?o) _ ?rf0 =>
    assert (is_Some o) as [b Hb] by
      (case_match; [|done]; unfold isLogUpToDate;
       destruct (lastLogTerm_total rf0) as [t ->]; [by destruct Hwf|]; simpl; eauto)
    end; eapply wp_lift; [exact Hb|].
  all: wp_steps; (apply wp_persist; [by destruct Hwf|]); intros ps; wp_steps; wf_solve.
Qed.

Lemma scanConflict_total rf fuel i ct ci :
  lastIncludedIndex rf ≤ commitIndex rf → i ≤ lastLogIndex rf → is_Some (scanConflict fuel rf i ct ci).
Proof.
  intros Hc. revert i ci. induction fuel as [|fuel IH]; intros i ci Hi; simpl; [done|].
  destruct (Z.leb_spec i (commitIndex rf)); [done|].
  destruct (idx_is_Some (logs rf) (logIndex rf i)) as [e ->];
    [unfold logIndex, lastLogIndex in *; lia|]. simpl.
  destruct (_ =? _); [|done]. apply IH. lia.
Qed.

Lemma copyEntries_total lii prev (entries log : list (LogEntry C)) :
  1 ≤ prev + 1 - lii ≤ zlen log →
  ∃ log', copyEntries lii prev entries log = Some log' ∧ log' ≠ [] ∧ 1 ≤ zlen log'.
Proof.
  intros Hr. rewrite copyEntries_merge by lia. eexists. split; [done|].
  assert (∀ l : list (LogEntry C), 1 ≤ zlen l → l ≠ [] ∧ 1 ≤ zlen l) as Hl
    by (intros [|? ?]; [done|by split]).
  apply Hl. autorewrite with golen.
  pose proof (zlen_nonneg (mergeEntries (drop (Z.to_nat (prev + 1 - lii)) log) entries)). lia.
Qed.

Lemma AppendEntries_wp args rf : wf rf → wp (AppendEntries args) (λ _ rf' _, wf rf') rf.
Proof.
  intros Hwf. pose proof (logs_zlen _ (wf_logs _ Hwf)).
  unfold AppendEntries. wp_steps; try done; try (apply wp_persist; [by destruct Hwf|]; intros; wp_steps; wf_solve).
  all: bool_simpl; unfold lastLogIndex in *; simpl in *.
  all: match goal with |- wp (lift (idx ?l ?i)) _ _ =>
    destruct (idx_is_Some l i) as [e He]; [unfold logIndex; simpl; lia|] end;
    eapply wp_lift; [exact He|]; wp_steps.
  all: first
    [ match goal with |- wp (lift (scanConflict ?f ?r ?i ?t ?c)) _ _ =>
        destruct (scanConflict_total r f i t c) as [ci Hci];
          [by destruct Hwf|unfold lastLogIndex; simpl; lia|] end;
      eapply wp_lift; [exact Hci|]; wp_steps; (apply wp_persist; [by destruct Hwf|]); intros; wp_steps; wf_solve
    | match goal with |- wp (lift (copyEntries ?i ?p ?es ?l)) _ _ =>
        destruct (copyEntries_total i p es l) as (l' & Hl' & ? & ?); [simpl; lia|] end;
      eapply wp_lift; [exact Hl'|]; wp_steps;
      (apply wp_persist; [done|]); intros; wp_steps; wf_solve; unfold lastLogIndex; simpl; lia ].
Qed.

Lemma scanKeep_total rf args js : logs rf ≠ [] → is_Some (scanKeep rf args js).
Proof.
  intros Hl. induction js as [|j js IH]; simpl; [done|].
  destruct (logs rf) as [|e0 l]; [done|]. destruct (_ =? isa_LastIncludedIndex args); simpl; [|done].
  by destruct (_ =? _).
Qed.

Lemma scanKeep_elem rf args js i : scanKeep rf args js = Some (Some i) → i ∈ js.
Proof.
  induction js as [|j js IH]; simpl; [done|]. intros (b & _ & H)%bind_Some.
  destruct b; [simplify_eq; left|right; auto].
Qed.

Lemma InstallSnapshot_wp args rf : wf rf → wp (InstallSnapshot args) (λ _ rf' _, wf rf') rf.
Proof.
  intros Hwf. unfold InstallSnapshot. wp_steps; try wf_solve.
  all: bool_simpl; simpl in *.
  all: match goal with |- wp (lift (scanKeep ?r ?a ?js)) _ _ =>
    destruct (scanKeep_total r a js) as [f Hf]; [by destruct Hwf|] end;
    eapply wp_lift; [exact Hf|]; unfold adoptSnapshot; wp_steps.
  all: try (apply scanKeep_elem, elem_of_range in Hf;
    eapply wp_lift; [apply slice_from_Some; split; [simpl; lia|done]|]; wp_steps).
  all: (apply wp_persist; [done|]); intros; wp_steps; wf_solve.
Qed.
End total.

(** ** A late or repeated [AppendEntries] *)

Section keep.
Context {C : Type} `{!Gob (PersistentStatus C)}.
Implicit Types rf : Raft C.

(** The log after [AppendEntries], accepted or not. *)
Lemma AppendEntries_logs (args : AppendEntriesArgs C) rf r rf' es :
  AppendEntries args rf = Some (r, rf', es) → aer_Success r = false →
  logs rf' = logs rf ∧ commitIndex rf' = commitIndex rf ∧ lastIncludedIndex rf' = lastIncludedIndex rf.
Proof. unfold AppendEntries. intros H Hs. minv H; try done; by persist_simpl. Qed.

(** An [AppendEntries] that agrees in term with the log wherever they overlap
    (a heartbeat, a duplicate, an old message overtaken by a newer one) never
    removes an entry: the old log is a prefix of the new one. *)
Theorem AppendEntries_keeps (args : AppendEntriesArgs C) rf r rf' es :
  AppendEntries args rf = Some (r, rf', es) →
  (∀ k e x, entryAt rf (aea_PrevLogIndex args + 1 + Z.of_nat k) = Some e →
     aea_Entries args !! k = Some x → le_Term e = le_Term x) →
  logs rf `prefix_of` logs rf'.
Proof.
  intros H Hk. destruct (aer_Success r) eqn:Hs.
  2:{ by destruct (AppendEntries_logs _ _ _ _ _ H Hs) as (-> & _). }
  destruct (AppendEntries_accept _ _ _ _ _ H Hs) as (Hp & _ & Hc & _). unfold lastLogIndex in Hp.
  rewrite copyEntries_merge in Hc by lia. injection Hc as <-.
  set (p := Z.to_nat _). rewrite <- (take_drop p (logs rf)) at 1. apply prefix_app, mergeEntries_keep.
  intros k e x He. apply Hk. unfold entryAt, logIndex. rewrite lookup_drop in He.
  rewrite <- idx_of_nat in He. rewrite <- He. f_equal. lia.
Qed.

(** ** Snapshots *)

(** The trimmed log under local positions. *)
Lemma idx_trim (l : list (LogEntry C)) x split j :
  0 ≤ split → 0 < j → idx (x :: drop (Z.to_nat (split + 1)) l) j = idx l (split + j).
Proof.
  intros Hs Hj. rewrite idx_cons_pos, idx_drop by lia. f_equal. lia.
Qed.

Lemma lastLogTerm_trim (l : list (LogEntry C)) e split :
  0 < split < zlen l → idx l split = Some e →
  let l' := mkEntry (le_Term e) None :: drop (Z.to_nat (split + 1)) l in
  (if zlen l' <? 2 then le_Term <$> idx l' 0 else le_Term <$> idx l' (zlen l' - 1)) =
  (if zlen l <? 2 then le_Term <$> idx l 0 else le_Term <$> idx l (zlen l - 1)).
Proof.
  intros Hs He l'. assert (zlen l' = zlen l - split) as Hl
    by (unfold l'; autorewrite with golen; lia).
  destruct (Z.ltb_spec (zlen l) 2); [lia|]. destruct (Z.ltb_spec (zlen l') 2).
  - unfold l'. rewrite idx_cons_0. simpl. replace (zlen l - 1) with split by lia. by rewrite He.
  - unfold l' at 1. rewrite idx_trim by lia. repeat f_equal. lia.
Qed.

(** [Snapshot] outside [(lastIncludedIndex, commitIndex]] changes nothing.
    Inside it moves the snapshot point to [index], stores the snapshot, keeps
    the term of the entry at [index] and every entry after it under its index,
    and changes neither the end of the log nor the commit point.  It never
    panics on a peer whose commit point is in its log. *)
Theorem Snapshot_spec (index : Z) (snap : bytes) rf :
  wf rf → commitIndex rf ≤ lastLogIndex rf →
  ∃ rf', Snapshot index snap rf = Some (tt, rf', []) ∧
    if (commitIndex rf <? index) || (index <=? lastIncludedIndex rf) then rf' = rf else
    wf rf' ∧ lastIncludedIndex rf' = index ∧ snapshot rf' = snap ∧
    le_Term <$> entryAt rf' index = le_Term <$> entryAt rf index ∧
    (∀ i, index < i → entryAt rf' i = entryAt rf i) ∧
    lastLogIndex rf' = lastLogIndex rf ∧ lastLogTerm rf' = lastLogTerm rf ∧
    commitIndex rf' = commitIndex rf ∧ currentTerm rf' = currentTerm rf.
Proof.
  intros Hwf Hci. destruct (_ || _) eqn:E.
  { exists rf. split; [|done]. unfold Snapshot, mbind, M_bind, get. simpl. by rewrite E. }
  bool_simpl. destruct E as [E1 E2]. unfold lastLogIndex in Hci.
  destruct (idx_is_Some (logs rf) (logIndex rf index)) as [e He]; [unfold logIndex; lia|].
  assert (wp (Snapshot index snap) (λ _ rf' es, es = [] ∧ ∃ ps, rf' = set_persister ps (set_snapshot snap
    (set_logs (mkEntry (le_Term e) None :: drop (Z.to_nat (logIndex rf index + 1)) (logs rf))
       (set_lastIncludedIndex index rf)))) rf) as ([] & rf' & es & Hr & -> & ps & ->)%wp_total.
  { unfold Snapshot. wp_steps; [bool_simpl; lia|]. eapply wp_lift; [exact He|]. wp_steps.
    eapply wp_lift; [apply slice_from_Some; split; [unfold logIndex; lia|done]|]. wp_steps.
    apply wp_persist; [done|]. eauto. }
  eexists. split; [exact Hr|]. unfold entryAt, lastLogIndex, lastLogTerm, logIndex in *. simpl.
  split_and!; try done.
  - destruct Hwf. split; simpl; done || lia.
  - rewrite Z.sub_diag, He. done.
  - intros i Hi. rewrite idx_trim by lia. f_equal. lia.
  - autorewrite with golen. lia.
  - apply lastLogTerm_trim; [lia|done].
Qed.

Lemma scanKeep_found rf args e0 js :
  idx (logs rf) 0 = Some e0 →
  scanKeep rf args js =
  Some (if decide (logIndex rf (isa_LastIncludedIndex args) ∈ js ∧ le_Term e0 = isa_LastIncludedTerm args)
        then Some (logIndex rf (isa_LastIncludedIndex args)) else None).
Proof.
  intros He. induction js as [|j js IH]; cbn [scanKeep].
  { case_decide as Hd; [|done]. destruct Hd as [Hd _]. by apply elem_of_nil in Hd. }
  unfold realIndex, logIndex in *. destruct (Z.eqb_spec (lastIncludedIndex rf + j) (isa_LastIncludedIndex args)) as [Ej|Ej].
  - rewrite He. cbn. destruct (Z.eqb_spec (le_Term e0) (isa_LastIncludedTerm args)) as [Et|Et].
    + rewrite decide_True; [do 2 f_equal; lia|]. split; [|done]. apply elem_of_cons. left. lia.
    + rewrite IH. repeat case_decide; naive_solver.
  - cbn. rewrite IH. apply f_equal. repeat case_decide; try done.
    + set_solver.
    + exfalso. destruct H0 as [[?|?]%elem_of_cons ?]; [lia|naive_solver].
Qed.

Lemma scanKeep_range rf args e0 :
  idx (logs rf) 0 = Some e0 → lastIncludedIndex rf < isa_LastIncludedIndex args →
  scanKeep rf args (range 1 (zlen (logs rf))) =
  Some (if decide (isa_LastIncludedIndex args ≤ lastLogIndex rf ∧ le_Term e0 = isa_LastIncludedTerm args)
        then Some (logIndex rf (isa_LastIncludedIndex args)) else None).
Proof.
  intros He Hl. rewrite (scanKeep_found _ _ e0) by done. apply f_equal.
  unfold logIndex, lastLogIndex. repeat case_decide; try done; exfalso;
    match goal with H : _ ∈ _ ∧ _ |- _ => rewrite elem_of_range in H; lia
                  | H : ¬ (_ ∈ _ ∧ _) |- _ => rewrite elem_of_range in H; lia end.
Qed.

(** [InstallSnapshot] from a current leader with a snapshot beyond the commit
    point replaces the state: the snapshot point, the commit point and the apply
    point are the snapshot's, the snapshot is handed to the service, and the log
    is entry 0 with the snapshot's term, followed by the old entries after the
    snapshot point if the log reaches it and its entry 0 (the previous snapshot
    point, not the entry at the new one) has the term of the snapshot. *)
Theorem InstallSnapshot_installs (args : InstallSnapshotArgs) rf e0 :
  wf rf → currentTerm rf ≤ isa_Term args → commitIndex rf < isa_LastIncludedIndex args →
  idx (logs rf) 0 = Some e0 →
  ∃ rf' es, InstallSnapshot args rf = Some (mkISReply (isa_Term args), rf', es) ∧
    currentTerm rf' = isa_Term args ∧ state rf' = Follower ∧
    lastIncludedIndex rf' = isa_LastIncludedIndex args ∧
    commitIndex rf' = isa_LastIncludedIndex args ∧ lastApplied rf' = isa_LastIncludedIndex args ∧
    snapshot rf' = isa_Data args ∧
    GoApplySnapshot (mkApplyMsg false None 0 true (isa_Data args) (isa_LastIncludedTerm args)
                       (isa_LastIncludedIndex args)) ∈ es ∧
    logs rf' = mkEntry (isa_LastIncludedTerm args) None ::
      (if decide (isa_LastIncludedIndex args ≤ lastLogIndex rf ∧ le_Term e0 = isa_LastIncludedTerm args)
       then drop (Z.to_nat (logIndex rf (isa_LastIncludedIndex args) + 1)) (logs rf) else []).
Proof.
  intros Hwf Ht Hc He0.
  match goal with |- ∃ rf' es, _ ∧ @?P rf' es =>
    enough (wp (InstallSnapshot args) (λ r rf' es, r = mkISReply (isa_Term args) ∧ P rf' es) rf)
      as (r & rf' & es & Hr & -> & HP)%wp_total by eauto end.
  pose proof (wf_commit _ Hwf) as Hci. pose proof (wf_snap _ Hwf) as Hsn. unfold InstallSnapshot.
  wp_steps; bool_simpl; simpl in *; try lia.
  all: match goal with |- wp (lift (scanKeep ?r _ _)) _ _ =>
         eapply wp_lift; [apply (scanKeep_range r args e0); [exact He0|simpl; lia]|] end.
  all: unfold logIndex, lastLogIndex in *; cbn [logs lastIncludedIndex set_state set_currentTerm set_votedFor].
  all: case_decide as Hd; unfold adoptSnapshot; wp_steps.
  all: try (eapply wp_lift; [apply slice_from_Some; split; [simpl; lia|reflexivity]|]; wp_steps).
  all: (apply wp_persist; [done|]); intros ps; wp_steps; split_and!; try done; try (simpl; f_equal; lia); try set_solver.
Qed.
End keep.

(** ** The handlers on the machine's integers

    The rest of the development computes indices in [Z].  Here are the three handlers
    again with the [int] of a 64-bit machine: the sums and differences of
    [raft_util.go] and of the loops wrap around.  While the last index stays below
    [2^63 - 1] they do what the handlers on [Z] do. *)

Section int64.
Context {C : Type} `{!Gob (PersistentStatus C)}.
Implicit Types rf : Raft C.

(** The functions of [raft_util.go]. *)
Definition lastLogIndex64 rf : Z := wrapS 64 (lastIncludedIndex rf + zlen (logs rf) - 1).
Definition logIndex64 rf (realIndex : Z) : Z := wrapS 64 (realIndex - lastIncludedIndex rf).
Definition realIndex64 rf (logIndex : Z) : Z := wrapS 64 (lastIncludedIndex rf + logIndex).
Definition realLogLen64 rf : Z := wrapS 64 (lastIncludedIndex rf + zlen (logs rf)).
Definition isLogUpToDate64 rf (term index : Z) : option bool :=
  t ← lastLogTerm rf;
  Some ((t <? term) || ((term =? t) && (lastLogIndex64 rf <=? index))).

(** [func (rf *Raft) RequestVote(args, reply)] *)
Definition RequestVote64 (args : RequestVoteArgs) : M C RequestVoteReply :=
  rf ← get;
  if rva_Term args <? currentTerm rf then mret (mkRVReply (currentTerm rf) false) else
  defer_persist (
    _ ← when (currentTerm rf <? rva_Term args) (
          _ ← modify (set_currentTerm (rva_Term args));
          _ ← modify (set_votedFor noVote);
          modify (set_state Follower));
    rf ← get;
    upToDate ← lift (
      if (votedFor rf =? noVote) || (votedFor rf =? rva_CandidateId args)
      then isLogUpToDate64 rf (rva_LastLogTerm args) (rva_LastLogIndex args)
      else Some false);
    if (upToDate : bool) then
      _ ← modify (set_votedFor (rva_CandidateId args));
      _ ← emit [ResetElectionTimer];
      mret (mkRVReply (currentTerm rf) true)
    else mret (mkRVReply (currentTerm rf) false)).

(** The loops of [AppendEntries]. *)
Fixpoint scanConflict64 (fuel : nat) rf (i conflictTerm conflictIndex : Z) : option Z :=
  match fuel with
  | O => Some conflictIndex
  | S fuel' =>
      if i <=? commitIndex rf then Some conflictIndex else
      e ← idx (logs rf) (logIndex64 rf i);
      if le_Term e =? conflictTerm then scanConflict64 fuel' rf (wrapS 64 (i - 1)) conflictTerm i
      else Some conflictIndex
  end.
Definition copyEntry64 (lastIncludedIndex prevLogIndex : Z) (logs : list (LogEntry C))
    (ie : Z * LogEntry C) : option (list (LogEntry C)) :=
  let (i, entry) := ie in
  let index := wrapS 64 (wrapS 64 (prevLogIndex + i + 1) - lastIncludedIndex) in
  if index <? zlen logs then
    e ← idx logs index;
    if le_Term e =? le_Term entry then Some logs
    else l ← slice_to logs index; Some (l ++ [entry])
  else if index =? zlen logs then Some (logs ++ [entry])
  else Some logs.
Definition copyEntries64 (lastIncludedIndex prevLogIndex : Z) (entries logs : list (LogEntry C))
    : option (list (LogEntry C)) :=
  foldM (copyEntry64 lastIncludedIndex prevLogIndex) (enumerate entries) logs.

(** [func (rf *Raft) AppendEntries(args, reply)] *)
Definition AppendEntries64 (args : AppendEntriesArgs C) : M C AppendEntriesReply :=
  rf ← get;
  if aea_Term args <? currentTerm rf then mret (mkAEReply (currentTerm rf) false 0 0 0) else
  defer_persist (
    _ ← modify (set_state Follower);
    _ ← emit [ResetElectionTimer];
    _ ← when (currentTerm rf <? aea_Term args) (
          _ ← modify (set_currentTerm (aea_Term args));
          modify (set_votedFor noVote));
    rf ← get;
    if aea_PrevLogIndex args <? lastIncludedIndex rf then
      mret (mkAEReply (currentTerm rf) false 0 0 0)
    else if lastLogIndex64 rf <? aea_PrevLogIndex args then
      mret (mkAEReply (currentTerm rf) false (-1) (-1) (realLogLen64 rf))
    else
      e ← lift (idx (logs rf) (logIndex64 rf (aea_PrevLogIndex args)));
      if negb (le_Term e =? aea_PrevLogTerm args) then
        conflictIndex ← lift (scanConflict64 (Z.to_nat (aea_PrevLogIndex args - commitIndex rf))
                                rf (aea_PrevLogIndex args) (le_Term e) (-1));
        mret (mkAEReply (currentTerm rf) false (le_Term e) conflictIndex (realLogLen64 rf))
      else
        logs' ← lift (copyEntries64 (lastIncludedIndex rf) (aea_PrevLogIndex args)
                        (aea_Entries args) (logs rf));
        _ ← modify (set_logs logs');
        rf ← get;
        _ ← when (commitIndex rf <? aea_LeaderCommit args) (
              _ ← modify (set_commitIndex (Z.min (aea_LeaderCommit args) (lastLogIndex64 rf)));
              emit [CondSignal]);
        mret (mkAEReply (currentTerm rf) true 0 0 0)).

(** The search of [InstallSnapshot]. *)
Fixpoint scanKeep64 rf (args : InstallSnapshotArgs) (js : list Z) : option (option Z) :=
  match js with
  | [] => Some None
  | i :: js' =>
      keep ← (if realIndex64 rf i =? isa_LastIncludedIndex args
              then e0 ← idx (logs rf) 0; Some (le_Term e0 =? isa_LastIncludedTerm args)
              else Some false);
      if (keep : bool) then Some (Some i) else scanKeep64 rf args js'
  end.

(** [func (rf *Raft) InstallSnapshot(args, reply)] *)
Definition InstallSnapshot64 (args : InstallSnapshotArgs) : M C InstallSnapshotReply :=
  rf ← get;
  if isa_Term args <? currentTerm rf then mret (mkISReply (currentTerm rf)) else
  _ ← when (currentTerm rf <? isa_Term args) (
        _ ← modify (set_currentTerm (isa_Term args));
        modify (set_votedFor noVote));
  _ ← modify (set_state Follower);
  _ ← emit [ResetElectionTimer];
  rf ← get;
  if isa_LastIncludedIndex args <=? lastIncludedIndex rf then mret (mkISReply (currentTerm rf))
  else if isa_LastIncludedIndex args <=? commitIndex rf then mret (mkISReply (currentTerm rf))
  else
  defer_persist (
    found ← lift (scanKeep64 rf args (range 1 (zlen (logs rf))));
    match found with
    | Some i =>
        tail ← lift (slice_from (logs rf) (wrapS 64 (i + 1)));
        _ ← adoptSnapshot args (mkEntry (isa_LastIncludedTerm args) None :: tail);
        mret (mkISReply (currentTerm rf))
    | None =>
        _ ← adoptSnapshot args [mkEntry (isa_LastIncludedTerm args) None];
        mret (mkISReply (currentTerm rf))
    end).

(** The indices of a peer are at most [B]. *)
Definition upTo (B : Z) rf : Prop := lastLogIndex rf ≤ B ∧ commitIndex rf ≤ B.

(** All sums and differences of indices fit. *)
Definition fits rf : Prop := 1 ≤ zlen (logs rf) ∧ 0 ≤ lastIncludedIndex rf ∧ lastLogIndex rf ≤ 2 ^ 63 - 2.

Lemma lastLogIndex64_eq rf : fits rf → lastLogIndex64 rf = lastLogIndex rf.
Proof. intros (? & ? & ?). apply wrap64. unfold lastLogIndex, realLogLen in *. lia. Qed.

Lemma realLogLen64_eq rf : fits rf → realLogLen64 rf = realLogLen rf.
Proof. intros (? & ? & ?). apply wrap64. unfold lastLogIndex, realLogLen in *. lia. Qed.

Lemma logIndex64_eq rf i : fits rf → lastIncludedIndex rf ≤ i ≤ lastLogIndex rf → logIndex64 rf i = logIndex rf i.
Proof. intros (? & ? & ?) ?. apply wrap64. unfold logIndex. lia. Qed.

Lemma scanConflict64_eq fuel rf i ct ci :
  fits rf → lastIncludedIndex rf ≤ commitIndex rf → i ≤ lastLogIndex rf →
  scanConflict64 fuel rf i ct ci = scanConflict fuel rf i ct ci.
Proof.
  intros Hf Hc. revert i ci. induction fuel as [|fuel IH]; intros i ci Hi; simpl; [done|].
  destruct (Z.leb_spec i (commitIndex rf)); [done|]. rewrite logIndex64_eq by (done || lia).
  destruct (idx (logs rf) (logIndex rf i)) as [e|]; [|done]. simpl. destruct (_ =? _); [|done].
  destruct Hf as (? & ? & ?). rewrite wrap64 by lia. apply IH. lia.
Qed.

Lemma copyEntries64_eq lii prev (entries log : list (LogEntry C)) :
  0 ≤ lii ≤ prev → prev + zlen entries < 2 ^ 63 → copyEntries64 lii prev entries log = copyEntries lii prev entries log.
Proof.
  intros Hl He. apply foldM_ext. intros log' [i e] Hi%elem_of_enumerate%idx_lt. unfold copyEntry64, copyEntry.
  rewrite !(wrap64 (prev + i + 1)) by lia. by rewrite wrap64 by lia.
Qed.

Lemma scanKeep64_eq rf args js :
  fits rf → (∀ i, i ∈ js → 0 ≤ i < zlen (logs rf)) → scanKeep64 rf args js = scanKeep rf args js.
Proof.
  intros Hf. induction js as [|j js IH]; intros Hjs; simpl; [done|].
  assert (realIndex64 rf j = realIndex rf j) as ->.
  { destruct Hf as (? & ? & ?). specialize (Hjs j ltac:(set_solver)). apply wrap64. unfold lastLogIndex, realIndex in *. lia. }
  rewrite IH by set_solver. done.
Qed.

Lemma bind_eq {A B} (m m' : M C A) (k k' : A → M C B) rf :
  m rf = m' rf → (∀ a rf1 es, m' rf = Some (a, rf1, es) → k a rf1 = k' a rf1) → (m ≫= k) rf = (m' ≫= k') rf.
Proof.
  intros Hm Hk. unfold mbind, M_bind. rewrite Hm. destruct (m' rf) as [[[a rf1] es]|] eqn:E; [|done].
  by rewrite (Hk a rf1 es).
Qed.

Lemma RequestVote64_eq args rf : fits rf → RequestVote64 args rf = RequestVote args rf.
Proof.
  intros Hf. unfold RequestVote64, RequestVote. apply bind_eq; [done|]. intros ? ? ? [= <- <- <-].
  destruct (_ <? _); [done|]. apply bind_eq; [|done]. apply bind_eq; [done|]. intros u rf1 es1 Hw.
  apply bind_eq; [done|]. intros ? ? ? [= <- <- <-]. apply bind_eq; [|done].
  assert (fits rf1) as Hf1 by (unfold when in Hw; destruct (_ <? _); by minv Hw).
  unfold isLogUpToDate64, isLogUpToDate. by rewrite lastLogIndex64_eq.
Qed.

(** The log ends at its old end or at the last new entry. *)
Lemma copyEntries_upTo lii prev (entries log log' : list (LogEntry C)) :
  copyEntries lii prev entries log = Some log' → 1 ≤ prev + 1 - lii ≤ zlen log →
  1 ≤ zlen log' ≤ Z.max (zlen log) (prev + 1 - lii + zlen entries).
Proof.
  intros H Hr. rewrite copyEntries_merge in H by lia. injection H as <-. autorewrite with golen.
  pose proof (mergeEntries_upTo (drop (Z.to_nat (prev + 1 - lii)) log) entries). autorewrite with golen in *.
  pose proof (zlen_nonneg (mergeEntries (drop (Z.to_nat (prev + 1 - lii)) log) entries)). lia.
Qed.

Lemma AppendEntries64_eq args rf :
  wf rf → lastLogIndex rf + zlen (aea_Entries args) ≤ 2 ^ 63 - 2 → AppendEntries64 args rf = AppendEntries args rf.
Proof.
  intros Hwf Hb. unfold AppendEntries64, AppendEntries. apply bind_eq; [done|]. intros ? ? ? [= <- <- <-].
  destruct (_ <? _); [done|]. apply bind_eq; [|done].
  apply bind_eq; [done|]. intros ? ? ? [= <- <- <-]. apply bind_eq; [done|]. intros ? ? ? [= <- <- <-].
  apply bind_eq; [done|]. intros u rf1 es1 Hw. apply bind_eq; [done|]. intros ? ? ? [= <- <- <-].
  assert (lastIncludedIndex rf1 = lastIncludedIndex rf ∧ logs rf1 = logs rf ∧ commitIndex rf1 = commitIndex rf) as (El & Eg & Ec)
    by (unfold when in Hw; destruct (_ <? _); by minv Hw).
  pose proof (logs_zlen _ (wf_logs _ Hwf)). pose proof (wf_snap _ Hwf). pose proof (wf_commit _ Hwf).
  assert (fits rf1) as Hf.
  { unfold fits, lastLogIndex in *. rewrite El, Eg. pose proof (zlen_nonneg (aea_Entries args)). lia. }
  rewrite lastLogIndex64_eq, realLogLen64_eq by done.
  destruct (Z.ltb_spec (aea_PrevLogIndex args) (lastIncludedIndex rf1)); [done|].
  destruct (Z.ltb_spec (lastLogIndex rf1) (aea_PrevLogIndex args)) as [|Hp]; [done|].
  rewrite logIndex64_eq by (done || lia). apply bind_eq; [done|]. intros e rf2 es2 He.
  assert (rf2 = rf1) as -> by (unfold lift in He; by case_match; simplify_eq).
  destruct (negb _); [by rewrite scanConflict64_eq by (done || lia)|].
  assert (lastLogIndex rf1 = lastLogIndex rf) as Ell by (unfold lastLogIndex; by rewrite El, Eg).
  rewrite copyEntries64_eq by lia. apply bind_eq; [done|]. intros logs' rf3 es3 Hcp.
  apply bind_eq; [done|]. intros ? ? ? [= <- <- <-]. apply bind_eq; [done|]. intros ? ? ? [= <- <- <-].
  rewrite lastLogIndex64_eq; [done|]. unfold lift in Hcp. destruct (copyEntries _ _ _ _) as [log|] eqn:Ecp; [|done].
  injection Hcp as <- <- <-. eapply copyEntries_upTo in Ecp; [|unfold lastLogIndex in *; lia].
  unfold fits, lastLogIndex in *. simpl. lia.
Qed.

Lemma InstallSnapshot64_eq args rf : fits rf → InstallSnapshot64 args rf = InstallSnapshot args rf.
Proof.
  intros Hf. unfold InstallSnapshot64, InstallSnapshot. apply bind_eq; [done|]. intros ? ? ? [= <- <- <-].
  destruct (_ <? _); [done|]. apply bind_eq; [done|]. intros u rf1 es1 Hw.
  assert (fits rf1) as Hf1 by (unfold when in Hw; destruct (_ <? _); by minv Hw).
  do 3 (apply bind_eq; [done|]; intros ? ? ? [= <- <- <-]).
  destruct (_ <=? _); [done|]. destruct (_ <=? _); [done|]. apply bind_eq; [|done].
  rewrite scanKeep64_eq; [|done|intros i Hi%elem_of_range; simpl in *; lia]. apply bind_eq; [done|].
  intros found rf2 es2 Hk. unfold lift in Hk. destruct (scanKeep _ _ _) as [k|] eqn:Ek; [|done]. injection Hk as <- <- <-.
  destruct k as [i|]; [|done]. apply scanKeep_elem, elem_of_range in Ek. destruct Hf1 as (? & ? & ?).
  unfold lastLogIndex in *. simpl in *. by rewrite wrap64 by lia.
Qed.

(** The indices after the handlers. *)
Lemma AppendEntries_upTo args rf r rf' es B :
  AppendEntries args rf = Some (r, rf', es) → wf rf → upTo B rf → lastLogIndex rf + zlen (aea_Entries args) ≤ B → upTo B rf'.
Proof.
  intros H Hwf [Hl Hc] Hb. destruct (aer_Success r) eqn:Hs.
  - destruct (AppendEntries_accept _ _ _ _ _ H Hs) as (Hp & _ & Hcp & _ & _ & El & Ec).
    pose proof (logs_zlen _ (wf_logs _ Hwf)). apply copyEntries_upTo in Hcp; [|unfold lastLogIndex in *; lia].
    pose proof (zlen_nonneg (aea_Entries args)). unfold upTo, lastLogIndex in *. rewrite El in *. split; [lia|]. case_match; lia.
  - destruct (AppendEntries_logs _ _ _ _ _ H Hs) as (Eg & Ec & El). unfold upTo, lastLogIndex in *. by rewrite Eg, Ec, El.
Qed.

Lemma InstallSnapshot_upTo args rf r rf' es B :
  InstallSnapshot args rf = Some (r, rf', es) → wf rf → upTo B rf → isa_LastIncludedIndex args ≤ B → upTo B rf'.
Proof.
  intros H Hwf [Hl Hc] Hb. destruct (idx_is_Some (logs rf) 0) as [e0 He0]; [pose proof (logs_zlen _ (wf_logs _ Hwf)); lia|].
  destruct (decide (currentTerm rf ≤ isa_Term args ∧ commitIndex rf < isa_LastIncludedIndex args)) as [[Ht Hi]|Hn].
  - destruct (InstallSnapshot_installs args rf e0 Hwf Ht Hi He0) as (rf1 & es1 & E & _ & _ & El & Ec & _ & _ & _ & Eg).
    rewrite H in E. injection E as -> -> ->. pose proof (wf_commit _ Hwf). unfold upTo, lastLogIndex, logIndex in *.
    rewrite El, Ec, Eg. split; [|done]. case_decide; autorewrite with golen; lia.
  - unfold InstallSnapshot in H. pose proof (wf_commit _ Hwf). minv H; try done; bool_simpl; simpl in *; try lia.
Qed.

Lemma RequestVote_upTo args rf r rf' es B : RequestVote args rf = Some (r, rf', es) → upTo B rf → upTo B rf'.
Proof. unfold RequestVote. intros H Hb. minv H; try done; by persist_simpl. Qed.
End int64.

(** C16: the three RPC handlers, on the 64-bit integers of the machine, terminate
    without a panic on a well-formed peer and leave it well formed, as long as the
    last index does not reach [2^63 - 1]: the indices of the peer, those the new
    entries get after its log and the snapshot point it is sent are at most [B].
    Nothing else is asked of the arguments.  They then do what the handlers on [Z]
    do, and the indices are again at most [B]. *)
Theorem handlers_total {C} `{!Gob (PersistentStatus C)} (rf : Raft C)
    (rv : RequestVoteArgs) (ae : AppendEntriesArgs C) (snap : InstallSnapshotArgs) (B : Z) :
  wf rf → upTo B rf → B ≤ 2 ^ 63 - 2 →
  lastLogIndex rf + zlen (aea_Entries ae) ≤ B → isa_LastIncludedIndex snap ≤ B →
  (∃ r rf' es, RequestVote64 rv rf = Some (r, rf', es) ∧ RequestVote rv rf = Some (r, rf', es) ∧ wf rf' ∧ upTo B rf') ∧
  (∃ r rf' es, AppendEntries64 ae rf = Some (r, rf', es) ∧ AppendEntries ae rf = Some (r, rf', es) ∧ wf rf' ∧ upTo B rf') ∧
  (∃ r rf' es, InstallSnapshot64 snap rf = Some (r, rf', es) ∧ InstallSnapshot snap rf = Some (r, rf', es) ∧ wf rf' ∧ upTo B rf').
Proof.
  intros Hwf Hup HB Hae Hsnap.
  assert (fits rf) as Hf by (split_and!; [apply logs_zlen, Hwf|apply Hwf|destruct Hup; lia]).
  rewrite RequestVote64_eq, AppendEntries64_eq, InstallSnapshot64_eq by (done || lia). split_and!.
  - destruct (wp_total _ _ _ (RequestVote_wp rv rf Hwf)) as (r & rf' & es & H & ?). eauto 10 using RequestVote_upTo.
  - destruct (wp_total _ _ _ (AppendEntries_wp ae rf Hwf)) as (r & rf' & es & H & ?). eauto 10 using AppendEntries_upTo.
  - destruct (wp_total _ _ _ (InstallSnapshot_wp snap rf Hwf)) as (r & rf' & es & H & ?). eauto 10 using InstallSnapshot_upTo.
Qed.

(** ** Witnesses *)

(** Peer 1 of 3 in term 2, with entries of terms 1, 1, 2 and the first two committed. *)
Definition examplePeer : Raft Z :=
  set_commitIndex 2 (set_currentTerm 2 (set_logs
    [mkEntry 0 None; mkEntry 1 (Some 10); mkEntry 1 (Some 11); mkEntry 2 (Some 12)]
    (freshRaft 3 1 MakePersister))).

Lemma examplePeer_wf : wf examplePeer.
Proof. split; vm_compute; done. Qed.

(** Entries for indices 3 and 4, the first in conflict with the peer's entry 3. *)
Definition exampleAppend : AppendEntriesArgs Z :=
  mkAEArgs 3 0 2 1 [mkEntry 3 (Some 20); mkEntry 3 (Some 21)] 3.

Lemma AppendEntries_success_witness :
  ∃ rf' es, AppendEntries exampleAppend examplePeer = Some (mkAEReply 3 true 0 0 0, rf', es) ∧
    logs rf' = [mkEntry 0 None; mkEntry 1 (Some 10); mkEntry 1 (Some 11);
                mkEntry 3 (Some 20); mkEntry 3 (Some 21)].
Proof.
  eexists _, _. split; [vm_compute; reflexivity|].
  match goal with |- logs ?rf' = _ =>
    destruct (AppendEntries_success exampleAppend examplePeer (mkAEReply 3 true 0 0 0) rf'
                [ResetElectionTimer; CondSignal]) as (_ & _ & _ & Hl & _) end;
    [vm_compute; reflexivity|reflexivity|].
  rewrite Hl. vm_compute. reflexivity.
Defined.

(** A previous index and a leader's commit point at the end of the range are harmless. *)
Lemma handlers_total_witness :
  ∃ r rf' es, AppendEntries64 (mkAEArgs 3 0 (2 ^ 63 - 1) 1 [mkEntry 3 (Some 20)] (2 ^ 63 - 1)) examplePeer = Some (r, rf', es) ∧
    AppendEntries (mkAEArgs 3 0 (2 ^ 63 - 1) 1 [mkEntry 3 (Some 20)] (2 ^ 63 - 1)) examplePeer = Some (r, rf', es) ∧
    wf rf' ∧ upTo 1000 rf'.
Proof.
  apply (handlers_total examplePeer (mkRVArgs 0 0 0 0) (mkAEArgs 3 0 (2 ^ 63 - 1) 1 [mkEntry 3 (Some 20)] (2 ^ 63 - 1))
           (mkISArgs 0 0 0 0 []) 1000); [apply examplePeer_wf|split; vm_compute; discriminate|lia|vm_compute; discriminate|simpl; lia].
Defined.

(** Without the bound the handlers go wrong: a log that would reach index [2^63] makes
    the commit point negative. *)
Example AppendEntries64_wraps :
  let rf := set_commitIndex (2 ^ 63 - 2) (set_lastIncludedIndex (2 ^ 63 - 2) (set_logs [mkEntry 1 None] (freshRaft 3 1 MakePersister))) in
  (λ r, commitIndex r.1.2) <$> AppendEntries64 (mkAEArgs 1 0 (2 ^ 63 - 2) 1 [mkEntry 1 (Some 20); mkEntry 1 (Some 21)] (2 ^ 63 - 1)) rf
  = Some (- 2 ^ 63).
Proof. vm_compute. reflexivity. Qed.

Lemma AppendEntries_keeps_witness :
  ∃ rf' es, AppendEntries (mkAEArgs 2 0 1 1 [mkEntry 1 (Some 11)] 2) examplePeer
              = Some (mkAEReply 2 true 0 0 0, rf', es) ∧ logs examplePeer `prefix_of` logs rf'.
Proof.
  eexists _, [ResetElectionTimer]. split; [vm_compute; reflexivity|].
  eapply (AppendEntries_keeps (mkAEArgs 2 0 1 1 [mkEntry 1 (Some 11)] 2) examplePeer
            (mkAEReply 2 true 0 0 0) _ [ResetElectionTimer]); [vm_compute; reflexivity|].
  intros [|k] e x He Hx; [|done].
  vm_compute in He. injection He as <-. injection Hx as <-. reflexivity.
Defined.

Lemma Snapshot_spec_witness :
  ∃ rf', Snapshot 2 [x01] examplePeer = Some (tt, rf', []) ∧
    lastIncludedIndex rf' = 2 ∧ entryAt rf' 3 = entryAt examplePeer 3.
Proof.
  destruct (Snapshot_spec 2 [x01] examplePeer examplePeer_wf) as (rf' & Hr & H).
  - vm_compute. discriminate.
  - exists rf'. split; [exact Hr|]. change ((_ || _)) with false in H.
    destruct H as (_ & Hl & _ & _ & He & _).
    split; [exact Hl|]. apply He. lia.
Defined.

Lemma InstallSnapshot_installs_witness :
  ∃ rf' es, InstallSnapshot (mkISArgs 3 0 5 2 [x01]) examplePeer = Some (mkISReply 3, rf', es) ∧
    logs rf' = [mkEntry 2 None] ∧ commitIndex rf' = 5.
Proof.
  destruct (InstallSnapshot_installs (mkISArgs 3 0 5 2 [x01]) examplePeer (mkEntry 0 None))
    as (rf' & es & Hr & _ & _ & _ & Hc & _ & _ & _ & Hl);
    [apply examplePeer_wf|vm_compute; discriminate|vm_compute; reflexivity|reflexivity|].
  exists rf', es. split; [exact Hr|]. split; [rewrite Hl; vm_compute; reflexivity|exact Hc].
Defined.

(** The suffix test of [InstallSnapshot] looks at the wrong entry.  A peer
    whose entry at the snapshot point has the snapshot's term loses the entries
    after it, and a peer whose entry there has another term keeps them. *)
Theorem InstallSnapshot_wrong_suffix :
  (∃ (rf : Raft Z) args rf' es e,
     wf rf ∧ entryAt rf (isa_LastIncludedIndex args) = Some e ∧
     le_Term e = isa_LastIncludedTerm args ∧ isa_LastIncludedIndex args < lastLogIndex rf ∧
     InstallSnapshot args rf = Some (mkISReply (isa_Term args), rf', es) ∧
     lastLogIndex rf' = isa_LastIncludedIndex args) ∧
  (∃ (rf : Raft Z) args rf' es e,
     wf rf ∧ entryAt rf (isa_LastIncludedIndex args) = Some e ∧
     le_Term e ≠ isa_LastIncludedTerm args ∧
     InstallSnapshot args rf = Some (mkISReply (isa_Term args), rf', es) ∧
     isa_LastIncludedIndex args < lastLogIndex rf').
Proof.
  split.
  - exists (set_commitIndex 1 examplePeer), (mkISArgs 3 0 2 1 [x01]). eexists _, _, _.
    split; [split; vm_compute; done|]. split; [reflexivity|].
    split_and!; [reflexivity|vm_compute; reflexivity|vm_compute; reflexivity|reflexivity].
  - exists (set_logs [mkEntry 1 None; mkEntry 1 (Some 11); mkEntry 2 (Some 12); mkEntry 2 (Some 13)]
              (set_commitIndex 1 examplePeer)), (mkISArgs 3 0 2 1 [x01]). eexists _, _, _.
    split; [split; vm_compute; done|]. split; [reflexivity|].
    split_and!; [done|vm_compute; reflexivity|vm_compute; reflexivity].
Qed.
