(* ===== verification/RaftPersist.v ===== *)
(** * Durability: what survives a crash

    [saved] says that stable storage holds the persistent fields of the peer,
    [durable] that it does or that they still are what [Make] read from it.  In
    every run of a peer the state is durable, unless [InstallSnapshot] ignores the
    snapshot of a leader of a later term; [Make] on saved storage restores the
    term, the log, the snapshot and its index, and not the vote. *)

From S2P Require Import Prelude Persister RaftNode RaftFollower RaftLeader RaftApplier RaftLog RaftCluster.

Section persist.
Context {C : Type} `{!Gob (PersistentStatus C)}.
Implicit Types rf : Raft C.

(** The persistent fields of [rf], with the term of its entry 0. *)
Definition statusOf rf (t0 : Z) : PersistentStatus C :=
  mkStatus (logs rf) (currentTerm rf) (votedFor rf) (lastIncludedIndex rf) t0.

(** Stable storage holds the persistent fields and the snapshot. *)
Definition saved rf : Prop :=
  (∃ e0, idx (logs rf) 0 = Some e0 ∧
     gob_decode (ReadRaftState (persister rf)) = Some (statusOf rf (le_Term e0))) ∧
  ReadRaftState (persister rf) ≠ [] ∧
  ReadSnapshot (persister rf) = snapshot rf.

Context `{!GobLaws (PersistentStatus C)}.

Lemma persist_saved rf u rf' es : persist rf = Some (u, rf', es) → saved rf'.
Proof.
  unfold persist. intros H. minv H.
  - autorewrite with golen. unfold saved. simpl. autorewrite with golen. split_and!; [|by eapply gob_nonempty|done].
    match goal with H : idx _ 0 = Some _ |- _ => eexists; split; [exact H|] end.
    by apply gob_roundtrip.
  - match goal with H : gob_encode ?s = None |- _ => destruct (gob_total s) as [? E]; congruence end.
Qed.

(** The persistent fields are those [Make] reads from stable storage. *)
Definition started rf : Prop := ∃ rf0, Make (npeers rf) (me rf) (persister rf) = Some rf0 ∧
  currentTerm rf = currentTerm rf0 ∧ votedFor rf = votedFor rf0 ∧ logs rf = logs rf0 ∧
  lastIncludedIndex rf = lastIncludedIndex rf0 ∧ snapshot rf = snapshot rf0.

Definition durable rf : Prop := saved rf ∨ started rf.

Lemma persist_durable rf u rf' es : persist rf = Some (u, rf', es) → durable rf'.
Proof. intros H. left. by eapply persist_saved. Qed.

Lemma Make_fields n i ps rf : Make n i ps = Some rf → npeers rf = n ∧ me rf = i ∧ persister rf = ps.
Proof.
  unfold Make. destruct (readPersist _ _) as [[[u rf0] es]|] eqn:H; [|done]. intros [= <-].
  unfold readPersist in H. by minv H.
Qed.

Lemma Make_started n i ps rf : Make n i ps = Some rf → started rf.
Proof. intros H. destruct (Make_fields _ _ _ _ H) as (En & Ei & Ep). exists rf. by rewrite En, Ei, Ep. Qed.

Lemma broadcastHeartbeat_same rf u rf' es : broadcastHeartbeat rf = Some (u, rf', es) → rf' = rf.
Proof. unfold broadcastHeartbeat. intros H. by minv H. Qed.

(** Invert the run; every path ends in [persist] or changes nothing persistent. *)
Ltac durable_solve H :=
  minv H; try done;
  repeat match goal with
    | H : persist _ = Some _ |- _ => apply persist_durable in H
    | H : broadcastHeartbeat _ = Some _ |- _ => apply broadcastHeartbeat_same in H as ->
    end; done.

(** What [Make] builds from saved storage. *)
Lemma Make_saved rf :
  saved rf →
  ∃ rf', Make (npeers rf) (me rf) (Copy (persister rf)) = Some rf' ∧
    (me rf' = me rf ∧ npeers rf' = npeers rf ∧ state rf' = Follower ∧
     currentTerm rf' = currentTerm rf ∧ logs rf' = logs rf ∧
     lastIncludedIndex rf' = lastIncludedIndex rf ∧ snapshot rf' = snapshot rf ∧
     commitIndex rf' = lastIncludedIndex rf ∧ lastApplied rf' = lastIncludedIndex rf ∧
     persister rf' = persister rf) ∧ votedFor rf' = currentTerm rf.
Proof.
  intros ((e0 & He0 & Hd) & Hne & Hsn). unfold Make, readPersist.
  assert (ReadRaftState (Copy (persister rf)) = ReadRaftState (persister rf)) as -> by done.
  destruct (Z.ltb_spec (zlen (ReadRaftState (persister rf))) 1) as [Hl|_].
  { destruct (ReadRaftState (persister rf)) as [|b bs]; [done|].
    rewrite zlen_cons in Hl. pose proof (zlen_nonneg bs). lia. }
  rewrite Hd. unfold mbind, M_bind, modify, get, lift. simpl. rewrite He0. simpl.
  destruct (logs rf) as [|e l] eqn:El; [done|]. simplify_eq/=.
  eexists. split; [done|]. simpl. split_and!; try done.
  - rewrite idx_cons_0 in He0. injection He0 as ->. by destruct e0.
  - by destruct (persister rf).
Qed.

(** ** The life of a peer *)

(** One method of a peer that returns, one step of its applier, or a crash and a restart
    on the storage it left. *)
Inductive lifeStep : Raft C → Raft C → Prop :=
  | LRequestVote args r rf rf' es : RequestVote args rf = Some (r, rf', es) → lifeStep rf rf'
  | LAppendEntries args r rf rf' es : AppendEntries args rf = Some (r, rf', es) → lifeStep rf rf'
  | LInstallSnapshot args r rf rf' es : InstallSnapshot args rf = Some (r, rf', es) →
      isa_Term args ≤ currentTerm rf ∨ Z.max (lastIncludedIndex rf) (commitIndex rf) < isa_LastIncludedIndex args →
      lifeStep rf rf'
  | LSnapshot index snap r rf rf' es : Snapshot index snap rf = Some (r, rf', es) → lifeStep rf rf'
  | LTicker r rf rf' es : ticker rf = Some (r, rf', es) → lifeStep rf rf'
  | LHeartbeat r rf rf' es : heartbeatEvent rf = Some (r, rf', es) → lifeStep rf rf'
  | LAddLog r rf rf' es : AddLogEvent rf = Some (r, rf', es) → lifeStep rf rf'
  | LVoteReply args reply cnt r rf rf' es : handleVoteReply args reply cnt rf = Some (r, rf', es) → lifeStep rf rf'
  | LAppendReply peer args reply r rf rf' es :
      handleSendAppendEntries peer args reply rf = Some (r, rf', es) → lifeStep rf rf'
  | LInstallReply peer args reply r rf rf' es :
      handleSendInstallSnapshot peer args reply rf = Some (r, rf', es) → lifeStep rf rf'
  | LStart cmd r rf rf' es : Start cmd rf = Some (r, rf', es) → lifeStep rf rf'
  | LApplier sv sv' : applierStep sv = Some sv' → lifeStep (sv_rf sv) (sv_rf sv')
  | LKill rf : lifeStep rf (Kill rf)
  | LRestart rf rf' : Make (npeers rf) (me rf) (Copy (persister rf)) = Some rf' → lifeStep rf rf'.

Lemma applierStep_durable (sv sv' : server C) : applierStep sv = Some sv' → durable (sv_rf sv) → durable (sv_rf sv').
Proof.
  unfold applierStep. intros H Hd. destruct (sv_applier sv) as [|[|msg rest]| | |]; try by simplify_eq.
  - case_match; [done|]. apply bind_Some in H as (msgs & _ & [= <-]). done.
  - case_match; by simplify_eq.
Qed.

Lemma InstallSnapshot_durable args rf r rf' es :
  InstallSnapshot args rf = Some (r, rf', es) →
  isa_Term args ≤ currentTerm rf ∨ Z.max (lastIncludedIndex rf) (commitIndex rf) < isa_LastIncludedIndex args →
  durable rf → durable rf'.
Proof.
  unfold InstallSnapshot, adoptSnapshot. intros H Hg Hd. minv H; try done; bool_simpl; simpl in *; try lia.
  all: repeat match goal with H : persist _ = Some _ |- _ => apply persist_durable in H end; done.
Qed.

Lemma lifeStep_durable rf rf' : lifeStep rf rf' → durable rf → durable rf'.
Proof.
  intros [] Hd; try by eauto using InstallSnapshot_durable, applierStep_durable.
  - unfold RequestVote in H. durable_solve H.
  - unfold AppendEntries in H. durable_solve H.
  - unfold Snapshot in H. durable_solve H.
  - unfold ticker, startElection in H. durable_solve H.
  - unfold heartbeatEvent in H. durable_solve H.
  - unfold AddLogEvent in H. durable_solve H.
  - unfold handleVoteReply, initializeLeaderEasilyLostState in H. durable_solve H.
  - unfold handleSendAppendEntries, checkAndCommitLogs, findNextIndex in H. durable_solve H.
  - unfold handleSendInstallSnapshot in H. durable_solve H.
  - unfold Start in H. durable_solve H.
  - right. by eapply Make_started.
Qed.

(** A crash of a peer in a durable state loses neither term, log nor snapshot. *)
Lemma durable_recovers rf : durable rf →
  ∃ rf', Make (npeers rf) (me rf) (Copy (persister rf)) = Some rf' ∧
    currentTerm rf' = currentTerm rf ∧ logs rf' = logs rf ∧
    lastIncludedIndex rf' = lastIncludedIndex rf ∧ snapshot rf' = snapshot rf.
Proof.
  intros [Hs|(rf0 & Hm & ? & ? & ? & ? & ?)].
  - destruct (Make_saved rf Hs) as (rf' & -> & H). exists rf'. split; [done|]. tauto.
  - exists rf0. split; [|done]. rewrite <-Hm. f_equal. by destruct (persister rf).
Qed.

(** C13: durability.  From the start of a peer on, on any storage, and through every
    sequence of its methods, of the steps of its applier and of crashes and
    restarts, stable storage holds its term, vote, log, snapshot point and
    snapshot, or they still are what [Make] read from it; and a restart on that
    storage brings back the term, the log, the snapshot point and the snapshot.  The
    one step left out is an [InstallSnapshot] that brings a later term and a
    snapshot the peer does not need. *)
Theorem methods_durable n i ps rf0 rf :
  Make n i ps = Some rf0 → rtc lifeStep rf0 rf →
  (saved rf ∨ started rf) ∧
  ∃ rf', Make (npeers rf) (me rf) (Copy (persister rf)) = Some rf' ∧
    currentTerm rf' = currentTerm rf ∧ logs rf' = logs rf ∧
    lastIncludedIndex rf' = lastIncludedIndex rf ∧ snapshot rf' = snapshot rf.
Proof.
  intros Hm Hrun. assert (durable rf) as Hd; [|by split; [|apply durable_recovers]].
  apply Make_started in Hm. assert (durable rf0) as H0 by by right.
  clear Hm. induction Hrun as [|? ? ? Hst _ IH]; [done|]. by eapply IH, lifeStep_durable.
Qed.

(** C28: recovery.  [Make] on the stored state of a peer gives a follower with the
    term, the log, the snapshot and the snapshot index it had, and with its
    commit and apply points at the snapshot. *)
Theorem restart_recovers rf :
  saved rf →
  ∃ rf', Make (npeers rf) (me rf) (Copy (persister rf)) = Some rf' ∧
    me rf' = me rf ∧ npeers rf' = npeers rf ∧ state rf' = Follower ∧
    currentTerm rf' = currentTerm rf ∧ logs rf' = logs rf ∧
    lastIncludedIndex rf' = lastIncludedIndex rf ∧ snapshot rf' = snapshot rf ∧
    commitIndex rf' = lastIncludedIndex rf ∧ lastApplied rf' = lastIncludedIndex rf ∧
    persister rf' = persister rf.
Proof. intros Hs. destruct (Make_saved rf Hs) as (rf' & -> & H). exists rf'. split; [done|]. tauto. Qed.

(** The vote is not recovered.  After a restart [votedFor] is the number of
    the current term, whatever the peer had voted. *)
Theorem restart_vote rf :
  saved rf →
  ∃ rf', Make (npeers rf) (me rf) (Copy (persister rf)) = Some rf' ∧
    votedFor rf' = currentTerm rf.
Proof. intros Hs. destruct (Make_saved rf Hs) as (rf' & -> & H). exists rf'. split; [done|]. tauto. Qed.
End persist.

(** ** Witnesses *)

(** Peer 1 of 3, after it voted for peer 0 in term 1. *)
Definition votedPeer : Raft Z :=
  match RequestVote (mkRVArgs 1 0 0 0) (freshRaft 3 1 MakePersister) with
  | Some (_, rf, _) => rf
  | None => freshRaft 3 1 MakePersister
  end.

Lemma votedPeer_saved : saved votedPeer.
Proof. unfold saved. split_and!; [eexists; split; [reflexivity|]|..]; vm_compute; done. Qed.

(** The peer appends an entry, crashes and comes back. *)
Definition appendedPeer : Raft Z :=
  match AppendEntries (mkAEArgs 2 0 0 0 [mkEntry 2 (Some 7)] 0) votedPeer with
  | Some (_, rf, _) => rf
  | None => votedPeer
  end.
Definition restartedPeer : Raft Z := default appendedPeer (Make 3 1 (Copy (persister appendedPeer))).

Lemma methods_durable_witness :
  (saved restartedPeer ∨ started restartedPeer) ∧
  ∃ rf', Make (npeers restartedPeer) (me restartedPeer) (Copy (persister restartedPeer)) = Some rf' ∧
    currentTerm rf' = currentTerm restartedPeer ∧ logs rf' = logs restartedPeer ∧
    lastIncludedIndex rf' = lastIncludedIndex restartedPeer ∧ snapshot rf' = snapshot restartedPeer.
Proof.
  apply (methods_durable 3 1 MakePersister (freshRaft 3 1 MakePersister)); [vm_compute; reflexivity|].
  eapply rtc_l; [eapply (LRequestVote (mkRVArgs 1 0 0 0)); vm_compute; reflexivity|].
  eapply rtc_l; [eapply (LAppendEntries (mkAEArgs 2 0 0 0 [mkEntry 2 (Some 7)] 0)); vm_compute; reflexivity|].
  apply rtc_once, LRestart. vm_compute. reflexivity.
Defined.

Lemma restart_recovers_witness :
  ∃ rf', Make 3 1 (Copy (persister votedPeer)) = Some rf' ∧ currentTerm rf' = 1.
Proof.
  destruct (restart_recovers votedPeer votedPeer_saved) as (rf' & Hm & _ & _ & _ & Ht & _).
  exists rf'. split; [exact Hm|]. rewrite Ht. vm_compute. reflexivity.
Defined.

Lemma restart_vote_witness :
  votedFor votedPeer = 0 ∧
  ∃ rf', Make 3 1 (Copy (persister votedPeer)) = Some rf' ∧ votedFor rf' = 1.
Proof.
  split; [vm_compute; reflexivity|].
  destruct (restart_vote votedPeer votedPeer_saved) as (rf' & Hm & Hv).
  exists rf'. split; [exact Hm|]. rewrite Hv. vm_compute. reflexivity.
Defined.

(** [InstallSnapshot] is not durable.  A peer whose state is saved, asked by a
    leader of a later term to install a snapshot it does not need, moves to that
    term and answers without persisting it; after a crash it is back in the
    earlier term. *)
Theorem InstallSnapshot_forgets_term :
  ∃ (rf : Raft Z) args r rf' es rf'',
    saved rf ∧ InstallSnapshot args rf = Some (r, rf', es) ∧
    isr_Term r = isa_Term args ∧ currentTerm rf < currentTerm rf' ∧
    Make (npeers rf') (me rf') (Copy (persister rf')) = Some rf'' ∧
    currentTerm rf'' = currentTerm rf.
Proof.
  exists votedPeer, (mkISArgs 5 2 0 0 []). eexists _, _, _, _.
  split; [apply votedPeer_saved|].
  split; [vm_compute; reflexivity|]. split_and!; vm_compute; reflexivity.
Qed.
