(* ===== verification/RaftCommit.v ===== *)
(** * Replication and commitment by the leader

    What [RaftLeader] computes: the messages of a broadcast describe the
    leader's log, the commit rule picks the last index of the current term that
    a majority holds, and a rejected append moves [nextIndex] strictly back. *)

From S2P Require Import Prelude Persister RaftNode RaftFollower RaftLeader RaftLog RaftCluster.

(** ** Loops over peers *)

Lemma foldM_idx_from {A B} (g : B → A → option B) (pre l : list A) (b : B) :
  foldM (λ acc p, x ← idx (pre ++ l) p; g acc x) (range (zlen pre) (zlen (pre ++ l))) b = foldM g l b.
Proof.
  revert pre b. induction l as [|x l IH]; intros pre b.
  - rewrite app_nil_r, range_nil by lia. done.
  - rewrite range_cons by (autorewrite with golen; pose proof (zlen_nonneg l); lia).
    cbn [foldM]. rewrite idx_app_r, Z.sub_diag by lia. simpl.
    destruct (g b x) as [b'|]; simpl; [|done].
    specialize (IH (pre ++ [x]) b'). rewrite <- app_assoc in IH. simpl in IH. rewrite <- IH.
    f_equal. autorewrite with golen. reflexivity.
Qed.

(** [for p := 0; p < len(l); p++ { ... l[p] ... }] visits the elements of [l]. *)
Lemma foldM_idx {A B} (g : B → A → option B) (l : list A) (b : B) :
  foldM (λ acc p, x ← idx l p; g acc x) (range 0 (zlen l)) b = foldM g l b.
Proof. apply (foldM_idx_from g [] l b). Qed.

Section commit.
Context {C : Type}.
Implicit Types rf : Raft C.

(** ** The commit rule *)

(** A majority of the peers is known to hold the entry at [N], and it is of the
    leader's term. *)
Definition committable rf (N : Z) : Prop :=
  (∃ e, entryAt rf N = Some e ∧ le_Term e = currentTerm rf) ∧
  npeers rf ÷ 2 < zlen (filter (λ m, N ≤ m) (matchIndex rf)).

Lemma foldM_count rf N e ms k :
  entryAt rf N = Some e →
  foldM (λ num m, if N <=? m then
           e ← idx (logs rf) (logIndex rf N);
           Some (if le_Term e =? currentTerm rf then num + 1 else num)
         else Some num) ms k
  = Some (if le_Term e =? currentTerm rf then k + zlen (filter (λ m, N ≤ m) ms) else k).
Proof.
  intros He. unfold entryAt in He. rewrite He. simpl. revert k. induction ms as [|m ms IH]; intros k.
  - simpl. case_match; f_equal; unfold zlen; simpl; lia.
  - cbn [foldM]. rewrite filter_cons. destruct (Z.leb_spec N m).
    + rewrite decide_True by done. simpl. rewrite IH, zlen_cons.
      case_match; f_equal; lia.
    + rewrite decide_False by lia. simpl. by rewrite IH.
Qed.

Lemma succeedNum_count rf N e :
  wf rf → entryAt rf N = Some e →
  succeedNum rf N =
  Some (if le_Term e =? currentTerm rf then zlen (filter (λ m, N ≤ m) (matchIndex rf)) else 0).
Proof.
  intros Hwf He. unfold succeedNum. rewrite <- (wf_match _ Hwf).
  rewrite (foldM_idx (λ num m, if N <=? m then
           e ← idx (logs rf) (logIndex rf N);
           Some (if le_Term e =? currentTerm rf then num + 1 else num)
         else Some num)).
  by rewrite (foldM_count _ _ e).
Qed.

Lemma succeedNum_committable rf N :
  wf rf → 0 < npeers rf → lastIncludedIndex rf ≤ N < realLogLen rf →
  ∃ num, succeedNum rf N = Some num ∧ (npeers rf ÷ 2 < num ↔ committable rf N).
Proof.
  intros Hwf Hn HN. unfold realLogLen in HN.
  destruct (idx_is_Some (logs rf) (logIndex rf N)) as [e He]; [unfold logIndex; lia|].
  rewrite (succeedNum_count _ _ e) by done. eexists. split; [done|].
  unfold committable. destruct (Z.eqb_spec (le_Term e) (currentTerm rf)) as [E|E].
  - split; [|by intros []]. intros ?. split; [|done]. exists e. by split.
  - assert (0 ≤ npeers rf ÷ 2) by (apply Z.quot_pos; lia).
    split; [lia|]. intros [(e' & He' & ?) _]. unfold entryAt in He'. congruence.
Qed.

(** The outer loop up to [hi]. *)
Lemma findCommit_loop rf hi :
  wf rf → 0 < npeers rf → commitIndex rf < hi ≤ realLogLen rf →
  ∃ N, foldM (λ N N', num ← succeedNum rf N'; Some (if npeers rf ÷ 2 <? num then N' else N))
         (range (commitIndex rf + 1) hi) (commitIndex rf) = Some N ∧
    (N = commitIndex rf ∨ commitIndex rf < N < hi ∧ committable rf N) ∧
    (∀ N', N < N' < hi → ¬ committable rf N').
Proof.
  intros Hwf Hn [Hlo Hhi]. pose proof (wf_commit _ Hwf).
  replace hi with (commitIndex rf + 1 + Z.of_nat (Z.to_nat (hi - commitIndex rf - 1))) in * by lia.
  induction (Z.to_nat (hi - commitIndex rf - 1)) as [|d IH].
  - exists (commitIndex rf). rewrite range_nil by lia. split_and!; [done|by left|lia].
  - destruct IH as (N & HN & Hc & Hmax); [lia..|].
    rewrite range_snoc by lia. replace (_ + Z.of_nat (S d) - 1) with (commitIndex rf + 1 + Z.of_nat d) by lia.
    rewrite foldM_app, HN. cbn [mbind option_bind foldM].
    destruct (succeedNum_committable rf (commitIndex rf + 1 + Z.of_nat d)) as (num & -> & Hiff);
      [done|done|lia|]. simpl.
    destruct (Z.ltb_spec (npeers rf ÷ 2) num) as [Hm|Hm]; eexists; (split; [done|]).
    + split; [right; split; [lia|by apply Hiff]|lia].
    + split; [naive_solver lia|]. intros N' HN' Hc'.
      destruct (decide (N' = commitIndex rf + 1 + Z.of_nat d)) as [->|?]; [apply Hiff in Hc'; lia|].
      by apply (Hmax N'); [lia|].
Qed.

(** C14: the commit rule.  [checkAndCommitLogs] never panics on a well-formed
    leader; it moves [commitIndex], never back, exactly to the last index of the
    log whose entry is of the current term and is held by a majority, and
    changes nothing else. *)
Theorem checkAndCommitLogs_spec rf :
  wf rf → commitIndex rf ≤ lastLogIndex rf →
  ∃ N es, checkAndCommitLogs rf = Some (tt, set_commitIndex N rf, es) ∧
    (N = commitIndex rf ∨ commitIndex rf < N ≤ lastLogIndex rf ∧ committable rf N) ∧
    (∀ N', N < N' ≤ lastLogIndex rf → ¬ committable rf N').
Proof.
  intros Hwf Hci. pose proof (wf_me _ Hwf). unfold lastLogIndex in *.
  destruct (findCommit_loop rf (realLogLen rf)) as (N & HN & Hc & Hmax);
    [done|lia|unfold realLogLen; lia|]. unfold realLogLen in Hc, Hmax.
  unfold checkAndCommitLogs, mbind, M_bind, get, lift, findCommit. rewrite HN. unfold when.
  destruct (Z.ltb_spec (commitIndex rf) N).
  - eexists N, _. split; [done|]. split; [naive_solver lia|]. intros. apply Hmax. lia.
  - assert (N = commitIndex rf) as -> by (destruct Hc as [?|[? _]]; lia).
    exists (commitIndex rf), []. split; [unfold mret, M_ret; simpl; by destruct rf|].
    split; [by left|]. intros. apply Hmax. lia.
Qed.

(** ** The messages of a broadcast *)

(** What peer [p] should be sent when it is believed to have everything below
    [next]: the snapshot if the entry at [next] is in it, else the entry before
    [next] as the consistency check and everything from [next] on. *)
Definition messageFor rf (p next : Z) (e : effect C) : Prop :=
  if decide (next ≤ lastIncludedIndex rf) then
    ∃ e0, entryAt rf (lastIncludedIndex rf) = Some e0 ∧
      e = GoInstallSnapshot p (mkISArgs (currentTerm rf) (me rf) (lastIncludedIndex rf)
                                 (le_Term e0) (snapshot rf))
  else
    ∃ prev entries, entryAt rf (next - 1) = Some prev ∧
      (∀ k, entries !! k = entryAt rf (next + Z.of_nat k)) ∧
      e = GoAppendEntries p (mkAEArgs (currentTerm rf) (me rf) (next - 1) (le_Term prev)
                               entries (commitIndex rf)).

Lemma prevLogTerm_entryAt rf prev :
  lastIncludedIndex rf ≤ prev < realLogLen rf → prevLogTerm rf prev = le_Term <$> entryAt rf prev.
Proof.
  intros Hp. unfold prevLogTerm, entryAt, realLogLen in *.
  destruct (Z.ltb_spec (lastIncludedIndex rf) prev); simpl.
  - destruct (Z.ltb_spec prev (lastIncludedIndex rf + zlen (logs rf))); [done|lia].
  - assert (prev = lastIncludedIndex rf) as -> by lia. rewrite Z.eqb_refl.
    unfold logIndex. by rewrite Z.sub_diag.
Qed.

Lemma broadcastOne_message rf p next :
  wf rf → idx (nextIndex rf) p = Some next → next ≤ realLogLen rf →
  ∃ e, broadcastOne rf p = Some e ∧ messageFor rf p next e.
Proof.
  intros Hwf Hp Hle. pose proof (logs_zlen _ (wf_logs _ Hwf)). unfold broadcastOne, messageFor.
  rewrite Hp. cbn [mbind option_bind]. destruct (Z.leb_spec next (lastIncludedIndex rf)) as [Hn|Hn].
  - destruct (idx_is_Some (logs rf) 0) as [e0 He0]; [lia|]. destruct (decide _); [|lia].
    unfold entryAt, logIndex. rewrite Z.sub_diag, He0. simpl. eauto.
  - destruct (decide _); [lia|]. rewrite prevLogTerm_entryAt by lia. unfold realLogLen in Hle.
    unfold entryAt, logIndex in *. destruct (idx_is_Some (logs rf) (next - 1 - lastIncludedIndex rf)) as [e ->]; [lia|].
    assert (∃ l, slice_from (logs rf) (next - lastIncludedIndex rf) = Some l) as [l Hl]
      by (eexists; apply slice_from_Some; split; [|done]; lia).
    simpl. rewrite Hl. simpl. eexists. split; [done|]. eexists e, l. split_and!; [done| |done].
    apply slice_from_Some in Hl as [? ->]. intros k. rewrite lookup_drop, <- idx_of_nat. f_equal. lia.
Qed.

(** A broadcast never panics while every [nextIndex] is at most one past the
    end of the log; it changes nothing and sends every other peer exactly the
    message that its [nextIndex] calls for. *)
Theorem broadcastHeartbeat_messages rf :
  wf rf → (∀ p next, idx (nextIndex rf) p = Some next → next ≤ realLogLen rf) →
  ∃ es, broadcastHeartbeat rf = Some (tt, rf, es) ∧
    Forall2 (λ p e, ∃ next, idx (nextIndex rf) p = Some next ∧ messageFor rf p next e)
      (filter (λ p, p ≠ me rf) (range 0 (npeers rf))) es.
Proof.
  intros Hwf Hn.
  assert (∀ ps, (∀ p, p ∈ ps → 0 ≤ p < npeers rf) → ∃ es, mapM (broadcastOne rf) ps = Some es ∧
    Forall2 (λ p e, ∃ next, idx (nextIndex rf) p = Some next ∧ messageFor rf p next e) ps es) as Hall.
  { induction ps as [|p ps IH]; intros Hps; [by exists []|].
    destruct IH as (es & E & Hes); [set_solver|].
    destruct (idx_is_Some (nextIndex rf) p) as [next Hp]; [rewrite (wf_next _ Hwf); set_solver|].
    destruct (broadcastOne_message rf p next) as (e & He & Hm); [done|done|eauto|].
    exists (e :: es). simpl. rewrite He. simpl. rewrite E. simpl. eauto. }
  destruct (Hall (filter (λ p, p ≠ me rf) (range 0 (npeers rf)))) as (es & E & Hes).
  { intros p [_ Hp]%list_elem_of_filter. by apply elem_of_range. }
  exists es. split; [|done]. unfold broadcastHeartbeat, mbind, M_bind, get, lift. by rewrite E.
Qed.

(** ** [Start] *)

(** On a leader, [Start] appends the command with the current term at the
    index it returns, counts the leader itself as holding it, saves the log and
    signals the replication loop; on any other peer it changes nothing. *)
Theorem Start_spec `{!Gob (PersistentStatus C)} rf (cmd : C) :
  wf rf →
  (state rf ≠ Leader → Start cmd rf = Some ((-1, -1, false), rf, [])) ∧
  (state rf = Leader → ∃ rf',
     Start cmd rf = Some ((lastLogIndex rf + 1, currentTerm rf, true), rf', [GoAddLogSignal]) ∧
     wf rf' ∧ logs rf' = logs rf ++ [mkEntry (currentTerm rf) (Some cmd)] ∧
     entryAt rf' (lastLogIndex rf + 1) = Some (mkEntry (currentTerm rf) (Some cmd)) ∧
     commitIndex rf' = commitIndex rf ∧ currentTerm rf' = currentTerm rf ∧
     idx (matchIndex rf') (me rf) = Some (lastLogIndex rf + 1) ∧
     (∀ p, p ≠ me rf → idx (matchIndex rf') p = idx (matchIndex rf) p ∧
                       idx (nextIndex rf') p = idx (nextIndex rf) p)).
Proof.
  intros Hwf. pose proof (wf_me _ Hwf). pose proof (wf_next _ Hwf). pose proof (wf_match _ Hwf).
  split; intros Hs.
  { unfold Start, mbind, M_bind, get. by rewrite bool_decide_false. }
  set (rf1 := set_logs (logs rf ++ [mkEntry (currentTerm rf) (Some cmd)]) rf).
  destruct (persist_total rf1) as [ps Hps]; [simpl; by destruct (logs rf)|].
  assert (lastLogIndex rf1 = lastLogIndex rf + 1) as Hlast
    by (unfold lastLogIndex, rf1; simpl; autorewrite with golen; lia).
  eexists (set_nextIndex (<[Z.to_nat (me rf) := realLogLen rf1]> (nextIndex rf))
             (set_matchIndex (<[Z.to_nat (me rf) := lastLogIndex rf + 1]> (matchIndex rf)) (set_persister ps rf1))).
  split.
  { unfold Start, mbind, M_bind, get, modify, lift, emit, upd. rewrite bool_decide_true by done. simpl.
    fold rf1. rewrite Hps. simpl.
    rewrite !(proj2 (andb_true_iff _ _)) by (split; [apply Z.leb_le|apply Z.ltb_lt]; lia). simpl.
    change (lastLogIndex (set_persister ps rf1)) with (lastLogIndex rf1). by rewrite Hlast. }
  split_and!; simpl; try done.
  - destruct Hwf; split; simpl; try done; [by destruct (logs rf)|by rewrite zlen_insert..].
  - unfold entryAt, logIndex, lastLogIndex. simpl. rewrite idx_app_r by lia.
    by replace (_ - _ - _) with 0 by lia.
  - apply idx_insert_eq. lia.
  - intros p Hp. rewrite !idx_insert_ne by lia. done.
Qed.

End commit.

(** ** Concrete leaders *)

(** The leader of term 2 of three peers; peer 2 has its last entry too. *)
Definition exampleLeader : Raft Z :=
  set_state Leader (set_matchIndex [0; 3; 3] (set_nextIndex [1; 4; 4] examplePeer)).

Lemma exampleLeader_wf : wf exampleLeader.
Proof. split; vm_compute; done. Qed.

Lemma checkAndCommitLogs_witness :
  ∃ es, checkAndCommitLogs exampleLeader = Some (tt, set_commitIndex 3 exampleLeader, es) ∧
    ¬ committable exampleLeader 2.
Proof.
  destruct (checkAndCommitLogs_spec exampleLeader exampleLeader_wf) as (N & es & Hr & HN & _);
    [vm_compute; discriminate|].
  exists es. assert (N = 3) as ->.
  { vm_compute in Hr. destruct HN as [->|[[H1 H2] _]]; [by vm_compute in Hr|].
    change (commitIndex exampleLeader) with 2 in H1. change (lastLogIndex exampleLeader) with 3 in H2. lia. }
  split; [exact Hr|]. intros [(e & He & Ht) _]. vm_compute in He. injection He as <-. by vm_compute in Ht.
Defined.

Lemma broadcastHeartbeat_messages_witness :
  ∃ es, broadcastHeartbeat exampleLeader = Some (tt, exampleLeader, es) ∧ length es = 2%nat.
Proof.
  destruct (broadcastHeartbeat_messages exampleLeader exampleLeader_wf) as (es & Hr & Hes).
  - intros p next Hp%idx_elem_of. repeat (apply elem_of_cons in Hp as [->|Hp]; [vm_compute; discriminate|]).
    by apply elem_of_nil in Hp.
  - exists es. split; [exact Hr|]. by rewrite <- (Forall2_length _ _ _ Hes).
Defined.

Lemma Start_spec_witness :
  ∃ rf', Start 13 exampleLeader = Some ((4, 2, true), rf', [GoAddLogSignal]) ∧
    entryAt rf' 4 = Some (mkEntry 2 (Some 13)).
Proof.
  destruct (Start_spec exampleLeader 13 exampleLeader_wf) as [_ H].
  destruct H as (rf' & Hr & _ & _ & He & _); [reflexivity|]. exists rf'. split; [exact Hr|exact He].
Defined.
