(* ===== verification/RaftBackup.v ===== *)
(** * Backing up [nextIndex] after a rejected append

    The fast back-up of [raft/raft.go]: what a follower reports in [XTerm],
    [XIndex] and [XLen], what [findNextIndex] makes of it, that a round moves
    [nextIndex] strictly back, and the case in which the rounds go in a circle. *)

From S2P Require Import Prelude Persister RaftNode RaftFollower RaftLeader RaftLog RaftCommit RaftCluster.

Section backup.
Context {C : Type} `{!Gob (PersistentStatus C)}.
Implicit Types rf L F : Raft C.

(** ** The follower's report *)

(** [c] is the first index of the block of entries of term [t] that ends at
    [prev], cut at the commit index; -1 if [prev] itself is committed. *)
Definition conflictStart rf (prev t c : Z) : Prop :=
  if decide (prev ≤ commitIndex rf) then c = -1 else
  commitIndex rf < c ≤ prev ∧
  (∀ i, c ≤ i ≤ prev → le_Term <$> entryAt rf i = Some t) ∧
  (c = commitIndex rf + 1 ∨ ∃ e, entryAt rf (c - 1) = Some e ∧ le_Term e ≠ t).

Lemma scanConflict_spec rf fuel i t c0 c :
  scanConflict fuel rf i t c0 = Some c → i - commitIndex rf ≤ Z.of_nat fuel →
  commitIndex rf < i →
  le_Term <$> entryAt rf i = Some t →
  commitIndex rf < c ≤ i ∧
  (∀ j, c ≤ j ≤ i → le_Term <$> entryAt rf j = Some t) ∧
  (c = commitIndex rf + 1 ∨ ∃ e, entryAt rf (c - 1) = Some e ∧ le_Term e ≠ t).
Proof.
  revert i c0. induction fuel as [|fuel IH]; intros i c0 H Hf Hi Ht; [lia|].
  simpl in H. rewrite (proj2 (Z.leb_gt _ _)) in H by lia.
  apply fmap_Some in Ht as Hx. destruct Hx as (e & He & He2). unfold entryAt in He.
  rewrite He in H. simpl in H. rewrite <- He2, Z.eqb_refl in H.
  assert (∀ j, i ≤ j ≤ i → le_Term <$> entryAt rf j = Some t) as Hone
    by (intros j Hj; by replace j with i by lia).
  destruct fuel as [|fuel]; simpl in H.
  { injection H as <-. split_and!; [lia..|done|by left; lia]. }
  destruct (Z.leb_spec (i - 1) (commitIndex rf)).
  { injection H as <-. split_and!; [lia..|done|by left; lia]. }
  destruct (idx (logs rf) (logIndex rf (i - 1))) as [e'|] eqn:E; [|done]. simpl in H.
  destruct (Z.eqb_spec (le_Term e') t) as [Et|Et].
  - destruct (IH (i - 1) i) as (? & Hall & ?); [|lia|lia|unfold entryAt; rewrite E; simpl; congruence|].
    { simpl. rewrite (proj2 (Z.leb_gt _ _)) by lia. rewrite E. simpl. by rewrite Et, Z.eqb_refl. }
    split_and!; [lia..| |done]. intros j Hj. destruct (decide (j = i)) as [->|]; [done|apply Hall; lia].
  - injection H as <-. split_and!; [lia..|done|right; eauto].
Qed.

(** How a request of a current term can be rejected. *)
Inductive rejection F (args : AppendEntriesArgs C) (r : AppendEntriesReply) : Prop :=
  | rej_snapshot :
      aea_PrevLogIndex args < lastIncludedIndex F →
      r = mkAEReply (aea_Term args) false 0 0 0 → rejection F args r
  | rej_short :
      lastLogIndex F < aea_PrevLogIndex args →
      r = mkAEReply (aea_Term args) false (-1) (-1) (realLogLen F) → rejection F args r
  | rej_conflict e c :
      entryAt F (aea_PrevLogIndex args) = Some e → le_Term e ≠ aea_PrevLogTerm args →
      conflictStart F (aea_PrevLogIndex args) (le_Term e) c →
      r = mkAEReply (aea_Term args) false (le_Term e) c (realLogLen F) → rejection F args r.

Lemma AppendEntries_rejection args F r F' es :
  AppendEntries args F = Some (r, F', es) → aer_Success r = false → currentTerm F ≤ aea_Term args →
  rejection F args r ∧ logs F' = logs F ∧ lastIncludedIndex F' = lastIncludedIndex F ∧
  commitIndex F' = commitIndex F ∧ currentTerm F' = aea_Term args.
Proof.
  unfold AppendEntries. intros H Hs Ht. minv H; simpl in Hs; try done; persist_simpl; bool_simpl; simpl in *;
    try lia.
  all: (split; [|split_and!; (done || lia)]).
  all: try (apply rej_snapshot; [lia|f_equal; lia]).
  all: try (apply rej_short; [unfold lastLogIndex in *; simpl in *; lia|f_equal; (done || lia)]).
  all: match goal with He : idx _ _ = Some ?e, Hc : scanConflict _ _ _ _ _ = Some ?c |- _ =>
         apply (rej_conflict _ _ _ e c); [done|done| |f_equal; (done || lia)] end.
  all: unfold conflictStart; destruct (decide _) as [?|?].
  all: try (match goal with Hc : scanConflict ?f _ _ _ _ = Some _ |- _ = -1 =>
         replace f with O in Hc by lia; simpl in Hc; congruence end).
  all: match goal with Hc : scanConflict _ _ _ _ _ = Some _ |- _ =>
         eapply scanConflict_spec in Hc; [exact Hc|simpl; lia|simpl; lia|] end.
  all: unfold entryAt, logIndex in *; simpl in *;
       match goal with He : idx _ _ = Some _ |- _ => by rewrite He end.
Qed.

(** ** The leader's reaction *)

Lemma lastWithTerm_Some rf t i :
  lastWithTerm rf t = Some i → ∃ e, entryAt rf i = Some e ∧ le_Term e = t.
Proof.
  unfold lastWithTerm.
  assert (∀ l acc, foldl (λ acc (ie : Z * LogEntry C),
            if le_Term ie.2 =? t then Some (realIndex rf ie.1) else acc) acc l = Some i →
          acc = Some i ∨ ∃ k e, (k, e) ∈ l ∧ le_Term e = t ∧ i = realIndex rf k) as Hfold.
  { induction l as [|[k e] l IH]; intros acc H; simpl in H; [by left|].
    apply IH in H as [H|(k' & e' & ? & ? & ?)]; [|right; exists k', e'; set_solver].
    destruct (Z.eqb_spec (le_Term e) t); [|by left]. right. exists k, e. split_and!; [set_solver|done|congruence]. }
  intros [?|(k & e & Hin & Ht & ->)]%Hfold; [done|]. exists e. split; [|done].
  unfold enumerate in Hin. apply elem_of_lookup_imap in Hin as (n & x & [= -> <-] & Hx).
  unfold entryAt, logIndex, realIndex. replace (_ - _) with (Z.of_nat n) by lia. by rewrite idx_of_nat.
Qed.

(** The new [nextIndex] of [findNextIndex]. *)
Lemma findNextIndex_run peer reply rf :
  0 ≤ peer < zlen (nextIndex rf) →
  ∃ next, findNextIndex peer reply rf
    = Some (tt, set_nextIndex (<[Z.to_nat peer := next]> (nextIndex rf)) rf, []) ∧
  next = (if (aer_XTerm reply =? -1) && (aer_XIndex reply =? -1) then aer_XLen reply
          else default (aer_XIndex reply) (lastWithTerm rf (aer_XTerm reply))).
Proof.
  intros Hp. unfold findNextIndex, mbind, M_bind, get, lift, upd.
  rewrite (proj2 (andb_true_iff _ _)) by (split; [apply Z.leb_le|apply Z.ltb_lt]; lia).
  eexists. split; [done|]. case_match; [done|]. by destruct (lastWithTerm _ _).
Qed.

(** C25: a follower of no higher term that rejects the append tells the leader
    enough to move [nextIndex] strictly back.  The leader still is at the
    [nextIndex] the append was sent from, [PrevLogIndex + 1], and the logs are as log
    matching makes them: if the follower's entry at [PrevLogIndex] has term [t],
    the leader has no entry of term [t] further up, and no entry further up
    has term 0.  Then the new value is below the old one, and nothing else of
    the leader changes. *)
Theorem backup_progress L F args r F' es peer old :
  state L = Leader → currentTerm L = aea_Term args →
  idx (nextIndex L) peer = Some old → old = aea_PrevLogIndex args + 1 →
  currentTerm F ≤ aea_Term args → 0 ≤ commitIndex F → 0 ≤ aea_PrevLogIndex args →
  (∀ i e, entryAt F i = Some e → 0 ≤ le_Term e) →
  le_Term <$> entryAt L (aea_PrevLogIndex args) = Some (aea_PrevLogTerm args) →
  (∀ i e e', entryAt F (aea_PrevLogIndex args) = Some e → entryAt L i = Some e' →
     aea_PrevLogIndex args < i → le_Term e' ≠ le_Term e) →
  (∀ i e, entryAt L i = Some e → aea_PrevLogIndex args < i → le_Term e ≠ 0) →
  AppendEntries args F = Some (r, F', es) → aer_Success r = false →
  ∃ next, handleSendAppendEntries peer args r L
      = Some (tt, set_nextIndex (<[Z.to_nat peer := next]> (nextIndex L)) L, []) ∧
    next < old.
Proof.
  intros Hlead Hterm Hpeer%idx_lt -> HF Hci Hp Hpos HL Hmatch Hzero Hae Hs.
  destruct (AppendEntries_rejection _ _ _ _ _ Hae Hs HF) as [Hrej _].
  destruct (findNextIndex_run peer r L Hpeer) as (next & Hrun & Hnext). exists next.
  assert (aer_Term r = aea_Term args) as Hrt by (by destruct Hrej; subst r).
  split.
  - unfold handleSendAppendEntries, mbind, M_bind, get. rewrite Hterm, Z.eqb_refl, Hlead, Hrt, Z.ltb_irrefl, Hs.
    rewrite bool_decide_true by done. simpl. by rewrite Hrun.
  - assert (∀ t i, lastWithTerm L t = Some i →
      (∀ j e, entryAt L j = Some e → aea_PrevLogIndex args < j → le_Term e ≠ t) →
      i ≤ aea_PrevLogIndex args) as Hlast.
    { intros t i (e & He & Ht)%lastWithTerm_Some Hno. destruct (Z.le_gt_cases i (aea_PrevLogIndex args)); [done|].
      by destruct (Hno i e). }
    destruct Hrej as [? ->|? ->|e c He Hne Hc ->]; simpl in Hnext.
    + destruct (lastWithTerm L 0) as [i|] eqn:E; simpl in Hnext; [|lia]. apply Hlast in E; [lia|done].
    + subst next. unfold lastLogIndex, realLogLen in *. lia.
    + destruct (Z.eqb_spec (le_Term e) (-1)) as [E|_]; [apply Hpos in He; lia|]. simpl in Hnext.
      destruct (lastWithTerm L (le_Term e)) as [i|] eqn:E; simpl in Hnext.
      * apply Hlast in E; [lia|]. eauto.
      * unfold conflictStart in Hc. case_match; lia.
Qed.

(** ** A follower whose snapshot is ahead of the leader's *)

(** The first half of the circle: the append below the follower's snapshot is
    rejected with an all-zero report, which sends [nextIndex] to 0. *)
Lemma reject_below_snapshot L F (args : AppendEntriesArgs C) peer :
  state L = Leader → currentTerm L = aea_Term args → currentTerm F = aea_Term args →
  0 ≤ peer < zlen (nextIndex L) → logs F ≠ [] →
  aea_PrevLogIndex args < lastIncludedIndex F →
  (∀ i e, entryAt L i = Some e → le_Term e = 0 → i = 0) →
  ∃ ps es, AppendEntries args F
    = Some (mkAEReply (aea_Term args) false 0 0 0, set_persister ps (set_state Follower F), es) ∧
  handleSendAppendEntries peer args (mkAEReply (aea_Term args) false 0 0 0) L
    = Some (tt, set_nextIndex (<[Z.to_nat peer := 0]> (nextIndex L)) L, []).
Proof.
  intros Hlead HtL HtF Hp HlF Hprev Hzero.
  destruct (persist_total (set_state Follower F)) as [ps Hps]; [done|]. exists ps, [ResetElectionTimer].
  split.
  - unfold AppendEntries, defer_persist, when, mbind, M_bind, get, modify, emit, mret, M_ret.
    rewrite HtF, Z.ltb_irrefl. simpl. rewrite (proj2 (Z.ltb_lt _ _)) by done. rewrite Hps. simpl.
    by rewrite HtF.
  - destruct (findNextIndex_run peer (mkAEReply (aea_Term args) false 0 0 0) L) as (next & Hrun & Hnext); [done|].
    unfold handleSendAppendEntries, mbind, M_bind, get. rewrite HtL, Z.eqb_refl, Hlead, bool_decide_true by done.
    simpl. rewrite Z.ltb_irrefl, Hrun. simpl. do 4 f_equal. simpl in Hnext. subst next.
    destruct (lastWithTerm L 0) as [i|] eqn:E; simpl; [|done].
    apply lastWithTerm_Some in E as (e & He & Ht). by rewrite (Hzero _ _ He Ht).
Qed.

(** The second half: the snapshot the leader then sends is ignored and puts
    [nextIndex] back to one past the leader's snapshot. *)
Lemma ignore_old_snapshot L F (args : InstallSnapshotArgs) peer m :
  state L = Leader → currentTerm L = isa_Term args → currentTerm F = isa_Term args →
  isa_LastIncludedIndex args ≤ lastIncludedIndex F → 0 ≤ isa_LastIncludedIndex args →
  idx (nextIndex L) peer = Some 0 → idx (matchIndex L) peer = Some m → isa_LastIncludedIndex args ≤ m →
  ∃ es, InstallSnapshot args F = Some (mkISReply (isa_Term args), set_state Follower F, es) ∧
  handleSendInstallSnapshot peer args (mkISReply (isa_Term args)) L
    = Some (tt, set_nextIndex (<[Z.to_nat peer := isa_LastIncludedIndex args + 1]> (nextIndex L)) L, []).
Proof.
  intros Hlead HtL HtF Hle Hpos Hn Hm Hmm. exists [ResetElectionTimer]. split.
  - unfold InstallSnapshot, when, mbind, M_bind, get, modify, emit, mret, M_ret.
    rewrite HtF, Z.ltb_irrefl. simpl. rewrite (proj2 (Z.leb_le _ _)) by done. simpl. by rewrite HtF.
  - pose proof (idx_lt _ _ _ Hn). pose proof (idx_lt _ _ _ Hm).
    unfold handleSendInstallSnapshot, mbind, M_bind, get, lift, modify.
    rewrite HtL, Z.eqb_refl, Hlead, bool_decide_true by done. simpl. rewrite Z.ltb_irrefl, Hm, Hn. unfold upd.
    rewrite !(proj2 (andb_true_iff _ _)) by (split; [apply Z.leb_le|apply Z.ltb_lt]; lia). simpl.
    rewrite !Z.max_r by lia. rewrite Z.max_l by lia. apply idx_Some in Hm as [_ Hm].
    rewrite (list_insert_id (matchIndex L)) by done. by destruct L.
Qed.

(** Replication to a follower whose snapshot is ahead of the leader's does
    not recover by itself.  Once [nextIndex] of the peer is one past the
    leader's snapshot, a heartbeat round (rejected append, [nextIndex] := 0)
    and the next one (ignored snapshot, [nextIndex] back) return the leader to
    the state it started from and leave the follower's log as it was, so no
    entry ever reaches the follower until the leader itself takes a snapshot. *)
Theorem snapshot_ahead_livelock L F peer m :
  wf L → state L = Leader → currentTerm F = currentTerm L → logs F ≠ [] →
  lastIncludedIndex L < lastIncludedIndex F →
  idx (nextIndex L) peer = Some (lastIncludedIndex L + 1) →
  idx (matchIndex L) peer = Some m → lastIncludedIndex L ≤ m →
  (∀ i e, entryAt L i = Some e → le_Term e = 0 → i = 0) →
  ∃ a r F1 es L1 a' r' F2 es',
    broadcastOne L peer = Some (GoAppendEntries peer a) ∧
    AppendEntries a F = Some (r, F1, es) ∧ handleSendAppendEntries peer a r L = Some (tt, L1, []) ∧
    broadcastOne L1 peer = Some (GoInstallSnapshot peer a') ∧
    InstallSnapshot a' F1 = Some (r', F2, es') ∧ handleSendInstallSnapshot peer a' r' L1 = Some (tt, L, []) ∧
    currentTerm F2 = currentTerm F ∧ logs F2 = logs F ∧
    lastIncludedIndex F2 = lastIncludedIndex F ∧ commitIndex F2 = commitIndex F.
Proof.
  intros Hwf Hlead HtF HlF Hlii Hn Hm Hmm Hzero. pose proof (idx_lt _ _ _ Hn) as Hp.
  pose proof (logs_zlen _ (wf_logs _ Hwf)). pose proof (wf_snap _ Hwf).
  destruct (broadcastOne_message L peer _ Hwf Hn) as (e & Hb & Hmsg); [unfold realLogLen; lia|].
  unfold messageFor in Hmsg. destruct (decide _); [lia|].
  destruct Hmsg as (prev & entries & Hprev & _ & ->). eexists _.
  destruct (reject_below_snapshot L F (mkAEArgs (currentTerm L) (me L) (lastIncludedIndex L + 1 - 1)
              (le_Term prev) entries (commitIndex L)) peer) as (ps & es & Hae & Hreply); try done; [simpl; lia|].
  set (L1 := set_nextIndex (<[Z.to_nat peer := 0]> (nextIndex L)) L) in *.
  assert (idx (nextIndex L1) peer = Some 0) as Hn1 by (by apply idx_insert_eq).
  destruct (broadcastOne_message L1 peer 0) as (e' & Hb' & Hmsg');
    [destruct Hwf; split; simpl; try done; by rewrite zlen_insert|done|unfold realLogLen; simpl; lia|].
  unfold messageFor in Hmsg'. destruct (decide _); [|simpl in *; lia].
  destruct Hmsg' as (e0 & He0 & ->).
  destruct (ignore_old_snapshot L1 (set_persister ps (set_state Follower F))
    (mkISArgs (currentTerm L1) (me L1) (lastIncludedIndex L1) (le_Term e0) (snapshot L1)) peer m)
    as (es' & His & Hreply'); simpl; try done; try lia.
  eexists _, _, _, L1, _, _, _, _. split_and!; try done.
  etransitivity; [exact Hreply'|]. unfold L1. simpl. rewrite list_insert_insert_eq.
  apply idx_Some in Hn as [_ Hn]. rewrite list_insert_id by done. by destruct L.
Qed.

End backup.

(** A follower of [exampleLeader] whose entry 3 is of an older term. *)
Definition conflictingPeer : Raft Z :=
  set_commitIndex 1 (set_currentTerm 2 (set_logs
    [mkEntry 0 None; mkEntry 1 (Some 10); mkEntry 1 (Some 11); mkEntry 1 (Some 99)]
    (freshRaft 3 0 MakePersister))).

(** Split a lookup in a concrete list into its cases. *)
Ltac idx_cases H :=
  apply idx_elem_of in H;
  repeat (apply elem_of_cons in H as [->|H]; [try (vm_compute; (done || lia))|]); try by apply elem_of_nil in H.

Lemma exampleLeader_range i e : entryAt exampleLeader i = Some e → 0 ≤ i ≤ 3.
Proof.
  intros H%idx_lt. unfold logIndex in H. change (lastIncludedIndex exampleLeader) with 0 in H.
  change (zlen (logs exampleLeader)) with 4 in H. lia.
Qed.

(** The leader that takes peer 0 to have its whole log. *)
Definition newLeader : Raft Z := set_nextIndex [4; 4; 4] exampleLeader.

Lemma backup_progress_witness :
  broadcastOne newLeader 0 = Some (GoAppendEntries 0 (mkAEArgs 2 1 3 2 [] 2)) ∧
  ∃ next, next < 4 ∧
    handleSendAppendEntries 0 (mkAEArgs 2 1 3 2 [] 2) (mkAEReply 2 false 1 2 4) newLeader
    = Some (tt, set_nextIndex (<[0%nat := next]> (nextIndex newLeader)) newLeader, []).
Proof.
  split; [vm_compute; reflexivity|].
  edestruct (backup_progress newLeader conflictingPeer (mkAEArgs 2 1 3 2 [] 2) (mkAEReply 2 false 1 2 4))
    with (peer := 0) (old := 4) as (next & Hr & Hle); try first [vm_compute; reflexivity|vm_compute; discriminate|by vm_compute; split].
  - intros i e He. idx_cases He.
  - intros i e e' _ He' Hi. apply exampleLeader_range in He'. simpl in Hi. lia.
  - intros i e He' Hi. apply exampleLeader_range in He'. simpl in Hi. lia.
  - exists next. split; [exact Hle|exact Hr].
Defined.

Lemma snapshot_ahead_livelock_witness :
  ∃ a L1, broadcastOne (set_nextIndex [1; 4; 4] exampleLeader) 0 = Some (GoAppendEntries 0 a) ∧
    handleSendAppendEntries 0 a (mkAEReply 2 false 0 0 0) (set_nextIndex [1; 4; 4] exampleLeader) = Some (tt, L1, []).
Proof.
  destruct (snapshot_ahead_livelock exampleLeader
     (set_lastIncludedIndex 2 (set_logs [mkEntry 1 None] conflictingPeer)) 0 0)
    as (a & r & F1 & es & L1 & a' & r' & F2 & es' & Hb & Hae & Hh & _);
    try (vm_compute; (reflexivity || discriminate)); [apply exampleLeader_wf| |].
  - intros i e He Ht. apply exampleLeader_range in He as Hi.
    assert (i = 0 ∨ i = 1 ∨ i = 2 ∨ i = 3) as [-> | [-> | [-> | -> ]]] by lia; [done|..];
      vm_compute in He; injection He as <-; by vm_compute in Ht.
  - exists a, L1. split; [exact Hb|]. vm_compute in Hb. injection Hb as <-. vm_compute in Hae.
    injection Hae as <- _ _. exact Hh.
Defined.
