(* ===== verification/RaftDelivery.v ===== *)
(** * What the service receives on [applyCh]

    The actions of one peer as a step function, in which the applier and the
    snapshot goroutines interleave with the methods.  Without an installed
    snapshot the service receives the indices one by one in order; a round of
    the applier delivers every committed entry and ends. *)

From S2P Require Import Prelude Persister RaftNode RaftFollower RaftLeader RaftApplier RaftLog RaftCluster.

(** The atomic actions of one peer. *)
Inductive action (C : Type) :=
  | PApply | PSnap (g : nat)
  | PRequestVote (args : RequestVoteArgs)
  | PAppendEntries (args : AppendEntriesArgs C)
  | PInstallSnapshot (args : InstallSnapshotArgs)
  | PSnapshot (index : Z) (snap : bytes)
  | PTicker | PHeartbeat | PAddLog
  | PVoteReply (args : RequestVoteArgs) (reply : RequestVoteReply) (cnt : Z)
  | PAppendReply (peer : Z) (args : AppendEntriesArgs C) (reply : AppendEntriesReply)
  | PInstallReply (peer : Z) (args : InstallSnapshotArgs) (reply : InstallSnapshotReply)
  | PStart (cmd : C).
Arguments PApply {_}.
Arguments PSnap {_}.
Arguments PRequestVote {_}.
Arguments PAppendEntries {_}.
Arguments PInstallSnapshot {_}.
Arguments PSnapshot {_}.
Arguments PTicker {_}.
Arguments PHeartbeat {_}.
Arguments PAddLog {_}.
Arguments PVoteReply {_}.
Arguments PAppendReply {_}.
Arguments PInstallReply {_}.
Arguments PStart {_}.

Section delivery.
Context {C : Type} `{!Gob (PersistentStatus C)}.
Implicit Types (rf : Raft C) (sv : server C).

(** Run a method of the peer. *)
Definition runMethod {A} (m : M C A) sv : option (server C) :=
  match m (sv_rf sv) with
  | Some (_, rf', es) =>
      Some (spawnLocal es (mkServer rf' (sv_applier sv) (sv_snaps sv) (sv_signals sv) (sv_applyCh sv)))
  | None => None
  end.

Definition act (a : action C) sv : option (server C) :=
  match a with
  | PApply => applierStep sv
  | PSnap g => snapStep g sv
  | PRequestVote args => runMethod (RequestVote args) sv
  | PAppendEntries args => runMethod (AppendEntries args) sv
  | PInstallSnapshot args => runMethod (InstallSnapshot args) sv
  | PSnapshot index snap => runMethod (Snapshot index snap) sv
  | PTicker => runMethod ticker sv
  | PHeartbeat => runMethod heartbeatEvent sv
  | PAddLog => runMethod AddLogEvent sv
  | PVoteReply args reply cnt => runMethod (handleVoteReply args reply cnt) sv
  | PAppendReply peer args reply => runMethod (handleSendAppendEntries peer args reply) sv
  | PInstallReply peer args reply => runMethod (handleSendInstallSnapshot peer args reply) sv
  | PStart cmd => runMethod (Start cmd) sv
  end.

Definition acts (l : list (action C)) sv : option (server C) := foldM (λ sv a, act a sv) l sv.

Definition installs (a : action C) : bool :=
  match a with PInstallSnapshot _ => true | _ => false end.

(** ** Methods that leave delivery alone *)

(** The method neither moves [lastApplied] nor starts a snapshot goroutine. *)
Definition keepsApplied {A} (m : M C A) : Prop :=
  ∀ rf a rf' es, m rf = Some (a, rf', es) →
    lastApplied rf' = lastApplied rf ∧ ∀ msg, GoApplySnapshot msg ∉ es.

Lemma ka_bind {A B} (m : M C A) (k : A → M C B) :
  keepsApplied m → (∀ a, keepsApplied (k a)) → keepsApplied (m ≫= k).
Proof.
  intros Hm Hk rf b rf' es (a & rf1 & es1 & es2 & E1 & E2 & ->)%M_bind_Some.
  destruct (Hm _ _ _ _ E1), (Hk _ _ _ _ _ E2). split; [congruence|]. set_solver.
Qed.

Lemma ka_ret {A} (a : A) : keepsApplied (mret a).
Proof. intros rf b rf' es (-> & -> & ->)%M_ret_Some. set_solver. Qed.

Lemma ka_get : keepsApplied get.
Proof. intros rf b rf' es (-> & -> & ->)%M_get_Some. set_solver. Qed.

Lemma ka_lift {A} (o : option A) : keepsApplied (lift o).
Proof. intros rf b rf' es (? & -> & ->)%M_lift_Some. set_solver. Qed.

Lemma ka_modify f : (∀ rf, lastApplied (f rf) = lastApplied rf) → keepsApplied (modify f).
Proof. intros Hf rf b rf' es (-> & ->)%M_modify_Some. set_solver. Qed.

Lemma ka_emit es0 : (∀ msg, GoApplySnapshot msg ∉ es0) → keepsApplied (emit es0).
Proof. intros He rf b rf' es (-> & ->)%M_emit_Some. set_solver. Qed.

Lemma ka_persist : keepsApplied persist.
Proof. intros rf b rf' es (ps & -> & ->)%persist_Some. split; [done|set_solver]. Qed.

(** Emit the list a [mapM] computed, none of whose elements is a snapshot goroutine. *)
Lemma ka_emit_mapM {X} (f : Raft C → X → option (effect C)) (xs : Raft C → list X) :
  (∀ rf x e msg, f rf x = Some e → e ≠ GoApplySnapshot msg) →
  keepsApplied (rf ← get; es ← lift (mapM (f rf) (xs rf)); emit es).
Proof.
  intros Hf rf b rf' es H. minv H. split; [done|]. intros msg Hin. simpl in Hin.
  match goal with H : mapM _ _ = Some _ |- _ => apply mapM_Some in H as Hall end.
  apply list_elem_of_lookup in Hin as [k Hk].
  destruct (Forall2_lookup_r _ _ _ _ _ Hall Hk) as (y & _ & Hy). by eapply Hf.
Qed.
End delivery.

(** Decompose a method into its steps. *)
Ltac ka_step :=
  lazymatch goal with
  | |- keepsApplied (get ≫= λ rf, lift (mapM _ _) ≫= λ es, emit es) => fail
  | |- keepsApplied (defer_persist _) => unfold defer_persist
  | |- keepsApplied (when ?b _) => unfold when; destruct b
  | |- keepsApplied (match ?b with _ => _ end) => destruct b
  | |- keepsApplied (mret _) => apply ka_ret
  | |- keepsApplied get => apply ka_get
  | |- keepsApplied (lift _) => apply ka_lift
  | |- keepsApplied (modify _) => apply ka_modify; intros; reflexivity
  | |- keepsApplied (emit (_ :: _)) => apply ka_emit; set_solver
  | |- keepsApplied persist => apply ka_persist
  | |- keepsApplied (mbind _ _) => apply ka_bind; [|intros]
  end.
Ltac ka_solve := repeat ka_step; try done.

Section kept.
Context {C : Type} `{!Gob (PersistentStatus C)}.
Implicit Types (rf : Raft C) (sv : server C).

Lemma broadcastHeartbeat_ka : keepsApplied (C:=C) broadcastHeartbeat.
Proof.
  apply ka_emit_mapM. intros rf p e msg H ->. unfold broadcastOne in H.
  inv_bind H. destruct (_ <=? _); inv_bind H; by simplify_eq.
Qed.

Lemma startElection_ka : keepsApplied (C:=C) startElection.
Proof.
  unfold startElection. do 4 (apply ka_bind; [ka_solve|intros _]).
  apply (ka_emit_mapM (λ rf i, t ← lastLogTerm rf; Some (GoRequestVote i _))).
  intros rf p e msg H ->. by inv_bind H.
Qed.

(** Every action but [InstallSnapshot] and the two delivering goroutines. *)
Definition quietAction (a : action C) : bool :=
  match a with PApply | PSnap _ | PInstallSnapshot _ => false | _ => true end.

(** Without a snapshot goroutine, the goroutines of a method only wait to signal. *)
Lemma spawnLocal_plain es sv :
  (∀ msg, GoApplySnapshot msg ∉ es) →
  sv_rf (spawnLocal es sv) = sv_rf sv ∧ sv_applier (spawnLocal es sv) = sv_applier sv ∧
  sv_snaps (spawnLocal es sv) = sv_snaps sv ∧ sv_applyCh (spawnLocal es sv) = sv_applyCh sv.
Proof.
  revert sv. induction es as [|e es IH]; intros sv He; [done|]. simpl. destruct e;
    try (apply IH; set_solver); [by destruct (He msg); left|].
  destruct (IH (mkServer (sv_rf sv) (sv_applier sv) (sv_snaps sv) (S (sv_signals sv)) (sv_applyCh sv)))
    as (? & ? & ? & ?); [set_solver|]. done.
Qed.

Lemma act_quiet a sv sv' :
  act a sv = Some sv' → quietAction a = true →
  lastApplied (sv_rf sv') = lastApplied (sv_rf sv) ∧ sv_applier sv' = sv_applier sv ∧
  sv_snaps sv' = sv_snaps sv ∧ sv_applyCh sv' = sv_applyCh sv.
Proof.
  assert (∀ A (m : M C A), keepsApplied m → runMethod m sv = Some sv' →
    lastApplied (sv_rf sv') = lastApplied (sv_rf sv) ∧ sv_applier sv' = sv_applier sv ∧
    sv_snaps sv' = sv_snaps sv ∧ sv_applyCh sv' = sv_applyCh sv) as Hrun.
  { intros A m Hm. unfold runMethod. destruct (m (sv_rf sv)) as [[[x rf'] es]|] eqn:E; [|done].
    intros [= <-]. destruct (Hm _ _ _ _ E) as [Hla Hes]. edestruct spawnLocal_plain as (-> & -> & -> & ->); done. }
  destruct a; intros H Hq; try done; simpl in H; revert H; apply Hrun; clear Hrun Hq.
  - unfold RequestVote; ka_solve.
  - unfold AppendEntries; ka_solve.
  - unfold Snapshot; ka_solve.
  - unfold ticker; apply ka_bind; [ka_solve|intros _; apply startElection_ka].
  - unfold heartbeatEvent; ka_solve; apply broadcastHeartbeat_ka.
  - unfold AddLogEvent; ka_solve; apply broadcastHeartbeat_ka.
  - unfold handleVoteReply, initializeLeaderEasilyLostState; ka_solve; apply broadcastHeartbeat_ka.
  - unfold handleSendAppendEntries, findNextIndex, checkAndCommitLogs; ka_solve.
  - unfold handleSendInstallSnapshot; ka_solve.
  - unfold Start; ka_solve.
Qed.

(** ** In-order delivery *)

Definition isCommand (m : ApplyMsg C) : Prop := CommandValid m = true ∧ SnapshotValid m = false.

(** The messages the applier holds, and the first index it has not delivered. *)
Definition pending (pc : applier_pc C) : list (ApplyMsg C) :=
  match pc with
  | ApWait => []
  | ApLoop ms => ms
  | ApSend m ms | ApSent m ms | ApUpdate m ms => m :: ms
  end.
Definition undelivered sv : Z :=
  match sv_applier sv with
  | ApSent _ _ | ApUpdate _ _ => lastApplied (sv_rf sv) + 2
  | _ => lastApplied (sv_rf sv) + 1
  end.

(** The peer has delivered the commands from one above [start] on, in order, after
    the messages [old], and no snapshot goroutine is left. *)
Record inOrder (old : list (ApplyMsg C)) (start : Z) sv : Prop := {
  io_snaps : Forall (λ g, g = SnapDone) (sv_snaps sv);
  io_pending : Forall isCommand (pending (sv_applier sv));
  io_current : match sv_applier sv with
               | ApSend m _ | ApSent m _ | ApUpdate m _ => CommandIndex m = lastApplied (sv_rf sv) + 1
               | _ => True
               end;
  io_start : start ≤ lastApplied (sv_rf sv);
  io_channel : ∃ ch, sv_applyCh sv = old ++ ch ∧ Forall isCommand ch ∧
    CommandIndex <$> ch = range (start + 1) (undelivered sv);
}.

Lemma inOrder_new rf : inOrder [] (lastApplied rf) (newServer rf).
Proof. split; simpl; try done. exists []. unfold undelivered. simpl. by rewrite range_nil by lia. Qed.

Lemma io_indices start sv : inOrder [] start sv → CommandIndex <$> sv_applyCh sv = range (start + 1) (undelivered sv).
Proof. intros [_ _ _ _ (ch & -> & _ & H)]. done. Qed.

Lemma inOrder_snapStep old start sv g : inOrder old start sv → snapStep g sv = None.
Proof.
  intros Hio. unfold snapStep. destruct (sv_snaps sv !! g) as [pc|] eqn:Eg; [|done]. simpl.
  pose proof (Forall_lookup_1 _ _ _ _ (io_snaps _ _ _ Hio) Eg) as E. simpl in E. by rewrite E.
Qed.

Lemma collectMsgs_valid rf ms : collectMsgs rf = Some ms → Forall isCommand ms.
Proof.
  intros H%mapM_Some. apply Forall_lookup. intros k m Hk.
  destruct (Forall2_lookup_r _ _ _ _ _ H Hk) as (i & _ & Hi).
  unfold applyMsgAt in Hi. inv_bind Hi. injection Hi as <-. done.
Qed.

Lemma applierStep_inOrder old start sv sv' :
  applierStep sv = Some sv' → inOrder old start sv → inOrder old start sv'.
Proof.
  unfold applierStep. intros H [Hs Hp Hc Hst (ch0 & Hch & Hv & Hi)]. unfold undelivered in Hi.
  destruct sv as [rf pc sn sg ch]; simpl in *. subst ch.
  destruct pc as [|[|m ms]|m ms|m ms|m ms]; simpl in *.
  - destruct (_ <=? _); [done|]. inv_bind H. injection H as <-. split; simpl; try done; [by eapply collectMsgs_valid|eauto].
  - injection H as <-. split; simpl; eauto.
  - destruct (Z.eqb_spec (CommandIndex m) (lastApplied rf + 1)); simpl in H; injection H as <-;
      split; simpl; eauto. by apply Forall_cons in Hp as [_ ?].
  - injection H as <-. split; simpl; try done. exists (ch0 ++ [m]). split_and!; [by rewrite app_assoc| |].
    + apply Forall_cons in Hp as [? _]. by apply Forall_app_2; [|apply Forall_singleton].
    + unfold undelivered. simpl. rewrite fmap_app, Hi. simpl.
      rewrite (range_snoc _ (lastApplied rf + 2)) by lia. do 2 f_equal; [|f_equal]; lia.
  - injection H as <-. split; simpl; eauto.
  - injection H as <-. split; simpl; [done|by apply Forall_cons in Hp as [_ ?]|done|lia|].
    exists ch0. split_and!; [done|done|]. unfold undelivered. simpl. rewrite Hi. f_equal. lia.
Qed.

Lemma act_inOrder old start a sv sv' :
  act a sv = Some sv' → installs a = false → inOrder old start sv → inOrder old start sv'.
Proof.
  intros H Ha Hio. destruct (quietAction a) eqn:Hq.
  - destruct (act_quiet _ _ _ H Hq) as (Hla & Hpc & Hsn & Hch). destruct Hio.
    split; unfold undelivered in *; rewrite ?Hla, ?Hpc, ?Hsn, ?Hch; done.
  - destruct a; try done; simpl in H; [by eapply applierStep_inOrder|].
    by rewrite (inOrder_snapStep _ _ _ _ Hio) in H.
Qed.

Lemma acts_inOrder old start l sv sv' :
  acts l sv = Some sv' → Forall (λ a, installs a = false) l → inOrder old start sv → inOrder old start sv'.
Proof.
  intros H Hl Hio. revert H. unfold acts. rewrite Forall_forall in Hl. apply foldM_inv; [|done].
  intros a b b' Ha Hb Hact. eapply act_inOrder; eauto.
Qed.

(** C26: in-order delivery.  Whatever a peer does since its start, as long as no
    [InstallSnapshot] arrives, what the service has received on [applyCh] are
    commands only, with consecutive indices from one above the snapshot the peer
    started from, without gap or repetition, up to [lastApplied] or one more. *)
Theorem applyCh_in_order (rf : Raft C) l sv :
  acts l (newServer rf) = Some sv → Forall (λ a, installs a = false) l →
  ∃ next, CommandIndex <$> sv_applyCh sv = range (lastApplied rf + 1) next ∧
    Forall isCommand (sv_applyCh sv) ∧
    lastApplied (sv_rf sv) + 1 ≤ next ≤ lastApplied (sv_rf sv) + 2.
Proof.
  intros H Hl. assert (inOrder [] (lastApplied rf) sv) as [_ _ _ _ (ch & Hch & Hv & Hi)].
  { eapply acts_inOrder; [done|done|apply inOrder_new]. }
  simpl in Hch. subst ch. exists (undelivered sv). split_and!; try done; unfold undelivered; case_match; lia.
Qed.

(** ** A round of the applier *)

(** The command message for index [i]. *)
Definition commandMsg (c : option C) (i : Z) : ApplyMsg C :=
  mkApplyMsg true c i false [] 0 0.

Lemma acts_app l k sv : acts (l ++ k) sv = acts l sv ≫= acts k.
Proof. unfold acts. by rewrite foldM_app. Qed.

Lemma applier_one m ms rf sn sg ch :
  CommandIndex m = lastApplied rf + 1 →
  acts (replicate 4 PApply) (mkServer rf (ApLoop (m :: ms)) sn sg ch)
  = Some (mkServer (set_lastApplied (lastApplied rf + 1) (set_replicatePreSnapshot false rf))
            (ApLoop ms) sn sg (ch ++ [m])).
Proof.
  intros Hm. cbv [acts replicate foldM act applierStep mbind option_bind]. simpl. rewrite Hm, Z.eqb_refl. simpl.
  rewrite Hm. do 3 f_equal. lia.
Qed.

Lemma applier_loop ms rf sn sg ch :
  replicatePreSnapshot rf = false →
  CommandIndex <$> ms = range (lastApplied rf + 1) (lastApplied rf + 1 + zlen ms) →
  acts (replicate (4 * length ms) PApply) (mkServer rf (ApLoop ms) sn sg ch)
  = Some (mkServer (set_lastApplied (lastApplied rf + zlen ms) rf) (ApLoop []) sn sg (ch ++ ms)).
Proof.
  revert rf ch. induction ms as [|m ms IH]; intros rf ch Hrep Hidx.
  { simpl. unfold zlen. simpl. rewrite app_nil_r, Z.add_0_r. by destruct rf. }
  rewrite zlen_cons in Hidx. pose proof (zlen_nonneg ms). rewrite range_cons in Hidx by lia.
  injection Hidx as Hm Hms. simpl length.
  replace (4 * S (length ms))%nat with (4 + 4 * length ms)%nat by lia.
  rewrite replicate_add, acts_app, applier_one by done. cbn [mbind option_bind]. rewrite IH; simpl; [|done|etransitivity; [exact Hms|f_equal; lia]].
  rewrite <- app_assoc. simpl. rewrite zlen_cons. do 2 f_equal.
  destruct rf; unfold set_lastApplied, set_replicatePreSnapshot; simpl in *. subst. f_equal; lia.
Qed.

(** A round of the applier terminates and delivers exactly the committed
    entries.  Scheduled on its own, [applierEvent] needs four steps per entry
    and two more to send every entry of [(lastApplied, commitIndex]], in order
    and with its command, set [lastApplied] to [commitIndex] and wait again. *)
Theorem applier_round rf sn sg ch :
  replicatePreSnapshot rf = false →
  lastIncludedIndex rf ≤ lastApplied rf → lastApplied rf < commitIndex rf ≤ lastLogIndex rf →
  ∃ ms, acts (replicate (4 * Z.to_nat (commitIndex rf - lastApplied rf) + 2) PApply)
          (mkServer rf ApWait sn sg ch)
        = Some (mkServer (set_lastApplied (commitIndex rf) rf) ApWait sn sg (ch ++ ms)) ∧
    length ms = Z.to_nat (commitIndex rf - lastApplied rf) ∧
    ∀ i, lastApplied rf < i ≤ commitIndex rf →
      ∃ e, entryAt rf i = Some e ∧ ms !! Z.to_nat (i - lastApplied rf - 1) = Some (commandMsg (le_Cmd e) i).
Proof.
  intros Hrep Hlii [Hlt Hci]. unfold lastLogIndex in Hci.
  assert (∀ i, lastApplied rf < i ≤ commitIndex rf →
    ∃ e, entryAt rf i = Some e ∧ applyMsgAt rf i = Some (commandMsg (le_Cmd e) i)) as Hmsg.
  { intros i Hi. unfold entryAt, applyMsgAt.
    destruct (idx_is_Some (logs rf) (logIndex rf i)) as [e ->]; [unfold logIndex; lia|]. eauto. }
  assert (is_Some (collectMsgs rf)) as [ms Hms].
  { apply mapM_is_Some_2, Forall_forall. intros i Hi%elem_of_range.
    simpl. destruct (Hmsg i) as (e & _ & ->); [lia|done]. }
  pose proof Hms as Hall%mapM_Some.
  assert (length ms = Z.to_nat (commitIndex rf - lastApplied rf)) as Hlen.
  { rewrite <- (Forall2_length _ _ _ Hall). unfold range. rewrite length_seqZ. lia. }
  assert (CommandIndex <$> ms = range (lastApplied rf + 1) (commitIndex rf + 1)) as Hidx.
  { clear -Hall. revert Hall. generalize (range (lastApplied rf + 1) (commitIndex rf + 1)). intros is_.
    induction 1 as [|i m is_ ms Hi _ IH]; [done|]. simpl. f_equal; [|exact IH].
    unfold applyMsgAt in Hi. inv_bind Hi. by injection Hi as <-. }
  exists ms. split_and!; [|done|].
  - replace (4 * Z.to_nat (commitIndex rf - lastApplied rf) + 2)%nat with (1 + (4 * length ms + 1))%nat by lia.
    rewrite replicate_add, acts_app.
    assert (acts (replicate 1 PApply) (mkServer rf ApWait sn sg ch)
            = Some (mkServer rf (ApLoop ms) sn sg ch)) as ->.
    { unfold acts, foldM. simpl. unfold applierStep. simpl. rewrite (proj2 (Z.leb_gt _ _)) by lia. by rewrite Hms. }
    cbn [mbind option_bind]. rewrite replicate_add, acts_app, applier_loop; simpl; [|done|rewrite Hidx; f_equal; unfold zlen; lia].
    replace (lastApplied rf + zlen ms) with (commitIndex rf) by (unfold zlen; lia). reflexivity.
  - intros i Hi. destruct (Hmsg i Hi) as (e & He & Hm). exists e. split; [done|].
    destruct (Forall2_lookup_l _ _ _ (Z.to_nat (i - lastApplied rf - 1)) i Hall) as (m & Hk & Hm').
    { unfold range. apply lookup_seqZ. lia. }
    rewrite Hk. congruence.
Qed.
End kept.

(** ** Witnesses *)

Lemma applyCh_in_order_witness :
  ∃ sv, acts (replicate 10 PApply) (newServer examplePeer) = Some sv ∧
    ∃ next, CommandIndex <$> sv_applyCh sv = range 1 next.
Proof.
  eexists. split; [vm_compute; reflexivity|].
  edestruct (applyCh_in_order examplePeer (replicate 10 PApply)) as (next & H & _);
    [vm_compute; reflexivity|by repeat constructor|]. exists next. exact H.
Defined.

Lemma applier_round_witness :
  ∃ ms, acts (replicate 10 PApply) (mkServer examplePeer ApWait [] 0 [])
    = Some (mkServer (set_lastApplied 2 examplePeer) ApWait [] 0 ms) ∧ length ms = 2%nat.
Proof.
  destruct (applier_round examplePeer [] 0 []) as (ms & H & Hl & _);
    [reflexivity|vm_compute; discriminate|split; vm_compute; (reflexivity || discriminate)|].
  exists ms. split; [exact H|exact Hl].
Defined.
