(* ===== verification/RaftFaults.v ===== *)
(** * What restarts and installed snapshots break

    A run of three peers that elects a leader, and a run with one crash that
    elects two leaders of the same term: [readPersist] restores [votedFor] from
    the saved term, so the restarted peer has forgotten its vote.  Then runs without
    a crash: an installed snapshot erases a committed entry, and one reaches the
    service after a later command. *)

From S2P Require Import Prelude Persister RaftNode RaftFollower RaftLeader RaftApplier RaftCluster RaftElection RaftDelivery.

Section runs.
Context {C : Type} `{!Gob (PersistentStatus C)}.

Lemma steps_reachable (n : nat) ls (w w' : cluster C) :
  reachable n w → steps ls w = Some w' → reachable n w'.
Proof.
  revert w. induction ls as [|l ls IH]; intros w Hr H; unfold steps in H; simpl in H; [by simplify_eq|].
  inv_bind H. eapply IH; [|exact H]. by eapply reach_step.
Qed.

Lemma steps_nocrash (n : nat) ls (w w' : cluster C) :
  forallb (λ l, negb (isRestart l)) ls = true →
  reachable_nocrash n w → steps ls w = Some w' → reachable_nocrash n w'.
Proof.
  revert w. induction ls as [|l ls IH]; intros w Hl Hr H; unfold steps in H; simpl in *; [by simplify_eq|].
  apply andb_true_iff in Hl as [Hl%negb_true_iff ?].
  inv_bind H. eapply IH; [done| |exact H]. by eapply rnc_step.
Qed.
End runs.

(** A boolean form of [leads]. *)
Definition leadsb {C} (w : cluster C) (i T : Z) : bool :=
  match idx (servers w) i with
  | Some sv => bool_decide (state (sv_rf sv) = Leader) && (currentTerm (sv_rf sv) =? T)
  | None => false
  end.

Lemma leadsb_leads {C} (w : cluster C) i T : leadsb w i T = true → leads w i T.
Proof.
  unfold leadsb, leads. destruct (idx (servers w) i) as [sv|]; [|done].
  intros [?%bool_decide_eq_true ?%Z.eqb_eq]%andb_true_iff. eauto.
Qed.

(** Peer 0 is elected in term 1 with the vote of peer 1. *)
Definition electionRun : list (label Z) := [Timeout 0; Deliver 0; Answer 0].

(** The state a run ends in, when it has one. *)
Definition runEnd (ls : list (label Z)) : cluster Z := default (initCluster 3) (steps ls (initCluster 3)).

Lemma election_safety_witness : leads (runEnd electionRun) 0 1 ∧ 0 = 0.
Proof.
  assert (leads (runEnd electionRun) 0 1) as Hl by (apply leadsb_leads; vm_compute; reflexivity).
  split; [exact Hl|].
  eapply (election_safety 3 (runEnd electionRun) (runEnd electionRun) 0 0 1); [|apply later_refl|exact Hl|exact Hl].
  eapply (steps_nocrash 3 electionRun); [reflexivity|apply rnc_init|vm_compute; reflexivity].
Defined.

(** Peer 0 wins term 2 with the vote of peer 1; peer 1 restarts and gives the
    candidate 2 of the same term its vote as well. *)
Definition splitVoteRun : list (label Z) :=
  [Timeout 0; Timeout 0; Deliver 2; Answer 2; Timeout 2; Timeout 2; Restart 1; Deliver 9; Answer 9].

(** C37: with crashes, two peers can lead the same term at once. *)
Theorem restart_two_leaders :
  ∃ w : cluster Z, reachable 3 w ∧ leads w 0 2 ∧ leads w 2 2.
Proof.
  exists (runEnd splitVoteRun). split.
  - eapply (steps_reachable 3 splitVoteRun); [apply reach_init|vm_compute; reflexivity].
  - split; apply leadsb_leads; vm_compute; reflexivity.
Qed.

(** ** A run of the cluster with log compaction

    [InstallSnapshot] of [raft/raft.go] keeps the entries that follow the
    snapshot point when the term of [rf.logs[0]] is the snapshot's, instead of
    the term of the entry at that point.  On a follower that has not compacted
    its log, [rf.logs[0]] is the sentinel of term 0, so a late snapshot erases
    entries the follower has acknowledged, committed ones included.  The run of
    three peers below, without a crash, delivers two different commands at one
    index: the hypothesis of [RaftSafety] that no snapshot is installed is needed. *)

(** One round of [applierEvent] that delivers one message, back to the wait. *)
Definition applyRound (i : Z) : list (label Z) := repeat (Apply i) 6.

(** Peer 0 leads term 1 with the vote of peer 2 and starts 10 and 20; the
    request with both entries to peer 1 (call 6) travels while peer 2
    acknowledges 10 (call 5), which peer 0 commits and applies. *)
Definition firstCommit : list (label Z) :=
  [Timeout 0; Deliver 1; Answer 1; ClientStart 0 10; AddLog 0; ClientStart 0 20; AddLog 0;
   Deliver 5; Answer 5] ++ applyRound 0.

(** Its service compacts up to index 1; the next heartbeat finds [nextIndex] of
    peer 1 behind the snapshot and sends it (call 8).  Then call 6 arrives and
    is acknowledged: 20 is on a majority, committed and applied. *)
Definition secondCommit : list (label Z) :=
  [ServiceSnapshot 0 1 []; Heartbeat 0; Deliver 6; Answer 6] ++ applyRound 0.

(** The snapshot arrives at peer 1 last. *)
Definition lateSnapshot : list (label Z) := [Deliver 8].

(** Peer 1 leads term 2 with the vote of peer 2, and commits and applies 30. *)
Definition secondLeader : list (label Z) :=
  [Timeout 1; Deliver 11; Answer 11; ClientStart 1 30; AddLog 1; Deliver 15; Answer 15] ++ applyRound 1.

Definition beforeSnapshot : list (label Z) := firstCommit ++ secondCommit.
Definition compactionRun : list (label Z) := beforeSnapshot ++ lateSnapshot ++ secondLeader.

(** Peer [i] has delivered [cmd] at [index] to its service. *)
Definition delivered (w : cluster Z) (i : Z) (cmd : Z) (index : Z) : Prop :=
  ∃ sv, idx (servers w) i = Some sv ∧ commandMsg (Some cmd) index ∈ sv_applyCh sv.

Lemma delivered_last (w : cluster Z) i cmd index :
  (sv ← idx (servers w) i; last (sv_applyCh sv)) = Some (commandMsg (Some cmd) index) →
  delivered w i cmd index.
Proof.
  intros H. inv_bind H. eexists. split; [done|]. rewrite last_lookup in H. by eapply list_elem_of_lookup_2.
Qed.

(** The log of peer [i]. *)
Definition logOf (w : cluster Z) (i : Z) : option (list (LogEntry Z)) :=
  sv ← idx (servers w) i; Some (logs (sv_rf sv)).

(** C22: with log compaction and no crash at all, two peers can apply different
    commands at one index.  In the run, peer 1 holds the command 20 at index 2
    that the leader has committed and delivered, the late snapshot of index 1
    erases it, and peer 1 then leads and delivers 30 at index 2. *)
Theorem compaction_breaks_safety :
  ∃ w w1 w2 : cluster Z,
    reachable_nocrash 3 w ∧ delivered w 0 20 2 ∧
    logOf w 1 = Some [mkEntry 0 None; mkEntry 1 (Some 10); mkEntry 1 (Some 20)] ∧
    step (Deliver 8) w = Some w1 ∧ logOf w1 1 = Some [mkEntry 1 None] ∧
    steps secondLeader w1 = Some w2 ∧ reachable_nocrash 3 w2 ∧
    delivered w2 0 20 2 ∧ delivered w2 1 30 2.
Proof.
  exists (runEnd beforeSnapshot), (runEnd (beforeSnapshot ++ lateSnapshot)), (runEnd compactionRun).
  split; [eapply (steps_nocrash 3 beforeSnapshot); [reflexivity|apply rnc_init|vm_compute; reflexivity]|].
  split; [apply delivered_last; vm_compute; reflexivity|].
  do 4 (split; [vm_compute; reflexivity|]).
  split; [eapply (steps_nocrash 3 compactionRun); [reflexivity|apply rnc_init|vm_compute; reflexivity]|].
  split; apply delivered_last; vm_compute; reflexivity.
Qed.

(** ** A snapshot delivered late *)



