(* ===== verification/RaftGhost.v ===== *)
(** * The history behind the replicated log

    The safety of the log is a statement about logs that peers no longer have.
    A [ghost] remembers them: the log of the leader of each term, who
    acknowledged which entry, who promised to stay out of earlier terms, and
    with which last entry each candidate campaigned.  This file has no code of
    the program: it defines what a log owes to the history ([good]), when an
    entry is committed, and proves Leader Completeness from two invariants of
    the history, by intersecting the quorum that acknowledged an entry with the
    quorum that elected a later leader. *)

From S2P Require Import Prelude RaftNode RaftLog RaftElection.

(** ** Terms of a log *)

Section logs.
Context {C : Type}.
Implicit Types l L : list (LogEntry C).

(** [l] has an entry of term [t] at index [i]. *)
Definition has l (i : nat) (t : Z) : Prop := le_Term <$> l !! i = Some t.

#[export] Instance has_dec l i t : Decision (has l i t).
Proof. unfold has. apply _. Defined.

Lemma has_Some l i t : has l i t ↔ ∃ e, l !! i = Some e ∧ le_Term e = t.
Proof. unfold has. rewrite fmap_Some. naive_solver. Qed.

Lemma has_lt l i t : has l i t → (i < length l)%nat.
Proof. intros (e & ?%lookup_lt_Some & _)%has_Some. done. Qed.

Lemma has_ex l i : (i < length l)%nat → ∃ t, has l i t.
Proof. intros [e He]%lookup_lt_is_Some. exists (le_Term e). apply has_Some. eauto. Qed.

Lemma has_fun l i s t : has l i s → has l i t → s = t.
Proof. unfold has. congruence. Qed.

Lemma has_prefix l L i t : l `prefix_of` L → has l i t → has L i t.
Proof. intros Hp (e & He & <-)%has_Some. apply has_Some. exists e. split; [by eapply prefix_lookup_Some|done]. Qed.

Lemma has_prefix_inv l L i t : l `prefix_of` L → (i < length l)%nat → has L i t → has l i t.
Proof. intros Hp [s Hs]%has_ex Ht. by rewrite <- (has_fun _ _ _ _ (has_prefix _ _ _ _ Hp Hs) Ht). Qed.

Lemma has_take l k i t : has (take k l) i t ↔ (i < k)%nat ∧ has l i t.
Proof.
  split.
  - intros H. pose proof (has_lt _ _ _ H) as Hl. rewrite length_take in Hl. split; [lia|].
    eapply has_prefix; [|done]. apply prefix_take.
  - intros [Hk H]. unfold has. by rewrite lookup_take_lt.
Qed.

Lemma has_app l e i t :
  has (l ++ [e]) i t → has l i t ∨ (i = length l ∧ t = le_Term e).
Proof.
  intros (x & [Hx|[Hl Hx]]%lookup_app_Some & <-)%has_Some; [left; apply has_Some; eauto|right].
  apply list_lookup_singleton_Some in Hx as [? ->]. split; [lia|done].
Qed.

Lemma take_S_prefix l L i :
  take (S i) l `prefix_of` L → (i < length l)%nat → take (S i) L = take (S i) l.
Proof.
  intros [k ->] Hi. rewrite take_app_le by (rewrite length_take; lia). rewrite take_take. f_equal. lia.
Qed.

Lemma take_prefix_mono l L k : l `prefix_of` L → take k l `prefix_of` take k L.
Proof. intros [x ->]. rewrite take_app. by apply prefix_app_r. Qed.
End logs.

(** ** The ghost state *)

(** [gl]: the leader of a term and its log; [ga v T i]: peer [v] acknowledged
    the entry of index [i] of the leader of [T]; [gb v T]: [v] voted in [T];
    [gd]: index and term of the last entry a candidate of a term claimed. *)
Record ghost (C : Type) := mkGhost {
  gl : gmap Z (Z * list (LogEntry C));
  ga : Z → Z → nat → Prop;
  gb : Z → Z → Prop;
  gd : gmap (Z * Z) (Z * Z);
}.
Arguments mkGhost {_}.
Arguments gl {_}.
Arguments ga {_}.
Arguments gb {_}.
Arguments gd {_}.

Section ghost.
Context {C : Type} (n : nat).
Implicit Types (G : ghost C) (l L : list (LogEntry C)).

(** A log whose terms are bounded by [b]: it starts with the entry 0 of [Make],
    every other entry has a command, its terms do not decrease, and up to an
    entry of term [t] it is the log of the leader of [t]. *)
Record good G (b : Z) l : Prop := {
  good_zero : l !! 0%nat = Some (mkEntry 0 None);
  good_sorted i j s t : (i ≤ j)%nat → has l i s → has l j t → s ≤ t;
  good_bound i t : has l i t → t ≤ b;
  good_own i t : (1 ≤ i)%nat → has l i t →
    ∃ ld L, gl G !! t = Some (ld, L) ∧ take (S i) l `prefix_of` L;
  good_cmd i e : (1 ≤ i)%nat → l !! i = Some e → is_Some (le_Cmd e);
}.

(** Some leader in [(T, hi]] did not have the entry [i] of the leader of [T]. *)
Definition lost G (T : Z) (i : nat) (hi : Z) : Prop :=
  ∃ T' ld L, T < T' ≤ hi ∧ gl G !! T' = Some (ld, L) ∧ ¬ has L i T.

(** What the vote of [v] in [T'] for a candidate with last entry [last] says
    about an entry [v] acknowledged before: the candidate's log is beyond it. *)
Definition saw G (v T' hi : Z) (last : Z * Z) : Prop :=
  ∀ T i, ga G v T i → T < T' →
    (T < last.2 ∨ T = last.2 ∧ Z.of_nat i ≤ last.1) ∨ lost G T i hi.

(** A majority of the peers. *)
Definition maj (Q : gset Z) : Prop :=
  Q ⊆ list_to_set (range 0 (Z.of_nat n)) ∧ Z.of_nat n ÷ 2 < Z.of_nat (size Q).

(** The leader of [T] with log [L] was elected by a majority that saw its log
    up to an entry [j] of an earlier term. *)
Definition elected G (T : Z) L : Prop :=
  ∃ Q j t, maj Q ∧ has L j t ∧ t < T ∧
    ∀ v, v ∈ Q → gb G v T ∧ saw G v T (T - 1) (Z.of_nat j, t).

(** The entry [i] of the leader of [T], of its own term, is on a majority. *)
Definition committed G (T : Z) (i : nat) : Prop :=
  ∃ ld L Q, gl G !! T = Some (ld, L) ∧ has L i T ∧ maj Q ∧ ∀ v, v ∈ Q → ga G v T i.

(** [l] is part of the log of a leader of a term up to [hi] below an entry it committed. *)
Definition sealed G (hi : Z) l : Prop :=
  ∃ T ld L i, T ≤ hi ∧ gl G !! T = Some (ld, L) ∧ committed G T i ∧ l `prefix_of` take (S i) L.

(** The invariants of the history. *)
Record history G : Prop := {
  h_log T ld L : gl G !! T = Some (ld, L) → good G T L ∧ elected G T L;
  h_ack v T i : ga G v T i → ∃ ld L, gl G !! T = Some (ld, L) ∧ has L i T;
}.

(** *** Log matching for good logs *)

Lemma good_has0 G b l : good G b l → has l 0 0.
Proof. intros [H _ _ _ _]. unfold has. by rewrite H. Qed.

Lemma good_nonneg G b l i t : good G b l → has l i t → 0 ≤ t.
Proof. intros Hg Ht. eapply (good_sorted _ _ _ Hg 0 i); [lia|by eapply good_has0|done]. Qed.

Lemma good_matching G b b' l l' i t :
  good G b l → good G b' l' → has l i t → has l' i t → take (S i) l = take (S i) l'.
Proof.
  intros Hg Hg' Hi Hi'. destruct i as [|i].
  - pose proof (good_zero _ _ _ Hg). pose proof (good_zero _ _ _ Hg').
    destruct l, l'; simplify_eq/=. done.
  - destruct (good_own _ _ _ Hg (S i) t) as (ld & L & HL & Hp); [lia|done|].
    destruct (good_own _ _ _ Hg' (S i) t) as (ld' & L' & HL' & Hp'); [lia|done|]. simplify_eq.
    apply take_S_prefix in Hp; [|by eapply has_lt]. apply take_S_prefix in Hp'; [|by eapply has_lt].
    congruence.
Qed.

(** Agreement at [i] is agreement at every earlier index. *)
Lemma good_agree G b b' l l' i t j s :
  good G b l → good G b' l' → has l i t → has l' i t → (j ≤ i)%nat → has l j s → has l' j s.
Proof.
  intros Hg Hg' Hi Hi' Hj Hs. pose proof (good_matching _ _ _ _ _ _ _ Hg Hg' Hi Hi') as E.
  assert (has (take (S i) l') j s) as [_ ?]%has_take; [|done].
  rewrite <- E. apply has_take. split; [lia|done].
Qed.

Lemma good_mono G b b' l : b ≤ b' → good G b l → good G b' l.
Proof. intros ? [? ? Hb ? ?]. split; try done. intros i t ?%Hb. lia. Qed.

Lemma good_take G b l k : (1 ≤ k)%nat → good G b l → good G b (take k l).
Proof.
  intros Hk [Hz Hs Hb Ho Hc]. split.
  - by rewrite lookup_take_lt by lia.
  - intros i j s t Hij [_ ?]%has_take [_ ?]%has_take. by eapply (Hs i j).
  - intros i t [_ ?]%has_take. by eapply Hb.
  - intros i t Hi [Hlt ?]%has_take. destruct (Ho i t) as (ld & L & HL & Hp); [done|done|].
    exists ld, L. split; [done|]. rewrite take_take. by replace (S i `min` k)%nat with (S i) by lia.
  - intros i e Hi He. apply (Hc i e Hi). eapply prefix_lookup_Some; [exact He|apply prefix_take].
Qed.

(** *** Leader Completeness *)

Lemma maj_meet (Q R : gset Z) : maj Q → maj R → ∃ v, v ∈ Q ∧ v ∈ R.
Proof. intros [? ?] [? ?]. by eapply (majorities_meet n). Qed.

Lemma committed_has G T i ld L :
  gl G !! T = Some (ld, L) → committed G T i → has L i T.
Proof. intros HL (ld' & L' & Q & HL' & Hh & _). by simplify_eq. Qed.

(** The case of a quorum member whose acknowledgement the candidate's log covers. *)
Lemma covered_has G T i L j t T' L' ld :
  history G → gl G !! T = Some (ld, L) → has L i T → good G T' L' → has L' j t →
  (∀ ld'' L'', T < t → gl G !! t = Some (ld'', L'') → has L'' i T) →
  T < t ∨ T = t ∧ Z.of_nat i ≤ Z.of_nat j → has L' i T.
Proof.
  intros Hh HL Hi Hg' Hj IH Hc. destruct (h_log _ Hh _ _ _ HL) as [Hg _].
  pose proof (good_nonneg _ _ _ _ _ Hg Hi) as HT.
  destruct j as [|j].
  { pose proof (has_fun _ _ _ _ Hj (good_has0 _ _ _ Hg')) as ->. destruct Hc as [?|[-> ?]]; [lia|].
    by replace i with 0%nat by lia. }
  destruct (good_own _ _ _ Hg' (S j) t) as (ld'' & L'' & HL'' & Hp); [lia|done|].
  assert (has L'' (S j) t) as Hj'' by (eapply has_prefix; [exact Hp|]; apply has_take; split; [lia|done]).
  destruct (h_log _ Hh _ _ _ HL'') as [Hg'' _].
  assert (has L'' i T ∧ (i ≤ S j)%nat) as [Hi'' Hij].
  { destruct Hc as [Hlt|[-> ?]]; [|by simplify_eq; split; [done|lia]].
    specialize (IH _ _ Hlt HL''). split; [done|].
    destruct (decide (i ≤ S j)%nat); [done|].
    pose proof (good_sorted _ _ _ Hg'' (S j) i t T ltac:(lia) Hj'' IH). lia. }
  by eapply (good_agree _ _ _ _ _ _ _ _ _ Hg'' Hg' Hj'' Hj).
Qed.

(** Leader Completeness: a committed entry is in the log of every later leader. *)
Lemma leader_has G T i T' ld' L' :
  history G → committed G T i → gl G !! T' = Some (ld', L') → T < T' → has L' i T.
Proof.
  intros Hh Hc HL' Hlt. pose proof Hc as (ld & L & Q & HL & Hi & HQ & Hack).
  revert Hlt ld' L' HL'. induction T' as [T' IH] using (well_founded_induction (Z.lt_wf T)).
  intros Hlt ld' L' HL'.
  destruct (h_log _ Hh _ _ _ HL') as [Hg' (R & j & t & HR & Hj & Ht & Hsaw)].
  destruct (maj_meet _ _ HQ HR) as (v & HvQ & HvR).
  destruct (Hsaw _ HvR) as [_ Hv]. destruct (Hv T i (Hack _ HvQ) Hlt) as [Hcov|Hlost].
  - eapply (covered_has _ _ _ _ _ _ _ _ _ Hh HL Hi Hg' Hj); [|exact Hcov].
    intros ld'' L'' ? HL''. eapply (IH t); [lia|lia|exact HL''].
  - destruct Hlost as (T'' & ld'' & L'' & ? & HL'' & Hno). destruct Hno. eapply (IH T''); [lia|lia|exact HL''].
Qed.

(** Two leaders agree on what the earlier one committed. *)
Lemma leader_prefix G T i ld L T' ld' L' :
  history G → committed G T i → gl G !! T = Some (ld, L) → gl G !! T' = Some (ld', L') → T ≤ T' →
  take (S i) L' = take (S i) L.
Proof.
  intros Hh Hc HL HL' Hle. destruct (decide (T = T')) as [->|?]; [by simplify_eq|].
  destruct (h_log _ Hh _ _ _ HL) as [Hg _], (h_log _ Hh _ _ _ HL') as [Hg' _].
  eapply (good_matching _ _ _ _ _ _ T Hg' Hg); [|by eapply committed_has].
  eapply leader_has; [done|done|done|lia].
Qed.

(** What is sealed by a term is in the log of every leader from then on. *)
Lemma sealed_leader G hi l T ld L :
  history G → sealed G hi l → gl G !! T = Some (ld, L) → hi ≤ T → l `prefix_of` L.
Proof.
  intros Hh (T0 & ld0 & L0 & i & HT & HL0 & Hc & Hp) HL Hle.
  rewrite <- (leader_prefix G T0 i ld0 L0 T ld L) in Hp; [|done|done|done|done|lia].
  etrans; [exact Hp|apply prefix_take].
Qed.

(** Sealed lists are prefixes of one another. *)
Lemma sealed_agree G hi hi' l l' k e e' :
  history G → sealed G hi l → sealed G hi' l' → l !! k = Some e → l' !! k = Some e' → e = e'.
Proof.
  intros Hh Hs Hs' He He'.
  pose proof Hs as (T & ld & L & i & _ & HL & Hc & Hp).
  pose proof Hs' as (T' & ld' & L' & i' & _ & HL' & Hc' & Hp').
  destruct (Z.le_ge_cases T T') as [Hle|Hle].
  - rewrite <- (leader_prefix G T i ld L T' ld' L') in Hp by done.
    assert (l `prefix_of` L') by (etrans; [exact Hp|apply prefix_take]).
    assert (l' `prefix_of` L') by (etrans; [exact Hp'|apply prefix_take]).
    assert (L' !! k = Some e) by (by eapply prefix_lookup_Some).
    assert (L' !! k = Some e') by (by eapply prefix_lookup_Some). congruence.
  - rewrite <- (leader_prefix G T' i' ld' L' T ld L) in Hp' by done.
    assert (l `prefix_of` L) by (etrans; [exact Hp|apply prefix_take]).
    assert (l' `prefix_of` L) by (etrans; [exact Hp'|apply prefix_take]).
    assert (L !! k = Some e) by (by eapply prefix_lookup_Some).
    assert (L !! k = Some e') by (by eapply prefix_lookup_Some). congruence.
Qed.

(** *** Histories grow *)

(** [L] grew to [L'] by entries of term [T]. *)
Definition grown (T : Z) L L' : Prop :=
  L `prefix_of` L' ∧ ∀ i t, (length L ≤ i)%nat → has L' i t → t = T.

(** New acknowledgements are of terms no earlier than the votes of the peer. *)
Record gext G G' : Prop := {
  ext_gl T ld L : gl G !! T = Some (ld, L) → ∃ L', gl G' !! T = Some (ld, L') ∧ grown T L L';
  ext_ga v T i : ga G v T i → ga G' v T i;
  ext_new v T i : ga G' v T i → ga G v T i ∨ ∀ T', gb G v T' → T' ≤ T;
  ext_gb v T : gb G v T → gb G' v T;
  ext_gd k x : gd G !! k = Some x → gd G' !! k = Some x;
}.

Lemma grown_refl T L : grown T L L.
Proof. split; [done|]. intros i t ? ?%has_lt. lia. Qed.

Lemma grown_has T L L' i t : grown T L L' → T ≠ t → has L' i t → has L i t.
Proof.
  intros [Hp Hn] Ht Hi. destruct (decide (i < length L)%nat) as [?|?].
  - by eapply has_prefix_inv.
  - destruct Ht. symmetry. eapply Hn; [|done]. lia.
Qed.

Lemma grown_trans T L1 L2 L3 : grown T L1 L2 → grown T L2 L3 → grown T L1 L3.
Proof.
  intros [P1 N1] [P2 N2]. split; [by etrans|]. intros i t Hi Ht.
  destruct (decide (i < length L2)%nat); [|apply (N2 i t); [lia|done]].
  apply (N1 i t); [done|]. by eapply has_prefix_inv.
Qed.

Lemma gext_refl G : gext G G.
Proof. split; eauto using grown_refl. Qed.

Lemma gext_trans G1 G2 G3 : gext G1 G2 → gext G2 G3 → gext G1 G3.
Proof.
  intros [A1 B1 C1 D1 E1] [A2 B2 C2 D2 E2]. split; eauto.
  - intros T ld L (L' & HL' & Hg)%A1. destruct (A2 _ _ _ HL') as (L'' & HL'' & Hg').
    exists L''. split; [done|]. by eapply grown_trans.
  - intros v T i [H%C1|H]%C2; [tauto|]. right. eauto.
Qed.

Lemma good_ext G G' b l : gext G G' → good G b l → good G' b l.
Proof.
  intros He [? ? ? Ho ?]. split; try done. intros i t Hi Ht. destruct (Ho i t Hi Ht) as (ld & L & HL & Hp).
  destruct (ext_gl _ _ He _ _ _ HL) as (L' & HL' & [Hg _]). exists ld, L'. split; [done|]. by etrans.
Qed.

Lemma lost_ext G G' T i hi hi' : gext G G' → hi ≤ hi' → lost G T i hi → lost G' T i hi'.
Proof.
  intros He Hhi (T' & ld & L & HT & HL & Hn). destruct (ext_gl _ _ He _ _ _ HL) as (L' & HL' & Hg).
  exists T', ld, L'. split; [lia|]. split; [done|]. intros Hh. apply Hn. eapply grown_has; [done| |done]. lia.
Qed.

Lemma saw_ext G G' v T' hi last : gext G G' → gb G v T' → saw G v T' hi last → saw G' v T' hi last.
Proof.
  intros He Hb Hs T i Ha Hlt. destruct (ext_new _ _ He _ _ _ Ha) as [Ha'|Hn]; [|apply Hn in Hb; lia].
  destruct (Hs T i Ha' Hlt) as [?|?]; [by left|right]. by eapply lost_ext.
Qed.

Lemma elected_ext G G' T L L' : gext G G' → L `prefix_of` L' → elected G T L → elected G' T L'.
Proof.
  intros He Hp (Q & j & t & HQ & Hj & Ht & Hs). exists Q, j, t. split_and!; try done.
  - by eapply has_prefix.
  - intros v [Hb Hv]%Hs. split; [by eapply ext_gb|by eapply saw_ext].
Qed.

Lemma committed_ext G G' T i : gext G G' → committed G T i → committed G' T i.
Proof.
  intros He (ld & L & Q & HL & Hi & HQ & Ha). destruct (ext_gl _ _ He _ _ _ HL) as (L' & HL' & [Hg _]).
  exists ld, L', Q. split_and!; try done; [by eapply has_prefix|]. intros v Hv. eapply ext_ga; eauto.
Qed.

Lemma sealed_ext G G' hi hi' l : gext G G' → hi ≤ hi' → sealed G hi l → sealed G' hi' l.
Proof.
  intros He Hhi (T & ld & L & i & HT & HL & Hc & Hp).
  destruct (ext_gl _ _ He _ _ _ HL) as (L' & HL' & [Hg _]).
  exists T, ld, L', i. split_and!; try done; [lia|by eapply committed_ext|].
  etrans; [exact Hp|]. by apply take_prefix_mono.
Qed.

Lemma sealed_prefix G hi l l' : l' `prefix_of` l → sealed G hi l → sealed G hi l'.
Proof.
  intros Hp (T & ld & L & i & ? & ? & ? & ?). exists T, ld, L, i. split_and!; try done. by etrans.
Qed.

(** *** The ways a history grows *)

(** Peer [i] campaigns in [T] with the last entry [x]. *)
Definition addCampaign G (i T : Z) (x : Z * Z) : ghost C :=
  mkGhost (gl G) (ga G) (gb G) (<[(i, T) := x]> (gd G)).

(** Peer [v] votes in [T]. *)
Definition addPromise G (v T : Z) : ghost C :=
  mkGhost (gl G) (ga G) (λ v' T', gb G v' T' ∨ v' = v ∧ T' = T) (gd G).

(** Peer [v] acknowledges the entries [P] of the leader of [T]. *)
Definition addAcks G (v T : Z) (P : nat → Prop) : ghost C :=
  mkGhost (gl G) (λ v' T' k, ga G v' T' k ∨ v' = v ∧ T' = T ∧ P k) (gb G) (gd G).

(** The leader of [T] is [i], with the log [L]. *)
Definition addLeader G (T i : Z) L : ghost C :=
  mkGhost (<[T := (i, L)]> (gl G)) (ga G) (gb G) (gd G).

Lemma gext_campaign G i T x : gd G !! (i, T) = None → gext G (addCampaign G i T x).
Proof.
  intros Hn. split; simpl; eauto using grown_refl.
  intros k y Hy. rewrite lookup_insert_ne; [done|]. intros <-. congruence.
Qed.

Lemma gext_promise G v T : gext G (addPromise G v T).
Proof. split; simpl; eauto using grown_refl. Qed.

Lemma gext_acks G v T P : (∀ T', gb G v T' → T' ≤ T) → gext G (addAcks G v T P).
Proof. intros Hb. split; simpl; eauto using grown_refl. intros v' T' k [?|(-> & -> & _)]; eauto. Qed.

Lemma gext_leader G T i L :
  (∀ ld L0, gl G !! T = Some (ld, L0) → ld = i ∧ grown T L0 L) → gext G (addLeader G T i L).
Proof.
  intros Hg. split; simpl; eauto. intros T' ld L0 HL0. destruct (decide (T = T')) as [<-|?].
  - destruct (Hg _ _ HL0) as [-> ?]. rewrite lookup_insert_eq. eauto.
  - rewrite lookup_insert_ne by done. eauto using grown_refl.
Qed.

End ghost.

#[export] Hint Resolve gext_refl grown_refl : go.

(** ** The log of a follower that accepts entries *)

Section accept.
Context {C : Type}.
Implicit Types (G : ghost C) (old L N pre tail entries : list (LogEntry C)).

(** What a follower with log [old] has after it accepted the leader's log [L]
    below [m]: its own log or exactly that part, without losing an entry the
    leader has too. *)
Record accepted old L (m : nat) N : Prop := {
  ac_len : (1 ≤ m ≤ length L)%nat;
  ac_log : N = old ∨ N = take m L;
  ac_new j t : (j < m)%nat → has L j t → has N j t;
  ac_keep i t : has old i t → has L i t → has N i t;
}.

(** The merge either finds everything there or ends with the new entries, and
    then the old log was shorter or disagreed. *)
Lemma mergeEntries_cases G b b' old L pre tail entries :
  good G b old → good G b' L → pre ++ tail = old → pre ++ entries `prefix_of` L →
  (pre ++ mergeEntries tail entries = old ∧ pre ++ entries `prefix_of` old) ∨
  (pre ++ mergeEntries tail entries = pre ++ entries ∧
   (old `prefix_of` pre ++ entries ∨
    ∃ j s t, (j < length (pre ++ entries))%nat ∧ has old j s ∧ has L j t ∧ s ≠ t)).
Proof.
  intros Hg Hg'. revert pre entries. induction tail as [|e tail IH]; intros pre entries Eo Hp.
  { right. split; [by destruct entries|]. left. rewrite <- Eo, app_nil_r. by apply prefix_app_r. }
  destruct entries as [|x entries].
  { left. split; [by destruct tail|]. rewrite app_nil_r, <- Eo. by apply prefix_app_r. }
  assert (has old (length pre) (le_Term e)) as Ho
    by (apply has_Some; exists e; by rewrite <- Eo, list_lookup_middle).
  assert (has L (length pre) (le_Term x)) as HL.
  { eapply has_prefix; [exact Hp|]. apply has_Some. exists x. by rewrite list_lookup_middle. }
  cbn [mergeEntries]. destruct (Z.eqb_spec (le_Term e) (le_Term x)) as [E|E].
  - assert (e = x) as <-.
    { rewrite <- E in HL. pose proof (good_matching _ _ _ _ _ _ _ Hg Hg' Ho HL) as Et.
      assert (L !! length pre = Some x) as Hx by (eapply prefix_lookup_Some; [|exact Hp]; by rewrite list_lookup_middle).
      assert (old !! length pre = Some e) as He by (by rewrite <- Eo, list_lookup_middle).
      rewrite <- (lookup_take_lt _ (S (length pre))) in Hx by lia.
      rewrite <- (lookup_take_lt _ (S (length pre))) in He by lia. congruence. }
    destruct (IH (pre ++ [e]) entries) as [H|H]; rewrite <- !app_assoc in *; simpl in *; auto.
  - right. split; [done|]. right. exists (length pre), (le_Term e), (le_Term x).
    split_and!; try done. rewrite length_app. simpl. lia.
Qed.

Lemma mergeEntries_accepted G b b' old L (p : nat) t entries :
  good G b old → good G b' L → has old p t → has L p t → entries `prefix_of` drop (S p) L →
  accepted old L (S p + length entries) (take (S p) old ++ mergeEntries (drop (S p) old) entries).
Proof.
  intros Hg Hg' Ho HL He. pose proof (good_matching _ _ _ _ _ _ _ Hg Hg' Ho HL) as Et.
  assert (take (S p) old ++ entries `prefix_of` L) as Hp.
  { rewrite Et. destruct He as [k Hk]. exists k. by rewrite <- app_assoc, <- Hk, take_drop. }
  assert (length (take (S p) old ++ entries) = S p + length entries)%nat as Hlen.
  { rewrite length_app, length_take. apply has_lt in Ho. lia. }
  assert (take (S p) old ++ entries = take (S p + length entries) L) as Em.
  { rewrite <- Hlen. destruct Hp as [k ->]. by rewrite take_app_length. }
  pose proof (prefix_length _ _ Hp) as Hle. rewrite Hlen in Hle.
  destruct (mergeEntries_cases _ _ _ _ _ _ (drop (S p) old) entries Hg Hg' (take_drop _ _) Hp) as [[-> Hpo]|[-> Hc]].
  - split; [lia|by left| |done]. intros j s Hj Hs. eapply has_prefix; [exact Hpo|].
    rewrite Em. apply has_take. by split.
  - split; [lia|by right| |].
    + intros j s Hj Hs. rewrite Em. apply has_take. by split.
    + intros i s Hi Hi'. rewrite Em. apply has_take. split; [|done]. destruct Hc as [Hpre|(j & s1 & s2 & Hj & H1 & H2 & Hne)].
      * apply prefix_length in Hpre. apply has_lt in Hi. lia.
      * rewrite Hlen in Hj. destruct (decide (i < j)%nat); [lia|]. destruct Hne.
        eapply has_fun; [|exact H2]. eapply (good_agree _ _ _ _ _ i s j s1 Hg Hg'); [done|done|lia|done].
Qed.

Lemma accepted_good G b b' old L m N :
  good G b old → good G b' L → b ≤ b' → accepted old L m N → good G b' N.
Proof.
  intros Hg Hg' Hb [Hm [->| ->] _ _]; [by eapply good_mono|]. by apply good_take; [lia|].
Qed.

(** A prefix of the old log that the leader has too is still there. *)
Lemma accepted_prefix G b b' old L m N (c : nat) :
  good G b old → good G b' L → b ≤ b' → accepted old L m N →
  (c < length old)%nat → take (S c) old `prefix_of` L → take (S c) N = take (S c) old.
Proof.
  intros Hg Hg' Hb Ha Hc Hp. destruct (has_ex _ _ Hc) as [t Ht].
  assert (has N c t) as Hn.
  { eapply (ac_keep _ _ _ _ Ha); [done|]. eapply has_prefix; [exact Hp|]. apply has_take. split; [lia|done]. }
  eapply (good_matching G b' b); [|exact Hg|exact Hn|exact Ht]. by eapply (accepted_good G b b' old L m).
Qed.
End accept.
