(* ===== verification/RaftInvariant.v ===== *)
(** * The invariant of the replicated logs

    For runs without crashes in which the services compact the logs of their own
    peers, and no peer installs the snapshot of another ([reachable_keeps]): what every peer ([peerOk],
    [serverOk]) and every RPC of the table ([callOk]) owe to the history of [RaftGhost], and how the
    invariant survives when one peer moves, starts RPCs or answers one.  A peer is
    accounted for by its whole log, of which it has the part after its snapshot ([view]). *)

From S2P Require Import Prelude Persister RaftNode RaftFollower RaftLeader RaftApplier RaftCluster RaftElection RaftLog RaftDelivery RaftGhost.

Section definitions.
Context {C : Type} `{!Gob (PersistentStatus C)} (n : nat).
Implicit Types (G : ghost C) (w : cluster C) (c : call C) (rf : Raft C) (sv : server C).

(** ** Runs *)

(** [InstallSnapshot] gets past its early returns. *)
Definition overwrites (a : InstallSnapshotArgs) rf : bool :=
  (currentTerm rf <=? isa_Term a) && (lastIncludedIndex rf <? isa_LastIncludedIndex a) && (commitIndex rf <? isa_LastIncludedIndex a).

(** No crash, a call of [Snapshot] only for what the service has received, and no snapshot installed. *)
Definition keeps (l : label C) w : bool :=
  match l with
  | Restart _ => false
  | ServiceSnapshot i index _ =>
      match idx (servers w) i with Some sv => index <=? zlen (sv_applyCh sv) | None => true end
  | Deliver k =>
      match calls w !! k with
      | Some c => match c_args c, idx (servers w) (c_dst c) with
                  | CallInstallSnapshot a, Some sv => negb (overwrites a (sv_rf sv))
                  | _, _ => true
                  end
      | None => true
      end
  | _ => true
  end.

Inductive laterKeeps w : cluster C → Prop :=
  | lk_refl : laterKeeps w w
  | lk_step w1 l w2 : laterKeeps w w1 → keeps l w1 = true → step l w1 = Some w2 → laterKeeps w w2.

Definition reachable_keeps w : Prop := laterKeeps (initCluster n) w.

(** Neither a crash nor a call of [Snapshot]. *)
Definition isPlain (l : label C) : bool :=
  match l with Restart _ | ServiceSnapshot _ _ _ => false | _ => true end.

Inductive laterPlain w : cluster C → Prop :=
  | lp_refl : laterPlain w w
  | lp_step w1 l w2 : laterPlain w w1 → isPlain l = true → step l w1 = Some w2 → laterPlain w w2.

Definition reachable_plain w : Prop := laterPlain (initCluster n) w.

(** ** The invariant *)

(** Index [c] of the log [l] is inside it, and the log up to [c] is sealed. *)
Definition covered G (b : Z) (l : list (LogEntry C)) (c : Z) : Prop :=
  0 ≤ c < zlen l ∧ (c = 0 ∨ sealed n G b (take (S (Z.to_nat c)) l)).

(** [F] is the whole log of the peer, which has it from its snapshot on. *)
Record view (F : list (LogEntry C)) rf : Prop := {
  v_range : 0 ≤ lastIncludedIndex rf ≤ commitIndex rf;
  v_logs : ∃ t, has F (Z.to_nat (lastIncludedIndex rf)) t ∧
    logs rf = mkEntry t None :: drop (S (Z.to_nat (lastIncludedIndex rf))) F;
}.

Record peerOk G (i : Z) F rf : Prop := {
  p_view : view F rf;
  p_good : good G (currentTerm rf) F;
  p_mlen : zlen (matchIndex rf) = npeers rf;
  p_applied : 0 ≤ lastApplied rf;
  p_leader : state rf = Leader →
    gl G !! currentTerm rf = Some (i, F) ∧
    (∀ j, has F j (currentTerm rf) → ga G i (currentTerm rf) j) ∧
    ∀ p m, idx (matchIndex rf) p = Some m → m < zlen F ∧
      ∀ j, Z.of_nat j ≤ m → has F j (currentTerm rf) → ga G p (currentTerm rf) j;
  p_cand : state rf = Candidate →
    ∃ t, has F (length F - 1) t ∧ t < currentTerm rf ∧
      gd G !! (i, currentTerm rf) = Some (zlen F - 1, t);
  p_led T L : gl G !! T = Some (i, L) →
    T < currentTerm rf ∨ T = currentTerm rf ∧ state rf ≠ Candidate;
  p_camp T x : gd G !! (i, T) = Some x → T ≤ currentTerm rf;
  p_ack T k : ga G i T k →
    T ≤ currentTerm rf ∧ (has F k T ∨ lost G T k (currentTerm rf));
  p_prom T : gb G i T → T ≤ currentTerm rf;
  p_commit : covered G (currentTerm rf) F (commitIndex rf);
}.

(** A message to the service is the command sealed at its index. *)
Definition delivered G (m : ApplyMsg C) : Prop :=
  0 ≤ CommandIndex m ∧
  ∃ hi l e, sealed n G hi l ∧ l !! Z.to_nat (CommandIndex m) = Some e ∧
    m = commandMsg (le_Cmd e) (CommandIndex m).

Record serverOk G (i : Z) sv : Prop := {
  s_peer : ∃ F, peerOk G i F (sv_rf sv);
  s_taken : lastIncludedIndex (sv_rf sv) ≤ zlen (sv_applyCh sv);
  s_order : inOrder [] 0 sv;
  s_msgs m : m ∈ sv_applyCh sv ++ pending (sv_applier sv) → delivered G m;
}.

(** The follower accepted the entries of this call. *)
Definition acked (s : call_status) : bool :=
  match s with
  | Executed (ReplyAppendEntries r) | Returned (Some (ReplyAppendEntries r)) => aer_Success r
  | _ => false
  end.

(** The follower kept its log on this call of a leader of term [T], which it follows. *)
Definition held (T : Z) (s : call_status) : bool :=
  match s with
  | Executed (ReplyInstallSnapshot r) | Returned (Some (ReplyInstallSnapshot r)) => isr_Term r <=? T
  | _ => false
  end.

(** The request [a] is a slice of the leader's log [L], with a commit index inside it. *)
Record sliceOf G L (a : AppendEntriesArgs C) : Prop := {
  sl_prev : 0 ≤ aea_PrevLogIndex a;
  sl_term : has L (Z.to_nat (aea_PrevLogIndex a)) (aea_PrevLogTerm a);
  sl_entries : aea_Entries a `prefix_of` drop (S (Z.to_nat (aea_PrevLogIndex a))) L;
  sl_commit : covered G (aea_Term a) L (aea_LeaderCommit a);
  sl_inside : aea_LeaderCommit a ≤ aea_PrevLogIndex a + zlen (aea_Entries a);
}.

Definition callOk G c : Prop :=
  match c_args c with
  | CallRequestVote a =>
      gd G !! (c_src c, rva_Term a) = Some (rva_LastLogIndex a, rva_LastLogTerm a) ∧
      (granted (c_status c) = true →
       gb G (c_dst c) (rva_Term a) ∧
       saw G (c_dst c) (rva_Term a) (rva_Term a) (rva_LastLogIndex a, rva_LastLogTerm a))
  | CallAppendEntries a =>
      ∃ L, gl G !! aea_Term a = Some (c_src c, L) ∧ sliceOf G L a ∧
      (acked (c_status c) = true →
       ∀ j, Z.of_nat j ≤ aea_PrevLogIndex a + zlen (aea_Entries a) →
            has L j (aea_Term a) → ga G (c_dst c) (aea_Term a) j)
  | CallInstallSnapshot a =>
      ∃ L, gl G !! isa_Term a = Some (c_src c, L) ∧ 0 ≤ isa_LastIncludedIndex a < zlen L ∧
      (held (isa_Term a) (c_status c) = true →
       ∀ j, Z.of_nat j ≤ isa_LastIncludedIndex a → has L j (isa_Term a) → ga G (c_dst c) (isa_Term a) j)
  end.

Record linv G w : Prop := {
  l_hist : history n G;
  l_won T ld L : gl G !! T = Some (ld, L) → won n w ld T ∧ 0 ≤ ld < Z.of_nat n;
  l_servers i sv : idx (servers w) i = Some sv → serverOk G i sv;
  l_calls k c : calls w !! k = Some c → callOk G c;
}.

(** The history changes only in what concerns peer [i]. *)
Record owns (i : Z) G G' : Prop := {
  o_gl T v L : v ≠ i → gl G' !! T = Some (v, L) → gl G !! T = Some (v, L);
  o_ga v T k : v ≠ i → ga G' v T k → ga G v T k;
  o_gb v T : v ≠ i → gb G' v T → gb G v T;
  o_gd v T x : v ≠ i → gd G' !! (v, T) = Some x → gd G !! (v, T) = Some x;
}.

Lemma owns_refl i G : owns i G G.
Proof. by split. Qed.

Lemma owns_campaign i G T x : owns i G (addCampaign G i T x).
Proof. split; simpl; try done. intros v T' y ?. rewrite lookup_insert_ne by congruence. done. Qed.

Lemma owns_promise i G T : owns i G (addPromise G i T).
Proof. split; simpl; try done. intros v T' ? [?|[? _]]; done. Qed.

Lemma owns_acks i G T P : owns i G (addAcks G i T P).
Proof. split; simpl; try done. intros v T' k ? [?|[? _]]; done. Qed.

Lemma owns_leader i G T L : owns i G (addLeader G T i L).
Proof.
  split; simpl; try done. intros T' v L' ?. rewrite lookup_insert_Some. intros [[_ ?]|[_ ?]]; congruence.
Qed.

Lemma owns_trans i G1 G2 G3 : owns i G1 G2 → owns i G2 G3 → owns i G1 G3.
Proof. intros [? ? ? ?] [? ? ? ?]. split; eauto. Qed.

(** ** What survives a growing history *)

Lemma covered_ext G G' b b' l l' x :
  gext G G' → b ≤ b' → l `prefix_of` l' → covered G b l x → covered G' b' l' x.
Proof.
  intros He Hb Hp [Hc Hs]. pose proof (prefix_length _ _ Hp). split; [unfold zlen in *; lia|].
  destruct Hs as [?|Hs]; [by left|right].
  assert (take (S (Z.to_nat x)) l' = take (S (Z.to_nat x)) l) as ->.
  { destruct Hp as [k ->]. rewrite take_app_le; [done|]. unfold zlen in Hc. lia. }
  by eapply sealed_ext.
Qed.

Lemma delivered_ext G G' m : gext G G' → delivered G m → delivered G' m.
Proof.
  intros He [? (hi & l & e & Hs & ?)]. split; [done|]. exists hi, l, e. split; [|done].
  by eapply sealed_ext.
Qed.

Lemma sliceOf_ext G G' L L' a :
  gext G G' → L `prefix_of` L' → sliceOf G L a → sliceOf G' L' a.
Proof.
  intros He Hp [? Ht Hs Hc ?]. split; try done.
  - by eapply has_prefix.
  - etrans; [exact Hs|]. destruct Hp as [k ->]. rewrite drop_app. by apply prefix_app_r.
  - by eapply covered_ext.
Qed.

Lemma sliceOf_length G L a :
  sliceOf G L a → aea_PrevLogIndex a + zlen (aea_Entries a) < zlen L.
Proof.
  intros [? Ht%has_lt Hs%prefix_length _ _]. rewrite length_drop in Hs. unfold zlen. lia.
Qed.

Lemma callOk_ext G G' c : gext G G' → callOk G c → callOk G' c.
Proof.
  intros He. unfold callOk. destruct (c_args c) as [a|a|a].
  - intros [Hd Hg]. split; [by eapply ext_gd|]. intros [Hb Hs]%Hg.
    split; [by eapply ext_gb|by eapply saw_ext].
  - intros (L & HL & Hs & Ha). destruct (ext_gl _ _ He _ _ _ HL) as (L' & HL' & [Hp _]).
    exists L'. split; [done|]. split; [by eapply sliceOf_ext|]. intros Hk j Hj Hh.
    eapply ext_ga; [done|]. apply Ha; [done|done|]. eapply has_prefix_inv; [exact Hp| |done].
    apply sliceOf_length in Hs. unfold zlen in *. lia.
  - intros (L & HL & Hi & Ha). destruct (ext_gl _ _ He _ _ _ HL) as (L' & HL' & [Hp _]). pose proof (prefix_length _ _ Hp).
    exists L'. split; [done|]. split; [unfold zlen in *; lia|]. intros Hk j Hj Hh. eapply ext_ga; [done|]. apply Ha; [done|done|].
    eapply has_prefix_inv; [exact Hp| |done]. unfold zlen in *. lia.
Qed.

(** A peer under a history that grows by nothing it would have to account for. *)
Lemma peerOk_grow G G' i F rf :
  gext G G' → peerOk G i F rf →
  (∀ T L, gl G' !! T = Some (i, L) → gl G !! T = Some (i, L)) →
  (∀ T x, gd G' !! (i, T) = Some x → gd G !! (i, T) = Some x ∨ T ≤ currentTerm rf) →
  (∀ T k, ga G' i T k → ga G i T k ∨ T ≤ currentTerm rf ∧ has F k T) →
  (∀ T, gb G' i T → gb G i T ∨ T ≤ currentTerm rf) →
  peerOk G' i F rf.
Proof.
  intros He [Hv Hg Hm Hap Hld Hcd Hled Hcp Hak Hpr Hco] Ngl Ngd Nga Ngb. split; try done.
  - by eapply good_ext.
  - intros (HL & Hown & Hms)%Hld. split; [|split].
    + destruct (ext_gl _ _ He _ _ _ HL) as (L' & HL' & _). pose proof (Ngl _ _ HL'). congruence.
    + intros k ?. eapply ext_ga; eauto.
    + intros p m [? Hj]%Hms. split; [done|]. intros k ? ?. eapply ext_ga; eauto.
  - intros (t & ? & ? & ?)%Hcd. exists t. split_and!; try done. by eapply ext_gd.
  - intros T L HL%Ngl. eauto.
  - intros T x [Hx|?]%Ngd; eauto.
  - intros T k [Hk|[? ?]]%Nga; [|auto]. destruct (Hak _ _ Hk) as [? [?|?]]; split; auto.
    right. eapply (lost_ext G G' _ _ (currentTerm rf)); [done|lia|done].
  - intros T [HT|?]%Ngb; eauto.
  - by eapply covered_ext.
Qed.

Lemma peerOk_ext G G' i j F rf : gext G G' → owns i G G' → j ≠ i → peerOk G j F rf → peerOk G' j F rf.
Proof.
  intros He [Ngl Nga Ngb Ngd] Hne Hp. eapply peerOk_grow; [done|done|..]; [by eauto|intros; left; by eauto..].
Qed.

Lemma serverOk_ext G G' i j sv :
  gext G G' → owns i G G' → j ≠ i → serverOk G j sv → serverOk G' j sv.
Proof.
  intros He Ho Hne [[F Hp] Ht Hs Hm]. split; [exists F; by eapply peerOk_ext|done|done|].
  intros m ?%Hm. by eapply delivered_ext.
Qed.

Lemma history_ext G G' :
  gext G G' → history n G →
  (∀ T ld L, gl G' !! T = Some (ld, L) →
     gl G !! T = Some (ld, L) ∨ (good G' T L ∧ elected n G' T L)) →
  (∀ v T i, ga G' v T i → ga G v T i ∨ ∃ ld L, gl G' !! T = Some (ld, L) ∧ has L i T) →
  history n G'.
Proof.
  intros He [Hl Ha] Hnl Hna. split.
  - intros T ld L [HL|?]%Hnl; [|done]. destruct (Hl _ _ _ HL). split; [by eapply good_ext|by eapply elected_ext].
  - intros v T i [H|?]%Hna; [|done]. destruct (Ha _ _ _ H) as (ld & L & HL & Hh).
    destruct (ext_gl _ _ He _ _ _ HL) as (L' & HL' & [Hp _]). exists ld, L'. split; [done|by eapply has_prefix].
Qed.

(** ** Moves *)

(** Peer [i] moves, with the RPCs [cs] it starts. *)
Lemma linv_move G G' w w' i sv sv' cs :
  linv G w → idx (servers w) i = Some sv → gext G G' → owns i G G' → evolves w w' →
  servers w' = <[Z.to_nat i := sv']> (servers w) → calls w' = calls w ++ cs →
  (∀ T ld L, gl G' !! T = Some (ld, L) →
     gl G !! T = Some (ld, L) ∨
     (good G' T L ∧ elected n G' T L ∧ won n w' ld T ∧ 0 ≤ ld < Z.of_nat n)) →
  (∀ v T k, ga G' v T k → ga G v T k ∨ ∃ ld L, gl G' !! T = Some (ld, L) ∧ has L k T) →
  serverOk G' i sv' → (∀ c, c ∈ cs → callOk G' c) → linv G' w'.
Proof.
  intros [Hh Hw Hs Hc] Hi He Ho Hev Es Ec Hnl Hna Hsv Hcs. split.
  - eapply history_ext; [done|done| |done]. intros T ld L [?|(?&?&?)]%Hnl; auto.
  - intros T ld L [HL|(? & ? & ?)]%Hnl; [|done]. destruct (Hw _ _ _ HL). split; [by eapply won_evolves|done].
  - rewrite Es. intros j sj [[-> ->]|[Hne Hj]]%(idx_insert_inv _ _ _ _ _ _ Hi); [done|].
    eapply serverOk_ext; eauto.
  - rewrite Ec. intros k c [Hk|[_ Hk]]%lookup_app_Some; [eapply callOk_ext; eauto|].
    apply Hcs. by eapply list_elem_of_lookup_2.
Qed.

(** A call changes its status. *)
Lemma linv_status G w k c s :
  linv G w → calls w !! k = Some c → (∀ r, c_status c ≠ Returned r) →
  callOk G (mkCall (c_src c) (c_dst c) (c_args c) s (c_alive c)) → linv G (setStatus k c s w).
Proof.
  intros [Hh Hw Hs Hc] Hk Hr Hok. split; [done| |done|].
  - intros T ld L [? ?]%Hw. split; [|done]. eapply won_evolves; [|done]. by apply evolves_setStatus.
  - simpl. intros j c' [(-> & <- & _)|[_ Hj]]%list_lookup_insert_Some; [done|by eapply Hc].
Qed.

(** A status that records no vote and no acknowledgement is fine. *)
Lemma callOk_status G c s :
  callOk G c → (granted s = true → granted (c_status c) = true) →
  (acked s = true → acked (c_status c) = true) → (∀ T, held T s = true → held T (c_status c) = true) →
  callOk G (mkCall (c_src c) (c_dst c) (c_args c) s (c_alive c)).
Proof. unfold callOk. simpl. destruct (c_args c); naive_solver. Qed.

(** ** What a peer has of its log *)

Lemma view_length F rf : view F rf → lastIncludedIndex rf < zlen F ∧ zlen (logs rf) = zlen F - lastIncludedIndex rf.
Proof.
  intros [Hr (t & Ht & ->)]. apply has_lt in Ht. rewrite zlen_cons. unfold zlen. rewrite length_drop. lia.
Qed.

Lemma view_last F rf : view F rf → lastLogIndex rf = zlen F - 1 ∧ realLogLen rf = zlen F.
Proof. intros [_ E]%view_length. unfold lastLogIndex, realLogLen. lia. Qed.

(** The entries after the snapshot are there, and its own entry has the term. *)
Lemma view_entry F rf k : view F rf → lastIncludedIndex rf < k → entryAt rf k = F !! Z.to_nat k.
Proof.
  intros [Hr (t & _ & E)] Hk. unfold entryAt, logIndex. rewrite E, idx_cons_pos by lia. unfold idx.
  destruct (Z.leb_spec 0 (k - lastIncludedIndex rf - 1)); [|lia]. rewrite lookup_drop. f_equal. lia.
Qed.

Lemma view_has F rf k t : view F rf → lastIncludedIndex rf ≤ k →
  le_Term <$> entryAt rf k = Some t ↔ has F (Z.to_nat k) t.
Proof.
  intros Hv Hk. destruct (decide (k = lastIncludedIndex rf)) as [->|].
  - destruct Hv as [Hr (t' & Ht & E)]. unfold entryAt, logIndex. rewrite Z.sub_diag, E, idx_cons_0. simpl. split.
    + intros [= <-]. done.
    + intros Ht'. f_equal. by eapply has_fun.
  - rewrite (view_entry F) by (done || lia). done.
Qed.

Lemma view_drop F rf k : view F rf → lastIncludedIndex rf < k → drop (Z.to_nat (logIndex rf k)) (logs rf) = drop (Z.to_nat k) F.
Proof.
  intros [Hr (t & _ & ->)] Hk. unfold logIndex. replace (Z.to_nat (k - lastIncludedIndex rf)) with (S (Z.to_nat (k - lastIncludedIndex rf - 1))) by lia.
  simpl. rewrite drop_drop. f_equal. lia.
Qed.

Lemma view_lastTerm F rf t : view F rf → lastLogTerm rf = Some t → has F (length F - 1) t.
Proof.
  intros Hv Ht. pose proof (view_length _ _ Hv) as [Hlt Hlen]. pose proof (v_range _ _ Hv) as Hr.
  assert (le_Term <$> entryAt rf (zlen F - 1) = Some t) as H.
  { unfold entryAt, logIndex. unfold lastLogTerm in Ht. destruct (Z.ltb_spec (zlen (logs rf)) 2) as [H2|_].
    - by replace (zlen F - 1 - lastIncludedIndex rf) with 0 by lia.
    - by replace (zlen F - 1 - lastIncludedIndex rf) with (zlen (logs rf) - 1) by lia. }
  apply (view_has F) in H; [|done|lia]. by replace (length F - 1)%nat with (Z.to_nat (zlen F - 1)) by (unfold zlen; lia).
Qed.

Lemma view_nonempty F rf : view F rf → logs rf ≠ [].
Proof. intros [_ (t & _ & ->)]. done. Qed.

(** The same log, after a method that kept log and snapshot point. *)
Lemma view_same F rf rf' : view F rf → logs rf' = logs rf → lastIncludedIndex rf' = lastIncludedIndex rf →
  commitIndex rf ≤ commitIndex rf' → view F rf'.
Proof. intros [Hr Hl] E1 E2 Hc. split; [lia|]. by rewrite E1, E2. Qed.
End definitions.
