(* ===== verification/RaftPreserve.v ===== *)
(** * Every action keeps the invariant of the logs

    One lemma per kind of action: methods that leave the log, the commit index
    and the match indices alone ([calm]), the start of an election, the grant of
    a vote, the promotion of a candidate, an appended command, accepted
    entries, an acknowledgement counted by the leader, a step of the applier. *)

From S2P Require Import Prelude Persister RaftNode RaftFollower RaftLeader RaftApplier RaftCluster RaftElection RaftLog RaftCommit RaftDelivery RaftGhost RaftInvariant.

Section calm.
Context {C : Type} `{!Gob (PersistentStatus C)} (n : nat).
Implicit Types (G : ghost C) (w : cluster C) (c : call C) (rf : Raft C) (sv : server C).

(** The method leaves alone what the invariant says of the peer, but for the
    term, which may grow, and the role, which is lost with the term. *)
Record calm rf rf' : Prop := {
  c_logs : logs rf' = logs rf;
  c_lii : lastIncludedIndex rf' = lastIncludedIndex rf;
  c_commit : commitIndex rf' = commitIndex rf;
  c_applied : lastApplied rf' = lastApplied rf;
  c_npeers : npeers rf' = npeers rf;
  c_mlen : zlen (matchIndex rf') = zlen (matchIndex rf);
  c_match p m' : idx (matchIndex rf') p = Some m' →
    ∃ m, idx (matchIndex rf) p = Some m ∧ m' ≤ Z.max m 0;
  c_term : currentTerm rf ≤ currentTerm rf';
  c_state : state rf' ≠ Follower → state rf' = state rf ∧ currentTerm rf' = currentTerm rf;
}.

Lemma calm_refl rf : calm rf rf.
Proof. split; try done. intros p m ->. exists m. split; [done|lia]. Qed.

(** The calls and goroutines of [es] are in order. *)
Definition okEffects G (i : Z) (es : list (effect C)) : Prop :=
  (∀ c, c ∈ callsOf i es → callOk n G c) ∧ ∀ msg, GoApplySnapshot msg ∉ es.

Lemma okEffects_nil G i : okEffects G i [].
Proof. split; [intros c Hc|intros msg Hc]; by apply elem_of_nil in Hc. Qed.

Lemma okEffects_app G i es es' : okEffects G i es → okEffects G i es' → okEffects G i (es ++ es').
Proof.
  intros [H1 H2] [H3 H4]. split.
  - intros c. unfold callsOf. rewrite omap_app, elem_of_app. intros [?|?]; auto.
  - intros msg. rewrite elem_of_app. intros [?|?]; [by eapply H2|by eapply H4].
Qed.

Lemma okEffects_cons G i e es :
  match e with ResetElectionTimer | ResetHeartbeatTicker | CondSignal | GoAddLogSignal => True | _ => False end →
  okEffects G i es → okEffects G i (e :: es).
Proof.
  intros He [H1 H2]. split.
  - by destruct e.
  - intros msg. rewrite elem_of_cons. intros [<-|?]; [done|by eapply H2].
Qed.

(** The leader of a term is in a positive term. *)
Lemma leader_positive G T ld L : history n G → gl G !! T = Some (ld, L) → 0 < T.
Proof.
  intros Hh HL. destruct (h_log _ _ Hh _ _ _ HL) as [Hg (Q & j & t & _ & Hj & Ht & _)].
  pose proof (good_nonneg _ _ _ _ _ Hg Hj). lia.
Qed.

Lemma peerOk_calm G i F rf rf' : history n G → calm rf rf' → peerOk n G i F rf → peerOk n G i F rf'.
Proof.
  intros Hh [El Ei Ec Ea En Em Hm Ht Hs] [Hv Hg Hml Hap Hld Hcd Hled Hcp Hak Hpr Hco].
  split; rewrite ?Ec, ?Ea, ?En, ?Em; try done.
  - eapply view_same; eauto. lia.
  - by eapply good_mono.
  - intros Est. destruct Hs as [E1 E2]; [congruence|]. rewrite E2. rewrite Est in E1.
    destruct (Hld (eq_sym E1)) as (HL & Hown & Hms). split; [done|]. split; [done|]. intros p m' (m & Hp & Hle)%Hm.
    destruct (Hms _ _ Hp) as [? Hj]. destruct Hco as [? _]. split; [lia|].
    intros j Hjm Hjt. apply Hj; [|done]. destruct (decide (Z.of_nat j ≤ m)); [done|].
    exfalso. assert (j = 0%nat) as -> by lia.
    pose proof (has_fun _ _ _ _ Hjt (good_has0 _ _ _ Hg)). pose proof (leader_positive _ _ _ _ Hh HL). lia.
  - intros Est. destruct Hs as [E1 E2]; [congruence|]. rewrite E2. rewrite Est in E1. auto.
  - intros T L [?|[-> Hne]]%Hled; [left; lia|].
    destruct (decide (currentTerm rf' = currentTerm rf)) as [E|?]; [|left; lia].
    right. split; [done|]. intros E'. destruct Hs as [? _]; congruence.
  - intros T x ?%Hcp. lia.
  - intros T k [? Hk]%Hak. split; [lia|]. destruct Hk as [?|?]; [by left|right].
    by eapply (lost_ext G G _ _ (currentTerm rf)); [apply gext_refl|lia|].
  - intros T ?%Hpr. lia.
  - eapply (covered_ext n G G (currentTerm rf)); [apply gext_refl|lia|done|done].
Qed.

(** The server after a method that started no snapshot goroutine. *)
Lemma serverOk_put G i sv rf es :
  (∀ msg, GoApplySnapshot msg ∉ es) →
  (∀ msg, msg ∈ sv_applyCh sv ++ pending (sv_applier sv) → delivered n G msg) →
  inOrder [] 0 sv → lastApplied rf = lastApplied (sv_rf sv) → lastIncludedIndex rf ≤ zlen (sv_applyCh sv) →
  (∃ F, peerOk n G i F rf) →
  serverOk n G i (spawnLocal es (mkServer rf (sv_applier sv) (sv_snaps sv) (sv_signals sv) (sv_applyCh sv))).
Proof.
  intros Hes Hms [? ? ? ? ?] Ela Hli Hp.
  destruct (spawnLocal_plain es (mkServer rf (sv_applier sv) (sv_snaps sv) (sv_signals sv) (sv_applyCh sv)) Hes)
    as (E1 & E2 & E3 & E4).
  split; rewrite ?E1, ?E2, ?E3, ?E4; [done|done| |done].
  split; unfold undelivered in *; rewrite ?E1, ?E2, ?E3, ?E4; simpl; rewrite ?Ela; done.
Qed.

(** One peer runs a method, with a history that grows for it. *)
Lemma linv_put G G' w i sv F rf es :
  linv n G w → idx (servers w) i = Some sv → gext G G' → owns i G G' →
  (∀ T ld L, gl G' !! T = Some (ld, L) →
     gl G !! T = Some (ld, L) ∨
     (good G' T L ∧ elected n G' T L ∧ won n w ld T ∧ 0 ≤ ld < Z.of_nat n)) →
  (∀ v T k, ga G' v T k → ga G v T k ∨ ∃ ld L, gl G' !! T = Some (ld, L) ∧ has L k T) →
  lastApplied rf = lastApplied (sv_rf sv) → lastIncludedIndex rf ≤ zlen (sv_applyCh sv) →
  peerOk n G' i F rf → okEffects G' i es →
  linv n G' (putServer i sv rf es w).
Proof.
  intros Hl Hi He Ho Hnl Hna Ela Hli Hp [Hcs Hes]. eapply (linv_move n G G' w); try done.
  - apply evolves_putServer.
  - intros T ld L [?|(? & ? & ? & ?)]%Hnl; [by left|right]. split_and!; try done; try lia.
    eapply won_evolves; [apply evolves_putServer|done].
  - destruct (l_servers _ _ _ Hl _ _ Hi) as [_ _ Hs Hm]. apply serverOk_put; try done; [|by exists F].
    intros msg ?%Hm. by eapply delivered_ext.
Qed.

(** The peer of a server, with its whole log. *)
Lemma linv_peer G w i sv : linv n G w → idx (servers w) i = Some sv →
  (∃ F, peerOk n G i F (sv_rf sv)) ∧ lastIncludedIndex (sv_rf sv) ≤ zlen (sv_applyCh sv).
Proof. intros Hl Hi. by destruct (l_servers _ _ _ Hl _ _ Hi). Qed.

Lemma linv_calm G w i sv rf es :
  linv n G w → idx (servers w) i = Some sv → calm (sv_rf sv) rf → okEffects G i es →
  linv n G (putServer i sv rf es w).
Proof.
  intros Hl Hi Hc Hes. destruct (linv_peer _ _ _ _ Hl Hi) as [[F Hp] Ht].
  eapply (linv_put G G); eauto using gext_refl, owns_refl, c_applied; [by rewrite (c_lii _ _ Hc)|].
  eapply peerOk_calm; [by eapply l_hist|done|done].
Qed.
End calm.

#[export] Hint Resolve calm_refl okEffects_nil okEffects_app okEffects_cons : go.

(** Close goals [calm rf rf'] and [okEffects G i es] by computation. *)
Ltac calm_solve :=
  persist_simpl; bool_simpl; split_and?;
  try solve
    [ auto with go
    | repeat (first [ apply okEffects_app | apply okEffects_cons; [exact I|] | apply okEffects_nil ])
    | split; simpl in *;
      solve [ done | lia | congruence | by intros; split | intros; split; congruence
            | let m := fresh in intros ? m ->; exists m; split; [done|lia] ] ].

(** ** What the methods do *)

Section methods.
Context {C : Type} `{!Gob (PersistentStatus C)} (n : nat).
Implicit Types (G : ghost C) (rf : Raft C).

Lemma has_idx (l : list (LogEntry C)) i t :
  le_Term <$> idx l i = Some t → 0 ≤ i ∧ has l (Z.to_nat i) t.
Proof. intros (e & [? ?]%idx_Some & ->)%fmap_Some. split; [done|]. apply has_Some. eauto. Qed.

Lemma prevLogTerm_has F rf prev t :
  view F rf → prevLogTerm rf prev = Some t → lastIncludedIndex rf ≤ prev ∧ has F (Z.to_nat prev) t.
Proof.
  intros Hv H. assert (lastIncludedIndex rf ≤ prev ∧ le_Term <$> entryAt rf prev = Some t) as [Hp Ht].
  { unfold prevLogTerm in H. unfold entryAt, logIndex. destruct (_ && _) eqn:E; bool_simpl; [split; [lia|done]|].
    destruct (Z.eqb_spec prev (lastIncludedIndex rf)) as [->|]; [|done]. by rewrite Z.sub_diag. }
  split; [done|]. by apply (view_has F) in Ht.
Qed.

(** The message of a broadcast is a slice of the leader's log, or tells of a snapshot of it. *)
Lemma broadcastOne_ok G i F rf p e :
  peerOk n G i F rf → state rf = Leader → me rf = i → broadcastOne rf p = Some e →
  okEffects n G i [e].
Proof.
  intros Hp Hs Hi H. pose proof (p_view _ _ _ _ _ Hp) as Hv. pose proof (view_length _ _ Hv) as [Hlt Hlen].
  pose proof (v_range _ _ Hv) as Hr. destruct (p_leader _ _ _ _ _ Hp Hs) as (HL & _).
  unfold broadcastOne in H. inv_bind H. destruct (Z.leb_spec x (lastIncludedIndex rf)) as [Hx|Hx].
  - inv_bind H. injection H as <-. split; [|intros msg ?; set_solver].
    intros c Hc. apply list_elem_of_singleton in Hc as ->. exists F. split_and!; [done|simpl; lia..|done].
  - inv_bind H. injection H as <-. split; [|intros msg ?; set_solver].
    intros c Hc. apply list_elem_of_singleton in Hc as ->.
    match goal with H : prevLogTerm _ _ = _ |- _ => apply (prevLogTerm_has F) in H as [? Hpt]; [|done] end.
    match goal with H : slice_from _ _ = _ |- _ => apply slice_from_Some in H as [Hrg ->] end.
    rewrite (view_drop F) by done. pose proof (p_commit _ _ _ _ _ Hp) as [Hc Hc'].
    unfold logIndex in Hrg. exists F. split_and!; [done| |done].
    split; simpl; try done; [lia|..].
    + by replace (S (Z.to_nat (x - 1))) with (Z.to_nat x) by lia.
    + unfold zlen. rewrite length_drop. unfold zlen in *. lia.
Qed.

Lemma broadcastHeartbeat_ok G i F rf u rf' es :
  peerOk n G i F rf → state rf = Leader → me rf = i →
  broadcastHeartbeat rf = Some (u, rf', es) → rf' = rf ∧ okEffects n G i es.
Proof.
  intros Hp Hs Hi. unfold broadcastHeartbeat. intros H. minv H. split; [done|]. rewrite !app_nil_l.
  match goal with H : mapM _ _ = Some _ |- _ => apply mapM_Some in H; rename H into Hes end.
  induction Hes as [|p e ps es' He _ IH]; [apply okEffects_nil|].
  change (e :: es') with ([e] ++ es'). apply okEffects_app; [by eapply broadcastOne_ok|done].
Qed.

Lemma heartbeatEvent_ok G i F rf u rf' es :
  peerOk n G i F rf → me rf = i → heartbeatEvent rf = Some (u, rf', es) → calm rf rf' ∧ okEffects n G i es.
Proof.
  intros Hp Hi. unfold heartbeatEvent. intros H. minv H; [|calm_solve]. case_bool_decide; [|done].
  apply (broadcastHeartbeat_ok G i F) in Hm as [-> ?]; auto 10 with go.
Qed.

Lemma AddLogEvent_ok G i F rf u rf' es :
  peerOk n G i F rf → me rf = i → AddLogEvent rf = Some (u, rf', es) → calm rf rf' ∧ okEffects n G i es.
Proof.
  intros Hp Hi. unfold AddLogEvent. intros H. minv H; [|calm_solve]. case_bool_decide; [|done].
  apply (broadcastHeartbeat_ok G i F) in Hm as [-> ?]; auto 10 with go.
Qed.

Lemma isLogUpToDate_true rf term index :
  isLogUpToDate rf term index = Some true →
  ∃ t, lastLogTerm rf = Some t ∧ (t < term ∨ t = term ∧ lastLogIndex rf ≤ index).
Proof. unfold isLogUpToDate. intros (t & -> & [= H])%bind_Some. bool_simpl. exists t. split; [done|]. naive_solver. Qed.

(** A granted vote: the voter is in the candidate's term and its log is not
    ahead of the candidate's. *)
Lemma RequestVote_ok G i args rf r rf' es :
  RequestVote args rf = Some (r, rf', es) →
  calm rf rf' ∧ okEffects n G i es ∧
  (rvr_VoteGranted r = true →
   currentTerm rf' = rva_Term args ∧
   ∃ t, lastLogTerm rf = Some t ∧
     (t < rva_LastLogTerm args ∨ t = rva_LastLogTerm args ∧ lastLogIndex rf ≤ rva_LastLogIndex args)).
Proof.
  unfold RequestVote. intros H. minv H; bool_simpl; persist_simpl; split_and!; calm_solve; simpl in *;
    try done; intros _; (split; [lia|]); repeat case_match; try done;
    match goal with H : isLogUpToDate _ _ _ = _ |- _ => apply isLogUpToDate_true in H as (t & ? & ?) end; eauto.
Qed.

(** [InstallSnapshot] that returns early. *)
Lemma InstallSnapshot_ok G i args rf r rf' es :
  overwrites args rf = false →
  InstallSnapshot args rf = Some (r, rf', es) →
  calm rf rf' ∧ okEffects n G i es ∧
  (isr_Term r ≤ isa_Term args → currentTerm rf' = isa_Term args ∧
     (isa_LastIncludedIndex args ≤ lastIncludedIndex rf ∨ isa_LastIncludedIndex args ≤ commitIndex rf)).
Proof.
  unfold InstallSnapshot, adoptSnapshot, overwrites. intros Ho H.
  minv H; bool_simpl; simpl in *; split_and!; calm_solve; simpl in *; try lia.
  all: try (rewrite !andb_false_iff, !Z.leb_gt, !Z.ltb_ge in Ho; lia).
  all: intros _; split; lia.
Qed.

Lemma AppendEntries_reject_ok G i args rf r rf' es :
  AppendEntries args rf = Some (r, rf', es) → aer_Success r = false → calm rf rf' ∧ okEffects n G i es.
Proof. unfold AppendEntries. intros H Hs. minv H; try done; calm_solve. Qed.

Lemma AppendEntries_accept_ok G i args rf r rf' es :
  AppendEntries args rf = Some (r, rf', es) → aer_Success r = true →
  currentTerm rf ≤ aea_Term args ∧ lastApplied rf' = lastApplied rf ∧ npeers rf' = npeers rf ∧
  matchIndex rf' = matchIndex rf ∧ okEffects n G i es.
Proof. unfold AppendEntries. intros H Hs. minv H; try done; persist_simpl; bool_simpl; simpl in *; split_and!; calm_solve. Qed.

(** The reply to [InstallSnapshot] moves a match index, or ends the leadership. *)
Lemma handleSendInstallSnapshot_ok G i peer args reply rf u rf' es :
  handleSendInstallSnapshot peer args reply rf = Some (u, rf', es) →
  okEffects n G i es ∧
  (calm rf rf' ∨
   state rf = Leader ∧ currentTerm rf = isa_Term args ∧ isr_Term reply ≤ isa_Term args ∧
   ∃ m ns, idx (matchIndex rf) peer = Some m ∧
     rf' = set_nextIndex ns (set_matchIndex
       (<[Z.to_nat peer := Z.max m (isa_LastIncludedIndex args)]> (matchIndex rf)) rf)).
Proof.
  unfold handleSendInstallSnapshot. intros H. minv H; (split; [calm_solve|]); try (left; calm_solve; fail).
  right. bool_simpl. match goal with H : _ ∧ bool_decide _ = true |- _ => destruct H as [? Hl%bool_decide_eq_true] end.
  repeat match goal with H : upd _ _ _ = Some _ |- _ => apply upd_Some in H as [? ->] end.
  split_and!; [done|done|lia|]. eexists _, _. split; [eassumption|done].
Qed.
End methods.

(** ** Elections *)

Section elections.
Context {C : Type} `{!Gob (PersistentStatus C)} (n : nat).
Implicit Types (G : ghost C) (w : cluster C) (c : call C) (rf : Raft C) (sv : server C).

(** One round of [ticker], with the requests it sends. *)
Lemma ticker_ok rf u rf' es i :
  logs rf ≠ [] → ticker rf = Some (u, rf', es) →
  ∃ t, lastLogTerm rf = Some t ∧
    (logs rf' = logs rf ∧ lastIncludedIndex rf' = lastIncludedIndex rf ∧ commitIndex rf' = commitIndex rf ∧
     lastApplied rf' = lastApplied rf ∧ npeers rf' = npeers rf ∧ matchIndex rf' = matchIndex rf ∧
     currentTerm rf' = currentTerm rf + 1 ∧ state rf' = Candidate) ∧
    (∀ c, c ∈ callsOf i es → ∃ p, c = mkCall i p (CallRequestVote
       (mkRVArgs (currentTerm rf + 1) (me rf) (lastLogIndex rf) t)) Requested true) ∧
    ∀ msg, GoApplySnapshot msg ∉ es.
Proof.
  intros Hl. destruct (lastLogTerm_total rf Hl) as [t Ht]. unfold ticker, startElection. intros H. minv H.
  persist_simpl. simpl in *. exists t. split; [done|]. split; [done|].
  match goal with H : mapM _ _ = Some _ |- _ => apply mapM_Some in H; rename H into Hes end.
  match type of Hes with Forall2 _ _ ?l => rename l into calls' end.
  assert (∀ e, e ∈ calls' → ∃ p, e = GoRequestVote p (mkRVArgs (currentTerm rf + 1) (me rf) (lastLogIndex rf) t)) as Hall.
  { intros e [k Hk]%list_elem_of_lookup. destruct (Forall2_lookup_r _ _ _ _ _ Hes Hk) as (p & _ & Hp).
    unfold lastLogTerm in *. simpl in Hp. rewrite Ht in Hp. simpl in Hp. simplify_eq. eauto. }
  split.
  - intros c. unfold callsOf. simpl. rewrite list_elem_of_omap. intros (e & (p & ->)%Hall & [= <-]). eauto.
  - intros msg. rewrite elem_of_cons. intros [?|(p & ?)%Hall]; done.
Qed.
Lemma linv_setVotes G i T cnt w : linv n G w → linv n G (setVotes i T cnt w).
Proof.
  intros [Hh Hw Hs Hc]. split; try done. intros T' ld L [? ?]%Hw. split; [|done].
  eapply won_evolves; [apply evolves_setVotes|done].
Qed.

Lemma peer_nonempty G i F rf : peerOk n G i F rf → logs rf ≠ [].
Proof. intros Hp. eapply view_nonempty, p_view, Hp. Qed.

(** A peer starts an election. *)
Lemma linv_timeout G w i u w' :
  linv n G w → runOn i ticker w = Some (u, w') → ∃ G', gext G G' ∧ linv n G' w'.
Proof.
  intros Hl (sv & rf' & es & Hi & Hm & ->)%runOn_Some.
  destruct (linv_peer _ _ _ _ _ Hl Hi) as [[F Hp] Htk].
  destruct (ticker_ok _ _ _ _ i (peer_nonempty _ _ _ _ Hp) Hm) as (t & Ht & (El & Ei & Ec & Ea & En & Em & ET & Es) & Hcs & Hsn).
  destruct Hp as [Pv Pg Pm Pa Pld Pcd Pled Pcp Pak Ppr Pco]. apply (view_lastTerm F) in Ht; [|done].
  set (rf := sv_rf sv) in *. set (x := (zlen F - 1, t)).
  assert (gd G !! (i, currentTerm rf + 1) = None) as Hfresh.
  { apply eq_None_not_Some. intros [y Hy%Pcp]. lia. }
  pose proof (gext_campaign G i (currentTerm rf + 1) x Hfresh) as He.
  exists (addCampaign G i (currentTerm rf + 1) x). split; [done|].
  eapply (linv_put n G _ _ _ _ F); eauto using owns_campaign; [by rewrite Ei| |].
  - split; rewrite ?Ec, ?Ea, ?En, ?Em, ?ET, ?Es; try done.
    + eapply view_same; eauto. lia.
    + eapply good_ext; [done|]. eapply good_mono; [|done]. lia.
    + intros _. exists t. split_and!; [done| |by simpl; rewrite lookup_insert_eq].
      pose proof (good_bound _ _ _ Pg _ _ Ht). lia.
    + intros T L [?|[? _]]%Pled; left; lia.
    + intros T y. simpl. rewrite lookup_insert_Some. intros [[? _]|[_ ?%Pcp]]; [simplify_eq|]; lia.
    + intros T k [? Hk]%Pak. split; [lia|]. destruct Hk as [?|?]; [by left|right].
      eapply (lost_ext G _ _ _ (currentTerm rf)); [done|lia|done].
    + intros T ?%Ppr. lia.
    + eapply covered_ext; [done| |done|done]. lia.
  - split; [|done]. intros c (p & ->)%Hcs. split; [|done]. simpl. rewrite lookup_insert_eq.
    unfold x. by rewrite (proj1 (view_last F rf Pv)).
Qed.

(** What a peer acknowledged is in its log or lost, so a vote that compares
    last entries covers it. *)
Lemma peerOk_saw G i F rf t last :
  peerOk n G i F rf → lastLogTerm rf = Some t →
  t < last.2 ∨ t = last.2 ∧ lastLogIndex rf ≤ last.1 →
  saw G i (currentTerm rf) (currentTerm rf) last.
Proof.
  intros Hp Ht Hup T k Hk _. pose proof (p_view _ _ _ _ _ Hp) as Hv. apply (view_lastTerm F) in Ht; [|done].
  destruct (p_ack _ _ _ _ _ Hp _ _ Hk) as [_ [Hh|?]]; [left|by right].
  pose proof (has_lt _ _ _ Hh).
  pose proof (good_sorted _ _ _ (p_good _ _ _ _ _ Hp) k (length F - 1) T t ltac:(lia) Hh Ht).
  rewrite (proj1 (view_last F rf Hv)) in Hup. unfold zlen in Hup. lia.
Qed.

Lemma peerOk_promise G i T F rf :
  peerOk n G i F rf → T ≤ currentTerm rf → peerOk n (addPromise G i T) i F rf.
Proof.
  intros Hp HT. eapply peerOk_grow; [apply gext_promise|done|..]; simpl; auto.
  intros T' [?|[_ ->]]; auto.
Qed.

(** A vote request is executed. *)
Lemma linv_deliver_vote G w k c args r rf es sv :
  linv n G w → calls w !! k = Some c → c_status c = Requested → c_args c = CallRequestVote args →
  idx (servers w) (c_dst c) = Some sv → RequestVote args (sv_rf sv) = Some (r, rf, es) →
  ∃ G', gext G G' ∧
    linv n G' (setStatus k c (Executed (ReplyRequestVote r)) (putServer (c_dst c) sv rf es w)).
Proof.
  intros Hl Hk Hs Ha Hi Hm. destruct (linv_peer _ _ _ _ _ Hl Hi) as [[F Hp] Htk].
  destruct (RequestVote_ok n G (c_dst c) _ _ _ _ _ Hm) as (Hc & Hes & Hv).
  pose proof (peerOk_calm n G _ _ _ _ (l_hist _ _ _ Hl) Hc Hp) as Hp'.
  assert (calls (putServer (c_dst c) sv rf es w) !! k = Some c) as Hk' by by apply lookup_app_l_Some.
  assert (∀ r0, c_status c ≠ Returned r0) as Hnr by congruence.
  pose proof (l_calls _ _ _ Hl _ _ Hk) as Hok.
  destruct (rvr_VoteGranted r) eqn:Hg.
  - destruct (Hv eq_refl) as (ET & t & Ht & Hup).
    assert (saw G (c_dst c) (rva_Term args) (rva_Term args) (rva_LastLogIndex args, rva_LastLogTerm args)) as Hsaw.
    { rewrite <- ET. apply (peerOk_saw _ _ F _ t); [done| |].
      - unfold lastLogTerm in *. by rewrite (c_logs _ _ Hc).
      - unfold lastLogIndex in *. by rewrite (c_logs _ _ Hc), (c_lii _ _ Hc). }
    pose proof (gext_promise G (c_dst c) (rva_Term args)) as He.
    exists (addPromise G (c_dst c) (rva_Term args)). split; [done|]. apply linv_status; try done.
    + eapply (linv_put n G _ _ _ _ F); eauto using owns_promise, c_applied; [by rewrite (c_lii _ _ Hc)|..].
      * apply peerOk_promise; [done|lia].
      * destruct Hes as [H1 H2]. split; [|done]. intros d Hd. eapply callOk_ext; eauto.
    + unfold callOk in *. simpl. rewrite Ha in *. destruct Hok as [? _]. split; [done|]. intros _.
      split; [by right|]. intros T i Hai HT. destruct (Hsaw T i Hai HT) as [?|?]; [by left|right].
      by eapply (lost_ext G _ _ _ (rva_Term args)).
  - exists G. split; [apply gext_refl|]. apply linv_status; try done; [by apply linv_calm|].
    apply callOk_status; [done| |by intros..]. simpl. congruence.
Qed.

(** *** A candidate becomes leader *)

Lemma initPeers_match rf ps ns ms nm :
  foldM (initPeer rf) ps (ns, ms) = Some nm →
  zlen nm.2 = zlen ms ∧
  ∀ p m, idx nm.2 p = Some m → m = lastIncludedIndex rf ∨ (p ∉ ps) ∧ idx ms p = Some m.
Proof.
  revert ns ms. induction ps as [|q ps IH]; intros ns ms.
  - intros [= <-]. split; [done|]. intros p m ?. right. split; [apply not_elem_of_nil|done].
  - simpl. intros ([ns' ms'] & Hq & H)%bind_Some. unfold initPeer in Hq. inv_bind Hq. simplify_eq.
    match goal with H : upd ms _ _ = _ |- _ => apply upd_Some in H as [Hr ->] end.
    destruct (IH _ _ H) as [E Hm]. rewrite zlen_insert in E. split; [done|].
    intros p m [?|[Hp Hi]]%Hm; [by left|]. destruct (decide (p = q)) as [->|?].
    + rewrite idx_insert_eq in Hi by done. left. congruence.
    + rewrite idx_insert_ne in Hi by lia. right. split; [set_solver|done].
Qed.

(** The match indices of a new leader. *)
Lemma initializeLeader_match rf u rf' es :
  lastIncludedIndex rf ≤ lastLogIndex rf → zlen (matchIndex rf) = npeers rf →
  initializeLeaderEasilyLostState rf = Some (u, rf', es) →
  es = [] ∧ ∃ ns ms, rf' = set_nextIndex ns (set_matchIndex ms rf) ∧
    zlen ms = npeers rf ∧ ∀ p m, idx ms p = Some m → m ≤ lastLogIndex rf.
Proof.
  intros Hle Hlen. unfold initializeLeaderEasilyLostState. intros H. minv H. split; [done|].
  match goal with H : foldM _ _ _ = Some ?nm |- _ => destruct (initPeers_match _ _ _ _ _ H) as [E Hms] end.
  match goal with H : upd _ _ (lastLogIndex rf) = Some _ |- _ => apply upd_Some in H as [Hme ->] end.
  eexists _, _. split; [done|]. rewrite zlen_insert, E. split; [done|].
  intros p m Hp. destruct (idx_is_Some x.2 (me rf) Hme) as [z Hz].
  destruct (idx_insert_inv _ _ _ _ _ _ Hz Hp) as [[_ ->]|[_ Hp']]; [lia|].
  destruct (Hms _ _ Hp') as [->|[Hn Hx%idx_lt]]; [lia|]. destruct Hn. apply elem_of_range. lia.
Qed.

Lemma handleVoteReply_ok G i args reply cnt rf cnt' rf' es :
  0 ≤ zlen (logs rf) - 1 → zlen (matchIndex rf) = npeers rf →
  handleVoteReply args reply cnt rf = Some (cnt', rf', es) →
  (calm rf rf' ∧ okEffects n G i es) ∨
  (state rf = Candidate ∧ ∃ ns ms u, rf' = set_nextIndex ns (set_matchIndex ms (set_state Leader rf)) ∧
     zlen ms = npeers rf ∧ (∀ p m, idx ms p = Some m → m ≤ lastLogIndex rf) ∧
     broadcastHeartbeat rf' = Some (u, rf', es)).
Proof.
  intros Hlen Hml. unfold handleVoteReply. intros H. minv H; try (left; calm_solve; fail).
  right. bool_simpl.
  match goal with H : initializeLeaderEasilyLostState _ = _ |- _ =>
    apply initializeLeader_match in H as (-> & ns & ms & -> & E & Hms);
      [|unfold lastLogIndex; simpl; lia|done] end.
  match goal with H : broadcastHeartbeat _ = Some (_, _, ?e) |- _ =>
    pose proof (broadcastHeartbeat_Some _ _ _ _ H) as [-> _]; rename H into Hb end.
  match goal with H : _ ∧ bool_decide _ = true |- _ => destruct H as [_ Hc%bool_decide_eq_true] end.
  split; [done|]. exists ns, ms. eexists. split; [done|]. split; [done|]. split; [done|].
  simpl. rewrite app_nil_r. exact Hb.
Qed.

Lemma saw_strict G v T last : gl G !! T = None → saw G v T T last → saw G v T (T - 1) last.
Proof.
  intros Hn Hs T0 k Hk HT. destruct (Hs T0 k Hk HT) as [?|(T' & ld & L & ? & HL & ?)]; [by left|right].
  exists T', ld, L. split; [|done]. destruct (decide (T' = T)) as [->|?]; [congruence|lia].
Qed.

(** The voters of a candidate that has a majority elect it. *)
Lemma voters_elect G w i sv L :
  einv n w → linv n G w → idx (servers w) i = Some sv → state (sv_rf sv) = Candidate →
  peerOk n G i L (sv_rf sv) →
  let T := currentTerm (sv_rf sv) in
  Z.of_nat n ÷ 2 < Z.of_nat (size (voters w i T)) → gl G !! T = None →
  elected n (addPromise G i T) T L.
Proof.
  intros He Hl Hi Hs Hp T Hmaj Hnone.
  destruct (p_cand _ _ _ _ _ Hp Hs) as (t & Ht & Hlt & Hd). fold T in Ht, Hlt, Hd.
  pose proof (has_lt _ _ _ Ht) as Hlen.
  assert (0 ≤ i < Z.of_nat n) as Hin by (apply idx_lt in Hi; unfold zlen in Hi; by rewrite (e_len _ _ He) in Hi).
  exists (voters w i T), (length L - 1)%nat, t. split; [split; [by apply voters_range|done]|].
  split_and!; [done|done|].
  replace (Z.of_nat (length L - 1)) with (zlen L - 1) by (unfold zlen; lia).
  intros v Hv. assert (gb (addPromise G i T) v T ∧ saw G v T T (zlen L - 1, t)) as [Hb Hsaw].
  { apply elem_of_voters in Hv as [->|(k & c & Hk & (a & r & Ha & Hst & Es & ET & Hr)%countedFor_inv & <-)].
    - split; [by right|]. destruct (lastLogTerm_total (sv_rf sv) (peer_nonempty _ _ _ _ Hp)) as [t' Ht'].
      pose proof (p_view _ _ _ _ _ Hp) as Hvw.
      apply (peerOk_saw G i L (sv_rf sv) t'); [done|done|]. right. apply (view_lastTerm L) in Ht'; [|done].
      rewrite (has_fun _ _ _ _ Ht' Ht), (proj1 (view_last L _ Hvw)). split; [done|]. simpl. lia.
    - pose proof (l_calls _ _ _ Hl _ _ Hk) as Hok. unfold callOk in Hok. rewrite Ha, Hst, Es, ET in Hok.
      destruct Hok as [Hd' Hg]. rewrite Hd in Hd'. injection Hd' as -> ->.
      destruct (Hg Hr) as [? ?]. split; [by left|done]. }
  split; [done|]. apply saw_strict in Hsaw; [|done].
  intros T0 k Hk HT. destruct (Hsaw T0 k Hk HT) as [?|?]; [by left|right].
  by eapply (lost_ext G _ _ _ (T - 1)); [apply gext_promise|..].
Qed.

(** A candidate's term has no leader yet. *)
Lemma candidate_fresh G w i sv :
  einv n w → linv n G w → idx (servers w) i = Some sv → state (sv_rf sv) = Candidate →
  won n w i (currentTerm (sv_rf sv)) → gl G !! currentTerm (sv_rf sv) = None.
Proof.
  intros He Hl Hi Hs Hw. destruct (gl G !! _) as [[ld L]|] eqn:HL; [|done]. exfalso.
  destruct (l_won _ _ _ Hl _ _ _ HL) as [Hw' Hr].
  assert (ld = i) as ->.
  { eapply won_unique; [exact He|exact Hr| |exact Hw'|exact Hw].
    apply idx_lt in Hi. unfold zlen in Hi. by rewrite (e_len _ _ He) in Hi. }
  destruct (linv_peer _ _ _ _ _ Hl Hi) as [[F Hp] _]. destruct (p_led _ _ _ _ _ Hp _ _ HL) as [?|[_ ?]]; [lia|done].
Qed.

(** The new leader's state under the history that records it. *)
Lemma peerOk_promote G i F rf rf' ns ms :
  history n G → peerOk n G i F rf → state rf = Candidate → gl G !! currentTerm rf = None →
  rf' = set_nextIndex ns (set_matchIndex ms (set_state Leader rf)) →
  zlen ms = npeers rf → (∀ p m, idx ms p = Some m → m ≤ lastLogIndex rf) →
  peerOk n (addLeader (addPromise G i (currentTerm rf)) (currentTerm rf) i F) i F rf'.
Proof.
  intros Hh Hp Hs Hn -> Hml Hms. set (T := currentTerm rf) in *. set (G1 := addPromise G i T).
  assert (gext G1 (addLeader G1 T i F)) as He.
  { apply gext_leader. simpl. intros ld L0 HL0. congruence. }
  destruct (p_cand _ _ _ _ _ Hp Hs) as (t & Ht & Hlt & _). pose proof (p_view _ _ _ _ _ Hp) as Hv.
  destruct (peerOk_promise _ _ T _ _ Hp ltac:(done)) as [Pv Pg Pm Pa Pld Pcd Pled Pcp Pak Ppr Pco].
  split; simpl; try done.
  - by eapply view_same; eauto.
  - by eapply good_ext.
  - assert (∀ j, ¬ has F j T) as Hno.
    { intros j Hj. pose proof (has_lt _ _ _ Hj).
      pose proof (good_sorted _ _ _ Pg j (length F - 1) _ _ ltac:(lia) Hj Ht). lia. }
    intros _. rewrite lookup_insert_eq. split; [done|]. split; [by intros j ?%Hno|].
    intros p m Hpm%Hms. split; [|by intros j _ ?%Hno].
    rewrite (proj1 (view_last F rf Hv)) in Hpm. lia.
  - intros T' L. rewrite lookup_insert_Some. intros [[<- _]|[_ HL]]; [by right|].
    destruct (Pled _ _ HL) as [?|[-> _]]; [by left|by right].
  - intros T' k [? [?|?]]%Pak; split; auto. right. by eapply (lost_ext G1 _ _ _ T).
  - by eapply covered_ext.
Qed.

Lemma linv_promote G w i sv rf es ns ms u :
  einv n w → linv n G w → idx (servers w) i = Some sv → state (sv_rf sv) = Candidate →
  won n w i (currentTerm (sv_rf sv)) →
  rf = set_nextIndex ns (set_matchIndex ms (set_state Leader (sv_rf sv))) →
  zlen ms = npeers (sv_rf sv) → (∀ p m, idx ms p = Some m → m ≤ lastLogIndex (sv_rf sv)) →
  broadcastHeartbeat rf = Some (u, rf, es) →
  ∃ G', gext G G' ∧ linv n G' (putServer i sv rf es w).
Proof.
  intros He Hl Hi Hs Hw Erf Hml Hms Hb. set (T := currentTerm (sv_rf sv)) in *.
  pose proof (candidate_fresh _ _ _ _ He Hl Hi Hs Hw) as Hn. fold T in Hn.
  destruct (linv_peer _ _ _ _ _ Hl Hi) as [[F Hp] Htk].
  pose proof (voters_elect _ _ _ _ F He Hl Hi Hs Hp (proj2 Hw) Hn) as Hel. fold T in Hel.
  pose proof (peerOk_promote G i F _ rf ns ms (l_hist _ _ _ Hl) Hp Hs Hn Erf Hml Hms) as Hp'. fold T in Hp'.
  set (G1 := addPromise G i T) in *. set (G' := addLeader G1 T i F) in *.
  assert (gext G1 G') as He1. { apply gext_leader. simpl. intros ld L0 HL0. congruence. }
  assert (gext G G') as HeG. { eapply gext_trans; [apply gext_promise|exact He1]. }
  destruct (e_ids _ _ He _ _ Hi) as [Hme _].
  exists G'. split; [done|]. eapply (linv_put n G G' _ _ _ F); try done.
  - eapply owns_trans; [apply owns_promise|apply owns_leader].
  - intros T' ld L. simpl. rewrite lookup_insert_Some. intros [[<- [= <- <-]]|[_ ?]]; [right|by left].
    split_and!; [by pose proof (p_good _ _ _ _ _ Hp') as Hg; rewrite Erf in Hg|by apply (elected_ext n G1 G' T F)|done|..];
      apply idx_lt in Hi; unfold zlen in Hi; rewrite (e_len _ _ He) in Hi; lia.
  - intros v T' k ?. by left.
  - by rewrite Erf.
  - by rewrite Erf.
  - eapply (broadcastHeartbeat_ok n G' i F rf); [done| | |exact Hb]; by rewrite Erf.
Qed.

(** The reply to a vote request reaches the candidate. *)
Lemma linv_voteReply G w c args r w' :
  einv n w → einv n w' → linv n G w → c_args c = CallRequestVote args →
  onReply c (ReplyRequestVote r) w = Some w' → ∃ G', gext G G' ∧ linv n G' w'.
Proof.
  intros He He' Hl Ha. unfold onReply. rewrite Ha.
  intros (cnt & Hcnt & H)%bind_Some. apply bind_Some in H as ([cnt' w2] & Hrun & [= <-]).
  apply runOn_Some in Hrun as (sv & rf & es & Hi & Hm & ->).
  destruct (linv_peer _ _ _ _ _ Hl Hi) as [[F Hp] _]. pose proof (view_length _ _ (p_view _ _ _ _ _ Hp)).
  destruct (handleVoteReply_vote _ _ _ _ _ _ _ Hm) as (_ & Hes & _).
  apply (handleVoteReply_ok G (c_src c)) in Hm; [|lia|by apply (p_mlen _ _ _ _ _ Hp)].
  destruct Hm as [[Hc Hok]|(Hs & ns & ms & u & Erf & Hml & Hms & Hb)].
  - exists G. split; [apply gext_refl|]. by apply linv_setVotes, linv_calm.
  - assert (won n w (c_src c) (currentTerm (sv_rf sv))) as Hw.
    { split; [by apply (e_cand _ _ He); [|rewrite Hs]|].
      pose proof (e_leader _ _ He' (c_src c)
        (spawnLocal es (mkServer rf (sv_applier sv) (sv_snaps sv) (sv_signals sv) (sv_applyCh sv)))) as Hld.
      rewrite spawnLocal_rf in Hld.
      assert (currentTerm rf = currentTerm (sv_rf sv)) as ET by by rewrite Erf.
      simpl in Hld. rewrite ET in Hld.
      rewrite <- (voters_putServer (c_src c) sv rf es w) by done. apply Hld; [|by rewrite Erf].
      apply idx_insert_eq. by eapply idx_lt. }
    destruct (linv_promote G w (c_src c) sv rf es ns ms u He Hl Hi Hs Hw Erf Hml Hms Hb) as (G' & ? & ?).
    exists G'. split; [done|]. by apply linv_setVotes.
Qed.

End elections.
