(* ===== verification/RaftReplicate.v ===== *)
(** * Replication keeps the invariant of the logs

    The actions that change a log, count an acknowledgement, commit or deliver:
    a command appended by the leader, entries accepted by a follower, a
    successful reply handled by the leader, a step of the applier, the compaction
    of a log; and the invariant for every action of the cluster. *)

From S2P Require Import Prelude Persister RaftNode RaftFollower RaftLeader RaftApplier RaftCluster RaftElection RaftLog RaftCommit RaftDelivery RaftGhost RaftInvariant RaftPreserve.

Section append.
Context {C : Type} `{!Gob (PersistentStatus C)} (n : nat).
Implicit Types (G : ghost C) (w : cluster C) (c : call C) (rf : Raft C) (sv : server C).

(** ** The leader appends a command *)

Lemma good_snoc G T i L e :
  good G T L → gl G !! T = Some (i, L) → le_Term e = T → is_Some (le_Cmd e) →
  good (addLeader G T i (L ++ [e])) T (L ++ [e]).
Proof.
  intros Hg HL Ee Hcmd. assert (gext G (addLeader G T i (L ++ [e]))) as He.
  { apply gext_leader. intros ld L0 HL0. rewrite HL in HL0. injection HL0 as <- <-. split; [done|].
    split; [by apply prefix_app_r|]. intros k t Hk [?%has_lt|[_ ->]]%has_app; [lia|done]. }
  destruct Hg as [Hz Hs Hb Ho Hc]. split.
  - by apply lookup_app_l_Some.
  - intros j k s t Hjk [Hj|[-> ->]]%has_app [Hk|[-> ->]]%has_app; try lia.
    + by eapply (Hs j k).
    + apply Hb in Hj. lia.
    + apply has_lt in Hk. lia.
  - intros k t [?%Hb|[_ ->]]%has_app; lia.
  - intros k t Hk [Hh|[-> ->]]%has_app.
    + destruct (Ho k t Hk Hh) as (ld & L0 & HL0 & Hp). destruct (ext_gl _ _ He _ _ _ HL0) as (L1 & HL1 & [Hp1 _]).
      exists ld, L1. split; [done|]. apply has_lt in Hh. rewrite take_app_le by lia. by etrans.
    + exists i, (L ++ [e]). split; [simpl; by rewrite Ee, lookup_insert_eq|]. apply prefix_take.
  - intros k x Hk [Hx|[_ Hx]]%lookup_app_Some; [by eapply Hc|].
    by apply list_lookup_singleton_Some in Hx as [_ <-].
Qed.

Lemma Start_ok G i cmd rf r rf' es :
  Start cmd rf = Some (r, rf', es) →
  okEffects n G i es ∧
  (rf' = rf ∨
   state rf = Leader ∧
   logs rf' = logs rf ++ [mkEntry (currentTerm rf) (Some cmd)] ∧
   (0 ≤ me rf < zlen (matchIndex rf)) ∧
   matchIndex rf' = <[Z.to_nat (me rf) := lastLogIndex rf + 1]> (matchIndex rf) ∧
   currentTerm rf' = currentTerm rf ∧ state rf' = Leader ∧ lastIncludedIndex rf' = lastIncludedIndex rf ∧
   commitIndex rf' = commitIndex rf ∧ lastApplied rf' = lastApplied rf ∧ npeers rf' = npeers rf).
Proof.
  unfold Start. intros H. minv H; [split; [calm_solve|by left]|]. persist_simpl. split; [calm_solve|]. right.
  bool_simpl. repeat match goal with H : upd _ _ _ = Some _ |- _ => apply upd_Some in H as [? ->] end.
  match goal with H : bool_decide _ = true |- _ => apply bool_decide_eq_true in H end.
  simpl in *. split_and!; try done; try lia. do 2 f_equal. unfold lastLogIndex. simpl. autorewrite with golen. lia.
Qed.

Lemma view_append F rf rf' e : view F rf → logs rf' = logs rf ++ [e] → lastIncludedIndex rf' = lastIncludedIndex rf →
  commitIndex rf' = commitIndex rf → view (F ++ [e]) rf'.
Proof.
  intros Hv El Ei Ec. pose proof (view_length _ _ Hv) as [Hlt _]. destruct Hv as [Hr (t & Ht & E)]. split; [lia|]. rewrite Ei. exists t. split.
  - eapply has_prefix; [|done]. by apply prefix_app_r.
  - rewrite El, E, drop_app_le by (unfold zlen in Hlt; lia). done.
Qed.

Lemma peerOk_append G i F rf rf' e :
  history n G → peerOk n G i F rf → me rf = i → state rf = Leader → le_Term e = currentTerm rf → is_Some (le_Cmd e) →
  logs rf' = logs rf ++ [e] → matchIndex rf' = <[Z.to_nat i := lastLogIndex rf + 1]> (matchIndex rf) →
  0 ≤ i < zlen (matchIndex rf) →
  currentTerm rf' = currentTerm rf → state rf' = Leader → lastIncludedIndex rf' = lastIncludedIndex rf →
  commitIndex rf' = commitIndex rf → lastApplied rf' = lastApplied rf → npeers rf' = npeers rf →
  let T := currentTerm rf in
  let F' := F ++ [e] in
  let G1 := addLeader G T i F' in
  gext G G1 ∧ gext G1 (addAcks G1 i T (λ k, k = length F)) ∧
  peerOk n (addAcks G1 i T (λ k, k = length F)) i F' rf'.
Proof.
  intros Hh Hp Hme Hs Ee Hcmd El Em Hir ET Es Ei Ec Ea En T F' G1.
  destruct (p_leader _ _ _ _ _ Hp Hs) as (HL & Hown & Hms). fold T in HL, Hown, Hms.
  pose proof (view_last _ _ (p_view _ _ _ _ _ Hp)) as [Elast _].
  assert (grown T F F') as Hgr.
  { split; [by apply prefix_app_r|]. intros k t Hk [?%has_lt|[_ ->]]%has_app; [lia|done]. }
  assert (gext G G1) as He1.
  { apply gext_leader. intros ld L0 HL0. rewrite HL in HL0. injection HL0 as <- <-. by split. }
  assert (gext G1 (addAcks G1 i T (λ k, k = length F))) as He2.
  { apply gext_acks. intros T' HT. by apply (p_prom _ _ _ _ _ Hp). }
  split; [done|]. split; [done|]. set (G2 := addAcks _ _ _ _) in *.
  assert (gext G G2) as He by (by eapply gext_trans).
  assert (has F' (length F) T) as Hnew.
  { apply has_Some. exists e. unfold F'. by rewrite lookup_app_r, Nat.sub_diag by lia. }
  destruct Hp as [Pv Pg Pm Pa Pld Pcd Pled Pcp Pak Ppr Pco].
  assert (zlen F' = zlen F + 1) as Hz by (unfold F'; autorewrite with golen; lia).
  split; rewrite ?ET, ?Es, ?Ec, ?Ea, ?En; try done.
  - by eapply view_append.
  - eapply good_ext; [exact He2|]. by apply good_snoc.
  - by rewrite Em, zlen_insert.
  - assert (∀ j, has F' j T → ga G2 i T j) as Hown'.
    { intros j [?|[-> _]]%has_app; [left; by apply Hown|by right]. }
    intros _. split; [simpl; by rewrite lookup_insert_eq|]. split; [done|]. rewrite Em. intros p m Hpm.
    destruct (idx_is_Some _ _ Hir) as [z Hz'].
    destruct (idx_insert_inv _ _ _ _ _ _ Hz' Hpm) as [[-> ->]|[Hne Hpm']].
    + rewrite Elast. split; [lia|]. intros j _. apply Hown'.
    + destruct (Hms _ _ Hpm') as [Hlt Ha]. split; [lia|]. intros j Hj Hjt. left.
      apply Ha; [done|]. eapply has_prefix_inv; [apply Hgr| |exact Hjt]. unfold zlen in *. lia.
  - simpl. intros T' L. rewrite lookup_insert_Some. intros [[<- _]|[_ HL']]; [by right|].
    destruct (Pled _ _ HL') as [?|[-> _]]; [by left|by right].
  - intros T' k [Hk|(_ & -> & ->)]; [|split; [done|by left]].
    destruct (Pak _ _ Hk) as [? [Hh'|?]]; (split; [done|]); [left|right].
    + eapply has_prefix; [apply Hgr|done].
    + by eapply (lost_ext G _ _ _ T).
  - eapply covered_ext; [done|done|apply Hgr|done].
Qed.

Lemma linv_start G w i cmd r w' :
  einv n w → linv n G w → runOn i (Start cmd) w = Some (r, w') → ∃ G', gext G G' ∧ linv n G' w'.
Proof.
  intros He Hl (sv & rf' & es & Hi & Hm & ->)%runOn_Some.
  destruct (e_ids _ _ He _ _ Hi) as [Hme _]. destruct (linv_peer _ _ _ _ _ Hl Hi) as [[F Hp] Htk].
  destruct (Start_ok G i _ _ _ _ _ Hm) as [_ [->|(Hs & El & Hir & Em & ET & Es & Ei & Ec & Ea & En)]].
  { exists G. split; [apply gext_refl|]. apply linv_calm; [done|done|apply calm_refl|by eapply Start_ok]. }
  destruct (p_leader _ _ _ _ _ Hp Hs) as (HL & _). rewrite Hme in *.
  destruct (peerOk_append G i F _ _ (mkEntry (currentTerm (sv_rf sv)) (Some cmd)) (l_hist _ _ _ Hl) Hp Hme Hs eq_refl ltac:(by eexists) El Em Hir ET Es Ei Ec Ea En) as (He1 & He2 & Hp').
  pose proof (gext_trans _ _ _ He1 He2) as HeG. eexists. split; [exact HeG|].
  eapply (linv_put n G); [done|exact Hi|exact HeG|..]; [|..|exact Ea|by rewrite Ei|exact Hp'|by eapply Start_ok].
  - eapply owns_trans; [apply owns_leader|apply owns_acks].
  - intros T ld L HT. pose proof HT as HT'. simpl in HT. apply lookup_insert_Some in HT as [[<- [= <- <-]]|[_ ?]]; [right|by left].
    destruct (l_won _ _ _ Hl _ _ _ HL) as [? ?]. destruct (h_log _ _ (l_hist _ _ _ Hl) _ _ _ HL) as [_ Hel].
    pose proof (p_good _ _ _ _ _ Hp') as Hg. rewrite ET in Hg.
    split_and!; [exact Hg| |done|lia|lia]. eapply (elected_ext n _ _ _ _ _ HeG); [|exact Hel]. by apply prefix_app_r.
  - intros v T k [?|(-> & -> & ->)]; [by left|right]. eexists _, _. split; [simpl; by rewrite lookup_insert_eq|].
    apply has_Some. eexists. by rewrite lookup_app_r, Nat.sub_diag by lia.
Qed.
End append.

(** ** A follower accepts entries *)

Section accept.
Context {C : Type} `{!Gob (PersistentStatus C)} (n : nat).
Implicit Types (G : ghost C) (w : cluster C) (c : call C) (rf : Raft C) (sv : server C).

(** The log of a follower after a successful [AppendEntries] of a leader with log [L]. *)
Lemma AppendEntries_accepted G b args F rf r rf' es L :
  view F rf → good G (currentTerm rf) F → good G b L → sliceOf n G L args →
  AppendEntries args rf = Some (r, rf', es) → aer_Success r = true →
  let p := S (Z.to_nat (aea_PrevLogIndex args)) in
  let F' := take p F ++ mergeEntries (drop p F) (aea_Entries args) in
  accepted F L (Z.to_nat (aea_PrevLogIndex args + zlen (aea_Entries args) + 1)) F' ∧
  logs rf' = take (p - Z.to_nat (lastIncludedIndex rf)) (logs rf) ++ mergeEntries (drop p F) (aea_Entries args).
Proof.
  intros Hv Hg HgL [Hprev Ht He _ _] H Hs p F'. pose proof (view_length _ _ Hv) as [Hlt Hlen]. pose proof (v_range _ _ Hv) as Hrg.
  destruct (AppendEntries_accept _ _ _ _ _ H Hs) as (Hr & (e & Hat & Het) & Hc & _).
  rewrite (proj1 (view_last _ _ Hv)) in Hr. rewrite copyEntries_merge in Hc by lia. injection Hc as <-.
  assert (has F (Z.to_nat (aea_PrevLogIndex args)) (aea_PrevLogTerm args)) as Hh.
  { apply (view_has F rf); [done|lia|]. by rewrite Hat, <-Het. }
  split.
  - replace (Z.to_nat (aea_PrevLogIndex args + zlen (aea_Entries args) + 1))
      with (S (Z.to_nat (aea_PrevLogIndex args)) + length (aea_Entries args))%nat by (unfold zlen; lia).
    by eapply mergeEntries_accepted.
  - f_equal; [f_equal; lia|]. f_equal. pose proof (view_drop F rf (aea_PrevLogIndex args + 1) Hv ltac:(lia)) as E.
    unfold logIndex in E. rewrite E. f_equal. lia.
Qed.

Lemma view_accepted F rf rf' (p : nat) tail : view F rf → (Z.to_nat (lastIncludedIndex rf) < p ≤ length F)%nat →
  logs rf' = take (p - Z.to_nat (lastIncludedIndex rf)) (logs rf) ++ tail →
  lastIncludedIndex rf' = lastIncludedIndex rf → commitIndex rf ≤ commitIndex rf' → view (take p F ++ tail) rf'.
Proof.
  intros [Hr (t & Ht & E)] Hp El Ei Ec. split; [lia|]. rewrite Ei. exists t. split.
  - eapply has_prefix; [by apply prefix_app_r|]. apply has_take. split; [lia|done].
  - rewrite El, E. replace (p - Z.to_nat (lastIncludedIndex rf))%nat with (S (p - S (Z.to_nat (lastIncludedIndex rf)))) by lia.
    cbn [take]. rewrite drop_app_le, take_drop_commute by (rewrite length_take; lia). cbn [app]. do 2 f_equal. f_equal. f_equal. lia.
Qed.

(** The commit index of the follower stays justified. *)
Lemma accepted_covered G T args F F' rf rf' L m ld :
  history n G → gl G !! T = Some (ld, L) → aea_Term args = T → currentTerm rf ≤ T →
  good G (currentTerm rf) F → sliceOf n G L args →
  m = Z.to_nat (aea_PrevLogIndex args + zlen (aea_Entries args) + 1) →
  accepted F L m F' → lastLogIndex rf' = zlen F' - 1 →
  covered n G (currentTerm rf) F (commitIndex rf) →
  commitIndex rf' = (if commitIndex rf <? aea_LeaderCommit args
                     then Z.min (aea_LeaderCommit args) (lastLogIndex rf') else commitIndex rf) →
  commitIndex rf ≤ commitIndex rf' ∧ covered n G T F' (commitIndex rf').
Proof.
  intros Hh HL ET HT Hg Hsl Em Ha Ei [Hc Hcs] Eci.
  destruct (h_log _ _ Hh _ _ _ HL) as [HgL _].
  pose proof (accepted_good _ _ _ _ _ _ _ Hg HgL HT Ha) as Hg'.
  rewrite Eci. destruct (Z.ltb_spec (commitIndex rf) (aea_LeaderCommit args)) as [Hlt|_].
  - destruct (sl_commit _ _ _ _ Hsl) as [Hlc Hs]. pose proof (sl_inside _ _ _ _ Hsl) as Hin. rewrite ET in Hs.
    set (k := Z.to_nat (aea_LeaderCommit args)) in *.
    destruct (has_ex L k) as [t Ht]; [unfold k, zlen in *; lia|].
    assert (has F' k t) as Hk by (eapply (ac_new _ _ _ _ Ha); [lia|done]).
    pose proof (has_lt _ _ _ Hk). rewrite Ei.
    rewrite Z.min_l by (unfold zlen; lia). split; [lia|]. split; [unfold zlen; lia|].
    destruct Hs as [?|Hs]; [lia|right]. fold k.
    by rewrite (good_matching _ _ _ _ _ _ _ Hg' HgL Hk Ht).
  - assert (take (S (Z.to_nat (commitIndex rf))) F `prefix_of` L) as Hp.
    { destruct Hcs as [->|Hs]; [|by eapply (sealed_leader n G)].
      pose proof (good_zero _ _ _ Hg). pose proof (good_zero _ _ _ HgL).
      destruct F, L; simplify_eq/=. eexists. simpl. reflexivity. }
    pose proof (accepted_prefix _ _ _ _ _ _ _ (Z.to_nat (commitIndex rf)) Hg HgL HT Ha ltac:(unfold zlen in *; lia) Hp) as E.
    split; [done|]. split.
    + apply (f_equal length) in E. rewrite !length_take in E. unfold zlen in *. lia.
    + destruct Hcs as [?|Hs]; [by left|right]. rewrite E. eapply (sealed_ext n G); [apply gext_refl|exact HT|done].
Qed.

Lemma peerOk_accept G i args F rf r rf' es L ld :
  history n G → gl G !! aea_Term args = Some (ld, L) → sliceOf n G L args → peerOk n G i F rf →
  AppendEntries args rf = Some (r, rf', es) → aer_Success r = true →
  let P := λ k, Z.of_nat k ≤ aea_PrevLogIndex args + zlen (aea_Entries args) ∧ has L k (aea_Term args) in
  gext G (addAcks G i (aea_Term args) P) ∧ ∃ F', peerOk n (addAcks G i (aea_Term args) P) i F' rf'.
Proof.
  intros Hh HL Hsl Hp H Hs P.
  destruct (AppendEntries_accept_ok n G i _ _ _ _ _ H Hs) as (HT & Ea & En & Em & _).
  destruct (AppendEntries_accept _ _ _ _ _ H Hs) as (Hr & _ & _ & ET & Es & Ei & Ec).
  destruct (h_log _ _ Hh _ _ _ HL) as [HgL _].
  destruct Hp as [Pv Pg Pm Pa Pld Pcd Pled Pcp Pak Ppr Pco].
  destruct (AppendEntries_accepted _ _ _ _ _ _ _ _ _ Pv Pg HgL Hsl H Hs) as [Hac El].
  set (F' := take _ F ++ _) in Hac.
  rewrite (proj1 (view_last _ _ Pv)) in Hr. pose proof (v_range _ _ Pv) as Hrg. pose proof (view_length _ _ Pv) as [_ Hlen].
  destruct (accepted_covered G _ args F F' rf rf' L _ ld Hh HL eq_refl HT Pg Hsl eq_refl Hac) as [Hmono Hcov]; [|done|done|].
  { unfold lastLogIndex, F', zlen in *. rewrite El, Ei, !length_app, !length_take. lia. }
  assert (view F' rf') as Hv' by (apply (view_accepted F rf); [done|unfold zlen in Hr; lia|done..]).
  assert (gext G (addAcks G i (aea_Term args) P)) as He.
  { apply gext_acks. intros T' ?%Ppr. lia. }
  split; [done|]. exists F'. split; rewrite ?ET, ?Es, ?Ea, ?En, ?Em; try done.
  - eapply good_ext; [done|]. exact (accepted_good _ _ _ _ _ _ _ Pg HgL HT Hac).
  - intros T L0 [?|[-> _]]%Pled; [left; lia|]. destruct (decide (currentTerm rf = aea_Term args)); [by right|left; lia].
  - intros T x ?%Pcp. lia.
  - intros T k [Hk|(_ & -> & Hk & Hkt)].
    + destruct (Pak _ _ Hk) as [HTk Hor]. split; [lia|]. destruct Hor as [Hold|Hlost].
      2:{ right. eapply (lost_ext G _ _ _ (currentTerm rf)); [done|lia|done]. }
      destruct (decide (has L k T)) as [Hyes|Hno]; [left; by apply (ac_keep _ _ _ _ Hac)|right].
      exists (aea_Term args), ld, L. split; [|done]. split; [|lia].
      destruct (decide (T = aea_Term args)) as [->|?]; [|lia]. exfalso. apply Hno.
      destruct (h_ack _ _ Hh _ _ _ Hk) as (ld' & L' & HL' & ?). by simplify_eq.
    + split; [done|]. left. apply (ac_new _ _ _ _ Hac); [|done].
      pose proof (sl_prev _ _ _ _ Hsl). pose proof (zlen_nonneg (aea_Entries args)). lia.
  - intros T ?%Ppr. lia.
  - by eapply covered_ext; [exact He|reflexivity|reflexivity|].
Qed.

(** An [AppendEntries] request is executed. *)
Lemma linv_deliver_append G w k c args r rf es sv :
  linv n G w → calls w !! k = Some c → c_status c = Requested → c_args c = CallAppendEntries args →
  idx (servers w) (c_dst c) = Some sv → AppendEntries args (sv_rf sv) = Some (r, rf, es) →
  ∃ G', gext G G' ∧
    linv n G' (setStatus k c (Executed (ReplyAppendEntries r)) (putServer (c_dst c) sv rf es w)).
Proof.
  intros Hl Hk Hs Ha Hi Hm. destruct (linv_peer _ _ _ _ _ Hl Hi) as [[F Hp] Htk].
  assert (calls (putServer (c_dst c) sv rf es w) !! k = Some c) as Hk' by by apply lookup_app_l_Some.
  assert (∀ r0, c_status c ≠ Returned r0) as Hnr by congruence.
  pose proof (l_calls _ _ _ Hl _ _ Hk) as Hok.
  destruct (aer_Success r) eqn:Hr.
  - pose proof Hok as Hok'. unfold callOk in Hok'. rewrite Ha in Hok'. destruct Hok' as (L & HL & Hsl & _).
    destruct (peerOk_accept G (c_dst c) _ _ _ _ _ _ _ _ (l_hist _ _ _ Hl) HL Hsl Hp Hm Hr) as [He [F' Hp']].
    destruct (AppendEntries_accept _ _ _ _ _ Hm Hr) as (_ & _ & _ & _ & _ & Ei & _).
    eexists. split; [exact He|]. apply linv_status; try done.
    + eapply (linv_put n G _ _ _ _ F'); eauto using owns_acks; [..|by rewrite Ei|].
      * intros v T j [?|(-> & -> & _ & ?)]; [by left|right]. eauto.
      * by destruct (AppendEntries_accept_ok n G (c_dst c) _ _ _ _ _ Hm Hr) as (_ & ? & _).
      * destruct (AppendEntries_accept_ok n G (c_dst c) _ _ _ _ _ Hm Hr) as (_ & _ & _ & _ & [H1 H2]).
        split; [|done]. intros d Hd. eapply callOk_ext; eauto.
    + apply (callOk_ext n _ _ _ He) in Hok. unfold callOk in *. simpl. rewrite Ha in *. simpl in Hok.
      destruct Hok as (L' & HL' & Hsl' & _). exists L'. split; [done|]. split; [done|].
      intros _ j Hj Hh. right. rewrite HL in HL'. injection HL' as <-. done.
  - destruct (AppendEntries_reject_ok n G (c_dst c) _ _ _ _ _ Hm Hr) as [Hc Hes].
    exists G. split; [apply gext_refl|]. apply linv_status; try done; [by apply linv_calm|].
    apply callOk_status; [done|by intros| |by intros]. simpl. congruence.
Qed.

(** An [InstallSnapshot] request that returns early is executed: the follower has what the leader
    committed, so it acknowledges it. *)
Lemma linv_deliver_snapshot G w k c args r rf es sv :
  linv n G w → calls w !! k = Some c → c_status c = Requested → c_args c = CallInstallSnapshot args →
  idx (servers w) (c_dst c) = Some sv → overwrites args (sv_rf sv) = false →
  InstallSnapshot args (sv_rf sv) = Some (r, rf, es) →
  ∃ G', gext G G' ∧
    linv n G' (setStatus k c (Executed (ReplyInstallSnapshot r)) (putServer (c_dst c) sv rf es w)).
Proof.
  intros Hl Hk Hs Ha Hi Ho Hm. destruct (linv_peer _ _ _ _ _ Hl Hi) as [[F Hp] Htk].
  assert (calls (putServer (c_dst c) sv rf es w) !! k = Some c) as Hk' by by apply lookup_app_l_Some.
  assert (∀ r0, c_status c ≠ Returned r0) as Hnr by congruence.
  pose proof (l_calls _ _ _ Hl _ _ Hk) as Hok.
  destruct (InstallSnapshot_ok n G (c_dst c) _ _ _ _ _ Ho Hm) as (Hc & Hes & Hh).
  destruct (Z.leb_spec (isr_Term r) (isa_Term args)) as [Hle|Hgt].
  - pose proof (peerOk_calm n G _ _ _ _ (l_hist _ _ _ Hl) Hc Hp) as Hp'. destruct (Hh Hle) as [ET Hhave].
    unfold callOk in Hok. rewrite Ha in Hok. destruct Hok as (L & HL & Hli & _).
    set (P := λ j, Z.of_nat j ≤ isa_LastIncludedIndex args ∧ has L j (isa_Term args)).
    assert (∀ j, P j → has F j (isa_Term args)) as HP.
    { intros j [Hj Hjt]. pose proof (v_range _ _ (p_view _ _ _ _ _ Hp)) as Hrg. destruct (p_commit _ _ _ _ _ Hp') as [Hcr Hcs].
      rewrite (c_commit _ _ Hc) in *. destruct Hcs as [E|Hseal].
      - assert (j = 0%nat) as -> by lia. pose proof (has_fun _ _ _ _ Hjt (good_has0 _ _ _ (proj1 (h_log _ _ (l_hist _ _ _ Hl) _ _ _ HL)))) as E0.
        rewrite E0. by eapply good_has0, p_good.
      - rewrite ET in Hseal. pose proof (sealed_leader n G _ _ _ _ _ (l_hist _ _ _ Hl) Hseal HL ltac:(lia)) as Hpre.
        eapply has_take, (has_prefix_inv _ L j); [exact Hpre| |exact Hjt]. rewrite length_take. unfold zlen in *. lia. }
    assert (gext G (addAcks G (c_dst c) (isa_Term args) P)) as He.
    { apply gext_acks. intros T' ?%(p_prom _ _ _ _ _ Hp'). lia. }
    eexists. split; [exact He|]. apply linv_status; try done.
    + eapply (linv_put n G _ _ _ _ F); eauto using owns_acks, c_applied; [|by rewrite (c_lii _ _ Hc)|..].
      * intros v T j [?|(-> & -> & _ & ?)]; [by left|right]. eauto.
      * eapply peerOk_grow; [done|done|done|intros; by left| |intros; by left]. intros T j [?|(_ & -> & ?%HP)]; [by left|right]. split; [lia|done].
      * destruct Hes as [H1 H2]. split; [|done]. intros d Hd. eapply callOk_ext; eauto.
    + unfold callOk. simpl. rewrite Ha. exists L. split; [done|]. split; [done|]. intros _ j Hj Hjt. by right.
  - exists G. split; [apply gext_refl|]. apply linv_status; try done; [by apply linv_calm|].
    unfold callOk in *. simpl. rewrite Ha in *. destruct Hok as (L & HL & Hli & _). exists L. split; [done|]. split; [done|].
    rewrite (proj2 (Z.leb_gt _ _) Hgt). done.
Qed.
End accept.

(** ** The leader counts an acknowledgement *)

Section reply.
Context {C : Type} `{!Gob (PersistentStatus C)} (n : nat).
Implicit Types (G : ghost C) (w : cluster C) (c : call C) (rf : Raft C) (sv : server C).

(** The peers whose match index has reached [N]. *)
Definition holders rf (N : Z) : list Z :=
  filter (λ p, N ≤ default (-1) (idx (matchIndex rf) p)) (range 0 (npeers rf)).

Lemma succeedNum_holders rf N num :
  0 ≤ N → succeedNum rf N = Some num → 0 < num →
  num ≤ zlen (holders rf N) ∧ le_Term <$> idx (logs rf) (logIndex rf N) = Some (currentTerm rf).
Proof.
  intros HN. unfold succeedNum, holders.
  assert (∀ ps k, foldM (λ num p, m ← idx (matchIndex rf) p;
      if N <=? m then e ← idx (logs rf) (logIndex rf N);
        Some (if le_Term e =? currentTerm rf then num + 1 else num)
      else Some num) ps k = Some num → k < num →
    num ≤ k + zlen (filter (λ p, N ≤ default (-1) (idx (matchIndex rf) p)) ps) ∧
    le_Term <$> idx (logs rf) (logIndex rf N) = Some (currentTerm rf)) as Hgen.
  { induction ps as [|p ps IH]; intros k H Hk; simpl in H; [injection H as ->; lia|].
    apply bind_Some in H as (k' & Hb & H). apply bind_Some in Hb as (m & Hm & Hb).
    rewrite filter_cons, Hm. simpl. destruct (Z.leb_spec N m).
    - rewrite decide_True by lia. apply bind_Some in Hb as (e & He & [= <-]). rewrite He. simpl.
      rewrite zlen_cons. destruct (Z.eqb_spec (le_Term e) (currentTerm rf)) as [E|E].
      + split; [|by rewrite E]. destruct (decide (k + 1 < num)) as [Hlt|?].
        * destruct (IH _ H Hlt). lia.
        * pose proof (zlen_nonneg (filter (λ p, N ≤ default (-1) (idx (matchIndex rf) p)) ps)). lia.
      + destruct (IH _ H Hk) as [? Ht]. rewrite He in Ht. simpl in Ht. congruence.
    - rewrite decide_False by lia. injection Hb as ->. by apply IH. }
  intros H Hpos. destruct (Hgen _ _ H Hpos) as [? ?]. split; [lia|done].
Qed.

Lemma findCommit_sound rf N :
  findCommit rf = Some N →
  N = commitIndex rf ∨
  commitIndex rf < N < realLogLen rf ∧ ∃ num, succeedNum rf N = Some num ∧ npeers rf ÷ 2 < num.
Proof.
  unfold findCommit. apply (foldM_inv (λ N, N = commitIndex rf ∨
    commitIndex rf < N < realLogLen rf ∧ ∃ num, succeedNum rf N = Some num ∧ npeers rf ÷ 2 < num)); [|by left].
  intros N' M M' Hr%elem_of_range HM Hb. inv_bind Hb. injection Hb as <-.
  destruct (Z.ltb_spec (npeers rf ÷ 2) x); [|done]. right. split; [lia|]. eauto.
Qed.

(** The commit rule commits what a majority acknowledged. *)
Lemma findCommit_committed G i F rf N :
  peerOk n G i F rf → state rf = Leader → npeers rf = Z.of_nat n →
  findCommit rf = Some N → commitIndex rf ≤ N ∧ covered n G (currentTerm rf) F N.
Proof.
  intros Hp Hs Hn [->|[[Hlo Hhi] (num & Hnum & Hmaj)]]%findCommit_sound; [split; [lia|by apply (p_commit _ _ _ _ _ Hp)]|].
  pose proof (p_view _ _ _ _ _ Hp) as Hv. pose proof (v_range _ _ Hv) as Hrg.
  destruct (p_commit _ _ _ _ _ Hp) as [Hc _]. destruct (p_leader _ _ _ _ _ Hp Hs) as (HL & _ & Hms).
  rewrite (proj2 (view_last _ _ Hv)) in Hhi.
  assert (0 ≤ npeers rf ÷ 2) by (apply Z.quot_pos; lia).
  destruct (succeedNum_holders rf N num) as [Hq Ht]; [lia|done|lia|].
  apply (view_has F) in Ht; [|done|lia].
  split; [lia|]. split; [lia|right]. exists (currentTerm rf), i, F, (Z.to_nat N). split_and!; [done|done| |done].
  exists i, F, (list_to_set (holders rf N)). split_and!; [done|done| |].
  - split.
    + intros v. rewrite !elem_of_list_to_set. unfold holders. rewrite list_elem_of_filter, Hn. tauto.
    + rewrite size_list_to_set by apply NoDup_filter, NoDup_seqZ. rewrite Hn in Hmaj. unfold zlen in Hq. lia.
  - intros v Hv'. apply elem_of_list_to_set, list_elem_of_filter in Hv' as [Hv' _].
    destruct (idx (matchIndex rf) v) as [m|] eqn:Hm; simpl in Hv'; [|lia].
    eapply Hms; [exact Hm|lia|done].
Qed.

Lemma handleSendAppendEntries_ok G i peer args reply rf u rf' es :
  handleSendAppendEntries peer args reply rf = Some (u, rf', es) →
  okEffects n G i es ∧
  (calm rf rf' ∨
   state rf = Leader ∧ currentTerm rf = aea_Term args ∧ aer_Success reply = true ∧
   ∃ m ns N, idx (matchIndex rf) peer = Some m ∧
     let rf1 := set_nextIndex ns (set_matchIndex
       (<[Z.to_nat peer := Z.max m (aea_PrevLogIndex args + zlen (aea_Entries args))]> (matchIndex rf)) rf) in
     findCommit rf1 = Some N ∧ (rf' = rf1 ∨ rf' = set_commitIndex N rf1)).
Proof.
  unfold handleSendAppendEntries, checkAndCommitLogs, findNextIndex.
  intros H. minv H; (split; [calm_solve|]).
  all: try (left; calm_solve; fail).
  all: right; bool_simpl; match goal with H : _ ∧ bool_decide _ = true |- _ => destruct H as [? Hl%bool_decide_eq_true] end.
  all: repeat match goal with H : upd _ _ _ = Some _ |- _ => apply upd_Some in H as [? ->] end.
  all: split_and!; try done; simpl in *.
  all: eexists _, _, _; split; [eassumption|]; cbv zeta; split; [eassumption|auto].
Qed.

(** The match index of [peer] moves up to the end of acknowledged entries. *)
Lemma peerOk_match G i F rf peer m m' ns last :
  peerOk n G i F rf → idx (matchIndex rf) peer = Some m → m' = Z.max m last →
  (state rf = Leader → last < zlen F ∧
    ∀ j, Z.of_nat j ≤ last → has F j (currentTerm rf) → ga G peer (currentTerm rf) j) →
  peerOk n G i F (set_nextIndex ns (set_matchIndex (<[Z.to_nat peer := m']> (matchIndex rf)) rf)).
Proof.
  intros [Pv Pg Pm Pa Pld Pcd Pled Pcp Pak Ppr Pco] Hm Em Hlast. split; simpl; try done.
  - by eapply view_same.
  - by rewrite zlen_insert.
  - intros Hs. destruct (Pld Hs) as (HL & Hown & Hms), (Hlast Hs) as [Hlt Hj]. split; [done|]. split; [done|].
    intros p x Hp. destruct (idx_insert_inv _ _ _ _ _ _ Hm Hp) as [[-> ->]|[_ Hp']]; [|by apply Hms].
    destruct (Hms _ _ Hm) as [? Hjm]. split; [lia|]. intros j Hjx Hh.
    destruct (decide (Z.of_nat j ≤ m)); [by apply Hjm|apply Hj; [lia|done]].
Qed.

Lemma peerOk_commit G i F rf N :
  peerOk n G i F rf → commitIndex rf ≤ N → covered n G (currentTerm rf) F N → peerOk n G i F (set_commitIndex N rf).
Proof. intros [Pv Pg Pm Pa Pld Pcd Pled Pcp Pak Ppr Pco] HN Hc. split; try done. by eapply view_same. Qed.

Lemma linv_appendReply G w k c args r u w' :
  einv n w → linv n G w → calls w !! k = Some c → c_args c = CallAppendEntries args →
  c_status c = Returned (Some (ReplyAppendEntries r)) →
  runOn (c_src c) (handleSendAppendEntries (c_dst c) args r) w = Some (u, w') → linv n G w'.
Proof.
  intros He Hl Hk Ha Hst (sv & rf' & es & Hi & Hm & ->)%runOn_Some.
  destruct (linv_peer _ _ _ _ _ Hl Hi) as [[F Hp] Htk].
  destruct (e_ids _ _ He _ _ Hi) as [_ Hn].
  destruct (handleSendAppendEntries_ok G (c_src c) _ _ _ _ _ _ _ Hm)
    as [Hes [Hc|(Hs & ET & Hr & m & ns & N & Hmi & Hf & Erf)]]; [by apply linv_calm|].
  eapply (linv_put n G G _ _ _ F); eauto using gext_refl, owns_refl; [by destruct Erf as [->| ->]..|].
  pose proof (l_calls _ _ _ Hl _ _ Hk) as Hok. unfold callOk in Hok. rewrite Ha, Hst in Hok.
  destruct Hok as (L & HL & Hsl & Hack). destruct (p_leader _ _ _ _ _ Hp Hs) as (HL' & _).
  rewrite ET, HL in HL'. injection HL' as ->.
  match type of Hf with findCommit ?r = _ => set (rf1 := r) in * end.
  assert (peerOk n G (c_src c) F rf1) as Hp1.
  { eapply peerOk_match; [done|exact Hmi|reflexivity|]. intros _. split; [by eapply sliceOf_length|].
    rewrite ET. intros j. by apply Hack. }
  destruct Erf as [->| ->]; [done|]. destruct (findCommit_committed G (c_src c) F rf1 N) as [? ?]; [done..|].
  by apply peerOk_commit.
Qed.

Lemma linv_snapshotReply G w k c args r u w' :
  linv n G w → calls w !! k = Some c → c_args c = CallInstallSnapshot args →
  c_status c = Returned (Some (ReplyInstallSnapshot r)) →
  runOn (c_src c) (handleSendInstallSnapshot (c_dst c) args r) w = Some (u, w') → linv n G w'.
Proof.
  intros Hl Hk Ha Hst (sv & rf' & es & Hi & Hm & ->)%runOn_Some.
  destruct (linv_peer _ _ _ _ _ Hl Hi) as [[F Hp] Htk].
  destruct (handleSendInstallSnapshot_ok n G (c_src c) _ _ _ _ _ _ _ Hm)
    as [Hes [Hc|(Hs & ET & Hr & m & ns & Hmi & Erf)]]; [by apply linv_calm|].
  eapply (linv_put n G G _ _ _ F); eauto using gext_refl, owns_refl; [by rewrite Erf..|]. rewrite Erf.
  pose proof (l_calls _ _ _ Hl _ _ Hk) as Hok. unfold callOk in Hok. rewrite Ha, Hst in Hok.
  destruct Hok as (L & HL & Hli & Hack). destruct (p_leader _ _ _ _ _ Hp Hs) as (HL' & _).
  rewrite ET, HL in HL'. injection HL' as ->.
  eapply peerOk_match; [done|exact Hmi|reflexivity|]. intros _. split; [lia|].
  rewrite ET. intros j. apply Hack. simpl. lia.
Qed.

End reply.

(** ** Delivery *)

Section delivery.
Context {C : Type} `{!Gob (PersistentStatus C)} (n : nat).
Implicit Types (G : ghost C) (w : cluster C) (c : call C) (rf : Raft C) (sv : server C).

(** The applier collects sealed commands. *)
Lemma collectMsgs_delivered G i F rf ms m :
  peerOk n G i F rf → lastIncludedIndex rf ≤ lastApplied rf → collectMsgs rf = Some ms → m ∈ ms → delivered n G m.
Proof.
  intros Hp Hli Hms [k Hk]%list_elem_of_lookup. apply mapM_Some in Hms.
  destruct (Forall2_lookup_r _ _ _ _ _ Hms Hk) as (j & Hj%list_elem_of_lookup_2%elem_of_range & Hm).
  unfold applyMsgAt in Hm. inv_bind Hm. injection Hm as <-.
  match goal with H : idx _ _ = Some ?e |- _ => rename H into Hx; rename e into e' end.
  change (entryAt rf j = Some e') in Hx. rewrite (view_entry F) in Hx by (apply Hp || lia).
  pose proof (p_applied _ _ _ _ _ Hp). destruct (p_commit _ _ _ _ _ Hp) as [Hc [?|Hs]]; [lia|].
  split; [simpl; lia|]. eexists _, _, e'. split; [exact Hs|]. split; [|done]. simpl. by rewrite lookup_take_lt by lia.
Qed.

Lemma peerOk_applied G i F rf la rp :
  0 ≤ la → peerOk n G i F rf → peerOk n G i F (set_lastApplied la (set_replicatePreSnapshot rp rf)).
Proof. intros ? [Pv Pg Pm Pa Pld Pcd Pled Pcp Pak Ppr Pco]. split; try done. by eapply view_same. Qed.

(** The applier waits when everything it delivered is accounted for. *)
Lemma inOrder_waiting sv : inOrder [] 0 sv → sv_applier sv = ApWait → zlen (sv_applyCh sv) = lastApplied (sv_rf sv).
Proof.
  intros Ho E. pose proof (io_indices _ _ Ho) as Ei. pose proof (io_start _ _ _ Ho). apply (f_equal length) in Ei.
  unfold undelivered in Ei. rewrite E, length_fmap in Ei. unfold range in Ei. rewrite length_seqZ in Ei. unfold zlen. lia.
Qed.

Lemma serverOk_applier G i sv sv' : applierStep sv = Some sv' → serverOk n G i sv → serverOk n G i sv'.
Proof.
  intros Hst [[F Hp] Ht Ho Hm]. pose proof (applierStep_inOrder _ _ _ _ Hst Ho) as Ho'. pose proof (inOrder_waiting _ Ho) as Hw. revert Hst Ho'.
  unfold applierStep. destruct sv as [rf pc sn sg ch]; simpl in *.
  pose proof (p_applied _ _ _ _ _ Hp) as Hla.
  assert (∀ rp, peerOk n G i F (set_replicatePreSnapshot rp rf)) as Hrp
    by (intros rp; pose proof (peerOk_applied _ _ _ _ (lastApplied rf) rp Hla Hp) as H; by destruct rf).
  destruct pc as [|[|m ms]|m ms|m ms|m ms]; simpl in *; intros Hst Ho'.
  - destruct (_ <=? _); [done|]. inv_bind Hst. injection Hst as <-. split; simpl; try done; [by exists F|].
    intros m0. rewrite elem_of_app. intros [?|?]; [apply Hm; set_solver|]. eapply collectMsgs_delivered; [done| |done|done]. rewrite <-Hw by done. done.
  - injection Hst as <-. split; try done. by exists F.
  - destruct (negb _); injection Hst as <-; (split; simpl; [exists F; auto|done|auto|]); [|done].
    intros m0 ?. apply Hm. set_solver.
  - injection Hst as <-. split; simpl; try done; [by exists F|rewrite zlen_app, zlen_cons; pose proof (zlen_nonneg ([] : list (ApplyMsg C))); lia|].
    intros m0 ?. apply Hm. set_solver.
  - injection Hst as <-. split; simpl; try done. by exists F.
  - injection Hst as <-. split; simpl; try done; [|intros m0 ?; apply Hm; set_solver]. exists F.
    pose proof (peerOk_applied _ _ _ _ (Z.max (CommandIndex m) (lastApplied rf)) (replicatePreSnapshot rf) ltac:(lia) Hp) as H.
    by destruct rf.
Qed.

(** ** Compaction *)

Lemma Snapshot_ok index snap rf u rf' es :
  Snapshot index snap rf = Some (u, rf', es) →
  es = [] ∧ (rf' = rf ∨
    lastIncludedIndex rf < index ≤ commitIndex rf ∧ lastIncludedIndex rf' = index ∧
    (∃ e, entryAt rf index = Some e ∧ logs rf' = mkEntry (le_Term e) None :: drop (Z.to_nat (logIndex rf (index + 1))) (logs rf)) ∧
    currentTerm rf' = currentTerm rf ∧ state rf' = state rf ∧ commitIndex rf' = commitIndex rf ∧
    lastApplied rf' = lastApplied rf ∧ npeers rf' = npeers rf ∧ matchIndex rf' = matchIndex rf).
Proof.
  unfold Snapshot. intros H. minv H; [split; [done|by left]|]. persist_simpl. split; [done|right]. bool_simpl. simpl in *.
  match goal with H : slice_from _ _ = Some _ |- _ => apply slice_from_Some in H as [? ->] end.
  split; [lia|]. split; [done|]. split; [|done]. eexists. split; [done|]. do 3 f_equal. unfold logIndex. lia.
Qed.

(** The service compacts the log of its peer up to an index it has received. *)
Lemma linv_compact G w i index snap u w' sv :
  linv n G w → runOn i (Snapshot index snap) w = Some (u, w') → idx (servers w) i = Some sv → index ≤ zlen (sv_applyCh sv) →
  linv n G w'.
Proof.
  intros Hl (sv0 & rf' & es & Hi & Hm & ->)%runOn_Some Hi' Hx. assert (sv0 = sv) as -> by congruence.
  destruct (linv_peer _ _ _ _ _ Hl Hi) as [[F Hp] Htk].
  destruct (Snapshot_ok _ _ _ _ _ _ Hm) as [-> [->|(Hr & Ei & (e & He & El) & ET & Es & Ec & Ea & En & Em)]].
  { apply linv_calm; [done|done|apply calm_refl|apply okEffects_nil]. }
  eapply (linv_put n G G _ _ _ F); eauto using gext_refl, owns_refl; [by rewrite Ei| |apply okEffects_nil].
  destruct Hp as [Pv Pg Pm Pa Pld Pcd Pled Pcp Pak Ppr Pco]. pose proof (v_range _ _ Pv) as Hrg.
  split; rewrite ?ET, ?Es, ?Ec, ?Ea, ?En, ?Em; try done. split; rewrite ?Ei, ?Ec; [lia|]. exists (le_Term e). split.
  - apply (view_has F (sv_rf sv)); [done|lia|]. by rewrite He.
  - rewrite El, (view_drop F) by (done || lia). do 2 f_equal. lia.
Qed.

Lemma linv_setServer G w i sv sv' :
  linv n G w → idx (servers w) i = Some sv → serverOk n G i sv' → linv n G (setServer i sv' w).
Proof.
  intros Hl Hi Hs. eapply (linv_move n G G w (setServer i sv' w) i sv sv' []);
    eauto using gext_refl, owns_refl; [done|by rewrite app_nil_r|by intros c ?%elem_of_nil].
Qed.
End delivery.

(** ** Every action *)

Section actions.
Context {C : Type} `{!Gob (PersistentStatus C)} (n : nat).
Implicit Types (G : ghost C) (w : cluster C) (c : call C).

Lemma linv_same {A} G w i (m : M C A) a w' :
  linv n G w → runOn i m w = Some (a, w') →
  (∀ sv F rf' es, idx (servers w) i = Some sv → peerOk n G i F (sv_rf sv) → m (sv_rf sv) = Some (a, rf', es) →
     calm (sv_rf sv) rf' ∧ okEffects n G i es) →
  linv n G w'.
Proof.
  intros Hl (sv & rf' & es & Hi & Hm & ->)%runOn_Some Hc.
  destruct (linv_peer _ _ _ _ _ Hl Hi) as [[F Hp] _]. destruct (Hc sv F rf' es Hi Hp Hm). by apply linv_calm.
Qed.

Lemma linv_deliver G w k c r w' :
  linv n G w → calls w !! k = Some c → c_status c = Requested → keeps (Deliver k) w = true →
  runOn (c_dst c) (handler (c_args c)) w = Some (r, w') →
  ∃ G', gext G G' ∧ linv n G' (setStatus k c (Executed r) w').
Proof.
  intros Hl Hk Hs Hkp (sv & rf & es & Hi & Hm & ->)%runOn_Some. simpl in Hkp. rewrite Hk in Hkp.
  destruct (c_args c) as [args|args|args] eqn:Ha; unfold handler in Hm; minv Hm; rewrite app_nil_r.
  - by eapply linv_deliver_vote.
  - by eapply linv_deliver_append.
  - rewrite Hi in Hkp. apply negb_true_iff in Hkp. by eapply linv_deliver_snapshot.
Qed.

Lemma linv_answer G w k c r w' :
  einv n w → einv n (setStatus k c (Returned (Some r)) w) → einv n w' → linv n G w →
  calls w !! k = Some c → c_status c = Executed r →
  onReply c r (setStatus k c (Returned (Some r)) w) = Some w' → ∃ G', gext G G' ∧ linv n G' w'.
Proof.
  intros He He1 He' Hl Hk Hs Hr. set (w1 := setStatus _ _ _ _) in *.
  set (c1 := mkCall (c_src c) (c_dst c) (c_args c) (Returned (Some r)) (c_alive c)).
  assert (linv n G w1) as Hl1.
  { apply linv_status; [done|done|congruence|]. apply callOk_status; [by eapply l_calls|..]; by rewrite Hs. }
  assert (calls w1 !! k = Some c1) as Hk1 by (apply list_lookup_insert_eq; by eapply lookup_lt_Some).
  destruct (c_args c) as [args|args|args] eqn:Ha, r as [r|r|r];
    try (unfold onReply in Hr; rewrite Ha in Hr; discriminate Hr).
  - by apply (linv_voteReply n G w1 c args r w').
  - unfold onReply in Hr. rewrite Ha in Hr. apply bind_Some in Hr as ([[] w2] & Hr & [= <-]).
    exists G. split; [apply gext_refl|]. by eapply (linv_appendReply n G w1 k c1 args r).
  - unfold onReply in Hr. rewrite Ha in Hr. apply bind_Some in Hr as ([[] w2] & Hr & [= <-]).
    exists G. split; [apply gext_refl|]. by eapply (linv_snapshotReply n G w1 k c1 args r).
Qed.

Lemma einv_returned w k c r :
  einv n w → calls w !! k = Some c → c_status c = Executed r →
  einv n (setStatus k c (Returned (Some r)) w).
Proof.
  intros He Hk Hs. apply einv_status; [done|done| |].
  - intros i T. unfold countedFor. rewrite Hs. by destruct (c_args c).
  - intros Hg. left. by rewrite Hs.
Qed.

Lemma linv_step G l w w' :
  keeps l w = true → einv n w → linv n G w → step l w = Some w' → ∃ G', gext G G' ∧ linv n G' w'.
Proof.
  intros Hkp He Hl Hst. assert (einv n w') as He'.
  { eapply einv_step; [|exact He|exact Hst]. by destruct l. }
  assert (∀ A i (m : M C A) w0 a w1, linv n G w0 → runOn i m w0 = Some (a, w1) →
    (∀ sv F rf' es, idx (servers w0) i = Some sv → peerOk n G i F (sv_rf sv) → m (sv_rf sv) = Some (a, rf', es) →
      calm (sv_rf sv) rf' ∧ okEffects n G i es) → ∃ G', gext G G' ∧ linv n G' w1) as Hsame.
  { intros. exists G. split; [apply gext_refl|by eapply linv_same]. }
  destruct l; simpl in Hst; try done; inv_bind Hst.
  - match goal with H : runOn _ _ _ = Some ?p |- _ => destruct p as [u w1]; rename H into Hr end.
    inv_bind Hst. injection Hst as <-. destruct (linv_timeout n G w i u w1 Hl Hr) as (G' & ? & ?).
    exists G'. split; [done|by apply linv_setVotes].
  - match goal with H : runOn _ _ _ = Some ?p |- _ => destruct p as [u w1]; rename H into Hr end. injection Hst as <-.
    eapply Hsame; [exact Hl|exact Hr|]. intros sv F rf' es Hi Hp Hm.
    eapply heartbeatEvent_ok; [done|by apply (e_ids _ _ He)|done].
  - rename x into sv. match goal with H : idx _ _ = Some sv |- _ => rename H into Hi end. case_match; [done|].
    apply bind_Some in Hst as ([u w1] & Hr & [= <-]). pose proof (l_servers _ _ _ Hl _ _ Hi) as [Hp Htk [? ? ? ? ?] Hm].
    eapply Hsame; [|exact Hr|]; [eapply linv_setServer; [done|done|by split]|].
    intros sv' F rf' es [[_ ->]|[? _]]%(idx_insert_inv _ _ _ _ _ _ Hi) Hp' Hm'; [|done].
    eapply AddLogEvent_ok; [exact Hp'|exact (proj1 (e_ids _ _ He _ _ Hi))|exact Hm'].
  - case_match; [|done..]. apply bind_Some in Hst as ([r w1] & Hr & [= <-]). by eapply linv_deliver.
  - rename x into c. match goal with H : calls w !! _ = Some c |- _ => rename H into Hk end.
    pose proof (l_calls _ _ _ Hl _ _ Hk) as Hok.
    assert (∀ r, c_status c ≠ Returned r) as Hnr by (intros r E; by rewrite E in Hst).
    destruct (c_status c) eqn:E; [| |by destruct (Hnr r)]; injection Hst as <-; exists G; (split; [apply gext_refl|]);
      (apply linv_status; [done|done|by intros ?; rewrite E|by apply callOk_status]).
  - rename x into c. match goal with H : calls w !! _ = Some c |- _ => rename H into Hk end.
    destruct (c_status c) as [|r|] eqn:E; [done| |done]. pose proof (einv_returned _ _ _ _ He Hk E) as He1.
    destruct (c_alive c) eqn:Eal; [by apply (linv_answer G w k c r w')|]. injection Hst as <-. exists G.
    split; [apply gext_refl|]. apply linv_status; [done|done|by intros ?; rewrite E|].
    apply callOk_status; [by eapply l_calls|..]; by rewrite E.
  - match goal with H : runOn _ _ _ = Some ?p |- _ => destruct p as [u w1]; rename H into Hr end. injection Hst as <-.
    by apply (linv_start n G w i cmd u w1).
  - match goal with H : runOn _ _ _ = Some ?p |- _ => destruct p as [u w1]; rename H into Hr end. injection Hst as <-.
    exists G. split; [apply gext_refl|]. pose proof Hr as (sv & _ & _ & Hi & _)%runOn_Some. simpl in Hkp. rewrite Hi in Hkp.
    eapply linv_compact; [done|exact Hr|exact Hi|]. bool_simpl. done.
  - rename x into sv, x0 into sv'. injection Hst as <-. exists G. split; [apply gext_refl|].
    eapply linv_setServer; [done|done|]. eapply serverOk_applier; [done|by eapply l_servers].
  - rename x into sv. match goal with H : idx _ _ = Some sv |- _ => rename H into Hi end.
    match goal with H : snapStep _ _ = _ |- _ => rename H into Hsn end.
    by rewrite (inOrder_snapStep _ _ _ _ (s_order _ _ _ _ (l_servers _ _ _ Hl _ _ Hi))) in Hsn.
Qed.

Definition noHistory : ghost C := mkGhost ∅ (λ _ _ _, False) (λ _ _, False) ∅.

Lemma linv_init : linv n noHistory (initCluster n).
Proof.
  assert (∀ i t, has [mkEntry (C:=C) 0 None] i t → i = 0%nat ∧ t = 0) as H1.
  { intros [|i] t (e & He & <-)%has_Some; [|done]. by injection He as <-. }
  split.
  - split; simpl; [intros T ld L; by rewrite lookup_empty|done].
  - intros T ld L. simpl. by rewrite lookup_empty.
  - intros i sv [-> Hi]%idx_initCluster. split; simpl; [|done|apply (inOrder_new (freshRaft _ _ _))|by intros m ?%elem_of_nil].
    exists [mkEntry 0 None]. split; simpl; try done; try (intros ?; intros; by rewrite lookup_empty in *).
    + split; [done|]. by exists 0.
    + split; [done|..].
      * intros j k s t _ [_ ->]%H1 [_ ->]%H1. done.
      * intros j t [_ ->]%H1. done.
      * intros j t ? [-> _]%H1. lia.
      * intros [|[|j]] e ?; [lia|done..].
    + unfold zlen. rewrite length_replicate. lia.
    + split; [done|by left].
  - intros k c Hk. done.
Qed.

(** In every run that keeps the logs the history accounts for the cluster and only grows. *)
Lemma linv_later G w w' :
  einv n w → linv n G w → laterKeeps w w' → einv n w' ∧ ∃ G', gext G G' ∧ linv n G' w'.
Proof.
  intros He Hl. induction 1 as [|w1 l w2 _ [He1 (G1 & ? & Hl1)] Hkp Hst]; [eauto using gext_refl|].
  split; [eapply einv_step; [|exact He1|exact Hst]; by destruct l|].
  destruct (linv_step _ _ _ _ Hkp He1 Hl1 Hst) as (G2 & ? & ?). exists G2. split; [by eapply gext_trans|done].
Qed.

Lemma linv_reachable w : reachable_keeps n w → einv n w ∧ ∃ G, linv n G w.
Proof.
  intros Hr. destruct (linv_later noHistory _ _ (einv_init n) linv_init Hr) as [? (G & _ & ?)]. eauto.
Qed.
End actions.
