(* ===== verification/RaftSafety.v ===== *)
(** * Log Matching, Leader Completeness and State Machine Safety

    The safety properties of the Raft paper for the program's cluster, in runs
    of any size and with any loss, delay and reordering of RPCs, in which services
    compact the logs of their peers, as long as no
    peer crashes and none installs the snapshot of another; each is read off the
    invariant [linv].  ([RaftFaults] has a run with a crash
    that elects two leaders of one term, and one with an installed snapshot that applies
    different commands at one index.) *)

From S2P Require Import Prelude Persister RaftNode RaftFollower RaftLeader RaftApplier RaftCluster RaftElection RaftFaults RaftLog RaftDelivery RaftGhost RaftInvariant RaftPreserve RaftReplicate RaftCommit.

(** ** Runs without compaction

    In a run in which no service calls [Snapshot], no peer has a snapshot and a leader can only
    send that of index 0, on which [InstallSnapshot] returns early: such a run keeps the logs. *)

Section methods.
Context {C : Type} `{!Gob (PersistentStatus C)}.
Implicit Types (rf : Raft C) (es : list (effect C)).

(** The snapshots [es] sends are of index 0. *)
Definition emptySnaps es : Prop := ∀ p a, GoInstallSnapshot p a ∈ es → isa_LastIncludedIndex a = 0.

(** A method of a peer without a snapshot leaves it so and sends no other. *)
Definition unsnaps {A} (m : M C A) : Prop := ∀ rf a rf' es, lastIncludedIndex rf = 0 → m rf = Some (a, rf', es) →
  lastIncludedIndex rf' = 0 ∧ emptySnaps es.

Lemma un_ret {A} (a : A) : unsnaps (mret a).
Proof. intros rf b rf' es Hl (-> & -> & ->)%M_ret_Some. split; [done|]. intros p x. set_solver. Qed.

Lemma un_bind {A B} (m : M C A) (k : A → M C B) : unsnaps m → (∀ a, unsnaps (k a)) → unsnaps (m ≫= k).
Proof.
  intros Hm Hk rf b rf' es Hl (a & rf1 & es1 & es2 & H1 & H2 & ->)%M_bind_Some.
  destruct (Hm _ _ _ _ Hl H1) as [Hl1 He1]. destruct (Hk _ _ _ _ _ Hl1 H2) as [Hl2 He2].
  split; [done|]. intros p x [?|?]%elem_of_app; eauto.
Qed.

Lemma un_get : unsnaps get.
Proof. intros rf b rf' es Hl (-> & -> & ->)%M_get_Some. split; [done|]. intros p x. set_solver. Qed.

Lemma un_lift {A} (o : option A) : unsnaps (lift o).
Proof. intros rf b rf' es Hl (_ & -> & ->)%M_lift_Some. split; [done|]. intros p x. set_solver. Qed.

Lemma un_modify f : (∀ rf, lastIncludedIndex (f rf) = lastIncludedIndex rf) → unsnaps (modify f).
Proof. intros Hf rf b rf' es Hl (-> & ->)%M_modify_Some. rewrite Hf. split; [done|]. intros p x. set_solver. Qed.

Lemma un_emit es0 : emptySnaps es0 → unsnaps (emit es0).
Proof. intros He rf b rf' es Hl (-> & ->)%M_emit_Some. done. Qed.

Lemma un_persist : unsnaps persist.
Proof. intros rf b rf' es Hl (ps & -> & ->)%persist_Some. split; [done|]. intros p x. set_solver. Qed.

(** Emit the list a [mapM] computed. *)
Lemma un_emit_mapM {X} (f : Raft C → X → option (effect C)) (xs : Raft C → list X) :
  (∀ rf x p a, lastIncludedIndex rf = 0 → f rf x = Some (GoInstallSnapshot p a) → isa_LastIncludedIndex a = 0) →
  unsnaps (rf ← get; es ← lift (mapM (f rf) (xs rf)); emit es).
Proof.
  intros Hf rf b rf' es Hl H. minv H. split; [done|]. intros p a Hin. simpl in Hin.
  match goal with H : mapM _ _ = Some _ |- _ => apply mapM_Some in H as Hall end.
  apply list_elem_of_lookup in Hin as [k Hk].
  destruct (Forall2_lookup_r _ _ _ _ _ Hall Hk) as (y & _ & Hy). by eapply Hf.
Qed.
End methods.

(** Decompose a method into its steps. *)
Ltac un_step :=
  lazymatch goal with
  | |- unsnaps (get ≫= λ rf, lift (mapM _ _) ≫= λ es, emit es) => fail
  | |- unsnaps (defer_persist _) => unfold defer_persist
  | |- unsnaps (when ?b _) => unfold when; destruct b
  | |- unsnaps (match ?b with _ => _ end) => destruct b
  | |- unsnaps (mret _) => apply un_ret
  | |- unsnaps get => apply un_get
  | |- unsnaps (lift _) => apply un_lift
  | |- unsnaps (modify _) => apply un_modify; intros; reflexivity
  | |- unsnaps (emit (_ :: _)) => apply un_emit; intros ? ? ?; set_solver
  | |- unsnaps persist => apply un_persist
  | |- unsnaps (mbind _ _) => apply un_bind; [|intros]
  end.
Ltac un_solve := repeat un_step; try done.

Section runs.
Context {C : Type} `{!Gob (PersistentStatus C)}.
Implicit Types (w : cluster C) (c : call C).

Lemma broadcastHeartbeat_un : unsnaps (C:=C) broadcastHeartbeat.
Proof.
  apply un_emit_mapM. intros rf p q a Hl H. unfold broadcastOne in H.
  inv_bind H. destruct (_ <=? _); inv_bind H; by simplify_eq/=.
Qed.

Lemma startElection_un : unsnaps (C:=C) startElection.
Proof.
  unfold startElection. do 4 (apply un_bind; [un_solve|intros _]).
  apply (un_emit_mapM (λ rf i, t ← lastLogTerm rf; Some (GoRequestVote i _))).
  intros rf p q a _ H. by inv_bind H.
Qed.

Lemma InstallSnapshot_un args : isa_LastIncludedIndex args = 0 → unsnaps (C:=C) (InstallSnapshot args).
Proof.
  intros Ea rf r rf' es Hl H. unfold InstallSnapshot, adoptSnapshot in H. rewrite Ea in H.
  minv H; bool_simpl; simpl in *; try lia; (split; [done|]); intros p a; set_solver.
Qed.

Lemma methods_un :
  (∀ args, unsnaps (C:=C) (RequestVote args)) ∧ (∀ args, unsnaps (C:=C) (AppendEntries args)) ∧
  unsnaps (C:=C) ticker ∧ unsnaps (C:=C) heartbeatEvent ∧ unsnaps (C:=C) AddLogEvent ∧
  (∀ args reply cnt, unsnaps (C:=C) (handleVoteReply args reply cnt)) ∧
  (∀ peer args reply, unsnaps (C:=C) (handleSendAppendEntries peer args reply)) ∧
  (∀ peer args reply, unsnaps (C:=C) (handleSendInstallSnapshot peer args reply)) ∧
  (∀ cmd, unsnaps (C:=C) (Start cmd)).
Proof.
  pose proof broadcastHeartbeat_un. split_and!; intros.
  - unfold RequestVote; un_solve.
  - unfold AppendEntries; un_solve.
  - unfold ticker; apply un_bind; [un_solve|intros _; apply startElection_un].
  - unfold heartbeatEvent; un_solve.
  - unfold AddLogEvent; un_solve.
  - unfold handleVoteReply, initializeLeaderEasilyLostState; un_solve.
  - unfold handleSendAppendEntries, findNextIndex, checkAndCommitLogs; un_solve.
  - unfold handleSendInstallSnapshot; un_solve.
  - unfold Start; un_solve.
Qed.

(** No peer has a snapshot, and none is on its way. *)
Record unsnapped w : Prop := {
  u_peers i sv : idx (servers w) i = Some sv → lastIncludedIndex (sv_rf sv) = 0;
  u_calls k c a : calls w !! k = Some c → c_args c = CallInstallSnapshot a → isa_LastIncludedIndex a = 0;
}.

Lemma unsnapped_init n : unsnapped (initCluster n).
Proof. split; [|done]. intros i sv [-> _]%idx_initCluster. done. Qed.

Lemma unsnapped_keeps w l : unsnapped w → isPlain l = true → keeps l w = true.
Proof.
  intros [Hp Hc] Hl. destruct l as [i|i|i|k|k|k|i c|i index sn|i|i g|i]; try done. simpl.
  destruct (calls w !! k) as [c|] eqn:Hk; [|done]. destruct (c_args c) as [a|a|a] eqn:Ha; try done.
  destruct (idx (servers w) (c_dst c)) as [sv|] eqn:Hi; [|done]. unfold overwrites. rewrite (Hp _ _ Hi), (Hc _ _ _ Hk Ha).
  by rewrite andb_false_r.
Qed.

Lemma unsnapped_run {A} i (m : M C A) w a w' : unsnapped w → unsnaps m → runOn i m w = Some (a, w') → unsnapped w'.
Proof.
  intros [Hp Hc] Hm (sv & rf & es & Hi & Hr & ->)%runOn_Some. destruct (Hm _ _ _ _ (Hp _ _ Hi) Hr) as [Hl He]. split; simpl.
  - intros j sj [[-> ->]|[_ Hj]]%(idx_insert_inv _ _ _ _ _ _ Hi); [by rewrite spawnLocal_rf|by eapply Hp].
  - intros k c x [Hk|[_ Hk]]%lookup_app_Some Hx; [by eapply Hc|]. apply list_elem_of_lookup_2 in Hk. unfold callsOf in Hk.
    apply list_elem_of_omap in Hk as (e & Hin & He'). destruct e; simplify_eq/=. by eapply He.
Qed.

Lemma unsnapped_status k c s w : unsnapped w → calls w !! k = Some c → unsnapped (setStatus k c s w).
Proof.
  intros [Hp Hc] Hk. split; [done|]. simpl. intros j c' a [(-> & <- & _)|[_ Hj]]%list_lookup_insert_Some Ha; by eapply Hc.
Qed.

Lemma unsnapped_set i sv sv' w : unsnapped w → idx (servers w) i = Some sv → lastIncludedIndex (sv_rf sv') = lastIncludedIndex (sv_rf sv) →
  unsnapped (setServer i sv' w).
Proof.
  intros [Hp Hc] Hi E. split; [|done]. simpl. intros j sj [[-> ->]|[_ Hj]]%(idx_insert_inv _ _ _ _ _ _ Hi); [rewrite E|]; by eapply Hp.
Qed.

Lemma unsnapped_handler k c w r w' : unsnapped w → calls w !! k = Some c → runOn (c_dst c) (handler (c_args c)) w = Some (r, w') →
  unsnapped w'.
Proof.
  intros Hu Hk Hr. destruct methods_un as (Hv & Ha & _). eapply unsnapped_run; [exact Hu| |exact Hr].
  unfold handler. destruct (c_args c) as [a|a|a] eqn:E; (apply un_bind; [|intros; apply un_ret]); [done|done|].
  apply InstallSnapshot_un. by eapply u_calls.
Qed.

Lemma unsnapped_reply c r w w' : unsnapped w → onReply c r w = Some w' → unsnapped w'.
Proof.
  intros Hu. destruct methods_un as (_ & _ & _ & _ & _ & Hv & Ha & Hs & _). unfold onReply.
  destruct (c_args c), r; intros H; try done; inv_bind H;
    match goal with H : runOn _ _ _ = Some ?p |- _ => destruct p as [u w1]; rename H into Hr end; injection H as <-.
  - apply (unsnapped_run _ _ _ _ _ Hu (Hv _ _ _)) in Hr as [? ?]. by split.
  - eapply unsnapped_run; [exact Hu|apply Ha|exact Hr].
  - eapply unsnapped_run; [exact Hu|apply Hs|exact Hr].
Qed.

Lemma unsnapped_step l w w' : unsnapped w → isPlain l = true → step l w = Some w' → unsnapped w'.
Proof.
  intros Hu Hl Hst. destruct methods_un as (_ & _ & Ht & Hh & Had & _ & _ & _ & Hs).
  destruct l as [i|i|i|k|k|k|i c|i index sn|i|i g|i]; try done; simpl in Hst; inv_bind Hst.
  - destruct x as [u w1]. inv_bind Hst. injection Hst as <-. destruct (unsnapped_run _ _ _ _ _ Hu Ht H) as [? ?]. by split.
  - destruct x as [u w1]. injection Hst as <-. eapply unsnapped_run; [exact Hu|exact Hh|done].
  - case_match; [done|]. apply bind_Some in Hst as ([u w1] & Hr & [= <-]). eapply unsnapped_run; [|exact Had|exact Hr]. by eapply unsnapped_set.
  - case_match; [|done..]. apply bind_Some in Hst as ([r w1] & Hr & [= <-]). pose proof Hr as Hr'.
    apply unsnapped_status; [by eapply unsnapped_handler|]. apply runOn_Some in Hr' as (sv & rf & es & _ & _ & ->). by apply lookup_app_l_Some.
  - case_match; try done; injection Hst as <-; by apply unsnapped_status.
  - case_match; try done. case_match; [|injection Hst as <-; by apply unsnapped_status].
    eapply unsnapped_reply; [|exact Hst]. by apply unsnapped_status.
  - destruct x as [u w1]. injection Hst as <-. eapply unsnapped_run; [exact Hu|apply Hs|done].
  - injection Hst as <-. eapply unsnapped_set; [done|done|]. unfold applierStep in H0. repeat case_match; inv_bind H0; by simplify_eq/=.
  - injection Hst as <-. eapply unsnapped_set; [done|done|]. unfold snapStep in H0. inv_bind H0. repeat case_match; by simplify_eq/=.
Qed.

(** A run without calls of [Snapshot] keeps the logs. *)
Lemma plain_keeps w w' : unsnapped w → laterPlain w w' → laterKeeps w w' ∧ unsnapped w'.
Proof.
  intros Hu. induction 1 as [|w1 l w2 _ [IH Hu1] Hl Hst]; [by split; [apply lk_refl|]|]. split; [|by eapply unsnapped_step].
  eapply lk_step; [exact IH| |exact Hst]. by apply unsnapped_keeps.
Qed.

Lemma reachable_plain_keeps n w : reachable_plain n w → reachable_keeps n w ∧ unsnapped w.
Proof. apply plain_keeps, unsnapped_init. Qed.
End runs.

Section reading.
Context {C : Type} `{!Gob (PersistentStatus C)} (n : nat).
Implicit Types (w : cluster C) (sv : server C) (G : ghost C).

(** An entry that is there is in the whole log. *)
Lemma entryAt_view F (rf : Raft C) k e : view F rf → entryAt rf k = Some e → lastIncludedIndex rf ≤ k ∧ has F (Z.to_nat k) (le_Term e).
Proof.
  intros Hv He. assert (lastIncludedIndex rf ≤ k) as Hk by (unfold entryAt, logIndex in He; apply idx_lt in He; lia).
  split; [done|]. apply (view_has F rf); [done|done|]. by rewrite He.
Qed.

(** Two lists that agree wherever both are defined. *)
Lemma prefix_compare {A} (l l' : list A) :
  (∀ k x y, l !! k = Some x → l' !! k = Some y → x = y) → l `prefix_of` l' ∨ l' `prefix_of` l.
Proof.
  revert l'. induction l as [|x l IH]; intros [|y l'] H; [left; done|left; apply prefix_nil|right; apply prefix_nil|].
  pose proof (H 0%nat x y eq_refl eq_refl) as ->.
  destruct (IH l') as [?|?]; [intros k; apply (H (S k))|left; by apply prefix_cons|right; by apply prefix_cons].
Qed.

(** The messages a service has received, one by one. *)
Lemma applyCh_lookup G i sv k m :
  serverOk n G i sv → sv_applyCh sv !! k = Some m →
  ∃ hi l e, sealed n G hi l ∧ l !! S k = Some e ∧ m = commandMsg (le_Cmd e) (Z.of_nat (S k)).
Proof.
  intros [_ _ Ho Hm] Hk. assert (CommandIndex m = Z.of_nat (S k)) as Ei.
  { pose proof (io_indices _ _ Ho) as E. apply (f_equal (.!! k)) in E.
    rewrite list_lookup_fmap, Hk in E. simpl in E. unfold range in E.
    symmetry in E. apply lookup_seqZ in E as [-> _]. lia. }
  destruct (Hm m) as (_ & hi & l & e & ? & Hl & Em).
  { apply elem_of_app. left. by eapply list_elem_of_lookup_2. }
  rewrite Ei, Nat2Z.id in *. eauto 10.
Qed.

(** A delivered message carries a command. *)
Lemma applyCh_command G i sv k m :
  history n G → serverOk n G i sv → sv_applyCh sv !! k = Some m →
  ∃ c, m = commandMsg (Some c) (Z.of_nat (S k)).
Proof.
  intros Hh Hs Hm. destruct (applyCh_lookup _ _ _ _ _ Hs Hm) as (hi & l & e & (T & ld & L & p & _ & HL & _ & Hp) & Hx & ->).
  destruct (h_log _ _ Hh _ _ _ HL) as [Hg _].
  destruct (good_cmd _ _ _ Hg (S k) e) as [c ->]; [lia| |by exists c].
  eapply prefix_lookup_Some; [exact Hx|]. etrans; [exact Hp|apply prefix_take].
Qed.

(** The [k]-th message is the same at every peer that has one. *)
Lemma applyCh_agree G i j sv sv' k m m' :
  history n G → serverOk n G i sv → serverOk n G j sv' →
  sv_applyCh sv !! k = Some m → sv_applyCh sv' !! k = Some m' → m = m'.
Proof.
  intros Hh Hs Hs' Hm Hm'.
  destruct (applyCh_lookup _ _ _ _ _ Hs Hm) as (hi & l & e & Hl & Hx & ->).
  destruct (applyCh_lookup _ _ _ _ _ Hs' Hm') as (hi' & l' & e' & Hl' & Hx' & ->).
  by rewrite (sealed_agree n G hi hi' l l' (S k) e e').
Qed.
End reading.

(** What two services have received, at two moments of a run. *)
Lemma state_machine_agree {C} `{!Gob (PersistentStatus C)} (n : nat) (w w' : cluster C) i j (sv sv' : server C) :
  reachable_keeps n w → laterKeeps w w' →
  idx (servers w) i = Some sv → idx (servers w') j = Some sv' →
  (∀ k m, sv_applyCh sv !! k = Some m → ∃ c, m = commandMsg (Some c) (Z.of_nat (S k))) ∧
  (∀ k m, sv_applyCh sv' !! k = Some m → ∃ c, m = commandMsg (Some c) (Z.of_nat (S k))) ∧
  (sv_applyCh sv `prefix_of` sv_applyCh sv' ∨ sv_applyCh sv' `prefix_of` sv_applyCh sv).
Proof.
  intros [He (G & Hl)]%linv_reachable Hlater Hi Hj.
  destruct (linv_later n _ _ _ He Hl Hlater) as [_ (G' & Hext & Hl')].
  pose proof (l_servers _ _ _ Hl _ _ Hi) as Hs. pose proof (l_servers _ _ _ Hl' _ _ Hj) as Hs'. split_and!.
  - intros k m. by eapply applyCh_command; [apply Hl|].
  - intros k m. by eapply applyCh_command; [apply Hl'|].
  - apply prefix_compare. intros k m m' Hm Hm'.
    destruct (applyCh_lookup n G i _ _ _ Hs Hm) as (hi & l & e & Hsl & Hx & ->).
    destruct (applyCh_lookup n G' j _ _ _ Hs' Hm') as (hi' & l' & e' & Hsl' & Hx' & ->).
    rewrite (sealed_agree n G' hi hi' l l' (S k) e e'); [done|by apply Hl'| |done|done|done].
    by eapply (sealed_ext n G).
Qed.

(** ** The theorems *)

(** C7: Log Matching.  If the logs of two peers hold entries of the same term at
    the same index, then they are the same up to that index, wherever neither peer has compacted them away. *)
Theorem log_matching {C} `{!Gob (PersistentStatus C)} (n : nat) (w : cluster C) i j (sv sv' : server C) k e e' :
  reachable_keeps n w → idx (servers w) i = Some sv → idx (servers w) j = Some sv' →
  entryAt (sv_rf sv) k = Some e → entryAt (sv_rf sv') k = Some e' → le_Term e = le_Term e' →
  ∀ k', lastIncludedIndex (sv_rf sv) < k' → lastIncludedIndex (sv_rf sv') < k' → k' ≤ k →
    entryAt (sv_rf sv) k' = entryAt (sv_rf sv') k'.
Proof.
  intros [_ (G & Hl)]%linv_reachable Hi Hj He He' ET k' H1 H2 Hk'.
  destruct (linv_peer _ _ _ _ _ Hl Hi) as [[F Hp] _]. destruct (linv_peer _ _ _ _ _ Hl Hj) as [[F' Hp'] _].
  pose proof (p_view _ _ _ _ _ Hp) as Hv. pose proof (p_view _ _ _ _ _ Hp') as Hv'. pose proof (v_range _ _ Hv) as Hr.
  destruct (entryAt_view F _ _ _ Hv He) as [_ Hh]. destruct (entryAt_view F' _ _ _ Hv' He') as [_ Hh'].
  rewrite (view_entry F), (view_entry F') by done. rewrite <-ET in Hh'.
  pose proof (good_matching G _ _ _ _ _ _ (p_good _ _ _ _ _ Hp) (p_good _ _ _ _ _ Hp') Hh Hh') as E.
  apply (f_equal (.!! Z.to_nat k')) in E. by rewrite !lookup_take_lt in E by lia.
Qed.

(** C6: Leader Completeness.  What a peer of term at most [T] has committed is in
    the log of the leader of [T], whenever in the run that leader is looked at,
    wherever neither of the two has compacted it away. *)
Theorem leader_completeness {C} `{!Gob (PersistentStatus C)} (n : nat) (w w' : cluster C) i j (sv sv' : server C) k :
  reachable_keeps n w → laterKeeps w w' →
  idx (servers w) i = Some sv → lastIncludedIndex (sv_rf sv) < k ≤ commitIndex (sv_rf sv) →
  idx (servers w') j = Some sv' → state (sv_rf sv') = Leader → lastIncludedIndex (sv_rf sv') < k →
  currentTerm (sv_rf sv) ≤ currentTerm (sv_rf sv') →
  is_Some (entryAt (sv_rf sv) k) ∧ entryAt (sv_rf sv') k = entryAt (sv_rf sv) k.
Proof.
  intros [He (G & Hl)]%linv_reachable Hlater Hi Hk Hj Hld Hk' HT.
  destruct (linv_later n _ _ _ He Hl Hlater) as [_ (G' & Hext & Hl')].
  destruct (linv_peer _ _ _ _ _ Hl Hi) as [[F Hp] _]. destruct (linv_peer _ _ _ _ _ Hl' Hj) as [[F' Hp'] _].
  pose proof (p_view _ _ _ _ _ Hp) as Hv. pose proof (p_view _ _ _ _ _ Hp') as Hv'. pose proof (v_range _ _ Hv) as Hr.
  rewrite (view_entry F), (view_entry F') by (done || lia).
  destruct (p_leader _ _ _ _ _ Hp' Hld) as (HL & _).
  destruct (p_commit _ _ _ _ _ Hp) as [Hc [E0|Hsl]]; [lia|].
  assert (Z.to_nat k < length F)%nat as Hlt by (unfold zlen in Hc; lia).
  destruct (lookup_lt_is_Some_2 _ _ Hlt) as [x Hx]. rewrite Hx. split; [by eexists|].
  eapply prefix_lookup_Some; [|eapply (sealed_leader n G'); [by apply Hl'| |exact HL|exact HT]].
  2:{ eapply sealed_ext; [exact Hext|reflexivity|exact Hsl]. }
  by rewrite lookup_take_lt by lia.
Qed.

(** C1: State Machine Safety.  The sequences of messages that the services of any
    two peers have received from [applyCh], at any two moments of a run, agree:
    one is a prefix of the other.  The services may compact the logs of their peers up to
    what they have received, and RPCs, [InstallSnapshot] too, may be lost or late, as long as no
    peer installs a snapshot that is ahead of what it has committed. *)
Theorem state_machine_safety {C} `{!Gob (PersistentStatus C)} (n : nat) (w w' : cluster C) i j (sv sv' : server C) :
  reachable_keeps n w → laterKeeps w w' →
  idx (servers w) i = Some sv → idx (servers w') j = Some sv' →
  sv_applyCh sv `prefix_of` sv_applyCh sv' ∨ sv_applyCh sv' `prefix_of` sv_applyCh sv.
Proof.
  intros Hr Hlater Hi Hj. by destruct (state_machine_agree n w w' i j sv sv' Hr Hlater Hi Hj) as (_ & _ & ?).
Qed.

(** ** A concrete run *)

Section run.
Context {C : Type} `{!Gob (PersistentStatus C)}.

Lemma steps_plain ls (w w' : cluster C) :
  forallb isPlain ls = true → steps ls w = Some w' → laterPlain w w'.
Proof.
  intros Hls Hst. assert (∀ w0, laterPlain w w0 → steps ls w0 = Some w' → laterPlain w w') as H.
  { clear Hst. induction ls as [|l ls IH]; intros w0 Hr H; unfold steps in H; simpl in *; [by simplify_eq|].
    apply andb_true_iff in Hls as [? ?]. inv_bind H. eapply IH; [done| |exact H]. by eapply lp_step. }
  apply (H w); [apply lp_refl|done].
Qed.

(** A run every action of which keeps the logs. *)
Definition keepingSteps (ls : list (label C)) (w : cluster C) : option (cluster C) :=
  foldM (λ w l, if keeps l w then step l w else None) ls w.

Lemma keepingSteps_later ls (w w' : cluster C) : keepingSteps ls w = Some w' → laterKeeps w w'.
Proof.
  intros Hst. assert (∀ w0, laterKeeps w w0 → keepingSteps ls w0 = Some w' → laterKeeps w w') as H.
  { clear Hst. induction ls as [|l ls IH]; intros w0 Hr H; unfold keepingSteps in H; simpl in *; [by simplify_eq|].
    destruct (keeps l w0) eqn:E; [|done]. inv_bind H. eapply IH; [|exact H]. by eapply lk_step. }
  apply (H w); [apply lk_refl|done].
Qed.
End run.

(** Peer 0 of three is elected in term 1, replicates a command to peer 1,
    commits and delivers it. *)
Definition commitRun : list (label Z) :=
  [Timeout 0; Deliver 0; Answer 0; ClientStart 0 42; AddLog 0; Deliver 4; Answer 4; Apply 0; Apply 0; Apply 0].

(** The service of peer 0 compacts the log. *)
Definition compactRun : list (label Z) := commitRun ++ [ServiceSnapshot 0 1 []].

(** A heartbeat tells peer 1, which delivers the command, and offers peer 2 the snapshot, which is lost;
    then peer 1 leads term 2 with the vote of peer 2. *)
Definition takeoverRun : list (label Z) :=
  [Heartbeat 0; Deliver 6; Apply 1; Apply 1; Apply 1; Timeout 1; Deliver 9; Answer 9].

(** Peer [i] at the end of a run. *)
Definition peerOf (ls : list (label Z)) (i : Z) : server Z :=
  default (newServer (freshRaft 3 i MakePersister)) (idx (servers (runEnd ls)) i).

Lemma commitRun_reachable : reachable_plain 3 (runEnd commitRun).
Proof. eapply (steps_plain commitRun); [reflexivity|vm_compute; reflexivity]. Qed.

Lemma commitRun_keeps : reachable_keeps 3 (runEnd commitRun).
Proof. apply reachable_plain_keeps, commitRun_reachable. Qed.

Lemma compactRun_reachable : reachable_keeps 3 (runEnd compactRun).
Proof. apply (keepingSteps_later compactRun). vm_compute. reflexivity. Qed.

Lemma takeoverRun_later : laterKeeps (runEnd compactRun) (runEnd (compactRun ++ takeoverRun)).
Proof. apply (keepingSteps_later takeoverRun). vm_compute. reflexivity. Qed.

Lemma log_matching_witness :
  entryAt (sv_rf (peerOf commitRun 0)) 1 = Some (mkEntry 1 (Some 42)) ∧
  entryAt (sv_rf (peerOf commitRun 0)) 1 = entryAt (sv_rf (peerOf commitRun 1)) 1.
Proof.
  split; [vm_compute; reflexivity|].
  refine (log_matching 3 (runEnd commitRun) 0 1 (peerOf commitRun 0) (peerOf commitRun 1) 1
    (mkEntry 1 (Some 42)) (mkEntry 1 (Some 42)) commitRun_keeps _ _ _ _ eq_refl 1 _ _ _);
    [vm_compute; reflexivity..|lia].
Defined.

Lemma leader_completeness_witness :
  commitIndex (sv_rf (peerOf commitRun 0)) = 1 ∧
  currentTerm (sv_rf (peerOf (compactRun ++ takeoverRun) 1)) = 2 ∧
  entryAt (sv_rf (peerOf (compactRun ++ takeoverRun) 1)) 1 = entryAt (sv_rf (peerOf commitRun 0)) 1.
Proof.
  split; [vm_compute; reflexivity|]. split; [vm_compute; reflexivity|].
  assert (laterKeeps (runEnd commitRun) (runEnd (compactRun ++ takeoverRun))) as Hlater
    by (apply (keepingSteps_later (ServiceSnapshot 0 1 [] :: takeoverRun)); vm_compute; reflexivity).
  refine (proj2 (leader_completeness 3 (runEnd commitRun) (runEnd (compactRun ++ takeoverRun)) 0 1
    (peerOf commitRun 0) (peerOf (compactRun ++ takeoverRun) 1) 1 commitRun_keeps Hlater _ _ _ _ _ _));
    vm_compute; first [reflexivity|discriminate|split; [reflexivity|discriminate]].
Defined.

Lemma state_machine_safety_witness :
  lastIncludedIndex (sv_rf (peerOf compactRun 0)) = 1 ∧
  sv_applyCh (peerOf compactRun 0) = [commandMsg (Some 42) 1] ∧
  sv_applyCh (peerOf (compactRun ++ takeoverRun) 1) = [commandMsg (Some 42) 1] ∧
  (sv_applyCh (peerOf compactRun 0) `prefix_of` sv_applyCh (peerOf (compactRun ++ takeoverRun) 1) ∨
   sv_applyCh (peerOf (compactRun ++ takeoverRun) 1) `prefix_of` sv_applyCh (peerOf compactRun 0)).
Proof.
  do 3 (split; [vm_compute; reflexivity|]).
  refine (state_machine_safety 3 (runEnd compactRun) (runEnd (compactRun ++ takeoverRun)) 0 1
    (peerOf compactRun 0) (peerOf (compactRun ++ takeoverRun) 1) compactRun_reachable takeoverRun_later _ _);
    vm_compute; reflexivity.
Defined.
