(* ===== verification/RaftProvenance.v ===== *)
(** * Raft invents no command

    Validity of the replicated log: a command in a log, in a message between the
    peers, on a disk, or sent on [applyCh] was given to [Start] at some peer.  The
    set of commands given so far is a parameter [P] of the invariant [clusterFrom],
    which every action preserves: compaction, snapshots, crashes and restarts included. *)

From S2P Require Import Prelude Persister RaftNode RaftFollower RaftLeader RaftApplier RaftCluster RaftElection RaftLog RaftDelivery RaftFaults RaftSafety.
Open Scope go_scope.

Section provenance.
Context {C : Type} `{!Gob (PersistentStatus C)}.
Implicit Types (P : C → Prop) (rf : Raft C) (sv : server C) (w : cluster C) (es : list (effect C)).

Definition entryFrom P (e : LogEntry C) : Prop := ∀ c, le_Cmd e = Some c → P c.
Definition msgFrom P (m : ApplyMsg C) : Prop := ∀ c, Command m = Some c → P c.
Definition logFrom P rf : Prop := Forall (entryFrom P) (logs rf).

(** What is on the disk: nothing, or a status whose log is within [P]. *)
Definition storedFrom P (ps : Persister) : Prop :=
  ReadRaftState ps = [] ∨ ∃ st, gob_encode st = Some (ReadRaftState ps) ∧ Forall (entryFrom P) (st_Logs st).
Definition diskFrom P rf : Prop := storedFrom P (persister rf).

Definition effectFrom P (e : effect C) : Prop :=
  match e with
  | GoAppendEntries _ a => Forall (entryFrom P) (aea_Entries a)
  | GoApplySnapshot m => msgFrom P m
  | _ => True
  end.

Definition argsFrom P (a : call_args C) : Prop :=
  match a with CallAppendEntries a => Forall (entryFrom P) (aea_Entries a) | _ => True end.

Definition snapFrom P (g : snap_pc C) : Prop :=
  match g with SnapWait m | SnapSend m => msgFrom P m | SnapDone => True end.

Record serverFrom P sv : Prop := {
  sf_log : logFrom P (sv_rf sv);
  sf_disk : diskFrom P (sv_rf sv);
  sf_pending : Forall (msgFrom P) (pending (sv_applier sv));
  sf_snaps : Forall (snapFrom P) (sv_snaps sv);
  sf_sent : Forall (msgFrom P) (sv_applyCh sv);
}.

Record clusterFrom P w : Prop := {
  cf_servers : Forall (serverFrom P) (servers w);
  cf_calls : Forall (λ c, argsFrom P (c_args c)) (calls w);
}.

Lemma entryFrom_mono P P' e : (∀ c, P c → P' c) → entryFrom P e → entryFrom P' e.
Proof. intros HP H c Hc. by apply HP, H. Qed.
Lemma msgFrom_mono P P' m : (∀ c, P c → P' c) → msgFrom P m → msgFrom P' m.
Proof. intros HP H c Hc. by apply HP, H. Qed.

Lemma clusterFrom_mono P P' w : (∀ c, P c → P' c) → clusterFrom P w → clusterFrom P' w.
Proof.
  intros HP [Hs Hc]. split.
  - eapply Forall_impl; [exact Hs|]. intros sv [? Hd ? Hg ?].
    split; [|destruct Hd as [Hd|(st & He & Hd)]; [by left|right; exists st; split; [done|]]|..]; (eapply Forall_impl; [eassumption|]); eauto using entryFrom_mono, msgFrom_mono.
    intros []; simpl; eauto using msgFrom_mono.
  - eapply Forall_impl; [exact Hc|]. intros c. unfold argsFrom. destruct (c_args c); try done.
    intros He. eapply Forall_impl; [exact He|]. eauto using entryFrom_mono.
Qed.

(** ** The methods *)

(** The method keeps the log and the disk within [P] and sends nothing outside it. *)
Definition within P {A} (m : M C A) : Prop :=
  ∀ rf a rf' es, m rf = Some (a, rf', es) → logFrom P rf → diskFrom P rf → logFrom P rf' ∧ diskFrom P rf' ∧ Forall (effectFrom P) es.

(** What [persist] leaves on the disk is the log, or what was there before. *)
Lemma persist_disk rf u rf' es :
  persist rf = Some (u, rf', es) →
  ∃ ps, rf' = set_persister ps rf ∧ es = [] ∧
    (ps = persister rf ∨ ∃ st, gob_encode st = Some (ReadRaftState ps) ∧ st_Logs st = logs rf).
Proof.
  unfold persist. intros H. minv H.
  - eexists _. split_and!; [done|done|right]. eexists. rewrite ReadRaftState_Save. eauto.
  - exists (persister rf). split_and!; [by destruct rf|done|by left].
Qed.

Lemma Forall_slice_from {A} (Q : A → Prop) l i k : slice_from l i = Some k → Forall Q l → Forall Q k.
Proof. intros [_ ->]%slice_from_Some. apply Forall_drop. Qed.

Lemma copyEntries_from_within P lii prev entries log log' :
  copyEntries lii prev entries log = Some log' →
  Forall (entryFrom P) entries → Forall (entryFrom P) log → Forall (entryFrom P) log'.
Proof.
  intros H He Hl. unfold copyEntries in H.
  assert (Forall (λ ie, entryFrom P ie.2) (enumerate entries)) as Hen.
  { apply Forall_forall. intros [i e] (k & y & [= -> ->] & Hk)%elem_of_lookup_imap.
    rewrite Forall_lookup in He. by eapply He. }
  revert log Hl H. induction Hen as [|[i e] ies Hie _ IH]; intros log Hl H; simpl in *; [by simplify_eq|].
  inv_bind H. eapply IH; [|exact H]. clear IH H. unfold copyEntry in *. simpl in *.
  destruct (_ <? _).
  - inv_bind H0. destruct (_ =? _); [by simplify_eq|]. inv_bind H0. simplify_eq.
    apply Forall_app. split; [|by constructor]. unfold slice_to in *. case_match; [|done]. simplify_eq. by apply Forall_take.
  - destruct (_ =? _); simplify_eq; [|done]. apply Forall_app. split; [done|by constructor].
Qed.
End provenance.

(** The disk of a method that has ended: that of its start, or its log [Hl']. *)
Ltac disk_solve Hl' :=
  first
    [ done
    | match goal with Hor : _ = persister _ ∨ _ |- _ =>
        destruct Hor as [?|(? & ? & Hlogs)]; simpl in *; [subst; done|];
        right; eexists; split; [eassumption|]; rewrite Hlogs; exact Hl' end ].

Ltac within_solve :=
  repeat match goal with H : persist _ = Some _ |- _ => apply persist_disk in H as (? & -> & -> & ?) end; simpl in *;
  let Hl' := fresh "Hl'" in
  match goal with |- ?L ∧ _ => enough L as Hl' end;
  [ split; [exact Hl'|split;
      [ try disk_solve Hl' | repeat (first [ apply Forall_app; split | constructor ]); try done ]]
  | try done; unfold logFrom in *; simpl; eauto using Forall_slice_from ].

Section methods.
Context {C : Type} `{!Gob (PersistentStatus C)} (P : C → Prop).
Implicit Types (rf : Raft C) (sv : server C) (w : cluster C).

Lemma RequestVote_within args : within P (RequestVote args).
Proof. intros rf a rf' es H Hl Hd. unfold RequestVote in H. minv H; within_solve. Qed.

Lemma AppendEntries_within args : Forall (entryFrom P) (aea_Entries args) → within P (AppendEntries args).
Proof.
  intros Ha rf a rf' es H Hl Hd. unfold AppendEntries in H. minv H; within_solve.
  all: by eapply copyEntries_from_within.
Qed.

Lemma InstallSnapshot_within args : within P (InstallSnapshot args).
Proof.
  intros rf a rf' es H Hl Hd. unfold InstallSnapshot, adoptSnapshot in H. minv H; within_solve.
  all: try (constructor; [done|]); eauto using Forall_slice_from.
Qed.

Lemma Snapshot_within index snap : within P (Snapshot index snap).
Proof.
  intros rf a rf' es H Hl Hd. unfold Snapshot in H. minv H; within_solve.
  all: try (constructor; [done|]); eauto using Forall_slice_from.
Qed.

Lemma Start_within cmd : P cmd → within P (Start cmd).
Proof.
  intros Hc rf a rf' es H Hl Hd. unfold Start in H. minv H; within_solve.
  apply Forall_app. split; [done|]. constructor; [|done]. by intros c [= <-].
Qed.

Lemma broadcastHeartbeat_within : within P broadcastHeartbeat.
Proof.
  intros rf a rf' es H Hl Hd. unfold broadcastHeartbeat in H. minv H. split_and!; [done|done|].
  match goal with H : mapM _ _ = Some _ |- _ => apply mapM_Some in H; rename H into Hes end.
  rewrite ?app_nil_l, ?app_nil_r. induction Hes as [|i e is' es' He _ IH]; constructor; [|done].
  unfold broadcastOne in He. inv_bind He. destruct (_ <=? _); inv_bind He; simplify_eq; [done|].
  simpl. by eapply Forall_slice_from.
Qed.

Lemma heartbeatEvent_within : within P heartbeatEvent.
Proof.
  intros rf a rf' es H Hl Hd. unfold heartbeatEvent in H. minv H; [|within_solve].
  destruct (broadcastHeartbeat_within _ _ _ _ Hm Hl Hd) as (? & ? & ?). split_and!; [done|done|].
  repeat (first [ apply Forall_app; split | constructor ]); done.
Qed.

Lemma AddLogEvent_within : within P AddLogEvent.
Proof.
  intros rf a rf' es H Hl Hd. unfold AddLogEvent in H. minv H; [|within_solve].
  destruct (broadcastHeartbeat_within _ _ _ _ Hm Hl Hd) as (? & ? & ?). split_and!; [done|done|].
  repeat (first [ apply Forall_app; split | constructor ]); done.
Qed.

Lemma ticker_within : within P ticker.
Proof.
  intros rf a rf' es H Hl Hd. unfold ticker, startElection in H. minv H.
  match goal with H : mapM _ _ = Some _ |- _ => apply mapM_Some in H; rename H into Hes end.
  within_solve. clear -Hes. induction Hes as [|i e is' es' He _ IH]; constructor; [|done].
  inv_bind He. by simplify_eq.
Qed.

Lemma handleVoteReply_within args reply cnt : within P (handleVoteReply args reply cnt).
Proof.
  intros rf a rf' es H Hl Hd. unfold handleVoteReply in H. minv H.
  all: try match goal with H : initializeLeaderEasilyLostState _ = _ |- _ =>
         apply initializeLeader_Some in H as (-> & ? & ? & ->) end.
  all: try match goal with H : broadcastHeartbeat _ = _ |- _ =>
         destruct (broadcastHeartbeat_within _ _ _ _ H Hl Hd) as (? & ? & ?) end.
  all: within_solve.
Qed.

Lemma handleSendAppendEntries_within peer args reply : within P (handleSendAppendEntries peer args reply).
Proof.
  intros rf a rf' es H Hl Hd. unfold handleSendAppendEntries, checkAndCommitLogs, findNextIndex in H. minv H; within_solve.
Qed.

Lemma handleSendInstallSnapshot_within peer args reply : within P (handleSendInstallSnapshot peer args reply).
Proof. intros rf a rf' es H Hl Hd. unfold handleSendInstallSnapshot in H. minv H; within_solve. Qed.

Lemma handler_within a : argsFrom P a → within P (handler a).
Proof.
  intros Ha rf r rf' es H Hl Hd. unfold handler in H. destruct a as [args|args|args]; minv H; rewrite app_nil_r.
  - by eapply RequestVote_within.
  - by eapply AppendEntries_within.
  - by eapply InstallSnapshot_within.
Qed.

(** ** The actions *)

Lemma callsOf_from i (es : list (effect C)) :
  Forall (effectFrom P) es → Forall (λ c, argsFrom P (c_args c)) (callsOf i es).
Proof. intros He. induction He as [|e es He _ IH]; [done|]. unfold callsOf. destruct e; simpl; try done; by constructor. Qed.

Lemma spawnLocal_from es sv : Forall (effectFrom P) es → serverFrom P sv → serverFrom P (spawnLocal es sv).
Proof.
  unfold spawnLocal. intros He. revert sv. induction He as [|e es He _ IH]; intros sv Hs; [done|]. simpl. apply IH.
  destruct Hs. destruct e; try done; split; simpl; try done. apply Forall_app. split; [done|]. by constructor.
Qed.

Lemma from_server w i sv : clusterFrom P w → idx (servers w) i = Some sv → serverFrom P sv.
Proof. intros [Hs _] [_ Hi]%idx_Some. rewrite Forall_lookup in Hs. by eapply Hs. Qed.

Lemma from_setServer w i sv : clusterFrom P w → serverFrom P sv → clusterFrom P (setServer i sv w).
Proof. intros [Hs Hc] Hv. split; [|done]. simpl. by apply Forall_insert. Qed.

Lemma from_setStatus w k c s : clusterFrom P w → calls w !! k = Some c → clusterFrom P (setStatus k c s w).
Proof.
  intros [Hs Hc] Hk. split; [done|]. simpl. apply Forall_insert; [done|]. simpl.
  rewrite Forall_lookup in Hc. by apply (Hc k).
Qed.

Lemma from_runOn {A} i (m : M C A) w a w' :
  within P m → clusterFrom P w → runOn i m w = Some (a, w') → clusterFrom P w'.
Proof.
  intros Hm Hw (sv & rf & es & Hi & Hr & ->)%runOn_Some. destruct (from_server _ _ _ Hw Hi) as [Hl Hd Hp Hsn Hch].
  destruct (Hm _ _ _ _ Hr Hl Hd) as (Hl' & Hd' & He). destruct Hw as [Hs Hc]. split; simpl.
  - apply Forall_insert; [done|]. apply spawnLocal_from; [done|]. by split.
  - apply Forall_app. split; [done|]. by apply callsOf_from.
Qed.

Lemma applierStep_from sv sv' : applierStep sv = Some sv' → serverFrom P sv → serverFrom P sv'.
Proof.
  unfold applierStep. intros H [Hl Hd Hp Hs Hc]. destruct (sv_applier sv) as [|[|m ms]|m r|m r|m r] eqn:E; simpl in Hp.
  - destruct (_ <=? _); [done|]. inv_bind H. simplify_eq. split; simpl; try done.
    match goal with H : collectMsgs _ = Some _ |- _ => unfold collectMsgs in H; apply mapM_Some in H; rename H into Hms end.
    clear -Hms Hl. induction Hms as [|i m is' ms Hm _ IH]; constructor; [|done].
    unfold applyMsgAt in Hm. inv_bind Hm. simplify_eq.
    match goal with H : idx (logs _) _ = Some ?e |- _ => apply idx_Some in H as [_ He] end.
    unfold logFrom in Hl. rewrite Forall_lookup in Hl. intros c. simpl. by apply (Hl _ _ He).
  - simplify_eq. by split.
  - apply Forall_cons in Hp as [? ?]. destruct (negb _); simplify_eq; split; simpl; try done. by constructor.
  - apply Forall_cons in Hp as [? ?]. simplify_eq. split; simpl; try done; [by constructor|]. apply Forall_app. split; [done|by constructor].
  - simplify_eq. by split.
  - apply Forall_cons in Hp as [_ ?]. simplify_eq. by split.
Qed.

Lemma snapStep_from k sv sv' : snapStep k sv = Some sv' → serverFrom P sv → serverFrom P sv'.
Proof.
  unfold snapStep. intros H [Hl Hd Hp Hs Hc]. inv_bind H. rename x into g.
  assert (snapFrom P g) as Hg by (rewrite Forall_lookup in Hs; by eapply Hs).
  destruct g as [m|m|]; [|simplify_eq; split; simpl; try done|done].
  - destruct (replicatePreSnapshot _); [done|]. simplify_eq. split; simpl; try done. by apply Forall_insert.
  - by apply Forall_insert.
  - apply Forall_app. split; [done|by constructor].
Qed.

(** The commands an action gives to the cluster. *)
Definition givenBy (l : label C) : Prop := match l with ClientStart _ cmd => P cmd | _ => True end.

Lemma from_onReply c r w w' : clusterFrom P w → onReply c r w = Some w' → clusterFrom P w'.
Proof.
  intros Hw H. unfold onReply in H. destruct (c_args c) as [args|args|args], r as [r|r|r]; try done; inv_bind H.
  - match goal with H : runOn _ _ _ = Some ?p |- _ => destruct p as [u w1]; rename H into Hr end. simplify_eq.
    destruct (from_runOn _ _ _ _ _ (handleVoteReply_within _ _ _) Hw Hr). by split.
  - match goal with H : runOn _ _ _ = Some ?p |- _ => destruct p as [u w1]; rename H into Hr end. simplify_eq.
    by eapply from_runOn; [apply handleSendAppendEntries_within| |].
  - match goal with H : runOn _ _ _ = Some ?p |- _ => destruct p as [u w1]; rename H into Hr end. simplify_eq.
    by eapply from_runOn; [apply handleSendInstallSnapshot_within| |].
Qed.

Lemma from_step l w w' :
  isRestart l = false → givenBy l → clusterFrom P w → step l w = Some w' → clusterFrom P w'.
Proof.
  intros Hl Hg Hw Hst. destruct l; simpl in Hst; try done; inv_bind Hst;
    try match goal with H : runOn _ _ _ = Some ?p |- _ => destruct p as [u w1]; rename H into Hr end.
  - inv_bind Hst. simplify_eq. destruct (from_runOn _ _ _ _ _ ticker_within Hw Hr). by split.
  - simplify_eq. by eapply from_runOn; [apply heartbeatEvent_within| |].
  - case_match; [done|]. apply bind_Some in Hst as ([u w1] & Hr & [= <-]).
    eapply from_runOn; [apply AddLogEvent_within| |exact Hr]. apply from_setServer; [done|].
    edestruct from_server as [? ? ? ? ?]; [exact Hw|eassumption|]. by split.
  - case_match; [|done..]. apply bind_Some in Hst as ([r w1] & Hr & [= <-]).
    match goal with H : calls w !! k = Some ?c |- _ => rename H into Hk end.
    apply from_setStatus; [eapply from_runOn; [|exact Hw|exact Hr]|].
    + apply handler_within. destruct Hw as [_ Hc]. rewrite Forall_lookup in Hc. by eapply (Hc k).
    + apply runOn_Some in Hr as (? & ? & ? & _ & _ & ->). simpl. by apply lookup_app_l_Some.
  - case_match; try done; simplify_eq; by apply from_setStatus.
  - case_match; [done| |done]. case_match; [|simplify_eq; by apply from_setStatus].
    eapply from_onReply; [|exact Hst]. by apply from_setStatus.
  - simplify_eq. by eapply from_runOn; [apply Start_within| |].
  - simplify_eq. by eapply from_runOn; [apply Snapshot_within| |].
  - simplify_eq. apply from_setServer; [done|]. eapply applierStep_from; [eassumption|]. by eapply from_server.
  - simplify_eq. apply from_setServer; [done|]. eapply snapStep_from; [eassumption|]. by eapply from_server.
Qed.

Lemma from_init n : clusterFrom P (initCluster n).
Proof.
  split; [|done]. apply Forall_lookup. intros i sv Hi. simpl in Hi. rewrite list_lookup_imap in Hi.
  apply fmap_Some in Hi as ([] & _ & ->). split; simpl; try done.
  - unfold logFrom. simpl. by repeat constructor.
  - by left.
Qed.

(** ** Restarts *)

Context `{!GobLaws (PersistentStatus C)}.

(** A restart reads back a log within [P]. *)
Lemma Make_from n i ps rf :
  storedFrom P ps →
  Make n i ps = Some rf → logFrom P rf ∧ diskFrom P rf.
Proof.
  intros Hd H. unfold Make in H. destruct (readPersist _ _) as [[[u rf'] es]|] eqn:E; [|done]. injection H as ->.
  assert (Forall (entryFrom P) [mkEntry 0 None]) as H0 by by repeat constructor.
  assert (persister rf = ps) as Hps by (clear Hd; unfold readPersist in E; by minv E).
  split; [|unfold diskFrom; by rewrite Hps].
  clear Hps. unfold readPersist in E. minv E; try done; unfold logFrom; simpl.
  match goal with H : gob_decode _ = Some ?st |- _ =>
    assert (Forall (entryFrom P) (st_Logs st)) as Hf end.
  { destruct Hd as [Hb|(st & He & ?)]; [by rewrite Hb in *|]. rewrite (gob_roundtrip _ _ He) in *. by simplify_eq. }
  simpl in *. match goal with H : upd _ _ _ = Some _ |- _ => apply upd_Some in H as [_ ->] end.
  apply Forall_insert; [done|].
  match goal with H : idx _ _ = Some _ |- _ => apply idx_Some in H as [_ He] end.
  rewrite Forall_lookup in Hf. exact (Hf _ _ He).
Qed.

Lemma from_restart w i sv rf :
  clusterFrom P w → idx (servers w) i = Some sv → Make (zlen (servers w)) i (Copy (persister (sv_rf sv))) = Some rf →
  clusterFrom P (mkCluster (<[Z.to_nat i := newServer rf]> (servers w)) (orphan i <$> calls w) (votes w)).
Proof.
  intros Hw Hi Hm. destruct (from_server _ _ _ Hw Hi) as [_ Hd _ _ _].
  assert (logFrom P rf ∧ diskFrom P rf) as [Hl' Hd'] by (eapply Make_from; [|exact Hm]; exact Hd). destruct Hw as [Hs Hc]. split; simpl.
  - apply Forall_insert; [done|]. by split.
  - apply Forall_fmap. eapply Forall_impl; [exact Hc|]. intros c. unfold orphan. simpl. by case_match.
Qed.

Lemma from_any_step l w w' : givenBy l → clusterFrom P w → step l w = Some w' → clusterFrom P w'.
Proof.
  intros Hg Hw Hst. destruct (isRestart l) eqn:E; [|by eapply from_step].
  destruct l; try done. simpl in Hst. inv_bind Hst. simplify_eq. by eapply from_restart.
Qed.
End methods.

(** ** Validity *)

Lemma from_steps {C} `{!Gob (PersistentStatus C)} `{!GobLaws (PersistentStatus C)} (P : C → Prop) ls (w w' : cluster C) :
  Forall (givenBy P) ls → clusterFrom P w → steps ls w = Some w' → clusterFrom P w'.
Proof.
  unfold steps. revert w. induction ls as [|l ls IH]; intros w Hg Hw H; simpl in *; [by simplify_eq|].
  apply Forall_cons in Hg as [Hgl Hg]. inv_bind H. eapply IH; [done| |exact H]. by eapply from_any_step.
Qed.

(** C27: validity.  In every run, with crashes, restarts, compaction and snapshots, a command
    that any peer sends on [applyCh] is one the service gave to [Start] at some peer. *)
Theorem applied_was_started {C} `{!Gob (PersistentStatus C)} `{!GobLaws (PersistentStatus C)} (n : nat) ls (w : cluster C) i sv m c :
  steps ls (initCluster n) = Some w →
  idx (servers w) i = Some sv → m ∈ sv_applyCh sv → Command m = Some c → ∃ j, ClientStart j c ∈ ls.
Proof.
  intros Hst Hi Hm Hc. assert (clusterFrom (λ c, ∃ j, ClientStart j c ∈ ls) w) as Hw.
  { eapply from_steps; [|apply from_init|exact Hst]. apply Forall_forall. intros [] Hl; simpl; try done. eauto. }
  destruct (from_server _ _ _ _ Hw Hi) as [_ _ _ _ Hs]. rewrite Forall_forall in Hs. by apply (Hs m).
Qed.

(** Peer 2 crashes and restarts after the command was applied at peer 0. *)
Definition crashedRun : list (label Z) := commitRun ++ [Restart 2].

Lemma applied_was_started_witness :
  sv_applyCh (peerOf crashedRun 0) = [commandMsg (Some 42) 1] ∧ ∃ j, ClientStart j 42 ∈ crashedRun.
Proof.
  assert (sv_applyCh (peerOf crashedRun 0) = [commandMsg (Some 42) 1]) as E by (vm_compute; reflexivity).
  split; [exact E|].
  refine (applied_was_started 3 crashedRun (runEnd crashedRun) 0 (peerOf crashedRun 0) (commandMsg (Some 42) 1) 42 _ _ _ eq_refl).
  - vm_compute. reflexivity.
  - vm_compute. reflexivity.
  - rewrite E. by apply list_elem_of_singleton.
Defined.
