(* ===== verification/KvSrv.v ===== *)
(** * The single-server key/value service ([kvsrv])

    The handlers of [kvsrv/server.go], the clerk of [kvsrv/client.go] as a state
    machine whose calls can lose the request or the reply, and their refinement
    of an atomic map: every [Put] and [Append] takes effect exactly once, between
    its call and its return, however often its messages are lost and sent again. *)

From S2P Require Import Prelude.
Open Scope go_scope.

(** ** [kvsrv/common.go] *)

Definition Modify : Z := 0.
Definition Report : Z := 1.

Record PutAppendArgs := mkPutAppendArgs {
  pa_Key : string; pa_Value : string; pa_RequestId : Z; pa_RequestType : Z }.
Record PutAppendReply := mkPutAppendReply { par_Value : string }.
Record GetArgs := mkGetArgs { ga_Key : string }.
Record GetReply := mkGetReply { gr_Value : string }.

(** ** [kvsrv/server.go] *)

Record KVServer := mkKVServer {
  data : gmap string string;
  MessageMap : gmap Z string;
}.

(** [m[key]] of a [map[string]string]: the empty string when absent. *)
Definition mapGet (m : gmap string string) (key : string) : string := default EmptyString (m !! key).

(** [func (kv *KVServer) Get(args, reply)] *)
Definition Get (args : GetArgs) (kv : KVServer) : GetReply := mkGetReply (mapGet (data kv) (ga_Key args)).

(** [func (kv *KVServer) Put(args, reply)] *)
Definition Put (args : PutAppendArgs) (kv : KVServer) : PutAppendReply * KVServer :=
  if pa_RequestType args =? Report then
    (mkPutAppendReply EmptyString, mkKVServer (data kv) (delete (pa_RequestId args) (MessageMap kv)))
  else match MessageMap kv !! pa_RequestId args with
  | Some _ => (mkPutAppendReply EmptyString, kv)
  | None =>
      (mkPutAppendReply EmptyString,
       mkKVServer (<[pa_Key args := pa_Value args]> (data kv))
                  (<[pa_RequestId args := pa_Value args]> (MessageMap kv)))
  end.

(** [func (kv *KVServer) Append(args, reply)] *)
Definition Append (args : PutAppendArgs) (kv : KVServer) : PutAppendReply * KVServer :=
  if pa_RequestType args =? Report then
    (mkPutAppendReply EmptyString, mkKVServer (data kv) (delete (pa_RequestId args) (MessageMap kv)))
  else match MessageMap kv !! pa_RequestId args with
  | Some res => (mkPutAppendReply res, kv)
  | None =>
      let oldValue := mapGet (data kv) (pa_Key args) in
      (mkPutAppendReply oldValue,
       mkKVServer (<[pa_Key args := oldValue +:+ pa_Value args]> (data kv))
                  (<[pa_RequestId args := oldValue]> (MessageMap kv)))
  end.

(** [func StartKVServer() *KVServer] *)
Definition StartKVServer : KVServer := mkKVServer ∅ ∅.

(** ** [kvsrv/client.go] *)

(** The method name [op] of [PutAppend]. *)
Inductive opName := OpPut | OpAppend.

Definition dispatch (op : opName) : PutAppendArgs → KVServer → PutAppendReply * KVServer :=
  match op with OpPut => Put | OpAppend => Append end.

(** Where a clerk is: the call it repeats until it succeeds, or between calls
    with the result of the last one. *)
Inductive clerk :=
  | Idle (result : option string)
  | CallGet (args : GetArgs)                                          (* the loop of Get *)
  | CallModify (op : opName) (args : PutAppendArgs)                   (* the first loop of PutAppend *)
  | CallReport (op : opName) (reportArgs : PutAppendArgs) (reply : PutAppendReply). (* the second loop *)

(** The start of [Clerk.Get] and of [Clerk.PutAppend]; [id] is what [nrand] drew. *)
Definition beginGet (key : string) : clerk := CallGet (mkGetArgs key).
Definition beginPutAppend (op : opName) (key value : string) (id : Z) : clerk :=
  CallModify op (mkPutAppendArgs key value id Modify).

(** How one [Call] ends: the handler did not run and [Call] is false, it ran and
    [Call] is false, or it ran and the reply arrived. *)
Inductive outcome := RequestLost | ReplyLost | Replied.

(** One iteration of the loop the clerk is in. *)
Definition attempt (o : outcome) (c : clerk) (kv : KVServer) : option (clerk * KVServer) :=
  match c with
  | Idle _ => None
  | CallGet args =>
      match o with
      | Replied => Some (Idle (Some (gr_Value (Get args kv))), kv)
      | _ => Some (c, kv)
      end
  | CallModify op args =>
      let (reply, kv') := dispatch op args kv in
      match o with
      | RequestLost => Some (c, kv)
      | ReplyLost => Some (c, kv')
      | Replied =>
          Some (CallReport op (mkPutAppendArgs (pa_Key args) (pa_Value args) (pa_RequestId args) Report) reply, kv')
      end
  | CallReport op reportArgs reply =>
      let (_, kv') := dispatch op reportArgs kv in
      match o with
      | RequestLost => Some (c, kv)
      | ReplyLost => Some (c, kv')
      | Replied => Some (Idle (Some (par_Value reply)), kv')
      end
  end.

(** ** Clients and server *)

Record system := mkSystem { srv : KVServer; clerks : list clerk }.

(** The request id a clerk is using. *)
Definition idOf (c : clerk) : option Z :=
  match c with
  | CallModify _ args | CallReport _ args _ => Some (pa_RequestId args)
  | _ => None
  end.

(** [nrand] draws 62 random bits; the model takes only draws that do not
    collide with a request in progress or a record of the server. *)
Definition fresh (id : Z) (s : system) : bool :=
  bool_decide (MessageMap (srv s) !! id = None) &&
  forallb (λ c, negb (bool_decide (idOf c = Some id))) (clerks s).

Inductive event :=
  | InvokeGet (i : nat) (key : string)
  | InvokePutAppend (i : nat) (op : opName) (key value : string) (id : Z)
  | Attempt (i : nat) (o : outcome).

Definition step (e : event) (s : system) : option system :=
  match e with
  | InvokeGet i key =>
      c ← clerks s !! i;
      match c with
      | Idle _ => Some (mkSystem (srv s) (<[i := beginGet key]> (clerks s)))
      | _ => None
      end
  | InvokePutAppend i op key value id =>
      c ← clerks s !! i;
      match c with
      | Idle _ => if fresh id s
                  then Some (mkSystem (srv s) (<[i := beginPutAppend op key value id]> (clerks s)))
                  else None
      | _ => None
      end
  | Attempt i o =>
      c ← clerks s !! i;
      '(c', kv') ← attempt o c (srv s);
      Some (mkSystem kv' (<[i := c']> (clerks s)))
  end.

Definition steps (es : list event) (s : system) : option system := foldM (λ s e, step e s) es s.

Definition init (n : nat) : system := mkSystem StartKVServer (replicate n (Idle None)).

(** ** The atomic specification *)

Module Spec.
Inductive aop := AGet (key : string) | APut (key value : string) | AAppend (key value : string).

(** The effect and the result of an operation on a map. *)
Definition apply (o : aop) (m : gmap string string) : string * gmap string string :=
  match o with
  | AGet key => (mapGet m key, m)
  | APut key value => (EmptyString, <[key := value]> m)
  | AAppend key value => (mapGet m key, <[key := mapGet m key +:+ value]> m)
  end.

Inductive aclerk :=
  | AIdle (result : option string)
  | APending (o : aop)
  | ADone (o : aop) (v : string).

Record state := mkState { amap : gmap string string; aclerks : list aclerk }.

(** What a client sees: its call, and the result its call returns. *)
Inductive action := ACall (i : nat) (o : aop) | AReturn (i : nat) (v : string).

Inductive astep (s : state) : list action → state → Prop :=
  | a_invoke i o r : aclerks s !! i = Some (AIdle r) →
      astep s [ACall i o] (mkState (amap s) (<[i := APending o]> (aclerks s)))
  | a_apply i o : aclerks s !! i = Some (APending o) →
      astep s [] (mkState (apply o (amap s)).2 (<[i := ADone o (apply o (amap s)).1]> (aclerks s)))
  | a_return i o v : aclerks s !! i = Some (ADone o v) →
      astep s [AReturn i v] (mkState (amap s) (<[i := AIdle (Some v)]> (aclerks s))).

(** Runs, with what the clients see of them. *)
Inductive atrace (s : state) : list action → state → Prop :=
  | at_refl : atrace s [] s
  | at_step acts s1 acts' s' : astep s acts s1 → atrace s1 acts' s' → atrace s (acts ++ acts') s'.

Lemma at_once s acts s' : astep s acts s' → atrace s acts s'.
Proof. intros H. rewrite <-(app_nil_r acts). by eapply at_step; [|apply at_refl]. Qed.

Lemma at_trans s acts s1 acts' s' : atrace s acts s1 → atrace s1 acts' s' → atrace s (acts ++ acts') s'.
Proof. induction 1; [done|]. intros H'. rewrite <-app_assoc. eapply at_step; eauto. Qed.

Definition ainit (n : nat) : state := mkState ∅ (replicate n (AIdle None)).
End Spec.
Import Spec.

(** ** The refinement mapping *)

Definition absOp (op : opName) (args : PutAppendArgs) : aop :=
  match op with
  | OpPut => APut (pa_Key args) (pa_Value args)
  | OpAppend => AAppend (pa_Key args) (pa_Value args)
  end.

(** What the server records of a request, as the client's result. *)
Definition recorded (op : opName) (v : string) : string :=
  match op with OpPut => EmptyString | OpAppend => v end.

Definition absClerk (mm : gmap Z string) (c : clerk) : aclerk :=
  match c with
  | Idle r => AIdle r
  | CallGet args => APending (AGet (ga_Key args))
  | CallModify op args =>
      match mm !! pa_RequestId args with
      | Some v => ADone (absOp op args) (recorded op v)
      | None => APending (absOp op args)
      end
  | CallReport op args reply => ADone (absOp op args) (par_Value reply)
  end.

Definition abs (s : system) : Spec.state :=
  mkState (data (srv s)) (absClerk (MessageMap (srv s)) <$> clerks s).

(** What the clients see of an event that leads to [s'], and of a run. *)
Definition observe (e : event) (s' : system) : list action :=
  match e with
  | InvokeGet i key => [ACall i (AGet key)]
  | InvokePutAppend i op key value id => [ACall i (absOp op (mkPutAppendArgs key value id Modify))]
  | Attempt i _ => match clerks s' !! i with Some (Idle (Some v)) => [AReturn i v] | _ => [] end
  end.

Fixpoint trace (es : list event) (s : system) : list action :=
  match es with
  | [] => []
  | e :: es' => match step e s with Some s' => observe e s' ++ trace es' s' | None => [] end
  end.

(** ** The invariant *)

Record inv (s : system) : Prop := {
  inv_ids i j c c' id : clerks s !! i = Some c → clerks s !! j = Some c' →
    idOf c = Some id → idOf c' = Some id → i = j;
  inv_messages id v : MessageMap (srv s) !! id = Some v →
    ∃ i c, clerks s !! i = Some c ∧ idOf c = Some id;
  inv_types i c : clerks s !! i = Some c →
    match c with
    | CallModify _ args => pa_RequestType args = Modify
    | CallReport _ args _ => pa_RequestType args = Report
    | _ => True
    end;
}.

Lemma inv_update s i c c' kv' :
  inv s → clerks s !! i = Some c → (idOf c' = idOf c ∨ idOf c' = None) →
  (match c' with
   | CallModify _ args => pa_RequestType args = Modify
   | CallReport _ args _ => pa_RequestType args = Report
   | _ => True
   end) →
  (∀ id v, MessageMap kv' !! id = Some v →
     idOf c' = Some id ∨ is_Some (MessageMap (srv s) !! id) ∧ idOf c ≠ Some id) →
  inv (mkSystem kv' (<[i := c']> (clerks s))).
Proof.
  intros [Hids Hmsg Hty] Hi Hid Hty' Hm. pose proof (lookup_lt_Some _ _ _ Hi) as Hlt. split; simpl.
  - assert (∀ j d id, <[i := c']> (clerks s) !! j = Some d → idOf d = Some id →
      ∃ d', clerks s !! j = Some d' ∧ idOf d' = Some id) as Hold.
    { intros j d id. destruct (decide (i = j)) as [<-|?].
      - rewrite list_lookup_insert_eq by done. intros [= <-] ?. exists c. intuition congruence.
      - rewrite list_lookup_insert_ne by done. eauto. }
    intros j k d d' id Hj Hk Hd Hd'. destruct (Hold _ _ _ Hj Hd) as (? & ? & ?), (Hold _ _ _ Hk Hd') as (? & ? & ?).
    by eapply Hids.
  - intros id v [?|[[w Hw] Hne]]%Hm; [exists i, c'; by rewrite list_lookup_insert_eq|].
    destruct (Hmsg _ _ Hw) as (j & d & Hj & Hd). exists j, d.
    rewrite list_lookup_insert_ne; [done|]. intros ->. congruence.
  - intros j d. destruct (decide (i = j)) as [<-|?].
    + rewrite list_lookup_insert_eq by done. by intros [= <-].
    + rewrite list_lookup_insert_ne by done. apply Hty.
Qed.

(** Changing the clerk [i] and the records at its id changes nothing else. *)
Lemma abs_update s i c c' kv' :
  inv s → clerks s !! i = Some c →
  (∀ id, idOf c ≠ Some id → MessageMap kv' !! id = MessageMap (srv s) !! id) →
  abs (mkSystem kv' (<[i := c']> (clerks s))) =
  mkState (data kv') (<[i := absClerk (MessageMap kv') c']> (aclerks (abs s))).
Proof.
  intros Hinv Hi Hm. unfold abs. simpl. f_equal. rewrite list_fmap_insert. apply list_eq. intros j.
  pose proof (lookup_lt_Some _ _ _ Hi). destruct (decide (i = j)) as [<-|Hne].
  - by rewrite !list_lookup_insert_eq by (rewrite length_fmap; done).
  - rewrite !list_lookup_insert_ne, !list_lookup_fmap by done.
    destruct (clerks s !! j) as [d|] eqn:Hj; [|done]. simpl. f_equal.
    destruct d as [r|a|op a|op a r]; simpl; try done. rewrite Hm; [done|].
    intros Hc. apply Hne. by eapply (inv_ids _ Hinv).
Qed.

(** A [Modify] request runs once: the first execution applies the operation,
    later ones find the record. *)
Lemma dispatch_modify op args kv :
  pa_RequestType args = Modify →
  (∃ v, MessageMap kv !! pa_RequestId args = Some v ∧
        dispatch op args kv = (mkPutAppendReply (recorded op v), kv)) ∨
  (MessageMap kv !! pa_RequestId args = None ∧ ∃ w,
     recorded op w = (apply (absOp op args) (data kv)).1 ∧
     dispatch op args kv = (mkPutAppendReply (recorded op w),
       mkKVServer (apply (absOp op args) (data kv)).2 (<[pa_RequestId args := w]> (MessageMap kv)))).
Proof.
  intros Ht. destruct op; simpl; unfold Put, Append; rewrite Ht; simpl;
    destruct (MessageMap kv !! pa_RequestId args) as [v|]; [by left; eauto|right; eauto|by left; eauto|right; eauto].
Qed.

Lemma dispatch_report op args kv :
  pa_RequestType args = Report →
  (dispatch op args kv).2 = mkKVServer (data kv) (delete (pa_RequestId args) (MessageMap kv)).
Proof. intros Ht. destruct op; simpl; unfold Put, Append; rewrite Ht; done. Qed.

Lemma abs_lookup s i c :
  clerks s !! i = Some c → aclerks (abs s) !! i = Some (absClerk (MessageMap (srv s)) c).
Proof. intros Hi. unfold abs. simpl. by rewrite list_lookup_fmap, Hi. Qed.

(** A clerk and a server that did not change. *)
Lemma abs_same s i c :
  inv s → clerks s !! i = Some c → mkSystem (srv s) (<[i := c]> (clerks s)) = s.
Proof. intros _ Hi. destruct s; simpl in *. f_equal. by apply list_insert_id. Qed.

Definition simulated (s : system) (acts : list action) (s' : system) : Prop := inv s' ∧ atrace (abs s) acts (abs s').

Lemma sim_refl s : inv s → simulated s [] s.
Proof. split; [done|apply at_refl]. Qed.

Lemma attempt_modify s i op args kv' reply :
  inv s → clerks s !! i = Some (CallModify op args) → dispatch op args (srv s) = (reply, kv') →
  simulated s [] (mkSystem kv' (<[i := CallModify op args]> (clerks s))) ∧
  simulated s [] (mkSystem kv' (<[i := CallReport op
    (mkPutAppendArgs (pa_Key args) (pa_Value args) (pa_RequestId args) Report) reply]> (clerks s))).
Proof.
  intros Hinv Hi Hd. pose proof (inv_types _ Hinv _ _ Hi) as Ht. simpl in Ht.
  pose proof (abs_lookup _ _ _ Hi) as Ha. simpl in Ha.
  destruct (dispatch_modify op args (srv s) Ht) as [(v & Hv & E)|(Hn & w & Hw & E)];
    rewrite E in Hd; injection Hd as <- <-.
  - rewrite Hv in Ha. split.
    { rewrite abs_same by done. by apply sim_refl. }
    split.
    + eapply inv_update; [done|done|by left|done|]. intros id u Hu. simpl.
      destruct (decide (pa_RequestId args = id)) as [->|?]; [by left|right; split; [eauto|congruence]].
    + erewrite abs_update by done. simpl. destruct op; simpl in *;
        rewrite list_insert_id by done; apply at_refl.
  - rewrite Hn in Ha. assert (∀ id u, <[pa_RequestId args := w]> (MessageMap (srv s)) !! id = Some u →
       Some (pa_RequestId args) = Some id ∨ is_Some (MessageMap (srv s) !! id) ∧ Some (pa_RequestId args) ≠ Some id) as Hm.
    { intros id u. destruct (decide (pa_RequestId args = id)) as [->|?]; [by left|].
      rewrite lookup_insert_ne by done. right. split; [eauto|congruence]. }
    assert (∀ id, Some (pa_RequestId args) ≠ Some id →
      <[pa_RequestId args := w]> (MessageMap (srv s)) !! id = MessageMap (srv s) !! id) as Hm'.
    { intros id ?. rewrite lookup_insert_ne by congruence. done. }
    split; (split; [eapply inv_update; [done|done|by left|done|exact Hm]|]);
      (erewrite abs_update; [|done|done|exact Hm']); simpl; rewrite ?lookup_insert_eq, Hw;
      apply at_once; [|destruct op]; by apply (a_apply (abs s) i).
Qed.

Lemma attempt_report s i op args reply kv' r :
  inv s → clerks s !! i = Some (CallReport op args reply) → dispatch op args (srv s) = (r, kv') →
  simulated s [] (mkSystem kv' (<[i := CallReport op args reply]> (clerks s))) ∧
  simulated s [AReturn i (par_Value reply)] (mkSystem kv' (<[i := Idle (Some (par_Value reply))]> (clerks s))).
Proof.
  intros Hinv Hi Hd. pose proof (inv_types _ Hinv _ _ Hi) as Ht. simpl in Ht.
  pose proof (abs_lookup _ _ _ Hi) as Ha. simpl in Ha.
  pose proof (dispatch_report op args (srv s) Ht) as E. rewrite Hd in E. simpl in E. subst kv'.
  assert (∀ id u, delete (pa_RequestId args) (MessageMap (srv s)) !! id = Some u →
     is_Some (MessageMap (srv s) !! id) ∧ Some (pa_RequestId args) ≠ Some id) as Hm.
  { intros id u [? ?]%lookup_delete_Some. split; [eauto|congruence]. }
  assert (∀ id, Some (pa_RequestId args) ≠ Some id →
    delete (pa_RequestId args) (MessageMap (srv s)) !! id = MessageMap (srv s) !! id) as Hm'.
  { intros id ?. rewrite lookup_delete_ne by congruence. done. }
  split; (split; [eapply inv_update; [done|done|by (left + right)|done|intros ? ? ?%Hm; by right]|]);
    (erewrite abs_update; [|done|done|exact Hm']); simpl.
  - rewrite list_insert_id by done. apply at_refl.
  - apply at_once. by eapply (a_return (abs s) i).
Qed.

Lemma observe_attempt s i o c kv' :
  (i < length (clerks s))%nat →
  observe (Attempt i o) (mkSystem kv' (<[i := c]> (clerks s))) =
  match c with Idle (Some v) => [AReturn i v] | _ => [] end.
Proof. intros Hlt. simpl. by rewrite list_lookup_insert_eq. Qed.

(** Every event of the system is a sequence of atomic steps, of which the
    clients see the event. *)
Lemma step_simulated s e s' : inv s → step e s = Some s' → simulated s (observe e s') s'.
Proof.
  intros Hinv H. destruct e as [i key|i op key value id|i o]; simpl in H;
    destruct (clerks s !! i) as [c|] eqn:Hi; try done; simpl in H; pose proof (abs_lookup _ _ _ Hi) as Ha;
    pose proof (lookup_lt_Some _ _ _ Hi) as Hlt.
  - destruct c; try done. injection H as <-. split.
    + eapply inv_update; [done|done|by right|done|]. intros id v ?. right. split; [eauto|done].
    + erewrite abs_update by done. apply at_once. by eapply (a_invoke (abs s) i).
  - destruct c; try done. destruct (fresh id s) eqn:Hf; [|done]. injection H as <-.
    unfold fresh in Hf. apply andb_true_iff in Hf as [Hn%bool_decide_eq_true Hall].
    assert (∀ j d, clerks s !! j = Some d → idOf d ≠ Some id) as Hfresh.
    { intros j d Hj Hd. rewrite forallb_forall in Hall. apply list_elem_of_lookup_2, list_elem_of_In in Hj.
      apply Hall in Hj. by rewrite bool_decide_true in Hj. }
    split.
    + destruct Hinv as [Hids Hmsg Hty]. pose proof (lookup_lt_Some _ _ _ Hi). split; simpl.
      * intros j k d d' x. destruct (decide (i = j)) as [<-|?], (decide (i = k)) as [<-|?]; try done;
          rewrite ?list_lookup_insert_eq, ?list_lookup_insert_ne by done.
        -- intros [= <-] Hk [= <-] Hd. by destruct (Hfresh _ _ Hk).
        -- intros Hj [= <-] Hd [= <-]. by destruct (Hfresh _ _ Hj).
        -- by apply Hids.
      * intros x v Hx. destruct (Hmsg _ _ Hx) as (j & d & Hj & Hd). exists j, d.
        rewrite list_lookup_insert_ne; [done|]. intros ->. rewrite Hi in Hj. by injection Hj as <-.
      * intros j d. destruct (decide (i = j)) as [<-|?].
        -- rewrite list_lookup_insert_eq by done. by intros [= <-].
        -- rewrite list_lookup_insert_ne by done. apply Hty.
    + erewrite abs_update by done. simpl. rewrite Hn. apply at_once. by eapply (a_invoke (abs s) i).
  - destruct (attempt o c (srv s)) as [[c' kv']|] eqn:E; [|done]. injection H as <-. unfold attempt in E.
    rewrite observe_attempt by done. destruct c as [r|args|op args|op args reply]; [done| | |].
    + destruct o; injection E as <- <-; rewrite ?abs_same by done; try by apply sim_refl. split.
      * eapply inv_update; [done|done|by right|done|]. intros id v ?. right. split; [eauto|done].
      * erewrite abs_update by done. eapply (at_step _ []); [by eapply (a_apply (abs s) i)|].
        apply at_once. simpl. set (m := abs s).
        replace (<[i := AIdle _]> (aclerks m)) with
          (<[i := AIdle (Some (mapGet (data (srv s)) (ga_Key args)))]>
             (<[i := ADone (AGet (ga_Key args)) (mapGet (data (srv s)) (ga_Key args))]> (aclerks m)))
          by by rewrite list_insert_insert_eq.
        eapply (a_return (mkState (amap m) (<[i := ADone _ _]> (aclerks m))) i). simpl.
        rewrite list_lookup_insert_eq; [done|]. by eapply lookup_lt_Some.
    + destruct (dispatch op args (srv s)) as [reply kv''] eqn:Hd.
      destruct (attempt_modify _ _ _ _ _ _ Hinv Hi Hd) as [? ?].
      destruct o; injection E as <- <-; [rewrite abs_same by done; by apply sim_refl|done|done].
    + destruct (dispatch op args (srv s)) as [r kv''] eqn:Hd.
      destruct (attempt_report _ _ _ _ _ _ _ Hinv Hi Hd) as [? ?].
      destruct o; injection E as <- <-; [rewrite abs_same by done; by apply sim_refl|done|done].
Qed.

Lemma inv_init n : inv (init n).
Proof.
  split; simpl.
  - intros i j c c' id [-> _]%lookup_replicate_1 _. done.
  - intros id v. by rewrite lookup_empty.
  - intros i c [-> _]%lookup_replicate_1. done.
Qed.

Lemma steps_simulated es s s' : inv s → steps es s = Some s' → simulated s (trace es s) s'.
Proof.
  unfold steps. revert s. induction es as [|e es IH]; intros s Hinv H; simpl in H |- *.
  - injection H as <-. by apply sim_refl.
  - destruct (step e s) as [s1|] eqn:E; [|done]. simpl in H. destruct (step_simulated _ _ _ Hinv E) as [Hinv' Hs].
    destruct (IH _ Hinv' H) as [? ?]. split; [done|by eapply at_trans].
Qed.

Lemma abs_init n : abs (init n) = ainit n.
Proof. unfold abs, ainit. simpl. by rewrite fmap_replicate. Qed.

(** The single-server store refines an atomic map.  Any number of clerks, any
    losses of requests and replies: what the clients see of a run, their calls and
    the values returned, they see of a run of a map with atomic operations, in which
    an operation is applied once, after its call and before its return, and the map
    at the end is the data of the server. *)
Theorem kvsrv_refines_atomic_map n es s :
  steps es (init n) = Some s →
  atrace (ainit n) (trace es (init n)) (abs s) ∧ amap (abs s) = data (srv s).
Proof.
  intros H. split; [|done]. destruct (steps_simulated es (init n) s (inv_init n) H) as [_ Hr].
  by rewrite abs_init in Hr.
Qed.

(** The server forgets completed requests: in every reachable state the
    records are those of operations in progress, so when no clerk is in the
    middle of an operation the table of requests is empty. *)
Theorem kvsrv_forgets_requests n es s :
  steps es (init n) = Some s → Forall (λ c, idOf c = None) (clerks s) → MessageMap (srv s) = ∅.
Proof.
  intros H Hidle. destruct (steps_simulated es (init n) s (inv_init n) H) as [Hinv _].
  apply map_empty. intros id. destruct (_ !! id) as [v|] eqn:E; [|done].
  destruct (inv_messages _ Hinv _ _ E) as (i & c & Hi & Hc).
  rewrite Forall_lookup in Hidle. by rewrite (Hidle _ _ Hi) in Hc.
Qed.

(** A run with a lost request, a lost reply of the modification and of the report. *)
Definition exampleRun : list event :=
  [InvokePutAppend 0 OpAppend "k" "a" 7; Attempt 0 RequestLost; Attempt 0 ReplyLost;
   InvokePutAppend 1 OpAppend "k" "b" 8; Attempt 1 Replied; Attempt 0 Replied;
   Attempt 0 ReplyLost; Attempt 0 Replied; Attempt 1 Replied; InvokeGet 1 "k"; Attempt 1 Replied].

Lemma kvsrv_refines_atomic_map_witness :
  ∃ s, steps exampleRun (init 2) = Some s ∧
    atrace (ainit 2) [ACall 0 (AAppend "k" "a"); ACall 1 (AAppend "k" "b"); AReturn 0 ""; AReturn 1 "a";
                      ACall 1 (AGet "k"); AReturn 1 "ab"]%string (abs s).
Proof.
  eexists. split; [vm_compute; reflexivity|].
  eapply (kvsrv_refines_atomic_map 2 exampleRun). vm_compute. reflexivity.
Defined.

Lemma kvsrv_forgets_requests_witness :
  ∃ s, steps exampleRun (init 2) = Some s ∧ MessageMap (srv s) = ∅.
Proof.
  eexists. split; [vm_compute; reflexivity|].
  eapply (kvsrv_forgets_requests 2 exampleRun); [vm_compute; reflexivity|by repeat constructor].
Defined.
