(* ===== verification/KvRaft.v ===== *)
(** * The replicated key/value service: data and operations ([kvraft])

    [kvraft/server.go] and [kvraft/client.go]: the state of a [KVServer], what
    one message of [applyCh] does to it, snapshots, restart, and the retry loop
    of the clerk.  How the handlers interleave with the apply loop is in
    [KvRaftServer]. *)

From S2P Require Import Prelude Persister RaftNode.
Open Scope go_scope.

(** ** Data *)

(** [type OpType string] with its constants. *)
Definition OpType := string.
Definition GET : OpType := "Get".
Definition PUT : OpType := "Put".
Definition APPEND : OpType := "Append".

(** The values of [type Err string] ([kvraft/common.go]). *)
Definition Err := string.
Definition OK : Err := "OK".
Definition ErrNoKey : Err := "ErrNoKey".
Definition ErrWrongLeader : Err := "ErrWrongLeader".

(** [type Op struct] *)
Record Op := mkOp {
  op_Type : OpType; op_Key : string; op_Value : string; op_ClientId : Z; op_SequenceId : Z }.

(** [type PutAppendArgs struct], [type GetArgs struct] and their replies. *)
Record PutAppendArgs := mkPutAppendArgs {
  pa_Key : string; pa_Value : string; pa_Op : string; pa_ClientId : Z; pa_SequenceId : Z }.
Record PutAppendReply := mkPutAppendReply { par_Leader : bool; par_Err : Err }.
Record GetArgs := mkGetArgs { ga_Key : string; ga_ClientId : Z; ga_SequenceId : Z }.
Record GetReply := mkGetReply { gr_Leader : bool; gr_Err : Err; gr_Value : string }.

(** [type SnapshotStatus struct] *)
Record SnapshotStatus := mkSnapshotStatus {
  ss_Data : gmap string string; ss_Duptable : gmap Z Z }.

(** [type reqIdentification struct] *)
Record reqIdentification := mkReq { rq_ClientId : Z; rq_SequenceId : Z; rq_Err : Err }.

(** [type KVServer struct] without the lock, the channels and Raft; a channel of
    [wakeClient] is the number of the handler that made it. *)
Record KVServer := mkKV {
  kv_dead : bool;
  maxraftstate : Z;
  kv_lastApplied : Z;
  duptable : gmap Z Z;
  data : gmap string string;
  wakeClient : gmap Z nat;
}.

(** ** The state machine *)

(** The two maps a snapshot carries. *)
Definition statusOf (kv : KVServer) : SnapshotStatus := mkSnapshotStatus (data kv) (duptable kv).
Definition withStatus (s : SnapshotStatus) (kv : KVServer) : KVServer :=
  mkKV (kv_dead kv) (maxraftstate kv) (kv_lastApplied kv) (ss_Duptable s) (ss_Data s) (wakeClient kv).

(** [!ok || PreSequenceId < op.SequenceId] *)
Definition isNew (dup : gmap Z Z) (op : Op) : bool :=
  match dup !! op_ClientId op with
  | Some pre => pre <? op_SequenceId op
  | None => true
  end.

(** The [switch op.Type] of [apply]. *)
Definition execute (op : Op) (m : gmap string string) : gmap string string :=
  if String.eqb (op_Type op) PUT then <[op_Key op := op_Value op]> m
  else if String.eqb (op_Type op) APPEND then
    match m !! op_Key op with
    | Some v => <[op_Key op := v +:+ op_Value op]> m
    | None => <[op_Key op := op_Value op]> m
    end
  else m.

(** A committed command: skipped when its sequence number is not above the last
    one of its client. *)
Definition applyOp (s : SnapshotStatus) (op : Op) : SnapshotStatus :=
  if isNew (ss_Duptable s) op
  then mkSnapshotStatus (execute op (ss_Data s)) (<[op_ClientId op := op_SequenceId op]> (ss_Duptable s))
  else s.

(** The state after the commands of a log. *)
Definition emptyStatus : SnapshotStatus := mkSnapshotStatus ∅ ∅.
Definition replay (log : list Op) : SnapshotStatus := foldl applyOp emptyStatus log.

(** ** Snapshots and restart *)

Section gob.
Context `{!Gob SnapshotStatus}.

(** [rate >= 0.9] of [snapshot]: the quotient of two [float64].  For sizes below
    2^49 the rounded quotient is at least the double nearest 0.9 exactly when
    10 * size >= 9 * max; a zero divisor gives [+Inf] or, for 0/0, [NaN]. *)
Definition snapshotDue (raftStateSize maxraftstate : Z) : bool :=
  if maxraftstate <? 0 then false
  else if maxraftstate =? 0 then 0 <? raftStateSize
  else 9 * maxraftstate <=? 10 * raftStateSize.

(** [func (kv *KVServer) snapshot(lastApplied int)]: the call of [rf.Snapshot], if any. *)
Definition snapshotCall (raftStateSize : Z) (lastApplied : Z) (kv : KVServer) : option (Z * bytes) :=
  if maxraftstate kv =? -1 then None
  else if snapshotDue raftStateSize (maxraftstate kv)
  then match gob_encode (statusOf kv) with
       | Some b => Some (lastApplied, b)
       | None => None
       end
  else None.

(** [func (kv *KVServer) readPersist()] *)
Definition readPersist (ps : Persister) (kv : KVServer) : KVServer :=
  let snapshot := ReadSnapshot ps in
  if zlen snapshot <? 1 then kv else
  match gob_decode snapshot with
  | Some s => withStatus s kv
  | None => kv
  end.

(** [func StartKVServer(servers, me, persister, maxraftstate) *KVServer] *)
Definition StartKVServer (ps : Persister) (maxraftstate : Z) : KVServer :=
  readPersist ps (mkKV false maxraftstate 0 ∅ ∅ ∅).

(** [func (kv *KVServer) Kill()], [func (kv *KVServer) killed() bool] *)
Definition Kill (kv : KVServer) : KVServer :=
  mkKV true (maxraftstate kv) (kv_lastApplied kv) (duptable kv) (data kv) (wakeClient kv).
Definition killed (kv : KVServer) : bool := kv_dead kv.

(** ** One iteration of [apply] *)

Definition set_lastApplied (i : Z) (kv : KVServer) : KVServer :=
  mkKV (kv_dead kv) (maxraftstate kv) i (duptable kv) (data kv) (wakeClient kv).

(** From taking the lock to the wake-up: [Skip] when the index is covered by a
    snapshot, [Wake] when a handler waits for the index (the lock is kept),
    [Applied] when none does, [Installed] and [BadSnapshot] for a snapshot,
    [Panic] when the command is not an [Op]. *)
Inductive applied :=
  | Skip
  | Wake (ch : nat) (r : reqIdentification) (kv : KVServer)
  | Applied (kv : KVServer)
  | Installed (kv : KVServer)
  | BadSnapshot
  | Panic.

Definition applyMsg (msg : ApplyMsg Op) (kv : KVServer) : applied :=
  if CommandValid msg then
    if CommandIndex msg <=? kv_lastApplied kv then Skip else
    match Command msg with
    | None => Panic
    | Some op =>
        let kv' := withStatus (applyOp (statusOf kv) op) kv in
        match wakeClient kv !! CommandIndex msg with
        | Some ch => Wake ch (mkReq (op_ClientId op) (op_SequenceId op) OK) kv'
        | None => Applied kv'
        end
    end
  else if SnapshotValid msg then
    match gob_decode (Snapshot_ msg) with
    | None => BadSnapshot
    | Some s => Installed (withStatus s (set_lastApplied (SnapshotIndex msg) kv))
    end
  else Skip.

(** The rest of the command branch: record the index, then maybe a snapshot. *)
Definition finishMsg (raftStateSize index : Z) (kv : KVServer) : KVServer * option (Z * bytes) :=
  let kv' := set_lastApplied index kv in (kv', snapshotCall raftStateSize index kv').

End gob.

(** ** The clerk ([kvraft/client.go]) *)

Record Clerk := mkClerk { ck_servers : Z; ck_leader : Z; ck_clientId : Z; ck_sequenceId : Z }.

(** [func MakeClerk(servers) *Clerk]; [id] is what [nrand] drew. *)
Definition MakeClerk (servers id : Z) : Clerk := mkClerk servers 0 id 0.

(** The loop of [Clerk.Get] and [Clerk.PutAppend]: [call k server] is what the
    [k]-th call gives, [None] when [Call] returned false; [leader] reads the
    reply's [Leader].  The loop has no bound; [fuel] is the number of calls
    allowed, and the result is the server that answered, with its reply. *)
Fixpoint retry {R} (call : nat → Z → option R) (leader : R → bool) (n : Z) (fuel k : nat) (server : Z)
    : option (Z * R) :=
  match fuel with
  | O => None
  | S fuel' =>
      let next := retry call leader n fuel' (S k) (Z.rem (server + 1) n) in
      match call k server with
      | Some reply => if leader reply then Some (server, reply) else next
      | None => next
      end
  end.

(** [func (ck *Clerk) Get(key string) string] *)
Definition clerkGet (call : GetArgs → nat → Z → option GetReply) (fuel : nat) (key : string) (ck : Clerk)
    : option (string * Clerk) :=
  let args := mkGetArgs key (ck_clientId ck) (ck_sequenceId ck) in
  '(server, reply) ← retry (call args) gr_Leader (ck_servers ck) fuel 0 (ck_leader ck);
  Some (gr_Value reply, mkClerk (ck_servers ck) server (ck_clientId ck) (ck_sequenceId ck + 1)).

(** [func (ck *Clerk) PutAppend(key, value, op string)] *)
Definition clerkPutAppend (call : PutAppendArgs → nat → Z → option PutAppendReply) (fuel : nat)
    (key value op : string) (ck : Clerk) : option Clerk :=
  let args := mkPutAppendArgs key value op (ck_clientId ck) (ck_sequenceId ck) in
  '(server, _) ← retry (call args) par_Leader (ck_servers ck) fuel 0 (ck_leader ck);
  Some (mkClerk (ck_servers ck) server (ck_clientId ck) (ck_sequenceId ck + 1)).

(** [Put] and [Append] of the clerk. *)
Definition clerkPut call fuel key value := clerkPutAppend call fuel key value "Put".
Definition clerkAppend call fuel key value := clerkPutAppend call fuel key value "Append".
