(* ===== verification/KvRaftLog.v ===== *)
(** * Exactly-once execution, restart and the clerk of [kvraft]

    The duplicate table of [KvRaft] makes a log with retransmitted commands
    behave like the log of the first transmissions, a snapshot stands for the
    prefix of the log it was taken from, and the clerk finds a stable leader. *)

From S2P Require Import Prelude Persister RaftNode KvRaft.
Open Scope go_scope.

(** ** Exactly once *)

(** The identity of a request. *)
Definition reqId (op : Op) : Z * Z := (op_ClientId op, op_SequenceId op).

(** The first occurrence of every request. *)
Fixpoint firsts (seen : list (Z * Z)) (log : list Op) : list Op :=
  match log with
  | [] => []
  | op :: log' =>
      if decide (reqId op ∈ seen) then firsts seen log' else op :: firsts (reqId op :: seen) log'
  end.

(** What clerks that run one operation at a time give: a request is either a
    retransmission of one that is already in the log, or newer than every
    request of its client in the log. *)
Fixpoint sequential (seen : list (Z * Z)) (log : list Op) : Prop :=
  match log with
  | [] => True
  | op :: log' =>
      (reqId op ∈ seen ∨ ∀ q, (op_ClientId op, q) ∈ seen → q < op_SequenceId op) ∧
      sequential (reqId op :: seen) log'
  end.

(** The duplicate table holds the largest sequence number seen of every client. *)
Definition tableOf (dup : gmap Z Z) (seen : list (Z * Z)) : Prop :=
  (∀ c q, (c, q) ∈ seen → ∃ m, dup !! c = Some m ∧ q ≤ m) ∧
  (∀ c m, dup !! c = Some m → (c, m) ∈ seen).

Lemma tableOf_new dup seen op :
  tableOf dup seen → reqId op ∉ seen → (∀ q, (op_ClientId op, q) ∈ seen → q < op_SequenceId op) →
  isNew dup op = true ∧ tableOf (<[op_ClientId op := op_SequenceId op]> dup) (reqId op :: seen).
Proof.
  intros [H1 H2] Hn Hlt. unfold isNew. split.
  - destruct (dup !! op_ClientId op) as [m|] eqn:E; [|done]. apply Z.ltb_lt, Hlt, H2, E.
  - split; intros c q.
    + intros [[= -> ->]|Hin]%elem_of_cons; [rewrite lookup_insert_eq; eauto with lia|].
      destruct (decide (op_ClientId op = c)) as [<-|?].
      * rewrite lookup_insert_eq. apply Hlt in Hin. eauto with lia.
      * rewrite lookup_insert_ne by done. by apply H1.
    + intros [[<- <-]|[? ?%H2]]%lookup_insert_Some; [by left|by right].
Qed.

Lemma tableOf_old dup seen op : tableOf dup seen → reqId op ∈ seen → isNew dup op = false.
Proof.
  intros [H1 _] Hin. destruct (H1 _ _ Hin) as (m & Hm & ?). unfold isNew. rewrite Hm. apply Z.ltb_ge. lia.
Qed.

Lemma replay_firsts log s seen :
  tableOf (ss_Duptable s) seen → sequential seen log →
  ss_Data (foldl applyOp s log) = foldl (λ m op, execute op m) (ss_Data s) (firsts seen log).
Proof.
  revert s seen. induction log as [|op log IH]; intros s seen Ht Hs; [done|]. simpl in *.
  destruct Hs as [Hop Hs]. unfold applyOp at 2. destruct (decide (reqId op ∈ seen)) as [Hin|Hn].
  - rewrite (tableOf_old _ seen) by done. apply IH; [done|].
    assert (∀ l seen', (∀ x, x ∈ seen ↔ x ∈ seen') → sequential seen' l → sequential seen l) as Hext.
    { clear. intros l. revert seen. induction l as [|o l IHl]; intros seen seen' Heq; [done|]. simpl.
      intros [H1 H2]. split; [setoid_rewrite Heq; exact H1|]. eapply IHl; [|exact H2]. set_solver. }
    eapply Hext; [|exact Hs]. set_solver.
  - destruct Hop as [?|Hlt]; [done|]. destruct (tableOf_new _ _ _ Ht Hn Hlt) as [-> Ht'].
    by apply (IH (mkSnapshotStatus _ _)).
Qed.

(** C17: exactly-once execution.  However often the commands of one-at-a-time
    clients are retransmitted and committed again, the data a replica ends with
    is what executing the first occurrence of every request once, in log order,
    gives. *)
Theorem replay_exactly_once log :
  sequential [] log →
  ss_Data (replay log) = foldl (λ m op, execute op m) ∅ (firsts [] log).
Proof.
  intros Hs. unfold replay. rewrite (replay_firsts log emptyStatus []); [done| |done].
  split; [set_solver|]. intros c m. simpl. by rewrite lookup_empty.
Qed.

Lemma replay_exactly_once_witness :
  let a := mkOp APPEND "k" "a" 1 0 in
  let b := mkOp APPEND "k" "b" 1 1 in
  ss_Data (replay [a; b; a; b]) !! "k"%string = Some "ab"%string.
Proof.
  simpl. rewrite (replay_exactly_once [_; _; _; _]); [vm_compute; reflexivity|].
  simpl. split_and!; try done; solve [right; set_solver|right; intros q [[= ->]|[]%elem_of_nil]%elem_of_cons; lia
    |left; set_solver].
Defined.

(** ** Snapshots and restart *)

Lemma replay_app l k : replay (l ++ k) = foldl applyOp (replay l) k.
Proof. unfold replay. apply foldl_app. Qed.

Section restart.
Context `{!Gob SnapshotStatus, !GobLaws SnapshotStatus}.

(** A server restarted on the snapshot of another one, taken after the
    commands [log], and given the commands after it reaches the state a server
    that saw every command has, data and duplicate table alike. *)
Theorem restart_from_snapshot size i kv log later snap raftstate max :
  statusOf kv = replay log → snapshotCall size i kv = Some (i, snap) →
  let kv' := StartKVServer (mkPersister raftstate snap) max in
  foldl applyOp (statusOf kv') later = replay (log ++ later) ∧ killed kv' = false.
Proof.
  intros Hkv Hs kv'. unfold snapshotCall in Hs. destruct (_ =? _); [done|].
  destruct (snapshotDue _ _); [|done]. destruct (gob_encode _) as [b|] eqn:E; [|done].
  injection Hs as <-. apply gob_roundtrip in E as Hd. apply gob_nonempty in E as Hne.
  subst kv'. unfold StartKVServer, readPersist, ReadSnapshot. rewrite clone_id. simpl.
  rewrite (proj2 (Z.ltb_ge _ _)) by (destruct b as [|x b]; [done|rewrite zlen_cons; pose proof (zlen_nonneg b); lia]).
  rewrite Hd, replay_app, <- Hkv. by destruct kv.
Qed.
End restart.

(** ** The clerk *)

Section clerk.
Context {R : Type} (call : nat → Z → option R) (leader : R → bool) (n : Z).

Lemma mod_diff j s : 0 ≤ s < n → 0 ≤ j < n → (j - s) mod n = (if s <=? j then j - s else j - s + n).
Proof.
  intros Hs Hj. destruct (Z.leb_spec s j); [by apply Z.mod_small; lia|].
  rewrite <- (Z_mod_plus_full (j - s) 1 n). rewrite Z.mod_small; lia.
Qed.

Lemma retry_finds fuel k server j :
  0 ≤ server < n → 0 ≤ j < n →
  (∀ k, ∃ r, call k j = Some r ∧ leader r = true) →
  (Z.to_nat ((j - server) mod n) < fuel)%nat →
  ∃ s r, retry call leader n fuel k server = Some (s, r) ∧ leader r = true ∧ 0 ≤ s < n ∧
    ∃ k', call k' s = Some r.
Proof.
  revert k server. induction fuel as [|fuel IH]; intros k server Hs Hj Hstable Hf; [lia|]. simpl.
  assert (server ≠ j → ∃ s r, retry call leader n fuel (S k) (Z.rem (server + 1) n) = Some (s, r) ∧
    leader r = true ∧ 0 ≤ s < n ∧ ∃ k', call k' s = Some r) as Hnext.
  { intros Hne. rewrite Z.rem_mod_nonneg by lia. apply IH; [apply Z.mod_pos_bound; lia|done|done|].
    rewrite Zminus_mod_idemp_r. rewrite mod_diff in Hf by lia.
    destruct (decide (server + 1 = n)) as [E|E].
    - replace (j - (server + 1)) with (j + (-1) * n) by lia. rewrite Z_mod_plus_full, Z.mod_small by lia.
      destruct (Z.leb_spec server j); lia.
    - rewrite mod_diff by lia. destruct (Z.leb_spec server j), (Z.leb_spec (server + 1) j); lia. }
  destruct (call k server) as [r|] eqn:E.
  - destruct (leader r) eqn:El; [eauto 10|]. apply Hnext. intros ->.
    destruct (Hstable k) as (r' & Hr & ?). congruence.
  - apply Hnext. intros ->. destruct (Hstable k) as (r' & Hr & ?). congruence.
Qed.
End clerk.

(** The clerk finds the leader.  When one server answers as leader every
    time it is called, a clerk needs at most as many calls as there are servers,
    wherever it starts, and it remembers a server that answered as leader. *)
Theorem clerk_finds_leader (call : PutAppendArgs → nat → Z → option PutAppendReply) ck key value op j :
  0 ≤ ck_leader ck < ck_servers ck → 0 ≤ j < ck_servers ck →
  (∀ args k, ∃ r, call args k j = Some r ∧ par_Leader r = true) →
  ∃ ck', clerkPutAppend call (Z.to_nat (ck_servers ck)) key value op ck = Some ck' ∧
    ck_sequenceId ck' = ck_sequenceId ck + 1 ∧ ck_clientId ck' = ck_clientId ck ∧
    0 ≤ ck_leader ck' < ck_servers ck' ∧
    ∃ k r, call (mkPutAppendArgs key value op (ck_clientId ck) (ck_sequenceId ck)) k (ck_leader ck') = Some r ∧
      par_Leader r = true.
Proof.
  intros Hl Hj Hstable. unfold clerkPutAppend.
  edestruct (retry_finds (call (mkPutAppendArgs key value op (ck_clientId ck) (ck_sequenceId ck))) par_Leader
    (ck_servers ck) (Z.to_nat (ck_servers ck)) 0 (ck_leader ck) j) as (s & r & E & Hr & Hs & k & Hk);
    [done|done|apply Hstable| |].
  { pose proof (Z.mod_pos_bound (j - ck_leader ck) (ck_servers ck)). lia. }
  rewrite E. simpl. eexists. split; [done|]. simpl. split_and!; eauto; lia.
Qed.

Lemma clerk_finds_leader_witness :
  ∃ ck', clerkPutAppend (λ _ _ s, Some (mkPutAppendReply (s =? 1) OK)) 3 "k" "v" "Put" (mkClerk 3 2 42 5) = Some ck' ∧
    ck_sequenceId ck' = 6.
Proof.
  destruct (clerk_finds_leader (λ _ _ s, Some (mkPutAppendReply (s =? 1) OK)) (mkClerk 3 2 42 5) "k" "v" "Put" 1)
    as (ck' & E & Hs & _); [simpl; lia|simpl; lia|intros; eexists; split; reflexivity|].
  exists ck'. split; [exact E|exact Hs].
Defined.

#[export] Instance SnapshotStatus_eq_dec : EqDecision SnapshotStatus.
Proof. solve_decision. Defined.

#[export] Instance SnapshotStatus_countable : Countable SnapshotStatus :=
  inj_countable' (λ s, (ss_Data s, ss_Duptable s)) (λ p, mkSnapshotStatus p.1 p.2)
    (λ s, match s with mkSnapshotStatus _ _ => eq_refl end).

#[export] Instance snapshot_gob : Gob SnapshotStatus := countable_gob SnapshotStatus.
#[export] Instance snapshot_gob_laws : GobLaws SnapshotStatus := countable_gob_laws SnapshotStatus.

(** A server that applied one command and is due for a snapshot. *)
Definition examplePut : Op := mkOp PUT "k" "v" 1 0.
Definition exampleServer : KVServer :=
  withStatus (replay [examplePut]) (mkKV false 100 1 ∅ ∅ ∅).

Lemma restart_from_snapshot_witness :
  ∃ snap, snapshotCall 90 1 exampleServer = Some (1, snap) ∧
    statusOf (StartKVServer (mkPersister [] snap) 100) = replay [examplePut].
Proof.
  eexists. split; [vm_compute; reflexivity|].
  eapply (restart_from_snapshot 90 1 exampleServer [examplePut] [] _ [] 100);
    [vm_compute; reflexivity|vm_compute; reflexivity].
Defined.
