(* ===== verification/KvRaftServer.v ===== *)
(** * The replicated key/value service: handlers and apply loop

    [Get], [PutAppend] and [apply] of [kvraft/server.go] as threads that share
    the [KVServer] under [kv.mu].  A step is one critical section, one channel
    operation or one call of [rf.Start]; what Raft answers and delivers are
    inputs.  [apply] keeps [kv.mu] while it sends on an unbuffered [wakeCh], so
    that program point is a state of its own. *)

From S2P Require Import Prelude Persister RaftNode KvRaft KvRaftLog.
Open Scope go_scope.

(** The reply of a handler; [Value] stays empty for [PutAppend]. *)
Record reply := mkReply { r_Leader : bool; r_Err : Err; r_Value : string }.

Definition wrongLeader : reply := mkReply false ErrWrongLeader EmptyString.

Inductive kind := KGet | KPutAppend.

(** The program points of a handler. *)
Inductive handler_pc :=
  | HCheck                       (* PutAppend: the test of duptable *)
  | HStart                       (* index, _, isLeader := kv.rf.Start(op) *)
  | HRegister (index : Z)        (* kv.wakeClient[index] = wakeCh *)
  | HSelect (index : Z)          (* select *)
  | HRead (index : Z)            (* Get: read kv.data after the wake-up *)
  | HClean (index : Z) (r : reply)  (* the deferred kv.clean(index) *)
  | HDone (r : reply).

Record handler := mkHandler { h_kind : kind; h_op : Op; h_pc : handler_pc }.

(** The program points of the goroutine [apply]. *)
Inductive apply_pc :=
  | ARecv                                             (* for msg := range kv.applyCh *)
  | ALock (msg : ApplyMsg Op)                         (* kv.mu.Lock() *)
  | ASend (index : Z) (ch : nat) (r : reqIdentification)  (* wakeCh <- ..., kv.mu held *)
  | AStopped.                                         (* returned *)

Record server := mkServer {
  s_kv : KVServer;
  s_apply : apply_pc;
  s_handlers : list handler;
  s_snapshots : list (Z * bytes);   (* the calls of rf.Snapshot, oldest first *)
}.

(** [kv.mu] is free: only [apply] keeps it across steps. *)
Definition unlocked (s : server) : bool :=
  match s_apply s with ASend _ _ _ => false | _ => true end.

Section server.
Context `{!Gob SnapshotStatus}.

(** ** The handlers *)

(** The [Op] and first program point of [Get] and [PutAppend]. *)
Definition beginGet (args : GetArgs) : handler :=
  mkHandler KGet (mkOp GET (ga_Key args) EmptyString (ga_ClientId args) (ga_SequenceId args)) HStart.
Definition beginPutAppend (args : PutAppendArgs) : handler :=
  mkHandler KPutAppend (mkOp (pa_Op args) (pa_Key args) (pa_Value args) (pa_ClientId args) (pa_SequenceId args)) HCheck.

(** [seq, ok := kv.duptable[args.ClientId]; ok && seq >= args.SequenceId] *)
Definition alreadyDone (kv : KVServer) (op : Op) : bool :=
  match duptable kv !! op_ClientId op with
  | Some seq => op_SequenceId op <=? seq
  | None => false
  end.

(** The reply of [Get] once its entry is applied. *)
Definition readReply (kv : KVServer) (key : string) : reply :=
  match data kv !! key with
  | Some v => mkReply true OK v
  | None => mkReply true ErrNoKey EmptyString
  end.

Definition set_wakeClient (w : gmap Z nat) (kv : KVServer) : KVServer :=
  mkKV (kv_dead kv) (maxraftstate kv) (kv_lastApplied kv) (duptable kv) (data kv) w.

(** [func (kv *KVServer) clean(i int)] *)
Definition clean (i : Z) (kv : KVServer) : KVServer := set_wakeClient (delete i (wakeClient kv)) kv.

(** What the received [r] means to the handler waiting at [index]. *)
Definition woken (h : handler) (index : Z) (r : reqIdentification) : handler_pc :=
  if (rq_ClientId r =? op_ClientId (h_op h)) && (rq_SequenceId r =? op_SequenceId (h_op h)) then
    match h_kind h with
    | KGet => HRead index
    | KPutAppend => HClean index (mkReply true OK EmptyString)
    end
  else HClean index wrongLeader.

(** One step of handler number [ch] other than being woken; [start] is what
    [rf.Start] returns: the index, or [None] when this peer is not the leader. *)
Definition handlerStep (start : option Z) (ch : nat) (h : handler) (s : server) : option (handler_pc * KVServer) :=
  let kv := s_kv s in
  match h_pc h with
  | HCheck =>
      if unlocked s then
        Some (if alreadyDone kv (h_op h) then HDone (mkReply true OK EmptyString) else HStart, kv)
      else None
  | HStart =>
      match start with
      | Some index => Some (HRegister index, kv)
      | None => Some (HDone wrongLeader, kv)
      end
  | HRegister index =>
      if unlocked s then Some (HSelect index, set_wakeClient (<[index := ch]> (wakeClient kv)) kv) else None
  | HSelect index => Some (HClean index wrongLeader, kv)     (* time.After(rpcTimeout) *)
  | HRead index =>
      if unlocked s then Some (HClean index (readReply kv (op_Key (h_op h))), kv) else None
  | HClean index r => if unlocked s then Some (HDone r, clean index kv) else None
  | HDone _ => None
  end.

(** ** The steps of the server *)

Inductive event :=
  | CallGet (args : GetArgs)
  | CallPutAppend (args : PutAppendArgs)
  | Handler (ch : nat) (start : option Z)
  | Receive (msg : ApplyMsg Op)             (* Raft sends on applyCh *)
  | Apply (raftStateSize : Z)               (* the critical section of apply *)
  | Rendezvous (raftStateSize : Z)          (* wakeCh <- r meets case r := <-wakeCh *)
  | EvKill.

(** The end of the command branch of [apply], after the wake-up. *)
Definition finish (size index : Z) (kv : KVServer) (s : server) : server :=
  let (kv', call) := finishMsg size index kv in
  mkServer kv' ARecv (s_handlers s) (s_snapshots s ++ option_list call).

Definition setHandler (ch : nat) (h : handler) (pc : handler_pc) (s : server) : server :=
  mkServer (s_kv s) (s_apply s) (<[ch := mkHandler (h_kind h) (h_op h) pc]> (s_handlers s)) (s_snapshots s).

Definition setApply (kv : KVServer) (pc : apply_pc) (s : server) : server :=
  mkServer kv pc (s_handlers s) (s_snapshots s).

Definition step (e : event) (s : server) : option server :=
  let kv := s_kv s in
  match e with
  | CallGet args => Some (mkServer kv (s_apply s) (s_handlers s ++ [beginGet args]) (s_snapshots s))
  | CallPutAppend args =>
      Some (mkServer kv (s_apply s) (s_handlers s ++ [beginPutAppend args]) (s_snapshots s))
  | Handler ch start =>
      h ← s_handlers s !! ch;
      '(pc, kv') ← handlerStep start ch h s;
      Some (setHandler ch h pc (setApply kv' (s_apply s) s))
  | Receive msg =>
      match s_apply s with
      | ARecv => Some (setApply kv (if killed kv then AStopped else ALock msg) s)
      | _ => None
      end
  | Apply size =>
      match s_apply s with
      | ALock msg =>
          match applyMsg msg kv with
          | Skip => Some (setApply kv ARecv s)
          | Wake ch r kv' => Some (setApply kv' (ASend (CommandIndex msg) ch r) s)
          | Applied kv' => Some (finish size (CommandIndex msg) kv' s)
          | Installed kv' => Some (setApply kv' ARecv s)
          | BadSnapshot => Some (setApply kv AStopped s)
          | Panic => None
          end
      | _ => None
      end
  | Rendezvous size =>
      match s_apply s with
      | ASend index ch r =>
          h ← s_handlers s !! ch;
          match h_pc h with
          | HSelect i => Some (finish size index kv (setHandler ch h (woken h i r) s))
          | _ => None
          end
      | _ => None
      end
  | EvKill => Some (setApply (Kill kv) (s_apply s) s)
  end.

Definition steps (es : list event) (s : server) : option server := foldM (λ s e, step e s) es s.

(** The server [StartKVServer] returns, with [go kv.apply()] started. *)
Definition start (ps : Persister) (max : Z) : server := mkServer (StartKVServer ps max) ARecv [] [].

End server.
