(* ===== verification/KvRaftSafety.v ===== *)
(** * Replication, acknowledgement and a deadlock of the key/value server

    Against what Raft promises to deliver ([delivers]) every interleaving of the
    handlers and the apply loop keeps a replica equal to the replay of a prefix
    of the log, and an acknowledged write is in it.  The last theorem shows that
    a handler that times out while [apply] is about to wake it stops the server.  The
    last part says what a [Get] answers. *)

From S2P Require Import Prelude Persister RaftNode KvRaft KvRaftLog KvRaftServer.
Open Scope go_scope.

Section safety.
Context `{!Gob SnapshotStatus}.

Implicit Types (log : list Op) (s : server) (a la : Z).

(** The commands up to index [a]. *)
Definition prefix log a : list Op := take (Z.to_nat a) log.

(** What Raft promises about the next message when the messages so far brought
    the service to index [a] and its [lastApplied] is [la] (0 after a restart
    from a snapshot): a command the service skips, the next command of the log,
    or the snapshot of a longer prefix. *)
Inductive delivers log (a la : Z) (msg : ApplyMsg Op) : Z → Z → Prop :=
  | d_skip : CommandValid msg = true → CommandIndex msg ≤ la → delivers log a la msg a la
  | d_command op : CommandValid msg = true → CommandIndex msg = a + 1 → Command msg = Some op →
      log !! Z.to_nat a = Some op → delivers log a la msg (a + 1) (a + 1)
  | d_snapshot : CommandValid msg = false → SnapshotValid msg = true →
      a ≤ SnapshotIndex msg →
      gob_decode (Snapshot_ msg) = Some (replay (prefix log (SnapshotIndex msg))) →
      delivers log a la msg (SnapshotIndex msg) (SnapshotIndex msg).

(** Runs of a server that starts at index [a0] of the log. *)
Inductive reachable log (s0 : server) (a0 : Z) : server → Z → Z → Prop :=
  | r_start : reachable log s0 a0 s0 a0 0
  | r_event s a la e s' : reachable log s0 a0 s a la → (∀ msg, e ≠ Receive msg) →
      step e s = Some s' → reachable log s0 a0 s' a la
  | r_receive s a la msg a' la' s' : reachable log s0 a0 s a la → delivers log a la msg a' la' →
      step (Receive msg) s = Some s' → reachable log s0 a0 s' a' la'.

Lemma statusOf_withStatus st kv : statusOf (withStatus st kv) = st.
Proof. by destruct st. Qed.

(** ** The duplicate table grows *)

Definition done (dup : gmap Z Z) (client seq : Z) : Prop := ∃ m, dup !! client = Some m ∧ seq ≤ m.
Definition dupLe (d d' : gmap Z Z) : Prop := ∀ c q, done d c q → done d' c q.

Lemma applyOp_dupLe st op : dupLe (ss_Duptable st) (ss_Duptable (applyOp st op)).
Proof.
  intros c q (m & Hm & Hq). unfold applyOp. destruct (isNew _ op) eqn:E; [|by exists m]. simpl. unfold done.
  destruct (decide (op_ClientId op = c)) as [<-|?].
  - rewrite lookup_insert_eq. unfold isNew in E. rewrite Hm in E. apply Z.ltb_lt in E. eauto with lia.
  - rewrite lookup_insert_ne by done. eauto.
Qed.

Lemma applyOp_done st op : done (ss_Duptable (applyOp st op)) (op_ClientId op) (op_SequenceId op).
Proof.
  unfold applyOp, isNew. destruct (ss_Duptable st !! op_ClientId op) as [m|] eqn:E.
  - destruct (Z.ltb_spec m (op_SequenceId op)); [exists (op_SequenceId op)|exists m]; simpl;
      rewrite ?lookup_insert_eq; split; (done || lia).
  - exists (op_SequenceId op). simpl. rewrite lookup_insert_eq. split; (done || lia).
Qed.

Lemma foldl_dupLe l st : dupLe (ss_Duptable st) (ss_Duptable (foldl applyOp st l)).
Proof.
  revert st. induction l as [|op l IH]; intros st c q H; [done|]. simpl. by apply IH, applyOp_dupLe.
Qed.

Lemma prefix_split log a a' : 0 ≤ a ≤ a' → ∃ l, prefix log a' = prefix log a ++ l.
Proof.
  intros H. exists (take (Z.to_nat (a' - a)) (drop (Z.to_nat a) log)). unfold prefix.
  rewrite take_take_drop. f_equal. lia.
Qed.

Lemma replay_dupLe log a a' :
  0 ≤ a ≤ a' → dupLe (ss_Duptable (replay (prefix log a))) (ss_Duptable (replay (prefix log a'))).
Proof. intros (l & ->)%(prefix_split log). rewrite replay_app. apply foldl_dupLe. Qed.

Lemma replay_next log a op :
  0 ≤ a → log !! Z.to_nat a = Some op → replay (prefix log (a + 1)) = applyOp (replay (prefix log a)) op.
Proof.
  intros Ha Hop. unfold prefix. replace (Z.to_nat (a + 1)) with (S (Z.to_nat a)) by lia.
  rewrite (take_S_r _ _ op) by done. by rewrite replay_app.
Qed.

(** ** The invariant *)

(** A [PutAppend] that answered [OK], or is about to, has been executed. *)
Definition ackedPc (dup : gmap Z Z) (op : Op) (pc : handler_pc) : Prop :=
  match pc with
  | HDone r | HClean _ r => r_Err r = OK → done dup (op_ClientId op) (op_SequenceId op)
  | HRead _ => False
  | _ => True
  end.
Definition acked (dup : gmap Z Z) (hs : list handler) : Prop :=
  ∀ ch h, hs !! ch = Some h → h_kind h = KPutAppend → ackedPc dup (h_op h) (h_pc h).

Definition at_ log s a : Prop := statusOf (s_kv s) = replay (prefix log a).

Record kinv log s a la : Prop := {
  k_pos : 0 ≤ la ≤ a;
  k_apply : match s_apply s with
            | ARecv => at_ log s a ∧ kv_lastApplied (s_kv s) = la
            | ALock msg => ∃ a0 la0, at_ log s a0 ∧ kv_lastApplied (s_kv s) = la0 ∧
                             0 ≤ la0 ≤ a0 ∧ delivers log a0 la0 msg a la
            | ASend index _ r => at_ log s a ∧ index = a ∧ la = a ∧
                                 done (duptable (s_kv s)) (rq_ClientId r) (rq_SequenceId r)
            | AStopped => True
            end;
  k_snaps i b : (i, b) ∈ s_snapshots s → i ≤ a ∧ gob_encode (replay (prefix log i)) = Some b;
  k_acked : acked (duptable (s_kv s)) (s_handlers s);
}.

Lemma delivers_pos log a la msg a' la' :
  0 ≤ la ≤ a → delivers log a la msg a' la' → a ≤ a' ∧ 0 ≤ la' ≤ a'.
Proof. intros ? []; lia. Qed.

Lemma acked_dupLe d d' hs : dupLe d d' → acked d hs → acked d' hs.
Proof.
  intros Hd H ch h Hh Hk. specialize (H ch h Hh Hk). unfold ackedPc in *. destruct (h_pc h); auto.
Qed.

Lemma acked_insert dup hs ch h pc :
  acked dup hs → hs !! ch = Some h → (h_kind h = KPutAppend → ackedPc dup (h_op h) pc) →
  acked dup (<[ch := mkHandler (h_kind h) (h_op h) pc]> hs).
Proof.
  intros H Hch Hpc k h'. destruct (decide (ch = k)) as [<-|?].
  - rewrite list_lookup_insert_eq by (by eapply lookup_lt_Some). intros [= <-]. by apply Hpc.
  - rewrite list_lookup_insert_ne by done. apply H.
Qed.

Lemma acked_snoc dup hs h : acked dup hs → ackedPc dup (h_op h) (h_pc h) → acked dup (hs ++ [h]).
Proof.
  intros H Hpc ch h' [Hl|[_ Hl]]%lookup_app_Some; [exact (H ch h' Hl)|].
  by apply list_lookup_singleton_Some in Hl as [_ <-].
Qed.

(** Calls of [rf.Snapshot] carry the state they are taken at. *)
Lemma snapshotCall_status size i kv j b :
  snapshotCall size i kv = Some (j, b) → j = i ∧ gob_encode (statusOf kv) = Some b.
Proof.
  unfold snapshotCall. destruct (_ =? _); [done|]. destruct (snapshotDue _ _); [|done].
  destruct (gob_encode _); [|done]. intros [= <- <-]. done.
Qed.

Lemma finish_kinv log size kv s a :
  0 ≤ a → statusOf kv = replay (prefix log a) →
  (∀ i b, (i, b) ∈ s_snapshots s → i ≤ a ∧ gob_encode (replay (prefix log i)) = Some b) →
  acked (duptable kv) (s_handlers s) →
  kinv log (finish size a kv s) a a.
Proof.
  intros Ha Hst Hsn Hack. unfold finish, finishMsg. split; simpl.
  - lia.
  - split; [exact Hst|done].
  - intros i b [Hin|Hin]%elem_of_app; [by apply Hsn|].
    destruct (snapshotCall _ _ _) as [[j b']|] eqn:E; simpl in Hin; [|by apply elem_of_nil in Hin].
    apply list_elem_of_singleton in Hin. injection Hin as -> ->.
    apply snapshotCall_status in E as [-> E]. split; [lia|]. rewrite <- E. f_equal. exact (eq_sym Hst).
  - exact Hack.
Qed.

Lemma handlerStep_kv st ch h s pc kv' :
  handlerStep st ch h s = Some (pc, kv') →
  statusOf kv' = statusOf (s_kv s) ∧ kv_lastApplied kv' = kv_lastApplied (s_kv s) ∧
  duptable kv' = duptable (s_kv s).
Proof. unfold handlerStep. intros H. cases; done. Qed.

Lemma handlerStep_acked st ch h s pc kv' :
  handlerStep st ch h s = Some (pc, kv') → acked (duptable (s_kv s)) (s_handlers s) →
  s_handlers s !! ch = Some h →
  acked (duptable (s_kv s)) (<[ch := mkHandler (h_kind h) (h_op h) pc]> (s_handlers s)).
Proof.
  intros H Hack Hch. apply acked_insert; [done|done|]. intros Hk.
  specialize (Hack ch h Hch Hk). unfold handlerStep in H.
  destruct (h_pc h) eqn:Epc; cases; simpl; try done.
  intros _. unfold alreadyDone in *. destruct (duptable (s_kv s) !! _) as [m|] eqn:E; [|done].
  bool_simpl. exists m. by split.
Qed.

Lemma woken_acked dup h i r :
  h_kind h = KPutAppend → done dup (rq_ClientId r) (rq_SequenceId r) → ackedPc dup (h_op h) (woken h i r).
Proof.
  intros Hk Hd. unfold woken. destruct (_ && _) eqn:E; [|done]. bool_simpl. rewrite Hk. simpl.
  intros _. destruct E as [<- <-]. done.
Qed.

(** The critical section of [apply]. *)
Lemma Apply_kinv log s a la size s' :
  kinv log s a la → step (Apply size) s = Some s' → kinv log s' a la.
Proof.
  intros [Hpos Ha Hsn Hack] H. simpl in H. destruct (s_apply s) as [|msg|index ch r|] eqn:Es; try done.
  destruct Ha as (a0 & la0 & Hat & Hla & Hpos0 & Hd). unfold at_ in Hat. unfold applyMsg in H.
  inversion Hd; subst.
  - rewrite H0, (proj2 (Z.leb_le _ _)) in H by done. injection H as <-. split; simpl; try done.
  - rewrite H0, H1, H2, (proj2 (Z.leb_gt _ _)) in H by lia.
    assert (statusOf (withStatus (applyOp (statusOf (s_kv s)) op) (s_kv s)) = replay (prefix log (a0 + 1))) as Hst'.
    { erewrite replay_next by (lia || done). rewrite <- Hat. apply statusOf_withStatus. }
    assert (acked (ss_Duptable (applyOp (statusOf (s_kv s)) op)) (s_handlers s)) as Hack'.
    { eapply acked_dupLe; [apply (applyOp_dupLe (statusOf (s_kv s)))|done]. }
    destruct (wakeClient (s_kv s) !! (a0 + 1)) as [ch|]; injection H as <-.
    + split; simpl; try done. split_and!; try done. apply applyOp_done.
    + apply finish_kinv; try done. lia.
  - rewrite H0, H1, H3 in H. injection H as <-. split; simpl; try done.
    { split; [|done]. apply statusOf_withStatus. }
    eapply acked_dupLe; [|exact Hack].
    change (duptable (s_kv s)) with (ss_Duptable (statusOf (s_kv s))). rewrite Hat.
    apply replay_dupLe. lia.
Qed.

Lemma event_kinv log s a la e s' :
  kinv log s a la → (∀ msg, e ≠ Receive msg) → step e s = Some s' → kinv log s' a la.
Proof.
  intros Hk Hne H. destruct e as [args|args|ch st|msg|size|size|].
  - destruct Hk. injection H as <-. split; simpl; try done. by apply acked_snoc.
  - destruct Hk. injection H as <-. split; simpl; try done. by apply acked_snoc.
  - destruct Hk as [Hpos Ha Hsn Hack]. simpl in H. inv_bind H.
    destruct x0 as [pc kv']. injection H as <-.
    destruct (handlerStep_kv _ _ _ _ _ _ H1) as (Hst & Hl & Hd). split; simpl; try done.
    + unfold at_ in *. simpl. rewrite Hst, Hl, Hd. done.
    + rewrite Hd. by eapply handlerStep_acked.
  - by destruct (Hne msg).
  - by eapply Apply_kinv.
  - destruct Hk as [Hpos Ha Hsn Hack]. simpl in H.
    destruct (s_apply s) as [|msg|index ch r|] eqn:Es; try done.
    destruct Ha as (Hat & -> & -> & Hd). inv_bind H. destruct (h_pc x) eqn:Epc; try done. injection H as <-.
    apply finish_kinv; simpl; try done; [lia|].
    apply acked_insert; [done|done|]. intros Hk. by apply woken_acked.
  - destruct Hk. injection H as <-. split; simpl; try done.
Qed.

Lemma reachable_kinv log s0 a0 s a la :
  0 ≤ a0 → kinv log s0 a0 0 → reachable log s0 a0 s a la → kinv log s a la.
Proof.
  intros H0 Hinit. induction 1 as [|s a la e s' _ IH Hne Hst|s a la msg a' la' s' _ IH Hd Hst]; [done| |].
  - by eapply event_kinv.
  - destruct IH as [Hpos Ha Hsn Hack]. simpl in Hst. destruct (s_apply s) eqn:Es; try done.
    injection Hst as <-. destruct (delivers_pos _ _ _ _ _ _ Hpos Hd). destruct Ha as [Hat Hla].
    split; simpl; try done.
    + destruct (killed (s_kv s)); [done|]. exists a, la. done.
    + intros i b [? ?]%Hsn. split; [lia|done].
Qed.

Lemma start_kinv log ps max a0 :
  0 ≤ a0 → statusOf (StartKVServer ps max) = replay (prefix log a0) → kinv log (start ps max) a0 0.
Proof.
  intros Ha Hst. split; simpl.
  - lia.
  - split; [done|]. unfold StartKVServer, readPersist. destruct (_ <? _); [done|]. by destruct (gob_decode _).
  - intros i b Hin. by apply elem_of_nil in Hin.
  - intros ch h Hh. by rewrite lookup_nil in Hh.
Qed.

(** C9: replicas are replays of the log.  Whatever the handlers do meanwhile, a
    server that started from the state at index [a0] and received what Raft
    promises up to index [a] has, between messages, exactly the data and
    duplicate table that replaying the first [a] commands gives; and every
    snapshot it handed to Raft for index [i] encodes the state at index [i],
    which is what [delivers] promises to the peer that is sent it. *)
Theorem replica_is_replay log ps max a0 s a la :
  0 ≤ a0 → statusOf (StartKVServer ps max) = replay (prefix log a0) →
  reachable log (start ps max) a0 s a la →
  (s_apply s = ARecv → statusOf (s_kv s) = replay (prefix log a)) ∧
  (∀ i b, (i, b) ∈ s_snapshots s → gob_encode (replay (prefix log i)) = Some b).
Proof.
  intros H0 Hst Hr. destruct (reachable_kinv log (start ps max) a0 s a la) as [_ Ha Hsn _];
    [done|by apply start_kinv|done|]. split; [intros E; rewrite E in Ha; apply Ha|]. intros i b Hin. by apply Hsn.
Qed.

(** No acknowledgement without execution.  When a [PutAppend] handler has
    answered [OK], the duplicate table has reached its sequence number: the
    write, or a later one of the same client, is part of the state. *)
Theorem acknowledged_is_executed log ps max a0 s a la ch h r :
  0 ≤ a0 → statusOf (StartKVServer ps max) = replay (prefix log a0) →
  reachable log (start ps max) a0 s a la →
  s_handlers s !! ch = Some h → h_kind h = KPutAppend → h_pc h = HDone r → r_Err r = OK →
  ∃ m, duptable (s_kv s) !! op_ClientId (h_op h) = Some m ∧ op_SequenceId (h_op h) ≤ m.
Proof.
  intros H0 Hst Hr Hh Hk Hpc Hok.
  destruct (reachable_kinv log (start ps max) a0 s a la) as [_ _ _ Hack]; [done|by apply start_kinv|done|].
  specialize (Hack ch h Hh Hk). rewrite Hpc in Hack. by apply Hack.
Qed.

(** ** The deadlock *)

(** [apply] holds [kv.mu] and sends to handler [ch], which has left its [select]
    and waits for [kv.mu] in [clean]. *)
Definition wedged s (index : Z) (ch : nat) (r : reqIdentification) (h : handler) : Prop :=
  s_apply s = ASend index ch r ∧ s_handlers s !! ch = Some h ∧ ∃ i rp, h_pc h = HClean i rp.

Lemma wedged_step e s s' index ch r h :
  wedged s index ch r h → step e s = Some s' →
  wedged s' index ch r h ∧ statusOf (s_kv s') = statusOf (s_kv s) ∧
  kv_lastApplied (s_kv s') = kv_lastApplied (s_kv s) ∧
  (∀ k h' rp, s_handlers s' !! k = Some h' → h_pc h' = HDone rp → r_Leader rp = true →
     s_handlers s !! k = Some h').
Proof.
  intros (Hap & Hh & i & rp & Hpc) H. pose proof (lookup_lt_Some _ _ _ Hh) as Hlt.
  assert (unlocked s = false) as Hlock by (unfold unlocked; by rewrite Hap).
  destruct e as [args|args|k st|msg|size|size|]; simpl in H.
  1, 2: injection H as <-; split_and!; simpl; try done; [split_and!; simpl; [done|by rewrite lookup_app_l|eauto]|];
    intros k h' rp' [?|[_ [_ <-]%list_lookup_singleton_Some]]%lookup_app_Some; done.
  - inv_bind H. destruct x0 as [pc kv']. injection H as <-.
    destruct (handlerStep_kv _ _ _ _ _ _ H1) as (Hst & Hl & Hd).
    unfold handlerStep in H1. rewrite Hlock in H1.
    destruct (decide (k = ch)) as [->|Hne]; [rewrite Hh in H0; injection H0 as <-; by rewrite Hpc in H1|].
    split_and!; simpl; try done.
    + split_and!; simpl; [done|by rewrite list_lookup_insert_ne|eauto].
    + intros k' h' rp'. destruct (decide (k = k')) as [<-|?].
      * rewrite list_lookup_insert_eq by (by eapply lookup_lt_Some). intros [= <-]. simpl. intros Hp Hlead.
        destruct (h_pc x); cases; done.
      * by rewrite list_lookup_insert_ne.
  - by rewrite Hap in H.
  - by rewrite Hap in H.
  - rewrite Hap, Hh in H. simpl in H. by rewrite Hpc in H.
  - injection H as <-. split_and!; simpl; try done. split_and!; simpl; eauto.
Qed.

Lemma wedged_steps es s s' index ch r h :
  wedged s index ch r h → steps es s = Some s' →
  wedged s' index ch r h ∧ statusOf (s_kv s') = statusOf (s_kv s) ∧
  kv_lastApplied (s_kv s') = kv_lastApplied (s_kv s) ∧
  (∀ k h' rp, s_handlers s' !! k = Some h' → h_pc h' = HDone rp → r_Leader rp = true →
     s_handlers s !! k = Some h').
Proof.
  unfold steps. revert s. induction es as [|e es IH]; intros s Hw H; simpl in H.
  - injection H as <-. eauto.
  - inv_bind H. destruct (wedged_step _ _ _ _ _ _ _ Hw H0) as (Hw' & E1 & E2 & H3).
    destruct (IH _ Hw' H) as (? & E1' & E2' & H3'). split_and!; [done|congruence|congruence|]. eauto.
Qed.
End safety.

(** C38: a timeout can stop the server for good.  There is a run of a fresh
    server, with one client and one committed command, after which no schedule
    of any length applies another message or answers any request as leader:
    [apply] keeps [kv.mu] while it sends on [wakeCh], and the handler that
    should receive has timed out and waits for [kv.mu] in [clean]. *)
Theorem timeout_deadlocks_server :
  ∃ es s, steps es (start MakePersister (-1)) = Some s ∧
    ∀ es' s', steps es' s = Some s' →
      statusOf (s_kv s') = statusOf (s_kv s) ∧ kv_lastApplied (s_kv s') = 0 ∧
      (∀ k h rp, s_handlers s' !! k = Some h → h_pc h = HDone rp → r_Leader rp = false).
Proof.
  exists [CallPutAppend (mkPutAppendArgs "k" "v" "Put" 1 0); Handler 0 None; Handler 0 (Some 1); Handler 0 None;
          Receive (mkApplyMsg true (Some examplePut) 1 false [] 0 0); Apply 0; Handler 0 None].
  eexists. split; [vm_compute; reflexivity|]. intros es' s' H.
  eapply wedged_steps in H as (_ & E1 & E2 & H3);
    [|unfold wedged; simpl; split_and!; [reflexivity|reflexivity|eexists _, _; reflexivity]].
  split_and!; [exact E1|exact E2|]. intros k h rp Hh Hpc. destruct (r_Leader rp) eqn:El; [|done].
  apply (H3 k h rp Hh Hpc) in El as Hk. destruct k as [|k]; [|done].
  injection Hk as <-. done.
Qed.

(** A run in which one write is committed, applied and acknowledged. *)
Definition exampleEvents : list event :=
  [CallPutAppend (mkPutAppendArgs "k" "v" "Put" 1 0); Handler 0 None; Handler 0 (Some 1); Handler 0 None;
   Receive (mkApplyMsg true (Some examplePut) 1 false [] 0 0); Apply 0; Rendezvous 0; Handler 0 None].

(** The state after the first [k] events. *)
Definition exampleState (k : nat) : server :=
  default (start MakePersister (-1)) (steps (take k exampleEvents) (start MakePersister (-1))).

Lemma exampleEvents_reachable :
  steps exampleEvents (start MakePersister (-1)) = Some (exampleState 8) ∧
  reachable [examplePut] (start MakePersister (-1)) 0 (exampleState 8) 1 1.
Proof.
  split; [vm_compute; reflexivity|].
  eapply (r_event _ _ _ (exampleState 7) _ _ (Handler 0 None)); [|done|vm_compute; reflexivity].
  eapply (r_event _ _ _ (exampleState 6) _ _ (Rendezvous 0)); [|done|vm_compute; reflexivity].
  eapply (r_event _ _ _ (exampleState 5) _ _ (Apply 0)); [|done|vm_compute; reflexivity].
  eapply (r_receive _ _ _ (exampleState 4) 0 0 (mkApplyMsg true (Some examplePut) 1 false [] 0 0));
    [|apply (d_command _ 0 0 _ examplePut); reflexivity|vm_compute; reflexivity].
  eapply (r_event _ _ _ (exampleState 3) _ _ (Handler 0 None)); [|done|vm_compute; reflexivity].
  eapply (r_event _ _ _ (exampleState 2) _ _ (Handler 0 (Some 1))); [|done|vm_compute; reflexivity].
  eapply (r_event _ _ _ (exampleState 1) _ _ (Handler 0 None)); [|done|vm_compute; reflexivity].
  eapply (r_event _ _ _ (exampleState 0) _ _ (CallPutAppend (mkPutAppendArgs "k" "v" "Put" 1 0)));
    [apply r_start|done|vm_compute; reflexivity].
Qed.

Lemma replica_is_replay_witness :
  ∃ s, steps exampleEvents (start MakePersister (-1)) = Some s ∧
    (s_apply s = ARecv → statusOf (s_kv s) = replay [examplePut]).
Proof.
  destruct exampleEvents_reachable as (Hs & Hr). exists (exampleState 8). split; [exact Hs|].
  apply (replica_is_replay [examplePut] MakePersister (-1) 0 (exampleState 8) 1 1); [lia|vm_compute; reflexivity|exact Hr].
Defined.

Lemma acknowledged_is_executed_witness :
  ∃ s m, steps exampleEvents (start MakePersister (-1)) = Some s ∧
    duptable (s_kv s) !! 1 = Some m ∧ 0 ≤ m.
Proof.
  destruct exampleEvents_reachable as (Hs & Hr).
  destruct (acknowledged_is_executed [examplePut] MakePersister (-1) 0 (exampleState 8) 1 1 0
    (mkHandler KPutAppend examplePut (HDone (mkReply true OK EmptyString))) (mkReply true OK EmptyString))
    as (m & Hm & Hle);
    [lia|vm_compute; reflexivity|exact Hr|vm_compute; reflexivity|reflexivity|reflexivity|reflexivity|].
  exists (exampleState 8), m. split_and!; [exact Hs|exact Hm|exact Hle].
Defined.

(** ** What the reads of the key/value server return

    [Get] answers from [kv.data] after its own entry was applied, so its reply is
    the value of the key after a prefix of the log that contains the request.
    The invariant [rinv] says this of every handler, in every interleaving. *)

(** The reply a [Get] of [key] owes to the state [st]. *)
Definition readOf (st : SnapshotStatus) (key : string) : reply :=
  match ss_Data st !! key with
  | Some v => mkReply true OK v
  | None => mkReply true ErrNoKey EmptyString
  end.

Section reads.
Context `{!Gob SnapshotStatus}.
Implicit Types (log : list Op) (s : server) (kv : KVServer) (h : handler) (a la : Z).

Lemma readReply_readOf kv key : readReply kv key = readOf (statusOf kv) key.
Proof. done. Qed.

(** [r] is the value of the key of [op] after a prefix of [log] of length at most
    [a] that has executed [op]. *)
Definition readAt log a (op : Op) (r : reply) : Prop :=
  ∃ p, 0 ≤ p ≤ a ∧ done (ss_Duptable (replay (prefix log p))) (op_ClientId op) (op_SequenceId op) ∧
       r = readOf (replay (prefix log p)) (op_Key op).

Definition answeredPc log a (dup : gmap Z Z) (op : Op) (pc : handler_pc) : Prop :=
  match pc with
  | HCheck => False
  | HRead _ => done dup (op_ClientId op) (op_SequenceId op)
  | HClean _ r | HDone r => r_Leader r = true → readAt log a op r
  | _ => True
  end.
Definition answered log a (dup : gmap Z Z) (hs : list handler) : Prop :=
  ∀ ch h, hs !! ch = Some h → h_kind h = KGet → answeredPc log a dup (h_op h) (h_pc h).

(** The server is at a prefix of the log, and its reads are as promised. *)
Record rinv log s a : Prop := {
  r_at : ∃ p, 0 ≤ p ≤ a ∧ at_ log s p;
  r_answered : answered log a (duptable (s_kv s)) (s_handlers s);
}.

Lemma readAt_mono log a a' op r : a ≤ a' → readAt log a op r → readAt log a' op r.
Proof. intros Ha (p & Hp & H). exists p. split; [lia|done]. Qed.

Lemma answered_mono log a a' d d' hs :
  a ≤ a' → dupLe d d' → answered log a d hs → answered log a' d' hs.
Proof.
  intros Ha Hd H ch h Hh Hk. specialize (H ch h Hh Hk). unfold answeredPc in *.
  destruct (h_pc h); eauto using readAt_mono.
Qed.

Lemma answered_insert log a d hs ch h pc :
  answered log a d hs → hs !! ch = Some h → (h_kind h = KGet → answeredPc log a d (h_op h) pc) →
  answered log a d (<[ch := mkHandler (h_kind h) (h_op h) pc]> hs).
Proof.
  intros H Hch Hpc k h'. destruct (decide (ch = k)) as [<-|?].
  - rewrite list_lookup_insert_eq by (by eapply lookup_lt_Some). intros [= <-]. by apply Hpc.
  - rewrite list_lookup_insert_ne by done. apply H.
Qed.

Lemma answered_snoc log a d hs h :
  answered log a d hs → answeredPc log a d (h_op h) (h_pc h) → answered log a d (hs ++ [h]).
Proof.
  intros H Hpc ch h' [Hl|[_ Hl]]%lookup_app_Some; [exact (H ch h' Hl)|].
  by apply list_lookup_singleton_Some in Hl as [_ <-].
Qed.

(** A step of a handler other than being woken. *)
Lemma handlerStep_answered log a st ch h s pc kv' :
  rinv log s a → s_handlers s !! ch = Some h → handlerStep st ch h s = Some (pc, kv') →
  answered log a (duptable (s_kv s)) (<[ch := mkHandler (h_kind h) (h_op h) pc]> (s_handlers s)).
Proof.
  intros [(p & Hp & Hat) Ha] Hch H. apply answered_insert; [done|done|]. intros Hk.
  specialize (Ha ch h Hch Hk). unfold handlerStep in H. unfold at_ in Hat.
  destruct (h_pc h) as [| | | |index|index r|r] eqn:Epc; cases; simpl in *; try done.
  intros _. rewrite readReply_readOf, Hat. exists p. split; [done|]. split; [|done]. by rewrite <- Hat.
Qed.

(** The handler that [apply] wakes. *)
Lemma woken_answered log a d h i r :
  h_kind h = KGet → done d (rq_ClientId r) (rq_SequenceId r) → answeredPc log a d (h_op h) (woken h i r).
Proof.
  intros Hk Hd. unfold woken. destruct (_ && _) eqn:E; [|done]. bool_simpl. rewrite Hk. simpl.
  destruct E as [<- <-]. done.
Qed.

(** What the critical section of [apply] does to the state. *)
Lemma Apply_rinv log s a la size s' :
  kinv log s a la → rinv log s a → step (Apply size) s = Some s' → rinv log s' a.
Proof.
  intros Hk [Hat Ha] H. pose proof (Apply_kinv _ _ _ _ _ _ Hk H) as Hk'.
  simpl in H. destruct (s_apply s) as [|msg| |] eqn:Es; try done.
  pose proof (k_apply _ _ _ _ Hk) as Hm. rewrite Es in Hm. destruct Hm as (a0 & la0 & Hat0 & _ & Hpos & Hd).
  destruct (delivers_pos _ _ _ _ _ _ Hpos Hd) as [Hle _].
  assert (at_ log s' a → s_handlers s' = s_handlers s → rinv log s' a) as Hfin.
  { intros Hat' Eh. split; [exists a; split; [lia|done]|]. rewrite Eh.
    eapply answered_mono; [reflexivity| |exact Ha].
    change (dupLe (ss_Duptable (statusOf (s_kv s))) (ss_Duptable (statusOf (s_kv s')))).
    unfold at_ in *. rewrite Hat0, Hat'. apply replay_dupLe. lia. }
  pose proof (k_apply _ _ _ _ Hk') as Hm'.
  destruct (applyMsg msg (s_kv s)) as [|ch r kv'|kv'|kv'| |] eqn:Em; try done; injection H as <-;
    simpl in Hm'; try (by apply Hfin; [apply Hm'|done]); by split.
Qed.

Lemma event_rinv log s a la e s' :
  kinv log s a la → rinv log s a → (∀ msg, e ≠ Receive msg) → step e s = Some s' → rinv log s' a.
Proof.
  intros Hk Hr Hne H. destruct e as [args|args|ch st|msg|size|size|].
  - destruct Hr. injection H as <-. split; simpl; try done. by apply answered_snoc.
  - destruct Hr as [Hat Ha]. injection H as <-. split; simpl; try done.
    intros ch h [Hl|[_ Hl]]%lookup_app_Some; [exact (Ha ch h Hl)|].
    apply list_lookup_singleton_Some in Hl as [_ <-]. done.
  - simpl in H. inv_bind H. destruct x0 as [pc kv']. injection H as <-.
    destruct (handlerStep_kv _ _ _ _ _ _ H1) as (Hst & _ & Hd). split; simpl.
    + destruct Hr as [(p & ? & Hat) _]. exists p. split; [done|]. unfold at_ in *. simpl. congruence.
    + rewrite Hd. by eapply handlerStep_answered.
  - by destruct (Hne msg).
  - by eapply Apply_rinv.
  - destruct Hr as [Hat Ha]. pose proof (k_apply _ _ _ _ Hk) as Hm. simpl in H.
    destruct (s_apply s) as [| |index ch r|] eqn:Es; try done. destruct Hm as (Hata & -> & -> & Hd).
    inv_bind H. destruct (h_pc x) eqn:Epc; try done. injection H as <-. split; simpl; [done|].
    apply answered_insert; [done|done|]. intros Hg. by apply woken_answered.
  - destruct Hr. injection H as <-. by split.
Qed.

Lemma reachable_rinv log ps max a0 s a la :
  0 ≤ a0 → statusOf (StartKVServer ps max) = replay (prefix log a0) →
  reachable log (start ps max) a0 s a la → rinv log s a.
Proof.
  intros H0 Hst. induction 1 as [|s a la e s' Hr IH Hne He|s a la msg a' la' s' Hr IH Hd He].
  - split; simpl; [exists a0; split; [lia|done]|]. intros ch h Hh. by rewrite lookup_nil in Hh.
  - eapply event_rinv; [|exact IH|done|exact He]. eapply reachable_kinv; [exact H0| |exact Hr]. by apply start_kinv.
  - pose proof (reachable_kinv _ _ _ _ _ _ H0 (start_kinv _ _ _ _ H0 Hst) Hr) as Hk.
    destruct (delivers_pos _ _ _ _ _ _ (k_pos _ _ _ _ Hk) Hd) as [Hle _].
    simpl in He. destruct (s_apply s); try done. injection He as <-. destruct IH as [(p & ? & ?) Ha].
    split; simpl; [exists p; split; [lia|done]|]. eapply answered_mono; [exact Hle| |exact Ha]. by intros c q.
Qed.
End reads.
