(* ===== verification/KvRaftCluster.v ===== *)
(** * The replicated key/value service on Raft

    The composition of the whole stack: a cluster of Raft peers ([RaftCluster]) and
    on each peer a key/value server ([KvRaftServer]), whose handlers call the
    [Start] of their peer and whose [apply] receives, in order, what the peer
    sends on [applyCh].  A server whose Raft state has grown
    past [maxraftstate] ends a message with a call of [Snapshot] of its peer, which
    compacts the log.  As in [RaftSafety], no peer crashes or installs the snapshot of
    another; RPCs may be lost, delayed and reordered, handlers time out, servers be
    killed.  [KvRaftSafety] assumes what Raft delivers; here that assumption is
    discharged by the safety of the log. *)

From S2P Require Import Prelude Persister RaftNode RaftFollower RaftLeader RaftApplier RaftCluster RaftElection RaftLog RaftDelivery RaftGhost RaftInvariant RaftPreserve RaftReplicate RaftSafety.
From S2P Require Import KvRaft KvRaftLog KvRaftServer KvRaftSafety.
Open Scope go_scope.

(** ** What a peer has sent only grows *)

Section grows.
Context {C : Type} `{!Gob (PersistentStatus C)}.
Implicit Types (w : cluster C) (sv : RaftApplier.server C).

Definition grows w w' : Prop :=
  ∀ i sv, idx (servers w) i = Some sv →
    ∃ sv', idx (servers w') i = Some sv' ∧ sv_applyCh sv `prefix_of` sv_applyCh sv'.

#[export] Instance grows_preorder : PreOrder grows.
Proof.
  split; [by intros w i sv ?; exists sv|]. intros w1 w2 w3 H12 H23 i sv Hi.
  destruct (H12 _ _ Hi) as (sv2 & H2 & ?). destruct (H23 _ _ H2) as (sv3 & ? & ?).
  exists sv3. split; [done|]. by etrans.
Qed.

Lemma grows_insert w w' i sv sv' :
  idx (servers w) i = Some sv → sv_applyCh sv `prefix_of` sv_applyCh sv' →
  servers w' = <[Z.to_nat i := sv']> (servers w) → grows w w'.
Proof.
  intros Hi Hp E j svj Hj. rewrite E. destruct (decide (i = j)) as [<-|?].
  - rewrite idx_insert_eq by (by eapply idx_lt). simplify_eq. eauto.
  - rewrite idx_insert_ne; [eauto|by apply idx_lt in Hi as [? _]|done].
Qed.

Lemma spawnLocal_applyCh es sv : sv_applyCh (spawnLocal es sv) = sv_applyCh sv.
Proof. unfold spawnLocal. revert sv. induction es as [|[] es IH]; intros sv; simpl; try done; by rewrite IH. Qed.

Lemma grows_runOn {A} i (m : M C A) w a w' : runOn i m w = Some (a, w') → grows w w'.
Proof.
  unfold runOn. intros H. destruct (idx (servers w) i) as [sv|] eqn:Hi; [|done]. simpl in H.
  destruct (m (sv_rf sv)) as [[[a' rf'] es]|]; [|done]. injection H as <- <-.
  eapply grows_insert; [exact Hi| |done]. by rewrite spawnLocal_applyCh.
Qed.

Lemma applierStep_applyCh sv sv' : applierStep sv = Some sv' → sv_applyCh sv `prefix_of` sv_applyCh sv'.
Proof.
  unfold applierStep. intros H. destruct (sv_applier sv) as [|[|]| | |]; cases; simpl; try done;
    try (inv_bind H; by simplify_eq/=). by apply prefix_app_r.
Qed.

Lemma snapStep_applyCh g sv sv' : snapStep g sv = Some sv' → sv_applyCh sv `prefix_of` sv_applyCh sv'.
Proof. unfold snapStep. intros H. inv_bind H. destruct x; cases; simpl; try done. by apply prefix_app_r. Qed.

Lemma grows_same w w0 w' : grows w w0 → servers w' = servers w0 → grows w w'.
Proof. intros H E i sv Hi. rewrite E. by apply H. Qed.

Lemma grows_then {A} i (m : M C A) w (f : A * cluster C → option (cluster C)) w' :
  runOn i m w ≫= f = Some w' → (∀ a w0, f (a, w0) = Some w' → servers w' = servers w0) → grows w w'.
Proof.
  intros H Hf. inv_bind H. destruct x as [a w0]. eapply grows_same; [by eapply grows_runOn|]. by eapply Hf.
Qed.

Lemma onReply_grows c r w w' : onReply c r w = Some w' → grows w w'.
Proof.
  unfold onReply. intros H. destruct (c_args c) as [args|args|args], r as [reply|reply|reply]; try done.
  1: destruct (votes w !! _); [simpl in H|done].
  all: eapply grows_then; [exact H|]; by intros ? ? [= <-].
Qed.

Lemma step_grows l w w' : keeps l w = true → RaftCluster.step l w = Some w' → grows w w'.
Proof.
  intros Hl H. destruct l as [i|i|i|k|k|k|i c|i index sn|i|i g|i]; try done; simpl in H.
  - eapply grows_then; [exact H|]. intros a w0 E. simpl in E. inv_bind E. by injection E as <-.
  - eapply grows_then; [exact H|]. by intros a w0 [= <-].
  - destruct (idx (servers w) i) as [sv|] eqn:Hi; [|done]. simpl in H. destruct (sv_signals sv) as [|m]; [done|].
    etrans; [|eapply grows_then; [exact H|]; by intros a w0 [= <-]].
    by eapply grows_insert; [exact Hi| |reflexivity].
  - destruct (calls w !! k) as [x|]; [simpl in H|done]. destruct (c_status x); try done. eapply grows_then; [exact H|]. by intros a w0 [= <-].
  - destruct (calls w !! k) as [x|]; [simpl in H|done]. destruct (c_status x); try done; injection H as <-; by apply (grows_same w w).
  - destruct (calls w !! k) as [x|]; [simpl in H|done]. destruct (c_status x); try done. destruct (c_alive x); [|injection H as <-; by apply (grows_same w w)].
    apply onReply_grows in H. etrans; [|exact H]. by apply (grows_same w w).
  - eapply grows_then; [exact H|]. by intros a w0 [= <-].
  - eapply grows_then; [exact H|]. by intros a w0 [= <-].
  - destruct (idx (servers w) i) as [sv|] eqn:Hi; [|done]. simpl in H. inv_bind H. injection H as <-.
    eapply grows_insert; [exact Hi| |reflexivity]. by eapply applierStep_applyCh.
  - destruct (idx (servers w) i) as [sv|] eqn:Hi; [|done]. simpl in H. inv_bind H. injection H as <-.
    eapply grows_insert; [exact Hi| |reflexivity]. by eapply snapStep_applyCh.
Qed.

Lemma laterKeeps_trans w1 w2 w3 : laterKeeps w1 w2 → laterKeeps w2 w3 → laterKeeps w1 w3.
Proof. intros H12. induction 1 as [|w l w' _ IH Hl Hst]; [done|by eapply lk_step]. Qed.

Lemma laterKeeps_one l w w' : keeps l w = true → RaftCluster.step l w = Some w' → laterKeeps w w'.
Proof. intros Hl Hst. eapply lk_step; [apply lk_refl|exact Hl|exact Hst]. Qed.

Lemma laterKeeps_grows w w' : laterKeeps w w' → grows w w'.
Proof. induction 1 as [|w1 l w2 _ IH Hl Hst]; [done|]. etrans; [exact IH|by eapply step_grows]. Qed.
End grows.

(** ** The system *)

Section system.
Context `{!Gob (PersistentStatus Op)} `{!Gob SnapshotStatus}.
Implicit Types (w : cluster Op) (s : server) (msgs : list (ApplyMsg Op)).

(** The Raft peers, and the server on each with the number of messages it took
    from the [applyCh] of its peer. *)
Record system := mkSystem { sys_raft : cluster Op; sys_kv : list (server * nat) }.

(** A step of Raft, of server [i], or a message that reaches server [i]. *)
Inductive action := RaftDoes (l : label Op) | KvDoes (i : Z) (e : event) | KvReceives (i : Z).

(** [index, _, isLeader := kv.rf.Start(op)] *)
Definition startResult w (i : Z) (op : Op) : option (option Z) :=
  sv ← idx (servers w) i;
  match Start op (sv_rf sv) with
  | Some ((index, _, isLeader), _, _) => Some (if isLeader then Some index else None)
  | None => None
  end.

(** The calls of [kv.rf.Snapshot] at server [i]. *)
Definition compact (i : Z) (snaps : list (Z * bytes)) w : option (cluster Op) :=
  foldM (λ w sn, RaftCluster.step (ServiceSnapshot i sn.1 sn.2) w) snaps w.

Definition putKv (i : Z) s (k : nat) (sys : system) : system :=
  mkSystem (sys_raft sys) (<[Z.to_nat i := (s, k)]> (sys_kv sys)).

(** [apply] calls [kv.rf.Snapshot] at the end of the critical section, before it takes the next message: the
    calls [step] adds to [s_snapshots] reach the peer in the same step.  A peer neither crashes nor installs a snapshot. *)
Definition sysStep (act : action) (sys : system) : option system :=
  match act with
  | RaftDoes l =>
      match l with
      | ClientStart _ _ | ServiceSnapshot _ _ _ | Restart _ => None
      | _ =>
          if keeps l (sys_raft sys) then w' ← RaftCluster.step l (sys_raft sys); Some (mkSystem w' (sys_kv sys))
          else None
      end
  | KvReceives i =>
      '(s, k) ← idx (sys_kv sys) i;
      sv ← idx (servers (sys_raft sys)) i;
      m ← sv_applyCh sv !! k;
      s' ← step (Receive m) s;
      Some (putKv i s' (S k) sys)
  | KvDoes i (Receive _) => None
  | KvDoes i (Handler ch _) =>
      '(s, k) ← idx (sys_kv sys) i;
      h ← s_handlers s !! ch;
      match h_pc h with
      | HStart =>
          r ← startResult (sys_raft sys) i (h_op h);
          w' ← RaftCluster.step (ClientStart i (h_op h)) (sys_raft sys);
          s' ← step (Handler ch r) s;
          Some (putKv i s' k (mkSystem w' (sys_kv sys)))
      | _ => s' ← step (Handler ch None) s; Some (putKv i s' k sys)
      end
  | KvDoes i e =>
      '(s, k) ← idx (sys_kv sys) i;
      s' ← step e s;
      w' ← compact i (drop (length (s_snapshots s)) (s_snapshots s')) (sys_raft sys);
      Some (putKv i s' k (mkSystem w' (sys_kv sys)))
  end.

Definition sysSteps (acts : list action) (sys : system) : option system := foldM (λ sys a, sysStep a sys) acts sys.

(** [n] peers and servers just started; [max] is their [maxraftstate]. *)
Definition initSystem (n : nat) (max : Z) : system :=
  mkSystem (initCluster n) (replicate n (start MakePersister max, 0%nat)).

Inductive later (sys : system) : system → Prop :=
  | later_refl : later sys sys
  | later_step sys1 act sys2 : later sys sys1 → sysStep act sys1 = Some sys2 → later sys sys2.

Definition running (n : nat) (sys : system) : Prop := ∃ max, later (initSystem n max) sys.

Lemma later_trans sys1 sys2 sys3 : later sys1 sys2 → later sys2 sys3 → later sys1 sys3.
Proof. intros H12. induction 1 as [|sys act sys' _ IH Hst]; [done|by eapply later_step]. Qed.

Lemma running_step n act sys sys' : running n sys → sysStep act sys = Some sys' → running n sys'.
Proof. intros [max Hr] Hst. exists max. by eapply later_step. Qed.

(** ** A server is fed by its peer *)

(** Runs of a server that received [msgs]. *)
Inductive fed : server → list (ApplyMsg Op) → Prop :=
  | fed_start max : fed (start MakePersister max) []
  | fed_event s msgs e s' : fed s msgs → (∀ m, e ≠ Receive m) → step e s = Some s' → fed s' msgs
  | fed_receive s msgs m s' : fed s msgs → step (Receive m) s = Some s' → fed s' (msgs ++ [m]).

(** Server [i] of the system has received [msgs]. *)
Definition received (sys : system) (i : Z) s msgs : Prop :=
  ∃ k sv, idx (sys_kv sys) i = Some (s, k) ∧ idx (servers (sys_raft sys)) i = Some sv ∧
    (k ≤ length (sv_applyCh sv))%nat ∧ msgs = take k (sv_applyCh sv).

Definition wellFed (sys : system) : Prop :=
  ∀ i s k, idx (sys_kv sys) i = Some (s, k) → ∃ msgs, received sys i s msgs ∧ fed s msgs.

Lemma received_grows w w' kvs i s msgs :
  grows w w' → received (mkSystem w kvs) i s msgs → received (mkSystem w' kvs) i s msgs.
Proof.
  intros Hg (k & sv & Hk & Hi & Hlen & ->). destruct (Hg _ _ Hi) as (sv' & Hi' & [x Hx]).
  exists k, sv'. split_and!; try done; [rewrite Hx, length_app; lia|].
  by rewrite Hx, take_app_le by lia.
Qed.

Lemma wellFed_grows w w' kvs :
  grows w w' → wellFed (mkSystem w kvs) → wellFed (mkSystem w' kvs).
Proof.
  intros Hg Hf i s k Hi.
  destruct (Hf i s k Hi) as (msgs & Hr & Hfed). exists msgs. split; [by eapply received_grows|done].
Qed.

(** A server replaced by a state that received one message more, or as many. *)
Lemma wellFed_put sys i s k s' k' :
  wellFed sys → idx (sys_kv sys) i = Some (s, k) →
  (∀ sv, idx (servers (sys_raft sys)) i = Some sv → fed s (take k (sv_applyCh sv)) →
    (k ≤ length (sv_applyCh sv))%nat → (k' ≤ length (sv_applyCh sv))%nat ∧ fed s' (take k' (sv_applyCh sv))) →
  wellFed (putKv i s' k' sys).
Proof.
  intros Hf Hi Hnew. pose proof (idx_lt _ _ _ Hi) as Hr.
  intros j sj kj Hj. simpl in Hj. destruct (decide (i = j)) as [<-|?].
  - rewrite idx_insert_eq in Hj by done. injection Hj as <- <-.
    destruct (Hf i s k Hi) as (msgs & (k0 & sv & Hk0 & Hsv & Hlen & ->) & Hfed). simplify_eq.
    destruct (Hnew sv Hsv Hfed Hlen) as [Hlen' Hfed']. eexists. split; [|exact Hfed'].
    exists k', sv. simpl. by rewrite idx_insert_eq.
  - rewrite idx_insert_ne in Hj by lia. destruct (Hf j sj kj Hj) as (msgs & (k0 & sv & Hk0 & Hsv & Hlen & ->) & Hfed).
    eexists. split; [|exact Hfed]. exists k0, sv. simpl. by rewrite idx_insert_ne by lia.
Qed.

Lemma wellFed_event sys i s k e s' :
  wellFed sys → idx (sys_kv sys) i = Some (s, k) → (∀ m, e ≠ Receive m) → step e s = Some s' →
  wellFed (putKv i s' k sys).
Proof. intros Hf Hi Hne Hst. eapply wellFed_put; [done|exact Hi|]. intros sv _ ? ?. split; [done|by eapply fed_event]. Qed.

(** ** What a server received *)

(** The messages are the commands of [log], in order. *)
Definition carries (log : list Op) msgs : Prop :=
  ∀ k m, msgs !! k = Some m → ∃ op, log !! k = Some op ∧ m = commandMsg (Some op) (Z.of_nat (S k)).

Lemma carries_prefix log msgs msgs' : msgs `prefix_of` msgs' → carries log msgs' → carries log msgs.
Proof. intros Hp H k m Hm. apply H. by eapply prefix_lookup_Some. Qed.

Lemma carries_omap msgs : (∀ k m, msgs !! k = Some m → ∃ op, m = commandMsg (Some op) (Z.of_nat (S k))) →
  carries (omap Command msgs) msgs.
Proof.
  intros H. induction msgs as [|m msgs IH] using rev_ind; intros k m' Hm'; [done|].
  destruct (H k m' Hm') as [op ->]. exists op. split; [|done].
  assert (∀ k m, msgs !! k = Some m → ∃ op, m = commandMsg (Some op) (Z.of_nat (S k))) as H'.
  { intros j x Hx. apply H. by apply lookup_app_l_Some. }
  assert (length (omap Command msgs) = length msgs) as El.
  { clear -H'. induction msgs as [|x msgs IHm] using rev_ind; [done|].
    destruct (H' (length msgs) x) as [o ->]; [by rewrite lookup_app_r, Nat.sub_diag by lia|].
    rewrite omap_app. simpl. rewrite !length_app, IHm; [done|].
    intros j y Hy. apply H'. by apply lookup_app_l_Some. }
  rewrite omap_app. apply lookup_app_Some in Hm' as [Hm'|[Hle Hm']].
  - destruct (IH H' k _ Hm') as (op' & Hl & [= ->]). by apply lookup_app_l_Some.
  - apply list_lookup_singleton_Some in Hm' as [Hk ->]. rewrite lookup_app_r by lia. simpl.
    by replace (k - length (omap Command msgs))%nat with 0%nat by lia.
Qed.

(** A server fed with the commands of [log] is a run of [KvRaftSafety]. *)
Lemma fed_reachable log s msgs :
  fed s msgs → carries log msgs →
  ∃ max, KvRaftSafety.reachable log (start MakePersister max) 0 s (zlen msgs) (zlen msgs).
Proof.
  induction 1 as [max|s msgs e s' _ IH Hne Hst|s msgs m s' _ IH Hst]; intros Hc.
  - exists max. apply r_start.
  - destruct (IH Hc) as [max Hr]. exists max. eapply r_event; eauto.
  - destruct IH as [max Hr]; [by eapply carries_prefix; [apply prefix_app_r|]|]. exists max.
    eapply r_receive; [exact Hr| |exact Hst].
    destruct (Hc (length msgs) m) as (op & Hop & ->); [by rewrite lookup_app_r, Nat.sub_diag by lia|].
    rewrite zlen_app. change (zlen [_]) with 1.
    apply (d_command _ _ _ _ op); unfold zlen; simpl; rewrite ?Nat2Z.id; (done || lia).
Qed.

Lemma start_status log max : statusOf (StartKVServer MakePersister max) = replay (prefix log 0).
Proof. done. Qed.

Lemma fed_kinv log s msgs : fed s msgs → carries log msgs → kinv log s (zlen msgs) (zlen msgs).
Proof.
  intros Hf Hc. destruct (fed_reachable _ _ _ Hf Hc) as [max Hr].
  eapply reachable_kinv; [| |exact Hr]; [lia|]. by apply start_kinv; [lia|apply start_status].
Qed.

Lemma fed_rinv log s msgs : fed s msgs → carries log msgs → rinv log s (zlen msgs).
Proof.
  intros Hf Hc. destruct (fed_reachable _ _ _ Hf Hc) as [max Hr]. eapply reachable_rinv; [| |exact Hr]; [lia|apply start_status].
Qed.

(** Every message a peer sent is a command. *)
Lemma peer_carries n w i sv :
  reachable_keeps n w → idx (servers w) i = Some sv → carries (omap Command (sv_applyCh sv)) (sv_applyCh sv).
Proof.
  intros Hr Hi. by destruct (state_machine_agree n w w i i sv sv Hr (lk_refl _) Hi Hi) as (Hc%carries_omap & _).
Qed.

(** ** The peers keep their logs *)

(** A server compacts only what its peer has sent it. *)
Lemma compact_keeps i snaps w w' sv :
  idx (servers w) i = Some sv → (∀ j b, (j, b) ∈ snaps → j ≤ zlen (sv_applyCh sv)) →
  compact i snaps w = Some w' → laterKeeps w w'.
Proof.
  revert w sv. induction snaps as [|[j b] snaps IH]; intros w sv Hi Hj H; unfold compact in H; simpl in H.
  { injection H as <-. apply lk_refl. }
  apply bind_Some in H as (w1 & H1 & H). assert (laterKeeps w w1) as Hk.
  { apply (laterKeeps_one (ServiceSnapshot i j b)); [|exact H1]. simpl. rewrite Hi. apply Z.leb_le. apply (Hj j b). set_solver. }
  destruct (laterKeeps_grows _ _ Hk _ _ Hi) as (sv1 & Hi1 & [x Hx]). eapply laterKeeps_trans; [exact Hk|].
  eapply (IH _ sv1); [exact Hi1| |exact H]. intros j' b' Hin. rewrite Hx, zlen_app. pose proof (zlen_nonneg x).
  specialize (Hj j' b' ltac:(set_solver)). lia.
Qed.

Lemma event_compacts n sys i s k e s' w' :
  reachable_keeps n (sys_raft sys) → wellFed sys → idx (sys_kv sys) i = Some (s, k) → (∀ m, e ≠ Receive m) → step e s = Some s' →
  compact i (drop (length (s_snapshots s)) (s_snapshots s')) (sys_raft sys) = Some w' → laterKeeps (sys_raft sys) w'.
Proof.
  intros Hr Hf Hi Hne Hst H. destruct (Hf i s k Hi) as (msgs & (k0 & sv & _ & Hsv & Hlen & ->) & Hfed).
  assert (carries (omap Command (sv_applyCh sv)) (take k0 (sv_applyCh sv))) as Hc.
  { eapply carries_prefix; [apply prefix_take|]. by eapply peer_carries. }
  eapply compact_keeps; [exact Hsv| |exact H]. intros j b Hin.
  destruct (k_snaps _ _ _ _ (event_kinv _ _ _ _ _ _ (fed_kinv _ _ _ Hfed Hc) Hne Hst) j b) as [Hj _].
  { apply list_elem_of_lookup in Hin as [x Hx]. rewrite lookup_drop in Hx. by eapply list_elem_of_lookup_2. }
  etrans; [exact Hj|]. unfold zlen. rewrite length_take. lia.
Qed.

(** A step of the system keeps the logs, and every server fed by its peer. *)
Lemma sysStep_wellFed n act sys sys' :
  reachable_keeps n (sys_raft sys) → wellFed sys → sysStep act sys = Some sys' →
  laterKeeps (sys_raft sys) (sys_raft sys') ∧ wellFed sys'.
Proof.
  intros Hr Hf H. destruct sys as [w kvs]. destruct act as [l|i e|i]; cbn [sysStep sys_raft sys_kv] in H.
  - assert (∃ w', keeps l w = true ∧ RaftCluster.step l w = Some w' ∧ sys' = mkSystem w' kvs) as (w' & Hl & Hw & ->).
    { destruct l; try done; destruct (keeps _ w) eqn:E; try done; apply bind_Some in H as (w' & Hw & [= <-]); eauto. }
    pose proof (laterKeeps_one _ _ _ Hl Hw) as Hk. split; [done|]. by eapply wellFed_grows, Hf; apply laterKeeps_grows.
  - assert (∃ s k s' w' e', idx kvs i = Some (s, k) ∧ (∀ m, e' ≠ Receive m) ∧ step e' s = Some s' ∧ laterKeeps w w' ∧
      sys' = putKv i s' k (mkSystem w' kvs)) as (s & k & s' & w' & e' & Hi & Hne & Hs & Hk & ->).
    { destruct e as [args|args|ch r|m|size|size|]; try done; apply bind_Some in H as ([s k] & Hi & H).
      3: apply bind_Some in H as (h & Hh & H); destruct (h_pc h).
      4: apply bind_Some in H as (r' & Hr' & H); apply bind_Some in H as (w' & Hw & H).
      all: apply bind_Some in H as (s' & Hs & H).
      all: try (injection H as <-; eexists _, _, _, _, _; split_and!;
        [exact Hi| |exact Hs| |reflexivity]; first [done | apply lk_refl | by eapply laterKeeps_one, Hw]).
      all: apply bind_Some in H as (w' & Hw & [= <-]); eexists _, _, _, _, _; split_and!;
        [exact Hi| |exact Hs|eapply (event_compacts n (mkSystem w kvs)); [exact Hr|exact Hf|exact Hi| |exact Hs|exact Hw]|reflexivity]; done. }
    split; [exact Hk|]. eapply wellFed_event; [|exact Hi|exact Hne|exact Hs]. by eapply wellFed_grows, Hf; apply laterKeeps_grows.
  - apply bind_Some in H as ([s k] & Hi & H). apply bind_Some in H as (sv & Hv & H).
    apply bind_Some in H as (m & Hm & H). apply bind_Some in H as (s' & Hs & [= <-]). split; [apply lk_refl|].
    eapply wellFed_put; [done|exact Hi|]. intros sv' Hv' Hfed Hlen. simpl in *. simplify_eq.
    split; [by apply lookup_lt_Some in Hm; lia|]. rewrite (take_S_r _ _ m Hm). by eapply fed_receive.
Qed.

Lemma later_wellFed n sys sys' :
  reachable_keeps n (sys_raft sys) → wellFed sys → later sys sys' → laterKeeps (sys_raft sys) (sys_raft sys') ∧ wellFed sys'.
Proof.
  intros Hr Hf. induction 1 as [|sys1 act sys2 _ [Hk IH] Hst]; [by split; [apply lk_refl|]|].
  destruct (sysStep_wellFed n _ _ _ (laterKeeps_trans _ _ _ Hr Hk) IH Hst) as [Hk' ?]. split; [|done]. by eapply laterKeeps_trans.
Qed.

Lemma running_wellFed n sys : running n sys → reachable_keeps n (sys_raft sys) ∧ wellFed sys.
Proof.
  intros [max Hr]. eapply (later_wellFed n) in Hr; [exact Hr|apply lk_refl|].
  intros i s k Hi. pose proof (idx_lt _ _ _ Hi) as Hlt. unfold zlen in Hlt. simpl in Hi, Hlt.
  rewrite length_replicate in Hlt. apply idx_Some in Hi as [_ [[= -> ->] _]%lookup_replicate].
  destruct (idx_is_Some (servers (sys_raft (initSystem n max))) i) as [sv Hsv].
  { unfold zlen. simpl. by rewrite length_imap, length_replicate. }
  exists []. split; [|apply fed_start]. exists 0%nat, sv. split_and!; [|done|lia|done].
  simpl. apply idx_Some. split; [lia|]. apply lookup_replicate_2. lia.
Qed.

(** ** The common log *)

(** Two servers, at any two moments, received prefixes of one log. *)
Lemma common_log n sys sys' i j s s' msgs msgs' :
  running n sys → later sys sys' → received sys i s msgs → received sys' j s' msgs' →
  ∃ log, carries log msgs ∧ carries log msgs' ∧ fed s msgs ∧ fed s' msgs'.
Proof.
  intros Hr Hl Hm Hm'. destruct (running_wellFed n sys Hr) as [Hp Hf]. destruct (later_wellFed n _ _ Hp Hf Hl) as [Hlk Hf'].
  destruct Hm as (k & sv & Hk & Hsv & _ & ->), Hm' as (k' & sv' & Hk' & Hsv' & _ & ->).
  destruct (Hf i s k Hk) as (? & (k0 & sv0 & ? & ? & _ & ->) & Hfed).
  destruct (Hf' j s' k' Hk') as (? & (k1 & sv1 & ? & ? & _ & ->) & Hfed'). simplify_eq.
  pose proof (state_machine_agree n _ _ i j sv sv' Hp Hlk Hsv Hsv') as (Hc & Hc' & Hpre).
  destruct Hpre as [Hpre|Hpre]; [exists (omap Command (sv_applyCh sv'))|exists (omap Command (sv_applyCh sv))];
    split_and!; try done; (eapply carries_prefix; [|by apply carries_omap]);
    first [apply prefix_take | by etrans; [apply prefix_take|]].
Qed.

Lemma carries_take log msgs : carries log msgs → omap Command msgs = take (length msgs) log.
Proof.
  induction msgs as [|m msgs IH] using rev_ind; intros Hc; [done|].
  destruct (Hc (length msgs) m) as (op & Hop & ->); [by rewrite lookup_app_r, Nat.sub_diag by lia|].
  rewrite omap_app, IH, length_app by (by eapply carries_prefix; [apply prefix_app_r|]). simpl.
  by rewrite Nat.add_1_r, (take_S_r _ _ op).
Qed.

Lemma prefix_commands log msgs p :
  carries log msgs → 0 ≤ p ≤ zlen msgs → prefix log p = take (Z.to_nat p) (omap Command msgs).
Proof. intros Hc Hp. rewrite (carries_take _ _ Hc), take_take. unfold prefix, zlen in *. f_equal. lia. Qed.

(** A request the replay knows is in the log, or a later one of its client. *)
Lemma done_in_log l c q :
  done (ss_Duptable (replay l)) c q → ∃ op, op ∈ l ∧ op_ClientId op = c ∧ q ≤ op_SequenceId op.
Proof.
  induction l as [|op l IH] using rev_ind; [by intros (m & Hm & _)|].
  rewrite replay_app. simpl. intros (m & Hm & Hq). unfold applyOp in Hm.
  destruct (isNew _ op); simpl in Hm; [destruct (decide (op_ClientId op = c)) as [<-|Hne]|].
  - rewrite lookup_insert_eq in Hm. injection Hm as <-. exists op. split; [set_solver|done].
  - rewrite lookup_insert_ne in Hm by done. destruct IH as (o & ? & ?); [by exists m|]. exists o. split; [set_solver|done].
  - destruct IH as (o & ? & ?); [by exists m|]. exists o. split; [set_solver|done].
Qed.

(** ** The theorems *)

(** C4: replicas agree.  Two servers, at any two moments of a run of the whole
    system, that took the same number of messages and wait for the next one have
    the same data and the same duplicate table. *)
Theorem replicas_agree n sys sys' i j s s' msgs msgs' :
  running n sys → later sys sys' → received sys i s msgs → received sys' j s' msgs' →
  length msgs = length msgs' → s_apply s = ARecv → s_apply s' = ARecv →
  statusOf (s_kv s) = statusOf (s_kv s').
Proof.
  intros Hr Hl Hm Hm' El Ha Ha'.
  destruct (common_log n sys sys' i j s s' msgs msgs' Hr Hl Hm Hm') as (log & Hc & Hc' & Hf & Hf').
  pose proof (k_apply _ _ _ _ (fed_kinv _ _ _ Hf Hc)) as Hk. pose proof (k_apply _ _ _ _ (fed_kinv _ _ _ Hf' Hc')) as Hk'.
  rewrite Ha in Hk. rewrite Ha' in Hk'. destruct Hk as [-> _], Hk' as [-> _]. unfold zlen. by rewrite El.
Qed.

(** C3: a read that begins after a write was acknowledged sees it, at whatever
    servers the two are made, in runs in which no peer crashes and none installs the
    snapshot of another.  Server [i] acknowledged the write [h]; later, or at the same
    time, server [j] answered the read [g] as leader, and no command of the read's client
    with its sequence number or a later one was among what server [i] had received.  Then
    the reply is the value of the key after a prefix of the commands server [j] received,
    longer than what server [i] had received, whose replay has executed, of each of the two
    clients, the request or a later one. *)
Theorem reads_see_acknowledged_writes n sys sys' i j s s' msgs msgs' ch h r ch' g r' :
  running n sys → later sys sys' → received sys i s msgs → received sys' j s' msgs' →
  s_handlers s !! ch = Some h → h_kind h = KPutAppend → h_pc h = HDone r → r_Err r = OK →
  s_handlers s' !! ch' = Some g → h_kind g = KGet → h_pc g = HDone r' → r_Leader r' = true →
  (∀ op, op ∈ omap Command msgs → op_ClientId op = op_ClientId (h_op g) → op_SequenceId op < op_SequenceId (h_op g)) →
  ∃ p, (length msgs < p ≤ length msgs')%nat ∧
    let st := replay (take p (omap Command msgs')) in
    r' = readOf st (op_Key (h_op g)) ∧
    done (ss_Duptable st) (op_ClientId (h_op h)) (op_SequenceId (h_op h)) ∧
    done (ss_Duptable st) (op_ClientId (h_op g)) (op_SequenceId (h_op g)).
Proof.
  intros Hr Hl Hm Hm' Hh Hkw Hpc Hok Hg Hkr Hpc' Hld Hfresh.
  destruct (common_log n sys sys' i j s s' msgs msgs' Hr Hl Hm Hm') as (log & Hc & Hc' & Hf & Hf').
  pose proof (k_acked _ _ _ _ (fed_kinv _ _ _ Hf Hc) ch h Hh Hkw) as Hw. rewrite Hpc in Hw. specialize (Hw Hok).
  destruct (fed_rinv _ _ _ Hf Hc) as [(p0 & Hp0 & Hat) _]. destruct (fed_rinv _ _ _ Hf' Hc') as [_ Han].
  specialize (Han ch' g Hg Hkr). rewrite Hpc' in Han. destruct (Han Hld) as (p & Hp & Hd & Er).
  assert (zlen msgs < p) as Hlt.
  { apply Z.nle_gt. intros Hle. destruct (done_in_log _ _ _ Hd) as (op & Hin & Hcl & Hq).
    rewrite (prefix_commands log msgs) in Hin by (done || lia).
    apply elem_of_take in Hin as (k & Hin%list_elem_of_lookup_2 & _). specialize (Hfresh op Hin Hcl). lia. }
  exists (Z.to_nat p). split; [unfold zlen in *; lia|].
  rewrite <- (prefix_commands log msgs') by (done || lia). split_and!; [done| |done].
  apply (replay_dupLe log p0 p); [lia|]. by rewrite <- Hat.
Qed.
End system.

(** ** A concrete run *)

#[export] Instance Op_eq_dec : EqDecision Op.
Proof. solve_decision. Defined.

#[export] Instance Op_countable : Countable Op :=
  inj_countable' (λ o, (op_Type o, op_Key o, op_Value o, op_ClientId o, op_SequenceId o))
    (λ p, match p with (t, k, v, c, q) => mkOp t k v c q end) (λ o, match o with mkOp _ _ _ _ _ => eq_refl end).

#[export] Instance opStatus_gob : Gob (PersistentStatus Op) := countable_gob (PersistentStatus Op).

(** A round of the applier of peer [i] that delivers one message. *)
Definition applies (i : Z) : list action := replicate 6 (RaftDoes (RaftCluster.Apply i)).

(** Peer 0 is elected in term 1; a write at its server is committed, applied and
    acknowledged, and the server compacts the log of its peer. *)
Definition writeRun : list action :=
  [RaftDoes (Timeout 0); RaftDoes (Deliver 0); RaftDoes (Answer 0);
   KvDoes 0 (CallPutAppend (mkPutAppendArgs "k" "v" "Put" 1 0)); KvDoes 0 (Handler 0 None);
   KvDoes 0 (Handler 0 None); KvDoes 0 (Handler 0 None);
   RaftDoes (AddLog 0); RaftDoes (Deliver 4); RaftDoes (Answer 4)] ++ applies 0 ++
  [KvReceives 0; KvDoes 0 (Apply 90); KvDoes 0 (Rendezvous 90); KvDoes 0 (Handler 0 None)].

(** Peer 1 learns of it and leads term 2; a client reads at its server. *)
Definition readRun : list action :=
  [RaftDoes (Heartbeat 0); RaftDoes (Deliver 6)] ++ applies 1 ++
  [RaftDoes (Timeout 1); RaftDoes (Deliver 9); RaftDoes (Answer 9);
   KvDoes 1 (CallGet (mkGetArgs "k" 2 0)); KvDoes 1 (Handler 0 None); KvDoes 1 (Handler 0 None);
   KvReceives 1; KvDoes 1 (Apply 0);
   RaftDoes (AddLog 1); RaftDoes (Deliver 12); RaftDoes (Answer 12)] ++ applies 1 ++
  [KvReceives 1; KvDoes 1 (Apply 0); KvDoes 1 (Rendezvous 0); KvDoes 1 (Handler 0 None); KvDoes 1 (Handler 0 None)].

Definition endOfRun (acts : list action) : system := default (initSystem 3 100) (sysSteps acts (initSystem 3 100)).
Definition kvOf (acts : list action) (i : Z) : server :=
  default (start MakePersister 100) (fst <$> idx (sys_kv (endOfRun acts)) i).

Lemma sysSteps_later acts sys sys' : sysSteps acts sys = Some sys' → later sys sys'.
Proof.
  intros Hst. assert (∀ sys0, later sys sys0 → sysSteps acts sys0 = Some sys' → later sys sys') as H.
  { clear Hst. induction acts as [|a acts IH]; intros sys0 Hr H; unfold sysSteps in H; simpl in *; [by simplify_eq|].
    inv_bind H. eapply IH; [|exact H]. by eapply later_step. }
  apply (H sys); [apply later_refl|done].
Qed.

(** Checks that do not compare whole states. *)
Lemma run_enabled acts :
  bool_decide (is_Some (sysSteps acts (initSystem 3 100))) = true → sysSteps acts (initSystem 3 100) = Some (endOfRun acts).
Proof. intros [sys E]%bool_decide_eq_true. unfold endOfRun. by rewrite E. Qed.

Lemma endOfRun_app acts acts' :
  bool_decide (is_Some (sysSteps acts (initSystem 3 100))) = true →
  bool_decide (is_Some (sysSteps (acts ++ acts') (initSystem 3 100))) = true →
  later (endOfRun acts) (endOfRun (acts ++ acts')).
Proof.
  intros H%run_enabled H'%run_enabled. unfold sysSteps in H'. rewrite foldM_app in H'. unfold sysSteps in H.
  rewrite H in H'. by apply (sysSteps_later acts').
Qed.

Lemma run_received acts i (k : nat) msgs :
  snd <$> idx (sys_kv (endOfRun acts)) i = Some k →
  sv_applyCh <$> idx (servers (sys_raft (endOfRun acts))) i = Some msgs → length msgs = k →
  received (endOfRun acts) i (kvOf acts i) msgs.
Proof.
  intros ([s k'] & Hk & ->)%fmap_Some (sv & Hsv & ->)%fmap_Some El. exists k', sv. simpl in El.
  split_and!; [unfold kvOf; by rewrite Hk|done|lia|by rewrite firstn_all2 by lia].
Qed.

Lemma writeRun_running : running 3 (endOfRun writeRun).
Proof. exists 100. apply (sysSteps_later writeRun), run_enabled. vm_compute. reflexivity. Qed.

Lemma readRun_later : later (endOfRun writeRun) (endOfRun (writeRun ++ readRun)).
Proof. apply endOfRun_app; vm_compute; reflexivity. Qed.

Definition readGet : Op := mkOp GET "k" EmptyString 2 0.
Definition writeMsgs : list (ApplyMsg Op) := [commandMsg (Some examplePut) 1].
Definition readMsgs : list (ApplyMsg Op) := writeMsgs ++ [commandMsg (Some readGet) 2].

Lemma writeRun_received : received (endOfRun writeRun) 0 (kvOf writeRun 0) writeMsgs.
Proof. apply (run_received _ _ 1); vm_compute; reflexivity. Qed.

Lemma readRun_received : received (endOfRun (writeRun ++ readRun)) 1 (kvOf (writeRun ++ readRun) 1) readMsgs.
Proof. apply (run_received _ _ 2); vm_compute; reflexivity. Qed.

Lemma caughtUp_received :
  received (endOfRun (writeRun ++ take 16 readRun)) 1 (kvOf (writeRun ++ take 16 readRun) 1) writeMsgs.
Proof. apply (run_received _ _ 1); vm_compute; reflexivity. Qed.

Lemma replicas_agree_witness :
  s_apply (kvOf writeRun 0) = ARecv ∧ s_apply (kvOf (writeRun ++ take 16 readRun) 1) = ARecv ∧
  statusOf (s_kv (kvOf writeRun 0)) = statusOf (s_kv (kvOf (writeRun ++ take 16 readRun) 1)).
Proof.
  assert (s_apply (kvOf writeRun 0) = ARecv ∧ s_apply (kvOf (writeRun ++ take 16 readRun) 1) = ARecv) as [E1 E2]
    by (split; vm_compute; reflexivity).
  split; [exact E1|]. split; [exact E2|].
  refine (replicas_agree 3 _ _ 0 1 _ _ writeMsgs writeMsgs writeRun_running _ writeRun_received caughtUp_received eq_refl E1 E2).
  apply endOfRun_app; vm_compute; reflexivity.
Defined.

Lemma reads_see_acknowledged_writes_witness :
  ∃ p, (1 < p ≤ 2)%nat ∧
    let st := replay (take p [examplePut; readGet]) in
    mkReply true OK "v" = readOf st "k" ∧ done (ss_Duptable st) 1 0 ∧ done (ss_Duptable st) 2 0.
Proof.
  refine (reads_see_acknowledged_writes 3 _ _ 0 1 _ _ writeMsgs readMsgs
    0 (mkHandler KPutAppend examplePut (HDone (mkReply true OK EmptyString))) (mkReply true OK EmptyString)
    0 (mkHandler KGet readGet (HDone (mkReply true OK "v"))) (mkReply true OK "v")
    writeRun_running readRun_later writeRun_received readRun_received _ eq_refl eq_refl eq_refl _ eq_refl eq_refl eq_refl _).
  - vm_compute. reflexivity.
  - vm_compute. reflexivity.
  - intros op [= ->]%list_elem_of_singleton. done.
Defined.

(** ** The service without snapshots

    With [maxraftstate] = -1, as in the tests without snapshots, no server calls [Snapshot], so that no peer has
    one to send: the restriction of [sysStep] to steps that keep the logs excludes nothing but crashes. *)

Section plain.
Context `{!Gob (PersistentStatus Op)} `{!Gob SnapshotStatus}.
Implicit Types (s : server) (sys : system) (w : cluster Op).

(** ** A server without a limit makes no snapshot *)

Definition unlimited s : Prop := maxraftstate (s_kv s) = -1.

Lemma finish_unlimited size index kv s :
  maxraftstate kv = -1 → unlimited (finish size index kv s) ∧ s_snapshots (finish size index kv s) = s_snapshots s.
Proof. intros E. unfold unlimited, finish, finishMsg, snapshotCall. simpl. rewrite E. simpl. by rewrite app_nil_r. Qed.

Lemma applyMsg_unlimited msg kv kv' :
  (applyMsg msg kv = Applied kv' ∨ (∃ ch r, applyMsg msg kv = Wake ch r kv') ∨ applyMsg msg kv = Installed kv') →
  maxraftstate kv' = maxraftstate kv.
Proof. unfold applyMsg. intros [H|[(ch & r & H)|H]]; repeat case_match; simplify_eq; done. Qed.

Lemma step_unlimited e s s' : unlimited s → step e s = Some s' → unlimited s' ∧ s_snapshots s' = s_snapshots s.
Proof.
  intros Hu H. destruct e as [args|args|ch st|msg|size|size|]; simpl in H.
  1, 2: by injection H as <-.
  - inv_bind H. destruct x0 as [pc kv']. injection H as <-. split; [|done].
    unfold unlimited, handlerStep in *. simpl. cases; done.
  - destruct (s_apply s); try done. by injection H as <-.
  - destruct (s_apply s) as [|msg|index ch r|]; try done.
    destruct (applyMsg msg (s_kv s)) as [|ch r kv'|kv'|kv'| |] eqn:E; try done; injection H as <-; try done.
    + split; [|done]. unfold unlimited. simpl. rewrite <- Hu. eapply applyMsg_unlimited. eauto.
    + apply finish_unlimited. rewrite <- Hu. eapply applyMsg_unlimited. eauto.
    + split; [|done]. unfold unlimited. simpl. rewrite <- Hu. eapply applyMsg_unlimited. eauto.
  - destruct (s_apply s) as [|msg|index ch r|]; try done. inv_bind H. destruct (h_pc x) as [| | |j| | |]; try done. injection H as <-.
    by destruct (finish_unlimited size index (s_kv s) (setHandler ch x (woken x j r) s) Hu).
  - by injection H as <-.
Qed.

(** ** The system *)

Definition plainSystem sys : Prop :=
  unsnapped (sys_raft sys) ∧ ∀ i s k, idx (sys_kv sys) i = Some (s, k) → unlimited s.

Lemma plainSystem_put sys i s k s' k' w' :
  plainSystem sys → idx (sys_kv sys) i = Some (s, k) → unsnapped w' → unlimited s' →
  plainSystem (putKv i s' k' (mkSystem w' (sys_kv sys))).
Proof.
  intros [_ Hk] Hi Hw Hs. split; [done|]. simpl. intros j sj kj.
  intros [[_ [= -> ->]]|[_ Hj]]%(idx_insert_inv _ _ _ _ _ _ Hi); [done|by eapply Hk].
Qed.

(** A call that [step] does not add is not made. *)
Lemma compact_none i s s' w w' :
  s_snapshots s' = s_snapshots s → compact i (drop (length (s_snapshots s)) (s_snapshots s')) w = Some w' → w' = w.
Proof. intros ->. rewrite drop_all. by intros [= ->]. Qed.

Lemma plainSystem_step act sys sys' : plainSystem sys → sysStep act sys = Some sys' → plainSystem sys'.
Proof.
  intros [Hu Hk] H. destruct sys as [w kvs]. destruct act as [l|i e|i]; cbn [sysStep sys_raft sys_kv] in *.
  - destruct l; try done; case_match; try done; apply bind_Some in H as (w' & Hw & [= <-]);
      (split; [|done]); by eapply unsnapped_step; [exact Hu| |exact Hw].
  - destruct e as [args|args|ch r|m|size|size|]; try done; apply bind_Some in H as ([s k] & Hi & H).
    3: apply bind_Some in H as (h & Hh & H); destruct (h_pc h).
    4: apply bind_Some in H as (r' & Hr' & H); apply bind_Some in H as (w' & Hw & H).
    all: apply bind_Some in H as (s' & Hs & H); destruct (step_unlimited _ _ _ (Hk _ _ _ Hi) Hs) as [Hl Es].
    all: first [injection H as <- | apply bind_Some in H as (w' & ->%(compact_none _ _ _ _ _ Es) & [= <-])].
    all: eapply (plainSystem_put (mkSystem w kvs)); [by split|exact Hi| |exact Hl]; try done.
    by eapply unsnapped_step; [exact Hu| |exact Hw].
  - apply bind_Some in H as ([s k] & Hi & H). apply bind_Some in H as (sv & Hv & H).
    apply bind_Some in H as (m & Hm & H). apply bind_Some in H as (s' & Hs & [= <-]).
    destruct (step_unlimited _ _ _ (Hk _ _ _ Hi) Hs) as [Hl _].
    by eapply (plainSystem_put (mkSystem w kvs)); [split|exact Hi| |exact Hl].
Qed.

(** Without a limit on the Raft state every step of a peer other than a crash keeps the logs. *)
Lemma unlimited_keeps n sys l : later (initSystem n (-1)) sys → isPlain l = true → keeps l (sys_raft sys) = true.
Proof.
  intros Hr Hl. assert (plainSystem sys) as [Hu _]; [|by apply unsnapped_keeps].
  induction Hr as [|sys1 act sys2 _ IH Hst]; [|by eapply plainSystem_step].
  split; [apply unsnapped_init|]. simpl. intros i s k Hi. by apply idx_Some in Hi as [_ [[= -> ->] _]%lookup_replicate].
Qed.
End plain.
