(* ===== verification/MrEquivalence.v ===== *)
(** * The distributed MapReduce computes what the sequential one does

    Properties of the worker's loops ([DoMap] partitions by key, [DoReduce]
    emits one line per key) and the equivalence with [mrsequential] for every
    schedule in which the map tasks have been executed before the reduce tasks
    start, tasks being executed any number of times. *)

From stdpp Require Import pretty.
From S2P Require Import Prelude Runes Decimal Json MrWorker.
Open Scope go_scope.

(** ** The intermediate files *)

(** What JSON makes of a pair. *)
Definition validKeyValue (kv : KeyValue) : KeyValue := mkKeyValue (toValid (Key kv)) (toValid (Value kv)).

(** The pair passes through JSON unchanged. *)
Definition utf8Pair (kv : KeyValue) : Prop := utf8 (Key kv) ∧ utf8 (Value kv).

Lemma toBucket_of b : toBucket (validJson (ofBucket b)) = Some (validKeyValue <$> b).
Proof.
  unfold ofBucket. destruct b as [|kv b]; [done|]. generalize (kv :: b). intros l. cbn [validJson toBucket].
  change (ofKeyValue <$> l) with (map ofKeyValue l). rewrite map_map. by apply mapM_map.
Qed.

(** Reading the file [DoMap] wrote. *)
Lemma decodeFile_encode b : decodeFile (encodeBucket b) = validKeyValue <$> b.
Proof.
  unfold decodeFile, encodeBucket.
  assert (skipSpaces (MarshalJson (ofBucket b) +:+ newline) = MarshalJson (ofBucket b) +:+ newline) as Hs by (by destruct b).
  destruct (String.length (MarshalJson (ofBucket b) +:+ newline)) as [|n] eqn:El; [by destruct b|]. cbn [decodeBuckets].
  rewrite Hs, readValue_Marshal by done. rewrite toBucket_of. rewrite <-(app_nil_r (validKeyValue <$> b)) at 2. f_equal. by destruct n.
Qed.

Lemma decodeFile_utf8 b : Forall utf8Pair b → decodeFile (encodeBucket b) = b.
Proof.
  intros Hb. rewrite decodeFile_encode. induction Hb as [|kv b [Hk Hv] _ IH]; [done|]. rewrite fmap_cons, IH. f_equal.
  destruct kv as [k v]. unfold validKeyValue. simpl in *. by rewrite Hk, Hv.
Qed.

(** A key that is no UTF-8 comes out of the files as another one, which [mrsequential] does not see. *)
Example decodeFile_changes : decodeFile (encodeBucket [mkKeyValue (byteS 255) "1"]) = [mkKeyValue replacement "1"].
Proof. vm_compute. reflexivity. Qed.

(** ** [ihash] *)

Lemma fnv32a_bound s : 0 ≤ fnv32a s < 2 ^ 32.
Proof.
  unfold fnv32a. assert (0 ≤ fnvOffset < 2 ^ 32) as H by (vm_compute; split; congruence).
  revert H. generalize fnvOffset. induction (String.list_ascii_of_string s) as [|c l IH]; intros h H; [done|].
  simpl. apply IH. unfold fnvStep. apply Z.mod_pos_bound. lia.
Qed.

Lemma ihash_bound key : 0 ≤ ihash key < 2 ^ 31.
Proof.
  unfold ihash. change 0x7fffffff with (Z.ones 31). rewrite Z.land_ones by lia. apply Z.mod_pos_bound. lia.
Qed.

Section buckets.
Context (R : Z) (HR : 0 < R).

(** The partition of a key. *)
Definition partition (kv : KeyValue) : Z := Z.rem (ihash (Key kv)) R.

Lemma partition_bound kv : 0 ≤ partition kv < R.
Proof. pose proof (ihash_bound (Key kv)). unfold partition. apply Z.rem_bound_pos; lia. Qed.

Lemma addToBucket_run buckets kv :
  zlen buckets = R →
  ∃ b, idx buckets (partition kv) = Some b ∧
    addToBucket R buckets kv = Some (<[Z.to_nat (partition kv) := b ++ [kv]]> buckets).
Proof.
  intros Hl. pose proof (partition_bound kv).
  destruct (idx_is_Some buckets (partition kv)) as [b Hb]; [lia|]. exists b. split; [done|].
  unfold addToBucket. destruct (Z.eqb_spec R 0); [lia|]. fold (partition kv). rewrite Hb. simpl. unfold upd.
  rewrite (proj2 (andb_true_iff _ _)); [done|]. split; [apply Z.leb_le|apply Z.ltb_lt]; lia.
Qed.

(** The loop of [DoMap] puts every pair, in order, into the bucket of its key. *)
Lemma buckets_loop kva buckets :
  zlen buckets = R →
  ∃ buckets', foldM (addToBucket R) kva buckets = Some buckets' ∧ zlen buckets' = R ∧
    ∀ r b, idx buckets r = Some b → idx buckets' r = Some (b ++ filter (λ kv, partition kv = r) kva).
Proof.
  revert buckets. induction kva as [|kv kva IH]; intros buckets Hl; simpl.
  { exists buckets. split_and!; [done|done|]. intros r b ->. by rewrite app_nil_r. }
  destruct (addToBucket_run buckets kv Hl) as (b0 & Hb0 & ->). simpl. pose proof (partition_bound kv).
  destruct (IH (<[Z.to_nat (partition kv) := b0 ++ [kv]]> buckets)) as (bs & Hbs & Hl' & Hall);
    [by rewrite zlen_insert|].
  exists bs. split_and!; [done|done|]. intros r b Hb. rewrite filter_cons.
  destruct (decide (partition kv = r)) as [<-|Hne].
  - rewrite Hb in Hb0. injection Hb0 as <-.
    rewrite (Hall _ (b ++ [kv])); [by rewrite <- app_assoc|]. apply idx_insert_eq. lia.
  - apply Hall. by rewrite idx_insert_ne by lia.
Qed.

Lemma make_buckets kva :
  ∃ buckets, foldM (addToBucket R) kva (replicate (Z.to_nat R) []) = Some buckets ∧ zlen buckets = R ∧
    ∀ r, 0 ≤ r < R → idx buckets r = Some (filter (λ kv, partition kv = r) kva).
Proof.
  destruct (buckets_loop kva (replicate (Z.to_nat R) [])) as (bs & H1 & H2 & H3).
  { unfold zlen. rewrite length_replicate. lia. }
  exists bs. split_and!; [done|done|]. intros r Hr. apply (H3 r []). apply idx_Some. split; [lia|].
  apply lookup_replicate_2. lia.
Qed.
End buckets.

Lemma writeBuckets_other mapId buckets fs i r :
  i ≠ mapId → inter (writeBuckets mapId buckets fs) !! (i, r) = inter fs !! (i, r).
Proof.
  intros Hne. unfold writeBuckets. simpl. generalize (enumerate buckets) (inter fs). intros l.
  induction l as [|[k b] l IH]; intros m; simpl; [done|]. rewrite IH. by rewrite lookup_insert_ne by congruence.
Qed.

Lemma writeBuckets_lookup mapId buckets fs r b :
  idx buckets r = Some b → inter (writeBuckets mapId buckets fs) !! (mapId, r) = Some (encodeBucket b).
Proof.
  intros Hr. unfold writeBuckets, enumerate. simpl.
  induction buckets as [|x l IH] using rev_ind; [by unfold idx in Hr; case_match|].
  rewrite imap_app, foldl_app. simpl. rewrite Nat.add_0_r.
  destruct (decide (r = zlen l)) as [->|Hne].
  - rewrite idx_app_r, Z.sub_diag in Hr by lia. injection Hr as ->. unfold zlen. by rewrite lookup_insert_eq.
  - rewrite lookup_insert_ne by (unfold zlen in *; congruence). apply IH.
    pose proof (idx_lt _ _ _ Hr) as Hlt. rewrite zlen_app in Hlt. unfold zlen in Hlt at 2. simpl in Hlt.
    rewrite idx_app_l in Hr by lia. done.
Qed.

(** ** The reduce loop *)

Section reduce.
Context (reducef : string → list string → string).

(** All values of a key, in the order of the list. *)
Definition valuesOf (k : string) (l : list KeyValue) : list string := Value <$> filter (λ kv, Key kv = k) l.

Lemma sameKey_spec k l :
  StronglySorted keyLe l → (∀ kv, kv ∈ l → String.le k (Key kv)) →
  (sameKey k l).1 = filter (λ kv, Key kv = k) l ∧ (sameKey k l).2 = filter (λ kv, Key kv ≠ k) l ∧
  StronglySorted keyLe (sameKey k l).2.
Proof.
  induction l as [|kv l IH]; intros Hs Hle; [by simpl|].
  apply StronglySorted_inv in Hs as [Hs Hall]. simpl. rewrite !filter_cons.
  destruct (String.eqb_spec (Key kv) k) as [E|E].
  - destruct IH as (IH1 & IH2 & IH3); [done|set_solver|]. simpl.
    rewrite decide_True by done. rewrite decide_False by naive_solver.
    split_and!; [by f_equal|done|done].
  - rewrite decide_False by done. rewrite decide_True by done. simpl.
    assert (∀ x, x ∈ l → Key x ≠ k) as Hne.
    { intros x Hx Hk. apply E. apply (anti_symm String.le); [|by apply Hle; left].
      rewrite Forall_forall in Hall. specialize (Hall x Hx). unfold keyLe in Hall. by rewrite Hk in Hall. }
    split_and!.
    + symmetry. by apply filter_none.
    + f_equal. symmetry. by apply filter_every.
    + by constructor.
Qed.

Lemma sameKey_length k l : (length (sameKey k l).2 ≤ length l)%nat.
Proof. induction l as [|kv l IH]; simpl; [done|]. case_match; simpl; lia. Qed.

(** On a sorted list the loop writes one line per key, with all its values. *)
Lemma reduceRuns_spec fuel l :
  (length l ≤ fuel)%nat → StronglySorted keyLe l →
  NoDup (reduceRuns reducef fuel l).*1 ∧
  ∀ k o, (k, o) ∈ reduceRuns reducef fuel l ↔
    (∃ kv, kv ∈ l ∧ Key kv = k) ∧ o = reducef k (valuesOf k l).
Proof.
  revert l. induction fuel as [|fuel IH]; intros [|kv l] Hf Hs; simpl in Hf; try lia.
  1, 2: split; [constructor|]; intros k o; split; [by intros ?%elem_of_nil|by intros [(? & []%elem_of_nil & _) _]].
  apply StronglySorted_inv in Hs as [Hs Hall]. rewrite Forall_forall in Hall.
  destruct (sameKey_spec (Key kv) l Hs) as (H1 & H2 & H3); [by intros; apply Hall|].
  simpl. destruct (sameKey (Key kv) l) as [same rest] eqn:E. simpl in H1, H2, H3.
  pose proof (sameKey_length (Key kv) l) as Hlen. rewrite E in Hlen. simpl in Hlen.
  destruct (IH rest) as [Hnd Hin]; [lia|done|].
  assert (∀ k, k ≠ Key kv → valuesOf k rest = valuesOf k (kv :: l)) as Hv.
  { intros k Hk. unfold valuesOf. rewrite H2, filter_cons, decide_False by done. f_equal.
    apply list_filter_filter_l. intros x -> . done. }
  split.
  - simpl. constructor; [|done]. intros ((k & o) & Hk & ((x & Hx & Hkx) & _)%Hin)%list_elem_of_fmap.
    simpl in Hk. subst. apply list_elem_of_filter in Hx as [Hne _]. done.
  - intros k o. rewrite elem_of_cons, Hin. split.
    + intros [[= -> ->]|[(x & Hx & Hk) ->]].
      * split; [exists kv; split; [by left|done]|]. unfold valuesOf. rewrite filter_cons, decide_True by done.
        by rewrite H1.
      * assert (k ≠ Key kv) by (subst; apply list_elem_of_filter in Hx as [? _]; congruence).
        split; [|by rewrite Hv]. exists x. split; [|done]. right. subst rest.
        by apply list_elem_of_filter in Hx as [_ ?].
    + intros [(x & Hx & Hk) ->]. destruct (decide (k = Key kv)) as [->|Hne].
      * left. f_equal. unfold valuesOf. rewrite filter_cons, decide_True by done. by rewrite H1.
      * right. split; [|by rewrite Hv]. exists x. split; [|done]. subst rest. apply list_elem_of_filter.
        split; [congruence|]. apply elem_of_cons in Hx as [->|?]; [by subst|done].
Qed.

Lemma reduceSorted_spec l :
  StronglySorted keyLe l →
  NoDup (reduceSorted reducef l).*1 ∧
  ∀ k o, (k, o) ∈ reduceSorted reducef l ↔
    (∃ kv, kv ∈ l ∧ Key kv = k) ∧ o = reducef k (valuesOf k l).
Proof. intros. by apply reduceRuns_spec. Qed.
End reduce.

(** ** Jobs *)

(** The execution of one task by some worker. *)
Inductive job := JMap (i : Z) | JReduce (r : Z).

Section jobs.
Context `{!GoSort, !GoSortLaws}.
Context (mapf : string → string → list KeyValue) (reducef : string → list string → string).
Context (names : list string) (R : Z) (HR : 0 < R).
Context (reducef_perm : ∀ k vs vs', vs ≡ₚ vs' → reducef k vs = reducef k vs').

(** The response that hands out a map or a reduce task. *)
Definition mapReply (i : Z) (name : string) : TaskResponse :=
  mkTaskResponse (mkTask i 0 name) (zlen names) R 0 0 0.
Definition reduceReply (r : Z) : TaskResponse :=
  mkTaskResponse (mkTask 0 r EmptyString) (zlen names) R (-1) 0 1.

Definition runJob (fs : files) (j : job) : option files :=
  match j with
  | JMap i => name ← idx names i; DoMap mapf (mapReply i name) fs
  | JReduce r => DoReduce reducef (reduceReply r) fs
  end.
Definition runJobs (js : list job) (fs : files) : option files := foldM runJob js fs.

Definition validJob (j : job) : Prop :=
  match j with JMap i => 0 ≤ i < zlen names | JReduce r => 0 ≤ r < R end.
Definition isMapJob (j : job) : Prop := match j with JMap _ => True | _ => False end.

Context (ins : gmap string string).
Context (Hins : ∀ name, name ∈ names → is_Some (ins !! name)).
Context (Hutf8 : ∀ name content, name ∈ names → ins !! name = Some content → Forall utf8Pair (mapf name content)).

(** What map task [i] emits, all pairs together, and the output of partition [r]. *)
Definition pairs (i : Z) : list KeyValue :=
  default [] (name ← idx names i; content ← ins !! name; Some (mapf name content)).
Definition allPairs : list KeyValue := mjoin (pairs <$> range 0 (zlen names)).
Definition expected (r : Z) : list (string * string) :=
  reduceSorted reducef (go_sort (filter (λ kv, partition R kv = r) allPairs)).

Definition mapDone (fs : files) (i : Z) : Prop :=
  ∀ r, 0 ≤ r < R → inter fs !! (i, r) = Some (encodeBucket (filter (λ kv, partition R kv = r) (pairs i))).

Lemma pairs_utf8 i : Forall utf8Pair (pairs i).
Proof.
  unfold pairs. destruct (idx names i) as [name|] eqn:Hn; [simpl|constructor].
  destruct (ins !! name) as [content|] eqn:Hc; [simpl|constructor]. eapply Hutf8; [by eapply idx_elem_of|done].
Qed.

Lemma runJob_map fs i :
  inputs fs = ins → 0 ≤ i < zlen names →
  ∃ fs', runJob fs (JMap i) = Some fs' ∧ inputs fs' = ins ∧ outs fs' = outs fs ∧
    mapDone fs' i ∧ (∀ j, mapDone fs j → mapDone fs' j).
Proof.
  intros Hi Hr. destruct (idx_is_Some names i Hr) as [name Hn].
  destruct (Hins name) as [content Hc]; [by eapply idx_elem_of|].
  destruct (make_buckets R HR (mapf name content)) as (bs & Hbs & _ & Hlook).
  assert (pairs i = mapf name content) as Hp by (unfold pairs; rewrite Hn; simpl; by rewrite Hc).
  exists (writeBuckets i bs fs). simpl. rewrite Hn. simpl. unfold DoMap. simpl. rewrite Hi, Hc. simpl.
  rewrite Hbs. split_and!; [done|done|done| |].
  - intros r Hr'. rewrite Hp. apply writeBuckets_lookup. by apply Hlook.
  - intros j Hj r Hr'. destruct (decide (j = i)) as [->|?].
    + rewrite Hp. apply writeBuckets_lookup. by apply Hlook.
    + rewrite writeBuckets_other by done. by apply Hj.
Qed.

Lemma runJob_reduce fs r :
  0 ≤ r < R → (∀ i, 0 ≤ i < zlen names → mapDone fs i) →
  runJob fs (JReduce r) = Some (mkFiles (inputs fs) (inter fs) (<[r := expected r]> (outs fs))).
Proof.
  intros Hr Hm. simpl. unfold DoReduce. simpl.
  assert (mapM (λ i, inter fs !! (i, r)) (range 0 (zlen names))
    = Some ((λ i, encodeBucket (filter (λ kv, partition R kv = r) (pairs i))) <$> range 0 (zlen names))) as ->.
  { apply mapM_Some, Forall2_fmap_r, Forall_Forall2_diag, Forall_forall.
    intros i Hi%elem_of_range. by apply Hm. }
  simpl. unfold expected, allPairs. rewrite filter_join, <- !list_fmap_compose. do 6 f_equal.
  apply list_fmap_ext. intros _ i _. simpl. apply decodeFile_utf8, Forall_forall.
  intros kv [_ Hkv]%list_elem_of_filter. pose proof (pairs_utf8 i) as Hp. rewrite Forall_forall in Hp. by apply Hp.
Qed.

(** Executions of map tasks. *)
Lemma runJobs_maps js fs :
  Forall validJob js → Forall isMapJob js → inputs fs = ins →
  ∃ fs', runJobs js fs = Some fs' ∧ inputs fs' = ins ∧
    (∀ i, JMap i ∈ js → mapDone fs' i) ∧ (∀ i, mapDone fs i → mapDone fs' i).
Proof.
  intros Hv Hm. revert fs. induction js as [|j js IH]; intros fs Hi.
  { exists fs. split_and!; try done. intros i []%elem_of_nil. }
  apply Forall_cons in Hv as [Hj Hv], Hm as [Hmj Hm]. destruct j as [i|r]; [|done].
  destruct (runJob_map fs i Hi Hj) as (fs1 & H1 & Hi1 & _ & Hd1 & Hk1).
  destruct (IH Hv Hm fs1 Hi1) as (fs2 & H2 & Hi2 & Hd2 & Hk2).
  exists fs2. unfold runJobs. cbn [foldM]. rewrite H1. split_and!; [done|done| |by auto].
  intros k [[= ->]|?]%elem_of_cons; auto.
Qed.

(** Executions of any tasks once every map task was executed. *)
Lemma runJobs_all js fs :
  Forall validJob js → inputs fs = ins → (∀ i, 0 ≤ i < zlen names → mapDone fs i) →
  ∃ fs', runJobs js fs = Some fs' ∧
    (∀ r, JReduce r ∈ js ∨ outs fs !! r = Some (expected r) → outs fs' !! r = Some (expected r)).
Proof.
  intros Hv. revert fs. induction js as [|j js IH]; intros fs Hi Hd.
  { exists fs. split; [done|]. intros r [[]%elem_of_nil|?]; done. }
  apply Forall_cons in Hv as [Hj Hv]. unfold runJobs. cbn [foldM]. destruct j as [i|r].
  - destruct (runJob_map fs i Hi Hj) as (fs1 & -> & Hi1 & Ho1 & _ & Hk1).
    destruct (IH Hv fs1) as (fs2 & H2 & Ho2); [done|by auto|]. exists fs2. split; [exact H2|].
    intros r Hr. apply Ho2. rewrite Ho1. destruct Hr as [[?|?]%elem_of_cons|?]; [done|by left|by right].
  - rewrite runJob_reduce by done.
    destruct (IH Hv (mkFiles (inputs fs) (inter fs) (<[r := expected r]> (outs fs)))) as (fs2 & H2 & Ho2);
      [done|done|]. exists fs2. split; [exact H2|].
    intros r' Hr. apply Ho2. simpl. destruct (decide (r = r')) as [->|Hne].
    + right. by rewrite lookup_insert_eq.
    + rewrite lookup_insert_ne by done. destruct Hr as [[[= ?]|?]%elem_of_cons|?]; [congruence|by left|by right].
Qed.

Lemma mrsequential_run fs :
  inputs fs = ins → mrsequential mapf reducef names fs = Some (reduceSorted reducef (go_sort allPairs)).
Proof.
  intros Hi. unfold mrsequential, allPairs. rewrite Hi.
  assert (mapM (λ name, content ← ins !! name; Some (mapf name content)) names
    = Some (pairs <$> range 0 (zlen names))) as ->; [|done].
  apply mapM_Some, Forall2_fmap_r, Forall2_same_length_lookup_2.
  { unfold range. rewrite length_seqZ. unfold zlen. lia. }
  intros k name i Hk [-> Hlt]%lookup_seqZ. rewrite Z.add_0_l. unfold pairs, compose.
  rewrite idx_of_nat, Hk. simpl. destruct (Hins name) as [c ->]; [by eapply list_elem_of_lookup_2|]. done.
Qed.

Lemma reduce_sorted_lines l :
  NoDup (reduceSorted reducef (go_sort l)).*1 ∧
  ∀ k o, (k, o) ∈ reduceSorted reducef (go_sort l) ↔
    (∃ kv, kv ∈ l ∧ Key kv = k) ∧ o = reducef k (valuesOf k l).
Proof.
  destruct (reduceSorted_spec reducef (go_sort l) (go_sort_sorted l)) as [Hnd Hin]. split; [done|].
  intros k o. rewrite Hin. assert (∀ kv, kv ∈ go_sort l ↔ kv ∈ l) as E by (intros; by rewrite go_sort_perm).
  setoid_rewrite E. rewrite (reducef_perm k (valuesOf k (go_sort l)) (valuesOf k l)); [done|].
  unfold valuesOf. by rewrite go_sort_perm.
Qed.

(** The partitions' outputs together are the sequential output. *)
Lemma expected_perm : mjoin (expected <$> range 0 R) ≡ₚ reduceSorted reducef (go_sort allPairs).
Proof.
  assert (∀ r k o, (k, o) ∈ expected r ↔
    (∃ kv, kv ∈ allPairs ∧ Key kv = k ∧ partition R kv = r) ∧ o = reducef k (valuesOf k allPairs)) as Hexp.
  { intros r k o. unfold expected. rewrite (proj2 (reduce_sorted_lines _)).
    setoid_rewrite list_elem_of_filter.
    assert (∀ kv, Key kv = k → partition R kv = r → valuesOf k (filter (λ kv, partition R kv = r) allPairs)
              = valuesOf k allPairs) as Hv.
    { intros kv Hk Hp. unfold valuesOf. f_equal. apply list_filter_filter_l.
      intros x Hx. unfold partition in *. congruence. }
    split.
    - intros [(kv & [? ?] & ?) ->]. split; [by exists kv|]. f_equal. by eapply Hv.
    - intros [(kv & ? & ? & ?) ->]. split; [by exists kv|]. f_equal. symmetry. by eapply Hv. }
  apply NoDup_Permutation.
  - apply NoDup_join; [apply NoDup_seqZ| |].
    + intros r _. eapply NoDup_fmap_1. apply reduce_sorted_lines.
    + intros r r' [k o] _ _ [(x & _ & <- & Hx) _]%Hexp [(y & _ & Hk & Hy) _]%Hexp.
      unfold partition in *. congruence.
  - eapply NoDup_fmap_1. apply reduce_sorted_lines.
  - intros [k o]. rewrite (proj2 (reduce_sorted_lines _)), list_elem_of_join. split.
    + intros (l & Hl & (r & -> & _)%list_elem_of_fmap). apply Hexp in Hl as [(x & ? & ? & _) ?]. eauto.
    + intros [(x & Hx & Hk) ->]. exists (expected (partition R x)). split; [apply Hexp; eauto|].
      apply list_elem_of_fmap. exists (partition R x). split; [done|].
      apply elem_of_range. by apply partition_bound.
Qed.
End jobs.

(** Distributed equals sequential.  For any input files, any number of
    reduce tasks, and any schedule in which every map task was executed before
    the first reduce task, with tasks executed again at any time, no worker
    fails and the output files together hold, up to the order of lines, the
    lines [mrsequential] writes for the same input, provided [reducef] does not
    depend on the order of the values and the pairs of [mapf] are UTF-8. *)
Theorem mapreduce_equals_sequential `{!GoSort, !GoSortLaws} mapf reducef names R fs maps later :
  0 < R → (∀ k vs vs', vs ≡ₚ vs' → reducef k vs = reducef k vs') →
  (∀ name, name ∈ names → is_Some (inputs fs !! name)) →
  (∀ name content, name ∈ names → inputs fs !! name = Some content → Forall utf8Pair (mapf name content)) →
  Forall (validJob names R) (maps ++ later) → Forall isMapJob maps →
  (∀ i, 0 ≤ i < zlen names → JMap i ∈ maps) → (∀ r, 0 ≤ r < R → JReduce r ∈ later) →
  ∃ fs' outputs lines,
    runJobs mapf reducef names R (maps ++ later) fs = Some fs' ∧
    mapM (λ r, outs fs' !! r) (range 0 R) = Some outputs ∧
    mrsequential mapf reducef names fs = Some lines ∧ mjoin outputs ≡ₚ lines.
Proof.
  intros HR Hperm Hins Hutf8 [Hv1 Hv2]%Forall_app Hmaps Hall Hred.
  destruct (runJobs_maps mapf reducef names R HR (inputs fs) Hins maps fs)
    as (fs1 & H1 & Hi1 & Hd1 & _); [done..|].
  destruct (runJobs_all mapf reducef names R HR (inputs fs) Hins Hutf8 later fs1) as (fs2 & H2 & Ho2);
    [done|done|by auto|].
  exists fs2, (expected mapf reducef names R (inputs fs) <$> range 0 R). eexists. split_and!.
  - unfold runJobs in *. rewrite foldM_app, H1. exact H2.
  - apply mapM_Some, Forall2_fmap_r, Forall_Forall2_diag, Forall_forall. intros r Hr%elem_of_range.
    apply Ho2. left. by apply Hred.
  - by apply mrsequential_run.
  - by apply expected_perm.
Qed.

Lemma mapreduce_equals_sequential_witness :
  ∃ fs' outputs lines,
    let fs := mkFiles {["f" := "x"; "g" := "y"]} ∅ ∅ in
    let mapf := λ name _, [mkKeyValue "a" name; mkKeyValue name "1"] in
    @runJobs merge_sorter mapf (λ _ vs, pretty (zlen vs)) ["f"; "g"]%string 2
      [JMap 1; JMap 0; JMap 1; JReduce 1; JMap 0; JReduce 0] fs = Some fs' ∧
    mapM (λ r, outs fs' !! r) (range 0 2) = Some outputs ∧
    @mrsequential merge_sorter mapf (λ _ vs, pretty (zlen vs)) ["f"; "g"]%string fs = Some lines ∧
    mjoin outputs ≡ₚ lines.
Proof.
  pose proof merge_sorter_laws as Hl.
  apply (@mapreduce_equals_sequential merge_sorter Hl (λ name _, [mkKeyValue "a" name; mkKeyValue name "1"])
    (λ _ vs, pretty (zlen vs)) ["f"; "g"]%string 2 (mkFiles {["f" := "x"; "g" := "y"]} ∅ ∅)
    [JMap 1; JMap 0; JMap 1] [JReduce 1; JMap 0; JReduce 0]).
  - lia.
  - intros k vs vs' Hp. unfold zlen. by rewrite Hp.
  - intros name [->|[->|[]%elem_of_nil]%elem_of_cons]%elem_of_cons; (eexists; vm_compute; reflexivity).
  - intros name content [->|[->|[]%elem_of_nil]%elem_of_cons]%elem_of_cons _; repeat constructor.
  - repeat (apply Forall_cons; split; [vm_compute; split; congruence|]). apply Forall_nil_2.
  - repeat constructor.
  - intros i Hi. assert (i = 0 ∨ i = 1) as [-> | ->] by (unfold zlen in Hi; simpl in Hi; lia); set_solver.
  - intros r Hr. assert (r = 0 ∨ r = 1) as [-> | ->] by lia; set_solver.
Defined.
