(* ===== verification/MrCoordinator.v ===== *)
(** * MapReduce: the coordinator

    [mr/coordinator.go]: the two task channels, the tables of task states and
    the phase, with the RPC handlers [GetTask] and [TaskFin], the timeout check
    [TimeTick] and [Done].  First as functions: what a handler does when nothing else
    runs meanwhile.  The handlers take no lock, so the second half has them as goroutines
    on program points, one step per access to a channel, a table or the phase; these are
    what a job ([MrSystem]) runs. *)

From S2P Require Import Prelude MrWorker.
Open Scope go_scope.

(** [const Timeout = 10] *)
Definition Timeout : Z := 10.

(** [type TaskState struct] *)
Record TaskState := mkTaskState { ts_Time : Z; ts_Fin : bool }.

(** [type Coordinator struct] *)
Record Coordinator := mkCoordinator {
  State : Z;
  NumMapTasks : Z;
  NumReduceTasks : Z;
  MapTask : list Task;
  ReduceTask : list Task;
  MapTaskStates : gmap Z TaskState;
  ReduceTaskStates : gmap Z TaskState;
  cfiles : list string;
}.

(** [ch <- t] on a channel of capacity [cap]: [None] when the send waits. *)
Definition send (cap : Z) (ch : list Task) (t : Task) : option (list Task) :=
  if zlen ch <? cap then Some (ch ++ [t]) else None.

(** [func lenTaskFin(m *sync.Map) int] *)
Definition lenTaskFin (m : gmap Z TaskState) : Z :=
  Z.of_nat (size (filter (λ kv : Z * TaskState, ts_Fin kv.2 = true) m)).

Definition setMap (ch : list Task) (m : gmap Z TaskState) (c : Coordinator) : Coordinator :=
  mkCoordinator (State c) (NumMapTasks c) (NumReduceTasks c) ch (ReduceTask c) m (ReduceTaskStates c) (cfiles c).
Definition setReduce (ch : list Task) (m : gmap Z TaskState) (c : Coordinator) : Coordinator :=
  mkCoordinator (State c) (NumMapTasks c) (NumReduceTasks c) (MapTask c) ch (MapTaskStates c) m (cfiles c).
Definition setState (st : Z) (c : Coordinator) : Coordinator :=
  mkCoordinator st (NumMapTasks c) (NumReduceTasks c) (MapTask c) (ReduceTask c)
    (MapTaskStates c) (ReduceTaskStates c) (cfiles c).

(** The zero [Task]. *)
Definition noTask : Task := mkTask 0 0 EmptyString.

(** [func (c *Coordinator) GetTask(args, reply) error] at time [now]. *)
Definition GetTask (now : Z) (c : Coordinator) : TaskResponse * Coordinator :=
  let reply t nm nr := mkTaskResponse t (NumMapTasks c) (NumReduceTasks c) nm nr (State c) in
  if State c =? 0 then
    match MapTask c with
    | t :: ch => (reply t (zlen ch) (zlen (ReduceTask c)),
                  setMap ch (<[MapId t := mkTaskState now false]> (MapTaskStates c)) c)
    | [] => (reply noTask (-1) (zlen (ReduceTask c)), c)
    end
  else if State c =? 1 then
    match ReduceTask c with
    | t :: ch => (reply t (-1) (zlen ch),
                  setReduce ch (<[ReduceId t := mkTaskState now false]> (ReduceTaskStates c)) c)
    | [] => (reply noTask (-1) (-1), c)
    end
  else (reply noTask 0 0, c).

(** [for i := 0; i < c.NumReduceTasks; i++ { c.ReduceTask <- Task{ReduceId: i} }] *)
Definition sendReduceTasks (c : Coordinator) : option Coordinator :=
  ch ← foldM (λ ch i, send (NumReduceTasks c) ch (mkTask 0 i EmptyString)) (range 0 (NumReduceTasks c)) (ReduceTask c);
  Some (setReduce ch (ReduceTaskStates c) c).

(** [func (c *Coordinator) TaskFin(args *Task, reply) error]: [None] is the
    panic of the type assertion on a missing entry (or a send that waits). *)
Definition TaskFin (now : Z) (args : Task) (c : Coordinator) : option Coordinator :=
  if negb (lenTaskFin (MapTaskStates c) =? NumMapTasks c) then
    cur ← MapTaskStates c !! MapId args;
    if Timeout <? now - ts_Time cur then Some c else
    let c := setMap (MapTask c) (<[MapId args := mkTaskState now true]> (MapTaskStates c)) c in
    if lenTaskFin (MapTaskStates c) =? NumMapTasks c then sendReduceTasks (setState 1 c) else Some c
  else if negb (lenTaskFin (ReduceTaskStates c) =? NumReduceTasks c) then
    cur ← ReduceTaskStates c !! ReduceId args;
    if Timeout <? now - ts_Time cur then Some c else
    let c := setReduce (ReduceTask c) (<[ReduceId args := mkTaskState now true]> (ReduceTaskStates c)) c in
    if lenTaskFin (ReduceTaskStates c) =? NumReduceTasks c then Some (setState 2 c) else Some c
  else Some c.

(** The task is assigned, not finished and overdue. *)
Definition overdue (now : Z) (m : gmap Z TaskState) (i : Z) : bool :=
  match m !! i with
  | Some ts => negb (ts_Fin ts) && (Timeout <? now - ts_Time ts)
  | None => false
  end.

(** The body of the loop of [TimeTick] for index [i], in the phase [st] it read
    at its start. *)
Definition tickBody (st now : Z) (c : Coordinator) (i : Z) : option Coordinator :=
  if st =? 0 then
    if overdue now (MapTaskStates c) i then
      name ← idx (cfiles c) i;
      ch ← send (NumMapTasks c) (MapTask c) (mkTask i 0 name);
      Some (setMap ch (MapTaskStates c) c)
    else Some c
  else if st =? 1 then
    if overdue now (ReduceTaskStates c) i then
      ch ← send (NumReduceTasks c) (ReduceTask c) (mkTask 0 i EmptyString);
      Some (setReduce ch (ReduceTaskStates c) c)
    else Some c
  else Some c.

(** The bound of that loop. *)
Definition tickBound (st : Z) (c : Coordinator) : Z :=
  if st =? 0 then NumMapTasks c else if st =? 1 then NumReduceTasks c else 0.

(** [func (c *Coordinator) TimeTick()] when nothing else runs meanwhile;
    [None]: it waits for room in the channel. *)
Definition TimeTick (now : Z) (c : Coordinator) : option Coordinator :=
  foldM (tickBody (State c) now) (range 0 (tickBound (State c) c)) c.

(** The result of [func (c *Coordinator) Done() bool]. *)
Definition Done (c : Coordinator) : bool := lenTaskFin (ReduceTaskStates c) =? NumReduceTasks c.

(** [func MakeCoordinator(files []string, nReduce int) *Coordinator] *)
Definition MakeCoordinator (files : list string) (nReduce : Z) : Coordinator :=
  mkCoordinator 0 (zlen files) nReduce
    ((λ ie : Z * string, mkTask ie.1 0 ie.2) <$> enumerate files) [] ∅ ∅ files.

(** ** The handlers as goroutines *)

(** [m.Range] in [lenTaskFin]: the keys that were there when it began, those visited so
    far, and [len].  It visits each key at most once, in any order, and all that were
    there; it may or may not visit one that is stored meanwhile, and sees of each what is
    stored when it comes to it. *)
Record counting := mkCounting { cn_start : gset Z; cn_visited : gset Z; cn_len : Z }.

(** A step of [lenTaskFin]: it begins, visits the key [k], or returns. *)
Definition rangeStep (k : option Z) (m : gmap Z TaskState) (q : option counting) : option (counting + Z) :=
  match q, k with
  | None, None => Some (inl (mkCounting (dom m) ∅ 0))
  | Some q, Some key =>
      if decide (key ∈ cn_visited q) then None else
      ts ← m !! key;
      Some (inl (mkCounting (cn_start q) ({[key]} ∪ cn_visited q) (if ts_Fin ts then cn_len q + 1 else cn_len q)))
  | Some q, None => if decide (cn_start q ⊆ cn_visited q) then Some (inr (cn_len q)) else None
  | None, Some _ => None
  end.

(** The program points of [GetTask] ([st] is its [state]) and of [TaskFin] ([now] is its [timeNow]). *)
Inductive handler_pc :=
  | GStart                                          (* state := atomic.LoadInt32(&c.State) *)
  | GMapLen                                         (* if len(c.MapTask) != 0 *)
  | GMapRecv                                        (* maptask, ok := <-c.MapTask *)
  | GMapStore (t : Task)                            (* c.MapTaskStates.Store(...) *)
  | GMapLeft (t : Task)                             (* reply.CurNumMapTasks = len(c.MapTask) *)
  | GReduces (t : Task) (nm : Z)                    (* reply.CurNumReduceTasks = len(c.ReduceTask) *)
  | GState (st : Z)                                 (* else if c.State == 1 *)
  | GReduceLen (st : Z)                             (* if len(c.ReduceTask) != 0 *)
  | GReduceRecv (st : Z)                            (* reduceTask, ok := <-c.ReduceTask *)
  | GReduceStore (st : Z) (t : Task)                (* c.ReduceTaskStates.Store(...) *)
  | GReduceLeft (st : Z) (t : Task)                 (* reply.CurNumReduceTasks = len(c.ReduceTask) *)
  | GReturned (reply : TaskResponse)
  | FStart                                          (* timeNow := time.Now().Unix() *)
  | FMapRange (now : Z) (q : option counting)       (* if lenTaskFin(&c.MapTaskStates) != c.NumMapTasks *)
  | FMapLoad (now : Z)                              (* curState, _ := c.MapTaskStates.Load(...) *)
  | FMapStore (now : Z)                             (* c.MapTaskStates.Store(...) *)
  | FMapAgain (q : option counting)                 (* if lenTaskFin(&c.MapTaskStates) == c.NumMapTasks *)
  | FSetReduce                                      (* atomic.StoreInt32(&c.State, 1) *)
  | FSend (i : Z)                                   (* c.ReduceTask <- Task{ReduceId: i} *)
  | FReduceRange (now : Z) (q : option counting)    (* else if lenTaskFin(&c.ReduceTaskStates) != ... *)
  | FReduceLoad (now : Z)                           (* curState, _ := c.ReduceTaskStates.Load(...) *)
  | FReduceStore (now : Z)                          (* c.ReduceTaskStates.Store(...) *)
  | FReduceAgain (q : option counting)              (* if lenTaskFin(&c.ReduceTaskStates) == ... *)
  | FSetDone                                        (* atomic.StoreInt32(&c.State, 2) *)
  | FReturned
  | FPanic.                                         (* the type assertion on a missing entry *)

(** The test of [TaskFin] on what it loaded. *)
Definition loaded (now : Z) (cur : option TaskState) (next : handler_pc) : handler_pc :=
  match cur with
  | None => FPanic
  | Some cur => if Timeout <? now - ts_Time cur then FReturned else next
  end.

(** One step of a handler; [args] are those of [TaskFin], [now] is the time, [k] the key a
    [Range] visits.  [None]: it waits for a channel, or has returned. *)
Definition handlerStep (now : Z) (k : option Z) (args : Task) (pc : handler_pc) (c : Coordinator)
    : option (handler_pc * Coordinator) :=
  let returns t nm nr st := GReturned (mkTaskResponse t (NumMapTasks c) (NumReduceTasks c) nm nr st) in
  match pc with
  | GStart => Some (if State c =? 0 then GMapLen else GState (State c), c)
  | GMapLen => Some (if zlen (MapTask c) =? 0 then GReduces noTask (-1) else GMapRecv, c)
  | GMapRecv =>
      match MapTask c with t :: ch => Some (GMapStore t, setMap ch (MapTaskStates c) c) | [] => None end
  | GMapStore t => Some (GMapLeft t, setMap (MapTask c) (<[MapId t := mkTaskState now false]> (MapTaskStates c)) c)
  | GMapLeft t => Some (GReduces t (zlen (MapTask c)), c)
  | GReduces t nm => Some (returns t nm (zlen (ReduceTask c)) 0, c)
  | GState st => Some (if State c =? 1 then GReduceLen st else returns noTask 0 0 st, c)
  | GReduceLen st => Some (if zlen (ReduceTask c) =? 0 then returns noTask (-1) (-1) st else GReduceRecv st, c)
  | GReduceRecv st =>
      match ReduceTask c with
      | t :: ch => Some (GReduceStore st t, setReduce ch (ReduceTaskStates c) c)
      | [] => None
      end
  | GReduceStore st t =>
      Some (GReduceLeft st t, setReduce (ReduceTask c) (<[ReduceId t := mkTaskState now false]> (ReduceTaskStates c)) c)
  | GReduceLeft st t => Some (returns t (-1) (zlen (ReduceTask c)) st, c)
  | FStart => Some (FMapRange now None, c)
  | FMapRange timeNow q =>
      r ← rangeStep k (MapTaskStates c) q;
      Some (match r with
            | inl q => FMapRange timeNow (Some q)
            | inr n => if n =? NumMapTasks c then FReduceRange timeNow None else FMapLoad timeNow
            end, c)
  | FMapLoad timeNow => Some (loaded timeNow (MapTaskStates c !! MapId args) (FMapStore timeNow), c)
  | FMapStore timeNow =>
      Some (FMapAgain None, setMap (MapTask c) (<[MapId args := mkTaskState timeNow true]> (MapTaskStates c)) c)
  | FMapAgain q =>
      r ← rangeStep k (MapTaskStates c) q;
      Some (match r with
            | inl q => FMapAgain (Some q)
            | inr n => if n =? NumMapTasks c then FSetReduce else FReturned
            end, c)
  | FSetReduce => Some (FSend 0, setState 1 c)
  | FSend i =>
      if NumReduceTasks c <=? i then Some (FReturned, c) else
      ch ← send (NumReduceTasks c) (ReduceTask c) (mkTask 0 i EmptyString);
      Some (FSend (i + 1), setReduce ch (ReduceTaskStates c) c)
  | FReduceRange timeNow q =>
      r ← rangeStep k (ReduceTaskStates c) q;
      Some (match r with
            | inl q => FReduceRange timeNow (Some q)
            | inr n => if n =? NumReduceTasks c then FReturned else FReduceLoad timeNow
            end, c)
  | FReduceLoad timeNow => Some (loaded timeNow (ReduceTaskStates c !! ReduceId args) (FReduceStore timeNow), c)
  | FReduceStore timeNow =>
      Some (FReduceAgain None, setReduce (ReduceTask c) (<[ReduceId args := mkTaskState timeNow true]> (ReduceTaskStates c)) c)
  | FReduceAgain q =>
      r ← rangeStep k (ReduceTaskStates c) q;
      Some (match r with
            | inl q => FReduceAgain (Some q)
            | inr n => if n =? NumReduceTasks c then FSetDone else FReturned
            end, c)
  | FSetDone => Some (FReturned, setState 2 c)
  | GReturned _ | FReturned | FPanic => None
  end.

(** The program points of the loop [for m.Done() == false] of the main goroutine; [st] and
    [now] are what [TimeTick] read. *)
Inductive main_pc :=
  | MStart                                 (* state := atomic.LoadInt32(&c.State) *)
  | MTick (st now i : Z)                   (* the test of the loop of TimeTick for i *)
  | MSend (st now i : Z)                   (* its send *)
  | MRange (q : option counting)           (* lenTaskFin(&c.ReduceTaskStates) == c.NumReduceTasks *)
  | MReturned (done : bool).               (* Done returned *)

(** One step of it; [None]: it waits for a channel. *)
Definition mainStep (now : Z) (k : option Z) (pc : main_pc) (c : Coordinator) : option (main_pc * Coordinator) :=
  match pc with
  | MStart => Some (MTick (State c) now 0, c)
  | MTick st timeNow i =>
      Some (if tickBound st c <=? i then MRange None
            else if overdue timeNow (if st =? 0 then MapTaskStates c else ReduceTaskStates c) i then MSend st timeNow i
            else MTick st timeNow (i + 1), c)
  | MSend st timeNow i =>
      if st =? 0 then
        name ← idx (cfiles c) i;
        ch ← send (NumMapTasks c) (MapTask c) (mkTask i 0 name);
        Some (MTick st timeNow (i + 1), setMap ch (MapTaskStates c) c)
      else
        ch ← send (NumReduceTasks c) (ReduceTask c) (mkTask 0 i EmptyString);
        Some (MTick st timeNow (i + 1), setReduce ch (ReduceTaskStates c) c)
  | MRange q =>
      r ← rangeStep k (ReduceTaskStates c) q;
      Some (match r with inl q => MRange (Some q) | inr n => MReturned (n =? NumReduceTasks c) end, c)
  | MReturned false => Some (MStart, c)
  | MReturned true => None
  end.

(** ** Workers and coordinator *)

(** [given]: the tasks handed out; [ticking]: the phase and the time [TimeTick]
    read and the next index of its loop. *)
Record system := mkSystem { co : Coordinator; given : list Task; ticking : option (Z * Z * Z) }.

Inductive event :=
  | EvGetTask (now : Z)
  | EvTaskFin (now : Z) (k : nat)    (* the worker that got the k-th task reports it *)
  | EvTick (now : Z)                 (* Done calls TimeTick *)
  | EvTickNext.                      (* one iteration *)

Definition step (e : event) (s : system) : option system :=
  match e with
  | EvGetTask now =>
      let (reply, c') := GetTask now (co s) in
      let got := if State (co s) =? 0 then MapTask (co s)
                 else if State (co s) =? 1 then ReduceTask (co s) else [] in
      Some (mkSystem c' (given s ++ take 1 got) (ticking s))
  | EvTaskFin now k =>
      t ← given s !! k;
      c' ← TaskFin now t (co s);
      Some (mkSystem c' (given s) (ticking s))
  | EvTick now =>
      match ticking s with
      | None => Some (mkSystem (co s) (given s) (Some (State (co s), now, 0)))
      | Some _ => None
      end
  | EvTickNext =>
      '(st, now, i) ← ticking s;
      if tickBound st (co s) <=? i then Some (mkSystem (co s) (given s) None) else
      c' ← tickBody st now (co s) i;
      Some (mkSystem c' (given s) (Some (st, now, i + 1)))
  end.

Definition steps (es : list event) (s : system) : option system := foldM (λ s e, step e s) es s.

Definition init (files : list string) (nReduce : Z) : system :=
  mkSystem (MakeCoordinator files nReduce) [] None.

(** ** Counting finished tasks *)

Definition finished (m : gmap Z TaskState) (i : Z) : Prop := ∃ ts, m !! i = Some ts ∧ ts_Fin ts = true.
Definition within (n : Z) (m : gmap Z TaskState) : Prop := ∀ i, is_Some (m !! i) → 0 ≤ i < n.

Lemma lenTaskFin_all m n :
  0 ≤ n → within n m → (lenTaskFin m = n ↔ ∀ i, 0 ≤ i < n → finished m i).
Proof.
  intros Hn Hw. unfold lenTaskFin. set (f := filter _ m).
  assert (∀ i, i ∈ dom f ↔ finished m i) as Hf.
  { intros i. unfold finished, f. rewrite elem_of_dom. split.
    - intros [ts [? ?]%map_lookup_filter_Some]. eauto.
    - intros (ts & ? & ?). exists ts. by apply map_lookup_filter_Some. }
  assert (size (list_to_set (range 0 n) : gset Z) = Z.to_nat n) as Hsz.
  { rewrite size_list_to_set by apply NoDup_seqZ. unfold range. rewrite length_seqZ. lia. }
  assert (dom f ⊆ list_to_set (range 0 n)) as Hsub.
  { intros i Hi%Hf. apply elem_of_list_to_set, elem_of_range, Hw. destruct Hi as (ts & ? & _). eauto. }
  rewrite <- (size_dom f). split.
  - intros E i Hi. apply Hf. assert (dom f ≡ list_to_set (range 0 n)) as ->.
    { apply set_subseteq_size_equiv; [done|]. lia. }
    by apply elem_of_list_to_set, elem_of_range.
  - intros Hall. assert (dom f = list_to_set (range 0 n)) as ->; [|lia].
    apply leibniz_equiv. intros i. split; [apply Hsub|]. intros Hi%elem_of_list_to_set%elem_of_range.
    apply Hf. by apply Hall.
Qed.

Lemma within_insert n m i ts : 0 ≤ i < n → within n m → within n (<[i := ts]> m).
Proof.
  intros Hi Hw j. destruct (decide (i = j)) as [<-|?]; [done|]. rewrite lookup_insert_ne by done. apply Hw.
Qed.

(** ** A handler alone

    When nothing else runs, the goroutine of a handler does what the function of its name says. *)

Definition handlerRun (now : Z) (args : Task) (ks : list (option Z)) (x : handler_pc * Coordinator)
    : option (handler_pc * Coordinator) :=
  foldM (λ x k, handlerStep now k args x.1 x.2) ks x.

(** At the time [now] the handler gets alone from [x] to [y]. *)
Definition reaches (now : Z) (args : Task) (x y : handler_pc * Coordinator) : Prop :=
  ∃ ks, handlerRun now args ks x = Some y.

Lemma reaches_step now args k x x' y :
  handlerStep now k args x.1 x.2 = Some x' → reaches now args x' y → reaches now args x y.
Proof. intros E [ks H]. exists (k :: ks). unfold handlerRun. simpl. by rewrite E. Qed.

Lemma reaches_refl now args x : reaches now args x x.
Proof. by exists []. Qed.

Lemma GetTask_alone now args c : reaches now args (GStart, c) (GReturned (GetTask now c).1, (GetTask now c).2).
Proof.
  unfold GetTask. destruct (State c =? 0) eqn:E0.
  - apply Z.eqb_eq in E0. destruct (MapTask c) as [|t ch] eqn:Eq; [exists (replicate 3 None)|exists (replicate 6 None)];
      unfold handlerRun; simpl; rewrite E0; simpl; rewrite Eq; simpl; [done|]. by rewrite Eq.
  - destruct (State c =? 1) eqn:E1.
    + destruct (ReduceTask c) as [|t ch] eqn:Eq; [exists (replicate 3 None)|exists (replicate 6 None)];
        unfold handlerRun; simpl; rewrite E0; simpl; rewrite E1; simpl; rewrite Eq; simpl; [done|]. by rewrite Eq.
    + exists (replicate 2 None). unfold handlerRun. simpl. rewrite E0. simpl. by rewrite E1.
Qed.

(** A program point whose step is one of [lenTaskFin] on the table [m], after which it goes on at [next]. *)
Definition ranges (now : Z) (args : Task) (c : Coordinator) (m : gmap Z TaskState)
    (at_ : option counting → handler_pc) (next : Z → handler_pc) : Prop :=
  ∀ k q, handlerStep now k args (at_ q) c =
    r ← rangeStep k m q; Some (match r with inl q => at_ (Some q) | inr n => next n end, c).

(** It visits the keys [l]. *)
Lemma visits_alone now args c m at_ next l V n y :
  ranges now args c m at_ next → NoDup l.*1 → (∀ k ts, (k, ts) ∈ l → m !! k = Some ts ∧ k ∉ V) →
  reaches now args (at_ (Some (mkCounting (dom m) (list_to_set l.*1 ∪ V)
    (n + zlen (filter (λ kv : Z * TaskState, ts_Fin kv.2 = true) l)))), c) y →
  reaches now args (at_ (Some (mkCounting (dom m) V n)), c) y.
Proof.
  intros Hr. revert V n. induction l as [|[k ts] l IH]; intros V n Hnd Hk Hy; simpl in Hy.
  { rewrite left_id_L in Hy by apply _. unfold zlen in Hy. simpl in Hy. by rewrite Z.add_0_r in Hy. }
  inversion Hnd as [|? ? Hni Hnd']; subst. destruct (Hk k ts) as [Hm Hv]; [by left|].
  eapply (reaches_step _ _ (Some k)); [simpl; rewrite Hr; simpl; rewrite decide_False by done; by rewrite Hm|]. simpl.
  apply IH; [done| |].
  - intros k' ts' Hin. destruct (Hk k' ts') as [? ?]; [by right|]. split; [done|]. intros [->%elem_of_singleton|?]%elem_of_union; [|done].
    apply Hni. apply list_elem_of_fmap. by exists (k, ts').
  - rewrite filter_cons in Hy. simpl in Hy. replace (list_to_set l.*1 ∪ ({[k]} ∪ V)) with ({[k]} ∪ list_to_set l.*1 ∪ V) by set_solver.
    destruct (ts_Fin ts); case_decide; try done. rewrite zlen_cons in Hy.
    replace (n + 1 + _) with (n + (1 + zlen (filter (λ kv : Z * TaskState, ts_Fin kv.2 = true) l))) by lia. done.
Qed.

Lemma lenTaskFin_alone now args c m at_ next y :
  ranges now args c m at_ next → reaches now args (next (lenTaskFin m), c) y → reaches now args (at_ None, c) y.
Proof.
  intros Hr Hy. eapply (reaches_step _ _ None); [simpl; by rewrite Hr|]. simpl.
  assert (dom m ⊆ list_to_set (map_to_list m).*1 ∪ ∅) as Hall.
  { intros k [ts Hts]%elem_of_dom. apply elem_of_union_l, elem_of_list_to_set, list_elem_of_fmap.
    exists (k, ts). by rewrite elem_of_map_to_list. }
  eapply (visits_alone _ _ _ _ _ _ (map_to_list m)); [done|apply NoDup_fst_map_to_list|intros k ts ?%elem_of_map_to_list; set_solver|].
  eapply (reaches_step _ _ None); [simpl; rewrite Hr; simpl; by rewrite decide_True|]. simpl.
  replace (0 + zlen _) with (lenTaskFin m); [done|]. unfold lenTaskFin, zlen.
  rewrite map_filter_alt, <-length_map_to_list, map_to_list_to_map; [done|].
  eapply sublist_NoDup; [apply (NoDup_fst_map_to_list m)|]. apply fmap_sublist, sublist_filter.
Qed.

Lemma sends_alone now args c c' : sendReduceTasks c = Some c' → reaches now args (FSend 0, c) (FReturned, c').
Proof.
  unfold sendReduceTasks. intros (ch & Hch & [= <-])%bind_Some.
  assert (∀ d i c0 ch, 0 ≤ i → i + Z.of_nat d = Z.max i (NumReduceTasks c0) →
    foldM (λ ch i, send (NumReduceTasks c0) ch (mkTask 0 i EmptyString)) (range i (NumReduceTasks c0)) (ReduceTask c0) = Some ch →
    reaches now args (FSend i, c0) (FReturned, setReduce ch (ReduceTaskStates c0) c0)) as Hs.
  { induction d as [|d IH]; intros i c0 ch0 Hi Hd H.
    - rewrite range_nil in H by lia. injection H as <-. eapply (reaches_step _ _ None); [simpl; by rewrite (proj2 (Z.leb_le _ _)) by lia|].
      destruct c0. apply reaches_refl.
    - rewrite range_cons in H by lia. simpl in H. apply bind_Some in H as (ch1 & H1 & H).
      eapply (reaches_step _ _ None); [simpl; rewrite (proj2 (Z.leb_gt _ _)) by lia; by rewrite H1|].
      apply (IH (i + 1) (setReduce ch1 (ReduceTaskStates c0) c0)) in H; [exact H|lia|simpl; lia]. }
  apply (Hs (Z.to_nat (NumReduceTasks c))); [lia|lia|done].
Qed.

(** Load, test and store in the map phase, then the second count; likewise in the reduce phase. *)
Lemma mapReport_alone now args c cur c' :
  MapTaskStates c !! MapId args = Some cur →
  (if Timeout <? now - ts_Time cur then Some c else
   let c := setMap (MapTask c) (<[MapId args := mkTaskState now true]> (MapTaskStates c)) c in
   if lenTaskFin (MapTaskStates c) =? NumMapTasks c then sendReduceTasks (setState 1 c) else Some c) = Some c' →
  reaches now args (FMapLoad now, c) (FReturned, c').
Proof.
  intros Hcur H. eapply (reaches_step _ _ None); [done|]. simpl. rewrite Hcur. simpl.
  destruct (Timeout <? _); [injection H as <-; apply reaches_refl|]. eapply (reaches_step _ _ None); [done|]. simpl.
  simpl in H.
  eapply lenTaskFin_alone; [by intros k q|]. simpl. destruct (_ =? _).
  - eapply (reaches_step _ _ None); [done|]. by apply sends_alone.
  - injection H as <-. apply reaches_refl.
Qed.

Lemma reduceReport_alone now args c cur c' :
  ReduceTaskStates c !! ReduceId args = Some cur →
  (if Timeout <? now - ts_Time cur then Some c else
   let c := setReduce (ReduceTask c) (<[ReduceId args := mkTaskState now true]> (ReduceTaskStates c)) c in
   if lenTaskFin (ReduceTaskStates c) =? NumReduceTasks c then Some (setState 2 c) else Some c) = Some c' →
  reaches now args (FReduceLoad now, c) (FReturned, c').
Proof.
  intros Hcur H. eapply (reaches_step _ _ None); [done|]. simpl. rewrite Hcur. simpl.
  destruct (Timeout <? _); [injection H as <-; apply reaches_refl|]. eapply (reaches_step _ _ None); [done|]. simpl.
  simpl in H.
  eapply lenTaskFin_alone; [by intros k q|]. simpl. destruct (_ =? _); injection H as <-.
  - eapply (reaches_step _ _ None); [done|]. apply reaches_refl.
  - apply reaches_refl.
Qed.

Lemma TaskFin_alone now args c c' :
  TaskFin now args c = Some c' → reaches now args (FStart, c) (FReturned, c').
Proof.
  unfold TaskFin. intros H. eapply (reaches_step _ _ None); [done|]. simpl. eapply lenTaskFin_alone; [by intros k q|]. simpl.
  destruct (_ =? NumMapTasks c); simpl in H.
  - eapply lenTaskFin_alone; [by intros k q|]. simpl. destruct (_ =? NumReduceTasks c); simpl in H; [injection H as <-; apply reaches_refl|].
    apply bind_Some in H as (cur & Hcur & H). by eapply reduceReport_alone.
  - apply bind_Some in H as (cur & Hcur & H). by eapply mapReport_alone.
Qed.
