(* ===== verification/MrCoordinatorFacts.v ===== *)
(** * Invariants of the MapReduce coordinator, and a premature end

    Every map task is finished before reduce tasks are handed out and no task is
    ever lost; [TimeTick] queues exactly the overdue tasks again; but the report
    of a map task that was executed twice is taken for a reduce task. *)

From S2P Require Import Prelude MrWorker MrCoordinator.
Open Scope go_scope.

(** The task [i] waits in the channel or has an entry in the table. *)
Definition accounted (id : Task → Z) (ch : list Task) (m : gmap Z TaskState) (i : Z) : Prop :=
  (∃ t, t ∈ ch ∧ id t = i) ∨ is_Some (m !! i).

Record cinv (c : Coordinator) : Prop := {
  c_files : NumMapTasks c = zlen (cfiles c);
  c_maps : 0 < NumMapTasks c;
  c_reduces : 0 < NumReduceTasks c;
  c_state : State c = 0 ∨ State c = 1 ∨ State c = 2;
  c_mapq t : t ∈ MapTask c → 0 ≤ MapId t < NumMapTasks c ∧ idx (cfiles c) (MapId t) = Some (FileName t);
  c_redq t : t ∈ ReduceTask c → 0 ≤ ReduceId t < NumReduceTasks c;
  c_mapw : within (NumMapTasks c) (MapTaskStates c);
  c_redw : within (NumReduceTasks c) (ReduceTaskStates c);
  c_phase0 : State c = 0 →
    (∀ i, 0 ≤ i < NumMapTasks c → accounted MapId (MapTask c) (MapTaskStates c) i) ∧
    lenTaskFin (MapTaskStates c) ≠ NumMapTasks c ∧ ReduceTask c = [] ∧ ReduceTaskStates c = ∅;
  c_phase12 : State c ≠ 0 → lenTaskFin (MapTaskStates c) = NumMapTasks c;
  c_phase1 : State c = 1 →
    (∀ r, 0 ≤ r < NumReduceTasks c → accounted ReduceId (ReduceTask c) (ReduceTaskStates c) r) ∧
    lenTaskFin (ReduceTaskStates c) ≠ NumReduceTasks c;
  c_phase2 : State c = 2 → lenTaskFin (ReduceTaskStates c) = NumReduceTasks c;
}.

Lemma accounted_pop id t ch m ts i :
  accounted id (t :: ch) m i → accounted id ch (<[id t := ts]> m) i.
Proof.
  intros [(t' & [->|Hin]%elem_of_cons & <-)|[x Hx]].
  - right. by rewrite lookup_insert_eq.
  - left. eauto.
  - destruct (decide (id t = i)) as [<-|?]; right; [by rewrite lookup_insert_eq|by rewrite lookup_insert_ne].
Qed.

Lemma accounted_insert id ch m i j ts : accounted id ch m i → accounted id ch (<[j := ts]> m) i.
Proof.
  intros [?|?]; [by left|]. right. destruct (decide (j = i)) as [<-|?];
    [by rewrite lookup_insert_eq|by rewrite lookup_insert_ne].
Qed.

Lemma accounted_snoc id ch m i t : accounted id ch m i → accounted id (ch ++ [t]) m i.
Proof. intros [(t' & ? & ?)|?]; [left; exists t'; set_solver|by right]. Qed.

(** An entry reset to unfinished keeps the phase. *)
Lemma lenTaskFin_reset n m i now :
  0 ≤ i < n → within n m → lenTaskFin (<[i := mkTaskState now false]> m) ≠ n.
Proof.
  intros Hi Hw E. rewrite lenTaskFin_all in E; [|lia|by apply within_insert].
  destruct (E i Hi) as (ts & Hts & Hf). rewrite lookup_insert_eq in Hts. by injection Hts as <-.
Qed.

Lemma GetTask_cinv now c : cinv c → cinv (GetTask now c).2.
Proof.
  intros [Hf Hm Hr Hst Hmq Hrq Hmw Hrw H0 H12 H1 H2]. unfold GetTask.
  destruct (Z.eqb_spec (State c) 0) as [E0|E0].
  - destruct (H0 E0) as (Hacc & Hlen & Hrt & Hrs). destruct (MapTask c) as [|t ch] eqn:Eq; simpl.
    { split; rewrite ?Eq; auto. }
    destruct (Hmq t) as [Ht Hn]; [by left|]. split; simpl; auto; try congruence.
    + intros t' ?. apply Hmq. by right.
    + by apply within_insert.
    + intros _. split_and!; [|by apply lenTaskFin_reset|done|done]. intros i Hi. by apply accounted_pop, Hacc.
  - destruct (Z.eqb_spec (State c) 1) as [E1|E1]; simpl; [|by split].
    destruct (H1 E1) as [Hacc Hlen]. destruct (ReduceTask c) as [|t ch] eqn:Eq; simpl.
    { split; rewrite ?Eq; auto. }
    pose proof (Hrq t ltac:(by left)) as Ht. split; simpl; auto; try congruence.
    + intros t' ?. apply Hrq. by right.
    + by apply within_insert.
    + intros _. split; [|by apply lenTaskFin_reset]. intros i Hi. by apply accounted_pop, Hacc.
Qed.

Lemma send_room cap ch t : zlen ch < cap → send cap ch t = Some (ch ++ [t]).
Proof. intros H. unfold send. by rewrite (proj2 (Z.ltb_lt _ _)). Qed.

Lemma sendReduceTasks_run c :
  ReduceTask c = [] → 0 < NumReduceTasks c →
  sendReduceTasks c = Some (setReduce ((λ i, mkTask 0 i EmptyString) <$> range 0 (NumReduceTasks c))
                              (ReduceTaskStates c) c).
Proof.
  intros Hrt Hr. unfold sendReduceTasks. rewrite Hrt.
  assert (∀ l ch, zlen ch + zlen l ≤ NumReduceTasks c →
    foldM (λ ch i, send (NumReduceTasks c) ch (mkTask 0 i EmptyString)) l ch
    = Some (ch ++ ((λ i, mkTask 0 i EmptyString) <$> l))) as Hloop.
  { induction l as [|i l IH]; intros ch Hl; simpl; [by rewrite app_nil_r|].
    rewrite zlen_cons in Hl. pose proof (zlen_nonneg l).
    rewrite (send_room (NumReduceTasks c) ch) by lia. simpl. rewrite IH by (autorewrite with golen; lia).
    by rewrite <- app_assoc. }
  rewrite Hloop; [done|]. unfold zlen, range. rewrite length_seqZ. simpl. lia.
Qed.

Lemma TaskFin_cinv now t c c' : cinv c → TaskFin now t c = Some c' → cinv c'.
Proof.
  intros [Hf Hm Hr Hst Hmq Hrq Hmw Hrw H0 H12 H1 H2] H. unfold TaskFin in H.
  destruct (Z.eqb_spec (lenTaskFin (MapTaskStates c)) (NumMapTasks c)) as [El|El]; simpl in H.
  - assert (State c ≠ 0) as Hs0 by (intros E; by destruct (H0 E) as (_ & ? & _)).
    destruct (Z.eqb_spec (lenTaskFin (ReduceTaskStates c)) (NumReduceTasks c)) as [Er|Er]; simpl in H.
    { injection H as <-. by split. }
    destruct (ReduceTaskStates c !! ReduceId t) as [cur|] eqn:Ecur; [|done]. simpl in H.
    assert (State c = 1) as Hs1 by (destruct Hst as [?|[?|?]]; [done|done|by specialize (H2 H3)]).
    destruct (Timeout <? _); [injection H as <-; by split|].
    pose proof (Hrw (ReduceId t) ltac:(eauto)) as Hid.
    destruct (Z.eqb_spec (lenTaskFin (<[ReduceId t := mkTaskState now true]> (ReduceTaskStates c)))
                (NumReduceTasks c)) as [E|E]; injection H as <-; split; simpl; auto; try congruence; try lia;
      try (by apply within_insert).
    intros _. split; [|done]. intros r Hr'. apply accounted_insert. by apply H1.
  - assert (State c = 0) as Hs0 by (destruct (Z.eq_dec (State c) 0); [done|by specialize (H12 n)]).
    destruct (H0 Hs0) as (Hacc & Hlen & Hrt & Hrs).
    destruct (MapTaskStates c !! MapId t) as [cur|] eqn:Ecur; [|done]. simpl in H.
    destruct (Timeout <? _); [injection H as <-; by split|].
    pose proof (Hmw (MapId t) ltac:(eauto)) as Hid.
    destruct (Z.eqb_spec (lenTaskFin (<[MapId t := mkTaskState now true]> (MapTaskStates c)))
                (NumMapTasks c)) as [E|E].
    + rewrite sendReduceTasks_run in H by done. injection H as <-.
      split; simpl; auto; try congruence; try lia; try (by apply within_insert).
      * intros t' (i & -> & Hi)%list_elem_of_fmap. by apply elem_of_range.
      * intros _. split.
        -- intros r Hr'. left. exists (mkTask 0 r EmptyString). split; [|done].
           apply list_elem_of_fmap. exists r. split; [done|]. by apply elem_of_range.
        -- rewrite Hrs. unfold lenTaskFin. rewrite map_filter_empty, map_size_empty. lia.
    + injection H as <-. split; simpl; auto; try congruence; try lia; try (by apply within_insert).
      intros _. split_and!; [|done|done|done]. intros i Hi. apply accounted_insert. by apply Hacc.
Qed.

Lemma tickBody_cinv st now c i c' :
  cinv c → (st = 1 → State c ≠ 0) → 0 ≤ i < tickBound st c → tickBody st now c i = Some c' → cinv c'.
Proof.
  intros [Hf Hm Hr Hst Hmq Hrq Hmw Hrw H0 H12 H1 H2] Hs Hi H. unfold tickBody, tickBound in *.
  destruct (Z.eqb_spec st 0) as [->|E0].
  - destruct (overdue _ _ _); [|injection H as <-; by split]. inv_bind H. injection H as <-.
    unfold send in H4. destruct (_ <? _); [|done]. injection H4 as <-. split; simpl; auto.
    + intros t [?| ->%list_elem_of_singleton]%elem_of_app; [by apply Hmq|by simpl].
    + intros E. destruct (H0 E) as (Hacc & ? & ? & ?). split_and!; try done.
      intros j Hj. apply accounted_snoc. by apply Hacc.
  - destruct (Z.eqb_spec st 1) as [->|E1]; [|injection H as <-; by split].
    destruct (overdue _ _ _); [|injection H as <-; by split]. inv_bind H. injection H as <-.
    unfold send in H3. destruct (_ <? _); [|done]. injection H3 as <-. split; simpl; auto.
    + intros t [?| ->%list_elem_of_singleton]%elem_of_app; [by apply Hrq|by simpl].
    + intros E. by destruct Hs.
    + intros E. destruct (H1 E) as [Hacc ?]. split; [|done]. intros j Hj. apply accounted_snoc. by apply Hacc.
Qed.

(** The system: the phase [TimeTick] read is not ahead of the coordinator's. *)
Definition sinv (s : system) : Prop :=
  cinv (co s) ∧ ∀ st now i, ticking s = Some (st, now, i) → 0 ≤ i ∧ (st = 1 → State (co s) ≠ 0).

Lemma TaskFin_state now t c c' : TaskFin now t c = Some c' → State c ≠ 0 → State c' ≠ 0.
Proof.
  intros H Hs. unfold TaskFin in H. destruct (negb _); [|destruct (negb _); [|by injection H as <-]];
    (destruct (_ !! _); [|done]); simpl in H; (destruct (Timeout <? _); [by injection H as <-|]);
    (destruct (lenTaskFin _ =? _); [|by injection H as <-]); [|by injection H as <-].
  unfold sendReduceTasks in H. inv_bind H. by injection H as <-.
Qed.

Lemma tickBody_state st now c i c' : tickBody st now c i = Some c' → State c' = State c.
Proof.
  unfold tickBody. intros H. destruct (st =? 0); [|destruct (st =? 1); [|by injection H as <-]];
    (destruct (overdue _ _ _); [|by injection H as <-]); inv_bind H; by injection H as <-.
Qed.

Lemma GetTask_state now c : State (GetTask now c).2 = State c.
Proof. unfold GetTask. cases; done. Qed.

Lemma step_sinv e s s' : sinv s → step e s = Some s' → sinv s'.
Proof.
  intros [Hc Ht] H. destruct e as [now|now k|now|]; simpl in H.
  - destruct (GetTask now (co s)) as [reply c'] eqn:E. injection H as <-.
    pose proof (GetTask_cinv now _ Hc) as Hc'. pose proof (GetTask_state now (co s)) as Hs.
    rewrite E in Hc', Hs. simpl in *. split; simpl; [done|]. rewrite Hs. exact Ht.
  - inv_bind H. injection H as <-. split; simpl; [by eapply TaskFin_cinv|].
    intros st now' i E. destruct (Ht _ _ _ E). split; [done|]. intros E1. eapply TaskFin_state; eauto.
  - destruct (ticking s); [done|]. injection H as <-. split; simpl; [done|].
    intros st now' i [= <- <- <-]. split; [lia|]. intros ->. lia.
  - destruct (ticking s) as [[[st now] i]|]; [|done]. simpl in H. destruct (Ht _ _ _ eq_refl) as [Hi Hs].
    destruct (Z.leb_spec (tickBound st (co s)) i); [injection H as <-; by split|].
    inv_bind H. injection H as <-. split; simpl; [by eapply (tickBody_cinv st now (co s) i)|].
    intros st' now' i' [= <- <- <-]. split; [lia|]. intros E. rewrite (tickBody_state _ _ _ _ _ H1). auto.
Qed.

Lemma init_sinv files R : files ≠ [] → 0 < R → sinv (init files R).
Proof.
  intros Hf HR. assert (0 < zlen files) as Hn.
  { destruct files as [|f l]; [done|]. rewrite zlen_cons. pose proof (zlen_nonneg l). lia. }
  assert (lenTaskFin ∅ = 0) as Hlen by (unfold lenTaskFin; by rewrite map_filter_empty, map_size_empty).
  assert (within (zlen files) ∅ ∧ within R ∅) as [? ?]
    by (split; intros i [x Hx]; by rewrite lookup_empty in Hx).
  split; [|done]. split; simpl; auto; try lia; try done.
  - intros t ([i f] & -> & (k & x & [= -> <-] & Hx)%elem_of_lookup_imap)%list_elem_of_fmap. simpl.
    rewrite idx_of_nat, Hx. pose proof (lookup_lt_Some _ _ _ Hx). unfold zlen. split; [lia|done].
  - intros t Ht. by apply elem_of_nil in Ht.
  - intros _. split_and!; [|lia|done|done]. intros i Hi.
    destruct (idx_is_Some files i Hi) as [f Hfi]. apply idx_Some in Hfi as [? Hfi]. left.
    exists (mkTask i 0 f). split; [|done]. apply list_elem_of_fmap. exists (i, f). split; [done|].
    unfold enumerate. apply elem_of_lookup_imap. exists (Z.to_nat i), f. split; [f_equal; lia|done].
Qed.

Lemma steps_sinv es s s' : sinv s → steps es s = Some s' → sinv s'.
Proof. intros Hs. unfold steps. apply foldM_inv; [|done]. intros e c c' _ ?. by apply step_sinv. Qed.

(** The phases of the coordinator.  In every reachable state, once the
    phase is past map every map task is marked finished, so no reduce task is
    handed out before; during the map phase every map task waits in the channel
    or has an entry in the table, and the same for the reduce tasks in the
    reduce phase, so no task is ever lost; and [Done] holds exactly in the last
    phase, when every reduce task is marked finished. *)
Theorem coordinator_phases files R es s :
  files ≠ [] → 0 < R → steps es (init files R) = Some s →
  let c := co s in
  (State c = 0 → ∀ i, 0 ≤ i < NumMapTasks c → accounted MapId (MapTask c) (MapTaskStates c) i) ∧
  (State c ≠ 0 → ∀ i, 0 ≤ i < NumMapTasks c → finished (MapTaskStates c) i) ∧
  (State c = 1 → ∀ r, 0 ≤ r < NumReduceTasks c → accounted ReduceId (ReduceTask c) (ReduceTaskStates c) r) ∧
  (Done c = true ↔ State c = 2) ∧
  (Done c = true → ∀ r, 0 ≤ r < NumReduceTasks c → finished (ReduceTaskStates c) r).
Proof.
  intros Hf HR H c. destruct (steps_sinv es _ _ (init_sinv files R Hf HR) H) as [Hc _]. fold c in Hc.
  destruct Hc as [Hf' Hm Hr Hst Hmq Hrq Hmw Hrw H0 H12 H1 H2]. unfold Done. rewrite Z.eqb_eq.
  split_and!.
  - intros E. by apply H0.
  - intros E%H12. by rewrite lenTaskFin_all in E by (lia || done).
  - intros E. by apply H1.
  - split; [|done]. intros E. destruct Hst as [E0|[E1|?]]; [|by apply H1 in E1 as [_ ?]|done].
    destruct (H0 E0) as (_ & _ & _ & Hrs). rewrite Hrs in E. unfold lenTaskFin in E.
    rewrite map_filter_empty, map_size_empty in E. lia.
  - intros E. by rewrite lenTaskFin_all in E by (lia || done).
Qed.

(** ** Timeouts *)

Lemma tickBody_map now c i :
  (overdue now (MapTaskStates c) i = true → is_Some (idx (cfiles c) i)) →
  zlen (MapTask c) < NumMapTasks c →
  ∃ ts, tickBody 0 now c i = Some (setMap (MapTask c ++ ts) (MapTaskStates c) c) ∧
    MapId <$> ts = (if overdue now (MapTaskStates c) i then [i] else []) ∧
    (length ts ≤ 1)%nat.
Proof.
  intros Hn Hroom. unfold tickBody. simpl. destruct (overdue _ _ _) eqn:E.
  - destruct (Hn eq_refl) as [name ->]. simpl. rewrite send_room by done. simpl.
    exists [mkTask i 0 name]. done.
  - exists []. rewrite app_nil_r. split; [by destruct c|]. split; [done|simpl; lia].
Qed.

(** [TimeTick] hands overdue tasks out again.  In the map phase, with room
    in the channel for every task, one run appends to it exactly the assigned,
    unfinished map tasks older than the timeout, in order, and changes nothing
    else. *)
Theorem TimeTick_requeues now c :
  State c = 0 → NumMapTasks c = zlen (cfiles c) → MapTask c = [] →
  ∃ ts, TimeTick now c = Some (setMap ts (MapTaskStates c) c) ∧
    MapId <$> ts = filter (λ i, overdue now (MapTaskStates c) i = true) (range 0 (NumMapTasks c)).
Proof.
  intros Hst Hn Hq. unfold TimeTick, tickBound. rewrite Hst. simpl.
  assert (∀ k : nat, Z.of_nat k ≤ NumMapTasks c → ∃ ts,
    foldM (tickBody 0 now) (range 0 (Z.of_nat k)) c = Some (setMap ts (MapTaskStates c) c) ∧
    MapId <$> ts = filter (λ i, overdue now (MapTaskStates c) i = true) (range 0 (Z.of_nat k)) ∧
    zlen ts ≤ Z.of_nat k) as Hloop.
  { induction k as [|k IH]; intros Hk.
    { exists []. simpl. split_and!; [rewrite <- Hq; by destruct c|done|done]. }
    destruct IH as (ts & Hts & Hids & Hlen); [lia|].
    rewrite range_snoc by lia. replace (Z.of_nat (S k) - 1) with (Z.of_nat k) by lia.
    rewrite foldM_app, Hts. simpl.
    destruct (tickBody_map now (setMap ts (MapTaskStates c) c) (Z.of_nat k)) as (ts' & -> & Hids' & Hlen').
    { intros _. simpl. apply idx_is_Some. lia. }
    { simpl. lia. }
    exists (ts ++ ts'). simpl. split_and!; [done| |].
    - rewrite fmap_app, filter_app, Hids, Hids'. f_equal. simpl. rewrite filter_cons, filter_nil.
      by destruct (overdue _ _ _).
    - rewrite zlen_app. unfold zlen in *. lia. }
  destruct (Hloop (Z.to_nat (NumMapTasks c))) as (ts & Hts & Hids & _); [rewrite Hn; pose proof (zlen_nonneg (cfiles c)); lia|].
  rewrite Z2Nat.id in Hts, Hids by (rewrite Hn; apply zlen_nonneg). eauto.
Qed.

(** ** A report of a map task taken for a reduce task *)

(** One file, one reduce task.  The map task is handed out at time 0, is overdue
    at 11 and handed out again at 12; both workers report it within the timeout
    of the second, the later report after the reduce task was handed out. *)
Definition earlyEnd : list event :=
  [EvGetTask 0; EvTick 11; EvTickNext; EvTickNext; EvGetTask 12; EvTaskFin 13 0; EvGetTask 14; EvTaskFin 15 1].

(** C39: the job can end without its output.  There is a run in which only map
    tasks are ever reported and [Done] is true, so the coordinator exits and the
    workers are told that everything is finished although the reduce task was
    never reported; if the second report comes before the reduce task is handed
    out, the coordinator panics instead. *)
Theorem map_report_ends_reduce :
  (∃ s, steps earlyEnd (init ["f"] 1)%string = Some s ∧ Done (co s) = true ∧
     Forall (λ e, match e with
                  | EvTaskFin _ k => ∃ t, given s !! k = Some t ∧ FileName t = "f"%string
                  | _ => True
                  end) earlyEnd) ∧
  (∃ s t, steps [EvGetTask 0; EvTick 11; EvTickNext; EvTickNext; EvGetTask 12; EvTaskFin 13 0]
            (init ["f"] 1)%string = Some s ∧
     given s !! 1%nat = Some t ∧ TaskFin 14 t (co s) = None).
Proof.
  split.
  - eexists. split; [vm_compute; reflexivity|]. split; [vm_compute; reflexivity|].
    unfold earlyEnd. repeat (apply Forall_cons; split); try done; try (eexists; split; reflexivity).
  - eexists _, _. split; [vm_compute; reflexivity|]. split; vm_compute; reflexivity.
Qed.

Lemma coordinator_phases_witness :
  ∃ s, steps [EvGetTask 0; EvTaskFin 5 0] (init ["f"] 1)%string = Some s ∧
    finished (MapTaskStates (co s)) 0.
Proof.
  eexists. split; [vm_compute; reflexivity|].
  edestruct (coordinator_phases ["f"]%string 1 [EvGetTask 0; EvTaskFin 5 0]) as (_ & H & _);
    [done|lia|vm_compute; reflexivity|]. apply H; [done|]. simpl. lia.
Defined.

Lemma TimeTick_requeues_witness :
  ∃ ts, TimeTick 11 (GetTask 0 (MakeCoordinator ["f"]%string 1)).2
    = Some (setMap ts {[0 := mkTaskState 0 false]} (GetTask 0 (MakeCoordinator ["f"]%string 1)).2) ∧
    MapId <$> ts = [0].
Proof.
  destruct (TimeTick_requeues 11 (GetTask 0 (MakeCoordinator ["f"]%string 1)).2) as (ts & H & Hids);
    [reflexivity|reflexivity|reflexivity|]. exists ts. split; [exact H|exact Hids].
Defined.
