(* ===== verification/MrSystem.v ===== *)
(** * MapReduce: the whole job

    The loop [Worker] of [mr/worker.go] run by any number of workers against the
    coordinator and one file system, with workers that die at any point, in the
    middle of writing their files too, calls that fail before or after the
    coordinator executed them, and tasks that time out and are handed out again.  The
    handlers of the coordinator and its main goroutine interleave step by step
    ([MrCoordinator]).  When [Done] has returned true, the output files are those of the
    sequential program, provided no report of a map task finds the map phase over
    ([MrCoordinatorFacts] shows what such a report does). *)

From stdpp Require Import pretty.
From S2P Require Import Prelude Json MrWorker MrEquivalence MrCoordinator MrCoordinatorFacts.
Open Scope go_scope.

(** ** The workers *)

(** The program points of [Worker]. *)
Inductive worker_pc :=
  | WIdle                          (* CallGetTask *)
  | WAsking (k : nat)              (* it waits for the reply of the k-th handler *)
  | WMap (reply : TaskResponse)    (* DoMap *)
  | WReduce (reply : TaskResponse) (* DoReduce *)
  | WReport (reply : TaskResponse) (* CallTaskFin *)
  | WReporting (k : nat)           (* it waits for the k-th handler *)
  | WExit                          (* the loop ended *)
  | WDead.                         (* the process died *)

(** The tests of the loop on the reply of [GetTask]. *)
Definition dispatchTask (reply : TaskResponse) : worker_pc :=
  if (0 <=? CurNumMapTasks reply) && (tr_State reply =? 0) then WMap reply
  else if (0 <=? CurNumReduceTasks reply) && (tr_State reply =? 1) then WReduce reply
  else if tr_State reply =? 2 then WExit
  else WIdle.

(** ** The calls of a worker *)

(** A handler of the coordinator: its arguments (of [TaskFin]), whether it is the report of
    a map task, and its program point. *)
Record handler := mkHandler { hd_args : Task; hd_map : bool; hd_pc : handler_pc }.

(** What can become of a call when it is made: the coordinator cannot be reached and
    [log.Fatal] ends the worker, the request is lost and [call] returns false, or the
    coordinator starts a handler. *)
Inductive call_start := DialFails | RequestLost | Served.

(** [func call(rpcname string, args interface{}, reply interface{}) bool] up to [c.Call]: the
    worker goes on at [waits k], with the [k]-th handler for its call, at [failed], or has died. *)
Definition call (o : call_start) (h : handler) (waits : nat → worker_pc) (failed : worker_pc) (hs : list handler)
    : worker_pc * list handler :=
  match o with
  | DialFails => (WDead, hs)
  | RequestLost => (failed, hs)
  | Served => (waits (length hs), hs ++ [h])
  end.

(** [reply := TaskResponse{}] *)
Definition zeroResponse : TaskResponse := mkTaskResponse (mkTask 0 0 EmptyString) 0 0 0 0 0.

(** [func CallGetTask(args *TaskRequest, reply *TaskResponse)]: the reply is looked at whether the call
    succeeded or not; after a failure it is as it was made. *)
Definition CallGetTask (o : call_start) : list handler → worker_pc * list handler :=
  call o (mkHandler noTask false GStart) WAsking (dispatchTask zeroResponse).

(** [func CallTaskFin(args *Task)] of the branch for map tasks, or for reduce tasks. *)
Definition CallTaskFin (o : call_start) (reply : TaskResponse) : list handler → worker_pc * list handler :=
  call o (mkHandler (XTask reply) (tr_State reply =? 0) FStart) WReporting WIdle.

(** [c.Call] returns: with the reply of the handler, or with an error, which it can at any
    time, while the handler goes on. *)
Definition returns (ok : bool) (pc : worker_pc) (hs : list handler) : option worker_pc :=
  match pc with
  | WAsking k =>
      if ok then h ← hs !! k; match hd_pc h with GReturned reply => Some (dispatchTask reply) | _ => None end
      else Some (dispatchTask zeroResponse)
  | WReporting k =>
      if ok then h ← hs !! k; match hd_pc h with FReturned => Some WIdle | _ => None end
      else Some WIdle
  | _ => None
  end.

Section system.
Context `{!GoSort}.
Context (mapf : string → string → list KeyValue) (reducef : string → list string → string).

(** The coordinator with its main goroutine and its handlers, the workers and the files. *)
Record mrsystem := mkMrsystem {
  ms_co : Coordinator;
  ms_main : main_pc;
  ms_handlers : list handler;
  ms_workers : list worker_pc;
  ms_files : files;
}.

Inductive mrevent :=
  | EvAsk (w : nat) (o : call_start)
  | EvExec (w : nat)
  | EvReport (w : nat) (o : call_start)
  | EvReturns (w : nat) (ok : bool)
  | EvDie (w : nat)
  | EvDieWriting (w k : nat)                        (* after k of the renames of DoMap *)
  | EvHandler (h : nat) (now : Z) (k : option Z)
  | EvMain (now : Z) (k : option Z).

Definition setWorker (w : nat) (pc : worker_pc) (s : mrsystem) : mrsystem :=
  mkMrsystem (ms_co s) (ms_main s) (ms_handlers s) (<[w := pc]> (ms_workers s)) (ms_files s).
Definition setHandlers (hs : list handler) (s : mrsystem) : mrsystem :=
  mkMrsystem (ms_co s) (ms_main s) hs (ms_workers s) (ms_files s).
Definition setCo (c : Coordinator) (s : mrsystem) : mrsystem :=
  mkMrsystem c (ms_main s) (ms_handlers s) (ms_workers s) (ms_files s).
Definition setMain (pc : main_pc) (s : mrsystem) : mrsystem :=
  mkMrsystem (ms_co s) pc (ms_handlers s) (ms_workers s) (ms_files s).
Definition setFiles (fs : files) (s : mrsystem) : mrsystem :=
  mkMrsystem (ms_co s) (ms_main s) (ms_handlers s) (ms_workers s) fs.

(** [DoMap] up to the [k]-th rename. *)
Definition DoMapWriting (k : nat) (reply : TaskResponse) (fs : files) : option files :=
  let task := XTask reply in
  content ← inputs fs !! FileName task;
  buckets ← foldM (addToBucket (tr_NumReduceTasks reply)) (mapf (FileName task) content)
              (replicate (Z.to_nat (tr_NumReduceTasks reply)) []);
  Some (writeBuckets (MapId task) (take k buckets) fs).

(** A task that fails ends the process with [log.Fatalf]. *)
Definition execute (w : nat) (reply : TaskResponse) (o : option files) (s : mrsystem) : mrsystem :=
  match o with
  | Some fs => setWorker w (WReport reply) (setFiles fs s)
  | None => setWorker w WDead s
  end.

Definition mrstep (e : mrevent) (s : mrsystem) : option mrsystem :=
  match e with
  | EvAsk w o =>
      match ms_workers s !! w with
      | Some WIdle => let (pc, hs) := CallGetTask o (ms_handlers s) in Some (setWorker w pc (setHandlers hs s))
      | _ => None
      end
  | EvExec w =>
      match ms_workers s !! w with
      | Some (WMap reply) => Some (execute w reply (DoMap mapf reply (ms_files s)) s)
      | Some (WReduce reply) => Some (execute w reply (DoReduce reducef reply (ms_files s)) s)
      | _ => None
      end
  | EvReport w o =>
      match ms_workers s !! w with
      | Some (WReport reply) =>
          let (pc, hs) := CallTaskFin o reply (ms_handlers s) in Some (setWorker w pc (setHandlers hs s))
      | _ => None
      end
  | EvReturns w ok =>
      pc ← ms_workers s !! w;
      pc' ← returns ok pc (ms_handlers s);
      Some (setWorker w pc' s)
  | EvDie w => pc ← ms_workers s !! w; Some (setWorker w WDead s)
  | EvDieWriting w k =>
      match ms_workers s !! w with
      | Some (WMap reply) => fs ← DoMapWriting k reply (ms_files s); Some (setWorker w WDead (setFiles fs s))
      | _ => None
      end
  | EvHandler i now k =>
      h ← ms_handlers s !! i;
      '(pc, c) ← handlerStep now k (hd_args h) (hd_pc h) (ms_co s);
      Some (setCo c (setHandlers (<[i := mkHandler (hd_args h) (hd_map h) pc]> (ms_handlers s)) s))
  | EvMain now k =>
      '(pc, c) ← mainStep now k (ms_main s) (ms_co s);
      Some (setCo c (setMain pc s))
  end.

(** The report of a map task finds all map tasks finished: its first [lenTaskFin] returns
    their number. *)
Definition lateReport (e : mrevent) (s : mrsystem) : bool :=
  match e with
  | EvHandler i _ None =>
      match ms_handlers s !! i with
      | Some (mkHandler _ true (FMapRange _ (Some q))) => cn_len q =? NumMapTasks (ms_co s)
      | _ => false
      end
  | _ => false
  end.

(** Runs without such a report. *)
Definition timelySteps (es : list mrevent) (s : mrsystem) : option mrsystem :=
  foldM (λ s e, if lateReport e s then None else mrstep e s) es s.

(** [n] workers just started. *)
Definition startJob (names : list string) (R : Z) (n : nat) (fs : files) : mrsystem :=
  mkMrsystem (MakeCoordinator names R) MStart [] (replicate n WIdle) fs.
End system.

(** ** The invariant *)

Section correctness.
Context {sorter : GoSort} {laws : GoSortLaws}.
Context (mapf : string → string → list KeyValue) (reducef : string → list string → string).
Context (names : list string) (R : Z) (HR : 0 < R) (Hnames : names ≠ []).
Context (ins : gmap string string) (Hins : ∀ name, name ∈ names → is_Some (ins !! name)).
Context (Hempty : ins !! EmptyString = None).
Context (Hutf8 : ∀ name content, name ∈ names → ins !! name = Some content → Forall utf8Pair (mapf name content)).
Implicit Types (s : mrsystem) (c : Coordinator) (fs : files) (reply : TaskResponse) (h : handler).

Local Abbreviation mapDone := (mapDone mapf names R ins).
Local Abbreviation expected := (expected mapf reducef names R ins).

(** Map task [i] has been handed out and has written its files; reduce task [r] has been handed
    out and has written its file.  None of this is ever undone. *)
Definition mapWritten c fs (i : Z) : Prop := 0 ≤ i < zlen names ∧ mapDone fs i ∧ is_Some (MapTaskStates c !! i).
Definition reduceWritten c fs (r : Z) : Prop :=
  0 ≤ r < R ∧ outs fs !! r = Some (expected r) ∧ is_Some (ReduceTaskStates c !! r).
Definition allMaps c fs : Prop := ∀ i, 0 ≤ i < zlen names → mapWritten c fs i.
Definition allReduces c : Prop := ∀ r, 0 ≤ r < R → is_Some (ReduceTaskStates c !! r).

(** The tasks in the channels. *)
Definition goodMap (t : Task) : Prop := idx names (MapId t) = Some (FileName t).
Definition goodReduce c fs (t : Task) : Prop := MapId t = 0 ∧ 0 ≤ ReduceId t < R ∧ allMaps c fs.

Record coOk c fs : Prop := {
  co_files : cfiles c = names;
  co_maps : NumMapTasks c = zlen names;
  co_reduces : NumReduceTasks c = R;
  co_mapq t : t ∈ MapTask c → goodMap t;
  co_redq t : t ∈ ReduceTask c → goodReduce c fs t;
  co_mapst i ts : MapTaskStates c !! i = Some ts → 0 ≤ i < zlen names ∧ (ts_Fin ts = true → mapDone fs i);
  co_redst r ts : ReduceTaskStates c !! r = Some ts → 0 ≤ r < R ∧ (ts_Fin ts = true → outs fs !! r = Some (expected r));
  co_past : State c ≠ 0 → allMaps c fs;
  co_done : State c ≠ 0 → State c ≠ 1 → allReduces c;
}.

(** The reply hands out a map task, or a reduce task. *)
Definition givesMap reply : Prop :=
  tr_State reply = 0 ∧ goodMap (XTask reply) ∧ tr_NumReduceTasks reply = R.
Definition givesReduce reply : Prop :=
  tr_State reply = 1 ∧ MapId (XTask reply) = 0 ∧ 0 ≤ ReduceId (XTask reply) < R ∧ tr_NumMapTasks reply = zlen names.

(** What a worker holds. *)
Definition workerOk c fs (pc : worker_pc) : Prop :=
  match pc with
  | WMap reply => givesMap reply ∧ is_Some (MapTaskStates c !! MapId (XTask reply)) ∨ reply = zeroResponse
  | WReduce reply => givesReduce reply ∧ allMaps c fs ∧ is_Some (ReduceTaskStates c !! ReduceId (XTask reply))
  | WReport reply =>
      givesMap reply ∧ mapWritten c fs (MapId (XTask reply)) ∨
      givesReduce reply ∧ allMaps c fs ∧ reduceWritten c fs (ReduceId (XTask reply))
  | _ => True
  end.

(** What a [TaskFin] knows of the task it reports. *)
Definition reportOk c fs h : Prop :=
  if hd_map h then mapWritten c fs (MapId (hd_args h))
  else MapId (hd_args h) = 0 ∧ allMaps c fs ∧ reduceWritten c fs (ReduceId (hd_args h)).

(** A [lenTaskFin] under way has counted different keys with [P]. *)
Definition rangeOk (P : Z → Prop) (q : option counting) : Prop :=
  match q with
  | None => True
  | Some q => ∃ fin, NoDup fin ∧ zlen fin = cn_len q ∧ ∀ k, k ∈ fin → k ∈ cn_visited q ∧ P k
  end.

Definition handlerOk c fs h : Prop :=
  match hd_pc h with
  | GMapStore t => goodMap t
  | GMapLeft t => goodMap t ∧ is_Some (MapTaskStates c !! MapId t)
  | GReduces t nm => nm < 0 ∨ goodMap t ∧ is_Some (MapTaskStates c !! MapId t)
  | GState st | GReduceLen st | GReduceRecv st => st ≠ 0 ∧ State c ≠ 0
  | GReduceStore st t => st ≠ 0 ∧ goodReduce c fs t
  | GReduceLeft st t => st ≠ 0 ∧ goodReduce c fs t ∧ is_Some (ReduceTaskStates c !! ReduceId t)
  | GReturned reply => workerOk c fs (dispatchTask reply)
  | GStart | GMapLen | GMapRecv | FReturned => True
  | FStart | FMapLoad _ | FMapStore _ => reportOk c fs h
  | FMapRange _ q => reportOk c fs h ∧ rangeOk (mapWritten c fs) q
  | FMapAgain q => rangeOk (mapWritten c fs) q
  | FSetReduce => allMaps c fs
  | FSend i => 0 ≤ i ∧ allMaps c fs
  | FReduceRange _ q => reportOk c fs h ∧ hd_map h = false ∧ rangeOk (reduceWritten c fs) q
  | FReduceLoad _ | FReduceStore _ => reportOk c fs h ∧ hd_map h = false
  | FReduceAgain q => allMaps c fs ∧ rangeOk (reduceWritten c fs) q
  | FSetDone => allMaps c fs ∧ allReduces c
  | FPanic => False
  end.

Definition mainOk c fs (pc : main_pc) : Prop :=
  match pc with
  | MStart => True
  | MTick st _ i => 0 ≤ i ∧ (st ≠ 0 → allMaps c fs)
  | MSend st _ i => 0 ≤ i ∧ i < tickBound st c ∧ (st ≠ 0 → allMaps c fs)
  | MRange q => rangeOk (reduceWritten c fs) q
  | MReturned b => b = true → ∀ r, 0 ≤ r < R → outs fs !! r = Some (expected r)
  end.

Record minv s : Prop := {
  mi_co : coOk (ms_co s) (ms_files s);
  mi_inputs : inputs (ms_files s) = ins;
  mi_main : mainOk (ms_co s) (ms_files s) (ms_main s);
  mi_handlers k h : ms_handlers s !! k = Some h → handlerOk (ms_co s) (ms_files s) h;
  mi_workers w pc : ms_workers s !! w = Some pc → workerOk (ms_co s) (ms_files s) pc;
}.

(** The files only get better. *)
Definition improves fs fs' : Prop :=
  inputs fs' = inputs fs ∧ (∀ i, mapDone fs i → mapDone fs' i) ∧
  (∀ r, outs fs !! r = Some (expected r) → outs fs' !! r = Some (expected r)).

(** The tables only grow, and the map phase does not come back. *)
Definition grows c c' : Prop :=
  (State c ≠ 0 → State c' ≠ 0) ∧ (∀ i, is_Some (MapTaskStates c !! i) → is_Some (MapTaskStates c' !! i)) ∧
  (∀ r, is_Some (ReduceTaskStates c !! r) → is_Some (ReduceTaskStates c' !! r)) ∧
  NumMapTasks c' = NumMapTasks c ∧ NumReduceTasks c' = NumReduceTasks c.

Lemma grows_refl c : grows c c.
Proof. by split. Qed.

Lemma improves_refl fs : improves fs fs.
Proof. by split. Qed.

Section mono.
Context (c c' : Coordinator) (fs fs' : files) (Hc : grows c c') (Hfs : improves fs fs').

Lemma mapWritten_mono i : mapWritten c fs i → mapWritten c' fs' i.
Proof. intros (? & ? & ?). destruct Hc as (_ & ? & _), Hfs as (_ & ? & _). split; [done|]. auto. Qed.

Lemma reduceWritten_mono r : reduceWritten c fs r → reduceWritten c' fs' r.
Proof. intros (? & ? & ?). destruct Hc as (_ & _ & ? & _), Hfs as (_ & _ & ?). split; [done|]. auto. Qed.

Lemma allMaps_mono : allMaps c fs → allMaps c' fs'.
Proof. intros H i Hi. by apply mapWritten_mono, H. Qed.

Lemma allReduces_mono : allReduces c → allReduces c'.
Proof. intros H r Hr. destruct Hc as (_ & _ & Hg & _). by apply Hg, H. Qed.

Lemma goodReduce_mono t : goodReduce c fs t → goodReduce c' fs' t.
Proof. intros (? & ? & ?). split; [done|]. auto using allMaps_mono. Qed.

Lemma reportOk_mono h : reportOk c fs h → reportOk c' fs' h.
Proof. unfold reportOk. destruct (hd_map h); [apply mapWritten_mono|]. intros (? & ? & ?). auto using allMaps_mono, reduceWritten_mono. Qed.

Lemma rangeOk_mono (P Q : Z → Prop) q : (∀ k, P k → Q k) → rangeOk P q → rangeOk Q q.
Proof. intros HPQ. destruct q as [q|]; [|done]. intros (fin & ? & ? & Hfin). exists fin. split_and!; [done|done|]. intros k Hk. destruct (Hfin k Hk). auto. Qed.

Lemma workerOk_mono pc : workerOk c fs pc → workerOk c' fs' pc.
Proof.
  pose proof Hc as (_ & Hm & Hr & _). intros H. destruct pc as [| |reply|reply|reply| | |]; simpl in *; try done.
  - destruct H as [[? ?]|?]; auto.
  - destruct H as (? & ? & ?). auto using allMaps_mono.
  - destruct H as [[? ?]|(? & ? & ?)]; [left|right]; auto using mapWritten_mono, allMaps_mono, reduceWritten_mono.
Qed.

Lemma handlerOk_mono h : handlerOk c fs h → handlerOk c' fs' h.
Proof.
  pose proof Hc as (Hs & Hm & Hr & _). unfold handlerOk. destruct (hd_pc h); try done;
    repeat match goal with |- _ ∧ _ → _ => intros [? ?] | |- _ ∨ _ → _ => intros [?|?]
                         | H : _ ∧ _ |- _ => destruct H end; intros;
    eauto 8 using workerOk_mono, reportOk_mono, allMaps_mono, allReduces_mono, goodReduce_mono,
      rangeOk_mono, mapWritten_mono, reduceWritten_mono.
Qed.

Lemma tickBound_mono st : tickBound st c' = tickBound st c.
Proof. destruct Hc as (_ & _ & _ & E1 & E2). unfold tickBound. by rewrite E1, E2. Qed.

Lemma mainOk_mono pc : mainOk c fs pc → mainOk c' fs' pc.
Proof.
  destruct pc as [|st now i|st now i|q|b]; simpl; rewrite ?tickBound_mono.
  - done.
  - intros [? ?]. auto using allMaps_mono.
  - intros (? & ? & ?). auto using allMaps_mono.
  - eauto using rangeOk_mono, reduceWritten_mono.
  - destruct Hfs as (_ & _ & Ho). auto.
Qed.
End mono.

Lemma DoMap_spec reply fs :
  givesMap reply → inputs fs = ins →
  ∃ fs', DoMap mapf reply fs = Some fs' ∧ improves fs fs' ∧ mapDone fs' (MapId (XTask reply)).
Proof.
  intros (_ & Hn & HRr) Hi. pose proof (idx_lt _ _ _ Hn) as Hr.
  destruct (runJob_map mapf reducef names R HR ins Hins fs _ Hi Hr) as (fs' & E & Hi' & Ho' & Hd & Hk).
  simpl in E. rewrite Hn in E. simpl in E.
  exists fs'. unfold DoMap in *. simpl in E. rewrite HRr. split; [exact E|]. split; [|done].
  split_and!; [congruence|done|by rewrite Ho'].
Qed.

Lemma DoReduce_spec reply c fs :
  givesReduce reply → allMaps c fs →
  ∃ fs', DoReduce reducef reply fs = Some fs' ∧ improves fs fs' ∧
    outs fs' !! ReduceId (XTask reply) = Some (expected (ReduceId (XTask reply))).
Proof.
  intros (_ & _ & Hr & Hn) Hall.
  pose proof (runJob_reduce mapf reducef names R ins Hutf8 fs _ Hr (λ i Hi, proj1 (proj2 (Hall i Hi)))) as E.
  simpl in E. eexists. unfold DoReduce in *. simpl in E. rewrite Hn. split; [exact E|]. simpl. split.
  - split_and!; try done. intros r Ho. simpl. destruct (decide (ReduceId (XTask reply) = r)) as [<-|?];
      [by rewrite lookup_insert_eq|by rewrite lookup_insert_ne].
  - by rewrite lookup_insert_eq.
Qed.

(** A worker that dies while it writes leaves files a finished one would have written. *)
Lemma writeBuckets_none mapId buckets fs i r :
  idx buckets r = None → inter (writeBuckets mapId buckets fs) !! (i, r) = inter fs !! (i, r).
Proof.
  intros Hr. unfold writeBuckets, enumerate. simpl.
  induction buckets as [|x l IH] using rev_ind; [done|].
  rewrite imap_app, foldl_app. simpl. rewrite Nat.add_0_r.
  assert (r ≠ zlen l) as Hne by (intros ->; by rewrite idx_app_r, Z.sub_diag in Hr by lia).
  rewrite lookup_insert_ne by (unfold zlen in *; congruence). apply IH.
  unfold idx in *. destruct (0 <=? r); [|done]. apply lookup_ge_None in Hr. apply lookup_ge_None.
  rewrite length_app in Hr. simpl in Hr. lia.
Qed.

Lemma DoMapWriting_improves k reply fs fs' :
  givesMap reply → inputs fs = ins → DoMapWriting mapf k reply fs = Some fs' → improves fs fs'.
Proof.
  intros (_ & Hn & HRr) Hi H. unfold DoMapWriting in H. rewrite HRr, Hi in H.
  destruct (ins !! FileName (XTask reply)) as [content|] eqn:Hc; [|done]. simpl in H.
  destruct (make_buckets R HR (mapf (FileName (XTask reply)) content)) as (bs & Hbs & _ & Hlook).
  rewrite Hbs in H. simpl in H. injection H as <-. split_and!; [done| |done].
  intros i Hd r Hr. destruct (decide (i = MapId (XTask reply))) as [->|?]; [|rewrite writeBuckets_other by done; by apply Hd].
  destruct (idx (take k bs) r) as [b|] eqn:E; [|rewrite writeBuckets_none by done; by apply Hd].
  rewrite (writeBuckets_lookup _ _ _ _ _ E). f_equal.
  assert (idx bs r = Some b) as E'.
  { apply idx_Some in E as [? E]. apply idx_Some. split; [done|].
    eapply prefix_lookup_Some; [exact E|apply prefix_take]. }
  rewrite Hlook in E' by done. injection E' as <-. unfold pairs. rewrite Hn. simpl. by rewrite Hc.
Qed.

(** *** The coordinator *)

Lemma coOk_setMap c fs ch m :
  coOk c fs → (∀ t, t ∈ ch → goodMap t) →
  (∀ i ts, m !! i = Some ts → 0 ≤ i < zlen names ∧ (ts_Fin ts = true → mapDone fs i)) →
  (∀ i, is_Some (MapTaskStates c !! i) → is_Some (m !! i)) → coOk (setMap ch m c) fs ∧ grows c (setMap ch m c).
Proof.
  intros Hco Hq Hst Hdom. assert (grows c (setMap ch m c)) as Hg by by split_and!. split; [|exact Hg].
  pose proof (allMaps_mono c _ fs fs Hg (improves_refl fs)) as Hall.
  destruct Hco as [? ? ? ? Hrq ? ? Hpast ?]. split; simpl; try done; [|auto].
  intros t (? & ? & ?)%Hrq. split; auto.
Qed.

Lemma coOk_setReduce c fs ch m :
  coOk c fs → (∀ t, t ∈ ch → goodReduce c fs t) →
  (∀ r ts, m !! r = Some ts → 0 ≤ r < R ∧ (ts_Fin ts = true → outs fs !! r = Some (expected r))) →
  (∀ r, is_Some (ReduceTaskStates c !! r) → is_Some (m !! r)) → coOk (setReduce ch m c) fs ∧ grows c (setReduce ch m c).
Proof.
  intros Hco Hq Hst Hdom. assert (grows c (setReduce ch m c)) as Hg by by split_and!. split; [|exact Hg].
  pose proof (allMaps_mono c _ fs fs Hg (improves_refl fs)) as Hall. pose proof (allReduces_mono c _ Hg) as Hr.
  destruct Hco as [? ? ? ? Hrq ? ? Hpast Hdone]. split; simpl; try done; auto.
Qed.

Lemma coOk_setState c fs st :
  coOk c fs → st ≠ 0 → allMaps c fs → (st ≠ 1 → allReduces c) → coOk (setState st c) fs ∧ grows c (setState st c).
Proof. intros Hco Hst Hall Hr. split; [|by split_and!]. destruct Hco. split; simpl; try done; auto. Qed.

(** A state is stored. *)
Lemma storeMap_ok c fs ch i ts :
  coOk c fs → (∀ t, t ∈ ch → goodMap t) → 0 ≤ i < zlen names → (ts_Fin ts = true → mapDone fs i) →
  let c' := setMap ch (<[i := ts]> (MapTaskStates c)) c in coOk c' fs ∧ grows c c' ∧ is_Some (MapTaskStates c' !! i).
Proof.
  intros Hco Hq Hi Hd c'. assert (coOk c' fs ∧ grows c c') as [? ?]; [|split_and!; [done|done|simpl; rewrite lookup_insert_eq; by eexists]].
  apply coOk_setMap; [done|done| |].
  - intros j tj [[<- <-]|[_ Hj]]%lookup_insert_Some; [done|by eapply co_mapst].
  - intros j. destruct (decide (i = j)) as [<-|?]; [rewrite lookup_insert_eq; by eexists|by rewrite lookup_insert_ne].
Qed.

Lemma storeReduce_ok c fs ch r ts :
  coOk c fs → (∀ t, t ∈ ch → goodReduce c fs t) → 0 ≤ r < R → (ts_Fin ts = true → outs fs !! r = Some (expected r)) →
  let c' := setReduce ch (<[r := ts]> (ReduceTaskStates c)) c in coOk c' fs ∧ grows c c' ∧ is_Some (ReduceTaskStates c' !! r).
Proof.
  intros Hco Hq Hr Hd c'. assert (coOk c' fs ∧ grows c c') as [? ?]; [|split_and!; [done|done|simpl; rewrite lookup_insert_eq; by eexists]].
  apply coOk_setReduce; [done|done| |].
  - intros j tj [[<- <-]|[_ Hj]]%lookup_insert_Some; [done|by eapply co_redst].
  - intros j. destruct (decide (r = j)) as [<-|?]; [rewrite lookup_insert_eq; by eexists|by rewrite lookup_insert_ne].
Qed.

(** A task is sent or received. *)
Lemma queueMap_ok c fs ch :
  coOk c fs → (∀ t, t ∈ ch → goodMap t) → coOk (setMap ch (MapTaskStates c) c) fs ∧ grows c (setMap ch (MapTaskStates c) c).
Proof. intros Hco Hq. apply coOk_setMap; [done|done|apply Hco|done]. Qed.

Lemma queueReduce_ok c fs ch :
  coOk c fs → (∀ t, t ∈ ch → goodReduce c fs t) →
  coOk (setReduce ch (ReduceTaskStates c) c) fs ∧ grows c (setReduce ch (ReduceTaskStates c) c).
Proof. intros Hco Hq. apply coOk_setReduce; [done|done|apply Hco|done]. Qed.

Lemma send_elem cap ch t ch' : send cap ch t = Some ch' → ∀ x, x ∈ ch' → x ∈ ch ∨ x = t.
Proof. unfold send. destruct (_ <? _); [|done]. intros [= <-] x. set_solver. Qed.

(** ** Counting *)

Lemma rangeStep_ok (P : Z → Prop) k m q r :
  rangeStep k m q = Some r → (∀ key ts, m !! key = Some ts → ts_Fin ts = true → P key) → rangeOk P q →
  match r with
  | inl q' => rangeOk P (Some q')
  | inr n => ∃ fin, NoDup fin ∧ zlen fin = n ∧ (∀ x, x ∈ fin → P x) ∧ ∃ q0, q = Some q0 ∧ cn_len q0 = n ∧ k = None
  end.
Proof.
  intros H HP Hq. destruct q as [q|], k as [key|]; simpl in H; try done.
  - destruct (decide (key ∈ cn_visited q)) as [|Hv]; [done|]. apply bind_Some in H as (ts & Hts & [= <-]).
    destruct Hq as (fin & Hnd & Hl & Hfin). destruct (ts_Fin ts) eqn:Ef.
    + exists (key :: fin). split_and!; [constructor; [by intros [? _]%Hfin|done]|rewrite zlen_cons; simpl; lia|].
      intros x [->|[? ?]%Hfin]%elem_of_cons; simpl; [split; [set_solver|eauto]|set_solver].
    + exists fin. split_and!; [done|done|]. intros x [? ?]%Hfin. simpl. set_solver.
  - destruct (decide (_ ⊆ _)); [|done]. injection H as <-. destruct Hq as (fin & ? & ? & Hfin). exists fin.
    split_and!; [done|done|by intros x [_ ?]%Hfin|by exists q].
  - injection H as <-. exists []. split_and!; [constructor|done|set_solver].
Qed.

(** As many different numbers below [n] as there are, are all of them. *)
Lemma counted_all (P : Z → Prop) n fin :
  NoDup fin → zlen fin = n → (∀ x, x ∈ fin → P x) → (∀ x, P x → 0 ≤ x < n) → ∀ x, 0 ≤ x < n → P x.
Proof.
  intros Hnd Hl HP Hr x Hx. apply HP. assert (fin ≡ₚ range 0 n) as ->; [|by apply elem_of_range].
  apply submseteq_length_Permutation.
  - apply NoDup_submseteq; [done|]. intros y Hy. apply elem_of_range, Hr, HP, Hy.
  - unfold range, zlen in *. rewrite length_seqZ. lia.
Qed.

Lemma mapRange_ok c fs k q r :
  coOk c fs → rangeStep k (MapTaskStates c) q = Some r → rangeOk (mapWritten c fs) q →
  match r with
  | inl q' => rangeOk (mapWritten c fs) (Some q')
  | inr n => (n = zlen names → allMaps c fs) ∧ ∃ q0, q = Some q0 ∧ cn_len q0 = n ∧ k = None
  end.
Proof.
  intros Hco H Hq. apply (rangeStep_ok (mapWritten c fs)) in H; [|intros key ts Hts Hf|done].
  - destruct r as [q'|n]; [done|]. destruct H as (fin & Hnd & Hl & Hfin & Hk). split; [|done]. intros E x Hx.
    apply (counted_all (mapWritten c fs) (zlen names) fin); [done|lia|done|by intros y (? & _)|done].
  - destruct (co_mapst _ _ Hco _ _ Hts) as [? Hd]. split; [done|]. split; [auto|by eexists].
Qed.

Lemma reduceRange_ok c fs k q r :
  coOk c fs → rangeStep k (ReduceTaskStates c) q = Some r → rangeOk (reduceWritten c fs) q →
  match r with
  | inl q' => rangeOk (reduceWritten c fs) (Some q')
  | inr n => n = R → ∀ x, 0 ≤ x < R → reduceWritten c fs x
  end.
Proof.
  intros Hco H Hq. apply (rangeStep_ok (reduceWritten c fs)) in H; [|intros key ts Hts Hf|done].
  - destruct r as [q'|n]; [done|]. destruct H as (fin & Hnd & Hl & Hfin & Hk). intros E x Hx.
    apply (counted_all (reduceWritten c fs) R fin); [done|lia|done|by intros y (? & _)|done].
  - destruct (co_redst _ _ Hco _ _ Hts) as [? Hd]. split; [done|]. split; [auto|by eexists].
Qed.

(** ** The steps of the handlers *)

(** Program points of [GetTask]. *)
Definition getting (pc : handler_pc) : bool :=
  match pc with
  | GStart | GMapLen | GMapRecv | GMapStore _ | GMapLeft _ | GReduces _ _ | GState _ | GReduceLen _ | GReduceRecv _
  | GReduceStore _ _ | GReduceLeft _ _ | GReturned _ => true
  | _ => false
  end.

(** A reply that hands out a task of the reduce phase. *)
Lemma reduce_reply c fs t nm nr st :
  coOk c fs → st ≠ 0 → goodReduce c fs t → is_Some (ReduceTaskStates c !! ReduceId t) →
  workerOk c fs (dispatchTask (mkTaskResponse t (NumMapTasks c) (NumReduceTasks c) nm nr st)).
Proof.
  intros Hco Hst (H0 & Hr & Hall) He. unfold dispatchTask. cbn [CurNumMapTasks CurNumReduceTasks tr_State].
  rewrite (proj2 (Z.eqb_neq st 0)) by done. rewrite andb_false_r. destruct (0 <=? nr), (Z.eqb_spec st 1) as [->|?]; simpl; try (by repeat case_match).
  split; [|done]. split_and!; simpl; try done; [lia..|apply Hco].
Qed.

Lemma idle_reply c fs t st :
  st ≠ 0 → workerOk c fs (dispatchTask (mkTaskResponse t (NumMapTasks c) (NumReduceTasks c) (-1) (-1) st)).
Proof. intros Hst. unfold dispatchTask. simpl. by destruct (st =? 2). Qed.

Lemma GetTask_steps now k args mp pc c pc' c' fs :
  handlerStep now k args pc c = Some (pc', c') → getting pc = true → coOk c fs → handlerOk c fs (mkHandler args mp pc) →
  coOk c' fs ∧ grows c c' ∧ handlerOk c' fs (mkHandler args mp pc').
Proof.
  intros H Hget Hco Hok. pose proof (grows_refl c) as Hrefl.
  destruct pc; try done; unfold handlerOk in *; simpl in H, Hok; clear Hget.
  - injection H as <- <-. split_and!; [done|done|]. destruct (Z.eqb_spec (State c) 0); simpl; done.
  - injection H as <- <-. split_and!; [done|done|]. destruct (_ =? 0); simpl; [left; lia|done].
  - destruct (MapTask c) as [|t ch] eqn:Eq; [done|]. injection H as <- <-.
    assert (∀ x, x ∈ t :: ch → goodMap x) as Hq by (rewrite <-Eq; apply Hco).
    destruct (queueMap_ok c fs ch Hco) as [? ?]; [set_solver|]. split_and!; [done|done|]. simpl. apply Hq. set_solver.
  - injection H as <- <-. destruct (storeMap_ok c fs (MapTask c) (MapId t) (mkTaskState now false) Hco) as (? & ? & ?);
      [apply Hco|by eapply idx_lt|done|]. by split_and!.
  - injection H as <- <-. split_and!; [done|done|]. by right.
  - injection H as <- <-. split_and!; [done|done|]. simpl. unfold dispatchTask. cbn [CurNumMapTasks CurNumReduceTasks tr_State].
    destruct Hok as [Hn|[Hg He]].
    + rewrite (proj2 (Z.leb_gt _ _)) by done. simpl. by rewrite andb_false_r.
    + destruct (0 <=? nm); simpl; [|by rewrite andb_false_r]. left. split; [|done]. split_and!; simpl; try done. apply Hco.
  - injection H as <- <-. destruct Hok as [Hst Hs]. split_and!; [done|done|]. destruct (Z.eqb_spec (State c) 1); simpl; [done|].
    apply reduce_reply; [done|done| |apply (co_done _ _ Hco); simpl; (done || lia)].
    split_and!; simpl; [done|lia|lia|by apply (co_past _ _ Hco)].
  - injection H as <- <-. destruct Hok as [Hst Hs]. split_and!; [done|done|]. destruct (_ =? 0); simpl; [by apply idle_reply|done].
  - destruct Hok as [Hst Hs]. destruct (ReduceTask c) as [|t ch] eqn:Eq; [done|]. injection H as <- <-.
    assert (∀ x, x ∈ t :: ch → goodReduce c fs x) as Hq by (rewrite <-Eq; apply Hco).
    destruct (queueReduce_ok c fs ch Hco) as [? Hg]; [set_solver|]. split; [done|]. split; [done|]. split; [done|].
    apply (goodReduce_mono c _ fs fs Hg (improves_refl fs)), Hq. set_solver.
  - destruct Hok as [Hst Hg]. injection H as <- <-.
    destruct (storeReduce_ok c fs (ReduceTask c) (ReduceId t) (mkTaskState now false) Hco) as (? & Hgr & ?);
      [apply Hco|apply Hg|done|]. split; [done|]. split; [done|]. split; [done|]. split; [|done]. by eapply goodReduce_mono; [exact Hgr|apply improves_refl|].
  - injection H as <- <-. destruct Hok as (Hst & Hg & He). split_and!; [done|done|]. by apply reduce_reply.
Qed.

(** A report loads the state of its task: it is there. *)
Lemma loaded_ok now cur next : is_Some cur → loaded now cur next = FReturned ∨ loaded now cur next = next.
Proof. intros [ts ->]. simpl. destruct (_ <? _); auto. Qed.

(** The task of a report, as [TaskFin] uses it in the map phase. *)
Lemma reportOk_map c fs h : reportOk c fs h → mapWritten c fs (MapId (hd_args h)).
Proof.
  unfold reportOk. destruct (hd_map h); [done|]. intros (-> & Hall & _). apply Hall.
  destruct names; [done|]. rewrite zlen_cons. pose proof (zlen_nonneg l). lia.
Qed.

(** The report of a map task counts fewer finished map tasks than there are. *)
Definition timely (mp : bool) (pc : handler_pc) (k : option Z) c : Prop :=
  ∀ now q, mp = true → pc = FMapRange now (Some q) → k = None → cn_len q ≠ NumMapTasks c.

Lemma TaskFin_steps now k args mp pc c pc' c' fs :
  handlerStep now k args pc c = Some (pc', c') → getting pc = false → timely mp pc k c →
  coOk c fs → handlerOk c fs (mkHandler args mp pc) →
  coOk c' fs ∧ grows c c' ∧ handlerOk c' fs (mkHandler args mp pc').
Proof.
  intros H Hget Htm Hco Hok. pose proof (grows_refl c) as Hrefl. pose proof (improves_refl fs) as Hif.
  destruct pc; try done; unfold handlerOk in *; simpl in H, Hok; clear Hget.
  - injection H as <- <-. by split_and!.
  - destruct Hok as [Hrep Hq]. apply bind_Some in H as (r & Hr & [= <- <-]). split_and!; [done|done|].
    apply (mapRange_ok c fs) in Hr; [|done|done]. destruct r as [q'|n]; simpl; [done|].
    destruct Hr as (_ & q0 & -> & En & ->). destruct (Z.eqb_spec n (NumMapTasks c)) as [E|_]; simpl; [|done].
    split; [done|]. split; [|done]. destruct mp; [|done]. by destruct (Htm now0 q0); [..|congruence].
  - injection H as <- <-. split_and!; [done|done|]. destruct (reportOk_map _ _ _ Hok) as (_ & _ & He). simpl in He.
    by destruct (loaded_ok now0 _ (FMapStore now0) He) as [-> | ->].
  - injection H as <- <-. destruct (reportOk_map _ _ _ Hok) as (Hi & Hd & _).
    destruct (storeMap_ok c fs (MapTask c) (MapId args) (mkTaskState now0 true) Hco) as (? & ? & ?); [apply Hco|done|done|].
    by split_and!.
  - apply bind_Some in H as (r & Hr & [= <- <-]). split_and!; [done|done|].
    apply (mapRange_ok c fs) in Hr; [|done|done]. destruct r as [q'|n]; simpl; [done|].
    destruct Hr as [Hall _]. destruct (Z.eqb_spec n (NumMapTasks c)) as [E|_]; simpl; [|done]. apply Hall.
    by rewrite E, (co_maps _ _ Hco).
  - injection H as <- <-. destruct (coOk_setState c fs 1 Hco) as [? Hg]; [done|done|done|]. split; [done|]. split; [done|]. split; [lia|].
    by eapply allMaps_mono.
  - destruct Hok as [Hi Hall]. destruct (_ <=? _) eqn:Ei; [injection H as <- <-; by split_and!|].
    apply bind_Some in H as (ch & Hch & [= <- <-]). bool_simpl. rewrite (co_reduces _ _ Hco) in Ei.
    destruct (queueReduce_ok c fs ch Hco) as [? Hg].
    { intros t [?| ->]%(send_elem _ _ _ _ Hch); [by apply Hco|]. split_and!; simpl; (done || lia). }
    split; [done|]. split; [done|]. split; [lia|by eapply allMaps_mono].
  - destruct Hok as (Hrep & Hmp & Hq). apply bind_Some in H as (r & Hr & [= <- <-]). split_and!; [done|done|].
    apply (reduceRange_ok c fs) in Hr; [|done|done]. destruct r as [q'|n]; simpl; [done|]. by destruct (_ =? _).
  - destruct Hok as [Hrep Hmp]. injection H as <- <-. split_and!; [done|done|]. simpl in Hmp. subst mp.
    pose proof Hrep as (_ & _ & _ & _ & He). simpl in He. by destruct (loaded_ok now0 _ (FReduceStore now0) He) as [-> | ->].
  - destruct Hok as [Hrep Hmp]. injection H as <- <-. simpl in Hmp. subst mp. destruct Hrep as (_ & Hall & Hr & Ho & _).
    destruct (storeReduce_ok c fs (ReduceTask c) (ReduceId args) (mkTaskState now0 true) Hco) as (? & Hg & ?); [apply Hco|done|done|].
    split; [done|]. split; [done|]. split; [|done]. by eapply allMaps_mono.
  - destruct Hok as [Hall Hq]. apply bind_Some in H as (r & Hr & [= <- <-]). split_and!; [done|done|].
    apply (reduceRange_ok c fs) in Hr; [|done|done]. destruct r as [q'|n]; simpl; [done|].
    destruct (Z.eqb_spec n (NumReduceTasks c)) as [E|_]; simpl; [|done]. split; [done|]. intros r Hrr.
    apply Hr; [by rewrite E, (co_reduces _ _ Hco)|done].
  - destruct Hok as [Hall Hred]. injection H as <- <-. destruct (coOk_setState c fs 2 Hco) as [? Hg]; [done|done|done|]. by split_and!.
Qed.

(** The main goroutine. *)
Lemma mainStep_ok now k pc c pc' c' fs :
  mainStep now k pc c = Some (pc', c') → coOk c fs → mainOk c fs pc → coOk c' fs ∧ grows c c' ∧ mainOk c' fs pc'.
Proof.
  intros H Hco Hok. pose proof (grows_refl c) as Hrefl. pose proof (improves_refl fs) as Hif.
  destruct pc as [|st t i|st t i|q|b]; simpl in H, Hok.
  - injection H as <- <-. split; [done|]. split; [done|]. split; [lia|]. apply Hco.
  - destruct Hok as [Hi Hst]. injection H as <- <-. split; [done|]. split; [done|].
    destruct (Z.leb_spec (tickBound st c) i); [done|]. destruct (overdue _ _ _); simpl; split_and!; (done || lia).
  - destruct Hok as (Hi & Hb & Hst). unfold tickBound in Hb. destruct (Z.eqb_spec st 0) as [->|Hne].
    + apply bind_Some in H as (name & Hn & H). apply bind_Some in H as (ch & Hch & [= <- <-]).
      destruct (queueMap_ok c fs ch Hco) as [? ?].
      { intros x [?| ->]%(send_elem _ _ _ _ Hch); [by apply Hco|]. unfold goodMap. simpl. by rewrite <-(co_files _ _ Hco). }
      split; [done|]. split; [done|]. split; [lia|done].
    + apply bind_Some in H as (ch & Hch & [= <- <-]). specialize (Hst Hne).
      assert (0 ≤ i < R) by (destruct (st =? 1); [rewrite (co_reduces _ _ Hco) in Hb|]; lia).
      destruct (queueReduce_ok c fs ch Hco) as [? Hg].
      { intros x [?| ->]%(send_elem _ _ _ _ Hch); [by apply Hco|]. split_and!; simpl; (done || lia). }
      split; [done|]. split; [done|]. split; [lia|]. intros _. by eapply allMaps_mono.
  - apply bind_Some in H as (r & Hr & [= <- <-]). split; [done|]. split; [done|].
    apply (reduceRange_ok c fs) in Hr; [|done|done]. destruct r as [q'|n]; simpl; [done|]. intros E%Z.eqb_eq r Hrr.
    apply Hr; [by rewrite E, (co_reduces _ _ Hco)|done].
  - destruct b; [done|]. injection H as <- <-. by split_and!.
Qed.

(** ** The whole system *)

(** The coordinator moves. *)
Lemma minv_co s c :
  minv s → coOk c (ms_files s) → grows (ms_co s) c → minv (setCo c s).
Proof.
  intros [Hco Hi Hm Hh Hw] Hc Hg. pose proof (improves_refl (ms_files s)). split; simpl; try done.
  - by eapply mainOk_mono.
  - intros k h Hk. eapply handlerOk_mono; [done..|]. by eapply Hh.
  - intros w pc Hpc. eapply workerOk_mono; [done..|]. by eapply Hw.
Qed.

(** The files improve, and the worker that improved them moves. *)
Lemma minv_worker s w pc fs :
  minv s → improves (ms_files s) fs → workerOk (ms_co s) fs pc → minv (setWorker w pc (setFiles fs s)).
Proof.
  intros [[] Hi Hm Hh Hw] Himp Hpc. pose proof (grows_refl (ms_co s)) as Hg. pose proof Himp as (Ei & Hd & Ho). split; simpl.
  - split; try done; [|naive_solver|naive_solver|].
    + intros t Ht. by eapply goodReduce_mono; [..|apply co_redq0].
    + intros Hs. by eapply allMaps_mono; [..|apply co_past0].
  - congruence.
  - by eapply mainOk_mono.
  - intros k h Hk. eapply handlerOk_mono; [done..|]. by eapply Hh.
  - intros k p [(_ & <- & _)|[_ Hk]]%list_lookup_insert_Some; [done|]. eapply workerOk_mono; [done..|]. by eapply Hw.
Qed.

Lemma minv_setWorker s w pc : minv s → workerOk (ms_co s) (ms_files s) pc → minv (setWorker w pc s).
Proof.
  intros Hm Hpc. pose proof (minv_worker s w pc (ms_files s) Hm (improves_refl _) Hpc) as H. by destruct s.
Qed.

(** A call starts a handler, or none. *)
Lemma minv_call s w o h waits failed pc hs :
  call o h waits failed (ms_handlers s) = (pc, hs) → minv s → handlerOk (ms_co s) (ms_files s) h →
  (∀ k, workerOk (ms_co s) (ms_files s) (waits k)) → workerOk (ms_co s) (ms_files s) failed →
  minv (setWorker w pc (setHandlers hs s)).
Proof.
  intros H Hm Hh Hwaits Hfailed. destruct o; injection H as <- <-; apply minv_setWorker; try done.
  - by destruct Hm.
  - by destruct Hm.
  - destruct Hm as [? ? ? Hhs ?]. split; simpl; try done.
    intros k h' [?|[_ Hk]]%lookup_app_Some; [by eapply Hhs|]. apply list_lookup_singleton_Some in Hk as [_ <-]. done.
Qed.

Lemma zero_workerOk c fs : workerOk c fs (dispatchTask zeroResponse).
Proof. by right. Qed.

Lemma returns_ok s ok pc pc' : returns ok pc (ms_handlers s) = Some pc' → minv s → workerOk (ms_co s) (ms_files s) pc'.
Proof.
  intros H Hm. destruct pc; try done; simpl in H; destruct ok.
  - apply bind_Some in H as (h & Hh & H). apply (mi_handlers _ Hm) in Hh. unfold handlerOk in Hh.
    destruct (hd_pc h); try done. by injection H as <-.
  - injection H as <-. apply zero_workerOk.
  - apply bind_Some in H as (h & Hh & H). destruct (hd_pc h); try done. by injection H as <-.
  - by injection H as <-.
Qed.

(** The reply of a failed call names no file: the worker ends with [log.Fatalf]. *)
Lemma DoMap_zero fs : inputs fs = ins → DoMap mapf zeroResponse fs = None.
Proof. intros Hi. unfold DoMap. simpl. by rewrite Hi, Hempty. Qed.

Lemma EvExec_minv s w s' : mrstep mapf reducef (EvExec w) s = Some s' → minv s → minv s'.
Proof.
  intros H Hm. simpl in H. destruct (ms_workers s !! w) as [[| |reply|reply|reply| | |]|] eqn:Hw; try done; injection H as <-;
    pose proof (mi_workers _ Hm w _ Hw) as Hok; simpl in Hok.
  - destruct Hok as [[Hg He]| ->]; [|rewrite DoMap_zero by apply Hm; by apply minv_setWorker].
    destruct (DoMap_spec reply (ms_files s) Hg (mi_inputs _ Hm)) as (fs & -> & Himp & Hd). simpl.
    apply minv_worker; [done|done|]. left. split; [done|]. split; [|done]. destruct Hg as (_ & Hg & _). by eapply idx_lt.
  - destruct Hok as (Hg & Hall & He). destruct (DoReduce_spec reply (ms_co s) (ms_files s) Hg Hall) as (fs & -> & Himp & Ho). simpl.
    apply minv_worker; [done|done|]. right. split; [done|]. split; [by eapply allMaps_mono; [apply grows_refl|..]|].
    split; [apply Hg|done].
Qed.

Lemma EvHandler_minv s i now k s' :
  mrstep mapf reducef (EvHandler i now k) s = Some s' → lateReport (EvHandler i now k) s = false → minv s → minv s'.
Proof.
  intros H Hl Hm. simpl in H. apply bind_Some in H as ([args mp pc] & Hh & H). apply bind_Some in H as ([pc' c] & Hst & [= <-]).
  pose proof (mi_handlers _ Hm _ _ Hh) as Hok. simpl in Hst.
  assert (coOk c (ms_files s) ∧ grows (ms_co s) c ∧ handlerOk c (ms_files s) (mkHandler args mp pc')) as (Hc & Hg & Hok').
  { destruct (getting pc) eqn:Eg; [by eapply GetTask_steps; [..|apply Hm|]|].
    eapply TaskFin_steps; [done|done| |apply Hm|done]. intros now0 q -> -> -> E. simpl in Hl. rewrite Hh in Hl. simpl in Hl.
    by rewrite (proj2 (Z.eqb_eq _ _) E) in Hl. }
  destruct (minv_co _ c Hm Hc Hg) as [? ? ? Hhs ?]. split; simpl; try done.
  intros j h [(_ & <- & _)|[_ Hj]]%list_lookup_insert_Some; [done|]. by eapply Hhs.
Qed.

Lemma mrstep_minv e s s' :
  minv s → lateReport e s = false → mrstep mapf reducef e s = Some s' → minv s'.
Proof.
  intros Hm Hl H. destruct e as [w o|w|w o|w ok|w|w k|i now k|now k].
  - simpl in H. destruct (ms_workers s !! w) as [[]|] eqn:Hw; try done.
    destruct (CallGetTask o (ms_handlers s)) as [pc hs] eqn:E. injection H as <-.
    eapply minv_call; [exact E|done|done|done|apply zero_workerOk].
  - by eapply EvExec_minv.
  - simpl in H. destruct (ms_workers s !! w) as [[| | | |reply| | |]|] eqn:Hw; try done.
    destruct (CallTaskFin o reply (ms_handlers s)) as [pc hs] eqn:E. injection H as <-.
    eapply minv_call; [exact E|done| |done|done]. unfold handlerOk, reportOk. simpl.
    destruct (mi_workers _ Hm w _ Hw) as [[(Es & _) Hd]|[(Es & E0 & _) (Hall & Ho)]]; rewrite Es; simpl; [done|by split_and!].
  - simpl in H. apply bind_Some in H as (pc & Hw & H). apply bind_Some in H as (pc' & Hr & [= <-]).
    apply minv_setWorker; [done|]. by eapply returns_ok.
  - simpl in H. inv_bind H. injection H as <-. by apply minv_setWorker.
  - simpl in H. destruct (ms_workers s !! w) as [[| |reply| | | | |]|] eqn:Hw; try done. inv_bind H. injection H as <-.
    apply minv_worker; [done| |done]. destruct (mi_workers _ Hm w _ Hw) as [[Hok _]| ->].
    + by eapply DoMapWriting_improves; [|apply Hm|done].
    + unfold DoMapWriting in *. simpl in *. by rewrite (mi_inputs _ Hm), Hempty in *.
  - by eapply EvHandler_minv.
  - simpl in H. apply bind_Some in H as ([pc' c] & Hst & [= <-]).
    destruct (mainStep_ok _ _ _ _ _ _ (ms_files s) Hst) as (Hc & Hg & Hok); [apply Hm..|].
    destruct (minv_co _ c Hm Hc Hg). by split.
Qed.

Lemma startJob_minv n fs : inputs fs = ins → minv (startJob names R n fs).
Proof.
  intros Hi. split; simpl; try done.
  - split; simpl; try done.
    + intros t (ie & -> & He)%list_elem_of_fmap. destruct ie as [i name]. by apply elem_of_enumerate in He.
    + by intros t ?%elem_of_nil.
  - intros w pc [-> _]%lookup_replicate. done.
Qed.

Lemma timelySteps_minv es s s' : minv s → timelySteps mapf reducef es s = Some s' → minv s'.
Proof.
  intros Hm. unfold timelySteps. apply foldM_inv; [|done]. intros e c c' _ Hc H.
  destruct (lateReport e c) eqn:E; [done|]. by eapply mrstep_minv.
Qed.

(** The output files of a finished job. *)
Lemma job_outputs n fs es s :
  (∀ k vs vs', vs ≡ₚ vs' → reducef k vs = reducef k vs') → inputs fs = ins →
  timelySteps mapf reducef es (startJob names R n fs) = Some s → ms_main s = MReturned true →
  ∃ outputs, mapM (λ r, outs (ms_files s) !! r) (range 0 R) = Some outputs ∧
    mjoin outputs ≡ₚ reduceSorted reducef (go_sort (allPairs mapf names ins)).
Proof.
  intros Hperm Hi Hrun Hd. pose proof (timelySteps_minv es _ s (startJob_minv n fs Hi) Hrun) as Hm.
  exists (expected <$> range 0 R). split; [|by apply expected_perm].
  apply mapM_Some, Forall2_fmap_r, Forall_Forall2_diag, Forall_forall. intros r Hr%elem_of_range.
  pose proof (mi_main _ Hm) as Hok. rewrite Hd in Hok. by apply Hok.
Qed.
End correctness.

(** C5: the job is right.  Any number of workers run [Worker] against the
    coordinator; workers may die at any point, also in the middle of writing,
    their calls may fail before or after they are executed, tasks time out and
    are handed out and executed again, and the handlers of the coordinator and its main
    goroutine, which take no lock, interleave at every access to its channels and tables.
    If no report of a map task finds all map tasks finished, then no handler
    panics, no task fails (a worker never
    ends with [log.Fatalf]), but for the one a worker takes the empty reply of a
    failed call for, which always does; and when [Done] has returned true the output files
    together have, up to the order of lines, the lines [mrsequential] writes for the
    same input, provided [reducef] does not depend on the order of the values and the
    keys and values [mapf] gives are UTF-8, which the JSON of the intermediate files keeps.
    The input files exist, and none has the empty name. *)
Theorem mapreduce_job_correct `{!GoSort, !GoSortLaws} mapf reducef names R n fs es s :
  0 < R → names ≠ [] → (∀ k vs vs', vs ≡ₚ vs' → reducef k vs = reducef k vs') →
  (∀ name, name ∈ names → is_Some (inputs fs !! name)) → inputs fs !! EmptyString = None →
  (∀ name content, name ∈ names → inputs fs !! name = Some content → Forall utf8Pair (mapf name content)) →
  timelySteps mapf reducef es (startJob names R n fs) = Some s →
  (∀ k h, ms_handlers s !! k = Some h → hd_pc h ≠ FPanic) ∧
  (∀ w reply, ms_workers s !! w = Some (WMap reply) →
     is_Some (DoMap mapf reply (ms_files s)) ∨ reply = zeroResponse ∧ DoMap mapf reply (ms_files s) = None) ∧
  (∀ w reply, ms_workers s !! w = Some (WReduce reply) → is_Some (DoReduce reducef reply (ms_files s))) ∧
  (ms_main s = MReturned true → ∃ outputs lines,
     mapM (λ r, outs (ms_files s) !! r) (range 0 R) = Some outputs ∧
     mrsequential mapf reducef names fs = Some lines ∧ mjoin outputs ≡ₚ lines).
Proof.
  intros HR Hn Hperm Hins He Hutf8 Hrun.
  pose proof (timelySteps_minv mapf reducef names R HR Hn (inputs fs) Hins He Hutf8 es _ s
    (startJob_minv mapf reducef names R (inputs fs) n fs eq_refl) Hrun) as Hm. split_and!.
  - intros k h Hh E. pose proof (mi_handlers _ _ _ _ _ _ Hm k h Hh) as Hok. unfold handlerOk in Hok. by rewrite E in Hok.
  - intros w reply Hw. destruct (mi_workers _ _ _ _ _ _ Hm w _ Hw) as [[Hg _]| ->].
    + left. by destruct (DoMap_spec mapf reducef names R HR (inputs fs) Hins reply (ms_files s) Hg (mi_inputs _ _ _ _ _ _ Hm)) as (fs' & -> & _).
    + right. split; [done|]. by apply (DoMap_zero mapf (inputs fs) He), (mi_inputs _ _ _ _ _ _ Hm).
  - intros w reply Hw. destruct (mi_workers _ _ _ _ _ _ Hm w _ Hw) as (Hg & Hall & _).
    destruct (DoReduce_spec mapf reducef names R (inputs fs) Hutf8 reply _ (ms_files s) Hg Hall) as (fs' & -> & _). done.
  - intros Hd. destruct (job_outputs mapf reducef names R HR Hn (inputs fs) Hins He Hutf8 n fs es s Hperm eq_refl Hrun Hd) as (outputs & ? & ?).
    eexists outputs, _. split_and!; [done|by apply mrsequential_run|done].
Qed.

(** ** A concrete job *)

Definition exampleFiles : files := mkFiles {["f" := "x"; "g" := "y"]} ∅ ∅.
Definition exampleMapf (name _ : string) : list KeyValue := [mkKeyValue "a" name; mkKeyValue name "1"].
Definition exampleReducef (_ : string) (vs : list string) : string := pretty (zlen vs).

(** [n] steps of a handler that visit no key, and the keys its [Range] visits. *)
Definition handle (h : nat) (now : Z) (n : nat) : list mrevent := replicate n (EvHandler h now None).
Definition visits (h : nat) (keys : list Z) : list mrevent := (λ k, EvHandler h 0 (Some k)) <$> keys.

(** A whole [GetTask] that hands out a task, a [TaskFin] of a map task that is the last one or not ([more]
    steps), and one of a reduce task, on tables with the keys [maps] and [reduces]. *)
Definition handsOut (h : nat) (now : Z) : list mrevent := handle h now 6.
Definition finishesMap (h : nat) (now : Z) (maps : list Z) (more : nat) : list mrevent :=
  handle h now 2 ++ visits h maps ++ handle h now 4 ++ visits h maps ++ handle h now (1 + more).
Definition finishesReduce (h : nat) (now : Z) (maps reduces : list Z) (more : nat) : list mrevent :=
  handle h now 2 ++ visits h maps ++ handle h now 2 ++ visits h reduces ++ handle h now 4 ++ visits h reduces ++
  handle h now (1 + more).
(** [Done] that finds the job finished. *)
Definition jobDone (now : Z) (reduces : list Z) : list mrevent :=
  replicate 3 (EvMain now None) ++ ((λ k, EvMain now (Some k)) <$> reduces) ++ [EvMain now None].

(** The first two calls interleave.  Worker 0 dies while it writes the files of map task 0; the call in which worker 1
    reports map task 1 fails while its handler runs; task 0 times out, worker 2 executes it again, and workers 1 and 2
    finish the job, their last reports interleaved; the last request of worker 2 is lost. *)
Definition exampleRun : list mrevent :=
  [EvAsk 0 Served; EvAsk 1 Served] ++ handle 0 0 3 ++ handsOut 1 0 ++ handle 0 0 3 ++ [EvReturns 0 true; EvReturns 1 true] ++
  [EvDieWriting 0 1; EvExec 1; EvReport 1 Served; EvReturns 1 false] ++ finishesMap 2 1 [0; 1] 0 ++ replicate 8 (EvMain 11 None) ++
  [EvAsk 2 Served] ++ handsOut 3 11 ++ [EvReturns 2 true; EvExec 2; EvReport 2 Served] ++ finishesMap 4 12 [1; 0] 4 ++ [EvReturns 2 true] ++
  [EvAsk 1 Served; EvAsk 2 Served] ++ handsOut 5 12 ++ handsOut 6 12 ++ [EvReturns 1 true; EvReturns 2 true; EvExec 2; EvExec 1] ++
  [EvReport 2 Served; EvReport 1 Served] ++ handle 8 13 2 ++ finishesReduce 7 13 [0; 1] [0; 1] 0 ++
  visits 8 [0; 1] ++ handle 8 13 2 ++ visits 8 [0; 1] ++ handle 8 13 4 ++ visits 8 [0; 1] ++ handle 8 13 2 ++
  [EvReturns 1 true; EvReturns 2 true; EvAsk 1 Served] ++ handle 9 14 2 ++ [EvReturns 1 true; EvAsk 2 RequestLost; EvExec 2] ++
  jobDone 15 [0; 1].

Definition exampleEnd : mrsystem :=
  default (startJob ["f"; "g"] 2 3 exampleFiles)
    (@timelySteps merge_sorter exampleMapf exampleReducef exampleRun (startJob ["f"; "g"] 2 3 exampleFiles)).

Lemma mapreduce_job_correct_witness :
  ms_main exampleEnd = MReturned true ∧ ms_workers exampleEnd = [WDead; WExit; WDead] ∧
  ∃ outputs lines,
    mapM (λ r, outs (ms_files exampleEnd) !! r) (range 0 2) = Some outputs ∧
    @mrsequential merge_sorter exampleMapf exampleReducef ["f"; "g"] exampleFiles = Some lines ∧ mjoin outputs ≡ₚ lines.
Proof.
  split; [vm_compute; reflexivity|]. split; [vm_compute; reflexivity|].
  destruct (@mapreduce_job_correct merge_sorter merge_sorter_laws exampleMapf exampleReducef ["f"; "g"]%string 2 3
    exampleFiles exampleRun exampleEnd) as (_ & _ & _ & Hd).
  - lia.
  - done.
  - intros k vs vs' Hp. unfold exampleReducef, zlen. by rewrite Hp.
  - intros name [->|[->|[]%elem_of_nil]%elem_of_cons]%elem_of_cons; (eexists; vm_compute; reflexivity).
  - reflexivity.
  - intros name content [->|[->|[]%elem_of_nil]%elem_of_cons]%elem_of_cons _; repeat constructor.
  - vm_compute. reflexivity.
  - apply Hd. vm_compute. reflexivity.
Defined.
