(* ===== verification/MrApps.v ===== *)
(** * The applications of MapReduce ([mrapps])

    The [Map] and [Reduce] of word count, the indexer, [early_exit] and [crash]
    ([nocrash] with failures: a crash or a delay of a worker is an event of
    [MrSystem]).  Their [Reduce] does not depend on the order of the values, which
    is what the job relies on, and a word count job counts the words.  The
    applications that measure the run itself are in [MrTiming]. *)

From stdpp Require Import pretty.
From S2P Require Import Prelude Runes Decimal Json MrWorker MrEquivalence MrCoordinator MrCoordinatorFacts MrSystem.
Open Scope go_scope.

(** [sort.Strings(values)] *)
Definition sortStrings (l : list string) : list string := merge_sort String.le l.

(** [strings.Join(l, sep)] *)
Fixpoint Join (sep : string) (l : list string) : string :=
  match l with
  | [] => EmptyString
  | [w] => w
  | w :: l' => w +:+ sep +:+ Join sep l'
  end.

Section apps.
Context (Letter : Z → bool).

(** The words of a text: [strings.FieldsFunc(contents, !unicode.IsLetter)]. *)
Definition words (contents : string) : list string := FieldsFunc (λ r, negb (IsLetter Letter r)) contents.

(** [wc.go] *)
Definition wcMap (filename contents : string) : list KeyValue := (λ w, mkKeyValue w "1") <$> words contents.
Definition wcReduce (key : string) (values : list string) : string := Itoa (zlen values).

(** [indexer.go]: the keys of the set of words; [order] is the order in which the
    iteration over the map meets them. *)
Definition indexerMap (order : gset string → list string) (document value : string) : list KeyValue :=
  (λ w, mkKeyValue w document) <$> order (list_to_set (words value)).
Definition indexerReduce (key : string) (values : list string) : string :=
  Itoa (zlen values) +:+ " " +:+ Join "," (sortStrings values).

(** [crash.go] and [nocrash.go] *)
Definition crashMap (filename contents : string) : list KeyValue :=
  [mkKeyValue "a" filename; mkKeyValue "b" (Itoa (Z.of_nat (String.length filename)));
   mkKeyValue "c" (Itoa (Z.of_nat (String.length contents))); mkKeyValue "d" "xyzzy"].
Definition crashReduce (key : string) (values : list string) : string := Join " " (sortStrings values).

(** [early_exit.go] *)
Definition earlyExitMap (filename contents : string) : list KeyValue := [mkKeyValue filename "1"].
Definition earlyExitReduce (key : string) (values : list string) : string := Itoa (zlen values).

(** ** Reduce does not see the order *)

Lemma sortStrings_perm l l' : l ≡ₚ l' → sortStrings l = sortStrings l'.
Proof.
  intros Hp. apply (StronglySorted_unique String.le); try (apply StronglySorted_merge_sort; apply _).
  unfold sortStrings. by rewrite !merge_sort_Permutation.
Qed.

Lemma apps_reduce_perm key vs vs' :
  vs ≡ₚ vs' →
  wcReduce key vs = wcReduce key vs' ∧ indexerReduce key vs = indexerReduce key vs' ∧
  crashReduce key vs = crashReduce key vs' ∧ earlyExitReduce key vs = earlyExitReduce key vs'.
Proof.
  intros Hp. unfold wcReduce, indexerReduce, crashReduce, earlyExitReduce, zlen.
  by rewrite (sortStrings_perm _ _ Hp), Hp.
Qed.

(** ** Word count *)

Context (names : list string).

(** All words of the input files. *)
Definition allWords (ins : gmap string string) : list string :=
  names ≫= λ name, words (default EmptyString (ins !! name)).

Lemma wc_pairs ins :
  (∀ name, name ∈ names → is_Some (ins !! name)) →
  allPairs wcMap names ins = (λ w, mkKeyValue w "1") <$> allWords ins.
Proof.
  intros Hins. unfold allPairs, allWords.
  assert (pairs wcMap names ins <$> range 0 (zlen names) =
          (λ name, (λ w, mkKeyValue w "1") <$> words (default EmptyString (ins !! name))) <$> names) as ->.
  { apply list_eq. intros k. rewrite !list_lookup_fmap. destruct (decide (k < length names)%nat) as [Hk|Hk].
    - destruct (lookup_lt_is_Some_2 names k Hk) as [name Hn]. rewrite Hn.
      unfold range. rewrite lookup_seqZ_lt by (unfold zlen; lia). simpl. f_equal. unfold pairs.
      rewrite Z.add_0_l, idx_of_nat, Hn. simpl.
      destruct (Hins name) as [c ->]; [by eapply list_elem_of_lookup_2|]. done.
    - rewrite (lookup_ge_None_2 names) by lia. rewrite lookup_ge_None_2; [done|].
      unfold range. rewrite length_seqZ. unfold zlen. lia. }
  clear Hins. induction names as [|name l IH]; [done|]. rewrite fmap_cons, bind_cons, fmap_app. simpl. by f_equal.
Qed.

(** How often a word occurs. *)
Definition occurrences (w : string) (l : list string) : Z := zlen (filter (λ x, x = w) l).

Lemma valuesOf_words w l : zlen (valuesOf w ((λ w, mkKeyValue w "1") <$> l)) = occurrences w l.
Proof.
  unfold valuesOf, occurrences, zlen. rewrite length_fmap. f_equal. induction l as [|x l IH]; [done|].
  rewrite fmap_cons, !filter_cons. simpl. destruct (decide (x = w)); simpl; by rewrite IH.
Qed.

(** The pairs of word count pass through JSON unchanged: U+FFFD, which a byte that is no
    UTF-8 decodes to, is no letter. *)
Lemma wcMap_utf8 filename contents : Letter RuneError = false → Forall utf8Pair (wcMap filename contents).
Proof.
  intros HL. pose proof (FieldsFunc_utf8 (λ r, negb (IsLetter Letter r)) contents) as Hw. unfold wcMap, words.
  apply Forall_fmap. eapply Forall_impl; [apply Hw; unfold IsLetter; simpl; by rewrite HL|]. intros w Hutf8. by split.
Qed.

(** C33: word count counts words.  In any run of a job of [wc.go] in which no report of a
    map task finds all map tasks finished, the handlers of the coordinator interleaving at every access to
    its channels and tables: when [Done] has returned true the output files have one line for each word that
    occurs in the input files, with the number of its occurrences in all of
    them, and no other line.  The letters are any set without U+FFFD, which stands for bytes
    that are no UTF-8. *)
Theorem wc_job_counts_words {sorter : GoSort} {laws : GoSortLaws} R n fs es s :
  Letter RuneError = false → 0 < R → names ≠ [] → (∀ name, name ∈ names → is_Some (inputs fs !! name)) →
  inputs fs !! EmptyString = None →
  timelySteps wcMap wcReduce es (startJob names R n fs) = Some s → ms_main s = MReturned true →
  ∃ outputs, mapM (λ r, outs (ms_files s) !! r) (range 0 R) = Some outputs ∧ NoDup (mjoin outputs).*1 ∧
    ∀ w o, (w, o) ∈ mjoin outputs ↔
      w ∈ allWords (inputs fs) ∧ o = Itoa (occurrences w (allWords (inputs fs))).
Proof.
  intros HL HR Hn Hins He Hrun Hd.
  destruct (job_outputs wcMap wcReduce names R HR Hn (inputs fs) Hins He (λ name content _ _, wcMap_utf8 name content HL) n fs es s) as (outputs & Ho & Hp); [|done..|].
  { intros k vs vs' Hp. by apply (apps_reduce_perm k). }
  destruct (reduce_sorted_lines wcReduce (λ k vs vs' Hp, proj1 (apps_reduce_perm k vs vs' Hp))
    (allPairs wcMap names (inputs fs))) as [Hnd Hin].
  exists outputs. split; [done|]. split; [by rewrite Hp|]. intros w o. rewrite Hp, Hin, wc_pairs by done.
  unfold wcReduce. rewrite valuesOf_words.
  assert ((∃ kv, kv ∈ (λ w, mkKeyValue w "1") <$> allWords (inputs fs) ∧ Key kv = w) ↔ w ∈ allWords (inputs fs)) as ->; [|done].
  split; [by intros (kv & (x & -> & Hx)%list_elem_of_fmap & <-)|].
  intros Hw. exists (mkKeyValue w "1"). split; [|done]. apply list_elem_of_fmap. by exists w.
Qed.
End apps.

(** ** A concrete job *)

Definition noLetter (r : Z) : bool := false.
Definition textFiles : files := mkFiles {["f" := "to be, or not"; "g" := "to be"]} ∅ ∅.

Example words_text : words noLetter "to be, or not" = ["to"; "be"; "or"; "not"]%string.
Proof. vm_compute. reflexivity. Qed.

Definition textEnd : mrsystem :=
  default (startJob ["f"; "g"] 2 3 textFiles)
    (@timelySteps merge_sorter (wcMap noLetter) wcReduce exampleRun (startJob ["f"; "g"] 2 3 textFiles)).

Lemma wc_job_counts_words_witness :
  ∃ outputs, mapM (λ r, outs (ms_files textEnd) !! r) (range 0 2) = Some outputs ∧ NoDup (mjoin outputs).*1 ∧
    ∀ w o, (w, o) ∈ mjoin outputs ↔
      w ∈ ["to"; "be"; "or"; "not"; "to"; "be"]%string ∧ o = Itoa (occurrences w ["to"; "be"; "or"; "not"; "to"; "be"]%string).
Proof.
  change (["to"; "be"; "or"; "not"; "to"; "be"]%string) with (allWords noLetter ["f"; "g"]%string (inputs textFiles)).
  refine (@wc_job_counts_words noLetter ["f"; "g"]%string merge_sorter merge_sorter_laws 2 3 textFiles exampleRun textEnd eq_refl _ _ _ _ _ _).
  - lia.
  - done.
  - intros name [->|[->|[]%elem_of_nil]%elem_of_cons]%elem_of_cons; (eexists; vm_compute; reflexivity).
  - vm_compute. reflexivity.
  - vm_compute. reflexivity.
  - vm_compute. reflexivity.
Defined.
