(* ===== verification/MrTiming.v ===== *)
(** * The applications that measure a MapReduce run ([mrapps])

    [mtiming] and [rtiming] count the workers that run a task at the same time by
    files with their process numbers, [jobcount] counts the invocations of [Map],
    and [nocrash] is [crash] without the crash.  The workers share a directory, so [nparallel] is
    a thread with one program point per access to it.  The counts are
    what they claim to be: the number of live workers inside [nparallel], and the number of
    invocations. *)

From stdpp Require Import pretty.
From S2P Require Import Prelude Runes Decimal MrWorker MrEquivalence MrCoordinator MrCoordinatorFacts MrSystem MrApps.
Open Scope go_scope.

(** ** [fmt.Sscanf] with one [%d] after a literal *)

(** [SkipSpace] of the scanner on ASCII: a newline in the input is an error. *)
Fixpoint skipSpace (s : string) : option string :=
  match s with
  | EmptyString => Some s
  | String c s' =>
      let n := Ascii.nat_of_ascii c in
      if bool_decide (n = 10)%nat then None
      else if bool_decide (n = 32 ∨ n = 9 ∨ n = 11 ∨ n = 12 ∨ n = 13)%nat then skipSpace s'
      else Some s
  end.

(** [%d] into an [int]: optional spaces and sign, then digits; out of range is an error. *)
Definition scanInt (s : string) : option (Z * string) :=
  s ← skipSpace s;
  let '(neg, s') := match s with
                    | String c s' =>
                        let n := Ascii.nat_of_ascii c in
                        if bool_decide (n = 45)%nat then (true, s')        (* '-' *)
                        else if bool_decide (n = 43)%nat then (false, s')  (* '+' *)
                        else (false, s)
                    | _ => (false, s)
                    end in
  '(v, rest) ← scanDigits s' 0 false;
  let v := if (neg : bool) then - v else v in
  if (- 2 ^ 63 <=? v) && (v <? 2 ^ 63) then Some (v, rest) else None.

Definition Sscanf (name pat : string) : option Z :=
  s ← stripPrefix pat name; fst <$> scanInt s.

(** *** Reading back what [%d] printed *)

Lemma scanInt_Itoa x s : 0 ≤ x < 2 ^ 63 → noDigit s → scanInt (Itoa x +:+ s) = Some (x, s).
Proof.
  intros Hx Hs. pose proof (scanDigits_Itoa x s ltac:(lia) Hs) as Hd.
  destruct (Itoa_head x s) as (c & r & E & [d Hc]); [lia|]. unfold scanInt. rewrite E in *.
  unfold digitOf in Hc. destruct (_ && _) eqn:Hr; [|done]. bool_simpl.
  assert (skipSpace (String c r) = Some (String c r)) as -> by (simpl; rewrite !bool_decide_false; [done|lia|lia]).
  simpl. rewrite !bool_decide_false by lia. rewrite Hd. simpl. by rewrite (proj2 (Z.leb_le _ _)), (proj2 (Z.ltb_lt _ _)) by lia.
Qed.

(** [Sscanf] reads back the number [Sprintf] printed. *)
Lemma Sscanf_Sprintf pat x : 0 ≤ x < 2 ^ 63 → Sscanf (pat +:+ Itoa x) pat = Some x.
Proof.
  intros Hx. unfold Sscanf. rewrite stripPrefix_app. simpl. rewrite <-(append_nil (Itoa x)). by rewrite scanInt_Itoa.
Qed.

(** Loops that count. *)
Lemma count_fold {A} (P : A → bool) (l : list A) acc :
  foldl (λ n x, if P x then n + 1 else n) acc l = acc + zlen (filter (λ x, P x = true) l).
Proof.
  revert acc. induction l as [|x l IH]; intros acc; simpl; [unfold zlen; simpl; lia|]. rewrite IH, filter_cons.
  destruct (P x); [rewrite decide_True, zlen_cons by done|rewrite decide_False by done]; lia.
Qed.

(** ** [nparallel] *)

(** The file of a worker: [fmt.Sprintf("mr-worker-%s-%d", phase, pid)]. *)
Definition workerPattern (phase : string) : string := "mr-worker-" +:+ phase +:+ "-".
Definition workerFile (phase : string) (pid : Z) : string := workerPattern phase +:+ Itoa pid.

(** The program points of [nparallel] in a worker. *)
Inductive np_pc :=
  | NpStart             (* WriteFile(myfilename) *)
  | NpList              (* dd.Readdirnames *)
  | NpLoop (names : list string) (ret : Z)  (* for _, name := range names *)
  | NpSleep (ret : Z)   (* time.Sleep, then os.Remove(myfilename) *)
  | NpDone (ret : Z).

(** A worker process; a dead one does not answer [syscall.Kill(pid, 0)]. *)
Record worker := mkWorker { wk_pid : Z; wk_alive : bool; wk_pc : np_pc }.

(** The directory of the test, and the workers. *)
Record yard := mkYard { y_names : gset string; y_workers : list worker }.

Section nparallel.
Context (phase : string) (others : Z → bool).

(** [syscall.Kill(pid, 0) == nil]; [others] are the processes that are not workers. *)
Definition kill0 (ws : list worker) (pid : Z) : bool :=
  match list_find (λ wk, wk_pid wk = pid) ws with
  | Some (_, wk) => wk_alive wk
  | None => others pid
  end.

(** The body of the loop over the names: [ret] grows by one for this name. *)
Definition counted (ws : list worker) (name : string) : bool :=
  match Sscanf name (workerPattern phase) with
  | Some xpid => kill0 ws xpid
  | None => false
  end.

(** [dd.Readdirnames(1000000)] *)
Fixpoint firstN {A} (n : Z) (l : list A) : list A :=
  match l with
  | [] => []
  | x :: l' => if n <=? 0 then [] else x :: firstN (n - 1) l'
  end.
Definition Readdirnames (n : Z) (names : gset string) : list string := firstN n (elements names).

(** One step of worker [i], with one access to the directory or one call of [Kill]: [None] when it is
    dead or done, or when [Remove] fails. *)
Definition npStep (i : nat) (y : yard) : option yard :=
  wk ← y_workers y !! i;
  if negb (wk_alive wk) then None else
  let me := workerFile phase (wk_pid wk) in
  let goto pc names := Some (mkYard names (<[i := mkWorker (wk_pid wk) true pc]> (y_workers y))) in
  match wk_pc wk with
  | NpStart => goto NpList ({[me]} ∪ y_names y)
  | NpList => goto (NpLoop (Readdirnames 1000000 (y_names y)) 0) (y_names y)
  | NpLoop [] ret => goto (NpSleep ret) (y_names y)
  | NpLoop (name :: names) ret => goto (NpLoop names (if counted (y_workers y) name then ret + 1 else ret)) (y_names y)
  | NpSleep ret => if decide (me ∈ y_names y) then goto (NpDone ret) (y_names y ∖ {[me]}) else None
  | NpDone _ => None
  end.

(** A worker takes a step, begins the next task, or is killed. *)
Inductive yevent := Runs (i : nat) | NextTask (i : nat) | Dies (i : nat).

Definition yStep (e : yevent) (y : yard) : option yard :=
  match e with
  | Runs i => npStep i y
  | NextTask i =>
      wk ← y_workers y !! i;
      match wk_pc wk with
      | NpDone _ => if wk_alive wk then Some (mkYard (y_names y) (<[i := mkWorker (wk_pid wk) true NpStart]> (y_workers y))) else None
      | _ => None
      end
  | Dies i =>
      wk ← y_workers y !! i;
      Some (mkYard (y_names y) (<[i := mkWorker (wk_pid wk) false (wk_pc wk)]> (y_workers y)))
  end.

Definition ySteps (es : list yevent) (y : yard) : option yard := foldM (λ y e, yStep e y) es y.

Definition startYard (names : gset string) (pids : list Z) : yard := mkYard names ((λ pid, mkWorker pid true NpStart) <$> pids).

(** A worker is inside: its file is there. *)
Definition inside (wk : worker) : bool := match wk_pc wk with NpList | NpLoop _ _ | NpSleep _ => true | _ => false end.

(** The directory holds the files of the workers inside, and files that are not of workers. *)
Record yinv (y : yard) : Prop := {
  yi_pids : NoDup (wk_pid <$> y_workers y);
  yi_range : Forall (λ wk, 0 ≤ wk_pid wk < 2 ^ 63) (y_workers y);
  yi_files name : name ∈ y_names y → is_Some (Sscanf name (workerPattern phase)) →
    ∃ wk, wk ∈ y_workers y ∧ inside wk = true ∧ name = workerFile phase (wk_pid wk);
  yi_inside wk : wk ∈ y_workers y → inside wk = true → workerFile phase (wk_pid wk) ∈ y_names y;
}.

Lemma workerFile_inj pid pid' : 0 ≤ pid < 2 ^ 63 → 0 ≤ pid' < 2 ^ 63 → workerFile phase pid = workerFile phase pid' → pid = pid'.
Proof.
  intros H H' E. pose proof (Sscanf_Sprintf (workerPattern phase) pid H) as S1. unfold workerFile in E. rewrite E in S1.
  rewrite Sscanf_Sprintf in S1 by done. by simplify_eq.
Qed.

Lemma elem_update (ws : list worker) i wk wk' x :
  ws !! i = Some wk → x ∈ <[i := wk']> ws → x = wk' ∨ ∃ j, j ≠ i ∧ ws !! j = Some x.
Proof.
  intros Hi [j Hj]%list_elem_of_lookup. pose proof (lookup_lt_Some _ _ _ Hi). destruct (decide (i = j)) as [<-|Hne].
  - rewrite list_lookup_insert_eq in Hj by done. left. by simplify_eq.
  - rewrite list_lookup_insert_ne in Hj by done. right. by exists j.
Qed.

(** One worker moves; its file is added, kept or removed with [inside]. *)
Lemma yinv_update y i wk alive pc names :
  yinv y → y_workers y !! i = Some wk →
  (∀ name, name ≠ workerFile phase (wk_pid wk) → name ∈ names ↔ name ∈ y_names y) →
  (workerFile phase (wk_pid wk) ∈ names ↔ inside (mkWorker (wk_pid wk) alive pc) = true) →
  yinv (mkYard names (<[i := mkWorker (wk_pid wk) alive pc]> (y_workers y))).
Proof.
  intros [Hp Hr Hf Hi] Hw Hnames Hme. pose proof (lookup_lt_Some _ _ _ Hw) as Hlt. rewrite Forall_lookup in Hr.
  assert (∀ j x, y_workers y !! j = Some x → workerFile phase (wk_pid x) = workerFile phase (wk_pid wk) → j = i) as Hinj.
  { intros j x Hj E. eapply NoDup_lookup; [exact Hp|by rewrite list_lookup_fmap, Hj|rewrite list_lookup_fmap, Hw; simpl].
    f_equal. symmetry. apply workerFile_inj; [by eapply Hr|by eapply Hr|done]. }
  split; simpl.
  - rewrite list_fmap_insert. simpl. rewrite list_insert_id; [done|]. by rewrite list_lookup_fmap, Hw.
  - apply Forall_insert; [by apply Forall_lookup|]. simpl. by eapply Hr.
  - intros name Hin Hs. destruct (decide (name = workerFile phase (wk_pid wk))) as [->|Hne].
    + exists (mkWorker (wk_pid wk) alive pc). split_and!; [|by apply Hme|done].
      eapply list_elem_of_lookup_2, list_lookup_insert_eq. done.
    + apply Hnames in Hin; [|done]. destruct (Hf name Hin Hs) as (x & [j Hj]%list_elem_of_lookup & Hxi & ->). exists x.
      split_and!; [|done|done]. eapply (list_elem_of_lookup_2 _ j). rewrite list_lookup_insert_ne; [done|]. intros ->. by simplify_eq.
  - intros x Hx Hxi. apply (elem_update _ _ _ _ _ Hw) in Hx as [->|(j & Hne & Hj)]; [by apply Hme|].
    apply Hnames; [intros E; by apply Hne, (Hinj j x)|]. apply Hi; [by eapply list_elem_of_lookup_2|done].
Qed.

Lemma yinv_step e y y' : yinv y → yStep e y = Some y' → yinv y'.
Proof.
  intros Hy H. destruct e as [i|i|i]; simpl in H.
  - unfold npStep in H. inv_bind H. rename x into wk.
    match goal with H : y_workers y !! i = Some wk |- _ => rename H into Hw end.
    pose proof (list_elem_of_lookup_2 _ _ _ Hw) as Hin. destruct (wk_alive wk); [simpl in H|done].
    assert (∀ pc, inside wk = true → inside (mkWorker (wk_pid wk) true pc) = true →
      yinv (mkYard (y_names y) (<[i := mkWorker (wk_pid wk) true pc]> (y_workers y)))) as Hstay.
    { intros pc Hwi Hpc. eapply yinv_update; [done|done|done|]. split; [done|]. intros _. by apply (yi_inside _ Hy). }
    unfold inside in Hstay at 1.
    destruct (wk_pc wk) as [| |[|name names] ret|ret|ret] eqn:Epc; simpl in H; [..|done].
    + injection H as <-. eapply yinv_update; [done|done|set_solver|]. simpl. split; [done|set_solver].
    + injection H as <-. by apply Hstay.
    + injection H as <-. by apply Hstay.
    + injection H as <-. by apply Hstay.
    + case_decide; [|done]. injection H as <-. eapply yinv_update; [done|done|set_solver|]. simpl. split; [set_solver|done].
  - inv_bind H. rename x into wk. match goal with H : y_workers y !! i = Some wk |- _ => rename H into Hw end.
    destruct (wk_pc wk) eqn:Epc; try done. destruct (wk_alive wk); [|done]. injection H as <-.
    eapply yinv_update; [done|done|done|]. simpl. split; [|done]. intros Hin. exfalso.
    destruct (yi_files _ Hy _ Hin) as (x & Hx & Hxi & E).
    { unfold workerFile. rewrite Sscanf_Sprintf; [by eexists|]. pose proof (yi_range _ Hy) as Hr. rewrite Forall_lookup in Hr. by eapply Hr. }
    apply list_elem_of_lookup in Hx as [j Hj]. pose proof (yi_range _ Hy) as Hr. rewrite Forall_lookup in Hr.
    apply workerFile_inj in E; [|by eapply Hr|by eapply Hr].
    assert (j = i) as ->.
    { eapply NoDup_lookup; [exact (yi_pids _ Hy)|by rewrite list_lookup_fmap, Hj|by rewrite list_lookup_fmap, Hw; simpl; rewrite E]. }
    simplify_eq. unfold inside in Hxi. by rewrite Epc in Hxi.
  - inv_bind H. rename x into wk. match goal with H : y_workers y !! i = Some wk |- _ => rename H into Hw end.
    injection H as <-. pose proof (list_elem_of_lookup_2 _ _ _ Hw) as Hin. eapply yinv_update; [done|done|done|].
    change (inside (mkWorker (wk_pid wk) false (wk_pc wk))) with (inside wk). split; [|by apply (yi_inside _ Hy)].
    intros Hf. destruct (yi_files _ Hy _ Hf) as (x & [j Hj]%list_elem_of_lookup & Hxi & E).
    { unfold workerFile. rewrite Sscanf_Sprintf; [by eexists|]. pose proof (yi_range _ Hy) as Hr. rewrite Forall_lookup in Hr. by eapply Hr. }
    pose proof (yi_range _ Hy) as Hr. rewrite Forall_lookup in Hr. apply workerFile_inj in E; [|by eapply Hr|by eapply Hr].
    assert (j = i) as ->; [|by simplify_eq].
    eapply NoDup_lookup; [exact (yi_pids _ Hy)|by rewrite list_lookup_fmap, Hj|by rewrite list_lookup_fmap, Hw; simpl; rewrite E].
Qed.

(** ** The count *)

Lemma firstN_all {A} n (l : list A) : zlen l ≤ n → firstN n l = l.
Proof.
  revert n. induction l as [|x l IH]; intros n Hn; [done|]. rewrite zlen_cons in Hn. pose proof (zlen_nonneg l). simpl.
  rewrite (proj2 (Z.leb_gt _ _)) by lia. by rewrite IH by lia.
Qed.

Lemma kill0_worker ws wk : NoDup (wk_pid <$> ws) → wk ∈ ws → kill0 ws (wk_pid wk) = wk_alive wk.
Proof.
  intros Hnd [i Hi]%list_elem_of_lookup. unfold kill0.
  destruct (list_find (λ x, wk_pid x = wk_pid wk) ws) as [[j x]|] eqn:E.
  - apply list_find_Some in E as (Hj & Hx & _). assert (j = i) as ->; [|by simplify_eq].
    eapply NoDup_lookup; [exact Hnd|by rewrite list_lookup_fmap, Hj|by rewrite list_lookup_fmap, Hi; simpl; rewrite Hx].
  - apply list_find_None in E. rewrite Forall_forall in E. by destruct (E wk); [eapply list_elem_of_lookup_2|].
Qed.

(** The worker was inside, and its process answers at a moment at which the processes are [ws]. *)
Definition present (ws : list worker) (wk : worker) : bool := inside wk && kill0 ws (wk_pid wk).

Lemma present_alive y wk : yinv y → wk ∈ y_workers y → present (y_workers y) wk = inside wk && wk_alive wk.
Proof. intros Hy Hw. unfold present. by rewrite kill0_worker by (done || apply Hy). Qed.

(** The names whose process answers are the files of these workers. *)
Lemma counted_files y ws : yinv y →
  filter (λ name, counted ws name = true) (elements (y_names y)) ≡ₚ
  (λ wk, workerFile phase (wk_pid wk)) <$> filter (λ wk, present ws wk = true) (y_workers y).
Proof.
  intros Hy. pose proof Hy as [Hp Hr Hf Hi]. rewrite Forall_forall in Hr. apply NoDup_Permutation.
  - apply NoDup_filter, NoDup_elements.
  - assert (NoDup (wk_pid <$> filter (λ wk, present ws wk = true) (y_workers y))) as Hnd.
    { eapply sublist_NoDup; [exact Hp|]. apply fmap_sublist, sublist_filter. }
    assert (∀ wk, wk ∈ filter (λ wk, present ws wk = true) (y_workers y) → 0 ≤ wk_pid wk < 2 ^ 63) as Hrr.
    { intros wk [_ Hw]%list_elem_of_filter. by apply Hr. }
    clear -Hnd Hrr. induction (filter _ _) as [|wk l IH]; [constructor|]. simpl in *. apply NoDup_cons in Hnd as [Hni Hnd].
    constructor; [|apply IH; [done|]; set_solver]. intros (wk' & E & Hin)%list_elem_of_fmap.
    apply workerFile_inj in E; [|apply Hrr; set_solver|apply Hrr; set_solver]. apply Hni. rewrite E. by apply list_elem_of_fmap_2.
  - intros name. rewrite list_elem_of_filter, elem_of_elements, list_elem_of_fmap. setoid_rewrite list_elem_of_filter. split.
    + intros [Hc Hin]. unfold counted in Hc. destruct (Sscanf name (workerPattern phase)) as [xpid|] eqn:E; [|done].
      destruct (Hf name Hin) as (wk & Hw & Hwi & ->); [by rewrite E|]. unfold workerFile in E.
      rewrite Sscanf_Sprintf in E by (by apply Hr). injection E as <-.
      exists wk. split; [done|]. split; [|done]. unfold present. by rewrite Hwi, Hc.
    + intros (wk & -> & Hrun & Hw). unfold present in Hrun. apply andb_true_iff in Hrun as [Hwi Ha]. split; [|by apply Hi].
      unfold counted, workerFile. by rewrite Sscanf_Sprintf by (by apply Hr).
Qed.

(** ** The scan *)

(** A process that is dead stays dead. *)
Lemma kill0_update ws i wk alive pc pid :
  ws !! i = Some wk → (alive = true → wk_alive wk = true) →
  kill0 (<[i := mkWorker (wk_pid wk) alive pc]> ws) pid = true → kill0 ws pid = true.
Proof.
  intros Hi Ha. assert (∀ ws i, ws !! i = Some wk → ∀ k,
    match list_find (λ x, wk_pid x = pid) (<[i := mkWorker (wk_pid wk) alive pc]> ws) with Some (_, x) => wk_alive x | None => k end = true →
    match list_find (λ x, wk_pid x = pid) ws with Some (_, x) => wk_alive x | None => k end = true) as H; [|by apply (H ws i Hi)].
  clear -Ha. induction ws as [|x ws IH]; intros [|i] Hi k; simpl in Hi; try done.
  - injection Hi as ->. simpl. by destruct (decide (wk_pid wk = pid)).
  - simpl. destruct (decide (wk_pid x = pid)); [done|]. specialize (IH i Hi k).
    by destruct (list_find _ (<[i := _]> ws)) as [[]|], (list_find _ ws) as [[]|].
Qed.

Lemma yStep_alive e y y' pid : yStep e y = Some y' → kill0 (y_workers y') pid = true → kill0 (y_workers y) pid = true.
Proof.
  intros H. destruct e as [i|i|i]; simpl in H; [unfold npStep in H|..]; apply bind_Some in H as (wk & Hw & H).
  - destruct (wk_alive wk) eqn:Ha; [simpl in H|done].
    destruct (wk_pc wk) as [| |[|name names] ret|ret|ret]; try case_decide; simplify_eq/=; by apply kill0_update.
  - destruct (wk_pc wk); try done. destruct (wk_alive wk) eqn:Ha; [|done]. injection H as <-. by apply kill0_update.
  - injection H as <-. by apply kill0_update.
Qed.

(** Without a death the same processes answer. *)
Lemma yStep_noDeath e y y' pid : (∀ i, e ≠ Dies i) → yStep e y = Some y' → kill0 (y_workers y') pid = kill0 (y_workers y) pid.
Proof.
  assert (∀ ws i wk pc, ws !! i = Some wk → wk_alive wk = true → kill0 (<[i := mkWorker (wk_pid wk) true pc]> ws) pid = kill0 ws pid) as Hup.
  { intros ws i wk pc Hi Ha. apply eq_true_iff_eq. split; [by apply kill0_update|]. intros H.
    eapply (kill0_update (<[i := mkWorker (wk_pid wk) true pc]> ws) i (mkWorker (wk_pid wk) true pc) true (wk_pc wk)); [|done|].
    - apply list_lookup_insert_eq. by eapply lookup_lt_Some.
    - rewrite list_insert_insert_eq. simpl. rewrite list_insert_id; [done|]. rewrite Hi. by destruct wk; simpl in *; subst. }
  intros Hne H. destruct e as [i|i|i]; [..|by destruct (Hne i)]; simpl in H; [unfold npStep in H|]; apply bind_Some in H as (wk & Hw & H).
  - destruct (wk_alive wk) eqn:Ha; [simpl in H|done].
    destruct (wk_pc wk) as [| |[|name names] ret|ret|ret]; try case_decide; simplify_eq/=; by apply Hup.
  - destruct (wk_pc wk); try done. destruct (wk_alive wk) eqn:Ha; [|done]. injection H as <-. by apply Hup.
Qed.

Lemma yinv_start names pids :
  NoDup pids → Forall (λ pid, 0 ≤ pid < 2 ^ 63) pids → (∀ name, name ∈ names → Sscanf name (workerPattern phase) = None) →
  yinv (startYard names pids).
Proof.
  intros Hnd Hr Hn. split; simpl.
  - by rewrite <-list_fmap_compose, list_fmap_id.
  - by apply Forall_fmap.
  - intros name Hin [? Hs]. by rewrite (Hn name Hin) in Hs.
  - intros wk (pid & -> & _)%list_elem_of_fmap. done.
Qed.
(** A scan that began in [y0] has seen the names [seen] and counted [ret] of them: no more than answered
    when it began, and all that answer now. *)
Definition scanned (y0 y : yard) (seen : list string) (ret : Z) : Prop :=
  zlen (filter (λ name, counted (y_workers y) name = true) seen) ≤ ret ≤
  zlen (filter (λ name, counted (y_workers y0) name = true) seen).

Lemma count_le (P Q : string → bool) l :
  (∀ x, P x = true → Q x = true) → zlen (filter (λ x, P x = true) l) ≤ zlen (filter (λ x, Q x = true) l).
Proof.
  intros H. induction l as [|x l IH]; [done|]. rewrite !filter_cons. specialize (H x).
  repeat case_decide; rewrite ?zlen_cons; try lia. naive_solver.
Qed.

Lemma counted_mono ws ws' name : (∀ pid, kill0 ws pid = true → kill0 ws' pid = true) → counted ws name = true → counted ws' name = true.
Proof. intros H. unfold counted. destruct (Sscanf _ _); [apply H|done]. Qed.

Lemma scanned_later y0 y y' seen ret :
  (∀ pid, kill0 (y_workers y') pid = true → kill0 (y_workers y) pid = true) → scanned y0 y seen ret → scanned y0 y' seen ret.
Proof.
  intros H [Hl Hu]. split; [|done]. etrans; [|exact Hl]. apply count_le. intros name. by apply counted_mono.
Qed.

(** Where worker [i] is after it listed the directory in [y0]. *)
Definition scanOk (i : nat) (y0 y : yard) : Prop :=
  (∀ pid, kill0 (y_workers y) pid = true → kill0 (y_workers y0) pid = true) ∧
  ∃ wk, y_workers y !! i = Some wk ∧
  match wk_pc wk with
  | NpLoop names ret => ∃ seen, seen ++ names = elements (y_names y0) ∧ scanned y0 y seen ret
  | NpSleep ret | NpDone ret => scanned y0 y (elements (y_names y0)) ret
  | _ => False
  end.

(** The step of another worker, or a death. *)
Lemma scanOk_other i y0 y y' wk wk' :
  scanOk i y0 y → (∀ pid, kill0 (y_workers y') pid = true → kill0 (y_workers y) pid = true) →
  y_workers y !! i = Some wk → y_workers y' !! i = Some wk' → wk_pc wk' = wk_pc wk → scanOk i y0 y'.
Proof.
  intros [Hk (x & Hx & Hs)] Hk' Hi Hi' E. simplify_eq. split; [auto|]. exists wk'. split; [done|]. rewrite E.
  destruct (wk_pc x); try done; [destruct Hs as (seen & ? & ?); exists seen; split; [done|]|..]; by eapply scanned_later.
Qed.

(** The next name. *)
Lemma scanned_next y0 y seen name ret :
  (∀ pid, kill0 (y_workers y) pid = true → kill0 (y_workers y0) pid = true) → scanned y0 y seen ret →
  scanned y0 y (seen ++ [name]) (if counted (y_workers y) name then ret + 1 else ret).
Proof.
  intros Hk [Hl Hu]. unfold scanned. rewrite !filter_app, !zlen_app, !filter_cons, !filter_nil.
  pose proof (counted_mono (y_workers y) (y_workers y0) name Hk) as Hm.
  destruct (counted (y_workers y) name) eqn:E; rewrite ?(Hm eq_refl), ?decide_True, ?decide_False by done;
    change (zlen []) with 0; rewrite ?zlen_cons; change (zlen []) with 0; [lia|].
  case_decide; rewrite ?zlen_cons; change (zlen []) with 0; lia.
Qed.

Lemma scanOk_step i y0 y e y' : e ≠ NextTask i → scanOk i y0 y → yStep e y = Some y' → scanOk i y0 y'.
Proof.
  intros Hne Hs H. pose proof (λ pid, yStep_alive e y y' pid H) as Hk.
  pose proof Hs as [Hk0 (wk & Hw & Hpc)].
  assert (∀ j wj, y_workers y !! j = Some wj → ∀ a pc names, y' = mkYard names (<[j := mkWorker (wk_pid wj) a pc]> (y_workers y)) →
    j ≠ i ∨ pc = wk_pc wj → scanOk i y0 y') as Hother.
  { intros j wj Hj a pc names -> Hc. destruct (decide (j = i)) as [->|Hji].
    - destruct Hc as [?| ->]; [done|]. simplify_eq. eapply scanOk_other; [done|done|exact Hw|simpl; apply list_lookup_insert_eq; by eapply lookup_lt_Some|done].
    - eapply scanOk_other; [done|done|exact Hw|simpl; by rewrite list_lookup_insert_ne|done]. }
  destruct e as [j|j|j]; simpl in H; [unfold npStep in H|..]; apply bind_Some in H as (wj & Hj & H).
  - destruct (wk_alive wj); [simpl in H|done]. destruct (decide (j = i)) as [->|Hji].
    + rewrite Hw in Hj. injection Hj as <-. pose proof (lookup_lt_Some _ _ _ Hw) as Hlt.
      destruct (wk_pc wk) as [| |[|name names] ret|ret|ret]; try done.
      * injection H as <-. split; [auto|]. eexists. simpl. rewrite list_lookup_insert_eq by done. split; [done|].
        destruct Hpc as (seen & <- & Hsc). rewrite app_nil_r. by eapply scanned_later.
      * injection H as <-. split; [auto|]. eexists. simpl. rewrite list_lookup_insert_eq by done. split; [done|].
        destruct Hpc as (seen & <- & Hsc). exists (seen ++ [name]). split; [by rewrite <-app_assoc|].
        eapply scanned_later; [exact Hk|]. by apply scanned_next.
      * case_decide; [|done]. injection H as <-. split; [auto|]. eexists. simpl. rewrite list_lookup_insert_eq by done.
        split; [done|]. by eapply scanned_later.
    + destruct (wk_pc wj) as [| |[|name names] ret|ret|ret]; try case_decide; simplify_eq; eapply (Hother j wj Hj); eauto.
  - destruct (wk_pc wj); try done. destruct (wk_alive wj); [|done]. injection H as <-. eapply (Hother j wj Hj); [done|]. left. congruence.
  - injection H as <-. eapply (Hother j wj Hj); [done|by right].
Qed.
End nparallel.

(** C34: what [nparallel] returns.  Workers with distinct process
    numbers run, sleep, finish, take the next task or are killed at any point and in any order,
    also between the steps of a scan, starting in a directory without files of workers.
    A worker lists, in one step, a directory of at most a million names in state [y0]; when its scan has ended, in state [y1],
    the number it returns is at most the number of live workers that were inside [nparallel] in [y0], itself included,
    at least the number of those of them that are still alive in [y1], and the former if no process
    died in between. *)
Theorem nparallel_counts phase others names pids es0 y0 i es1 y1 ret :
  NoDup pids → Forall (λ pid, 0 ≤ pid < 2 ^ 63) pids → (∀ name, name ∈ names → Sscanf name (workerPattern phase) = None) →
  ySteps phase others es0 (startYard names pids) = Some y0 →
  wk_pc <$> y_workers y0 !! i = Some NpList → zlen (elements (y_names y0)) ≤ 1000000 →
  NextTask i ∉ es1 → ySteps phase others (Runs i :: es1) y0 = Some y1 → wk_pc <$> y_workers y1 !! i = Some (NpSleep ret) →
  let count y := zlen (filter (λ wk, present others (y_workers y) wk = true) (y_workers y0)) in
  count y1 ≤ ret ≤ count y0 ∧ ((∀ j, Dies j ∉ es1) → ret = count y0).
Proof.
  intros Hnd Hr Hn Hst0 Hi Hlen Hnext Hst1 Hret count.
  assert (yinv phase y0) as Hy.
  { unfold ySteps in Hst0. refine (foldM_inv (yinv phase) _ es0 _ _ _ _ Hst0); [|by apply yinv_start]. intros e b b' _ Hb He. by eapply yinv_step. }
  unfold ySteps in Hst1. cbn [foldM] in Hst1. apply bind_Some in Hst1 as (y & Hy1 & Hst1).
  assert (scanOk phase others i y0 y) as Hs.
  { split; [intros pid; by eapply yStep_alive|]. simpl in Hy1. unfold npStep in Hy1. apply bind_Some in Hy1 as (wk & Hw & Hy1).
    destruct (wk_alive wk); [simpl in Hy1|done]. rewrite Hw in Hi. injection Hi as Epc. rewrite Epc in Hy1. injection Hy1 as <-.
    eexists. simpl. rewrite list_lookup_insert_eq by (by eapply lookup_lt_Some). split; [done|]. exists [].
    unfold Readdirnames. by rewrite firstN_all. }
  assert (scanOk phase others i y0 y1) as [_ (wk & Hw & Hpc)].
  { refine (foldM_inv (scanOk phase others i y0) _ es1 _ _ _ Hs Hst1). intros e b b' He Hb Hbb. eapply scanOk_step; [|done|done]. by intros ->. }
  rewrite Hw in Hret. injection Hret as Eret. rewrite Eret in Hpc. unfold scanned, zlen in Hpc. rewrite !(counted_files phase others y0), !length_fmap in Hpc by done.
  split; [exact Hpc|]. intros Hlive.
  assert (∀ pid, kill0 others (y_workers y1) pid = kill0 others (y_workers y0) pid) as Hk.
  { intros pid. etrans; [|by eapply yStep_noDeath; [|exact Hy1]].
    refine (foldM_inv (λ b, kill0 others (y_workers b) pid = kill0 others (y_workers y) pid) _ es1 _ _ _ eq_refl Hst1).
    intros e b b' He Hb Hbb. rewrite <-Hb. eapply yStep_noDeath; [|exact Hbb]. by intros j ->; destruct (Hlive j). }
  assert (count y1 = count y0) as E; [|unfold count, zlen in *; lia].
  unfold count. do 2 f_equal. apply list_filter_iff. intros wk'. unfold present. by rewrite Hk.
Qed.

(** Workers 0, 1 and 2 are inside; worker 2 lists the directory, then worker 1 is killed before it is
    asked whether it lives: the count is one less than the workers there were. *)
Definition overlapRun : list yevent := [Runs 0; Runs 1; Runs 2].
Definition scanRun : list yevent := [Dies 1; Runs 2; Runs 2; Runs 2; Runs 2; Runs 2].
Definition overlapEnd : yard :=
  default (startYard ∅ []) (ySteps "map" (λ _, false) overlapRun (startYard {["f"]} [11; 12; 13])).
Definition scanEnd : yard := default (startYard ∅ []) (ySteps "map" (λ _, false) (Runs 2 :: scanRun) overlapEnd).

Lemma nparallel_counts_witness :
  wk_pc <$> y_workers scanEnd !! 2%nat = Some (NpSleep 2) ∧
  zlen (filter (λ wk, present (λ _, false) (y_workers scanEnd) wk = true) (y_workers overlapEnd)) ≤ 2 ≤
  zlen (filter (λ wk, present (λ _, false) (y_workers overlapEnd) wk = true) (y_workers overlapEnd)).
Proof.
  assert (wk_pc <$> y_workers scanEnd !! 2%nat = Some (NpSleep 2)) as E by (vm_compute; reflexivity). split; [exact E|].
  refine (proj1 (nparallel_counts "map" (λ _, false) {["f"]} [11; 12; 13] overlapRun overlapEnd 2 scanRun scanEnd 2 _ _ _ _ _ _ _ _ E)).
  - apply (bool_decide_unpack _). vm_compute. exact I.
  - repeat constructor; lia.
  - intros name ->%elem_of_singleton. vm_compute. reflexivity.
  - vm_compute. reflexivity.
  - vm_compute. reflexivity.
  - apply Z.leb_le. vm_compute. reflexivity.
  - intros Hin. repeat (apply elem_of_cons in Hin as [?|Hin]; [done|]). by apply elem_of_nil in Hin.
  - vm_compute. reflexivity.
Defined.

(** ** [mtiming.go] and [rtiming.go] *)

(** [Map] of [mtiming.go]: [ts] is the start time printed with one decimal, [n] what [nparallel] returned. *)
Definition mtimingMap (pid : Z) (ts : string) (n : Z) : list KeyValue :=
  [mkKeyValue ("times-" +:+ Itoa pid) ts; mkKeyValue ("parallel-" +:+ Itoa pid) (Itoa n)].
Definition mtimingReduce (key : string) (values : list string) : string := Join " " (sortStrings values).

Definition rtimingMap (filename contents : string) : list KeyValue :=
  (λ k, mkKeyValue k "1") <$> ["a"; "b"; "c"; "d"; "e"; "f"; "g"; "h"; "i"; "j"]%string.
(** [Reduce] of [rtiming.go] with what [nparallel] returned. *)
Definition rtimingReduce (n : Z) (key : string) (values : list string) : string := Itoa n.

(** ** [nocrash.go] *)

(** [maybeCrash]: the condition is [false && ...], so the process goes on. *)
Definition maybeCrash (rr : Z) : bool := false && (rr <? 500).

Definition nocrashMap (rr : Z) (filename contents : string) : option (list KeyValue) :=
  if maybeCrash rr then None else
  Some [mkKeyValue "a" filename; mkKeyValue "b" (Itoa (Z.of_nat (String.length filename)));
        mkKeyValue "c" (Itoa (Z.of_nat (String.length contents))); mkKeyValue "d" "xyzzy"].
Definition nocrashReduce (rr : Z) (key : string) (values : list string) : option string :=
  if maybeCrash rr then None else Some (Join " " (sortStrings values)).

(** It computes what [crash] computes when it does not crash. *)
Lemma nocrash_crash rr filename contents key values :
  nocrashMap rr filename contents = Some (crashMap filename contents) ∧ nocrashReduce rr key values = Some (crashReduce key values).
Proof. done. Qed.

(** ** [jobcount.go] *)

(** The directory, and the variable [count] of every worker process. *)
Record jobs := mkJobs { j_names : gset string; j_count : gmap Z Z }.

Definition jobFile (pid count : Z) : string := "mr-worker-jobcount-" +:+ Itoa pid +:+ "-" +:+ Itoa count.

(** [Map] run by process [me]. *)
Definition jobcountMap (me : Z) (j : jobs) : list KeyValue * jobs :=
  let count := default 0 (j_count j !! me) in
  ([mkKeyValue "a" "x"], mkJobs ({[jobFile me count]} ∪ j_names j) (<[me := count + 1]> (j_count j))).

(** [strings.HasPrefix(s, p)] *)
Definition HasPrefix (s p : string) : bool := bool_decide (is_Some (stripPrefix p s)).

(** [Reduce] *)
Definition invocations (j : jobs) : Z :=
  foldl (λ n name, if HasPrefix name "mr-worker-jobcount" then n + 1 else n) 0 (elements (j_names j)).
Definition jobcountReduce (j : jobs) (key : string) (values : list string) : string := Itoa (invocations j).

(** The names [Map] has used. *)
Record jinv (others : gset string) (done : list (Z * Z)) (j : jobs) : Prop := {
  ji_names : j_names j = list_to_set ((λ x, jobFile x.1 x.2) <$> done) ∪ others;
  ji_nodup : NoDup done;
  ji_range pid c : (pid, c) ∈ done → 0 ≤ pid < 2 ^ 63 ∧ 0 ≤ c < default 0 (j_count j !! pid);
}.

(** Different invocations use different names. *)
Lemma jobFile_inj pid c pid' c' :
  0 ≤ pid < 2 ^ 63 → 0 ≤ c → 0 ≤ pid' < 2 ^ 63 → 0 ≤ c' → jobFile pid c = jobFile pid' c' → pid = pid' ∧ c = c'.
Proof.
  intros Hp Hc Hp' Hc' E. unfold jobFile in E. apply (f_equal (stripPrefix "mr-worker-jobcount-")) in E.
  rewrite !stripPrefix_app in E. injection E as E. pose proof (scanInt_Itoa pid ("-" +:+ Itoa c) Hp eq_refl) as S1.
  rewrite E, scanInt_Itoa in S1 by done. injection S1 as -> E'. split; [done|].
  pose proof (scanDigits_Itoa c EmptyString Hc I) as S2. rewrite append_nil in S2.
  pose proof (scanDigits_Itoa c' EmptyString Hc' I) as S3. rewrite append_nil in S3.
  change (Itoa c' = Itoa c) in E'. rewrite E' in S3. congruence.
Qed.

Lemma jobFile_prefix pid c : HasPrefix (jobFile pid c) "mr-worker-jobcount" = true.
Proof.
  unfold HasPrefix, jobFile. apply bool_decide_eq_true.
  change ("mr-worker-jobcount-" +:+ Itoa pid +:+ "-" +:+ Itoa c)
    with ("mr-worker-jobcount" +:+ ("-" +:+ Itoa pid +:+ "-" +:+ Itoa c)).
  rewrite stripPrefix_app. by eexists.
Qed.

(** The invocations of [Map], by the processes that ran them. *)
Definition runMaps (pids : list Z) (j : jobs) : jobs := foldl (λ j me, (jobcountMap me j).2) j pids.

Lemma jinv_map others dn me j :
  0 ≤ me < 2 ^ 63 → 0 ≤ default 0 (j_count j !! me) → jinv others dn j →
  jinv others ((me, default 0 (j_count j !! me)) :: dn) (jobcountMap me j).2.
Proof.
  intros Hme H0 [Hn Hd Hr]. unfold jobcountMap. set (count := default 0 (j_count j !! me)) in *. split; simpl.
  - rewrite Hn. by rewrite (assoc_L (∪)).
  - constructor; [|done]. intros Hin. destruct (Hr _ _ Hin) as [_ ?]. unfold count in *. lia.
  - intros pid c [[= -> ->]|Hin]%elem_of_cons; [rewrite lookup_insert_eq; simpl; lia|].
    destruct (Hr _ _ Hin) as [? ?]. destruct (decide (me = pid)) as [<-|?].
    + rewrite lookup_insert_eq. simpl. unfold count. lia.
    + by rewrite lookup_insert_ne.
Qed.

Lemma runMaps_jinv others pids j dn :
  Forall (λ pid, 0 ≤ pid < 2 ^ 63) pids → (∀ me, 0 ≤ default 0 (j_count j !! me)) → jinv others dn j →
  ∃ dn', jinv others dn' (runMaps pids j) ∧ length dn' = (length dn + length pids)%nat.
Proof.
  unfold runMaps. intros Hp. revert j dn. induction Hp as [|me pids Hme _ IH]; intros j dn Hc Hj; [exists dn; simpl; split; [done|lia]|].
  simpl. destruct (IH (jobcountMap me j).2 ((me, default 0 (j_count j !! me)) :: dn)) as (dn' & Hj' & Hl).
  - intros p. simpl. destruct (decide (me = p)) as [<-|?]; [rewrite lookup_insert_eq; simpl; specialize (Hc me); lia|by rewrite lookup_insert_ne].
  - by apply jinv_map.
  - exists dn'. split; [done|]. simpl in Hl. lia.
Qed.

Lemma invocations_done others dn j :
  (∀ name, name ∈ others → HasPrefix name "mr-worker-jobcount" = false) → jinv others dn j → invocations j = zlen dn.
Proof.
  intros Ho [Hn Hd Hr]. unfold invocations. rewrite count_fold, Z.add_0_l.
  assert (filter (λ name, HasPrefix name "mr-worker-jobcount" = true) (elements (j_names j)) ≡ₚ (λ x, jobFile x.1 x.2) <$> dn) as Hp.
  { apply NoDup_Permutation; [apply NoDup_filter, NoDup_elements| |].
    - clear Hn Ho. induction Hd as [|[p c] dn Hni Hd IH]; [constructor|]. simpl. constructor; [|apply IH; intros; apply Hr; set_solver].
      intros ([p' c'] & E & Hin)%list_elem_of_fmap. destruct (Hr p c) as [? ?]; [set_solver|]. destruct (Hr p' c') as [? ?]; [set_solver|].
      destruct (jobFile_inj p c p' c') as [-> ->]; try done; try lia.
    - intros name. rewrite list_elem_of_filter, elem_of_elements, Hn, elem_of_union, elem_of_list_to_set. split.
      + intros [Hpre [?|Hin]]; [done|]. by rewrite (Ho name Hin) in Hpre.
      + intros Hin. split; [|by left]. apply list_elem_of_fmap in Hin as (x & -> & _). apply jobFile_prefix. }
  unfold zlen. by rewrite Hp, length_fmap.
Qed.

(** The job count test counts: in a directory without files of [jobcount], after any
    number of invocations of [Map] by any processes, [Reduce] reports that number. *)
Theorem jobcount_counts names pids key values :
  Forall (λ pid, 0 ≤ pid < 2 ^ 63) pids → (∀ name, name ∈ names → HasPrefix name "mr-worker-jobcount" = false) →
  jobcountReduce (runMaps pids (mkJobs names ∅)) key values = Itoa (zlen pids).
Proof.
  intros Hp Hn. unfold jobcountReduce. destruct (runMaps_jinv names pids (mkJobs names ∅) []) as (dn & Hj & Hl); [done| | |].
  - intros me. simpl. by rewrite lookup_empty.
  - split; simpl; [by rewrite (left_id_L ∅ (∪))|constructor|set_solver].
  - rewrite (invocations_done names dn) by done. unfold zlen. by rewrite Hl.
Qed.
