(* ===== verification/Programs.v ===== *)
(** * The command-line programs ([main]) and the debug output

    What each program does with its arguments before it calls its package, the
    loading of an application's plugin, and the lines [Debug] of [raft/util.go] and
    [kvraft/common.go] prints at the level [VERBOSE] asks for.  The packages of
    [diskvd], [lockd], [pbd], [viewd] and their clients are not in the
    repository: a program ends in the call it makes.  [os.Exit], [log.Fatalf] and panics are
    outcomes. *)

From stdpp Require Import pretty.
From S2P Require Import Prelude Decimal Runes MrWorker MrEquivalence MrCoordinator MrCoordinatorFacts MrSystem MrApps MrTiming.
Open Scope go_scope.

(** How a program goes on. *)
Inductive run (A : Type) :=
  | Exit (code : Z)
  | Fatalf
  | Panics
  | Calls (a : A).
Arguments Exit {_}.
Arguments Fatalf {_}.
Arguments Panics {_}.
Arguments Calls {_}.

(** ** [strconv] *)

Inductive numError := ErrSyntax | ErrRange.

(** The loop of [ParseUint(s, 10, 64)] after [n]. *)
Fixpoint parseDigits (s : string) (n : Z) : Z * option numError :=
  match s with
  | EmptyString => (n, None)
  | String c s' =>
      match digitOf c with
      | None => (0, Some ErrSyntax)
      | Some d =>
          if (2 ^ 64 - 1) / 10 + 1 <=? n then (2 ^ 64 - 1, Some ErrRange)
          else let n1 := n * 10 + d in
               if 2 ^ 64 - 1 <? n1 then (2 ^ 64 - 1, Some ErrRange) else parseDigits s' n1
      end
  end.
Definition ParseUint (s : string) : Z * option numError :=
  match s with EmptyString => (0, Some ErrSyntax) | _ => parseDigits s 0 end.

(** [ParseInt(s, 10, 64)], which is [Atoi] on 64 bits. *)
Definition ParseInt (s : string) : Z * option numError :=
  match s with
  | EmptyString => (0, Some ErrSyntax)
  | String c s' =>
      let k := Ascii.nat_of_ascii c in
      let neg := bool_decide (k = 45)%nat in
      let '(un, err) := ParseUint (if neg || bool_decide (k = 43)%nat then s' else s) in
      match err with
      | Some ErrSyntax => (0, err)
      | _ => if negb neg && (2 ^ 63 <=? un) then (2 ^ 63 - 1, Some ErrRange)
             else if neg && (2 ^ 63 <? un) then (- 2 ^ 63, Some ErrRange)
             else (if neg then - un else un, None)
      end
  end.
Definition Atoi (s : string) : Z * option numError := ParseInt s.

(** [ParseBool], with [false] beside its error. *)
Definition ParseBool (s : string) : bool :=
  bool_decide (s ∈ ["1"; "t"; "T"; "true"; "TRUE"; "True"]).

(** Reading back what [Itoa] printed. *)
Lemma parseDigits_scan s n v :
  0 ≤ n → scanDigits s n true = Some (v, EmptyString) → v < 2 ^ 64 → n ≤ v ∧ parseDigits s n = (v, None).
Proof.
  revert n. induction s as [|c s IH]; intros n Hn; simpl; [intros [= <-] _; split; [lia|done]|].
  destruct (digitOf c) as [d|] eqn:Hd; [|done]. intros Hs Hv.
  assert (0 ≤ d) as Hd0 by (unfold digitOf in Hd; case_match; bool_simpl; simplify_eq; lia).
  destruct (IH (n * 10 + d) ltac:(lia) Hs Hv) as [Hle Hp]. split; [lia|].
  destruct (_ <=? n) eqn:E1; bool_simpl; [assert ((2 ^ 64 - 1) / 10 + 1 = 1844674407370955162) by reflexivity; lia|].
  destruct (_ <? _) eqn:E2; bool_simpl; [lia|done].
Qed.

Lemma ParseInt_Itoa x : 0 ≤ x < 2 ^ 63 → ParseInt (Itoa x) = (x, None).
Proof.
  intros Hx. destruct (Itoa_head x EmptyString) as (c & r & Hs & d & Hd); [lia|]. rewrite append_nil in Hs.
  pose proof (scanDigits_Itoa x EmptyString ltac:(lia) I) as Hsc. rewrite append_nil in Hsc.
  unfold ParseInt. rewrite Hs.
  assert (48 ≤ Ascii.nat_of_ascii c)%nat as Hc by (unfold digitOf in Hd; case_match; bool_simpl; [lia|done]).
  rewrite !bool_decide_eq_false_2 by lia. rewrite Hs in Hsc. cbn [scanDigits orb] in *. rewrite Hd in Hsc.
  assert (0 ≤ d ≤ 9) as Hd9 by (unfold digitOf in Hd; case_match; bool_simpl; simplify_eq; lia).
  destruct (parseDigits_scan r (0 * 10 + d) x ltac:(lia) Hsc) as [_ Hp]; [lia|]. unfold ParseUint. cbn [parseDigits]. rewrite Hd.
  simpl in *.
  destruct (2 ^ 64 - 1 <? 0 * 10 + d) eqn:E2; bool_simpl; [lia|]. rewrite Hp. destruct (2 ^ 63 <=? x) eqn:E; bool_simpl; [lia|done].
Qed.

(** ** Plugins *)

(** What [p.Lookup(name)] finds: the [Map] or the [Reduce] of an application, or a
    symbol of another type. *)
Inductive symbol :=
  | SymMap (mapf : string → string → list KeyValue)
  | SymReduce (reducef : string → list string → string)
  | SymOther.

(** [func loadPlugin(filename string)] of [mrworker.go] and [mrsequential.go];
    [open] is [plugin.Open], whose plugin is its [Lookup]. *)
Definition loadPlugin (open : string → option (string → option symbol)) (filename : string)
    : run ((string → string → list KeyValue) * (string → list string → string)) :=
  match open filename with
  | None => Fatalf
  | Some p =>
      match p "Map" with
      | None => Fatalf
      | Some (SymMap mapf) =>
          match p "Reduce" with
          | None => Fatalf
          | Some (SymReduce reducef) => Calls (mapf, reducef)
          | Some _ => Panics
          end
      | Some _ => Panics
      end
  end.

(** ** MapReduce: [mrcoordinator.go], [mrworker.go] and [mrsequential.go] *)

(** The coordinator [main] makes; it then waits until [Done]. *)
Definition mrcoordinator (args : list string) : run Coordinator :=
  if zlen args <? 2 then Exit 1
  else match slice_from args 1 with Some files => Calls (MakeCoordinator files 10) | None => Panics end.

(** The application [mr.Worker] is called with. *)
Definition mrworker (open : string → option (string → option symbol)) (args : list string)
    : run ((string → string → list KeyValue) * (string → list string → string)) :=
  if negb (zlen args =? 2) then Exit 1
  else match idx args 1 with Some file => loadPlugin open file | None => Panics end.

(** The application and the input files of the sequential program. *)
Definition mrsequentialArgs (open : string → option (string → option symbol)) (args : list string)
    : run ((string → string → list KeyValue) * (string → list string → string) * list string) :=
  if zlen args <? 3 then Exit 1
  else match idx args 1, slice_from args 2 with
       | Some file, Some names =>
           match loadPlugin open file with
           | Calls (mapf, reducef) => Calls (mapf, reducef, names)
           | Exit c => Exit c | Fatalf => Fatalf | Panics => Panics
           end
       | _, _ => Panics
       end.

(** ** [lockc.go], [lockd.go], [pbc.go], [pbd.go], [viewd.go] *)

Inductive serviceCall :=
  | LockCall (primary backup lockname : string)
  | UnlockCall (primary backup lockname : string)
  | LockServer (primary backup : string) (isPrimary : bool)
  | PbGet (viewport key : string)
  | PbPut (viewport key value : string)
  | PbServer (viewport myport : string)
  | ViewServer (port : string).

Definition lockc (args : list string) : run serviceCall :=
  match args with
  | [_; flag; primary; backup; lockname] =>
      if bool_decide (flag = "-l") then Calls (LockCall primary backup lockname)
      else if bool_decide (flag = "-u") then Calls (UnlockCall primary backup lockname)
      else Exit 1
  | _ => Exit 1
  end.
Definition lockd (args : list string) : run serviceCall :=
  match args with
  | [_; flag; primary; backup] =>
      if bool_decide (flag = "-p") then Calls (LockServer primary backup true)
      else if bool_decide (flag = "-b") then Calls (LockServer primary backup false)
      else Exit 1
  | _ => Exit 1
  end.
Definition pbc (args : list string) : run serviceCall :=
  match args with
  | [_; viewport; key] => Calls (PbGet viewport key)
  | [_; viewport; key; value] => Calls (PbPut viewport key value)
  | _ => Exit 1
  end.
Definition pbd (args : list string) : run serviceCall :=
  match args with [_; viewport; myport] => Calls (PbServer viewport myport) | _ => Exit 1 end.
Definition viewd (args : list string) : run serviceCall :=
  match args with [_; port] => Calls (ViewServer port) | _ => Exit 1 end.

(** ** [diskvd.go] *)

(** The variables of [main], which become the arguments of [diskv.StartServer]. *)
Record options := mkOptions {
  gid : Z; masters : list string; replicas : list string; dk_me : Z;
  unreliable : bool; dir : string; restart : bool;
}.

(** The loop over pairs of arguments; [None] is [usage()]. *)
Fixpoint parseOptions (args : list string) (o : options) : option options :=
  match args with
  | a0 :: a1 :: rest =>
      let '(mkOptions g m s i u d r) := o in
      if bool_decide (a0 = "-g") then parseOptions rest (mkOptions (ParseInt a1).1 m s i u d r)
      else if bool_decide (a0 = "-m") then parseOptions rest (mkOptions g (m ++ [a1]) s i u d r)
      else if bool_decide (a0 = "-s") then parseOptions rest (mkOptions g m (s ++ [a1]) i u d r)
      else if bool_decide (a0 = "-i") then parseOptions rest (mkOptions g m s (Atoi a1).1 u d r)
      else if bool_decide (a0 = "-u") then parseOptions rest (mkOptions g m s i (ParseBool a1) d r)
      else if bool_decide (a0 = "-d") then parseOptions rest (mkOptions g m s i u a1 r)
      else if bool_decide (a0 = "-r") then parseOptions rest (mkOptions g m s i u d (ParseBool a1))
      else None
  | _ => Some o
  end.

Definition diskvd (args : list string) : run options :=
  match parseOptions (drop 1 args) (mkOptions (-1) [] [] (-1) false EmptyString false) with
  | None => Exit 1
  | Some o =>
      if (gid o <? 0) || (dk_me o <? 0) || (zlen (masters o) <? 1) || (zlen (replicas o) <=? dk_me o) || bool_decide (dir o = EmptyString)
      then Exit 1 else Calls o
  end.

(** The command line for some options. *)
Definition boolArg (b : bool) : string := if b then "true" else "false".
Definition commandLine (o : options) : list string :=
  "diskvd" :: "-g" :: Itoa (gid o) :: "-i" :: Itoa (dk_me o) :: "-u" :: boolArg (unreliable o)
  :: "-d" :: dir o :: "-r" :: boolArg (restart o)
  :: (masters o ≫= λ m, ["-m"; m]) ++ (replicas o ≫= λ s, ["-s"; s]).

Lemma parseOptions_masters ms rest g m s i u d r :
  parseOptions ((ms ≫= λ x, ["-m"; x]) ++ rest) (mkOptions g m s i u d r) = parseOptions rest (mkOptions g (m ++ ms) s i u d r).
Proof.
  revert m. induction ms as [|x ms IH]; intros m; [by rewrite app_nil_r|].
  simpl. rewrite IH. by rewrite <- app_assoc.
Qed.

Lemma parseOptions_replicas ss g m s i u d r :
  parseOptions (ss ≫= λ x, ["-s"; x]) (mkOptions g m s i u d r) = Some (mkOptions g m (s ++ ss) i u d r).
Proof.
  revert s. induction ss as [|x ss IH]; intros s; [by rewrite app_nil_r|].
  simpl. rewrite IH. by rewrite <- app_assoc.
Qed.

(** The other options, each given once. *)
Lemma parseOptions_rest a b c d e rest o g m s i u d0 r :
  o = mkOptions g m s i u d0 r →
  parseOptions ("-g" :: a :: "-i" :: b :: "-u" :: c :: "-d" :: d :: "-r" :: e :: rest) o =
  parseOptions rest (mkOptions (ParseInt a).1 m s (Atoi b).1 (ParseBool c) d (ParseBool e)).
Proof. intros ->. reflexivity. Qed.

Lemma ParseBool_boolArg b : ParseBool (boolArg b) = b.
Proof. by destruct b. Qed.

(** The server is started with the options on its command line. *)
Theorem diskvd_roundtrip o :
  0 ≤ gid o < 2 ^ 63 → 0 ≤ dk_me o < zlen (replicas o) → zlen (replicas o) < 2 ^ 63 → masters o ≠ [] → dir o ≠ EmptyString →
  diskvd (commandLine o) = Calls o.
Proof.
  intros Hg Hi Hr Hm Hd. unfold diskvd, commandLine. rewrite skipn_cons, drop_0.
  erewrite parseOptions_rest by done. rewrite !ParseBool_boolArg. unfold Atoi. rewrite !ParseInt_Itoa by lia. cbn [fst].
  rewrite parseOptions_masters, parseOptions_replicas. simpl. destruct o as [g m s i u d r]. simpl in *.
  assert (0 < zlen m) by (destruct m; [done|rewrite zlen_cons; pose proof (zlen_nonneg m); lia]).
  rewrite bool_decide_eq_false_2 by done. repeat case_match; bool_simpl; [|done]. destruct_or?; (lia || done).
Qed.

(** A group number that is not a number is taken for group 0. *)
Lemma diskvd_bad_gid : ∃ o, diskvd ["diskvd"; "-g"; "x"; "-m"; "a"; "-s"; "b"; "-i"; "0"; "-d"; "d"] = Calls o ∧ gid o = 0.
Proof. eexists. split; [vm_compute; reflexivity|done]. Qed.

(** ** Debug output ([raft/util.go], [kvraft/common.go]) *)

(** [func getVerbosity() int] on the value of [VERBOSE]. *)
Definition getVerbosity (v : string) : run Z :=
  if bool_decide (v = EmptyString) then Calls 0
  else match Atoi v with (level, None) => Calls level | (_, Some _) => Fatalf end.

(** [%06d] *)
Fixpoint pad (n : nat) (s : string) : string :=
  match n with O => s | S n => pad n (String (Ascii.ascii_of_nat 48) s) end.
Definition sprintf06d (x : Z) : string := let s := Itoa x in pad (6 - String.length s) s.

(** The format [Debug] gives to [log.Printf], [micros] after the start. *)
Definition debugLine (micros : Z) (topic format : string) : string :=
  sprintf06d (micros ÷ 100) +:+ " " +:+ topic +:+ " " +:+ format.
Definition raftDebug (debugVerbosity micros : Z) (topic format : string) : option string :=
  if (debugVerbosity =? 1) || (debugVerbosity =? -1) then Some (debugLine micros topic format) else None.
Definition kvraftDebug (debugVerbosity micros : Z) (topic format : string) : option string :=
  if (debugVerbosity =? 2) || (debugVerbosity =? -1) then Some (debugLine micros topic format) else None.

(** Raft and the service print together only at level -1, and no other level than
    1, 2 and -1 prints. *)
Lemma debug_levels v t topic format :
  (is_Some (raftDebug v t topic format) ∧ is_Some (kvraftDebug v t topic format) ↔ v = -1) ∧
  (raftDebug v t topic format = None ∧ kvraftDebug v t topic format = None ↔ v ≠ 1 ∧ v ≠ 2 ∧ v ≠ -1).
Proof.
  unfold raftDebug, kvraftDebug. rewrite !is_Some_alt.
  destruct (v =? 1) eqn:E1, (v =? 2) eqn:E2, (v =? -1) eqn:E3; bool_simpl; subst; simpl; naive_solver lia.
Qed.
