(* ===== verification/LabRpc.v ===== *)
(** * The simulated network ([labrpc])

    [labrpc/labrpc.go]: the configuration of a [Network] (ends, connections,
    servers, reliability), the dispatch of a request to a method of a service,
    and [processReq] with the goroutine it starts, as a step function on the
    requests in flight.  Random choices are the choice of the step.  What a
    service does with the bytes of a request, decoding and encoding included, is
    a function of its state. *)

From S2P Require Import Prelude.
Open Scope go_scope.

(** ** Messages *)

(** [type reqMsg struct] and [type replyMsg struct]; names of ends and servers are integers. *)
Record reqMsg := mkReq { endname : Z; svcMeth : string; args : bytes }.
Record replyMsg := mkReplyMsg { rok : bool; rbytes : bytes }.

(** ** Services and servers *)

Section labrpc.
Context {S : Type}.

(** A handler method: it decodes the arguments, runs on the state of its
    receiver, and encodes the reply. *)
Definition method : Type := bytes → S → bytes * S.

(** [type Service struct] *)
Record Service := mkService { svc_name : string; methods : gmap string method }.

(** What [MakeService] reads of a method of the receiver's type by reflection:
    its name, whether it is exported ([PkgPath] is empty), the number of its
    arguments, receiver included, whether the third is a pointer, and the number
    of its results. *)
Record reflectMethod := mkReflectMethod {
  rm_name : string; rm_exported : bool; rm_numIn : Z; rm_in2_ptr : bool; rm_numOut : Z; rm_func : method }.

(** The test of [MakeService] on a method; [In(2)] is only read when there are three arguments. *)
Definition suitable (m : reflectMethod) : bool :=
  negb (negb (rm_exported m) || negb (rm_numIn m =? 3)%Z || negb (rm_in2_ptr m) || negb (rm_numOut m =? 0)%Z).

(** [func MakeService(rcvr) *Service] *)
Definition MakeService (name : string) (ms : list reflectMethod) : Service :=
  mkService name (foldl (λ acc m, if suitable m then <[rm_name m := rm_func m]> acc else acc) ∅ ms).

(** [type Server struct] *)
Record Server := mkServer { services : gmap string Service; sv_count : Z }.

(** [func MakeServer() *Server], [func (rs *Server) AddService(svc)] *)
Definition MakeServer : Server := mkServer ∅ 0.
Definition AddService (svc : Service) (rs : Server) : Server :=
  mkServer (<[svc_name svc := svc]> (services rs)) (sv_count rs).

(** The byte of ["."]. *)
Definition dot : Ascii.ascii := Ascii.ascii_of_nat 46.

(** [strings.LastIndex(s, ".")] on the bytes of a string, as the split around
    the last dot; [None] when there is none. *)
Fixpoint splitLastDot (s : string) : option (string * string) :=
  match s with
  | EmptyString => None
  | String.String c s' =>
      match splitLastDot s' with
      | Some (a, b) => Some (String.String c a, b)
      | None => if Ascii.eqb c dot then Some (EmptyString, s') else None
      end
  end.

(** [func (svc *Service) dispatch(methname, req) replyMsg]: [None] is [log.Fatalf]. *)
Definition serviceDispatch (svc : Service) (methname : string) (req : reqMsg) (s : S)
    : option (replyMsg * S) :=
  match (methods svc !! methname : option method) with
  | Some f => let (reply, s') := f (args req) s in Some (mkReplyMsg true reply, s')
  | None => None
  end.

(** [func (rs *Server) dispatch(req) replyMsg]: [None] is [log.Fatalf], or the
    panic of the slice when the name has no dot. *)
Definition dispatch (rs : Server) (req : reqMsg) (s : S) : option (replyMsg * Server * S) :=
  '(serviceName, methodName) ← splitLastDot (svcMeth req);
  svc ← services rs !! serviceName;
  '(r, s') ← serviceDispatch svc methodName req s;
  Some (r, mkServer (services rs) (sv_count rs + 1), s').

(** ** The network *)

(** [type Network struct]; a server is the address of its object, [None] is
    [nil].  [heap] are the server objects. *)
Record Network := mkNetwork {
  reliable : bool;
  longDelays : bool;
  longReordering : bool;
  ends : gset Z;
  enabled : gmap Z bool;
  servers : gmap Z (option nat);
  connections : gmap Z (option Z);
  rdone : bool;
  rcount : Z;
  totalBytes : Z;
  heap : list (Server * S);
}.

Definition MakeNetwork : Network := mkNetwork true false false ∅ ∅ ∅ ∅ false 0 0 [].

(** [close(rn.done)]: [None] is the panic of closing it again. *)
Definition Cleanup (rn : Network) : option Network :=
  if rdone rn then None else
  Some (mkNetwork (reliable rn) (longDelays rn) (longReordering rn) (ends rn) (enabled rn) (servers rn)
    (connections rn) true (rcount rn) (totalBytes rn) (heap rn)).
Definition Reliable (yes : bool) (rn : Network) : Network :=
  mkNetwork yes (longDelays rn) (longReordering rn) (ends rn) (enabled rn) (servers rn)
    (connections rn) (rdone rn) (rcount rn) (totalBytes rn) (heap rn).
Definition LongReordering (yes : bool) (rn : Network) : Network :=
  mkNetwork (reliable rn) (longDelays rn) yes (ends rn) (enabled rn) (servers rn)
    (connections rn) (rdone rn) (rcount rn) (totalBytes rn) (heap rn).
Definition LongDelays (yes : bool) (rn : Network) : Network :=
  mkNetwork (reliable rn) yes (longReordering rn) (ends rn) (enabled rn) (servers rn)
    (connections rn) (rdone rn) (rcount rn) (totalBytes rn) (heap rn).

(** The maps of ends, servers and connections, replaced. *)
Definition setMaps (es : gset Z) (en : gmap Z bool) (sv : gmap Z (option nat)) (cs : gmap Z (option Z))
    (rn : Network) : Network :=
  mkNetwork (reliable rn) (longDelays rn) (longReordering rn) es en sv cs
    (rdone rn) (rcount rn) (totalBytes rn) (heap rn).

(** [func (rn *Network) MakeEnd(endname) *ClientEnd]: [None] is [log.Fatalf]. *)
Definition MakeEnd (e : Z) (rn : Network) : option Network :=
  if decide (e ∈ ends rn) then None
  else Some (setMaps ({[e]} ∪ ends rn) (<[e := false]> (enabled rn)) (servers rn)
               (<[e := None]> (connections rn)) rn).

Definition DeleteEnd (e : Z) (rn : Network) : option Network :=
  if decide (e ∈ ends rn)
  then Some (setMaps (ends rn ∖ {[e]}) (delete e (enabled rn)) (servers rn) (delete e (connections rn)) rn)
  else None.

(** [AddServer(servername, rs)] with a server object already on the heap. *)
Definition AddServer (name : Z) (rs : nat) (rn : Network) : Network :=
  setMaps (ends rn) (enabled rn) (<[name := Some rs]> (servers rn)) (connections rn) rn.
Definition DeleteServer (name : Z) (rn : Network) : Network :=
  setMaps (ends rn) (enabled rn) (<[name := None]> (servers rn)) (connections rn) rn.
Definition Connect (e name : Z) (rn : Network) : Network :=
  setMaps (ends rn) (enabled rn) (servers rn) (<[e := Some name]> (connections rn)) rn.
Definition Enable (e : Z) (yes : bool) (rn : Network) : Network :=
  setMaps (ends rn) (<[e := yes]> (enabled rn)) (servers rn) (connections rn) rn.

(** [rn.servers[servername]], [nil] when absent. *)
Definition serverOf (name : Z) (rn : Network) : option nat := mjoin (servers rn !! name).

(** [func (rn *Network) readEndnameInfo(endname) (enabled, servername, server, reliable, longreordering)] *)
Definition readEndnameInfo (e : Z) (rn : Network) : bool * option Z * option nat * bool * bool :=
  let name := mjoin (connections rn !! e) in
  (default false (enabled rn !! e), name, name ≫= λ n, serverOf n rn, reliable rn, longReordering rn).

(** [func (rn *Network) isServerDead(endname, servername, server) bool] *)
Definition isServerDead (e name : Z) (srv : nat) (rn : Network) : bool :=
  negb (default false (enabled rn !! e)) || negb (bool_decide (serverOf name rn = Some srv)).

(** [func (rn *Network) GetCount(servername) int]: [None] is the dereference of
    a nil server; [GetTotalCount] and [GetTotalBytes]. *)
Definition GetCount (name : Z) (rn : Network) : option Z :=
  srv ← serverOf name rn; '(sv, _) ← heap rn !! srv; Some (sv_count sv).
Definition GetTotalCount (rn : Network) : Z := rcount rn.
Definition GetTotalBytes (rn : Network) : Z := totalBytes rn.

Definition setHeap (h : list (Server * S)) (rn : Network) : Network :=
  mkNetwork (reliable rn) (longDelays rn) (longReordering rn) (ends rn) (enabled rn) (servers rn)
    (connections rn) (rdone rn) (rcount rn) (totalBytes rn) h.

(** ** Requests in flight *)

(** What [processReq] read at its start: server name, server, [reliable], [longreordering]. *)
Record route := mkRoute { rt_name : Z; rt_server : nat; rt_reliable : bool; rt_reorder : bool }.

(** The program points of [Call] and [processReq] for one request. *)
Inductive req_pc :=
  | QSent                                   (* e.ch <- req *)
  | QDelay (rt : route)                     (* the short delay before the drop test *)
  | QWait (rt : route)                      (* the loop on ech *)
  | QReplied (rt : route) (r : replyMsg)    (* replyOK; before the last isServerDead *)
  | QReturning (r : replyMsg)               (* req.replyCh <- reply, maybe delayed *)
  | QNoReply                                (* the eventual timeout of the else branch *)
  | QReturned (r : option bytes).           (* Call returned: the reply's bytes, or false *)

(** The goroutine that runs the handler. *)
Inductive exec_pc := XNone | XPending (srv : nat) | XDone (r : replyMsg).

Record request := mkRequest { q_msg : reqMsg; q_pc : req_pc; q_exec : exec_pc }.

Record netState := mkNet { net : Network; reqs : list request; ran : list (nat * bytes) }.

(** The configuration calls; [OpNewServer] makes a server object. *)
Inductive configOp :=
  | OpReliable (yes : bool) | OpLongReordering (yes : bool) | OpLongDelays (yes : bool) | OpCleanup
  | OpMakeEnd (e : Z) | OpDeleteEnd (e : Z) | OpConnect (e name : Z) | OpEnable (e : Z) (yes : bool)
  | OpNewServer (svcs : list Service) (s : S)
  | OpAddServer (name : Z) (srv : nat) | OpDeleteServer (name : Z).

Definition config (op : configOp) (rn : Network) : option Network :=
  match op with
  | OpReliable yes => Some (Reliable yes rn)
  | OpLongReordering yes => Some (LongReordering yes rn)
  | OpLongDelays yes => Some (LongDelays yes rn)
  | OpCleanup => Cleanup rn
  | OpMakeEnd e => MakeEnd e rn
  | OpDeleteEnd e => DeleteEnd e rn
  | OpConnect e name => Some (Connect e name rn)
  | OpEnable e yes => Some (Enable e yes rn)
  | OpNewServer svcs s => Some (setHeap (heap rn ++ [(foldl (λ rs svc, AddService svc rs) MakeServer svcs, s)]) rn)
  | OpAddServer name srv => Some (AddServer name srv rn)
  | OpDeleteServer name => Some (DeleteServer name rn)
  end.

(** The steps. *)
Inductive event :=
  | EvCall (m : reqMsg)
  | EvDestroyed (k : nat)       (* case <-e.done *)
  | EvAccept (k : nat)          (* the goroutine of MakeNetwork starts processReq *)
  | EvDropRequest (k : nat)
  | EvExecute (k : nat)         (* go func() { r := server.dispatch(req) ... } *)
  | EvRun (k : nat)             (* the handler runs *)
  | EvGotReply (k : nat)        (* case reply = <-ech *)
  | EvGiveUp (k : nat)          (* serverDead in the loop *)
  | EvFinish (k : nat) (drop : bool)
  | EvReturn (k : nat)          (* the reply message reaches Call *)
  | EvNoReply (k : nat)         (* the eventual timeout *)
  | EvConfig (op : configOp).

Definition setReq (k : nat) (q : request) (n : netState) : netState :=
  mkNet (net n) (<[k := q]> (reqs n)) (ran n).

Definition setPc (q : request) (pc : req_pc) : request := mkRequest (q_msg q) pc (q_exec q).

(** [rn.count] and [rn.bytes] of an accepted request. *)
Definition countReq (m : reqMsg) (rn : Network) : Network :=
  mkNetwork (reliable rn) (longDelays rn) (longReordering rn) (ends rn) (enabled rn) (servers rn)
    (connections rn) (rdone rn) (wrapS 32 (rcount rn + 1)) (wrapS 64 (totalBytes rn + zlen (args m))) (heap rn).
Definition addBytes (b : bytes) (rn : Network) : Network :=
  mkNetwork (reliable rn) (longDelays rn) (longReordering rn) (ends rn) (enabled rn) (servers rn)
    (connections rn) (rdone rn) (rcount rn) (wrapS 64 (totalBytes rn + zlen b)) (heap rn).
(** Every action of one request starts from the request. *)
Definition onReq (k : nat) (n : netState) (f : request → option netState) : option netState := reqs n !! k ≫= f.

(** [Call], up to the send on [e.ch]. *)
Definition callSend (m : reqMsg) (n : netState) : option netState :=
  Some (mkNet (net n) (reqs n ++ [mkRequest m QSent XNone]) (ran n)).

(** [Call]: [case <-e.done: return false]. *)
Definition callDone (k : nat) (n : netState) : option netState :=
  onReq k n (λ q, match q_pc q with
    | QSent => if rdone (net n) then Some (setReq k (setPc q (QReturned None)) n) else None
    | _ => None
    end).

(** The goroutine of [MakeNetwork] receives the request and starts
    [processReq], which reads the state of the end. *)
Definition acceptReq (k : nat) (n : netState) : option netState :=
  onReq k n (λ q, match q_pc q with
    | QSent =>
        let '(en, name, srv, rel, reo) := readEndnameInfo (endname (q_msg q)) (net n) in
        let pc := match name, srv with
                  | Some name, Some srv => if en then QDelay (mkRoute name srv rel reo) else QNoReply
                  | _, _ => QNoReply
                  end in
        Some (setReq k (setPc q pc) (mkNet (countReq (q_msg q) (net n)) (reqs n) (ran n)))
    | _ => None
    end).

(** [processReq] drops the request of an unreliable network. *)
Definition dropRequest (k : nat) (n : netState) : option netState :=
  onReq k n (λ q, match q_pc q with
    | QDelay rt => if rt_reliable rt then None else Some (setReq k (setPc q (QReturned None)) n)
    | _ => None
    end).

(** [processReq] starts the goroutine of the handler and waits on [ech]. *)
Definition executeReq (k : nat) (n : netState) : option netState :=
  onReq k n (λ q, match q_pc q with
    | QDelay rt => Some (setReq k (mkRequest (q_msg q) (QWait rt) (XPending (rt_server rt))) n)
    | _ => None
    end).

(** The goroutine: [r := server.dispatch(req)]. *)
Definition runHandler (k : nat) (n : netState) : option netState :=
  onReq k n (λ q, match q_exec q with
    | XPending srv =>
        '(sv, s) ← heap (net n) !! srv;
        '(r, sv', s') ← dispatch sv (q_msg q) s;
        Some (setReq k (mkRequest (q_msg q) (q_pc q) (XDone r))
                (mkNet (setHeap (<[srv := (sv', s')]> (heap (net n))) (net n)) (reqs n) (ran n ++ [(k, rbytes r)])))
    | _ => None
    end).

(** The loop: [case reply = <-ech: replyOK = true]. *)
Definition gotReply (k : nat) (n : netState) : option netState :=
  onReq k n (λ q, match q_pc q, q_exec q with
    | QWait rt, XDone r => Some (setReq k (setPc q (QReplied rt r)) n)
    | _, _ => None
    end).

(** The loop: the 100 ms timeout finds the server dead; the reply is then false
    whatever the second [isServerDead] says. *)
Definition giveUp (k : nat) (n : netState) : option netState :=
  onReq k n (λ q, match q_pc q with
    | QWait rt =>
        if isServerDead (endname (q_msg q)) (rt_name rt) (rt_server rt) (net n)
        then Some (setReq k (setPc q (QReturned None)) n) else None
    | _ => None
    end).

(** The end of [processReq] with [replyOK]: the last [isServerDead], the drop of
    the reply, or the reply, sent at once or by a timer. *)
Definition finishReq (k : nat) (drop : bool) (n : netState) : option netState :=
  onReq k n (λ q, match q_pc q with
    | QReplied rt r =>
        if isServerDead (endname (q_msg q)) (rt_name rt) (rt_server rt) (net n)
        then Some (setReq k (setPc q (QReturned None)) n)
        else if drop then
          if rt_reliable rt then None else Some (setReq k (setPc q (QReturned None)) n)
        else Some (setReq k (setPc q (QReturning r)) n)
    | _ => None
    end).

(** The reply's bytes are counted and [Call] receives it. *)
Definition callReceive (k : nat) (n : netState) : option netState :=
  onReq k n (λ q, match q_pc q with
    | QReturning r =>
        Some (setReq k (setPc q (QReturned (if rok r then Some (rbytes r) else None)))
                (mkNet (addBytes (rbytes r) (net n)) (reqs n) (ran n)))
    | _ => None
    end).

(** The else branch of [processReq]: the timer replies [replyMsg{false, nil}]. *)
Definition noReply (k : nat) (n : netState) : option netState :=
  onReq k n (λ q, match q_pc q with
    | QNoReply => Some (setReq k (setPc q (QReturned None)) n)
    | _ => None
    end).

Definition step (ev : event) (n : netState) : option netState :=
  match ev with
  | EvCall m => callSend m n
  | EvDestroyed k => callDone k n
  | EvAccept k => acceptReq k n
  | EvDropRequest k => dropRequest k n
  | EvExecute k => executeReq k n
  | EvRun k => runHandler k n
  | EvGotReply k => gotReply k n
  | EvGiveUp k => giveUp k n
  | EvFinish k drop => finishReq k drop n
  | EvReturn k => callReceive k n
  | EvNoReply k => noReply k n
  | EvConfig op => rn' ← config op (net n); Some (mkNet rn' (reqs n) (ran n))
  end.

Definition steps (es : list event) (n : netState) : option netState := foldM (λ n e, step e n) es n.

End labrpc.
Arguments method : clear implicits.
Arguments Service : clear implicits.
Arguments Server : clear implicits.
Arguments Network : clear implicits.
Arguments netState : clear implicits.
Arguments event : clear implicits.
Arguments configOp : clear implicits.
