(* ===== verification/LabRpcFacts.v ===== *)
(** * Delivery guarantees of the simulated network

    A request is executed at most once, [Call] returns true only with the reply
    of that execution, and while ends stay enabled and servers stay in place a
    failed [Call] is either a request that will never be executed or an executed
    request whose reply was dropped: the outcomes the clients of the other
    components are modelled with. *)

From S2P Require Import Prelude LabRpc.
Open Scope go_scope.

(** The action of an event, its request apart. *)
Ltac unfold_step H :=
  unfold step, callSend, callDone, acceptReq, dropRequest, executeReq, runHandler, gotReply, giveUp, finishReq,
    callReceive, noReply, onReq in H.

(** Split the tests of an action. *)
Ltac split_step H :=
  repeat match type of H with
  | context [readEndnameInfo ?e ?x] => destruct (readEndnameInfo e x) as [[[[? ?] ?] ?] ?] eqn:?
  | match ?x with _ => _ end = _ => destruct x eqn:?; try done
  end.

Section facts.
Context {S : Type}.
Implicit Types (n : netState S) (rn : Network S) (q : request).

(** Runs whose configuration calls satisfy [P]. *)
Inductive run (P : Network S → Network S → Prop) : netState S → Prop :=
  | run_start : run P (mkNet MakeNetwork [] [])
  | run_step e n n' : run P n → (∀ op, e = EvConfig op → P (net n) (net n')) →
      step e n = Some n' → run P n'.

(** The program point of [processReq] agrees with the goroutine of the handler
    and with the executions recorded so far. *)
Definition consistent (executed : list (nat * bytes)) (k : nat) q : Prop :=
  match q_exec q with
  | XNone => (k ∉ executed.*1) ∧
      match q_pc q with QSent | QDelay _ | QNoReply | QReturned None => True | _ => False end
  | XPending srv => (k ∉ executed.*1) ∧
      match q_pc q with QWait _ | QReturned None => True | _ => False end
  | XDone r => (k, rbytes r) ∈ executed ∧ rok r = true ∧
      match q_pc q with
      | QWait _ | QReturned None => True
      | QReplied _ r' | QReturning r' => r' = r
      | QReturned (Some b) => b = rbytes r
      | _ => False
      end
  end.

Record ninv n : Prop := {
  n_once : NoDup (ran n).*1;
  n_reqs k q : reqs n !! k = Some q → consistent (ran n) k q;
  n_ran k b : (k, b) ∈ ran n → is_Some (reqs n !! k);
}.

Lemma ninv_set k q q' rn n :
  ninv n → reqs n !! k = Some q → consistent (ran n) k q' → ninv (mkNet rn (<[k := q']> (reqs n)) (ran n)).
Proof.
  intros [H1 H2 H3] Hk Hq. pose proof (lookup_lt_Some _ _ _ Hk). split; simpl; [done| |].
  - intros j x. destruct (decide (k = j)) as [<-|?].
    + rewrite list_lookup_insert_eq by done. by intros [= <-].
    + rewrite list_lookup_insert_ne by done. apply H2.
  - intros j b Hj%H3. destruct (decide (k = j)) as [<-|?].
    + by rewrite list_lookup_insert_eq.
    + by rewrite list_lookup_insert_ne.
Qed.

Lemma dispatch_ok (sv : Server S) m s r sv' s' : dispatch sv m s = Some (r, sv', s') → rok r = true.
Proof.
  unfold dispatch, serviceDispatch. intros H. inv_bind H. destruct x as [a b]. inv_bind H.
  destruct x0 as [r' s'']. injection H as <- _ _.
  destruct (methods x !! b) as [f|]; [|done]. destruct (f _ _). by injection H2 as <- _.
Qed.

Lemma ninv_run k q srv sv s r sv' s' n :
  ninv n → reqs n !! k = Some q → q_exec q = XPending srv →
  dispatch sv (q_msg q) s = Some (r, sv', s') →
  ninv (mkNet (setHeap (<[srv := (sv', s')]> (heap (net n))) (net n))
          (<[k := mkRequest (q_msg q) (q_pc q) (XDone r)]> (reqs n)) (ran n ++ [(k, rbytes r)])).
Proof.
  intros [H1 H2 H3] Hk He Hd. pose proof (lookup_lt_Some _ _ _ Hk) as Hlt.
  pose proof (H2 _ _ Hk) as Hc. unfold consistent in Hc. rewrite He in Hc. destruct Hc as [Hnk Hpc].
  apply dispatch_ok in Hd. split; simpl.
  - rewrite fmap_app. simpl. apply NoDup_app. split_and!; [done| |apply NoDup_singleton].
    intros j Hj ->%list_elem_of_singleton. done.
  - intros j x. destruct (decide (k = j)) as [<-|Hne].
    + rewrite list_lookup_insert_eq by done. intros [= <-]. unfold consistent. simpl.
      split_and!; [set_solver|done|]. destruct (q_pc q) as [| | | | | |[]]; done.
    + rewrite list_lookup_insert_ne by done. intros Hx%H2. unfold consistent in *.
      destruct (q_exec x); [| |set_solver]; (split; [|tauto]);
        rewrite fmap_app, not_elem_of_app; simpl; (split; [tauto|set_solver]).
  - intros j b [?%H3|E%list_elem_of_singleton]%elem_of_app.
    + destruct (decide (k = j)) as [<-|?]; [by rewrite list_lookup_insert_eq|by rewrite list_lookup_insert_ne].
    + injection E as -> _. by rewrite list_lookup_insert_eq.
Qed.

(** Solve the consistency of a request whose program point moved. *)
Ltac consistent_solve :=
  match goal with
  | H : ninv ?n, Hk : reqs ?n !! ?k = Some ?q |- _ =>
      let Hc := fresh "Hc" in
      pose proof (n_reqs _ H _ _ Hk) as Hc; unfold consistent in *; simpl in *;
      repeat match goal with Hp : q_pc q = _ |- _ => rewrite Hp in * | Hp : q_exec q = _ |- _ => rewrite Hp in * end;
      repeat case_match; simplify_eq; intuition (try done; try congruence)
  end.

Lemma step_ninv e n n' : ninv n → step e n = Some n' → ninv n'.
Proof.
  intros Hn H. destruct e as [m|k|k|k|k|k|k|k|k d|k|k|op];
    unfold_step H.
  { injection H as <-. destruct Hn as [H1 H2 H3]. split; simpl; [done| |].
    - intros k q [Hk|[Hk E]]%lookup_app_Some; [by apply H2|].
      apply list_lookup_singleton_Some in E as [E <-]. unfold consistent. simpl. split; [|done].
      intros ((j & b) & Hj & Hin)%list_elem_of_fmap. simpl in Hj. subst j.
      apply H3 in Hin as [x Hx%lookup_lt_Some]. lia.
    - intros k b [x Hx]%H3. exists x. by apply lookup_app_l_Some. }
  11:{ inv_bind H. injection H as <-. destruct Hn. by split. }
  all: destruct (reqs n !! k) as [q|] eqn:Hk; [|done]; simpl in H.
  5:{ destruct (q_exec q) as [|srv|r] eqn:He; try done. inv_bind H. destruct x as [sv s]. inv_bind H.
      destruct x as [[r sv'] s']. injection H as <-. unfold setReq. simpl. by eapply ninv_run. }
  all: destruct (q_pc q) as [|rt|rt|rt r|r| |r] eqn:Hpc; try done.
  all: split_step H.
  all: injection H as <-; unfold setReq; simpl; eapply ninv_set; [done|done|]; consistent_solve.
Qed.

Lemma run_ninv P n : run P n → ninv n.
Proof.
  induction 1 as [|e n n' _ IH _ Hs]; [|by eapply step_ninv]. split; simpl; [constructor|done|].
  intros k b []%elem_of_nil.
Qed.

(** C21: at most once.  Under any configuration calls, losses and delays, no
    request is executed twice, and a [Call] that returned true returned the
    reply of the one execution of its request. *)
Theorem labrpc_at_most_once n :
  run (λ _ _, True) n →
  NoDup (ran n).*1 ∧
  ∀ k q b, reqs n !! k = Some q → q_pc q = QReturned (Some b) → (k, b) ∈ ran n.
Proof.
  intros [H1 H2 _]%run_ninv. split; [done|]. intros k q b Hk Hpc.
  specialize (H2 _ _ Hk). unfold consistent in H2. rewrite Hpc in H2.
  destruct (q_exec q); [tauto|tauto|]. by destruct H2 as (? & _ & ->).
Qed.

(** ** Stable networks *)

(** No end is disabled and no server is removed or replaced. *)
Definition keeps rn rn' : Prop :=
  (∀ e, enabled rn !! e = Some true → enabled rn' !! e = Some true) ∧
  (∀ name srv, serverOf name rn = Some srv → serverOf name rn' = Some srv).

Definition alive rn (e : Z) (rt : route) : Prop :=
  enabled rn !! e = Some true ∧ serverOf (rt_name rt) rn = Some (rt_server rt).

Definition stable n : Prop := ∀ k q, reqs n !! k = Some q →
  match q_pc q with
  | QDelay rt | QWait rt | QReplied rt _ => alive (net n) (endname (q_msg q)) rt
  | QReturned _ => ∀ srv, q_exec q ≠ XPending srv
  | _ => True
  end.

Lemma alive_not_dead rn e rt : alive rn e rt → isServerDead e (rt_name rt) (rt_server rt) rn = false.
Proof.
  intros [He Hs]. unfold isServerDead. rewrite He, Hs. simpl. by rewrite bool_decide_true.
Qed.

Lemma stable_set k q pc ex rn n :
  stable n → reqs n !! k = Some q →
  enabled rn = enabled (net n) → servers rn = servers (net n) →
  match pc with
  | QDelay rt | QWait rt | QReplied rt _ => alive (net n) (endname (q_msg q)) rt
  | QReturned _ => ∀ srv, ex ≠ XPending srv
  | _ => True
  end →
  stable (mkNet rn (<[k := mkRequest (q_msg q) pc ex]> (reqs n)) (ran n)).
Proof.
  intros Hst Hk He Hs Hpc j x. unfold alive, serverOf in *. simpl. rewrite He, Hs.
  destruct (decide (k = j)) as [<-|?].
  - rewrite list_lookup_insert_eq by (by eapply lookup_lt_Some). intros [= <-]. done.
  - rewrite list_lookup_insert_ne by done. apply Hst.
Qed.

Lemma stable_ran n rn l : stable n → enabled rn = enabled (net n) → servers rn = servers (net n) →
  stable (mkNet rn (reqs n) l).
Proof. intros Hst He Hs j x. unfold alive, serverOf. simpl. rewrite He, Hs. apply Hst. Qed.

Lemma route_alive e rn name srv rel reo :
  default false (enabled rn !! e) = true → serverOf name rn = Some srv → alive rn e (mkRoute name srv rel reo).
Proof. intros He Hs. split; [|done]. destruct (enabled rn !! e) as [[]|]; done. Qed.

Lemma step_stable e n n' :
  ninv n → stable n → (∀ op, e = EvConfig op → keeps (net n) (net n')) → step e n = Some n' → stable n'.
Proof.
  intros Hn Hst Hcfg H. destruct e as [m|k|k|k|k|k|k|k|k d|k|k|op];
    unfold_step H.
  { injection H as <-. intros j q [Hj|[_ [_ <-]%list_lookup_singleton_Some]]%lookup_app_Some; [|done].
    by apply (Hst j). }
  11:{ inv_bind H. specialize (Hcfg op eq_refl). injection H as <-. destruct Hcfg as [He Hs].
       intros j q Hj. specialize (Hst j q Hj). unfold alive in *. simpl in *.
       destruct (q_pc q); try done; destruct Hst; auto. }
  all: destruct (reqs n !! k) as [q|] eqn:Hk; [|done]; simpl in H; clear Hcfg.
  all: pose proof (Hst k q Hk) as Hq; pose proof (n_reqs _ Hn _ _ Hk) as Hc; unfold consistent in Hc.
  5:{ destruct (q_exec q) as [|srv|r] eqn:He; try done. inv_bind H. destruct x as [sv s]. inv_bind H.
      destruct x as [[r sv'] s']. injection H as <-. unfold setReq. simpl.
      apply (stable_set k q (q_pc q) (XDone r)
        (setHeap (<[srv := (sv', s')]> (heap (net n))) (net n)) (mkNet (net n) (reqs n) (ran n ++ [(k, rbytes r)])));
        [by apply stable_ran|done|done|done|]. simpl. destruct (q_pc q); done. }
  all: destruct (q_pc q) as [|rt|rt|rt r|r| |r] eqn:Hpc; try done.
  all: split_step H.
  all: injection H as <-; unfold setReq, setPc; simpl; apply stable_set; try done; simpl.
  all: try (intros srv' Hx; rewrite Hx in Hc; tauto).
  all: try (rewrite alive_not_dead in * by done; done).
  destruct (mjoin _) as [name|]; [|done]. simpl. destruct (serverOf name (net n)) eqn:?; [|done].
  destruct (default false _) eqn:?; [|done]. by apply route_alive.
Qed.

(** A request that returned before its handler was started is left alone. *)
Lemma step_returned e n n' k q r :
  reqs n !! k = Some q → q_pc q = QReturned r → q_exec q = XNone → step e n = Some n' → reqs n' !! k = Some q.
Proof.
  intros Hk Hpc Hx H. destruct e as [m|j|j|j|j|j|j|j|j d|j|j|op];
    unfold_step H.
  { injection H as <-. by apply lookup_app_l_Some. }
  11:{ inv_bind H. by injection H as <-. }
  all: destruct (reqs n !! j) as [q'|] eqn:Hj; [|done]; simpl in H.
  all: destruct (decide (j = k)) as [->|Hne];
    [replace q' with q in H by congruence; by rewrite ?Hpc, ?Hx in H|].
  5:{ destruct (q_exec q') as [|srv|r'] eqn:He; try done. inv_bind H. destruct x as [sv s]. inv_bind H.
      destruct x as [[r' sv'] s']. injection H as <-. simpl. by rewrite list_lookup_insert_ne. }
  all: split_step H.
  all: injection H as <-; simpl; by rewrite list_lookup_insert_ne.
Qed.

Lemma steps_returned es n n' k q r :
  ninv n → reqs n !! k = Some q → q_pc q = QReturned r → q_exec q = XNone → steps es n = Some n' → k ∉ (ran n').*1.
Proof.
  unfold steps. revert n. induction es as [|e es IH]; intros n Hn Hk Hpc Hx H; simpl in H.
  - injection H as <-. pose proof (n_reqs _ Hn _ _ Hk) as Hc. unfold consistent in Hc. rewrite Hx in Hc. tauto.
  - apply bind_Some in H as (n1 & H1 & H). apply (IH n1); [by eapply step_ninv|by eapply step_returned|done..].
Qed.

(** The outcomes of a call on a stable network.  As long as no end is
    disabled and no server removed or replaced, a [Call] that returned is one of
    three cases: the reply of the execution; false although the request was
    executed; or false and the request is not executed, now or after any further
    steps, changes of the configuration included. *)
Theorem labrpc_outcomes n k q r :
  run keeps n → reqs n !! k = Some q → q_pc q = QReturned r →
  match r with
  | Some b => (k, b) ∈ ran n
  | None => (k ∈ (ran n).*1) ∨ ∀ es n', steps es n = Some n' → k ∉ (ran n').*1
  end.
Proof.
  intros Hr Hk Hpc. pose proof (run_ninv _ _ Hr) as Hn.
  assert (stable n) as Hst.
  { clear -Hr. induction Hr as [|e n n' Hr IH Hcfg Hs]; [by intros k q|].
    eapply step_stable; [by eapply run_ninv|done|done|done]. }
  specialize (Hst k q Hk). rewrite Hpc in Hst. pose proof (n_reqs _ Hn _ _ Hk) as Hc.
  unfold consistent in Hc. rewrite Hpc in Hc. destruct (q_exec q) as [|srv|r'] eqn:E.
  - destruct r; [tauto|]. right. intros es n'. by eapply steps_returned.
  - by destruct (Hst srv).
  - destruct Hc as (Hin & _ & Hb). destruct r as [b|]; [by subst|]. left.
    apply list_elem_of_fmap. by exists (k, rbytes r').
Qed.
End facts.

(** ** Configuration calls that keep the network *)

(** The calls a test harness makes without crashing or partitioning anything. *)
Definition keeping {S} (op : configOp S) (rn : Network S) : bool :=
  match op with
  | OpReliable _ | OpLongReordering _ | OpLongDelays _ | OpCleanup | OpConnect _ _ | OpNewServer _ _ => true
  | OpMakeEnd e => negb (default false (enabled rn !! e))
  | OpEnable _ yes => yes
  | OpAddServer name _ => bool_decide (serverOf name rn = None)
  | OpDeleteEnd _ | OpDeleteServer _ => false
  end.

Lemma keeping_keeps {S} (op : configOp S) rn rn' : keeping op rn = true → config op rn = Some rn' → keeps rn rn'.
Proof.
  intros Hk H. unfold keeps, serverOf in *.
  destruct op; simpl in *; unfold MakeEnd, Cleanup in *; repeat case_match; simplify_eq; simpl; try done.
  - split; [|done]. intros e' He. destruct (decide (e = e')) as [<-|?].
    + by rewrite He in Hk.
    + by rewrite lookup_insert_ne.
  - split; [|done]. intros e' He. destruct (decide (e = e')) as [<-|?].
    + by rewrite lookup_insert_eq.
    + by rewrite lookup_insert_ne.
  - apply bool_decide_eq_true in Hk. split; [done|]. intros name' srv' Hs. unfold serverOf in Hk.
    destruct (decide (name = name')) as [<-|?]; [congruence|]. by rewrite lookup_insert_ne.
Qed.

(** A run computed by [steps], checking its configuration calls on the way. *)
Definition checked {S} (es : list (event S)) (n : netState S) : option (netState S) :=
  foldM (λ n e, match e with
    | EvConfig op => if keeping op (net n) then step e n else None
    | _ => step e n
    end) es n.

Lemma checked_run {S} (es : list (event S)) n n' : run keeps n → checked es n = Some n' → run keeps n'.
Proof.
  revert n. induction es as [|e es IH]; intros n Hr H; simpl in H; [by injection H as <-|].
  apply bind_Some in H as (n1 & H1 & H). apply (IH n1); [|done]. clear H IH.
  destruct e as [| | | | | | | | | | |op];
    try (by eapply run_step; [done| |exact H1]; intros ? [=]).
  destruct (keeping op (net n)) eqn:E; [|done]. eapply run_step; [done| |exact H1].
  intros op' [= <-]. simpl in H1. inv_bind H1. injection H1 as <-. by eapply keeping_keeps.
Qed.

Lemma run_mono {S} (P Q : Network S → Network S → Prop) n : (∀ a b, P a b → Q a b) → run P n → run Q n.
Proof. intros HPQ. induction 1; [constructor|]. eapply run_step; [done| |done]. eauto. Qed.

(** ** A concrete run *)

(** A counter: the handler adds the number of argument bytes and replies with one byte. *)
Definition countMethod : method Z := λ a s, ([x01], (s + zlen a)%Z).
Definition countService : Service Z :=
  MakeService "Counter" [mkReflectMethod "Add" true 3 true 0 countMethod; mkReflectMethod "Kill" true 1 false 0 countMethod].

Definition exampleRun : list (event Z) :=
  [EvConfig (OpNewServer [countService] 0%Z); EvConfig (OpAddServer 7 0); EvConfig (OpMakeEnd 1);
   EvConfig (OpConnect 1 7); EvConfig (OpEnable 1 true); EvConfig (OpReliable false);
   EvCall (mkReq 1 "Counter.Add" [x05; x06]); EvAccept 0; EvExecute 0; EvRun 0; EvGotReply 0; EvFinish 0 false; EvReturn 0;
   EvCall (mkReq 1 "Counter.Add" [x05]); EvAccept 1; EvExecute 1; EvRun 1; EvGotReply 1; EvFinish 1 true;
   EvCall (mkReq 1 "Counter.Add" [x05]); EvAccept 2; EvDropRequest 2].

Definition emptyNet : netState Z := mkNet MakeNetwork [] [].
Definition exampleNet : netState Z := default emptyNet (checked exampleRun emptyNet).

Lemma exampleNet_run : run keeps exampleNet.
Proof.
  apply (checked_run exampleRun emptyNet); [constructor|]. unfold exampleNet.
  destruct (checked exampleRun emptyNet) eqn:E; [done|]. vm_compute in E. discriminate E.
Qed.

(** The first call returns its reply, the reply of the second is dropped, the
    third request is dropped; the counter saw the first two. *)
Lemma labrpc_at_most_once_witness :
  ((q_pc <$> reqs exampleNet, (heap (net exampleNet)).*2, GetTotalBytes (net exampleNet))
     = ([QReturned (Some [x01]); QReturned None; QReturned None], [3%Z], 5%Z)) ∧
  NoDup (ran exampleNet).*1 ∧ (0%nat, [x01]) ∈ ran exampleNet.
Proof.
  split; [vm_compute; reflexivity|].
  destruct (labrpc_at_most_once exampleNet (run_mono _ _ _ (λ _ _ _, I) exampleNet_run)) as [H1 H2].
  split; [exact H1|]. eapply (H2 0%nat); vm_compute; reflexivity.
Defined.

(** The same three calls, as the cases of [labrpc_outcomes]. *)
Lemma labrpc_outcomes_witness :
  (0%nat, [x01]) ∈ ran exampleNet ∧
  ((2%nat ∈ (ran exampleNet).*1) ∨ ∀ es n', steps es exampleNet = Some n' → 2%nat ∉ (ran n').*1) ∧
  (ran exampleNet).*1 = [0%nat; 1%nat].
Proof.
  split_and!.
  - eapply (labrpc_outcomes exampleNet 0%nat _ (Some [x01]) exampleNet_run); vm_compute; reflexivity.
  - eapply (labrpc_outcomes exampleNet 2%nat _ None exampleNet_run); vm_compute; reflexivity.
  - vm_compute. reflexivity.
Defined.
