(* ===== verification/RaftHarness.v ===== *)
(** * The test harness of Raft ([raft/config.go])

    The checks the harness makes on what the peers deliver and claim
    ([checkLogs], [applier], [applierSnap], [nCommitted], [checkOneLeader],
    [checkTerms], [checkNoLeader], [wait], [one]) and how it wires, crashes and
    restarts peers on the simulated network ([connect], [disconnect], [crash1],
    [start1], [make_config]).  [t.Fatal], [t.Fatalf] and [log.Fatalf] end the
    run: they are the outcome [Fatal] with the error they print.  A check that
    polls while time passes takes the states it sees as a list.  The peers are
    values of [rafts] as they are when the harness reads them; the service
    object of a peer on the network is its number.  The statistics and the two
    minute limit are in [HarnessStats]. *)

From S2P Require Import Prelude Persister RaftNode RaftLeader RaftApplier LabRpc.

(** ** Outcomes *)

(** What the harness reports. *)
Inductive fatal :=
  | ErrCommit (index server other : Z)          (* commit index=... server=... != server=... *)
  | ErrOutOfOrder (server index : Z)            (* apply out of order *)
  | ErrExpected (server expected got : Z)       (* apply out of order, expected index ... *)
  | ErrSnapshotNil | ErrSnapshotDecode
  | ErrSnapshotIndex (server : Z)               (* snapshot doesn't match m.SnapshotIndex *)
  | ErrTwoLeaders (term count : Z) | ErrNoLeader
  | ErrTerms | ErrLeader (server : Z)
  | ErrDiffer (index : Z)                       (* committed values do not match *)
  | ErrDecided (count index wanted : Z)         (* only ... decided *)
  | ErrAgreement                                (* failed to reach agreement *)
  | ErrDuplicateEnd (e : Z)                     (* MakeEnd: ... already exists *)
  | ErrUnknownEnd (e : Z)                       (* DeleteEnd: ... doesn't exist *)
  | ErrLogSize (size max : Z)                   (* RaftStateSize() ..., but maxraftstate ... *)
  | ErrSnapshot.                                (* maxraftstate is -1, but snapshot is non-empty *)

(** A result, the end of the test, or a run-time panic. *)
Inductive outcome (A : Type) := Done (a : A) | Fatal (e : fatal) | Panic.
Arguments Done {_}.
Arguments Fatal {_}.
Arguments Panic {_}.

#[export] Instance outcome_ret : MRet outcome := λ A a, Done a.
#[export] Instance outcome_bind : MBind outcome := λ A B f o,
  match o with Done a => f a | Fatal e => Fatal e | Panic => Panic end.

Definition ofOption {A} (o : option A) : outcome A :=
  match o with Some a => Done a | None => Panic end.

(** [for x := range l {...}] whose body may end the test. *)
Fixpoint foldO {A B} (f : B → A → outcome B) (l : list A) (b : B) : outcome B :=
  match l with
  | [] => Done b
  | x :: l' => b' ← f b x; foldO f l' b'
  end.

(** ** The state *)

Section harness.
Context {C : Type} `{EqDecision C}.

(** [type config struct]: the values a peer has delivered ([cfg_logs], by
    index), its last index, what is connected, and the names of the ends. *)
Record config := mkConfig {
  cfg_n : Z;
  rafts : list (option (Raft C));
  applyErr : list (option fatal);
  connected : list bool;
  saved : list (option Persister);
  endnames : list (option (list Z));
  cfg_logs : list (gmap Z (option C));
  cfg_lastApplied : list Z;
  maxIndex : Z;
  cfg_net : Network nat;
}.

Definition set_logs_of (l : list (gmap Z (option C))) (c : config) : config :=
  mkConfig (cfg_n c) (rafts c) (applyErr c) (connected c) (saved c) (endnames c) l
    (cfg_lastApplied c) (maxIndex c) (cfg_net c).
Definition set_applied_of (l : list Z) (c : config) : config :=
  mkConfig (cfg_n c) (rafts c) (applyErr c) (connected c) (saved c) (endnames c) (cfg_logs c)
    l (maxIndex c) (cfg_net c).
Definition set_maxIndex (m : Z) (c : config) : config :=
  mkConfig (cfg_n c) (rafts c) (applyErr c) (connected c) (saved c) (endnames c) (cfg_logs c)
    (cfg_lastApplied c) m (cfg_net c).
Definition set_rafts (l : list (option (Raft C))) (c : config) : config :=
  mkConfig (cfg_n c) l (applyErr c) (connected c) (saved c) (endnames c) (cfg_logs c)
    (cfg_lastApplied c) (maxIndex c) (cfg_net c).
Definition set_saved (l : list (option Persister)) (c : config) : config :=
  mkConfig (cfg_n c) (rafts c) (applyErr c) (connected c) l (endnames c) (cfg_logs c)
    (cfg_lastApplied c) (maxIndex c) (cfg_net c).
Definition set_connected (l : list bool) (c : config) : config :=
  mkConfig (cfg_n c) (rafts c) (applyErr c) l (saved c) (endnames c) (cfg_logs c)
    (cfg_lastApplied c) (maxIndex c) (cfg_net c).
Definition set_endnames (l : list (option (list Z))) (c : config) : config :=
  mkConfig (cfg_n c) (rafts c) (applyErr c) (connected c) (saved c) l (cfg_logs c)
    (cfg_lastApplied c) (maxIndex c) (cfg_net c).
Definition set_net (rn : Network nat) (c : config) : config :=
  mkConfig (cfg_n c) (rafts c) (applyErr c) (connected c) (saved c) (endnames c) (cfg_logs c)
    (cfg_lastApplied c) (maxIndex c) rn.

(** ** What the peers deliver *)

(** The loop of [checkLogs]: the last server that delivered another value for the index. *)
Definition conflictAt (i index : Z) (v : option C) (logs : list (gmap Z (option C))) : option fatal :=
  foldl (λ err (jl : Z * gmap Z (option C)),
    match jl.2 !! index with
    | Some old => if decide (old = v) then err else Some (ErrCommit index i jl.1)
    | None => err
    end) None (enumerate logs).

(** [func (cfg *config) checkLogs(i int, m ApplyMsg) (string, bool)] *)
Definition checkLogs (i : Z) (m : ApplyMsg C) (cfg : config) : outcome (option fatal * bool * config) :=
  let v := Command m in
  let err_msg := conflictAt i (CommandIndex m) v (cfg_logs cfg) in
  log ← ofOption (idx (cfg_logs cfg) i);
  let prevok := bool_decide (is_Some (log !! (CommandIndex m - 1))) in
  logs' ← ofOption (upd (cfg_logs cfg) i (<[CommandIndex m := v]> log));
  let cfg := set_logs_of logs' cfg in
  let cfg := if maxIndex cfg <? CommandIndex m then set_maxIndex (CommandIndex m) cfg else cfg in
  mret (err_msg, prevok, cfg).

(** [log.Fatalf("apply error: %v", err_msg)] *)
Definition report (err_msg : option fatal) (cfg : config) : outcome config :=
  match err_msg with Some e => Fatal e | None => Done cfg end.

(** [func (cfg *config) applier(i int, applyCh chan ApplyMsg)]: the body of the loop. *)
Definition applier (i : Z) (m : ApplyMsg C) (cfg : config) : outcome config :=
  if negb (CommandValid m) then Done cfg else
  '(err_msg, prevok, cfg) ← checkLogs i m cfg;
  let err_msg :=
    if (1 <? CommandIndex m) && negb prevok then Some (ErrOutOfOrder i (CommandIndex m)) else err_msg in
  report err_msg cfg.

(** [const SnapShotInterval = 10] *)
Definition SnapShotInterval : Z := 10.

Context `{!Gob (Z * list (option C))}.

(** [func (cfg *config) ingestSnap(i int, snapshot []byte, index int) string]:
    the two values are decoded one after the other; the error is returned. *)
Definition ingestSnap (i : Z) (snap : bytes) (index : Z) (cfg : config)
    : outcome (option fatal * config) :=
  match snap with
  | [] => Fatal ErrSnapshotNil
  | _ =>
    match gob_decode snap with
    | None => Fatal ErrSnapshotDecode
    | Some (lastIncludedIndex, xlog) =>
        if negb (index =? -1) && negb (index =? lastIncludedIndex)
        then mret (Some (ErrSnapshotIndex i), cfg)
        else
          logs' ← ofOption (upd (cfg_logs cfg) i
                    (foldl (λ (l : gmap Z (option C)) (jx : Z * option C), <[jx.1 := jx.2]> l) ∅ (enumerate xlog)));
          la' ← ofOption (upd (cfg_lastApplied cfg) i lastIncludedIndex);
          mret (None, set_applied_of la' (set_logs_of logs' cfg))
    end
  end.

(** [func (cfg *config) applierSnap(i int, applyCh chan ApplyMsg)]: the body of
    the loop, and the call of [rf.Snapshot] it makes, if any. *)
Definition applierSnap (i : Z) (m : ApplyMsg C) (cfg : config)
    : outcome (config * option (Z * bytes)) :=
  if SnapshotValid m then
    '(err_msg, cfg) ← ingestSnap i (Snapshot_ m) (SnapshotIndex m) cfg;
    cfg ← report err_msg cfg;
    mret (cfg, None)
  else if CommandValid m then
    last ← ofOption (idx (cfg_lastApplied cfg) i);
    '(err_msg, cfg) ←
      (if negb (CommandIndex m =? last + 1)
       then mret (Some (ErrExpected i (last + 1) (CommandIndex m)), cfg)
       else
         '(err_msg, prevok, cfg) ← checkLogs i m cfg;
         mret (if (1 <? CommandIndex m) && negb prevok
               then Some (ErrOutOfOrder i (CommandIndex m)) else err_msg, cfg));
    la' ← ofOption (upd (cfg_lastApplied cfg) i (CommandIndex m));
    let cfg := set_applied_of la' cfg in
    log ← ofOption (idx (cfg_logs cfg) i);
    let snap :=
      if Z.rem (CommandIndex m + 1) SnapShotInterval =? 0 then
        let xlog := (λ j, default None (log !! j)) <$> range 0 (CommandIndex m + 1) in
        Some (CommandIndex m, default [] (gob_encode (CommandIndex m, xlog)))
      else None in
    cfg ← report err_msg cfg;
    mret (cfg, snap)
  else mret (cfg, None).

(** ** What the peers claim *)

(** [cfg.rafts[i].GetState()]: a nil peer panics. *)
Definition stateOf (cfg : config) (i : Z) : outcome (Z * bool) :=
  match idx (rafts cfg) i with
  | Some (Some rf) => Done (GetState rf)
  | _ => Panic
  end.

(** The map [leaders] of one round of [checkOneLeader]. *)
Definition leadersOf (cfg : config) : outcome (gmap Z (list Z)) :=
  foldO (λ leaders i,
    c ← ofOption (idx (connected cfg) i);
    if (c : bool) then
      '(term, leader) ← stateOf cfg i;
      if (leader : bool) then mret (<[term := default [] (leaders !! term) ++ [i]]> leaders) else mret leaders
    else mret leaders) (range 0 (cfg_n cfg)) ∅.

(** One round: [Some] leader of the last term that has one, [None] to try again. *)
Definition oneLeader (cfg : config) : outcome (option Z) :=
  leaders ← leadersOf cfg;
  lastTermWithLeader ← foldO (λ last (tl : Z * list Z),
      if 1 <? zlen tl.2 then Fatal (ErrTwoLeaders tl.1 (zlen tl.2))
      else mret (if last <? tl.1 then tl.1 else last)) (map_to_list leaders) (-1);
  if decide (leaders = ∅) then mret None
  else match leaders !! lastTermWithLeader with
       | Some (l :: _) => mret (Some l)
       | _ => Panic
       end.

(** [func (cfg *config) checkOneLeader() int] on the states of its rounds. *)
Fixpoint checkOneLeader (rounds : list config) : outcome Z :=
  match rounds with
  | [] => Fatal ErrNoLeader
  | cfg :: rounds' =>
      l ← oneLeader cfg;
      match l with Some i => mret i | None => checkOneLeader rounds' end
  end.

(** [func (cfg *config) checkTerms() int] *)
Definition checkTerms (cfg : config) : outcome Z :=
  foldO (λ term i,
    c ← ofOption (idx (connected cfg) i);
    if (c : bool) then
      '(xterm, _) ← stateOf cfg i;
      if term =? -1 then mret xterm
      else if negb (term =? xterm) then Fatal ErrTerms else mret term
    else mret term) (range 0 (cfg_n cfg)) (-1).

(** [func (cfg *config) checkNoLeader()] *)
Definition checkNoLeader (cfg : config) : outcome unit :=
  foldO (λ _ i,
    c ← ofOption (idx (connected cfg) i);
    if (c : bool) then
      '(_, is_leader) ← stateOf cfg i;
      if (is_leader : bool) then Fatal (ErrLeader i) else mret tt
    else mret tt) (range 0 (cfg_n cfg)) tt.

(** [func (cfg *config) nCommitted(index int) (int, interface{})] *)
Definition nCommitted (index : Z) (cfg : config) : outcome (Z * option C) :=
  foldO (λ (acc : Z * option C) i,
    let (count, cmd) := acc in
    err ← ofOption (idx (applyErr cfg) i);
    match err with
    | Some e => Fatal e
    | None =>
        log ← ofOption (idx (cfg_logs cfg) i);
        match log !! index with
        | Some cmd1 =>
            if (0 <? count) && bool_decide (cmd ≠ cmd1) then Fatal (ErrDiffer index)
            else mret (count + 1, cmd1)
        | None => mret (count, cmd)
        end
    end) (range 0 (zlen (rafts cfg))) (0, None).

(** The test of [wait] for a peer that moved on. *)
Definition movedOn (startTerm : Z) (cfg : config) : outcome bool :=
  foldO (λ b i,
    if (b : bool) then mret true else
    '(t, _) ← stateOf cfg i; mret (startTerm <? t)) (range 0 (zlen (rafts cfg))) false.

(** [func (cfg *config) wait(index, n, startTerm int) interface{}]: each of its
    30 rounds reads the state twice, [last] is the state after them; the result
    [None] is the [-1] of a peer that moved on. *)
Fixpoint wait (index n startTerm : Z) (rounds : list (config * config)) (last : config)
    : outcome (option (option C)) :=
  let finish (cfg : config) :=
    '(nd, cmd) ← nCommitted index cfg;
    if nd <? n then Fatal (ErrDecided nd index n) else mret (Some cmd) in
  match rounds with
  | [] => finish last
  | (cfg, cfg') :: rounds' =>
      '(nd, _) ← nCommitted index cfg;
      if n <=? nd then finish cfg' else
      moved ← (if -1 <? startTerm then movedOn startTerm cfg' else mret false);
      if (moved : bool) then mret None else wait index n startTerm rounds' last
  end.

(** ** Submitting a command *)

Context `{!Gob (PersistentStatus C)}.

(** The loop of [one] that tries every server once, from the one after
    [starts]: where it stopped, the index of the command or [-1]. *)
Fixpoint trySubmit (k : nat) (starts : Z) (cmd : C) (cfg : config)
    : outcome (Z * Z * config * list (effect C)) :=
  match k with
  | O => mret (starts, -1, cfg, [])
  | S k' =>
      let starts := Z.rem (starts + 1) (cfg_n cfg) in
      c ← ofOption (idx (connected cfg) starts);
      rf ← (if (c : bool) then ofOption (idx (rafts cfg) starts) else mret None);
      match rf with
      | Some rf =>
          match Start cmd rf with
          | Some ((index1, _, ok), rf', es) =>
              rafts' ← ofOption (upd (rafts cfg) starts (Some rf'));
              if (ok : bool) then mret (starts, index1, set_rafts rafts' cfg, es)
              else trySubmit k' starts cmd (set_rafts rafts' cfg)
          | None => Panic
          end
      | None => trySubmit k' starts cmd cfg
      end
  end.

(** The loop of [one] that polls [nCommitted]. *)
Fixpoint agreed (index expectedServers : Z) (cmd : C) (polls : list config) : outcome bool :=
  match polls with
  | [] => mret false
  | cfg :: polls' =>
      '(nd, cmd1) ← nCommitted index cfg;
      if (0 <? nd) && (expectedServers <=? nd) && bool_decide (cmd1 = Some cmd) then mret true
      else agreed index expectedServers cmd polls'
  end.

(** [func (cfg *config) one(cmd, expectedServers, retry) int]: a round is the
    state in which it submits and the states it polls until its two seconds are
    over; [finished] is what [checkFinished] says when the rounds are over. *)
Fixpoint one (cmd : C) (expectedServers : Z) (retry finished : bool) (starts : Z)
    (rounds : list (config * list config)) : outcome Z :=
  match rounds with
  | [] => if finished then mret (-1) else Fatal ErrAgreement
  | (cfg, polls) :: rounds' =>
      '(starts, index, _, _) ← trySubmit (Z.to_nat (cfg_n cfg)) starts cmd cfg;
      if negb (index =? -1) then
        ok ← agreed index expectedServers cmd polls;
        if (ok : bool) then mret index
        else if negb retry then Fatal ErrAgreement
        else one cmd expectedServers retry finished starts rounds'
      else one cmd expectedServers retry finished starts rounds'
  end.

(** ** Wiring *)

(** [cfg.endnames[i][j]]: a nil slice panics like an index out of range. *)
Definition endOf (cfg : config) (i j : Z) : option Z := l ← idx (endnames cfg) i; l ← l; idx l j.

(** [cfg.net.Enable(endname, yes)] *)
Definition enableEnd (e : Z) (yes : bool) (cfg : config) : config :=
  set_net (Enable e yes (cfg_net cfg)) cfg.

(** The body of the loops of [connect]: the end [from j] to [to j], if [j] is connected. *)
Definition connectEnd (from to : Z → Z) (cfg : config) (j : Z) : outcome config :=
  c ← ofOption (idx (connected cfg) j);
  if (c : bool) then e ← ofOption (endOf cfg (from j) (to j)); mret (enableEnd e true cfg)
  else mret cfg.

(** [func (cfg *config) connect(i int)] *)
Definition connect (i : Z) (cfg : config) : outcome config :=
  con ← ofOption (upd (connected cfg) i true);
  cfg ← foldO (connectEnd (λ _, i) (λ j, j)) (range 0 (cfg_n cfg)) (set_connected con cfg);
  foldO (connectEnd (λ j, j) (λ _, i)) (range 0 (cfg_n cfg)) cfg.

(** The body of the loops of [disconnect]. *)
Definition disconnectEnd (from to : Z → Z) (cfg : config) (j : Z) : outcome config :=
  l ← ofOption (idx (endnames cfg) (from j));
  match l with
  | Some _ => e ← ofOption (endOf cfg (from j) (to j)); mret (enableEnd e false cfg)
  | None => mret cfg
  end.

(** [func (cfg *config) disconnect(i int)] *)
Definition disconnect (i : Z) (cfg : config) : outcome config :=
  con ← ofOption (upd (connected cfg) i false);
  cfg ← foldO (disconnectEnd (λ _, i) (λ j, j)) (range 0 (cfg_n cfg)) (set_connected con cfg);
  foldO (disconnectEnd (λ j, j) (λ _, i)) (range 0 (cfg_n cfg)) cfg.

(** [*cfg.saved[i]]: a running peer writes to the same object. *)
Definition savedState (cfg : config) (i : Z) : outcome (option Persister) :=
  ps ← ofOption (idx (saved cfg) i);
  rf ← ofOption (idx (rafts cfg) i);
  mret (match ps, rf with
        | Some _, Some rf => Some (persister rf)
        | _, _ => ps
        end).

(** [func (cfg *config) crash1(i int)] *)
Definition crash1 (i : Z) (cfg : config) : outcome config :=
  cfg ← disconnect i cfg;
  let cfg := set_net (DeleteServer i (cfg_net cfg)) cfg in
  ps ← savedState cfg i;
  rafts' ← ofOption (upd (rafts cfg) i None);
  saved' ← ofOption (upd (saved cfg) i
             ((λ ps, Save (ReadRaftState (Copy ps)) (ReadSnapshot (Copy ps)) (mkPersister [] [])) <$> ps));
  mret (set_saved saved' (set_rafts rafts' cfg)).

(** The ends of a started peer: [MakeEnd] and [Connect] for each of its names. *)
Definition makeRow {S} (names : list Z) (rn : Network S) : outcome (Network S) :=
  foldO (λ rn (je : Z * Z),
    match MakeEnd je.2 rn with
    | Some rn => mret (Connect je.2 je.1 rn)
    | None => Fatal (ErrDuplicateEnd je.2)
    end) (enumerate names) rn.
Definition makeEnds (names : list Z) (cfg : config) : outcome config :=
  rn ← makeRow names (cfg_net cfg); mret (set_net rn cfg).

(** The service of a peer on the network, [labrpc.MakeService(rf)]. *)
Context (raftService : Z → Service nat).

(** [func (cfg *config) start1(i int, applier)]: [names] are the [cfg.n] random
    names of its outgoing ends. *)
Definition start1 (i : Z) (names : list Z) (cfg : config) : outcome config :=
  cfg ← crash1 i cfg;
  ens ← ofOption (upd (endnames cfg) i (Some names));
  cfg ← makeEnds names (set_endnames ens cfg);
  la ← ofOption (upd (cfg_lastApplied cfg) i 0);
  let cfg := set_applied_of la cfg in
  ps ← ofOption (idx (saved cfg) i);
  '(ps, cfg) ←
    match ps with
    | Some ps =>
        let ps := Copy ps in
        match ReadSnapshot ps with
        | [] => mret (ps, cfg)
        | snap =>
            '(err, cfg) ← ingestSnap i snap (-1) cfg;
            match err with Some e => Fatal e | None => mret (ps, cfg) end
        end
    | None => mret (MakePersister, cfg)
    end;
  saved' ← ofOption (upd (saved cfg) i (Some ps));
  rf ← ofOption (Make (cfg_n cfg) i ps);
  rafts' ← ofOption (upd (rafts cfg) i (Some rf));
  let cfg := set_rafts rafts' (set_saved saved' cfg) in
  let rn := cfg_net cfg in
  let srv := length (heap rn) in
  let rn := setHeap (heap rn ++ [(AddService (raftService i) MakeServer, Z.to_nat i)]) rn in
  mret (set_net (AddServer i srv rn) cfg).

(** The composite of [make_config] before the peers are started. *)
Definition freshConfig (n : Z) (unreliable : bool) : config :=
  let N := Z.to_nat n in
  mkConfig n (replicate N None) (replicate N None) (replicate N false) (replicate N None)
    (replicate N None) (replicate N ∅) (replicate N 0) 0
    (LongDelays true (Reliable (negb unreliable) MakeNetwork)).

(** [func make_config(t, n, unreliable, snapshot) *config]: [names i] are the
    names for peer [i]; the choice of the applier is in the messages they are
    given to. *)
Definition make_config (n : Z) (unreliable : bool) (names : Z → list Z) : outcome config :=
  cfg ← foldO (λ cfg i,
      logs' ← ofOption (upd (cfg_logs cfg) i ∅);
      start1 i (names i) (set_logs_of logs' cfg)) (range 0 n) (freshConfig n unreliable);
  foldO (λ cfg i, connect i cfg) (range 0 n) cfg.

(** [func (cfg *config) LogSize() int] *)
Definition LogSize (cfg : config) : outcome Z :=
  foldO (λ logsize i,
    ps ← savedState cfg i;
    ps ← ofOption ps;
    mret (if logsize <? RaftStateSize ps then RaftStateSize ps else logsize)) (range 0 (cfg_n cfg)) 0.

End harness.
Arguments config : clear implicits.
