(* ===== verification/RaftHarnessFacts.v ===== *)
(** * What the harness of Raft accepts

    The harness composed with the cluster: in runs that keep the logs the applier threads of
    the harness never report an error and [nCommitted] counts exactly the peers
    that delivered an index; without crashes [checkOneLeader] never finds two
    leaders of a term and returns the one of the latest term; and the wiring of
    the network is at all times what [connected] says. *)

From S2P Require Import Prelude LabRpc Persister RaftNode RaftLeader RaftApplier RaftCluster RaftElection RaftFaults RaftLog RaftDelivery RaftGhost RaftInvariant RaftPreserve RaftReplicate RaftSafety RaftHarness.

(** ** Loops *)

Lemma foldO_Done {A B} (P : list A → B → Prop) (f : B → A → outcome B) l b :
  P [] b →
  (∀ done x b, (∃ rest, l = done ++ x :: rest) → P done b → ∃ b', f b x = Done b' ∧ P (done ++ [x]) b') →
  ∃ b', foldO f l b = Done b' ∧ P l b'.
Proof.
  intros H0 Hstep. assert (∀ k done b, l = done ++ k → P done b → ∃ b', foldO f k b = Done b' ∧ P l b') as H.
  { induction k as [|x k IH]; intros done c -> Hc; simpl.
    - rewrite app_nil_r. eauto.
    - destruct (Hstep done x c) as (c' & -> & Hc'); [eauto|done|]. simpl.
      apply (IH (done ++ [x])); [by rewrite <- app_assoc|done]. }
  by apply (H l []).
Qed.

Lemma foldO_inv {A B} (P : B → Prop) (f : B → A → outcome B) l b b' :
  (∀ x c c', x ∈ l → P c → f c x = Done c' → P c') → P b → foldO f l b = Done b' → P b'.
Proof.
  revert b. induction l as [|x l IH]; intros b Hf Hb; simpl; [by intros [= <-]|].
  destruct (f b x) as [c| |] eqn:E; [|done..]. simpl. apply IH.
  - intros y c1 c2 Hy. apply Hf. by right.
  - eapply Hf; [by left|exact Hb|exact E].
Qed.

Lemma foldl_fixed {A B} (f : B → A → B) l b : (∀ x, x ∈ l → f b x = b) → foldl f b l = b.
Proof.
  induction l as [|x l IH]; intros H; simpl; [done|]. rewrite H by by left. apply IH. intros. apply H. by right.
Qed.

(** ** The applier threads *)

Section applier.
Context {C : Type} `{EqDecision C} `{!Gob (PersistentStatus C)} (n : nat).
Implicit Types (w : cluster C) (cfg : config C) (tr : list (Z * ApplyMsg C)).

(** The messages of peer [i] in an interleaving of the applier threads. *)
Definition messagesOf (i : Z) tr : list (ApplyMsg C) := snd <$> filter (λ im, im.1 = i) tr.

(** The applier threads take their messages in the order [tr]. *)
Definition runAppliers tr cfg : outcome (config C) := foldO (λ cfg im, applier im.1 im.2 cfg) tr cfg.

(** Nothing delivered yet. *)
Definition idle cfg : Prop :=
  cfg_logs cfg = replicate n ∅ ∧ applyErr cfg = replicate n None ∧ length (rafts cfg) = n.

(** The threads only take what the peers delivered in [w]. *)
Definition takesFrom w tr : Prop :=
  Forall (λ im, 0 ≤ im.1 < Z.of_nat n) tr ∧
  ∀ i sv, idx (servers w) i = Some sv → messagesOf i tr `prefix_of` sv_applyCh sv.

(** The harness has recorded exactly [tr]. *)
Definition recorded tr cfg : Prop :=
  length (cfg_logs cfg) = n ∧ applyErr cfg = replicate n None ∧ length (rafts cfg) = n ∧
  ∀ i log, idx (cfg_logs cfg) i = Some log →
    ∀ k, log !! k = if decide (1 ≤ k) then Command <$> messagesOf i tr !! Z.to_nat (k - 1) else None.

Lemma messagesOf_snoc i j m tr :
  messagesOf i (tr ++ [(j, m)]) = if decide (j = i) then messagesOf i tr ++ [m] else messagesOf i tr.
Proof.
  unfold messagesOf. rewrite filter_app, fmap_app. unfold filter at 2; simpl. case_decide; simpl; [done|].
  by rewrite app_nil_r.
Qed.

Lemma messagesOf_prefix i tr tr' : tr `prefix_of` tr' → messagesOf i tr `prefix_of` messagesOf i tr'.
Proof. intros [k ->]. unfold messagesOf. rewrite filter_app, fmap_app. by apply prefix_app_r. Qed.

(** A message that agrees with everything recorded, in its turn, is accepted. *)
Lemma applier_accepts i m tr cfg :
  0 ≤ i < Z.of_nat n → recorded tr cfg →
  CommandValid m = true → CommandIndex m = Z.of_nat (S (length (messagesOf i tr))) →
  (∀ j m', messagesOf j tr !! length (messagesOf i tr) = Some m' → Command m' = Command m) →
  ∃ cfg', applier i m cfg = Done cfg' ∧ recorded (tr ++ [(i, m)]) cfg'.
Proof.
  intros Hi (Hlen & Herr & Hrf & Hlog) Hv Hidx Hag.
  destruct (idx_is_Some (cfg_logs cfg) i) as [log Hl]; [unfold zlen; lia|].
  unfold applier, checkLogs. rewrite Hv, Hl. simpl.
  assert (conflictAt i (CommandIndex m) (Command m) (cfg_logs cfg) = None) as ->.
  { apply foldl_fixed. intros [j lj] Hj%elem_of_enumerate. simpl. rewrite (Hlog _ _ Hj).
    rewrite decide_True by lia. replace (Z.to_nat (CommandIndex m - 1)) with (length (messagesOf i tr)) by lia.
    destruct (messagesOf j tr !! _) as [m'|] eqn:E; simpl; [|done]. by rewrite decide_True by eauto. }
  unfold upd. rewrite (proj2 (andb_true_iff _ _)) by (split; [apply Z.leb_le|apply Z.ltb_lt; unfold zlen]; lia).
  simpl. assert ((1 <? CommandIndex m) && negb (bool_decide (is_Some (log !! (CommandIndex m - 1)))) = false) as ->.
  { apply andb_false_iff. destruct (Z.ltb_spec 1 (CommandIndex m)); [right|by left].
    apply negb_false_iff, bool_decide_eq_true. rewrite (Hlog _ _ Hl), decide_True by lia.
    apply fmap_is_Some, lookup_lt_is_Some. lia. }
  simpl. eexists. split; [done|].
  assert (∀ (b : bool) c1 c2, recorded (tr ++ [(i, m)]) c1 → recorded (tr ++ [(i, m)]) c2 →
    recorded (tr ++ [(i, m)]) (if b then c1 else c2)) as Hif by (by intros []).
  apply Hif; (split; [simpl; by rewrite length_insert|]; split; [done|]; split; [done|]); simpl;
    intros j lj Hj k; rewrite messagesOf_snoc;
    (destruct (idx_insert_inv _ _ _ _ _ _ Hl Hj) as [[-> ->]|[Hne Hj']];
     [rewrite (decide_True (P := i = i)) by done|rewrite (decide_False (P := i = j)) by congruence; by apply Hlog]).
  all: destruct (decide (k = CommandIndex m)) as [->|Hk];
    [rewrite lookup_insert_eq, decide_True by lia;
     rewrite lookup_app_r by lia; replace (Z.to_nat _ - _)%nat with 0%nat by lia; done|].
  all: rewrite lookup_insert_ne, (Hlog _ _ Hl) by done; case_decide; [|done];
    destruct (decide (Z.to_nat (k - 1) < length (messagesOf i tr))%nat) as [?|?];
    [by rewrite lookup_app_l|].
  all: rewrite (lookup_ge_None_2 (messagesOf i tr)) by lia;
    rewrite (lookup_ge_None_2 (messagesOf i tr ++ [m])) by (rewrite length_app; simpl; lia); done.
Qed.
(** [nCommitted] counts the peers that delivered the index. *)
Lemma nCommitted_counts index tr cfg :
  recorded tr cfg →
  (∀ i j k m m', messagesOf i tr !! k = Some m → messagesOf j tr !! k = Some m' → Command m = Command m') →
  ∃ cmd, nCommitted index cfg =
    Done (zlen (filter (λ i, 1 ≤ index ≤ zlen (messagesOf i tr)) (range 0 (Z.of_nat n))), cmd).
Proof.
  intros (Hlen & Herr & Hrf & Hlog) Hag. unfold nCommitted.
  destruct (foldO_Done (λ done (acc : Z * option C),
      acc.1 = zlen (filter (λ i, 1 ≤ index ≤ zlen (messagesOf i tr)) done) ∧
      (0 < acc.1 → ∃ j m, messagesOf j tr !! Z.to_nat (index - 1) = Some m ∧ acc.2 = Command m))
    (λ (acc : Z * option C) i,
      let (count, cmd) := acc in
      err ← ofOption (idx (applyErr cfg) i);
      match err with
      | Some e => Fatal e
      | None => log ← ofOption (idx (cfg_logs cfg) i);
          match log !! index with
          | Some cmd1 => if (0 <? count) && bool_decide (cmd ≠ cmd1) then Fatal (ErrDiffer index) else mret (count + 1, cmd1)
          | None => mret (count, cmd)
          end
      end) (range 0 (zlen (rafts cfg))) (0, None)) as ([cnt cmd] & E & Hcnt & _).
  - done.
  - intros done i [count cmd] [rest Hr] [Hc Hex]. simpl in *.
    assert (0 ≤ i < Z.of_nat n) as Hi.
    { rewrite <- Hrf. apply elem_of_range. unfold zlen in Hr. rewrite Hr. set_solver. }
    assert (idx (applyErr cfg) i = Some None) as ->.
    { rewrite Herr. apply idx_Some. split; [lia|]. apply lookup_replicate_2. lia. }
    simpl.
    destruct (idx_is_Some (cfg_logs cfg) i) as [log Hl]; [unfold zlen; lia|]. rewrite Hl. simpl.
    rewrite filter_app, filter_cons. rewrite (Hlog _ _ Hl).
    destruct (decide (1 ≤ index ≤ zlen (messagesOf i tr))) as [Hin|Hout].
    + rewrite (decide_True (P := 1 ≤ index)) by lia.
      destruct (lookup_lt_is_Some_2 (messagesOf i tr) (Z.to_nat (index - 1))) as [m Hm]; [unfold zlen in Hin; lia|].
      rewrite Hm. simpl.
      assert ((0 <? count) && bool_decide (cmd ≠ Command m) = false) as ->.
      { apply andb_false_iff. destruct (Z.ltb_spec 0 count) as [Hpos|]; [right|by left].
        apply bool_decide_eq_false. intros Hne. apply Hne. destruct (Hex Hpos) as (j & m' & Hm' & ->).
        by eapply Hag. }
      eexists. split; [done|]. split; simpl; [|by eauto].
      rewrite zlen_app, zlen_cons, Hc. change (zlen (filter _ [])) with 0. lia.
    + assert ((if decide (1 ≤ index) then Command <$> messagesOf i tr !! Z.to_nat (index - 1) else None) = None) as ->.
      { case_decide; [|done]. rewrite lookup_ge_None_2; [done|]. unfold zlen in Hout. lia. }
      eexists. split; [done|]. split; simpl; [|done]. by rewrite app_nil_r.
  - exists cmd. rewrite E. simpl in Hcnt. rewrite Hcnt. do 4 f_equal. unfold zlen. by rewrite Hrf.
Qed.

(** The messages of a peer of such a run, in its turn. *)
Lemma takesFrom_agree w tr G :
  linv n G w → length (servers w) = n → takesFrom w tr →
  (∀ i k m, messagesOf i tr !! k = Some m → CommandValid m = true ∧ CommandIndex m = Z.of_nat (S k)) ∧
  (∀ i j k m m', messagesOf i tr !! k = Some m → messagesOf j tr !! k = Some m' → m = m').
Proof.
  intros Hl Hlen [Hr Hp].
  assert (∀ i k m, messagesOf i tr !! k = Some m →
    ∃ sv, idx (servers w) i = Some sv ∧ sv_applyCh sv !! k = Some m) as Hm.
  { intros i k m Hk. destruct (idx_is_Some (servers w) i) as [sv Hsv].
    - unfold messagesOf in Hk. apply list_elem_of_lookup_2, list_elem_of_fmap in Hk as ([j m'] & _ & Hin).
      apply list_elem_of_filter in Hin as [E Hin]. simpl in E. subst j.
      rewrite Forall_forall in Hr. specialize (Hr _ Hin). simpl in Hr. unfold zlen. rewrite Hlen. lia.
    - exists sv. split; [done|]. eapply prefix_lookup_Some; [exact Hk|eauto]. }
  split.
  - intros i k m (sv & Hi & Hk)%Hm.
    destruct (applyCh_lookup n G i sv k m (l_servers _ _ _ Hl _ _ Hi) Hk) as (hi & l & e & _ & _ & ->). done.
  - intros i j k m m' (sv & Hi & Hk)%Hm (sv' & Hj & Hk')%Hm.
    exact (applyCh_agree n G i j sv sv' k m m' (l_hist _ _ _ Hl) (l_servers _ _ _ Hl _ _ Hi) (l_servers _ _ _ Hl _ _ Hj) Hk Hk').
Qed.

(** C23: in a run that keeps the logs the harness accepts everything: however its applier threads
    interleave, none reports a conflicting or an out-of-order message, and after
    it [nCommitted] of every index reports no mismatch and counts exactly the
    peers whose thread received a message for the index. *)
Theorem harness_accepts w tr cfg :
  reachable_keeps n w → takesFrom w tr → idle cfg →
  ∃ cfg', runAppliers tr cfg = Done cfg' ∧
    ∀ index, ∃ cmd, nCommitted index cfg' =
      Done (zlen (filter (λ i, index ∈ CommandIndex <$> messagesOf i tr) (range 0 (Z.of_nat n))), cmd).
Proof.
  intros [He (G & Hl)]%linv_reachable Ht (Hlogs & Herr & Hrf).
  destruct (takesFrom_agree w tr G Hl (e_len _ _ He) Ht) as [Hidx Hag].
  assert (recorded [] cfg) as H0.
  { unfold recorded. rewrite Hlogs, length_replicate. split_and!; try done.
    intros i log [_ [-> _]%lookup_replicate]%idx_Some k. rewrite lookup_empty. by case_decide. }
  destruct (foldO_Done recorded (λ cfg im, applier im.1 im.2 cfg) tr cfg H0) as (cfg' & E & Hrec).
  { intros done [i m] c [rest Hr] Hrec. simpl.
    assert (messagesOf i (done ++ [(i, m)]) `prefix_of` messagesOf i tr) as Hp.
    { apply messagesOf_prefix. rewrite Hr. exists rest. by rewrite <- app_assoc. }
    rewrite messagesOf_snoc, decide_True in Hp by done.
    assert (messagesOf i tr !! length (messagesOf i done) = Some m) as Hm.
    { eapply prefix_lookup_Some; [|exact Hp]. by rewrite lookup_app_r, Nat.sub_diag by lia. }
    destruct (Hidx _ _ _ Hm) as [Hv Hi]. apply applier_accepts; try done.
    - destruct Ht as [Hall _]. rewrite Hr in Hall. apply Forall_app in Hall as [_ [? _]%Forall_cons]. done.
    - intros j m' Hm'. f_equal. eapply Hag; [|exact Hm]. eapply prefix_lookup_Some; [exact Hm'|].
      apply messagesOf_prefix. rewrite Hr. by apply prefix_app_r. }
  exists cfg'. split; [exact E|]. intros index.
  destruct (nCommitted_counts index tr cfg' Hrec) as [cmd ->]; [intros i j k m m' Hm Hm'; f_equal; by eapply Hag|].
  exists cmd. do 3 f_equal. apply list_filter_iff. intros i. rewrite list_elem_of_fmap. split.
  - intros Hin. destruct (lookup_lt_is_Some_2 (messagesOf i tr) (Z.to_nat (index - 1))) as [m Hm]; [unfold zlen in Hin; lia|].
    exists m. destruct (Hidx _ _ _ Hm) as [_ ->]. split; [lia|by eapply list_elem_of_lookup_2].
  - intros (m & -> & [k Hk]%list_elem_of_lookup). destruct (Hidx _ _ _ Hk) as [_ ->].
    apply lookup_lt_Some in Hk. unfold zlen. lia.
Qed.

End applier.

(** ** [checkOneLeader] *)

Section leaders.
Context {C : Type} `{EqDecision C} `{!Gob (PersistentStatus C)} (n : nat).
Implicit Types (w : cluster C) (cfg : config C).

(** The harness looks at the peers of [w]. *)
Definition sees w cfg : Prop :=
  cfg_n cfg = Z.of_nat n ∧ rafts cfg = (λ sv, Some (sv_rf sv)) <$> servers w ∧ length (connected cfg) = n.

(** A connected peer claims to lead [t]. *)
Definition claims cfg (t i : Z) : bool :=
  match idx (connected cfg) i, idx (rafts cfg) i with
  | Some true, Some (Some rf) => bool_decide (state rf = Leader) && (currentTerm rf =? t)
  | _, _ => false
  end.

Lemma claims_leads w cfg t i :
  sees w cfg → (claims cfg t i = true ↔ idx (connected cfg) i = Some true ∧ leads w i t).
Proof.
  intros (_ & Hr & _). unfold claims, leads. rewrite Hr.
  assert (idx ((λ sv, Some (sv_rf sv)) <$> servers w) i = (λ sv, Some (sv_rf sv)) <$> idx (servers w) i) as ->.
  { unfold idx. destruct (0 <=? i); [apply list_lookup_fmap|done]. }
  destruct (idx (connected cfg) i) as [[]|], (idx (servers w) i) as [sv|]; simpl;
    rewrite ?andb_true_iff, ?bool_decide_eq_true, ?Z.eqb_eq; naive_solver.
Qed.

(** The map [leaders] holds the claims, by term. *)
Lemma leadersOf_spec w cfg :
  sees w cfg → length (servers w) = n →
  ∃ m, leadersOf cfg = Done m ∧
    ∀ t, default [] (m !! t) = filter (λ i, claims cfg t i = true) (range 0 (Z.of_nat n)) ∧ m !! t ≠ Some [].
Proof.
  intros Hsee Hlen. destruct Hsee as (Hn & Hr & Hc). unfold leadersOf. rewrite Hn. apply (foldO_Done (λ done m,
    ∀ t, default [] (m !! t) = filter (λ i, claims cfg t i = true) done ∧ m !! t ≠ Some [])).
  { intros t. by rewrite lookup_empty. }
  intros done i m [rest Hd] Hm.
  assert (0 ≤ i < Z.of_nat n) as Hi by (apply elem_of_range; rewrite Hd; set_solver).
  destruct (idx_is_Some (connected cfg) i) as [c Hci]; [unfold zlen; lia|].
  destruct (idx_is_Some (servers w) i) as [sv Hsv]; [unfold zlen; lia|].
  assert (idx (rafts cfg) i = Some (Some (sv_rf sv))) as Hri.
  { rewrite Hr. apply idx_Some in Hsv as [? Hsv]. apply idx_Some. split; [done|]. by rewrite list_lookup_fmap, Hsv. }
  assert (∀ t, claims cfg t i = c && bool_decide (state (sv_rf sv) = Leader) && (currentTerm (sv_rf sv) =? t)) as Ecl.
  { intros t. unfold claims. rewrite Hci, Hri. by destruct c. }
  assert (∀ t, claims cfg t i = false → filter (λ i, claims cfg t i = true) (done ++ [i]) =
    filter (λ i, claims cfg t i = true) done) as Hskip.
  { intros t E. rewrite filter_app, filter_cons, decide_False by congruence. apply app_nil_r. }
  rewrite Hci. simpl. destruct c; [|eexists; split; [done|]; intros t; rewrite Hskip; [apply Hm|by rewrite Ecl]].
  unfold stateOf. rewrite Hri. simpl. destruct (bool_decide (state (sv_rf sv) = Leader)) eqn:El;
    [|eexists; split; [done|]; intros t; rewrite Hskip; [apply Hm|by rewrite Ecl]].
  eexists. split; [done|]. intros t. destruct (Hm t) as [Ht Hne]. destruct (decide (currentTerm (sv_rf sv) = t)) as [<-|Hd'].
  - rewrite lookup_insert_eq. simpl. split; [|destruct (default [] _); discriminate].
    rewrite filter_app, filter_cons, decide_True; [by rewrite Ht|]. by rewrite Ecl, Z.eqb_refl.
  - rewrite lookup_insert_ne by done. rewrite Hskip; [done|]. rewrite Ecl. simpl. by apply Z.eqb_neq.
Qed.

(** The scan of the map: no term with two, and the largest term. *)
Lemma scanLeaders_spec (kl : list (Z * list Z)) :
  Forall (λ tl, zlen tl.2 ≤ 1 ∧ 0 ≤ tl.1) kl →
  ∃ last, foldO (λ last (tl : Z * list Z),
      if 1 <? zlen tl.2 then Fatal (ErrTwoLeaders tl.1 (zlen tl.2))
      else mret (if last <? tl.1 then tl.1 else last)) kl (-1) = Done last ∧
    (kl ≠ [] → last ∈ kl.*1) ∧ ∀ t, t ∈ kl.*1 → t ≤ last.
Proof.
  intros Hall. destruct (foldO_Done (λ (done : list (Z * list Z)) last,
      (done = [] ∧ last = -1 ∨ last ∈ done.*1) ∧ ∀ t, t ∈ done.*1 → t ≤ last)
    (λ last (tl : Z * list Z),
      if 1 <? zlen tl.2 then Fatal (ErrTwoLeaders tl.1 (zlen tl.2))
      else mret (if last <? tl.1 then tl.1 else last)) kl (-1)) as (last & E & H1 & H2).
  - split; [by left|]. intros t Ht. by apply elem_of_nil in Ht.
  - intros done [t l] last [rest Hr] (H1 & H2). simpl. rewrite Hr in Hall.
    apply Forall_app in Hall as [_ [[? ?] _]%Forall_cons]. simpl in *.
    rewrite (proj2 (Z.ltb_ge _ _)) by done. eexists. split; [done|]. rewrite fmap_app. simpl.
    destruct (Z.ltb_spec last t).
    + split; [right; set_solver|]. intros t' [?%H2| ->%list_elem_of_singleton]%elem_of_app; lia.
    + split; [destruct H1 as [[_ ->]|?]; [lia|right; set_solver]|].
      intros t' [?%H2| ->%list_elem_of_singleton]%elem_of_app; lia.
  - exists last. split; [done|]. split; [|done]. intros ?. by destruct H1 as [[? _]|?].
Qed.

(** One round on a state with at most one claim per term. *)
Lemma oneLeader_spec w cfg :
  sees w cfg → length (servers w) = n →
  (∀ t i j, claims cfg t i = true → claims cfg t j = true → i = j) →
  (∀ t i, claims cfg t i = true → 0 ≤ t) →
  ∃ o, oneLeader cfg = Done o ∧
    match o with
    | Some i => ∃ t, claims cfg t i = true ∧ ∀ j t', claims cfg t' j = true → t' ≤ t
    | None => ∀ j t, claims cfg t j = false
    end.
Proof.
  intros Hsee Hlen Huniq Hpos. destruct (leadersOf_spec w cfg Hsee Hlen) as (m & Em & Hm).
  assert (∀ t l, m !! t = Some l → ∃ i, l = [i] ∧ claims cfg t i = true) as Hone.
  { intros t l Hl. destruct (Hm t) as [Ht Hne]. rewrite Hl in Ht, Hne. simpl in Ht. destruct l as [|i l]; [done|].
    assert (∀ j, j ∈ i :: l → claims cfg t j = true) as Hall by (intros j Hj; rewrite Ht in Hj; by apply list_elem_of_filter in Hj as [? _]).
    assert (NoDup (i :: l)) as Hnd by (rewrite Ht; apply NoDup_filter, NoDup_seqZ).
    exists i. split; [|apply Hall; by left]. destruct l as [|j l]; [done|]. exfalso.
    apply NoDup_cons in Hnd as [Hni _]. apply Hni. rewrite (Huniq t i j); [by left|apply Hall; by left|apply Hall; right; by left]. }
  assert (∀ t i, claims cfg t i = true → is_Some (m !! t)) as Hsome.
  { intros t i Hc. destruct (Hm t) as [Ht _]. destruct (m !! t) as [l|]; [done|]. exfalso. simpl in Ht.
    assert (i ∈ filter (λ i, claims cfg t i = true) (range 0 (Z.of_nat n))) as Hin.
    { apply list_elem_of_filter. split; [done|]. apply elem_of_range.
      destruct Hsee as (_ & _ & Hcl). unfold claims in Hc. destruct (idx (connected cfg) i) as [b|] eqn:E; [|done].
      apply idx_lt in E. unfold zlen in E. lia. }
    rewrite <- Ht in Hin. by apply elem_of_nil in Hin. }
  unfold oneLeader. rewrite Em. cbn [mbind outcome_bind].
  destruct (scanLeaders_spec (map_to_list m)) as (last & -> & Hin & Hmax).
  { apply Forall_forall. intros [t l] Hl%elem_of_map_to_list. destruct (Hone _ _ Hl) as (i & -> & Hi). simpl.
    split; [done|by eapply Hpos]. }
  cbn [mbind outcome_bind]. destruct (decide (m = ∅)) as [E|Hne].
  - eexists. split; [done|]. simpl. intros j t. apply not_true_iff_false. intros Hc%Hsome.
    rewrite E, lookup_empty in Hc. by apply is_Some_None in Hc.
  - assert (last ∈ (map_to_list m).*1) as Hl by (apply Hin; by rewrite map_to_list_empty_iff).
    apply list_elem_of_fmap in Hl as ([t l] & -> & Hl%elem_of_map_to_list). simpl in *.
    destruct (Hone _ _ Hl) as (i & -> & Hi). rewrite Hl. eexists. split; [done|]. exists t. split; [done|].
    intros j t' [l' Hl']%Hsome. apply Hmax. apply list_elem_of_fmap. exists (t', l'). split; [done|].
    by apply elem_of_map_to_list.
Qed.

(** [checkOneLeader] in such runs.  Whatever the states it polls, it never finds
    two leaders of a term: it returns a connected leader of the latest term that
    has one in a state it saw, or fails because no connected peer led in any. *)
Theorem checkOneLeader_correct (rounds : list (cluster C * config C)) :
  Forall (λ r, reachable_keeps n r.1 ∧ sees r.1 r.2) rounds →
  match checkOneLeader (snd <$> rounds) with
  | Done i => ∃ w cfg T, (w, cfg) ∈ rounds ∧ idx (connected cfg) i = Some true ∧ leads w i T ∧
      ∀ j T', idx (connected cfg) j = Some true → leads w j T' → T' ≤ T
  | Fatal e => e = ErrNoLeader ∧
      ∀ w cfg j T, (w, cfg) ∈ rounds → idx (connected cfg) j = Some true → ¬ leads w j T
  | Panic => False
  end.
Proof.
  induction rounds as [|[w cfg] rounds IH]; intros Hall.
  { simpl. split; [done|]. intros w cfg j T Hin. by apply elem_of_nil in Hin. }
  apply Forall_cons in Hall as [[Hr Hsee] Hall]. specialize (IH Hall). simpl in Hr, Hsee.
  destruct (linv_reachable n w Hr) as [He (G & Hl)].
  destruct (oneLeader_spec w cfg Hsee (e_len _ _ He)) as (o & Eo & Ho).
  - intros t i j [_ Hi]%(claims_leads _ _ _ _ Hsee) [_ Hj]%(claims_leads _ _ _ _ Hsee).
    destruct (leads_won n w i t He Hi), (leads_won n w j t He Hj). by eapply won_unique.
  - intros t i [_ (sv & Hi & _ & <-)]%(claims_leads _ _ _ _ Hsee).
    destruct (linv_peer _ _ _ _ _ Hl Hi) as [[F Hp] _]. pose proof (p_good _ _ _ _ _ Hp) as Hg.
    exact (good_bound _ _ _ Hg _ _ (good_has0 _ _ _ Hg)).
  - cbn [fmap list_fmap checkOneLeader snd]. rewrite Eo. cbn [mbind outcome_bind]. destruct o as [i|]; simpl in *.
    + destruct Ho as (t & Hi & Hmax). apply (claims_leads _ _ _ _ Hsee) in Hi as [? ?].
      exists w, cfg, t. split; [by left|]. split; [done|]. split; [done|]. intros j T' ? ?. apply (Hmax j).
      by apply (claims_leads _ _ _ _ Hsee).
    + assert (∀ j T, idx (connected cfg) j = Some true → ¬ leads w j T) as Hno.
      { intros j T Hc Hld. pose proof (Ho j T) as E. apply not_true_iff_false in E. apply E.
        by apply (claims_leads _ _ _ _ Hsee). }
      destruct (checkOneLeader _) as [i|e|]; [|destruct IH as [-> IH]; split; [done|]|done].
      * destruct IH as (w1 & c1 & T & ? & ?). exists w1, c1, T. split; [by right|done].
      * intros w1 c1 j T [[= -> ->]|?]%elem_of_cons; eauto.
Qed.
End leaders.

(** ** A concrete run *)

(** The threads of peers 0 and 1 after [takeoverRun]. *)
Definition exampleTrace : list (Z * ApplyMsg Z) := [(1, commandMsg (Some 42) 1); (0, commandMsg (Some 42) 1)].

Lemma takeoverRun_reachable : reachable_keeps 3 (runEnd (commitRun ++ takeoverRun)).
Proof. apply (keepingSteps_later (commitRun ++ takeoverRun)). vm_compute. reflexivity. Qed.

Lemma harness_accepts_witness :
  ∃ cfg', runAppliers exampleTrace (freshConfig 3 false) = Done cfg' ∧
    ∃ cmd, nCommitted 1 cfg' = Done (2, cmd).
Proof.
  destruct (harness_accepts 3 (runEnd (commitRun ++ takeoverRun)) exampleTrace (freshConfig 3 false)) as (cfg' & Hrun & Hn).
  - exact takeoverRun_reachable.
  - split; [repeat constructor; simpl; lia|]. intros i sv Hi. pose proof (idx_lt _ _ _ Hi) as Hr.
    assert (zlen (servers (runEnd (commitRun ++ takeoverRun))) = 3) as E by (vm_compute; reflexivity). rewrite E in Hr.
    assert (i = 0 ∨ i = 1 ∨ i = 2) as [-> | [-> | ->]] by lia;
      vm_compute in Hi; injection Hi as <-; eexists; vm_compute; reflexivity.
  - split; [reflexivity|]. split; reflexivity.
  - exists cfg'. split; [exact Hrun|]. destruct (Hn 1) as [cmd Hc]. exists cmd. rewrite Hc. vm_compute. reflexivity.
Defined.

(** The harness with all three peers connected. *)
Definition seeing (w : cluster Z) : config Z :=
  set_rafts ((λ sv, Some (sv_rf sv)) <$> servers w) (set_connected [true; true; true] (freshConfig 3 false)).

Lemma checkOneLeader_witness :
  let w' := runEnd (commitRun ++ takeoverRun) in
  checkOneLeader [seeing (initCluster 3); seeing w'] = Done 1 ∧
  ∃ w cfg T, (w, cfg) ∈ [(initCluster 3, seeing (initCluster 3)); (w', seeing w')] ∧
    idx (connected cfg) 1 = Some true ∧ leads w 1 T ∧
    ∀ j T', idx (connected cfg) j = Some true → leads w j T' → T' ≤ T.
Proof.
  assert (∀ w', reachable_keeps 3 w' → checkOneLeader [seeing (initCluster 3); seeing w'] = Done 1 →
    ∃ w cfg T, (w, cfg) ∈ [(initCluster 3, seeing (initCluster 3)); (w', seeing w')] ∧
      idx (connected cfg) 1 = Some true ∧ leads w 1 T ∧
      ∀ j T', idx (connected cfg) j = Some true → leads w j T' → T' ≤ T) as Hall.
  { intros w' Hr E.
    pose proof (checkOneLeader_correct 3 [(initCluster 3, seeing (initCluster 3)); (w', seeing w')]) as H.
    change (snd <$> [(initCluster 3, seeing (initCluster 3)); (w', seeing w')])
      with [seeing (initCluster 3); seeing w'] in H.
    rewrite E in H. apply H.
    assert (∀ w : cluster Z, sees 3 w (seeing w)) as Hsee by (intros w; split; [reflexivity|split; reflexivity]).
    apply Forall_cons; split; [split; [apply lk_refl|apply Hsee]|].
    apply Forall_cons; split; [split; [exact Hr|apply Hsee]|apply Forall_nil_2]. }
  intros w'. assert (checkOneLeader [seeing (initCluster 3); seeing w'] = Done 1) as E by (vm_compute; reflexivity).
  split; [exact E|]. exact (Hall w' takeoverRun_reachable E).
Defined.
