(* ===== verification/RaftWiring.v ===== *)
(** * The wiring of the harness of Raft

    [connect], [disconnect], [crash1] and [start1] of [raft/config.go] over the
    network of [LabRpc]: at all times the end from one peer to another leads to
    that peer and is enabled exactly when both are connected. *)

From S2P Require Import Prelude LabRpc Persister RaftNode RaftApplier RaftCluster RaftHarness RaftHarnessFacts.

(** Invert a chain of binds of outcomes. *)
Lemma bind_Done {A B} (o : outcome A) (f : A → outcome B) b :
  o ≫= f = Done b → ∃ a, o = Done a ∧ f a = Done b.
Proof. destruct o; [eauto|done..]. Qed.

Lemma ofOption_Done {A} (o : option A) a : ofOption o = Done a → o = Some a.
Proof. destruct o; [by intros [= ->]|done]. Qed.

(** ** Rows of ends *)

(** The ends [makeRow] makes are fresh, lead to their servers and are disabled. *)
Lemma makeRow_spec {S} names (rn rn' : Network S) :
  makeRow names rn = Done rn' →
  NoDup names ∧ (∀ e, e ∈ names → e ∉ ends rn) ∧ ends rn' = list_to_set names ∪ ends rn ∧
  (∀ j e, idx names j = Some e → enabled rn' !! e = Some false ∧ connections rn' !! e = Some (Some j)) ∧
  (∀ e, e ∉ names → enabled rn' !! e = enabled rn !! e ∧ connections rn' !! e = connections rn !! e).
Proof.
  unfold makeRow, enumerate. intros H.
  assert (∀ k (ns : list Z) c, foldO (λ rn (je : Z * Z),
      match MakeEnd je.2 rn with
      | Some rn => mret (Connect je.2 je.1 rn)
      | None => Fatal (ErrDuplicateEnd je.2)
      end) (imap (λ i x, (Z.of_nat (k + i), x)) ns) c = Done rn' →
    NoDup ns ∧ (∀ e, e ∈ ns → e ∉ ends c) ∧ ends rn' = list_to_set ns ∪ ends c ∧
    (∀ j e, ns !! j = Some e → enabled rn' !! e = Some false ∧
       connections rn' !! e = Some (Some (Z.of_nat (k + j)))) ∧
    (∀ e, e ∉ ns → enabled rn' !! e = enabled c !! e ∧ connections rn' !! e = connections c !! e)) as Hgen.
  { clear H. intros k ns. revert k. induction ns as [|e ns IH]; intros k c H.
    - injection H as <-. split_and!; try done; [constructor|set_solver|set_solver].
    - rewrite imap_cons in H. cbn [foldO snd fst] in H.
      destruct (MakeEnd e c) as [rn1|] eqn:Em; [|discriminate H]. unfold MakeEnd in Em.
      destruct (decide (e ∈ ends c)) as [?|Hne]; [done|]. injection Em as <-.
      cbn [mbind outcome_bind mret outcome_ret] in H.
      match type of H with foldO _ _ ?c = _ => set (c1 := c) in H end.
      destruct (IH (Datatypes.S k) c1) as (Hnd & Hfr & Hen & Hin & Hout).
      { rewrite <- H. f_equal. apply imap_ext. intros j x _. simpl. f_equal. lia. }
      assert (ends c1 = {[e]} ∪ ends c) as E1 by done.
      assert (e ∉ ns) as Hni by (intros Hx%Hfr; rewrite E1 in Hx; set_solver).
      split_and!.
      + by constructor.
      + intros x [->|Hx]%elem_of_cons; [done|]. apply Hfr in Hx. rewrite E1 in Hx. set_solver.
      + rewrite Hen, E1. set_solver.
      + intros [|j] x Hx.
        * injection Hx as <-. destruct (Hout e Hni) as [-> ->]. simpl. rewrite !lookup_insert_eq, Nat.add_0_r. done.
        * destruct (Hin j x Hx) as [-> ->]. split; [done|]. do 2 f_equal. lia.
      + intros x Hx. destruct (Hout x) as [-> ->]; [set_solver|]. simpl.
        rewrite !lookup_insert_ne by set_solver. done. }
  destruct (Hgen 0%nat names rn H) as (Hnd & Hfr & Hen & Hin & Hout). split_and!; try done.
  intros j e [? Hj]%idx_Some. destruct (Hin _ _ Hj) as [-> ->]. split; [done|]. do 2 f_equal. lia.
Qed.

Section wiring.
Context {C : Type} `{EqDecision C} `{!Gob (Z * list (option C))} `{!Gob (PersistentStatus C)}.
Context (raftService : Z → Service nat).
Implicit Types (cfg : config C).

(** [cfg.connected[i]] *)
Definition isCon cfg (i : Z) : bool := default false (idx (connected cfg) i).

Record wired cfg : Prop := {
  wi_known i j e : endOf cfg i j = Some e → e ∈ ends (cfg_net cfg);
  wi_inj i j i' j' e : endOf cfg i j = Some e → endOf cfg i' j' = Some e → i = i' ∧ j = j';
  wi_range i j e : endOf cfg i j = Some e → 0 ≤ i < cfg_n cfg ∧ 0 ≤ j < cfg_n cfg;
  wi_enabled i j e : endOf cfg i j = Some e → enabled (cfg_net cfg) !! e = Some (isCon cfg i && isCon cfg j);
  wi_conn i j e : endOf cfg i j = Some e → connections (cfg_net cfg) !! e = Some (Some j);
}.

(** The same configuration but for which ends are enabled. *)
Definition rewired cfg cfg' : Prop :=
  cfg' = set_net (cfg_net cfg') cfg ∧ ends (cfg_net cfg') = ends (cfg_net cfg) ∧
  connections (cfg_net cfg') = connections (cfg_net cfg) ∧ LabRpc.servers (cfg_net cfg') = LabRpc.servers (cfg_net cfg).

Lemma rewired_refl cfg : rewired cfg cfg.
Proof. split_and!; try done. by destruct cfg. Qed.

Lemma rewired_endOf cfg cfg' i j : rewired cfg cfg' → endOf cfg' i j = endOf cfg i j.
Proof. intros (-> & _). done. Qed.

(** A loop that switches the ends of the selected [j]. *)
Lemma switch_loop (f : config C → Z → outcome (config C)) (from to : Z → Z) (b : bool) (sel : Z → Prop) js cfg cfg' :
  (∀ c j c', rewired cfg c → f c j = Done c' →
     (c' = c ∧ ¬ sel j) ∨ ∃ e, sel j ∧ endOf cfg (from j) (to j) = Some e ∧ c' = enableEnd e b c) →
  foldO f js cfg = Done cfg' →
  rewired cfg cfg' ∧
  ∀ x, (∃ j, j ∈ js ∧ sel j ∧ endOf cfg (from j) (to j) = Some x) ∧ enabled (cfg_net cfg') !! x = Some b ∨
       (∀ j, j ∈ js → sel j → endOf cfg (from j) (to j) ≠ Some x) ∧ enabled (cfg_net cfg') !! x = enabled (cfg_net cfg) !! x.
Proof.
  intros Hf. assert (∀ ks done c, rewired cfg c →
    (∀ x, (∃ j, j ∈ done ∧ sel j ∧ endOf cfg (from j) (to j) = Some x) ∧ enabled (cfg_net c) !! x = Some b ∨
       (∀ j, j ∈ done → sel j → endOf cfg (from j) (to j) ≠ Some x) ∧ enabled (cfg_net c) !! x = enabled (cfg_net cfg) !! x) →
    foldO f ks c = Done cfg' → rewired cfg cfg' ∧
    ∀ x, (∃ j, j ∈ done ++ ks ∧ sel j ∧ endOf cfg (from j) (to j) = Some x) ∧ enabled (cfg_net cfg') !! x = Some b ∨
       (∀ j, j ∈ done ++ ks → sel j → endOf cfg (from j) (to j) ≠ Some x) ∧
       enabled (cfg_net cfg') !! x = enabled (cfg_net cfg) !! x) as Hgen.
  { induction ks as [|k ks IH]; intros done c Hrw Hx H; simpl in H.
    - injection H as <-. rewrite app_nil_r. auto.
    - destruct (f c k) as [c1| |] eqn:E; [|done..]. simpl in H.
      replace (done ++ k :: ks) with ((done ++ [k]) ++ ks) by by rewrite <- app_assoc.
      apply (Hf c k c1 Hrw) in E as [[-> Hn]|(e & Hs & He & ->)].
      + apply (IH (done ++ [k]) c); [done| |done]. intros x. destruct (Hx x) as [[(j & ? & ? & ?) ?]|[Hno ?]].
        * left. split; [|done]. exists j. set_solver.
        * right. split; [|done]. intros j [?| ->%list_elem_of_singleton]%elem_of_app; [by apply Hno|done].
      + apply (IH (done ++ [k]) (enableEnd e b c)); [| |done].
        * destruct Hrw as (Hc & ? & ? & ?). split_and!; try done. simpl. rewrite Hc. done.
        * intros x. simpl. destruct (decide (e = x)) as [->|Hne].
          -- rewrite lookup_insert_eq. left. split; [|done]. exists k. set_solver.
          -- rewrite lookup_insert_ne by done. destruct (Hx x) as [[(j & ? & ? & ?) ?]|[Hno ?]].
             ++ left. split; [|done]. exists j. set_solver.
             ++ right. split; [|done]. intros j [?| ->%list_elem_of_singleton]%elem_of_app; [by apply Hno|congruence]. }
  intros H. apply (Hgen js [] cfg); [apply rewired_refl| |done].
  intros x. right. split; [|done]. intros j Hj. by apply elem_of_nil in Hj.
Qed.

(** Only the names, the connected peers and the network matter. *)
Lemma wired_same cfg cfg' :
  wired cfg → cfg_n cfg' = cfg_n cfg → endnames cfg' = endnames cfg → connected cfg' = connected cfg →
  ends (cfg_net cfg') = ends (cfg_net cfg) → enabled (cfg_net cfg') = enabled (cfg_net cfg) →
  connections (cfg_net cfg') = connections (cfg_net cfg) → wired cfg'.
Proof.
  intros [Hk Hi Hr He Hc] En Ee Ec E1 E2 E3.
  assert (∀ i j, endOf cfg' i j = endOf cfg i j) as E by (intros; unfold endOf; by rewrite Ee).
  assert (∀ i, isCon cfg' i = isCon cfg i) as E' by (intros; unfold isCon; by rewrite Ec).
  split; intros *; rewrite ?E, ?E', ?E1, ?E2, ?E3, ?En; eauto.
Qed.

(** The peer [i] switches to [b], its ends with it. *)
Lemma wired_switch cfg con cfg' i b :
  wired cfg → upd (connected cfg) i b = Some con → rewired (set_connected con cfg) cfg' →
  (∀ a j e, endOf cfg a j = Some e →
     ((a = i ∧ (b = true → isCon (set_connected con cfg) j = true) ∨
       j = i ∧ (b = true → isCon (set_connected con cfg) a = true)) ∧ enabled (cfg_net cfg') !! e = Some b) ∨
     (¬ (a = i ∧ (b = true → isCon (set_connected con cfg) j = true)) ∧
      ¬ (j = i ∧ (b = true → isCon (set_connected con cfg) a = true)) ∧
      enabled (cfg_net cfg') !! e = enabled (cfg_net cfg) !! e)) →
  wired cfg'.
Proof.
  intros [Hk Hi Hr He Hc] [Hri ->]%upd_Some (Ec & E1 & E3 & _) Hen.
  assert (∀ x y, endOf cfg' x y = endOf cfg x y) as E by (intros; by rewrite Ec).
  set (con := <[Z.to_nat i := b]> (connected cfg)) in *.
  assert (∀ x, isCon cfg' x = isCon (set_connected con cfg) x) as Ecc by (intros; by rewrite Ec).
  assert (isCon (set_connected con cfg) i = b) as Ei by (unfold isCon; simpl; unfold con; by rewrite idx_insert_eq).
  assert (∀ x, x ≠ i → isCon (set_connected con cfg) x = isCon cfg x) as Ene
    by (intros; unfold isCon; simpl; unfold con; by rewrite idx_insert_ne by lia).
  split; intros *; rewrite ?E, ?Ecc, ?E1, ?E3.
  - apply Hk.
  - apply Hi.
  - rewrite Ec. apply Hr.
  - intros Hx. specialize (Hen _ _ _ Hx). specialize (He _ _ _ Hx).
    destruct Hen as [[Hor ->]|(Hn1 & Hn2 & ->)].
    + f_equal. destruct b, Hor as [[-> Hj]|[-> Hj]]; rewrite Ei, ?Hj by done; try done; by rewrite ?andb_false_r.
    + rewrite He. f_equal. destruct (decide (i0 = i)) as [->|?], (decide (j = i)) as [->|?].
      * destruct b; [by destruct Hn1|]. by destruct Hn1.
      * rewrite Ei, (Ene j) by done. destruct b; [|by destruct Hn1].
        destruct (isCon cfg j) eqn:Ej; [destruct Hn1; split; [done|by rewrite Ene]|by rewrite !andb_false_r].
      * rewrite Ei, (Ene i0) by done. destruct b; [|by destruct Hn2].
        destruct (isCon cfg i0) eqn:Ej; [destruct Hn2; split; [done|by rewrite Ene]|done].
      * by rewrite !Ene.
  - apply Hc.
Qed.

(** The loops of [connect] and [disconnect], both directions. *)
Lemma switch_both (f : (Z → Z) → (Z → Z) → config C → Z → outcome (config C)) (b : bool) i (sel1 sel2 : Z → Prop) cfg0 con cfg c1 cfg' :
  wired cfg0 → cfg = set_connected con cfg0 →
  (∀ c j c', rewired cfg c → f (λ _, i) (λ j, j) c j = Done c' →
     (c' = c ∧ ¬ sel1 j) ∨ ∃ e, sel1 j ∧ endOf cfg i j = Some e ∧ c' = enableEnd e b c) →
  (∀ c j c', rewired cfg c → f (λ j, j) (λ _, i) c j = Done c' →
     (c' = c ∧ ¬ sel2 j) ∨ ∃ e, sel2 j ∧ endOf cfg j i = Some e ∧ c' = enableEnd e b c) →
  foldO (f (λ _, i) (λ j, j)) (range 0 (cfg_n cfg)) cfg = Done c1 →
  foldO (f (λ j, j) (λ _, i)) (range 0 (cfg_n cfg)) c1 = Done cfg' →
  rewired cfg cfg' ∧ ∀ a j e, endOf cfg a j = Some e →
    ((a = i ∧ sel1 j ∨ j = i ∧ sel2 a) ∧ enabled (cfg_net cfg') !! e = Some b) ∨
    (¬ (a = i ∧ sel1 j) ∧ ¬ (j = i ∧ sel2 a) ∧ enabled (cfg_net cfg') !! e = enabled (cfg_net cfg) !! e).
Proof.
  intros Hw Ecfg Hf1 Hf2 H1 H2.
  assert (∀ i j, endOf cfg i j = endOf cfg0 i j) as E0 by (intros; by rewrite Ecfg).
  assert (∀ i j i' j' e, endOf cfg i j = Some e → endOf cfg i' j' = Some e → i = i' ∧ j = j') as Hinj
    by (intros *; rewrite !E0; apply (wi_inj _ Hw)).
  destruct (switch_loop (f (λ _, i) (λ j, j)) (λ _, i) (λ j, j) b sel1 _ _ _ Hf1 H1) as [(Ec1 & Een1 & Eco1 & Esv1) Hx1].
  assert (∀ x y, endOf c1 x y = endOf cfg x y) as E1 by (intros; by rewrite Ec1).
  destruct (switch_loop (f (λ j, j) (λ _, i)) (λ j, j) (λ _, i) b sel2 (range 0 (cfg_n cfg)) c1 cfg') as [(Ec2 & Een2 & Eco2 & Esv2) Hx2]; [|exact H2|].
  { intros c j c' (Ec & Een & Eco & Esv) Hc'. rewrite E1. apply (Hf2 c j c'); [|done].
    split; [|split_and!; congruence]. rewrite Ec, Ec1 at 1. done. }
  split; [split; [rewrite Ec2, Ec1 at 1; done|split_and!; congruence]|].
  intros a j e He. assert (0 ≤ a < cfg_n cfg ∧ 0 ≤ j < cfg_n cfg) as [Ha Hj]
    by (rewrite E0 in He; rewrite Ecfg; by apply (wi_range _ Hw _ _ _ He)).
  destruct (Hx2 e) as [[(k & Hk & Hs & Hke) ->]|[Hno2 ->]].
  { rewrite E1 in Hke. destruct (Hinj _ _ _ _ _ He Hke) as [-> ->]. left. auto. }
  assert (¬ (j = i ∧ sel2 a)) as Hn2.
  { intros [-> Hs]. apply (Hno2 a); [by apply elem_of_range|done|by rewrite E1]. }
  destruct (Hx1 e) as [[(k & Hk & Hs & Hke) ->]|[Hno1 ->]].
  { destruct (Hinj _ _ _ _ _ He Hke) as [-> ->]. left. auto. }
  right. split; [|done]. intros [-> Hs]. apply (Hno1 j); [by apply elem_of_range|done|done].
Qed.

Lemma connect_wired i cfg cfg' : connect i cfg = Done cfg' → wired cfg → wired cfg'.
Proof.
  unfold connect. intros (con & Hcon%ofOption_Done & (c1 & H1 & H2)%bind_Done)%bind_Done Hw.
  set (cfg0 := set_connected con cfg) in *.
  assert (∀ from to c j c', rewired cfg0 c → connectEnd from to c j = Done c' →
    (c' = c ∧ ¬ isCon cfg0 j = true) ∨ ∃ e, isCon cfg0 j = true ∧ endOf cfg0 (from j) (to j) = Some e ∧ c' = enableEnd e true c) as Hen.
  { intros from to c j c' (Ec & _) (b & Hb%ofOption_Done & Hc')%bind_Done.
    assert (isCon cfg0 j = b) as -> by (rewrite Ec in Hb; unfold isCon, cfg0; simpl in *; by rewrite Hb).
    destruct b; [right|left; split; [by injection Hc' as ->|done]].
    apply bind_Done in Hc' as (e & He%ofOption_Done & [= <-]). exists e. split; [done|]. split; [|done].
    rewrite Ec in He. exact He. }
  assert (cfg_n c1 = cfg_n cfg0) as En.
  { destruct (switch_loop (connectEnd (λ _, i) (λ j, j)) (λ _, i) (λ j, j) true (λ j, isCon cfg0 j = true) _ cfg0 c1
      ltac:(intros; by apply Hen) H1) as [(-> & _) _]. done. }
  rewrite En in H2.
  destruct (switch_both connectEnd true i (λ j, isCon cfg0 j = true) (λ j, isCon cfg0 j = true) cfg con cfg0 c1 cfg' Hw eq_refl)
    as [Hrw Hx]; [intros; by apply (Hen (λ _, i) (λ j, j))|intros; by apply (Hen (λ j, j) (λ _, i))|exact H1|exact H2|].
  eapply wired_switch; [exact Hw|exact Hcon|exact Hrw|]. fold cfg0. intros a j e He.
  destruct (Hx a j e He) as [[? ?]|(? & ? & ?)]; [left|right]; naive_solver.
Qed.

Lemma disconnect_wired i cfg cfg' :
  disconnect i cfg = Done cfg' → wired cfg → wired cfg' ∧ isCon cfg' i = false ∧ rewired (set_connected (connected cfg') cfg) cfg'.
Proof.
  unfold disconnect. intros (con & Hcon%ofOption_Done & (c1 & H1 & H2)%bind_Done)%bind_Done Hw.
  set (cfg0 := set_connected con cfg) in *.
  assert (∀ from to c j c', rewired cfg0 c → disconnectEnd from to c j = Done c' →
    (c' = c ∧ ¬ (∃ l, idx (endnames cfg0) (from j) = Some (Some l))) ∨
    ∃ e, (∃ l, idx (endnames cfg0) (from j) = Some (Some l)) ∧ endOf cfg0 (from j) (to j) = Some e ∧ c' = enableEnd e false c) as Hdis.
  { intros from to c j c' (Ec & _) (l & Hl%ofOption_Done & Hc')%bind_Done.
    assert (idx (endnames cfg0) (from j) = Some l) as El by (rewrite Ec in Hl; exact Hl).
    destruct l as [l|]; [right|left; split; [by injection Hc' as ->|by intros [l ?]; simplify_eq]].
    apply bind_Done in Hc' as (e & He%ofOption_Done & [= <-]). exists e. split; [eauto|]. split; [|done].
    rewrite Ec in He. exact He. }
  assert (cfg_n c1 = cfg_n cfg0) as En.
  { destruct (switch_loop (disconnectEnd (λ _, i) (λ j, j)) (λ _, i) (λ j, j) false (λ _, ∃ l, idx (endnames cfg0) i = Some (Some l)) _ cfg0 c1
      ltac:(intros; by apply (Hdis (λ _, i) (λ j, j))) H1) as [(-> & _) _]. done. }
  rewrite En in H2.
  destruct (switch_both disconnectEnd false i (λ _, ∃ l, idx (endnames cfg0) i = Some (Some l))
    (λ j, ∃ l, idx (endnames cfg0) j = Some (Some l)) cfg con cfg0 c1 cfg' Hw eq_refl)
    as [Hrw Hx]; [intros; by apply (Hdis (λ _, i) (λ j, j))|intros; by apply (Hdis (λ j, j) (λ _, i))|exact H1|exact H2|].
  assert (∀ a j e, endOf cfg a j = Some e → ∃ l, idx (endnames cfg0) a = Some (Some l)) as Hrow.
  { intros a j e (l & Hl & (l' & -> & _)%bind_Some)%bind_Some. exists l'. exact Hl. }
  assert (connected cfg' = con) as Econ by (destruct Hrw as (-> & _); done).
  split_and!.
  - eapply wired_switch; [exact Hw|exact Hcon|exact Hrw|]. fold cfg0. intros a j e He.
    destruct (Hx a j e He) as [[? ?]|(? & ? & ?)]; [left|right].
    + split; [|done]. naive_solver.
    + split_and!; [| |done]; intros [-> _]; pose proof (Hrow _ _ _ He); tauto.
  - unfold isCon. rewrite Econ. apply upd_Some in Hcon as [? ->]. by rewrite idx_insert_eq.
  - by rewrite Econ.
Qed.

Lemma crash1_wired i cfg cfg' :
  crash1 i cfg = Done cfg' → wired cfg →
  wired cfg' ∧ isCon cfg' i = false ∧ cfg_n cfg' = cfg_n cfg ∧ endnames cfg' = endnames cfg.
Proof.
  unfold crash1. intros (c1 & Hd & H)%bind_Done Hw. destruct (disconnect_wired _ _ _ Hd Hw) as (Hw1 & Hc1 & (E1 & _)).
  apply bind_Done in H as (ps & _ & H). apply bind_Done in H as (rs & _ & H). apply bind_Done in H as (sv & _ & [= <-]).
  split; [|split; [done|by rewrite E1]]. by eapply wired_same; [exact Hw1|..].
Qed.

(** The new ends of a peer are fresh, lead to its peers and are disabled. *)
Lemma makeEnds_spec names cfg cfg' :
  makeEnds names cfg = Done cfg' →
  NoDup names ∧ (∀ e, e ∈ names → e ∉ ends (cfg_net cfg)) ∧
  (∃ rn, cfg' = set_net rn cfg) ∧ ends (cfg_net cfg') = list_to_set names ∪ ends (cfg_net cfg) ∧
  (∀ j e, idx names j = Some e → enabled (cfg_net cfg') !! e = Some false ∧ connections (cfg_net cfg') !! e = Some (Some j)) ∧
  (∀ e, e ∉ names → enabled (cfg_net cfg') !! e = enabled (cfg_net cfg) !! e ∧
                     connections (cfg_net cfg') !! e = connections (cfg_net cfg) !! e).
Proof.
  unfold makeEnds. intros (rn & (? & ? & ? & ? & ?)%makeRow_spec & [= <-])%bind_Done. simpl. split_and!; eauto.
Qed.

(** A peer that starts gets a fresh row of disabled ends. *)
Lemma row_wired i names cfg ens cfg' :
  wired cfg → isCon cfg i = false → length names = Z.to_nat (cfg_n cfg) →
  0 ≤ i < cfg_n cfg → upd (endnames cfg) i (Some names) = Some ens →
  makeEnds names (set_endnames ens cfg) = Done cfg' → wired cfg'.
Proof.
  intros [Hk Hi Hr He Hc] Hcon Hlen Hin [Hir ->]%upd_Some (Hnd & Hfr & [rn ->] & Hen & Hnew & Hold)%makeEnds_spec.
  simpl in *.
  assert (∀ a j e, endOf (set_net rn (set_endnames (<[Z.to_nat i := Some names]> (endnames cfg)) cfg)) a j = Some e →
    (a = i ∧ idx names j = Some e) ∨ (a ≠ i ∧ endOf cfg a j = Some e)) as Hrow.
  { intros a j e. unfold endOf. simpl. destruct (decide (a = i)) as [->|?].
    - rewrite idx_insert_eq by done. simpl. auto.
    - rewrite idx_insert_ne by lia. auto. }
  assert (∀ a j e, endOf cfg a j = Some e → e ∉ names) as Hdis by (intros a j e ?%Hk ?%Hfr; done).
  split; simpl.
  - intros a j e [[_ Hx%idx_elem_of]|[_ Hx%Hk]]%Hrow; rewrite Hen; set_solver.
  - intros a j a' j' e [[-> Hx]|[? Hx]]%Hrow [[-> Hx']|[? Hx']]%Hrow.
    + split; [done|]. apply idx_Some in Hx as [? Hx], Hx' as [? Hx'].
      pose proof (NoDup_lookup _ _ _ _ Hnd Hx Hx'). lia.
    + apply idx_elem_of in Hx. by apply Hdis in Hx'.
    + apply idx_elem_of in Hx'. by apply Hdis in Hx.
    + by eapply Hi.
  - intros a j e [[-> Hx%idx_lt]|[_ Hx%Hr]]%Hrow; [unfold zlen in Hx; lia|done].
  - intros a j e [[-> Hx]|[? Hx]]%Hrow.
    + destruct (Hnew _ _ Hx) as [-> _]. unfold isCon in *. simpl. by rewrite Hcon.
    + destruct (Hold e (Hdis _ _ _ Hx)) as [-> _]. by apply He.
  - intros a j e [[-> Hx]|[? Hx]]%Hrow.
    + by destruct (Hnew _ _ Hx) as [_ ->].
    + destruct (Hold e (Hdis _ _ _ Hx)) as [_ ->]. by eapply Hc.
Qed.

Lemma ingestSnap_frame i snap index cfg err cfg' :
  ingestSnap i snap index cfg = Done (err, cfg') →
  cfg_n cfg' = cfg_n cfg ∧ endnames cfg' = endnames cfg ∧ connected cfg' = connected cfg ∧ cfg_net cfg' = cfg_net cfg.
Proof.
  unfold ingestSnap. destruct snap; [done|]. destruct (gob_decode _) as [[la xl]|]; [|done].
  destruct (_ && _); [by intros [= <- <-]|].
  intros (l & _ & H)%bind_Done. apply bind_Done in H as (la' & _ & [= <- <-]). done.
Qed.

Lemma start1_wired i names cfg cfg' :
  start1 raftService i names cfg = Done cfg' → 0 ≤ i < cfg_n cfg → length names = Z.to_nat (cfg_n cfg) →
  wired cfg → wired cfg' ∧ cfg_n cfg' = cfg_n cfg.
Proof.
  unfold start1. intros (c1 & Hcr & H)%bind_Done Hi Hlen Hw.
  destruct (crash1_wired _ _ _ Hcr Hw) as (Hw1 & Hc1 & En1 & _).
  apply bind_Done in H as (ens & Hens%ofOption_Done & H). apply bind_Done in H as (c2 & Hm & H).
  assert (wired c2) as Hw2 by (eapply row_wired; [exact Hw1|exact Hc1| | |exact Hens|exact Hm]; by rewrite En1).
  assert (cfg_n c2 = cfg_n cfg) as En2.
  { destruct (makeEnds_spec _ _ _ Hm) as (_ & _ & [rn ->] & _). done. }
  apply bind_Done in H as (la & _ & H). apply bind_Done in H as (ps & _ & H). apply bind_Done in H as ([ps' c3] & Hsn & H).
  assert (cfg_n c3 = cfg_n c2 ∧ endnames c3 = endnames c2 ∧ connected c3 = connected c2 ∧ cfg_net c3 = cfg_net c2) as (F1 & F2 & F3 & F4).
  { destruct ps as [ps|]; [|by injection Hsn as _ <-]. destruct (ReadSnapshot (Copy ps)) eqn:E; [by injection Hsn as _ <-|].
    apply bind_Done in Hsn as ([err c4] & Hing%ingestSnap_frame & Herr). destruct err; [done|]. injection Herr as _ <-. done. }
  apply bind_Done in H as (sv & _ & H). apply bind_Done in H as (rf & _ & H). apply bind_Done in H as (rs & _ & [= <-]).
  split; [|simpl; congruence]. eapply wired_same; [exact Hw2|..]; simpl; congruence.
Qed.

(** ** Runs of the harness *)

(** What a test does to the wiring. *)
Inductive wireOp := WConnect (i : Z) | WDisconnect (i : Z) | WCrash (i : Z) | WStart (i : Z) (names : list Z).

Definition wireStep cfg (op : wireOp) : outcome (config C) :=
  match op with
  | WConnect i => connect i cfg
  | WDisconnect i => disconnect i cfg
  | WCrash i => crash1 i cfg
  | WStart i names => start1 raftService i names cfg
  end.

(** [start1] makes one name for every peer, and is called with a peer. *)
Definition properOp (n : Z) (op : wireOp) : Prop :=
  match op with WStart i names => 0 ≤ i < n ∧ length names = Z.to_nat n | _ => True end.

Lemma connect_n i cfg cfg' : connect i cfg = Done cfg' → cfg_n cfg' = cfg_n cfg.
Proof.
  assert (∀ from to js (c c' : config C), foldO (connectEnd from to) js c = Done c' → cfg_n (C:=C) c' = cfg_n c) as Hl.
  { intros from to js c c'. apply (foldO_inv (λ c', cfg_n c' = cfg_n c)); [|done].
    intros j c1 c2 _ E (b & _ & H)%bind_Done. destruct b; [|by injection H as <-].
    by apply bind_Done in H as (e & _ & [= <-]). }
  unfold connect. intros (con & _ & (c1 & H1%Hl & H2%Hl)%bind_Done)%bind_Done. simpl in *. congruence.
Qed.

Lemma disconnect_n i cfg cfg' : disconnect i cfg = Done cfg' → cfg_n cfg' = cfg_n cfg.
Proof.
  assert (∀ from to js (c c' : config C), foldO (disconnectEnd from to) js c = Done c' → cfg_n (C:=C) c' = cfg_n c) as Hl.
  { intros from to js c c'. apply (foldO_inv (λ c', cfg_n c' = cfg_n c)); [|done].
    intros j c1 c2 _ E (b & _ & H)%bind_Done. destruct b; [|by injection H as <-].
    by apply bind_Done in H as (e & _ & [= <-]). }
  unfold disconnect. intros (con & _ & (c1 & H1%Hl & H2%Hl)%bind_Done)%bind_Done. simpl in *. congruence.
Qed.

Lemma wireStep_wired cfg op cfg' :
  wireStep cfg op = Done cfg' → properOp (cfg_n cfg) op → wired cfg → wired cfg' ∧ cfg_n cfg' = cfg_n cfg.
Proof.
  destruct op; simpl; intros H Hp Hw.
  - split; [by eapply connect_wired|by eapply connect_n].
  - split; [by eapply disconnect_wired|by eapply disconnect_n].
  - by destruct (crash1_wired _ _ _ H Hw) as (? & _ & ? & _).
  - destruct Hp. by eapply start1_wired.
Qed.

Lemma freshConfig_wired n unreliable : wired (freshConfig n unreliable).
Proof.
  assert (∀ i j, endOf (C:=C) (freshConfig n unreliable) i j = None) as H.
  { intros i j. unfold endOf. simpl. unfold idx. destruct (0 <=? i); [|done].
    destruct (replicate _ _ !! _) as [l|] eqn:E; [|done]. by apply lookup_replicate in E as [-> _]. }
  split; intros *; rewrite H; done.
Qed.

Lemma make_config_wired n unreliable names cfg :
  make_config raftService n unreliable names = Done cfg → (∀ i, length (names i) = Z.to_nat n) →
  wired cfg ∧ cfg_n cfg = n.
Proof.
  unfold make_config. intros (c1 & H1 & H2)%bind_Done Hn.
  assert (wired c1 ∧ cfg_n c1 = n) as Hc1.
  { revert H1. apply (foldO_inv (λ c, wired c ∧ cfg_n c = n)); [|split; [apply freshConfig_wired|done]].
    intros i c c' Hi%elem_of_range [Hw En] (l & _ & H)%bind_Done.
    destruct (start1_wired i (names i) (set_logs_of l c) c' H) as [? E]; [simpl; lia|by rewrite Hn; simpl; rewrite En| |].
    - by eapply wired_same; [exact Hw|..].
    - split; [done|]. simpl in E. congruence. }
  revert H2. apply (foldO_inv (λ c, wired c ∧ cfg_n c = n)); [|done].
  intros i c c' _ [Hw En] H. split; [by eapply connect_wired|]. by rewrite (connect_n _ _ _ H).
Qed.

(** The wiring of the harness.  After [make_config] and any sequence of connects,
    disconnects, crashes and restarts, the end that peer [i] uses for peer [j]
    leads to [j], and the network lets a request through it exactly if both are
    connected; that no two ends share a name is ensured by [MakeEnd], not assumed. *)
Theorem harness_wiring n unreliable names ops cfg cfg' i j e :
  make_config raftService n unreliable names = Done cfg → (∀ i, length (names i) = Z.to_nat n) →
  Forall (properOp n) ops → foldO wireStep ops cfg = Done cfg' →
  endOf cfg' i j = Some e →
  ∃ rel reo, readEndnameInfo e (cfg_net cfg') =
    (isCon cfg' i && isCon cfg' j, Some j, serverOf j (cfg_net cfg'), rel, reo).
Proof.
  intros Hmk Hnames Hrun Hops He. destruct (make_config_wired _ _ _ _ Hmk Hnames) as [Hw En]. rewrite Forall_forall in Hrun.
  assert (wired cfg' ∧ cfg_n cfg' = n) as [Hw' _].
  { revert Hops. apply (foldO_inv (λ c, wired c ∧ cfg_n c = n)); [|done].
    intros op c c' Hin [Hwc Enc] H.
    destruct (wireStep_wired c op c' H) as [? E]; [rewrite Enc; by apply Hrun|done|]. split; [done|congruence]. }
  unfold readEndnameInfo. rewrite (wi_enabled _ Hw' _ _ _ He), (wi_conn _ Hw' _ _ _ He). simpl. eauto.
Qed.

End wiring.

(** ** A concrete harness *)

#[export] Instance snapLog_gob : Gob (Z * list (option Z)) := countable_gob (Z * list (option Z)).

(** Two peers with the ends 0, 1 and 10, 11; then peer 1 is cut off. *)
Definition exampleService (i : Z) : Service nat := mkService "Raft"%string ∅.
Definition exampleNames (i : Z) : list Z := [10 * i; 10 * i + 1].
Definition exampleCfg : config Z :=
  match make_config exampleService 2 false exampleNames with Done c => c | _ => freshConfig 2 false end.
Definition cutCfg : config Z :=
  match foldO (wireStep exampleService) [WDisconnect 1] exampleCfg with Done c => c | _ => freshConfig 2 false end.

Lemma harness_wiring_witness :
  endOf cutCfg 0 1 = Some 1 ∧
  ∃ rel reo, readEndnameInfo 1 (cfg_net cutCfg) = (false, Some 1, serverOf 1 (cfg_net cutCfg), rel, reo).
Proof.
  split; [vm_compute; reflexivity|].
  refine (harness_wiring exampleService 2 false exampleNames [WDisconnect 1] exampleCfg cutCfg 0 1 1 _ _ _ _ _);
    [vm_compute; reflexivity|done|repeat constructor|vm_compute; reflexivity..].
Defined.
