(* ===== verification/KvHarness.v ===== *)
(** * The test harness of the key/value service ([kvraft/config.go])

    How the harness wires servers and clerks on the simulated network, splits the
    servers into partitions, and shuts servers down and starts them again.  As in
    [RaftHarness] a failure is an outcome.  The wiring reads [cfg.endnames] and
    changes [cfg.net]: the functions that do only this take the two.  Random
    numbers and names are arguments.  Statistics are not modelled. *)

From S2P Require Import Prelude Persister KvRaft RaftNode RaftLeader RaftApplier LabRpc RaftHarness.

(** ** Wiring *)

Section wiring.
Context {S : Type}.
Implicit Types (names : list (option (list Z))) (rn : Network S).

(** [cfg.endnames[i][j]]: a nil slice panics like an index out of range. *)
Definition endAt names (i j : Z) : option Z := l ← idx names i; l ← l; idx l j.

(** [cfg.net.Enable(cfg.endnames[i][j], yes)] *)
Definition switch names (yes : bool) (i j : Z) rn : outcome (Network S) :=
  e ← ofOption (endAt names i j); mret (Enable e yes rn).

(** [func (cfg *config) connectUnlocked(i int, to []int)] *)
Definition connectUnlocked names (i : Z) (to : list Z) rn : outcome (Network S) :=
  rn ← foldO (λ rn j, switch names true i j rn) to rn;
  foldO (λ rn j, switch names true j i rn) to rn.

(** [func (cfg *config) disconnectUnlocked(i int, from []int)]: the second loop
    tests the row of the position [j], not the row of the server [from[j]]. *)
Definition disconnectUnlocked names (i : Z) (from : list Z) rn : outcome (Network S) :=
  rn ← foldO (λ rn j,
      row ← ofOption (idx names i);
      if decide (is_Some row) then switch names false i j rn else mret rn) from rn;
  foldO (λ rn (js : Z * Z),
      row ← ofOption (idx names js.1);
      if decide (is_Some row) then switch names false js.2 i rn else mret rn) (enumerate from) rn.

(** [func (cfg *config) All() []int] *)
Definition All (n : Z) : list Z := range 0 n.

(** [func (cfg *config) ConnectAll()] *)
Definition ConnectAll names (n : Z) rn : outcome (Network S) :=
  foldO (λ rn i, connectUnlocked names i (All n) rn) (range 0 n) rn.

(** [func (cfg *config) partition(p1 []int, p2 []int)] *)
Definition partition names (p1 p2 : list Z) rn : outcome (Network S) :=
  rn ← foldO (λ rn i, rn ← disconnectUnlocked names i p2 rn; connectUnlocked names i p1 rn) p1 rn;
  foldO (λ rn i, rn ← disconnectUnlocked names i p1 rn; connectUnlocked names i p2 rn) p2 rn.

(** [func (cfg *config) ConnectClientUnlocked(ck, to)] and
    [DisconnectClientUnlocked(ck, from)] on the names of the clerk. *)
Definition switchClient (yes : bool) (endnames : list Z) (to : list Z) rn : outcome (Network S) :=
  foldO (λ rn j, s ← ofOption (idx endnames j); mret (Enable s yes rn)) to rn.
End wiring.

(** [func random_handles(kvh []*labrpc.ClientEnd)]: [rnd i] is what
    [rand.Intn(i + 1)] returned; the two ends change places. *)
Definition random_handles {A} (rnd : Z → Z) (kvh : list A) : option (list A) :=
  foldM (λ sa i,
    x ← idx sa i; y ← idx sa (rnd i);
    sa ← upd sa i y; upd sa (rnd i) x) (range 0 (zlen kvh)) kvh.

(** The loop of [make_partition] that deals out the servers other than [l]. *)
Definition dealServers (n l : Z) (p1 p2 : list Z) : option (list Z * list Z * Z) :=
  foldM (λ (acc : list Z * list Z * Z) i,
    let '(p1, p2, j) := acc in
    if i =? l then Some acc
    else if j <? zlen p1 then p1 ← upd p1 j i; Some (p1, p2, j + 1)
    else p2 ← upd p2 (j - zlen p1) i; Some (p1, p2, j + 1))
    (range 0 n) (p1, p2, 0).

(** [func (cfg *config) make_partition() ([]int, []int)] with the leader [l]. *)
Definition make_partition (n l : Z) : option (list Z * list Z) :=
  '(p1, p2, _) ← dealServers n l (replicate (Z.to_nat (n ÷ 2 + 1)) 0) (replicate (Z.to_nat (n ÷ 2)) 0);
  p2 ← upd p2 (zlen p2 - 1) l;
  Some (p1, p2).

(** ** The configuration *)

Section harness.
Context `{!Gob (PersistentStatus Op)} `{!Gob SnapshotStatus}.

(** [*KVServer] with its [rf]. *)
Record kvserver := mkKvserver { kvs_kv : KVServer; kvs_rf : Raft Op }.

(** [type config struct]; a clerk is the address of its object. *)
Record config := mkConfig {
  cfg_n : Z;
  kvservers : list (option kvserver);
  saved : list (option Persister);
  endnames : list (option (list Z));
  clerks : gmap nat (list Z);
  nextClientId : Z;
  cfg_maxraftstate : Z;
  cfg_net : Network nat;
}.

Definition set_net (rn : Network nat) (c : config) : config :=
  mkConfig (cfg_n c) (kvservers c) (saved c) (endnames c) (clerks c) (nextClientId c) (cfg_maxraftstate c) rn.
Definition set_endnames (l : list (option (list Z))) (c : config) : config :=
  mkConfig (cfg_n c) (kvservers c) (saved c) l (clerks c) (nextClientId c) (cfg_maxraftstate c) (cfg_net c).
Definition set_saved (l : list (option Persister)) (c : config) : config :=
  mkConfig (cfg_n c) (kvservers c) l (endnames c) (clerks c) (nextClientId c) (cfg_maxraftstate c) (cfg_net c).
Definition set_kvservers (l : list (option kvserver)) (c : config) : config :=
  mkConfig (cfg_n c) l (saved c) (endnames c) (clerks c) (nextClientId c) (cfg_maxraftstate c) (cfg_net c).
Definition set_clerks (m : gmap nat (list Z)) (next : Z) (c : config) : config :=
  mkConfig (cfg_n c) (kvservers c) (saved c) (endnames c) m next (cfg_maxraftstate c) (cfg_net c).

(** Run a wiring function on the network of the configuration. *)
Definition onNet (f : Network nat → outcome (Network nat)) (c : config) : outcome config :=
  rn ← f (cfg_net c); mret (set_net rn c).

(** [cfg.saved[i]]: the Raft peer of a running server writes to the same object. *)
Definition savedState (i : Z) (c : config) : outcome (option Persister) :=
  ps ← ofOption (idx (saved c) i);
  kv ← ofOption (idx (kvservers c) i);
  mret (match ps, kv with
        | Some _, Some kv => Some (persister (kvs_rf kv))
        | _, _ => ps
        end).

(** [func (cfg *config) LogSize() int] and [func (cfg *config) SnapshotSize() int] *)
Definition maxSize (size : Persister → Z) (c : config) : outcome Z :=
  foldO (λ acc i,
    ps ← savedState i c;
    ps ← ofOption ps;
    mret (if acc <? size ps then size ps else acc)) (range 0 (cfg_n c)) 0.
Definition LogSize : config → outcome Z := maxSize RaftStateSize.
Definition SnapshotSize : config → outcome Z := maxSize Persister.SnapshotSize.

(** [func (cfg *config) makeClient(to []int) *Clerk]: the clerk, and the ends it
    is given in the order [random_handles] put them; [id] is what its [nrand] drew. *)
Definition makeClient (to row : list Z) (rnd : Z → Z) (id : Z) (c : config)
    : outcome (nat * (Clerk * list Z) * config) :=
  c ← onNet (makeRow row) c;
  handles ← ofOption (random_handles rnd row);
  let ck := fresh (dom (clerks c)) in
  let c := set_clerks (<[ck := row]> (clerks c)) (nextClientId c + 1) c in
  c ← onNet (switchClient true row to) c;
  mret (ck, (MakeClerk (zlen handles) id, handles), c).

(** [func (cfg *config) deleteClient(ck *Clerk)]: no file has the name of an end. *)
Definition deleteClient (ck : nat) (c : config) : config :=
  set_clerks (delete ck (clerks c)) (nextClientId c) c.

(** [func (cfg *config) ConnectClient(ck, to)] and [DisconnectClient(ck, from)];
    the names of a clerk that is not in the map are an empty slice. *)
Definition ConnectClient (ck : nat) (to : list Z) (c : config) : outcome config :=
  onNet (switchClient true (default [] (clerks c !! ck)) to) c.
Definition DisconnectClient (ck : nat) (from : list Z) (c : config) : outcome config :=
  onNet (switchClient false (default [] (clerks c !! ck)) from) c.

(** [func (cfg *config) ShutdownServer(i int)]; the killed server is dropped. *)
Definition ShutdownServer (i : Z) (c : config) : outcome config :=
  c ← onNet (disconnectUnlocked (endnames c) i (All (cfg_n c))) c;
  let c := set_net (DeleteServer i (cfg_net c)) c in
  ps ← savedState i c;
  saved' ← ofOption (upd (saved c) i (Copy <$> ps));
  let c := set_saved saved' c in
  kvs ← ofOption (upd (kvservers c) i None);
  mret (set_kvservers kvs c).

(** The services of a server on the network. *)
Context (kvService raftService : Z → Service nat).

(** [func (cfg *config) StartServer(i int)] with the [cfg.n] names of its ends. *)
Definition StartServer (i : Z) (row : list Z) (c : config) : outcome config :=
  ens ← ofOption (upd (endnames c) i (Some row));
  c ← onNet (makeRow row) (set_endnames ens c);
  ps ← savedState i c;
  let ps := match ps with Some ps => Copy ps | None => MakePersister end in
  saved' ← ofOption (upd (saved c) i (Some ps));
  let c := set_saved saved' c in
  rf ← ofOption (Make (cfg_n c) i ps);
  kvs ← ofOption (upd (kvservers c) i (Some (mkKvserver (StartKVServer ps (cfg_maxraftstate c)) rf)));
  let c := set_kvservers kvs c in
  let rn := cfg_net c in
  let srv := length (heap rn) in
  let rs := AddService (raftService i) (AddService (kvService i) MakeServer) in
  mret (set_net (AddServer i srv (setHeap (heap rn ++ [(rs, Z.to_nat i)]) rn)) c).

(** [func (cfg *config) Leader() (bool, int)]: a nil server panics. *)
Definition Leader (c : config) : outcome (bool * Z) :=
  foldO (λ (acc : bool * Z) i,
    if acc.1 then mret acc else
    match idx (kvservers c) i with
    | Some (Some kv) => mret (if (GetState (kvs_rf kv)).2 then (true, i) else acc)
    | _ => Panic
    end) (range 0 (cfg_n c)) (false, 0).

(** [cfg.make_partition()] *)
Definition makePartition (c : config) : outcome (list Z * list Z) :=
  '(_, l) ← Leader c; ofOption (make_partition (cfg_n c) l).

(** The composite of [make_config] before the servers are started. *)
Definition freshConfig (n maxraftstate : Z) : config :=
  let N := Z.to_nat n in
  mkConfig n (replicate N None) (replicate N None) (replicate N None) ∅ (n + 1000) maxraftstate MakeNetwork.

(** [func make_config(t, n, unreliable, maxraftstate) *config]: [rows i] are the
    names of the ends of server [i]. *)
Definition make_config (n : Z) (unreliable : bool) (maxraftstate : Z) (rows : Z → list Z) : outcome config :=
  c ← foldO (λ c i, StartServer i (rows i) c) (range 0 n) (freshConfig n maxraftstate);
  c ← onNet (ConnectAll (endnames c) (cfg_n c)) c;
  mret (set_net (Reliable (negb unreliable) (cfg_net c)) c).
End harness.
