(* ===== verification/KvHarnessFacts.v ===== *)
(** * Partitions of the key/value harness

    [make_partition] and [partition] of [kvraft/config.go]: whatever the harness
    and the Raft peers did before, with an odd number of servers they leave the leader in a minority
    that no message crosses.  With an even number [make_partition] counts
    server 0 twice. *)

From S2P Require Import Prelude Persister KvRaft RaftNode RaftLeader RaftApplier LabRpc RaftCluster RaftHarness RaftHarnessFacts RaftWiring KvRaftLog KvRaftCluster KvHarness.

(** ** Wiring as a list of writes *)

Section writes.
Context {S : Type} (names : list (option (list Z))) (n : Z).
Implicit Types (rn : Network S) (ws : list (Z * Z * bool)).

(** Every server has an end to every server. *)
Definition full : Prop :=
  zlen names = n ∧ ∀ i j, 0 ≤ i < n → 0 ≤ j < n → is_Some (endAt names i j).

(** No end is used twice. *)
Definition distinct : Prop :=
  ∀ i j i' j' e, endAt names i j = Some e → endAt names i' j' = Some e → i = i' ∧ j = j'.

Definition inside (l : list Z) : Prop := ∀ i, i ∈ l → 0 ≤ i < n.

(** Switch the ends of the pairs, in order. *)
Definition enableAll ws rn : Network S :=
  foldl (λ rn w, match endAt names w.1.1 w.1.2 with Some e => Enable e w.2 rn | None => rn end) rn ws.

Lemma enableAll_app ws ws' rn : enableAll (ws ++ ws') rn = enableAll ws' (enableAll ws rn).
Proof. apply foldl_app. Qed.

Hypothesis Hfull : full.

Lemma switch_write b i j rn : 0 ≤ i < n → 0 ≤ j < n → switch names b i j rn = Done (enableAll [(i, j, b)] rn).
Proof. intros Hi Hj. destruct Hfull as [_ Hf]. destruct (Hf i j Hi Hj) as [e He]. unfold switch. simpl. by rewrite He. Qed.

Lemma foldO_writes {A} (f : Network S → A → outcome (Network S)) (g : A → list (Z * Z * bool)) l rn :
  (∀ x rn, x ∈ l → f rn x = Done (enableAll (g x) rn)) → foldO f l rn = Done (enableAll (l ≫= g) rn).
Proof.
  revert rn. induction l as [|x l IH]; intros rn Hf; [done|]. simpl. rewrite Hf by by left. simpl.
  rewrite IH by (intros; apply Hf; by right). by rewrite enableAll_app.
Qed.

(** The ends between [i] and each of [to]. *)
Definition between (b : bool) (i : Z) (to : list Z) : list (Z * Z * bool) :=
  (to ≫= λ j, [(i, j, b)]) ++ (to ≫= λ j, [(j, i, b)]).

Lemma connectUnlocked_writes i to rn :
  0 ≤ i < n → inside to → connectUnlocked names i to rn = Done (enableAll (between true i to) rn).
Proof.
  intros Hi Ht. unfold connectUnlocked, between. rewrite enableAll_app.
  rewrite (foldO_writes _ (λ j, [(i, j, true)])) by (intros; apply switch_write; auto). simpl.
  apply foldO_writes. intros. apply switch_write; auto.
Qed.

Lemma row_Some i : 0 ≤ i < n → ∃ l, idx names i = Some (Some l).
Proof.
  intros Hi. destruct Hfull as [_ Hf]. destruct (Hf i i Hi Hi) as [e (l & Hl & (l' & -> & _)%bind_Some)%bind_Some].
  eauto.
Qed.

Lemma foldO_enumerate {A B} (f : B → A → outcome B) (l : list A) b :
  foldO (λ b (jx : Z * A), f b jx.2) (enumerate l) b = foldO f l b.
Proof.
  unfold enumerate.
  assert (∀ (g : nat → Z), foldO (λ b (jx : Z * A), f b jx.2) (imap (λ i x, (g i, x)) l) b = foldO f l b) as H; [|apply H].
  revert b. induction l as [|x l IH]; intros b g; [done|]. simpl.
  destruct (f b x); [|done..]. simpl. apply (IH a (λ i, g (Datatypes.S i))).
Qed.

Lemma foldO_ext {A B} (f g : B → A → outcome B) l b :
  (∀ x c, x ∈ l → f c x = g c x) → foldO f l b = foldO g l b.
Proof.
  revert b. induction l as [|x l IH]; intros b H; simpl; [done|]. rewrite H by by left.
  destruct (g b x); [|done..]. simpl. apply IH. intros. apply H. by right.
Qed.

Lemma disconnectUnlocked_writes i from rn :
  0 ≤ i < n → inside from → zlen from ≤ n → disconnectUnlocked names i from rn = Done (enableAll (between false i from) rn).
Proof.
  intros Hi Hf Hlen. unfold disconnectUnlocked, between. rewrite enableAll_app.
  rewrite (foldO_writes _ (λ j, [(i, j, false)])).
  2:{ intros j rn0 Hj. destruct (row_Some i Hi) as [l ->]. simpl. apply switch_write; auto. }
  cbn [mbind outcome_bind].
  rewrite (foldO_ext _ (λ rn (js : Z * Z), switch names false js.2 i rn)).
  2:{ intros [k j] rn0 Hk%elem_of_enumerate%idx_lt. cbn [fst snd]. destruct (row_Some k) as [l ->]; [lia|done]. }
  rewrite (foldO_enumerate (λ rn j, switch names false j i rn)).
  apply foldO_writes. intros. apply switch_write; auto.
Qed.

(** The writes of [partition]. *)
Definition partitionWrites (p1 p2 : list Z) : list (Z * Z * bool) :=
  (p1 ≫= λ i, between false i p2 ++ between true i p1) ++
  (p2 ≫= λ i, between false i p1 ++ between true i p2).

Lemma partition_writes p1 p2 rn :
  inside p1 → inside p2 → zlen p1 ≤ n → zlen p2 ≤ n →
  partition names p1 p2 rn = Done (enableAll (partitionWrites p1 p2) rn).
Proof.
  intros H1 H2 L1 L2. unfold partition, partitionWrites. rewrite enableAll_app.
  rewrite (foldO_writes _ (λ i, between false i p2 ++ between true i p1)).
  - simpl. apply foldO_writes. intros i rn0 Hi. rewrite disconnectUnlocked_writes by auto. simpl.
    rewrite connectUnlocked_writes by auto. by rewrite enableAll_app.
  - intros i rn0 Hi. rewrite disconnectUnlocked_writes by auto. simpl.
    rewrite connectUnlocked_writes by auto. by rewrite enableAll_app.
Qed.

Lemma elem_of_between b i to w :
  w ∈ between b i to ↔ ∃ j, j ∈ to ∧ (w = (i, j, b) ∨ w = (j, i, b)).
Proof.
  unfold between. rewrite elem_of_app, !list_elem_of_bind. setoid_rewrite list_elem_of_singleton. naive_solver.
Qed.

(** A write inside a part enables, a write across disables. *)
Lemma elem_of_partitionWrites p1 p2 a b v :
  (a, b, v) ∈ partitionWrites p1 p2 ↔
  v = true ∧ (a ∈ p1 ∧ b ∈ p1 ∨ a ∈ p2 ∧ b ∈ p2) ∨ v = false ∧ (a ∈ p1 ∧ b ∈ p2 ∨ a ∈ p2 ∧ b ∈ p1).
Proof.
  unfold partitionWrites. rewrite elem_of_app, !list_elem_of_bind. setoid_rewrite elem_of_app.
  setoid_rewrite elem_of_between. split.
  - intros [(i & [(j & ? & [[= -> -> ->]|[= -> -> ->]])|(j & ? & [[= -> -> ->]|[= -> -> ->]])] & ?)|
            (i & [(j & ? & [[= -> -> ->]|[= -> -> ->]])|(j & ? & [[= -> -> ->]|[= -> -> ->]])] & ?)]; tauto.
  - intros [[-> [[? ?]|[? ?]]]|[-> [[? ?]|[? ?]]]].
    + left. exists a. split; [right|done]. exists b. auto.
    + right. exists a. split; [right|done]. exists b. auto.
    + left. exists a. split; [left|done]. exists b. auto.
    + left. exists b. split; [left|done]. exists a. auto.
Qed.

(** What the last write says. *)
Lemma enableAll_lookup ws rn a b e v :
  distinct → endAt names a b = Some e → (∀ v', (a, b, v') ∈ ws → v' = v) → (a, b, v) ∈ ws →
  enabled (enableAll ws rn) !! e = Some v.
Proof.
  intros Hd He. revert rn. induction ws as [|[[i j] v0] ws IH] using rev_ind; intros rn Hv Hin; [by apply elem_of_nil in Hin|].
  rewrite enableAll_app. simpl. destruct (decide ((i, j) = (a, b))) as [[= -> ->]|Hne].
  - rewrite He. simpl. rewrite lookup_insert_eq. f_equal. apply Hv. set_solver.
  - assert ((a, b, v) ∈ ws) as Hin'.
    { apply elem_of_app in Hin as [?|Hin%list_elem_of_singleton]; [done|]. congruence. }
    specialize (IH rn ltac:(intros v' ?; apply Hv; set_solver) Hin').
    destruct (endAt names i j) as [e'|] eqn:E; [|done]. simpl. rewrite lookup_insert_ne; [done|].
    intros ->. destruct (Hd _ _ _ _ _ He E) as [-> ->]. done.
Qed.

(** [partition] with disjoint parts. *)
Lemma partition_enables p1 p2 rn :
  distinct → inside p1 → inside p2 → zlen p1 ≤ n → zlen p2 ≤ n → p1 ## p2 →
  ∃ rn', partition names p1 p2 rn = Done rn' ∧ ∀ a b e, a ∈ p1 ++ p2 → b ∈ p1 ++ p2 →
    endAt names a b = Some e → enabled rn' !! e = Some (bool_decide (a ∈ p1 ↔ b ∈ p1)).
Proof.
  intros Hd H1 H2 L1 L2 Hdis. eexists. split; [by apply partition_writes|]. intros a b e Ha Hb He.
  apply (enableAll_lookup _ _ a b); [done|done|intros v'|]; rewrite elem_of_partitionWrites;
    apply elem_of_app in Ha, Hb; pose proof (Hdis a); pose proof (Hdis b).
  - case_bool_decide; naive_solver.
  - case_bool_decide; naive_solver.
Qed.
End writes.

(** ** [make_partition] *)

(** Writing [x] at position [j] of two slices in a row. *)
Lemma upd_app {A} (p q : list A) j x :
  0 ≤ j < zlen p + zlen q →
  ∃ p' q', (if j <? zlen p then p' ← upd p j x; Some (p', q) else q' ← upd q (j - zlen p) x; Some (p, q')) = Some (p', q') ∧
    length p' = length p ∧ length q' = length q ∧ p' ++ q' = <[Z.to_nat j := x]> (p ++ q).
Proof.
  intros Hj. destruct (Z.ltb_spec j (zlen p)) as [Hlt|Hge].
  - destruct (upd_is_Some p j x) as [p' Hp']; [lia|]. rewrite Hp'. apply upd_Some in Hp' as [_ ->]. eexists _, _.
    split; [done|]. rewrite length_insert. split_and!; try done. rewrite insert_app_l; [done|]. unfold zlen in Hlt. lia.
  - destruct (upd_is_Some q (j - zlen p) x) as [q' Hq']; [lia|]. rewrite Hq'. apply upd_Some in Hq' as [_ ->]. eexists _, _.
    split; [done|]. rewrite length_insert. split_and!; try done. unfold zlen in *.
    rewrite insert_app_r_alt by lia. do 2 f_equal. lia.
Qed.

(** The loop deals the servers other than [l] into the slots, from the first one on. *)
Lemma dealServers_spec l xs p1 p2 j :
  0 ≤ j → j + zlen (filter (λ i, i ≠ l) xs) ≤ zlen p1 + zlen p2 →
  ∃ p1' p2' j', foldM (λ (acc : list Z * list Z * Z) i,
      let '(p1, p2, j) := acc in
      if i =? l then Some acc
      else if j <? zlen p1 then p1 ← upd p1 j i; Some (p1, p2, j + 1)
      else p2 ← upd p2 (j - zlen p1) i; Some (p1, p2, j + 1)) xs (p1, p2, j) = Some (p1', p2', j') ∧
    length p1' = length p1 ∧ length p2' = length p2 ∧
    p1' ++ p2' = take (Z.to_nat j) (p1 ++ p2) ++ filter (λ i, i ≠ l) xs ++
                 drop (Z.to_nat j + length (filter (λ i, i ≠ l) xs)) (p1 ++ p2).
Proof.
  revert p1 p2 j. induction xs as [|x xs IH]; intros p1 p2 j Hj Hlen.
  - exists p1, p2, j. split; [done|]. split_and!; try done. simpl. by rewrite Nat.add_0_r, take_drop.
  - cbn [foldM]. destruct (Z.eqb_spec x l) as [->|Hne].
    + rewrite filter_cons_False in Hlen |- * by naive_solver. simpl. by apply IH.
    + rewrite filter_cons_True in Hlen |- * by done. rewrite zlen_cons in Hlen.
      destruct (upd_app p1 p2 j x) as (q1 & q2 & Eq & L1 & L2 & Ea); [pose proof (zlen_nonneg (filter (λ i, i ≠ l) xs)); lia|].
      assert ((if j <? zlen p1 then p1 ← upd p1 j x; Some (p1, p2, j + 1)
               else p2 ← upd p2 (j - zlen p1) x; Some (p1, p2, j + 1)) = Some (q1, q2, j + 1)) as ->.
      { destruct (j <? zlen p1); [destruct (upd p1 j x)|destruct (upd p2 (j - zlen p1) x)]; simpl in *; by simplify_eq. }
      cbn [mbind option_bind]. destruct (IH q1 q2 (j + 1)) as (p1' & p2' & j' & -> & L1' & L2' & Eq'); [lia|unfold zlen in *; lia|].
      exists p1', p2', j'. split; [done|]. split_and!; [lia|lia|]. rewrite Eq', Ea.
      assert (Z.to_nat j < length (p1 ++ p2))%nat as Hlt.
      { rewrite length_app. unfold zlen in *. lia. }
      replace (Z.to_nat (j + 1)) with (S (Z.to_nat j)) by lia.
      rewrite (take_S_r _ _ x) by (by apply list_lookup_insert_eq). rewrite take_insert_ge by lia.
      rewrite drop_insert_lt by lia. rewrite <- app_assoc. simpl.
      replace (Z.to_nat j + S (length (filter (λ i, i ≠ l) xs)))%nat with (S (Z.to_nat j + length (filter (λ i, i ≠ l) xs))) by lia.
      done.
Qed.

Lemma others_perm n l : 0 ≤ l < n → filter (λ i, i ≠ l) (range 0 n) ++ [l] ≡ₚ range 0 n.
Proof.
  intros Hl. apply NoDup_Permutation.
  - apply NoDup_app. split_and!; [apply NoDup_filter, NoDup_seqZ| |apply NoDup_singleton].
    intros x [? _]%list_elem_of_filter ->%list_elem_of_singleton. done.
  - apply NoDup_seqZ.
  - intros x. rewrite elem_of_app, list_elem_of_filter, list_elem_of_singleton, elem_of_range.
    destruct (decide (x = l)); naive_solver lia.
Qed.

Lemma zlen_range n : 0 ≤ n → zlen (range 0 n) = n.
Proof. intros. unfold zlen, range. rewrite length_seqZ. lia. Qed.

(** The two parts: the servers other than the leader in order, one slot left at
    0 when their number is even, and the leader in the last one. *)
Lemma make_partition_spec n l :
  2 ≤ n → 0 ≤ l < n →
  ∃ p1 p2, make_partition n l = Some (p1, p2 ++ [l]) ∧ zlen p1 = n ÷ 2 + 1 ∧ zlen p2 = n ÷ 2 - 1 ∧
    p1 ++ p2 = filter (λ i, i ≠ l) (range 0 n) ++ (if Z.even n then [0] else []).
Proof.
  intros Hn Hl. assert (1 ≤ n ÷ 2) as Hq by (rewrite Z.quot_div_nonneg by lia; apply Z.div_le_lower_bound; lia).
  assert (zlen (filter (λ i, i ≠ l) (range 0 n)) = n - 1) as Ho.
  { pose proof (Permutation_length (others_perm n l Hl)) as E. rewrite length_app in E. simpl in E.
    pose proof (zlen_range n ltac:(lia)). unfold zlen in *. lia. }
  assert (n = 2 * (n ÷ 2) + (if Z.even n then 0 else 1)) as Hn2.
  { rewrite Z.quot_div_nonneg by lia. rewrite (Z.div_mod n 2) at 1 by lia. f_equal.
    rewrite Zmod_even. by destruct (Z.even n). }
  destruct (dealServers_spec l (range 0 n) (replicate (Z.to_nat (n ÷ 2 + 1)) 0) (replicate (Z.to_nat (n ÷ 2)) 0) 0)
    as (p1 & p2 & j & E & L1 & L2 & Ea).
  { lia. }
  { rewrite Ho. unfold zlen. rewrite !length_replicate. destruct (Z.even n); lia. }
  rewrite !length_replicate in *. simpl in Ea.
  destruct (@exists_last _ p2) as (p2' & y & ->); [intros ->; simpl in L2; lia|].
  rewrite length_app in L2. simpl in L2.
  exists p1, p2'. split_and!; [|unfold zlen; lia|unfold zlen; lia|].
  - unfold make_partition, dealServers. rewrite E. simpl.
    destruct (upd_is_Some (p2' ++ [y]) (zlen (p2' ++ [y]) - 1) l) as [q Hq'].
    { rewrite zlen_app. change (zlen [y]) with 1. pose proof (zlen_nonneg p2'). lia. }
    rewrite Hq'. apply upd_Some in Hq' as [_ ->]. simpl. do 2 f_equal.
    rewrite zlen_app. change (zlen [y]) with 1. unfold zlen. rewrite insert_app_r_alt by lia.
    by replace (Z.to_nat (Z.of_nat (length p2') + 1 - 1) - length p2')%nat with 0%nat by lia.
  - rewrite <- replicate_add, drop_replicate in Ea. unfold zlen in Ho.
    replace (Z.to_nat (n ÷ 2 + 1) + Z.to_nat (n ÷ 2) - length (filter (λ i, i ≠ l) (range 0 n)))%nat
      with (S (if Z.even n then 1 else 0)) in Ea by (destruct (Z.even n); lia).
    rewrite replicate_S_end, !app_assoc in Ea. apply app_inj_tail in Ea as [-> _]. by destruct (Z.even n).
Qed.

(** A single server has no minority to go to. *)
Lemma make_partition_single l : make_partition 1 l = None.
Proof. unfold make_partition, dealServers. change (range 0 1) with [0]. cbn [foldM]. by destruct (0 =? l). Qed.

(** ** Runs of the harness *)

Section runs.
Context `{!Gob (PersistentStatus Op)} `{!Gob SnapshotStatus}.
Context (kvService raftService : Z → Service nat).
Implicit Types (c : config) (rn : Network nat).

(** What a test does: it changes the wiring, stops and starts servers, makes and
    connects clerks.  Between its calls the Raft peers of the running servers go
    on: [HPeer i m] is a method [m] of the peer of server [i]. *)
Inductive harnessOp :=
  | HConnect (i : Z) (to : list Z) | HDisconnect (i : Z) (from : list Z)
  | HPartition (p1 p2 : list Z) | HConnectAll
  | HShutdown (i : Z) | HStart (i : Z) (row : list Z)
  | HClient (to row : list Z) (rnd : Z → Z) (id : Z) | HDeleteClient (ck : nat)
  | HConnectClient (ck : nat) (to : list Z) | HDisconnectClient (ck : nat) (from : list Z)
  | HPeer (i : Z) (m : M Op unit).

(** The peer of server [i] runs a method; the harness looks at nothing else of a server. *)
Definition runPeer (i : Z) (m : M Op unit) (c : config) : outcome config :=
  kv ← ofOption (idx (kvservers c) i);
  kv ← ofOption kv;
  '(_, rf, _) ← ofOption (m (kvs_rf kv));
  kvs ← ofOption (upd (kvservers c) i (Some (mkKvserver (kvs_kv kv) rf)));
  mret (set_kvservers kvs c).

Definition harnessStep c (op : harnessOp) : outcome config :=
  match op with
  | HConnect i to => onNet (connectUnlocked (endnames c) i to) c
  | HDisconnect i from => onNet (disconnectUnlocked (endnames c) i from) c
  | HPartition p1 p2 => onNet (partition (endnames c) p1 p2) c
  | HConnectAll => onNet (ConnectAll (endnames c) (cfg_n c)) c
  | HShutdown i => ShutdownServer i c
  | HStart i row => StartServer kvService raftService i row c
  | HClient to row rnd id => '(_, c') ← makeClient to row rnd id c; mret c'
  | HDeleteClient ck => mret (deleteClient ck c)
  | HConnectClient ck to => ConnectClient ck to c
  | HDisconnectClient ck from => DisconnectClient ck from c
  | HPeer i m => runPeer i m c
  end.

(** [StartServer] makes one name for every server. *)
Definition properOp (n : Z) (op : harnessOp) : Prop :=
  match op with HStart i row => zlen row = n | _ => True end.

(** The names of the ends are distinct and known to the network, and the servers
    in [up] have a name for every server. *)
Record named (up : Z → Prop) c : Prop := {
  na_distinct : distinct (endnames c);
  na_known i j e : endAt (endnames c) i j = Some e → e ∈ ends (cfg_net c);
  na_len : zlen (endnames c) = cfg_n c;
  na_rows i : up i → ∃ row, idx (endnames c) i = Some (Some row) ∧ zlen row = cfg_n c;
}.

Lemma named_full c : named (λ i, 0 ≤ i < cfg_n c) c → full (endnames c) (cfg_n c).
Proof.
  intros [_ _ Hl Hr]. split; [done|]. intros i j Hi Hj. destruct (Hr i Hi) as (row & E & Hlen). unfold endAt. rewrite E.
  simpl. apply idx_is_Some. lia.
Qed.

Lemma named_net up c c' :
  named up c → endnames c' = endnames c → cfg_n c' = cfg_n c → ends (cfg_net c) ⊆ ends (cfg_net c') → named up c'.
Proof. intros [Hd Hk Hl Hr] E1 E2 E3. split; rewrite ?E1, ?E2; try done. intros i j e He. apply E3. eauto. Qed.

(** Switching ends keeps the set of ends. *)
Definition keepsEnds (f : Network nat → outcome (Network nat)) : Prop :=
  ∀ rn rn', f rn = Done rn' → ends rn' = ends rn.

Lemma keepsEnds_foldO {A} (f : Network nat → A → outcome (Network nat)) l :
  (∀ x, keepsEnds (λ rn, f rn x)) → keepsEnds (foldO f l).
Proof.
  intros Hf rn rn'. apply (foldO_inv (λ r, ends r = ends rn)); [|done].
  intros x r r' _ E H. by rewrite (Hf x _ _ H).
Qed.

Lemma keepsEnds_bind f g : keepsEnds f → keepsEnds g → keepsEnds (λ rn, rn ← f rn; g rn).
Proof. intros Hf Hg rn rn' (r & H1%Hf & H2%Hg)%bind_Done. congruence. Qed.

Lemma keepsEnds_ret : keepsEnds (λ rn, mret rn).
Proof. by intros rn rn' [= <-]. Qed.

Lemma keepsEnds_with {A} (o : outcome A) (f : A → Network nat → outcome (Network nat)) :
  (∀ a, keepsEnds (f a)) → keepsEnds (λ rn, a ← o; f a rn).
Proof. intros Hf rn rn' (a & _ & H)%bind_Done. by eapply Hf. Qed.

Lemma keepsEnds_switch names b i j : keepsEnds (switch names b i j).
Proof. apply keepsEnds_with. by intros e rn rn' [= <-]. Qed.

Lemma keepsEnds_connect names i to : keepsEnds (connectUnlocked names i to).
Proof. apply keepsEnds_bind; apply keepsEnds_foldO; intros; apply keepsEnds_switch. Qed.

Lemma keepsEnds_disconnect names i from : keepsEnds (disconnectUnlocked names i from).
Proof.
  apply keepsEnds_bind; apply keepsEnds_foldO; intros; apply keepsEnds_with; intros; case_decide;
    auto using keepsEnds_switch, keepsEnds_ret.
Qed.

Lemma keepsEnds_partition names p1 p2 : keepsEnds (partition names p1 p2).
Proof.
  apply keepsEnds_bind; apply keepsEnds_foldO; intros; apply keepsEnds_bind;
    auto using keepsEnds_connect, keepsEnds_disconnect.
Qed.

Lemma keepsEnds_ConnectAll names n : keepsEnds (ConnectAll names n).
Proof. apply keepsEnds_foldO. intros. apply keepsEnds_connect. Qed.

Lemma keepsEnds_client b row to : keepsEnds (switchClient b row to).
Proof. apply keepsEnds_foldO. intros. apply keepsEnds_with. by intros s rn rn' [= <-]. Qed.

#[local] Hint Resolve keepsEnds_connect keepsEnds_disconnect keepsEnds_partition keepsEnds_ConnectAll keepsEnds_client : core.

Lemma onNet_named up f c c' : keepsEnds f → onNet f c = Done c' → named up c → named up c' ∧ cfg_n c' = cfg_n c.
Proof.
  intros Hf (rn & Hrn%Hf & [= <-])%bind_Done Hn. split; [|done]. eapply named_net; try done. simpl. by rewrite Hrn.
Qed.

Lemma ShutdownServer_named up i c c' :
  ShutdownServer i c = Done c' → named up c → named up c' ∧ cfg_n c' = cfg_n c.
Proof.
  unfold ShutdownServer. intros (c1 & H1 & H)%bind_Done Hn.
  destruct (onNet_named up _ _ _ (keepsEnds_disconnect _ _ _) H1 Hn) as [Hn1 E1].
  apply bind_Done in H as (ps & _ & H). apply bind_Done in H as (sv & _ & H). apply bind_Done in H as (kvs & _ & [= <-]).
  split; [|done]. by eapply named_net.
Qed.

(** A started server gets a fresh row. *)
Lemma StartServer_named up i row c c' :
  StartServer kvService raftService i row c = Done c' → zlen row = cfg_n c → named up c →
  named (λ j, up j ∨ j = i) c' ∧ cfg_n c' = cfg_n c.
Proof.
  unfold StartServer. intros (ens & Hens%ofOption_Done & H)%bind_Done Hrow [Hd Hk Hl Hr].
  apply bind_Done in H as (c1 & (rn & (Hnd & Hfr & Hen & _)%makeRow_spec & [= <-])%bind_Done & H).
  apply bind_Done in H as (ps & _ & H). apply bind_Done in H as (sv & _ & H). apply bind_Done in H as (rf & _ & H).
  apply bind_Done in H as (kvs & _ & [= <-]). simpl. split; [|done]. apply upd_Some in Hens as [Hi ->].
  assert (∀ a j e, endAt (<[Z.to_nat i := Some row]> (endnames c)) a j = Some e →
    (a = i ∧ idx row j = Some e) ∨ (a ≠ i ∧ endAt (endnames c) a j = Some e)) as Hat.
  { intros a j e. unfold endAt. destruct (decide (a = i)) as [->|?].
    - rewrite idx_insert_eq by done. simpl. auto.
    - rewrite idx_insert_ne by lia. auto. }
  assert (∀ a j e, endAt (endnames c) a j = Some e → e ∉ row) as Hdis by (intros a j e ?%Hk ?%Hfr; done).
  split; simpl.
  - intros a j a' j' e [[-> Hx]|[? Hx]]%Hat [[-> Hx']|[? Hx']]%Hat.
    + split; [done|]. apply idx_Some in Hx as [? Hx], Hx' as [? Hx']. pose proof (NoDup_lookup _ _ _ _ Hnd Hx Hx'). lia.
    + apply idx_elem_of in Hx. by apply Hdis in Hx'.
    + apply idx_elem_of in Hx'. by apply Hdis in Hx.
    + by eapply Hd.
  - intros a j e [[_ Hx%idx_elem_of]|[_ Hx%Hk]]%Hat; rewrite Hen; set_solver.
  - unfold zlen in *. by rewrite length_insert.
  - intros a Ha. destruct (decide (a = i)) as [->|Hne].
    + exists row. by rewrite idx_insert_eq.
    + rewrite idx_insert_ne by lia. apply Hr. naive_solver.
Qed.

Lemma harnessStep_named op c c' :
  harnessStep c op = Done c' → properOp (cfg_n c) op → named (λ i, 0 ≤ i < cfg_n c) c →
  named (λ i, 0 ≤ i < cfg_n c) c' ∧ cfg_n c' = cfg_n c.
Proof.
  intros H Hp Hn. destruct op; simpl in H, Hp; try (eapply onNet_named; [|exact H|done]; auto; fail).
  - by eapply ShutdownServer_named.
  - destruct (StartServer_named _ _ _ _ _ H Hp Hn) as [[? ? ? Hr] ?]. split; [|done]. split; try done.
    intros j Hj. apply Hr. by left.
  - apply bind_Done in H as ([[ck x] c1] & H & [= <-]). unfold makeClient in H.
    apply bind_Done in H as (c2 & (rn & (_ & _ & Hen & _)%makeRow_spec & [= <-])%bind_Done & H).
    apply bind_Done in H as (hs & _ & H). apply bind_Done in H as (c3 & Hc3 & [= <- <- <-]).
    eapply onNet_named in Hc3; [exact Hc3|auto|]. eapply named_net; [exact Hn|done..|]. simpl. rewrite Hen. set_solver.
  - injection H as <-. split; [|done]. by eapply named_net.
  - unfold runPeer in H. apply bind_Done in H as (kv & _ & H). apply bind_Done in H as (kv' & _ & H).
    apply bind_Done in H as ([[? rf] es] & _ & H). apply bind_Done in H as (kvs & _ & [= <-]). split; [|done]. by eapply named_net.
Qed.

(** The loop of [make_config]. *)
Lemma startAll_named rows xs up c c' :
  foldO (λ c i, StartServer kvService raftService i (rows i) c) xs c = Done c' →
  (∀ i, zlen (rows i) = cfg_n c) → named up c → named (λ j, up j ∨ j ∈ xs) c' ∧ cfg_n c' = cfg_n c.
Proof.
  revert up c. induction xs as [|x xs IH]; intros up c H Hrows Hn; simpl in H.
  - injection H as <-. split; [|done]. destruct Hn as [? ? ? Hr]. split; try done. intros i [?|[]%elem_of_nil]; auto.
  - apply bind_Done in H as (c1 & H1 & H). destruct (StartServer_named _ _ _ _ _ H1 (Hrows x) Hn) as [Hn1 E1].
    destruct (IH (λ j, up j ∨ j = x) _ H) as [[? ? ? Hr] E]; [by rewrite E1|done|]. split; [|congruence]. split; try done.
    intros i [?|[->|?]%elem_of_cons]; apply Hr; auto.
Qed.

Lemma make_config_named n unreliable max rows c :
  make_config kvService raftService n unreliable max rows = Done c → 0 ≤ n → (∀ i, zlen (rows i) = n) →
  named (λ i, 0 ≤ i < cfg_n c) c ∧ cfg_n c = n.
Proof.
  unfold make_config. intros (c1 & H1 & H)%bind_Done Hn0 Hrows. apply bind_Done in H as (c2 & H2 & [= <-]).
  assert (named (λ _, False) (freshConfig n max)) as Hn.
  { assert (∀ i j, endAt (endnames (freshConfig n max)) i j = None) as H.
    { intros i j. unfold endAt. simpl. unfold idx. destruct (0 <=? i); [|done].
      destruct (replicate _ _ !! _) as [l|] eqn:E; [|done]. by apply lookup_replicate in E as [-> _]. }
    split; try done; [intros i j i' j' e; by rewrite H|intros i j e; by rewrite H|].
    unfold zlen. simpl. rewrite length_replicate. lia. }
  destruct (startAll_named _ _ _ _ _ H1 Hrows Hn) as [Hn1 E1]. simpl in E1.
  destruct (onNet_named _ _ _ _ (keepsEnds_ConnectAll _ _) H2 Hn1) as [[? ? ? Hr] E2]. simpl.
  split; [|congruence]. split; try done. intros i Hi. apply Hr. right. apply elem_of_range. simpl in *. lia.
Qed.

Lemma harnessSteps_named ops c c' :
  foldO harnessStep ops c = Done c' → Forall (properOp (cfg_n c)) ops → named (λ i, 0 ≤ i < cfg_n c) c →
  named (λ i, 0 ≤ i < cfg_n c') c' ∧ cfg_n c' = cfg_n c.
Proof.
  intros H Hp Hn. assert (named (λ i, 0 ≤ i < cfg_n c) c' ∧ cfg_n c' = cfg_n c) as [? E].
  { revert H. apply (foldO_inv (λ x, named (λ i, 0 ≤ i < cfg_n c) x ∧ cfg_n x = cfg_n c)); [|done].
    intros op c1 c2 Hin [Hn1 E1] Hst. rewrite Forall_forall in Hp. specialize (Hp op Hin). rewrite <- E1 in *.
    by eapply harnessStep_named. }
  by rewrite E.
Qed.

(** Server [i] runs and its peer calls itself the leader. *)
Definition leads c (i : Z) : Prop := ∃ kv, idx (kvservers c) i = Some (Some kv) ∧ (GetState (kvs_rf kv)).2 = true.

(** What the loop of [Leader] has found after the servers below [k]. *)
Definition found c (bl : bool * Z) (k : Z) : Prop :=
  if bl.1 then leads c bl.2 ∧ 0 ≤ bl.2 < cfg_n c else bl.2 = 0 ∧ ∀ i, 0 ≤ i < k → ¬ leads c i.

Lemma Leader_loop c k d bl res :
  found c bl k → 0 ≤ k → k + Z.of_nat d = cfg_n c →
  foldO (λ (acc : bool * Z) i,
    if acc.1 then mret acc else
    match idx (kvservers c) i with
    | Some (Some kv) => mret (if (GetState (kvs_rf kv)).2 then (true, i) else acc)
    | _ => Panic
    end) (range k (cfg_n c)) bl = Done res → found c res (cfg_n c).
Proof.
  revert k bl. induction d as [|d IH]; intros k bl Hf Hk Hd.
  - rewrite range_nil by lia. replace (cfg_n c) with k in * by lia. by intros [= <-].
  - rewrite range_cons by lia. cbn [foldO]. intros (bl' & Hst & H)%bind_Done. eapply IH; [|..|exact H]; [|lia..].
    destruct bl as [[] l]; cbn [fst] in Hst; [injection Hst as <-; exact Hf|].
    destruct (idx (kvservers c) k) as [[kv|]|] eqn:Ek; [|done..]. destruct (GetState (kvs_rf kv)).2 eqn:El; injection Hst as <-.
    + split; [by exists kv|simpl; lia].
    + destruct Hf as [El0 Hf]. split; [exact El0|]. intros i Hi. destruct (decide (i = k)) as [->|?]; [|apply Hf; lia].
      intros (kv' & E & ?). congruence.
Qed.

(** [Leader] returns a server that leads when it says so, and says no only when none leads. *)
Lemma Leader_found c b l : Leader c = Done (b, l) → 1 ≤ cfg_n c → found c (b, l) (cfg_n c) ∧ 0 ≤ l < cfg_n c.
Proof.
  intros H Hn. assert (found c (b, l) (cfg_n c)) as Hf.
  { eapply (Leader_loop c 0 (Z.to_nat (cfg_n c)) (false, 0)); [|lia|lia|exact H]. split; [done|]. simpl. lia. }
  split; [exact Hf|]. destruct b; [apply Hf|]. destruct Hf as [E _]. simpl in E. lia.
Qed.

(** C24: the partition of the tests.  With an odd number of at least three servers, after
    any run of the harness in which the Raft peers run any methods, and whenever [Leader]
    returns (it panics at a stopped server), [Leader] gives a server whose peer calls itself
    the leader, or says that none does and gives 0; the parts of [make_partition] are all
    the servers, each once, with the server [Leader] gave in the second and a majority in
    the first; and [partition] then succeeds and leaves enabled exactly the ends between
    servers of one part. *)
Theorem partition_cuts_leader n unreliable max rows c ops c' b l :
  make_config kvService raftService n unreliable max rows = Done c → (∀ i, zlen (rows i) = n) →
  Forall (properOp n) ops → foldO harnessStep ops c = Done c' →
  3 ≤ n → Z.odd n = true → Leader c' = Done (b, l) →
  (if b then leads c' l else l = 0 ∧ ∀ i, 0 ≤ i < n → ¬ leads c' i) ∧
  ∃ p1 p2 rn, makePartition c' = Done (p1, p2) ∧ p1 ++ p2 ≡ₚ range 0 n ∧ l ∈ p2 ∧ n ÷ 2 < zlen p1 ∧
    partition (endnames c') p1 p2 (cfg_net c') = Done rn ∧
    ∀ i j, 0 ≤ i < n → 0 ≤ j < n → ∃ e, endAt (endnames c') i j = Some e ∧
      enabled rn !! e = Some (bool_decide (i ∈ p1 ↔ j ∈ p1)).
Proof.
  intros Hmk Hrows Hops Hrun Hn Hodd Hld.
  destruct (make_config_named _ _ _ _ _ Hmk ltac:(lia) Hrows) as [Hc En].
  destruct (harnessSteps_named ops c c' Hrun ltac:(by rewrite En) Hc) as [Hc' En']. rewrite En in En'.
  pose proof (named_full _ Hc') as Hfull. rewrite En' in *.
  destruct (Leader_found _ _ _ Hld ltac:(lia)) as [Hfound Hl]. rewrite En' in Hl.
  split; [unfold found in Hfound; destruct b; [apply Hfound|rewrite <-En'; exact Hfound]|].
  destruct (make_partition_spec n l) as (p1 & p2 & Emp & L1 & L2 & Ea); [lia|lia|].
  rewrite <- Z.negb_odd, Hodd in Ea. simpl in Ea. rewrite app_nil_r in Ea.
  assert (p1 ++ (p2 ++ [l]) ≡ₚ range 0 n) as Hperm by (rewrite app_assoc, Ea; apply others_perm; lia).
  assert (∀ i, i ∈ p1 ++ (p2 ++ [l]) → 0 ≤ i < n) as Hin by (intros i; rewrite Hperm; by intros ?%elem_of_range).
  assert (NoDup (p1 ++ (p2 ++ [l]))) as (_ & Hdis & _)%NoDup_app by (rewrite Hperm; apply NoDup_seqZ).
  assert (n ÷ 2 + 1 ≤ n ∧ n ÷ 2 ≤ n) as [? ?] by (rewrite Z.quot_div_nonneg by lia; split; Z.to_euclidean_division_equations; lia).
  destruct (partition_enables (endnames c') n Hfull p1 (p2 ++ [l]) (cfg_net c')) as (rn & Hrn & Hen).
  - apply Hc'.
  - intros i Hi. apply Hin. set_solver.
  - intros i Hi. apply Hin. set_solver.
  - lia.
  - rewrite zlen_app. change (zlen [l]) with 1. lia.
  - intros i Hi. by apply Hdis.
  - exists p1, (p2 ++ [l]), rn. split_and!; try done; [unfold makePartition; rewrite Hld; simpl; by rewrite En', Emp|set_solver|lia|].
    intros i j Hi Hj. destruct Hfull as [_ Hf]. destruct (Hf i j Hi Hj) as [e He]. exists e. split; [done|].
    apply Hen; [..|exact He]; rewrite Hperm; by apply elem_of_range.
Qed.
End runs.

(** ** What goes wrong *)

(** With an even number of servers the slot left over keeps its 0: server 0 is in both parts. *)
Lemma make_partition_even n l :
  4 ≤ n → Z.even n = true → 0 < l < n → ∃ p1 p2, make_partition n l = Some (p1, p2) ∧ 0 ∈ p1 ∧ 0 ∈ p2.
Proof.
  intros Hn He Hl. destruct (make_partition_spec n l) as (p1 & p2 & E & L1 & L2 & Ea); [lia|lia|]. rewrite He in Ea.
  assert (2 ≤ n ÷ 2) as Hq by (rewrite Z.quot_div_nonneg by lia; apply Z.div_le_lower_bound; lia).
  exists p1, (p2 ++ [l]). split; [done|]. destruct (@exists_last _ p2) as (p2' & y & ->); [intros ->; rewrite zlen_nil in L2; lia|].
  rewrite app_assoc in Ea. apply app_inj_tail in Ea as [Ea ->]. split; [|set_solver].
  rewrite range_cons, filter_cons_True in Ea by lia. destruct p1 as [|x p1]; [rewrite zlen_nil in L1; lia|].
  injection Ea as -> _. by left.
Qed.

(** The test of the second loop of [disconnectUnlocked] reads the row of the
    position: when server 0 has not been started it skips the end from server 2. *)
Lemma disconnectUnlocked_skips :
  let names := [None; Some [3; 4; 5]; Some [6; 7; 8]] in
  let rn := enableAll names [(1, 2, true); (2, 1, true)] (MakeNetwork (S := nat)) in
  ∃ rn', disconnectUnlocked names 1 [2] rn = Done rn' ∧ enabled rn' !! 5 = Some false ∧ enabled rn' !! 7 = Some true.
Proof. eexists. split; [vm_compute; reflexivity|]. split; vm_compute; reflexivity. Qed.

(** ** A concrete harness *)

Definition exampleRows (i : Z) : list Z := [10 * i; 10 * i + 1; 10 * i + 2].
Definition exampleKvService (i : Z) : Service nat := mkService "KVServer"%string ∅.
Definition exampleConfig : config :=
  match make_config exampleKvService exampleService 3 false (-1) exampleRows with
  | Done c => c
  | _ => freshConfig 3 (-1)
  end.

(** The election of a peer: its timer fires and one of the others grants its vote. *)
Definition electPeer (i term : Z) : M Op unit :=
  _ ← ticker;
  _ ← handleVoteReply (mkRVArgs term i 0 0) (mkRVReply term true) voteGrantedCnt0;
  mret tt.

(** Server 1 is restarted, a clerk is made, everyone is connected again, server 2 is elected. *)
Definition exampleOps : list harnessOp :=
  [HShutdown 1; HStart 1 [40; 41; 42]; HClient [0; 1; 2] [50; 51; 52] (λ i, 0) 7; HConnectAll; HPeer 2 (electPeer 2 1)].
Definition restartedConfig : config :=
  match foldO (harnessStep exampleKvService exampleService) exampleOps exampleConfig with
  | Done c => c
  | _ => freshConfig 3 (-1)
  end.

Lemma partition_cuts_leader_witness :
  leads restartedConfig 2 ∧
  ∃ p1 p2 rn, makePartition restartedConfig = Done (p1, p2) ∧ p1 ++ p2 ≡ₚ range 0 3 ∧ 2 ∈ p2 ∧ 1 < zlen p1 ∧
    partition (endnames restartedConfig) p1 p2 (cfg_net restartedConfig) = Done rn ∧
    ∀ i j, 0 ≤ i < 3 → 0 ≤ j < 3 → ∃ e, endAt (endnames restartedConfig) i j = Some e ∧
      enabled rn !! e = Some (bool_decide (i ∈ p1 ↔ j ∈ p1)).
Proof.
  refine (partition_cuts_leader exampleKvService exampleService 3 false (-1) exampleRows exampleConfig exampleOps
    restartedConfig true 2 _ _ _ _ _ _ _);
    [vm_compute; reflexivity|done|repeat constructor|vm_compute; reflexivity|lia|reflexivity|vm_compute; reflexivity].
Defined.
