(* ===== verification/HarnessRandom.v ===== *)
(** * What the labs draw at random

    The names of ends ([randstring] of the harnesses: [2*n] random bytes in base64,
    cut to [n] characters), the order in which a clerk tries its servers
    ([random_handles]), seeds and identities ([makeSeed], [nrand]) and the
    election timeout.  What the source of randomness returned is an argument.  A
    name shows exactly the first [6*n] random bits, an order of the handles comes from exactly
    one sequence of draws, and an election timeout is longer than a heartbeat. *)

From S2P Require Import Prelude Persister RaftNode LabRpc KvHarness.
Open Scope go_scope.

(** ** [randstring] *)

(** The alphabet of [base64.URLEncoding]. *)
Definition encodeURL : list Ascii.ascii :=
  String.list_ascii_of_string "ABCDEFGHIJKLMNOPQRSTUVWXYZabcdefghijklmnopqrstuvwxyz0123456789-_".

(** The padding [=]. *)
Definition padChar : Ascii.ascii := Ascii.ascii_of_nat 61.

(** [enc.encode[v]] *)
Definition encodeChar (v : Z) : Ascii.ascii := default padChar (idx encodeURL v).

(** [base64.URLEncoding.EncodeToString]: three bytes in four characters, and
    padding after the last bytes. *)
Definition quad (val : Z) : list Ascii.ascii :=
  encodeChar (Z.land (Z.shiftr val 18) 63) :: encodeChar (Z.land (Z.shiftr val 12) 63)
  :: encodeChar (Z.land (Z.shiftr val 6) 63) :: [encodeChar (Z.land val 63)].
Fixpoint EncodeToString (src : list Z) : list Ascii.ascii :=
  match src with
  | [] => []
  | [b0] => take 2 (quad (Z.shiftl b0 16)) ++ [padChar; padChar]
  | [b0; b1] => take 3 (quad (Z.lor (Z.shiftl b0 16) (Z.shiftl b1 8))) ++ [padChar]
  | b0 :: b1 :: b2 :: rest =>
      quad (Z.lor (Z.lor (Z.shiftl b0 16) (Z.shiftl b1 8)) b2) ++ EncodeToString rest
  end.

(** [func randstring(n int) string]: [crand k] is what [crand.Read] put into [k]
    bytes; [None] is the panic of [make] or of the slice. *)
Definition randstring (n : Z) (crand : Z → list Z) : option string :=
  if 2 * n <? 0 then None else
  let s := EncodeToString (crand (2 * n)) in
  String.string_of_list_ascii <$> slice_to s n.

(** ** The bits of a name *)

Definition isByte (b : Z) : Prop := 0 ≤ b < 256.

(** The bits of a byte and of a slice, the most significant one first. *)
Definition byteBits (b : Z) : list bool := Z.testbit b <$> [7; 6; 5; 4; 3; 2; 1; 0].
Definition bits (src : list Z) : list bool := src ≫= byteBits.

(** The number a group of bits stands for, the groups of six bits of a bit
    string, the last one filled with zeros, and their characters (RFC 4648). *)
Definition value (l : list bool) : Z := foldl (λ acc b, 2 * acc + Z.b2z b) 0 l.
Fixpoint groups (l : list bool) : list (list bool) :=
  match l with
  | a :: b :: c :: d :: e :: f :: rest => [a; b; c; d; e; f] :: groups rest
  | [] => []
  | rest => [take 6 (rest ++ replicate 6 false)]
  end.
Definition groupChar (g : list bool) : Ascii.ascii := encodeChar (value g).

Lemma value_land x : Z.land x 63 = value (Z.testbit x <$> [5; 4; 3; 2; 1; 0]).
Proof.
  assert (Forall (λ y, y = value (Z.testbit y <$> [5; 4; 3; 2; 1; 0])) (seqZ 0 64)) as Hall
    by (apply (bool_decide_unpack _); vm_compute; reflexivity).
  assert (0 ≤ Z.land x 63 < 64) as Hr by (change 63 with (Z.ones 6); rewrite Z.land_ones by lia; apply Z.mod_pos_bound; lia).
  rewrite Forall_forall in Hall. specialize (Hall (Z.land x 63)). rewrite elem_of_seqZ in Hall.
  rewrite Hall by lia. f_equal. cbn [fmap list_fmap]. rewrite !Z.land_spec. simpl. by rewrite !andb_true_r.
Qed.

Lemma byte_high b i : isByte b → 8 ≤ i → Z.testbit b i = false.
Proof.
  intros [? ?] ?. destruct (decide (b = 0)) as [->|]; [by rewrite Z.testbit_0_l|].
  apply Z.bits_above_log2; [lia|]. apply Z.lt_le_trans with 8; [|lia]. apply Z.log2_lt_pow2; lia.
Qed.

(** The four groups of three bytes; bytes that are missing are zero. *)
Lemma quad_groups b0 b1 b2 :
  isByte b0 → isByte b1 → isByte b2 →
  quad (Z.lor (Z.lor (Z.shiftl b0 16) (Z.shiftl b1 8)) b2) = groupChar <$> groups (byteBits b0 ++ byteBits b1 ++ byteBits b2).
Proof.
  intros. unfold quad, groupChar, byteBits. cbn [fmap list_fmap app groups]. rewrite !value_land. cbn [fmap list_fmap].
  rewrite ?Z.shiftr_spec by lia. rewrite ?Z.lor_spec, ?Z.shiftl_spec by lia. cbn [Z.add Z.sub Z.opp Z.pos_sub Pos.add Pos.sub].
  repeat first [rewrite (byte_high b0) by (done || lia) | rewrite (byte_high b1) by (done || lia) | rewrite (byte_high b2) by (done || lia)].
  by rewrite ?orb_false_r, ?orb_false_l.
Qed.

Definition padding (src : list Z) : list Ascii.ascii :=
  match (length src mod 3)%nat with O => [] | 1%nat => [padChar; padChar] | _ => [padChar] end.

(** The encoding by shifts and masks is that by groups of six bits. *)
Lemma EncodeToString_groups src :
  Forall isByte src → EncodeToString src = (groupChar <$> groups (bits src)) ++ padding src.
Proof.
  remember (length src) as n eqn:Hn. revert src Hn. induction n as [n IH] using lt_wf_ind. intros src -> Hb.
  assert (isByte 0) as H0 by (split; lia).
  destruct src as [|b0 [|b1 [|b2 src]]]; [done|..]; repeat (apply Forall_cons in Hb as [? Hb]).
  - pose proof (quad_groups b0 0 0 ltac:(done) H0 H0) as E. simpl in E. rewrite !Z.lor_0_r in E.
    cbn [EncodeToString]. rewrite E. done.
  - pose proof (quad_groups b0 b1 0 ltac:(done) ltac:(done) H0) as E. rewrite Z.lor_0_r in E.
    cbn [EncodeToString]. rewrite E. done.
  - cbn [EncodeToString]. rewrite quad_groups by done. rewrite (IH (length src)) by (simpl; done || lia).
    assert (padding (b0 :: b1 :: b2 :: src) = padding src) as ->.
    { unfold padding. replace (length (b0 :: b1 :: b2 :: src)) with (length src + 1 * 3)%nat by (simpl; lia).
      by rewrite Nat.Div0.mod_add. }
    done.
Qed.

Lemma length_bits src : length (bits src) = (8 * length src)%nat.
Proof. induction src as [|b src IH]; [done|]. unfold bits in *. rewrite bind_cons, length_app, IH. simpl. lia. Qed.

(** The groups of enough bits are determined by them, and determine them. *)
Lemma groups_inj (n : nat) l l' :
  (6 * n ≤ length l)%nat → (6 * n ≤ length l')%nat →
  take n (groups l) = take n (groups l') ↔ take (6 * n) l = take (6 * n) l'.
Proof.
  revert l l'. induction n as [|n IH]; intros l l' Hl Hl'; [done|].
  destruct l as [|a [|b [|c [|d [|e [|f l]]]]]]; simpl in Hl; try lia.
  destruct l' as [|a' [|b' [|c' [|d' [|e' [|f' l']]]]]]; simpl in Hl'; try lia.
  replace (6 * S n)%nat with (6 + 6 * n)%nat by lia. cbn [groups take Nat.add].
  split; intros E; simplify_eq;
    match goal with H : take _ _ = take _ _ |- _ => apply IH in H; [by rewrite H|lia..] end.
Qed.

Lemma groups_six (n : nat) l g : (6 * n ≤ length l)%nat → g ∈ take n (groups l) → length g = 6%nat.
Proof.
  revert l. induction n as [|n IH]; intros l Hl Hg; [by apply not_elem_of_nil in Hg|].
  destruct l as [|a [|b [|c [|d [|e [|f l]]]]]]; simpl in Hl; try lia.
  cbn [groups take] in Hg. apply elem_of_cons in Hg as [->|Hg]; [done|]. eapply IH; [|exact Hg]. lia.
Qed.

Lemma length_groups (n : nat) l : (6 * n ≤ length l)%nat → (n ≤ length (groups l))%nat.
Proof.
  revert l. induction n as [|n IH]; intros l Hl; [lia|].
  destruct l as [|a [|b [|c [|d [|e [|f l]]]]]]; simpl in Hl; try lia. cbn [groups length]. specialize (IH l). lia.
Qed.

(** Different groups have different characters, none of which is the padding. *)
Lemma value_bits g : length g = 6%nat → 0 ≤ value g < 64 ∧ g = Z.testbit (value g) <$> [5; 4; 3; 2; 1; 0].
Proof.
  intros Hg. destruct g as [|a [|b [|c [|d [|e [|f []]]]]]]; try done.
  destruct a, b, c, d, e, f; vm_compute; (split; [split; (done || discriminate)|done]).
Qed.

Lemma encodeChar_Some v : 0 ≤ v < 64 → idx encodeURL v = Some (encodeChar v).
Proof. intros Hv. destruct (idx_is_Some encodeURL v) as [c Hc]; [exact Hv|]. unfold encodeChar. by rewrite Hc. Qed.

Lemma groupChar_inj g g' : length g = 6%nat → length g' = 6%nat → groupChar g = groupChar g' → g = g'.
Proof.
  intros [Hv Hg]%value_bits [Hv' Hg']%value_bits E. unfold groupChar in E.
  apply encodeChar_Some, idx_Some in Hv as [? H1]. apply encodeChar_Some, idx_Some in Hv' as [? H2].
  assert (NoDup encodeURL) as Hnd by (apply (bool_decide_unpack _); vm_compute; reflexivity).
  rewrite E in H1. pose proof (NoDup_lookup _ _ _ _ Hnd H1 H2).
  assert (value g = value g') as Ev by lia. rewrite Hg, Hg'. by rewrite Ev.
Qed.

Lemma groupChar_alphabet g : length g = 6%nat → groupChar g ∈ encodeURL.
Proof. intros [Hv _]%value_bits. apply encodeChar_Some, idx_elem_of in Hv. done. Qed.

(** The name, by groups of bits. *)
Lemma randstring_groups n crand :
  0 ≤ n → Forall isByte (crand (2 * n)) → zlen (crand (2 * n)) = 2 * n →
  6 * n ≤ zlen (bits (crand (2 * n))) ∧
  randstring n crand = Some (String.string_of_list_ascii (groupChar <$> take (Z.to_nat n) (groups (bits (crand (2 * n)))))).
Proof.
  intros Hn Hb Hlen. assert (6 * n ≤ zlen (bits (crand (2 * n)))) as Hl.
  { unfold zlen in *. rewrite length_bits. lia. }
  split; [done|]. unfold randstring. destruct (_ <? _) eqn:E; bool_simpl; [lia|].
  pose proof (length_groups (Z.to_nat n) (bits (crand (2 * n)))) as Hg. unfold zlen in Hl.
  rewrite EncodeToString_groups by done. unfold slice_to. destruct (_ && _) eqn:E2; bool_simpl; simpl.
  - rewrite take_app_le by (rewrite length_fmap; lia). by rewrite fmap_take.
  - unfold zlen in E2. rewrite length_app, length_fmap in E2. lia.
Qed.

Lemma string_of_list_inj (l l' : list Ascii.ascii) : String.string_of_list_ascii l = String.string_of_list_ascii l' → l = l'.
Proof. intros E. rewrite <- (String.list_ascii_of_string_of_list_ascii l), E. apply String.list_ascii_of_string_of_list_ascii. Qed.

Lemma length_string_of_list (l : list Ascii.ascii) : String.length (String.string_of_list_ascii l) = length l.
Proof. induction l as [|c l IH]; [done|]. simpl. by rewrite IH. Qed.

Lemma fmap_inj_on {A B} (f : A → B) (l l' : list A) :
  (∀ x y, x ∈ l → y ∈ l' → f x = f y → x = y) → f <$> l = f <$> l' → l = l'.
Proof.
  revert l'. induction l as [|x l IH]; intros [|y l'] Hinj E; simplify_eq/=; [done|]. f_equal.
  - apply Hinj; [by left..|done].
  - apply IH; [|done]. intros ? ? ? ?. apply Hinj; by right.
Qed.

(** A name of an end has [n] characters of the alphabet, without padding, and two
    names are equal exactly when the first [6*n] random bits are. *)
Theorem randstring_bits n crand crand' :
  0 ≤ n →
  Forall isByte (crand (2 * n)) → zlen (crand (2 * n)) = 2 * n →
  Forall isByte (crand' (2 * n)) → zlen (crand' (2 * n)) = 2 * n →
  (∃ s, randstring n crand = Some s ∧ Z.of_nat (String.length s) = n ∧
        Forall (.∈ encodeURL) (String.list_ascii_of_string s)) ∧
  (randstring n crand = randstring n crand' ↔
   take (Z.to_nat (6 * n)) (bits (crand (2 * n))) = take (Z.to_nat (6 * n)) (bits (crand' (2 * n)))).
Proof.
  intros Hn Hb Hl Hb' Hl'. destruct (randstring_groups n crand) as [Hg ->]; [done..|].
  destruct (randstring_groups n crand') as [Hg' ->]; [done..|].
  set (x := bits (crand (2 * n))) in *. set (x' := bits (crand' (2 * n))) in *. clearbody x x'. unfold zlen in *.
  replace (Z.to_nat (6 * n)) with (6 * Z.to_nat n)%nat by lia. split.
  - eexists. split; [done|]. rewrite String.list_ascii_of_string_of_list_ascii. split.
    + rewrite length_string_of_list, length_fmap, length_take.
      pose proof (length_groups (Z.to_nat n) x). lia.
    + apply Forall_fmap, Forall_forall. intros g Hin. apply groupChar_alphabet. eapply groups_six; [|exact Hin]. lia.
  - rewrite <- groups_inj by lia. split; [|by intros ->].
    intros E%(inj Some)%string_of_list_inj. revert E. apply fmap_inj_on. intros g g' Hin Hin'.
    apply groupChar_inj; [eapply (groups_six (Z.to_nat n) x)|eapply (groups_six (Z.to_nat n) x')]; done || lia.
Qed.

(** ** [random_handles] *)

Section shuffle.
Context {A : Type}.
Implicit Types (l p q : list A) (rnd : Z → Z).

(** The draws [rand.Intn(i + 1)] of the first [n] rounds. *)
Definition draws (n : Z) rnd : Prop := ∀ i, 0 ≤ i < n → 0 ≤ rnd i ≤ i.

(** The body of the loop, and its first [m] rounds. *)
Definition swapAt rnd l (i : Z) : option (list A) :=
  x ← idx l i; y ← idx l (rnd i); l ← upd l i y; upd l (rnd i) x.
Definition rounds rnd (m : nat) l : option (list A) := foldM (swapAt rnd) (seqZ 0 (Z.of_nat m)) l.

Lemma random_handles_rounds rnd l : random_handles rnd l = rounds rnd (length l) l.
Proof. unfold random_handles, rounds, range, zlen. by rewrite Z.sub_0_r. Qed.

Lemma rounds_S rnd m l : rounds rnd (S m) l = q ← rounds rnd m l; swapAt rnd q (Z.of_nat m).
Proof.
  unfold rounds. rewrite Nat2Z.inj_succ, <- Z.add_1_r, seqZ_app by lia. rewrite foldM_app. simpl.
  destruct (foldM _ _ l) as [q|]; [|done]. simpl. by destruct (swapAt rnd q _).
Qed.

Lemma rounds_ext rnd rnd' m l : (∀ i, 0 ≤ i < Z.of_nat m → rnd i = rnd' i) → rounds rnd m l = rounds rnd' m l.
Proof.
  induction m as [|m IH]; intros H; [done|]. rewrite !rounds_S, IH by (intros; apply H; lia).
  destruct (rounds rnd' m l); [|done]. simpl. unfold swapAt. by rewrite H by lia.
Qed.

(** Two places change their elements. *)
Definition exchange (i j : nat) l : option (list A) :=
  x ← l !! i; y ← l !! j; Some (<[j := x]> (<[i := y]> l)).

Lemma swapAt_exchange rnd l (m : nat) : 0 ≤ rnd (Z.of_nat m) → swapAt rnd l (Z.of_nat m) = exchange m (Z.to_nat (rnd (Z.of_nat m))) l.
Proof.
  intros Hr. unfold swapAt, exchange. rewrite idx_of_nat. destruct (l !! m) as [x|] eqn:Hx; [|done]. simpl.
  unfold idx. destruct (0 <=? rnd (Z.of_nat m)) eqn:E; bool_simpl; [|lia].
  destruct (l !! Z.to_nat (rnd (Z.of_nat m))) as [y|] eqn:Hy; [|done]. simpl.
  apply lookup_lt_Some in Hx as ?. apply lookup_lt_Some in Hy as ?.
  destruct (upd_is_Some l (Z.of_nat m) y) as [l1 H1]; [unfold zlen; lia|]. rewrite H1. simpl.
  apply upd_Some in H1 as [_ ->]. rewrite Nat2Z.id.
  destruct (upd_is_Some (<[m:=y]> l) (rnd (Z.of_nat m)) x) as [l2 H2]; [rewrite zlen_insert; unfold zlen; lia|]. rewrite H2.
  by apply upd_Some in H2 as [_ ->].
Qed.

Lemma exchange_lookup i j l p k :
  exchange i j l = Some p → p !! k = if decide (k = j) then l !! i else if decide (k = i) then l !! j else l !! k.
Proof.
  unfold exchange. intros H. inv_bind H. simplify_eq. repeat case_decide; subst.
  - rewrite list_lookup_insert_eq; [done|]. rewrite length_insert. by eapply lookup_lt_Some.
  - rewrite list_lookup_insert_ne, list_lookup_insert_eq by done || by eapply lookup_lt_Some. done.
  - by rewrite !list_lookup_insert_ne by done.
Qed.

(** An exchange undoes itself. *)
Lemma exchange_back i j l p : exchange i j l = Some p ↔ exchange i j p = Some l.
Proof.
  assert (∀ l p, exchange i j l = Some p → exchange i j p = Some l) as H; [|split; apply H].
  clear l p. intros l p H. assert (is_Some (exchange i j p)) as [l' Hl'].
  { unfold exchange. rewrite !(exchange_lookup _ _ _ _ _ H). unfold exchange in H. inv_bind H.
    repeat case_decide; simplify_eq; rewrite ?H0, ?H1; eauto. }
  rewrite Hl'. f_equal. apply list_eq. intros k. rewrite (exchange_lookup _ _ _ _ k Hl').
  rewrite !(exchange_lookup _ _ _ _ _ H). repeat case_decide; congruence.
Qed.

Lemma exchange_perm i j l p : NoDup l → exchange i j l = Some p → p ≡ₚ l.
Proof.
  assert (∀ l p x, exchange i j l = Some p → x ∈ l → x ∈ p) as Hin.
  { clear. intros l p x H [k Hk]%list_elem_of_lookup. apply list_elem_of_lookup.
    exists (if decide (k = j) then i else if decide (k = i) then j else k).
    rewrite (exchange_lookup _ _ _ _ _ H). repeat case_decide; congruence. }
  intros Hnd H. apply NoDup_Permutation; [|done|].
  - apply NoDup_alt. intros a b x. rewrite !(exchange_lookup _ _ _ _ _ H).
    repeat case_decide; subst; intros Ha Hb; try done; by pose proof (NoDup_lookup _ _ _ _ Hnd Ha Hb); subst.
  - intros x. split; apply Hin; [by apply exchange_back|done].
Qed.

(** A round leaves the later places alone. *)
Lemma rounds_later rnd m l q k : draws (Z.of_nat m) rnd → rounds rnd m l = Some q → (m ≤ k)%nat → q !! k = l !! k.
Proof.
  revert q k. induction m as [|m IH]; intros q k Hd H Hk; [by injection H as ->|].
  rewrite rounds_S in H. apply bind_Some in H as (q0 & Hq0 & H). rewrite swapAt_exchange in H by (apply Hd; lia).
  rewrite (exchange_lookup _ _ _ _ k H). pose proof (Hd (Z.of_nat m)). rewrite !decide_False by lia.
  apply IH; [intros i ?; apply Hd; lia|done|lia].
Qed.

Lemma arrangement m l p :
  NoDup l → (m ≤ length l)%nat → p ≡ₚ l → (∀ k, (m ≤ k)%nat → p !! k = l !! k) →
  ∃ rnd, draws (Z.of_nat m) rnd ∧ rounds rnd m l = Some p ∧
    ∀ rnd', draws (Z.of_nat m) rnd' → rounds rnd' m l = Some p → ∀ i, 0 ≤ i < Z.of_nat m → rnd' i = rnd i.
Proof.
  intros Hnd. revert p. induction m as [|m IH]; intros p Hm Hp Hlater.
  { exists (λ _, 0). split_and!; [intros i; lia| |intros; lia].
    unfold rounds. simpl. f_equal. apply list_eq. intros k. symmetry. apply Hlater. lia. }
  assert (NoDup p) as Hndp by by rewrite Hp. destruct (lookup_lt_is_Some_2 l m) as [x Hx]; [lia|].
  assert (x ∈ p) as [j Hj]%list_elem_of_lookup by (rewrite Hp; by eapply list_elem_of_lookup_2).
  assert (j ≤ m)%nat as Hjm.
  { destruct (decide (j ≤ m)%nat) as [|Hjm]; [done|]. rewrite Hlater in Hj by lia. pose proof (NoDup_lookup _ _ _ _ Hnd Hx Hj). lia. }
  assert (is_Some (exchange m j p)) as [q Hq].
  { unfold exchange. destruct (lookup_lt_is_Some_2 p m) as [y ->]; [rewrite Hp; lia|]. rewrite Hj. simpl. eauto. }
  destruct (IH q) as (rnd & Hd & Hr & Hu); [lia|by rewrite (exchange_perm _ _ _ _ Hndp Hq)| |].
  { intros k Hk. rewrite (exchange_lookup _ _ _ _ k Hq). destruct (decide (k = m)) as [->|].
    { rewrite Hx. case_decide; congruence. }
    rewrite decide_False by lia. apply Hlater. lia. }
  exists (λ i, if decide (i = Z.of_nat m) then Z.of_nat j else rnd i). split_and!.
  - intros i Hi. case_decide; [lia|]. apply Hd. lia.
  - rewrite rounds_S, (rounds_ext _ rnd) by (intros; rewrite decide_False by lia; done). rewrite Hr. simpl.
    rewrite swapAt_exchange by (rewrite decide_True by done; lia). rewrite decide_True by done. rewrite Nat2Z.id. by apply exchange_back.
  - intros rnd' Hd' Hr'. rewrite rounds_S in Hr'. apply bind_Some in Hr' as (q' & Hq' & Hr').
    assert (draws (Z.of_nat m) rnd') as Hdm by (intros i ?; apply Hd'; lia). pose proof (Hd' (Z.of_nat m)) as Hdj.
    rewrite swapAt_exchange in Hr' by lia.
    assert (p !! Z.to_nat (rnd' (Z.of_nat m)) = Some x) as Hpx.
    { rewrite (exchange_lookup _ _ _ _ _ Hr'), decide_True by done. by rewrite (rounds_later _ _ _ _ m Hdm Hq'). }
    pose proof (NoDup_lookup _ _ _ _ Hndp Hpx Hj) as Ej. rewrite Ej in Hr'. apply exchange_back in Hr'.
    assert (q' = q) as -> by congruence. intros i Hi. case_decide; [subst; lia|]. apply Hu; [done|done|lia].
Qed.
End shuffle.

(** Every order of the handles of a clerk comes from exactly one sequence of draws, so that
    uniform draws give each order with the same chance. *)
Theorem random_handles_uniform {A} (kvh p : list A) :
  NoDup kvh → p ≡ₚ kvh →
  ∃ rnd, draws (zlen kvh) rnd ∧ random_handles rnd kvh = Some p ∧
    ∀ rnd', draws (zlen kvh) rnd' → random_handles rnd' kvh = Some p → ∀ i, 0 ≤ i < zlen kvh → rnd' i = rnd i.
Proof.
  intros Hnd Hp. destruct (arrangement (length kvh) kvh p) as (rnd & Hd & Hr & Hu); [done|lia|done| |].
  { intros k Hk. rewrite !lookup_ge_None_2; [done|lia|by rewrite Hp]. }
  exists rnd. rewrite random_handles_rounds. split_and!; [done|done|].
  intros rnd' Hd' Hr'. rewrite random_handles_rounds in Hr'. by apply Hu.
Qed.

(** ** Seeds and timeouts *)

(** [makeSeed] of the harnesses and [nrand] of the clerks: [crandInt max] is what
    [rand.Int(rand.Reader, max)] drew. *)
Definition nrand (crandInt : Z → Z) : Z := crandInt (Z.shiftl 1 62).

(** [func HeartBeatTimeout()] and [func randomElectionTimeout()] in nanoseconds;
    [int63] is what [rand.Int63()] drew. *)
Definition Millisecond : Z := 1000000.
Definition HeartBeatTimeout : Z := 50 * Millisecond.
Definition randomElectionTimeout (int63 : Z) : Z := wrapS 64 ((150 + Z.rem int63 150) * Millisecond).

(** A heartbeat comes at least twice before any election timeout, even the shortest. *)
Lemma timeouts_ordered int63 :
  0 ≤ int63 < 2 ^ 63 → 3 * HeartBeatTimeout ≤ randomElectionTimeout int63 < 6 * HeartBeatTimeout.
Proof.
  intros H. unfold randomElectionTimeout, HeartBeatTimeout, Millisecond.
  assert (0 ≤ Z.rem int63 150 < 150) as Hr by (rewrite Z.rem_mod_nonneg by lia; apply Z.mod_pos_bound; lia).
  unfold wrapS. rewrite Z.mod_small by lia. lia.
Qed.
