(* ===== verification/Labgob.v ===== *)
(** * The checks of [labgob]

    [labgob/labgob.go] wraps [encoding/gob] and warns about what gob would get
    wrong: struct fields whose name is not capitalised ([checkType]) and decoding
    into a variable that is not at its default ([checkDefault]).  What
    [reflect] reports is data: a table of types, in which a type is its number
    and may be recursive, and values over a heap.  Gob itself is a parameter of
    the components that use it.  [checkType] releases the lock of the package before it
    recurses; here a call is one step, so that overlapping calls are not modelled. *)

From S2P Require Import Prelude Runes.
Open Scope go_scope.

Section labgob.

(** The table [unicode.Upper] beyond Latin-1. *)
Context (Upper : Z → bool).

(** The first rune of the name is upper-case. *)
Definition capital (name : string) : bool := IsUpper Upper (decodeRune name).1.

(** ** [checkType] *)

(** A field of a struct type, [reflect.StructField]. *)
Record field := mkField { f_Name : string; f_Type : nat }.

(** What [checkType] tells apart of [reflect.Kind]. *)
Inductive kind :=
  | Struct (fields : list field)
  | Slice (elem : nat) | Array (elem : nat) | Ptr (elem : nat)
  | Map (key elem : nat)
  | OtherKind.

(** A type: its name and its kind. *)
Record type := mkType { t_Name : string; t_Kind : kind }.

(** What is printed. *)
Inductive warning := LowerCase (field typ : string) | NonDefault (what : string).

(** The package's variables and its output. *)
Record globals := mkGlobals { errorCount : Z; checked : gset nat; printed : list warning }.

Definition mark (t : nat) (g : globals) : globals :=
  mkGlobals (errorCount g) ({[t]} ∪ checked g) (printed g).
Definition complain (w : warning) (g : globals) : globals :=
  mkGlobals (errorCount g + 1) (checked g) (printed g ++ [w]).

Context (types : gmap nat type).

(** The test of a field. *)
Definition checkField (tname : string) (f : field) (g : globals) : globals :=
  if negb (capital (f_Name f)) then complain (LowerCase (f_Name f) tname) g else g.

(** [func checkType(t reflect.Type)]; [None]: a type without entry (there is none),
    or [fuel], a bound on the depth of the recursion, is used up. *)
Fixpoint checkType (fuel : nat) (t : nat) (g : globals) : option globals :=
  match fuel with
  | O => None
  | S fuel' =>
      ty ← types !! t;
      if decide (t ∈ checked g) then Some g else
      let g := mark t g in
      match t_Kind ty with
      | Struct fields =>
          foldM (λ g f, checkType fuel' (f_Type f) (checkField (t_Name ty) f g)) fields g
      | Slice elem | Array elem | Ptr elem => checkType fuel' elem g
      | Map key elem => g ← checkType fuel' elem g; checkType fuel' key g
      | OtherKind => Some g
      end
  end.

(** [func checkValue(value interface{})]: the type of a nil interface is nil, and
    calling its method panics. *)
Definition checkValue (fuel : nat) (typ : option nat) (g : globals) : option globals :=
  t ← typ; checkType fuel t g.

(** ** [checkDefault] *)

(** Values of the kinds that are compared with their zero. *)
Inductive basic :=
  | VBool (b : bool) | VInt (z : Z) | VString (s : string)
  | VFloat (width bits : Z).                 (* IEEE 754, 32 or 64 bits *)

(** A value; a pointer is an address of the heap, [None] is nil. *)
Inductive value :=
  | VStruct (fields : list (string * bool * value))   (* name, embedded?, value *)
  | VPtr (p : option nat)
  | VBasic (tname : string) (v : basic)
  | VOther.

(** [reflect.DeepEqual(reflect.Zero(t).Interface(), value.Interface())]: both
    zeros of a float are equal. *)
Definition isZero (v : basic) : bool :=
  match v with
  | VBool b => negb b
  | VInt z => z =? 0
  | VString s => bool_decide (s = EmptyString)
  | VFloat width bits => (bits =? 0) || (bits =? 2 ^ (width - 1))
  end.

(** The flags [reflect] keeps on a value reached through unexported fields. *)
Inductive ro := RW | StickyRO | EmbedRO.

(** [value.Field(i)] *)
Definition fieldRO (r : ro) (name : string) (embedded : bool) : ro :=
  let r := match r with StickyRO => StickyRO | _ => RW end in
  if capital name then r
  else match r with
       | StickyRO => StickyRO
       | _ => if embedded then EmbedRO else StickyRO
       end.

Context (heap : nat → value).

(** The test of a value of a basic kind: [value.Interface()] panics on a value
    obtained from an unexported field. *)
Definition checkBasic (r : ro) (tname name : string) (v : basic) (g : globals) : option globals :=
  match r with
  | RW =>
      if negb (isZero v) then
        let what := if bool_decide (name = EmptyString) then tname else name in
        let g' := if errorCount g <? 1
                  then mkGlobals (errorCount g) (checked g) (printed g ++ [NonDefault what]) else g in
        Some (mkGlobals (errorCount g' + 1) (checked g') (printed g'))
      else Some g
  | _ => None
  end.

(** [func checkDefault1(value, depth, name)] with [left] = 4 - [depth]; [None]
    is a panic. *)
Fixpoint checkDefault1 (left : nat) (r : ro) (v : value) (name : string) (g : globals) : option globals :=
  match left with
  | O => Some g
  | S left' =>
      match v with
      | VStruct fields =>
          foldM (λ g (f : string * bool * value),
            let name1 := if bool_decide (name = EmptyString) then f.1.1 else name +:+ "." +:+ f.1.1 in
            checkDefault1 left' (fieldRO r f.1.1 f.1.2) f.2 name1 g) fields g
      | VPtr None => Some g
      | VPtr (Some a) => checkDefault1 left' r (heap a) name g
      | VBasic tname b => checkBasic r tname name b g
      | VOther => Some g
      end
  end.

(** [func checkDefault(value interface{})] *)
Definition checkDefault (v : option value) (g : globals) : option globals :=
  match v with
  | None => Some g
  | Some v => checkDefault1 3 RW v EmptyString g
  end.

(** The checks of [Encode], [EncodeValue], [Register] and [RegisterName], and of
    [Decode], before gob is called. *)
Definition encodeChecks (fuel : nat) (typ : option nat) (g : globals) : option globals := checkValue fuel typ g.
Definition decodeChecks (fuel : nat) (typ : option nat) (v : option value) (g : globals) : option globals :=
  g ← checkValue fuel typ g; checkDefault v g.
End labgob.
