(* ===== verification/LabgobFacts.v ===== *)
(** * What the checks of [labgob] report

    [checkType] is a depth-first search over the types: it terminates on
    recursive types and, whatever was checked before, complains exactly once
    about each lower-case field of each type that can be part of the value.
    [checkDefault] panics on a value with a lower-case field of a basic kind
    instead of warning about it. *)

From S2P Require Import Prelude Runes Labgob.
Open Scope go_scope.

(** ** The search *)

Section search.
Context (Upper : Z → bool) (types : gmap nat type).
Implicit Types (g : globals) (t u : nat) (X Y : gset nat).

(** The types a type is made of. *)
Definition parts (k : kind) : list nat :=
  match k with
  | Struct fields => f_Type <$> fields
  | Slice elem | Array elem | Ptr elem => [elem]
  | Map key elem => [elem; key]
  | OtherKind => []
  end.

Definition partOf t u : Prop := ∃ ty, types !! t = Some ty ∧ u ∈ parts (t_Kind ty).

(** Every part has an entry of the table. *)
Definition wellFormed : Prop := ∀ t u, partOf t u → u ∈ dom types.

Definition lowerCase (f : field) : bool := negb (capital Upper (f_Name f)).

(** The lower-case fields of a type, and of a set of types. *)
Definition badFields t : nat :=
  match types !! t with
  | Some (mkType _ (Struct fields)) => length (List.filter lowerCase fields)
  | _ => 0
  end.
Definition badIn X : nat := sum_list_with badFields (elements X).

Lemma badIn_union X Y : X ## Y → badIn (X ∪ Y) = (badIn X + badIn Y)%nat.
Proof.
  intros H. unfold badIn. by rewrite (elements_disj_union X Y H), sum_list_with_app.
Qed.

Lemma badIn_singleton t : badIn {[t]} = badFields t.
Proof. unfold badIn. rewrite elements_singleton. simpl. lia. Qed.

Lemma badIn_empty : badIn ∅ = 0%nat.
Proof. unfold badIn. by rewrite elements_empty. Qed.

Lemma badIn_split X Y Z : X ⊆ Y → Y ⊆ Z → badIn (Z ∖ X) = (badIn (Y ∖ X) + badIn (Z ∖ Y))%nat.
Proof.
  intros H1 H2. rewrite <- badIn_union by set_solver. f_equal. apply set_eq. intros x.
  rewrite elem_of_union, !elem_of_difference. destruct (decide (x ∈ Y)); set_solver.
Qed.

(** The search went from [g] to [g'], starting at types in [from], with [k]
    complaints besides those about the types it finished. *)
Record visited (from : nat → Prop) (k : nat) g g' : Prop := {
  vi_sub : checked g ⊆ checked g';
  vi_dom : checked g' ⊆ checked g ∪ dom types;
  vi_new u : u ∈ checked g' → u ∉ checked g →
    (∃ t, from t ∧ rtc partOf t u) ∧ ∀ x, partOf u x → x ∈ checked g';
  vi_err : errorCount g' = errorCount g + Z.of_nat (k + badIn (checked g' ∖ checked g));
}.

Lemma visited_refl from g : visited from 0 g g.
Proof.
  split; [done|set_solver|done|]. replace (checked g ∖ checked g) with (∅ : gset nat) by set_solver.
  rewrite badIn_empty. lia.
Qed.

Lemma visited_trans from k k' g1 g2 g3 :
  visited from k g1 g2 → visited from k' g2 g3 → visited from (k + k') g1 g3.
Proof.
  intros [S1 D1 N1 E1] [S2 D2 N2 E2]. split; [set_solver|set_solver| |].
  - intros u Hu Hn. destruct (decide (u ∈ checked g2)) as [Hin|?]; [|auto].
    destruct (N1 u Hin Hn) as [? Hp]. split; [done|]. intros x Hx. apply S2. auto.
  - rewrite E2, E1, (badIn_split (checked g1) (checked g2) (checked g3)) by done. lia.
Qed.

Lemma visited_from (from from' : nat → Prop) k g g' :
  (∀ t u, from t → rtc partOf t u → ∃ t', from' t' ∧ rtc partOf t' u) → visited from k g g' → visited from' k g g'.
Proof.
  intros Hf [S D N E]. split; try done. intros u Hu Hn. destruct (N u Hu Hn) as [(t & Ht & Hr) ?]. split; [|done]. eauto.
Qed.

(** A complaint about a field. *)
Lemma checkField_visited from tname f g :
  visited from (if lowerCase f then 1 else 0) g (checkField Upper tname f g).
Proof.
  unfold checkField, lowerCase. destruct (negb _); [|apply visited_refl].
  split; simpl; [done|set_solver|done|]. replace (checked g ∖ checked g) with (∅ : gset nat) by set_solver.
  rewrite badIn_empty. lia.
Qed.

(** Marking [t] before its parts are searched. *)
Lemma visited_mark t k g g' :
  types !! t ≠ None → t ∉ checked g → k = badFields t → (∀ x, partOf t x → x ∈ checked g') →
  visited (partOf t) k (mark t g) g' → visited (eq t) 0 g g' ∧ t ∈ checked g'.
Proof.
  intros Ht Hn -> Hp [S D N E]. simpl in *. assert (t ∈ checked g') as Hin by set_solver. split; [|done].
  split; [set_solver| | |].
  - intros x [Hx|?]%D%elem_of_union; [|set_solver]. apply elem_of_union in Hx as [->%elem_of_singleton|?]; [|set_solver].
    apply elem_of_union_r. apply elem_of_dom. by destruct (types !! t).
  - intros u Hu Hnu. destruct (decide (u = t)) as [->|?].
    + split; [exists t; split; [done|apply rtc_refl]|done].
    + destruct (N u Hu) as [(x & Hx & Hr) ?]; [set_solver|]. split; [|done]. exists t. split; [done|].
      by eapply rtc_l.
  - rewrite E. simpl. f_equal.
    replace (checked g' ∖ checked g) with ({[t]} ∪ checked g' ∖ ({[t]} ∪ checked g)).
    + rewrite badIn_union, badIn_singleton by set_solver. lia.
    + apply set_eq. intros x. rewrite elem_of_union, !elem_of_difference, elem_of_union, elem_of_singleton.
      destruct (decide (x = t)); naive_solver.
Qed.

(** How much is left to check. *)
Definition unchecked g : nat := size (dom types ∖ checked g).

Lemma unchecked_mono g g' : checked g ⊆ checked g' → (unchecked g' ≤ unchecked g)%nat.
Proof. intros H. unfold unchecked. apply subseteq_size. set_solver. Qed.

Lemma unchecked_mark t g : t ∈ dom types → t ∉ checked g → (unchecked (mark t g) < unchecked g)%nat.
Proof.
  intros Ht Hn. unfold unchecked. apply subset_size. simpl. split; [set_solver|]. intros H.
  specialize (H t). set_solver.
Qed.

Hypothesis Hwf : wellFormed.

(** The loop over the fields, given what the calls for their types do. *)
Lemma checkFields_visited t name fuel g0 fs k g1 :
  (∀ u g1 k, partOf t u → visited (partOf t) k g0 g1 →
    ∃ g2, checkType Upper types fuel u g1 = Some g2 ∧ visited (partOf t) k g0 g2 ∧
      checked g1 ⊆ checked g2 ∧ u ∈ checked g2) →
  (∀ f, f ∈ fs → partOf t (f_Type f)) → visited (partOf t) k g0 g1 →
  ∃ g2, foldM (λ g f, checkType Upper types fuel (f_Type f) (checkField Upper name f g)) fs g1 = Some g2 ∧
    visited (partOf t) (k + length (List.filter lowerCase fs)) g0 g2 ∧
    checked g1 ⊆ checked g2 ∧ ∀ f, f ∈ fs → f_Type f ∈ checked g2.
Proof.
  intros Hpart. revert k g1. induction fs as [|f fs IH]; intros k g1 Hfs Hv.
  - exists g1. simpl. rewrite Nat.add_0_r. split_and!; try done. intros f Hf. by apply elem_of_nil in Hf.
  - pose proof (visited_trans _ _ _ _ _ _ Hv (checkField_visited (partOf t) name f g1)) as Hv1.
    destruct (Hpart (f_Type f) _ _ (Hfs f ltac:(by left)) Hv1) as (g2 & E & Hv2 & Hsub & Hin).
    destruct (IH _ g2 ltac:(intros; apply Hfs; by right) Hv2) as (g3 & E3 & Hv3 & Hsub3 & Hin3).
    exists g3. cbn [foldM]. rewrite E. simpl. split; [exact E3|]. split_and!.
    + replace (k + length (if lowerCase f then f :: List.filter lowerCase fs else List.filter lowerCase fs))%nat
        with (k + (if lowerCase f then 1 else 0) + length (List.filter lowerCase fs))%nat; [done|].
      destruct (lowerCase f); simpl; lia.
    + etrans; [|exact Hsub3]. etrans; [|exact Hsub]. apply (vi_sub _ _ _ _ (checkField_visited (partOf t) name f g1)).
    + intros f' [->|?]%elem_of_cons; [set_solver|auto].
Qed.

Lemma checkType_visited fuel t g :
  t ∈ dom types → (unchecked g < fuel)%nat →
  ∃ g', checkType Upper types fuel t g = Some g' ∧ visited (eq t) 0 g g' ∧ t ∈ checked g'.
Proof.
  revert t g. induction fuel as [|fuel IH]; intros t g Ht Hf; [lia|]. simpl.
  apply elem_of_dom in Ht as [ty Hty]. rewrite Hty. simpl.
  destruct (decide (t ∈ checked g)) as [Hin|Hn]; [by exists g; eauto using visited_refl|].
  assert (unchecked (mark t g) < fuel)%nat as Hfm.
  { pose proof (unchecked_mark t g) as H. rewrite elem_of_dom, Hty in H. specialize (H ltac:(eauto) Hn). lia. }
  assert (∀ u, partOf t u → u ∈ dom types) as Hdom by (intros u ?; by eapply Hwf).
  assert (∀ u g1 k, partOf t u → visited (partOf t) k (mark t g) g1 →
    ∃ g2, checkType Upper types fuel u g1 = Some g2 ∧ visited (partOf t) k (mark t g) g2 ∧
      checked g1 ⊆ checked g2 ∧ u ∈ checked g2) as Hpart.
  { intros u g1 k Hu Hv. destruct (IH u g1) as (g2 & E & Hv2 & Hin); [auto| |].
    - pose proof (unchecked_mono _ _ (vi_sub _ _ _ _ Hv)). lia.
    - exists g2. split; [done|]. split; [|split; [apply Hv2|done]]. replace k with (k + 0)%nat by lia.
      eapply visited_trans; [exact Hv|]. eapply visited_from; [|exact Hv2]. intros x y <- ?. eauto. }
  assert (∀ g', visited (partOf t) (badFields t) (mark t g) g' → (∀ x, partOf t x → x ∈ checked g') →
    visited (eq t) 0 g g' ∧ t ∈ checked g') as Hfin.
  { intros g' Hv Hx. eapply visited_mark; eauto. by rewrite Hty. }
  pose proof (visited_refl (partOf t) (mark t g)) as H0.
  assert (∀ u, partOf t u ↔ u ∈ parts (t_Kind ty)) as Hp by (intros u; unfold partOf; rewrite Hty; naive_solver).
  unfold badFields in Hfin. rewrite Hty in Hfin.
  destruct ty as [name [fields|elem|elem|elem|key elem|]]; simpl in *.
  - destruct (checkFields_visited t name fuel (mark t g) fields 0 (mark t g)) as (g' & E & Hv & _ & Hx);
      [exact Hpart|intros f Hff; apply Hp; by apply list_elem_of_fmap_2|exact H0|].
    exists g'. split; [exact E|]. apply Hfin; [exact Hv|]. intros x (f & -> & Hff)%Hp%list_elem_of_fmap. auto.
  - destruct (Hpart elem _ _ ltac:(apply Hp; by left) H0) as (g' & E & Hv & _ & Hx). exists g'. split; [exact E|].
    apply Hfin; [exact Hv|]. by intros x ->%Hp%list_elem_of_singleton.
  - destruct (Hpart elem _ _ ltac:(apply Hp; by left) H0) as (g' & E & Hv & _ & Hx). exists g'. split; [exact E|].
    apply Hfin; [exact Hv|]. by intros x ->%Hp%list_elem_of_singleton.
  - destruct (Hpart elem _ _ ltac:(apply Hp; by left) H0) as (g' & E & Hv & _ & Hx). exists g'. split; [exact E|].
    apply Hfin; [exact Hv|]. by intros x ->%Hp%list_elem_of_singleton.
  - destruct (Hpart elem _ _ ltac:(apply Hp; by left) H0) as (g1 & E & Hv & _ & Hx). rewrite E. simpl.
    destruct (Hpart key _ _ ltac:(apply Hp; right; by left) Hv) as (g2 & E2 & Hv2 & Hsub & Hx2). exists g2. split; [exact E2|].
    apply Hfin; [exact Hv2|]. intros x [->| ->%list_elem_of_singleton]%Hp%elem_of_cons; auto.
  - exists (mark t g). split; [done|]. apply Hfin; [exact H0|]. intros x Hx%Hp. by apply elem_of_nil in Hx.
Qed.

(** A state in which the parts of every checked type are checked. *)
Definition settled g : Prop := ∀ t u, t ∈ checked g → partOf t u → u ∈ checked g.

Lemma settled_rtc g t u : settled g → t ∈ checked g → rtc partOf t u → u ∈ checked g.
Proof. intros Hs Ht. induction 1; eauto. Qed.

(** C20: [checkType] on any table of types, recursive ones included.  With fuel for
    every type not yet checked it returns; the types it has then checked are
    those checked before and exactly the types reachable from [t], so the parts of
    every checked type are checked again; and it has counted one error for
    every lower-case field of every type it had not checked before. *)
Theorem checkType_complete fuel t g :
  t ∈ dom types → settled g → (unchecked g < fuel)%nat →
  ∃ g', checkType Upper types fuel t g = Some g' ∧ settled g' ∧
    (∀ u, u ∈ checked g' ↔ u ∈ checked g ∨ rtc partOf t u) ∧
    errorCount g' = errorCount g + Z.of_nat (badIn (checked g' ∖ checked g)).
Proof.
  intros Ht Hs Hf. destruct (checkType_visited fuel t g Ht Hf) as (g' & E & [S D N Err] & Hin).
  assert (settled g') as Hs'.
  { intros u x Hu Hx. destruct (decide (u ∈ checked g)) as [?|Hn]; [apply S; eauto|]. by apply (N u). }
  exists g'. split_and!; try done. intros u. split.
  - intros Hu. destruct (decide (u ∈ checked g)) as [?|Hn]; [by left|right].
    destruct (N u Hu Hn) as [(x & <- & ?) _]. done.
  - intros [?|?]; [by apply S|]. by eapply settled_rtc.
Qed.
End search.

(** ** Default values *)

Section default.
Context (Upper : Z → bool) (heap : nat → value).
Implicit Types (g : globals) (v : value) (r : ro).

(** [checkDefault1] reaches the basic value [b], with flag [r'], in less than [left] steps. *)
Inductive leafOf : nat → ro → value → ro → basic → Prop :=
  | leaf_here left r tname b : leafOf (S left) r (VBasic tname b) r b
  | leaf_field left r fs name emb v r' b :
      (name, emb, v) ∈ fs → leafOf left (fieldRO Upper r name emb) v r' b → leafOf (S left) r (VStruct fs) r' b
  | leaf_ptr left r a r' b : leafOf left r (heap a) r' b → leafOf (S left) r (VPtr (Some a)) r' b.

(** What the result [o] of a check started in [g] says about the leaves in [L]. *)
Definition tells (L : ro → basic → Prop) g (o : option globals) : Prop :=
  match o with
  | None => ∃ r b, L r b ∧ r ≠ RW
  | Some g' => (∀ r b, L r b → r = RW) ∧ errorCount g ≤ errorCount g' ∧
      (errorCount g' = errorCount g ↔ ∀ r b, L r b → isZero b = true)
  end.

Lemma tells_empty (L : ro → basic → Prop) g : (∀ r b, ¬ L r b) → tells L g (Some g).
Proof. intros H. split_and!; try done; try lia; try (intros r b Hl; by destruct (H r b)). split; [|done]. intros _ r b Hl. by destruct (H r b). Qed.

Lemma tells_ext (L L' : ro → basic → Prop) g o : (∀ r b, L r b ↔ L' r b) → tells L g o → tells L' g o.
Proof.
  intros H. destruct o as [g'|]; simpl.
  - intros (H1 & H2 & H3). split_and!; [intros r b ?%H; eauto|done|]. rewrite H3. split; intros H4 r b ?%H; eauto.
  - intros (r & b & Hl%H & ?). eauto.
Qed.

Lemma tells_bind (L1 L2 : ro → basic → Prop) g o f :
  tells L1 g o → (∀ g', o = Some g' → tells L2 g' (f g')) → tells (λ r b, L1 r b ∨ L2 r b) g (o ≫= f).
Proof.
  intros H1 H2. destruct o as [g1|]; simpl in *; [|by destruct H1 as (r & b & ? & ?); eauto 6].
  destruct H1 as (Hr & Hle & Hz). specialize (H2 g1 eq_refl). destruct (f g1) as [g2|]; simpl in *.
  - destruct H2 as (Hr2 & Hle2 & Hz2). split_and!; [naive_solver|lia|]. split.
    + intros E r b [?|?]; [eapply Hz|eapply Hz2]; try done; lia.
    + intros Hall. assert (errorCount g1 = errorCount g) by (apply Hz; eauto).
      assert (errorCount g2 = errorCount g1) by (apply Hz2; eauto). lia.
  - destruct H2 as (r & b & ? & ?). eauto.
Qed.

Lemma checkDefault1_tells left r v name g :
  tells (leafOf left r v) g (checkDefault1 Upper heap left r v name g).
Proof.
  revert r v name g. induction left as [|left IH]; intros r v name g; [apply tells_empty; by intros r' b H; inversion H|].
  destruct v as [fs|[a|]|tname b|]; simpl.
  - apply (tells_ext (λ r' b, ∃ f, f ∈ fs ∧ leafOf left (fieldRO Upper r f.1.1 f.1.2) f.2 r' b)).
    { intros r' b. split.
      - intros ([[nm em] v] & ? & ?). by eapply leaf_field.
      - intros H. inversion H; subst. by eexists (_, _, _). }
    revert g. induction fs as [|f fs IHf]; intros g; cbn [foldM].
    + apply tells_empty. by intros r' b (f & ?%elem_of_nil & _).
    + eapply tells_ext; [|apply tells_bind; [apply IH|intros g' _; apply IHf]]. intros r' b. simpl. split.
      * intros [?|(f' & ? & ?)]; [exists f|exists f']; set_solver.
      * intros (f' & [->|?]%elem_of_cons & ?); eauto.
  - eapply tells_ext; [|apply IH]. intros r' b. split; [by apply leaf_ptr|by inversion 1; subst].
  - apply tells_empty. intros r' b H. inversion H.
  - apply (tells_ext (λ r' b', r' = r ∧ b' = b)).
    { intros r' b'. split; [intros [-> ->]; apply leaf_here|by inversion 1; subst]. }
    unfold checkBasic. destruct r; simpl; [|by eexists _, _..]. destruct (isZero b) eqn:E; simpl.
    + split_and!; [naive_solver|lia|]. split; [naive_solver|done].
    + split_and!; [naive_solver|destruct (errorCount g <? 1); simpl; lia|].
      split; [destruct (errorCount g <? 1); simpl; lia|]. intros H. specialize (H RW b (conj eq_refl eq_refl)). congruence.
  - apply tells_empty. intros r' b H. inversion H.
Qed.

(** C35: [checkDefault] panics exactly on a value that has, within the depth it looks
    at, a basic value in an unexported field; otherwise it counts an error exactly
    if one of the basic values it reaches is not at its default. *)
Theorem checkDefault_outcome v g :
  match checkDefault Upper heap (Some v) g with
  | None => ∃ r b, leafOf 3 RW v r b ∧ r ≠ RW
  | Some g' => (∀ r b, leafOf 3 RW v r b → r = RW) ∧ errorCount g ≤ errorCount g' ∧
      (errorCount g' = errorCount g ↔ ∀ r b, leafOf 3 RW v r b → isZero b = true)
  end.
Proof. exact (checkDefault1_tells 3 RW v EmptyString g). Qed.
End default.

(** ** Concrete types *)

Definition asciiUpper (r : Z) : bool := false.

(** [type T4 struct { Yes int; no int }] and [[]map[*T4]int] of the tests of
    [labgob], and a list node that points to its own type. *)
Definition exampleTypes : gmap nat type := {[
  0%nat := mkType "int" OtherKind;
  1%nat := mkType "T4" (Struct [mkField "Yes" 0; mkField "no" 0]);
  2%nat := mkType EmptyString (Ptr 1);
  3%nat := mkType EmptyString (Map 2 0);
  4%nat := mkType EmptyString (Slice 3);
  5%nat := mkType "Node" (Struct [mkField "Next" 6; mkField "val" 0]);
  6%nat := mkType EmptyString (Ptr 5) ]}.

Definition noGlobals : globals := mkGlobals 0 ∅ [].

(** [Encode] of the test warns once, a second time it is silent; a recursive type ends. *)
Example exampleTypes_checked :
  (errorCount <$> checkType asciiUpper exampleTypes 8 4 noGlobals) = Some 1 ∧
  (errorCount <$> (g ← checkType asciiUpper exampleTypes 8 4 noGlobals; checkType asciiUpper exampleTypes 8 4 g)) = Some 1 ∧
  (printed <$> checkType asciiUpper exampleTypes 8 5 noGlobals) = Some [LowerCase "val" "Node"].
Proof. split_and!; vm_compute; reflexivity. Qed.

Lemma checkType_complete_witness :
  ∃ g', checkType asciiUpper exampleTypes 8 5 noGlobals = Some g' ∧ settled exampleTypes g' ∧
    (∀ u, u ∈ checked g' ↔ u ∈ checked noGlobals ∨ rtc (partOf exampleTypes) 5%nat u) ∧
    errorCount g' = 0 + Z.of_nat (badIn asciiUpper exampleTypes (checked g' ∖ ∅)).
Proof.
  refine (checkType_complete asciiUpper exampleTypes _ 8 5 noGlobals _ _ _).
  - intros t u (ty & Hty & Hu). unfold exampleTypes in Hty.
    repeat (apply lookup_insert_Some in Hty as [[<- <-]|[_ Hty]]; [simpl in Hu; set_unfold; naive_solver|]).
    apply lookup_singleton_Some in Hty as [<- <-]. simpl in Hu. set_unfold. naive_solver.
  - apply elem_of_dom. by eexists.
  - intros t u Ht. by apply elem_of_empty in Ht.
  - vm_compute. lia.
Defined.
