(* ===== verification/Shard.v ===== *)
(** * The shard controller and the sharded key/value clerks

    [shardctrler] and [shardkv]: the configurations and RPC types, the servers as
    they are in the repository (the handlers have no code yet, so a reply keeps
    its zero value), and the clerks, whose retry loops are complete.  The loops
    have no bound: [fuel] is the number of rounds, and what a call gives is an
    input that depends on the round. *)

From S2P Require Import Prelude Persister RaftNode RaftLeader.
Open Scope go_scope.

(** A loop that has returned, is still running after [fuel] rounds, or panicked. *)
Inductive result (A : Type) := Returned (a : A) | Running | Panicked.
Arguments Returned {_}.
Arguments Running {_}.
Arguments Panicked {_}.

(** ** [shardctrler] *)

Module ShardCtrler.

(** [const NShards = 10] *)
Definition NShards : Z := 10.

Definition Err := string.
Definition OK : Err := "OK".

(** [type Config struct]; [Shards] is an array of [NShards] entries, [None] is a nil map. *)
Record Config := mkConfig { Num : Z; Shards : list Z; Groups : option (gmap Z (list string)) }.

Definition zeroConfig : Config := mkConfig 0 (replicate (Z.to_nat NShards) 0) None.

Record JoinArgs := mkJoinArgs { Servers : gmap Z (list string) }.
Record LeaveArgs := mkLeaveArgs { GIDs : list Z }.
Record MoveArgs := mkMoveArgs { ma_Shard : Z; ma_GID : Z }.
Record QueryArgs := mkQueryArgs { qa_Num : Z }.

(** [JoinReply], [LeaveReply] and [MoveReply]; [QueryReply]. *)
Record Reply := mkReply { WrongLeader : bool; r_Err : Err }.
Record QueryReply := mkQueryReply { q_WrongLeader : bool; q_Err : Err; q_Config : Config }.

Definition zeroReply : Reply := mkReply false EmptyString.
Definition zeroQueryReply : QueryReply := mkQueryReply false EmptyString zeroConfig.

(** [type Op struct]: no fields yet. *)
Definition Op := unit.

(** [type ShardCtrler struct] *)
Record ShardCtrler := mkShardCtrler { sc_me : Z; sc_rf : Raft Op; configs : list Config }.

(** The handlers: empty bodies, so that the reply stays as the RPC layer made it. *)
Definition Join (sc : ShardCtrler) (args : JoinArgs) (reply : Reply) : Reply * ShardCtrler := (reply, sc).
Definition Leave (sc : ShardCtrler) (args : LeaveArgs) (reply : Reply) : Reply * ShardCtrler := (reply, sc).
Definition Move (sc : ShardCtrler) (args : MoveArgs) (reply : Reply) : Reply * ShardCtrler := (reply, sc).
Definition Query (sc : ShardCtrler) (args : QueryArgs) (reply : QueryReply) : QueryReply * ShardCtrler := (reply, sc).

(** [func (sc *ShardCtrler) Kill()] *)
Definition Kill (sc : ShardCtrler) : ShardCtrler :=
  mkShardCtrler (sc_me sc) (RaftNode.Kill (sc_rf sc)) (configs sc).

(** [func StartServer(servers, me, persister) *ShardCtrler] *)
Definition StartServer `{!Gob (PersistentStatus Op)} (servers me : Z) (ps : Persister) : option ShardCtrler :=
  rf ← Make servers me ps;
  Some (mkShardCtrler me rf [mkConfig 0 (replicate (Z.to_nat NShards) 0) (Some ∅)]).

(** One round of a clerk method: the servers in order, [call i] what the call to
    server [i] gives. *)
Fixpoint tryEach {R} (wrongLeader : R → bool) (call : Z → option R) (i : Z) (n : nat) : option R :=
  match n with
  | O => None
  | S n' =>
      match call i with
      | Some reply => if wrongLeader reply then tryEach wrongLeader call (i + 1) n' else Some reply
      | None => tryEach wrongLeader call (i + 1) n'
      end
  end.

(** The loop of [Query], [Join], [Leave] and [Move]. *)
Fixpoint retry {R} (wrongLeader : R → bool) (servers : Z) (call : nat → Z → option R) (fuel round : nat) : result R :=
  match fuel with
  | O => Running
  | S fuel' =>
      match tryEach wrongLeader (call round) 0 (Z.to_nat servers) with
      | Some reply => Returned reply
      | None => retry wrongLeader servers call fuel' (S round)
      end
  end.

(** [func (ck *Clerk) Query(num int) Config] and [Join], [Leave], [Move]; a clerk is
    the number of its servers. *)
Definition clerkQuery (servers num : Z) (call : QueryArgs → nat → Z → option QueryReply) (fuel : nat) : result Config :=
  match retry q_WrongLeader servers (call (mkQueryArgs num)) fuel 0 with
  | Returned reply => Returned (q_Config reply)
  | Running => Running
  | Panicked => Panicked
  end.
Definition clerkJoin (servers : Z) (groups : gmap Z (list string)) (call : JoinArgs → nat → Z → option Reply)
    (fuel : nat) : result Reply := retry WrongLeader servers (call (mkJoinArgs groups)) fuel 0.
Definition clerkLeave (servers : Z) (gids : list Z) (call : LeaveArgs → nat → Z → option Reply)
    (fuel : nat) : result Reply := retry WrongLeader servers (call (mkLeaveArgs gids)) fuel 0.
Definition clerkMove (servers shard gid : Z) (call : MoveArgs → nat → Z → option Reply)
    (fuel : nat) : result Reply := retry WrongLeader servers (call (mkMoveArgs shard gid)) fuel 0.
End ShardCtrler.

(** ** [shardkv] *)

Module ShardKv.
Import ShardCtrler.

Definition ErrNoKey : Err := "ErrNoKey".
Definition ErrWrongGroup : Err := "ErrWrongGroup".
Definition ErrWrongLeader : Err := "ErrWrongLeader".

Record PutAppendArgs := mkPutAppendArgs { pa_Key : string; pa_Value : string; pa_Op : string }.
Record GetArgs := mkGetArgs { ga_Key : string }.
Record PutAppendReply := mkPutAppendReply { p_Err : Err }.
Record GetReply := mkGetReply { g_Err : Err; g_Value : string }.

(** [func key2shard(key string) int]: the first byte, modulo the number of shards. *)
Definition key2shard (key : string) : Z :=
  let shard := match key with
               | EmptyString => 0
               | String.String c _ => Z.of_N (Ascii.N_of_ascii c)
               end in
  Z.rem shard NShards.

(** [type ShardKV struct], its handlers and [StartServer]: the bodies of the handlers are empty. *)
Record ShardKV := mkShardKV { kv_me : Z; kv_gid : Z; kv_maxraftstate : Z; kv_rf : Raft Op }.
Definition Get (kv : ShardKV) (args : GetArgs) (reply : GetReply) : GetReply * ShardKV := (reply, kv).
Definition PutAppend (kv : ShardKV) (args : PutAppendArgs) (reply : PutAppendReply) : PutAppendReply * ShardKV := (reply, kv).
Definition Kill (kv : ShardKV) : ShardKV :=
  mkShardKV (kv_me kv) (kv_gid kv) (kv_maxraftstate kv) (RaftNode.Kill (kv_rf kv)).
Definition StartServer `{!Gob (PersistentStatus Op)} (servers me : Z) (ps : Persister) (maxraftstate gid : Z) : option ShardKV :=
  rf ← Make servers me ps; Some (mkShardKV me gid maxraftstate rf).

(** The servers of a group one after the other: the reply that is accepted, or
    [None] when the loop ended or was left because of [ErrWrongGroup]. *)
Fixpoint tryGroup {R} (err : R → Err) (accept : R → bool) (call : string → option R) (servers : list string) : option R :=
  match servers with
  | [] => None
  | s :: servers' =>
      match call s with
      | Some reply =>
          if accept reply then Some reply
          else if bool_decide (err reply = ErrWrongGroup) then None
          else tryGroup err accept call servers'
      | None => tryGroup err accept call servers'
      end
  end.

(** The loop of [Get] and [PutAppend]: [query k] is what the [k]-th call of
    [ck.sm.Query(-1)] returns, [call k s] what the call to server [s] gives in
    round [k]; the result has the configuration the clerk is left with. *)
Fixpoint serve {R} (err : R → Err) (accept : R → bool) (key : string) (call : nat → string → option R)
    (query : nat → result Config) (fuel k : nat) (config : Config) : result (R * Config) :=
  match fuel with
  | O => Running
  | S fuel' =>
      match idx (Shards config) (key2shard key) with
      | None => Panicked
      | Some gid =>
          let servers := default [] (default ∅ (Groups config) !! gid) in
          match tryGroup err accept (call k) servers with
          | Some reply => Returned (reply, config)
          | None =>
              match query k with
              | Returned config' => serve err accept key call query fuel' (S k) config'
              | Running => Running
              | Panicked => Panicked
              end
          end
      end
  end.

Definition acceptGet (r : GetReply) : bool := bool_decide (g_Err r = OK ∨ g_Err r = ErrNoKey).
Definition acceptPut (r : PutAppendReply) : bool := bool_decide (p_Err r = OK).

(** [func (ck *Clerk) Get(key string) string] *)
Definition clerkGet (key : string) (call : GetArgs → nat → string → option GetReply)
    (query : nat → result Config) (fuel : nat) (config : Config) : result (string * Config) :=
  match serve g_Err acceptGet key (call (mkGetArgs key)) query fuel 0 config with
  | Returned (reply, config') => Returned (g_Value reply, config')
  | Running => Running
  | Panicked => Panicked
  end.

(** [func (ck *Clerk) PutAppend(key, value, op string)], [Put] and [Append] *)
Definition clerkPutAppend (key value op : string) (call : PutAppendArgs → nat → string → option PutAppendReply)
    (query : nat → result Config) (fuel : nat) (config : Config) : result Config :=
  match serve p_Err acceptPut key (call (mkPutAppendArgs key value op)) query fuel 0 config with
  | Returned (_, config') => Returned config'
  | Running => Running
  | Panicked => Panicked
  end.
Definition clerkPut key value := clerkPutAppend key value "Put".
Definition clerkAppend key value := clerkPutAppend key value "Append".
End ShardKv.
