(* ===== verification/ShardFacts.v ===== *)
(** * The clerks of the shard labs

    The clerk of [shardkv] never indexes outside [Config.Shards], and finds the
    group that serves a key once the controller reports it.  With the empty
    handlers of the repository it never returns. *)

From S2P Require Import Prelude Persister RaftNode Shard.
Import ShardCtrler ShardKv.
Open Scope go_scope.

(** A value of the Go type [Config]: the array has [NShards] entries. *)
Definition isConfig (c : Config) : Prop := zlen (Shards c) = NShards.

Lemma key2shard_range key : 0 ≤ key2shard key < NShards.
Proof.
  unfold key2shard, NShards. destruct key as [|c s]; [done|].
  pose proof (N2Z.is_nonneg (Ascii.N_of_ascii c)). rewrite Z.rem_mod_nonneg by lia. apply Z.mod_pos_bound. lia.
Qed.

(** The servers of the group that a configuration assigns the key to. *)
Definition owners (key : string) (c : Config) : list string :=
  match idx (Shards c) (key2shard key) with
  | Some gid => default [] (default ∅ (Groups c) !! gid)
  | None => []
  end.

Section clerk.
Context {R : Type} (err : R → Err) (accept : R → bool) (key : string).
Implicit Types (call : nat → string → option R) (query : nat → result Config) (c : Config).

Lemma idx_shard c : isConfig c → ∃ gid, idx (Shards c) (key2shard key) = Some gid.
Proof. intros Hc. apply idx_is_Some. rewrite Hc. apply key2shard_range. Qed.

Lemma tryGroup_in (call1 : string → option R) servers reply :
  tryGroup err accept call1 servers = Some reply → ∃ s, s ∈ servers ∧ call1 s = Some reply ∧ accept reply = true.
Proof.
  induction servers as [|s servers IH]; simpl; [done|]. intros H.
  destruct (call1 s) as [r|] eqn:E; [destruct (accept r) eqn:Ea; [|destruct (bool_decide _); [done|]]|].
  - injection H as ->. exists s. split; [by left|done].
  - destruct (IH H) as (s' & ? & ?). exists s'. split; [by right|done].
  - destruct (IH H) as (s' & ? & ?). exists s'. split; [by right|done].
Qed.

Lemma tryGroup_finds (call1 : string → option R) servers s reply :
  s ∈ servers → call1 s = Some reply → accept reply = true →
  (∀ s' r, s' ∈ servers → call1 s' = Some r → accept r = false → err r ≠ ErrWrongGroup) →
  ∃ r, tryGroup err accept call1 servers = Some r.
Proof.
  intros Hs Hc Ha Hn. induction servers as [|s1 servers IH]; [by apply elem_of_nil in Hs|]. simpl.
  assert (s ∈ servers → ∃ r, tryGroup err accept call1 servers = Some r) as Hrest.
  { intros Hin. apply IH; [done|]. intros s' r ?. apply Hn. by right. }
  apply elem_of_cons in Hs as [<-|Hin].
  - rewrite Hc, Ha. eauto.
  - destruct (call1 s1) as [r|] eqn:E; [destruct (accept r) eqn:Er; [by eauto|]|auto].
    rewrite bool_decide_eq_false_2 by (eapply (Hn s1 r); [by left|done..]). auto.
Qed.

(** One round of the loop. *)
Lemma serve_round call query fuel k c :
  isConfig c →
  serve err accept key call query (S fuel) k c =
    match tryGroup err accept (call k) (owners key c) with
    | Some reply => Returned (reply, c)
    | None => match query k with
              | Returned c' => serve err accept key call query fuel (S k) c'
              | Running => Running
              | Panicked => Panicked
              end
    end.
Proof. intros Hc. destruct (idx_shard c Hc) as [gid E]. unfold owners. simpl. by rewrite E. Qed.

Lemma serve_no_panic call query fuel k c :
  isConfig c → (∀ j c', query j = Returned c' → isConfig c') → (∀ j, query j ≠ Panicked) →
  serve err accept key call query fuel k c ≠ Panicked.
Proof.
  intros Hc Hq Hp. revert k c Hc. induction fuel as [|fuel IH]; intros k c Hc; [done|].
  rewrite serve_round by done. destruct (tryGroup _ _ _ _); [done|]. specialize (Hp k).
  destruct (query k) as [c'| |] eqn:E; [|done..]. apply IH. by eapply Hq.
Qed.

Lemma serve_finds call query (conf : nat → Config) k d :
  (∀ j, isConfig (conf j)) → (∀ j, query j = Returned (conf (S j))) →
  (∃ r, tryGroup err accept (call (k + d)%nat) (owners key (conf (k + d)%nat)) = Some r) →
  ∃ j r s, (k ≤ j ≤ k + d)%nat ∧ s ∈ owners key (conf j) ∧ call j s = Some r ∧ accept r = true ∧
    serve err accept key call query (S d) k (conf k) = Returned (r, conf j).
Proof.
  intros Hc Hq. revert k. induction d as [|d IH]; intros k Hk; rewrite serve_round by done.
  - rewrite Nat.add_0_r in Hk. destruct Hk as [r Hr]. rewrite Hr. destruct (tryGroup_in _ _ _ Hr) as (s & ? & ? & ?).
    exists k, r, s. split_and!; try done; lia.
  - destruct (tryGroup _ _ (call k) _) as [r|] eqn:E.
    + destruct (tryGroup_in _ _ _ E) as (s & ? & ? & ?). exists k, r, s. split_and!; try done; lia.
    + rewrite Hq. destruct (IH (S k)) as (j & r & s & ? & ? & ? & ? & ?).
      { by replace (S k + d)%nat with (k + S d)%nat by lia. }
      exists j, r, s. split_and!; try done; lia.
Qed.
End clerk.

(** C36: no index of the clerks is out of range.  For every key the shard is in
    [0, NShards); so whatever servers answer and whatever configurations the
    controller returns, [Get] and [PutAppend] never panic on [config.Shards]. *)
Theorem shard_clerk_bounds key value op callG callP query fuel c :
  isConfig c → (∀ j c', query j = Returned c' → isConfig c') → (∀ j, query j ≠ Panicked) →
  0 ≤ key2shard key < NShards ∧
  clerkGet key callG query fuel c ≠ Panicked ∧ clerkPutAppend key value op callP query fuel c ≠ Panicked.
Proof.
  intros Hc Hq Hp. split; [apply key2shard_range|]. unfold clerkGet, clerkPutAppend. split.
  - pose proof (serve_no_panic g_Err acceptGet key (callG (mkGetArgs key)) query fuel 0 c Hc Hq Hp) as H.
    by destruct (serve _ _ _ _ _ _ _ _) as [[? ?]| |].
  - pose proof (serve_no_panic p_Err acceptPut key (callP (mkPutAppendArgs key value op)) query fuel 0 c Hc Hq Hp) as H.
    by destruct (serve _ _ _ _ _ _ _ _) as [[? ?]| |].
Qed.

(** The clerk reaches the owner.  [conf k] is the configuration of round [k].  If
    in round [k] a server of the group the key's shard is assigned to answers
    with a value (or that there is none) and no server of the group refuses the
    key, then [Get] returns within [k + 1] rounds, and what it returns was
    answered by a server of the group that owned the key in that round. *)
Theorem shard_get_reaches_owner key call query (conf : nat → Config) k s r :
  (∀ j, isConfig (conf j)) → (∀ j, query j = Returned (conf (S j))) →
  s ∈ owners key (conf k) → call (mkGetArgs key) k s = Some r → acceptGet r = true →
  (∀ s' r', s' ∈ owners key (conf k) → call (mkGetArgs key) k s' = Some r' → g_Err r' ≠ ErrWrongGroup) →
  ∃ j s' r', (j ≤ k)%nat ∧ s' ∈ owners key (conf j) ∧ call (mkGetArgs key) j s' = Some r' ∧ acceptGet r' = true ∧
    clerkGet key call query (S k) (conf 0%nat) = Returned (g_Value r', conf j).
Proof.
  intros Hc Hq Hs Hcall Ha Hno.
  destruct (serve_finds g_Err acceptGet key (call (mkGetArgs key)) query conf 0 k Hc Hq) as (j & r' & s' & Hj & Hs' & Hr' & Ha' & E).
  { apply (tryGroup_finds _ _ _ _ s r); try done. intros s' r' ? ? _. by eapply Hno. }
  exists j, s', r'. split_and!; try done; [lia|]. unfold clerkGet. by rewrite E.
Qed.

(** ** The repository's servers *)

(** What a call gives when the servers in [up] run the handlers above. *)
Definition ctrlerCall (up : nat → Z → bool) (sc : ShardCtrler) (args : QueryArgs) (round : nat) (i : Z) : option QueryReply :=
  if up round i then Some (fst (Query sc args zeroQueryReply)) else None.

Lemma clerkQuery_zero servers num up sc fuel c :
  clerkQuery servers num (ctrlerCall up sc) fuel = Returned c → c = zeroConfig.
Proof.
  unfold clerkQuery. destruct (retry _ _ _ _ _) as [reply| |] eqn:E; [|done..]. intros [= <-].
  assert (∀ n i k, tryEach q_WrongLeader (ctrlerCall up sc (mkQueryArgs num) k) i n = Some reply → reply = zeroQueryReply) as Ht.
  { induction n as [|n IH]; intros i k; simpl; [done|]. unfold ctrlerCall at 1. destruct (up k i); [by intros [= <-]|apply IH]. }
  assert (∀ f k, retry q_WrongLeader servers (ctrlerCall up sc (mkQueryArgs num)) f k = Returned reply → reply = zeroQueryReply) as Hr.
  { induction f as [|f IH]; intros k; simpl; [done|]. destruct (tryEach _ _ _ _) as [r|] eqn:Et; [|apply IH].
    intros [= ->]. by eapply Ht. }
  by rewrite (Hr _ _ E).
Qed.

(** [Get] of the sharded service, with the controllers of the repository, goes on forever. *)
Lemma shard_get_unserved key call servers up sc fuel qfuel :
  clerkGet key call (λ k, clerkQuery servers (-1) (λ args r, ctrlerCall up sc args (k + r)) qfuel) fuel zeroConfig = Running.
Proof.
  unfold clerkGet. assert (∀ k, serve g_Err acceptGet key (call (mkGetArgs key))
    (λ k, clerkQuery servers (-1) (λ args r, ctrlerCall up sc args (k + r)) qfuel) fuel k zeroConfig = Running) as H; [|by rewrite H].
  induction fuel as [|fuel IH]; intros k; [done|]. rewrite serve_round by done.
  assert (owners key zeroConfig = []) as ->.
  { unfold owners. destruct (idx_shard key zeroConfig) as [gid ->]; [done|]. simpl. by rewrite lookup_empty. }
  simpl. destruct (clerkQuery _ _ _ _) as [c| |] eqn:E; [|done|].
  - apply (clerkQuery_zero servers (-1) (λ r, up (k + r)%nat) sc) in E as ->. apply IH.
  - exfalso. revert E. unfold clerkQuery.
    assert (∀ f r, retry q_WrongLeader servers (λ r i, ctrlerCall up sc (mkQueryArgs (-1)) (k + r) i) f r ≠ Panicked) as Hr.
    { induction f as [|f IHf]; intros r; simpl; [done|]. destruct (tryEach _ _ _ _); [done|apply IHf]. }
    specialize (Hr qfuel 0%nat). by destruct (retry _ _ _ _ _).
Qed.

(** ** A concrete cluster *)

(** Group 7 owns every shard from configuration 1 on. *)
Definition exampleConf (k : nat) : Config :=
  match k with
  | O => zeroConfig
  | S _ => mkConfig 1 (replicate 10 7) (Some {[7 := ["a"; "b"]]})
  end.
Definition exampleQuery (k : nat) : result Config := Returned (exampleConf (S k)).

(** Server ["a"] is no leader, ["b"] answers. *)
Definition exampleCall (args : GetArgs) (k : nat) (s : string) : option GetReply :=
  if bool_decide (s = "a") then Some (mkGetReply ErrWrongLeader EmptyString) else Some (mkGetReply OK "v").

Lemma exampleConf_ok k : isConfig (exampleConf k).
Proof. by destruct k. Qed.

Lemma shard_clerk_bounds_witness :
  0 ≤ key2shard "k" < NShards ∧ clerkGet "k" exampleCall exampleQuery 2 zeroConfig ≠ Panicked.
Proof.
  destruct (shard_clerk_bounds "k" "v" "Put" exampleCall (λ _ _ _, None) exampleQuery 2 zeroConfig) as (? & ? & _);
    [reflexivity|by intros j c' [= <-]|done|]. done.
Defined.

Lemma shard_get_reaches_owner_witness :
  ∃ j s' r', (j ≤ 1)%nat ∧ s' ∈ owners "k" (exampleConf j) ∧ exampleCall (mkGetArgs "k") j s' = Some r' ∧
    acceptGet r' = true ∧ clerkGet "k" exampleCall exampleQuery 2 (exampleConf 0) = Returned (g_Value r', exampleConf j).
Proof.
  refine (shard_get_reaches_owner "k" exampleCall exampleQuery exampleConf 1 "b" (mkGetReply OK "v")
    exampleConf_ok _ _ _ _ _); [done|vm_compute; set_solver|done|done|].
  intros s' r' _. unfold exampleCall. by destruct (bool_decide _); intros [= <-].
Defined.
