(* ===== verification/ServiceHarness.v ===== *)
(** * The test harnesses of the other services

    [kvsrv/config.go], [shardctrler/config.go] and [shardkv/config.go], on the network
    of [LabRpc] and with the outcomes of [RaftHarness].  The controller's harness has
    the wiring functions of [kvraft/config.go] ([KvHarness]).  Random names of ends
    are arguments; the names of servers, strings in [shardkv], are integers through
    [nameOf].  The statistics of [kvsrv] are in [HarnessStats]. *)

From stdpp Require Import pretty.
From S2P Require Import Prelude Persister RaftNode RaftLeader LabRpc RaftHarness KvHarness Shard.
From S2P Require KvSrv.
Open Scope go_scope.

(** [end := cfg.net.MakeEnd(name); cfg.net.Connect(name, server)] *)
Definition openEnd {S} (name server : Z) (rn : Network S) : outcome (Network S) :=
  match MakeEnd name rn with
  | Some rn => mret (Connect name server rn)
  | None => Fatal (ErrDuplicateEnd name)
  end.

(** The same, and [cfg.net.Enable(name, true)]. *)
Definition openEnabled {S} (name server : Z) (rn : Network S) : outcome (Network S) :=
  rn ← openEnd name server rn; mret (Enable name true rn).

(** [srv := labrpc.MakeServer()] with its services, and [cfg.net.AddServer(name, srv)]. *)
Definition addServices {S} (name : Z) (svcs : list (Service S)) (state : S) (rn : Network S) : Network S :=
  let srv := length (heap rn) in
  let rs := foldl (λ rs svc, AddService svc rs) MakeServer svcs in
  AddServer name srv (setHeap (heap rn ++ [(rs, state)]) rn).

(** ** [kvsrv/config.go] *)

Module KvSrvHarness.
Section harness.
Context (kvService : Service KvSrv.KVServer).

(** [const SERVERID = 0] *)
Definition SERVERID : Z := 0.

(** [type config struct]; the server is the state of its object on the network. *)
Record config := mkConfig {
  net : Network KvSrv.KVServer;
  clerks : gmap nat Z;
  nextClientId : Z;
}.

(** [func (cfg *config) ConnectClientUnlocked(ck *Clerk)]: the name of a clerk that is
    not in the map is the empty string, the name of no end. *)
Definition ConnectClientUnlocked (emptyName : Z) (ck : nat) (c : config) : config :=
  mkConfig (Enable (default emptyName (clerks c !! ck)) true (net c)) (clerks c) (nextClientId c).

(** [func (cfg *config) makeClient() *Clerk] *)
Definition makeClient (emptyName endname : Z) (c : config) : outcome (nat * config) :=
  rn ← openEnd endname SERVERID (net c);
  let ck := fresh (dom (clerks c)) in
  let c := mkConfig rn (<[ck := endname]> (clerks c)) (nextClientId c + 1) in
  mret (ck, ConnectClientUnlocked emptyName ck c).

(** [func (cfg *config) deleteClient(ck *Clerk)]: no file has the name of an end. *)
Definition deleteClient (emptyName : Z) (ck : nat) (c : config) : outcome config :=
  let v := default emptyName (clerks c !! ck) in
  match DeleteEnd v (net c) with
  | Some rn => mret (mkConfig rn (delete ck (clerks c)) (nextClientId c))
  | None => Fatal (ErrUnknownEnd v)
  end.

(** [func (cfg *config) StartServer()] *)
Definition StartServer (c : config) : config :=
  mkConfig (addServices 0 [kvService] KvSrv.StartKVServer (net c)) (clerks c) (nextClientId c).

(** [func make_config(t *testing.T, unreliable bool) *config] *)
Definition make_config (unreliable : bool) : config :=
  let c := StartServer (mkConfig MakeNetwork ∅ (SERVERID + 1)) in
  mkConfig (Reliable (negb unreliable) (net c)) (clerks c) (nextClientId c).

(** [func (cfg *config) cleanup()]: [None] is the panic of a second [close]. *)
Definition cleanup (c : config) : option config :=
  rn ← Cleanup (net c); Some (mkConfig rn (clerks c) (nextClientId c)).
End harness.
End KvSrvHarness.

(** ** [shardctrler/config.go] *)

Module CtrlerHarness.
Import ShardCtrler.
Section harness.
Context `{!Gob (PersistentStatus Op)}.

(** [type config struct] *)
Record config := mkConfig {
  cfg_n : Z;
  servers : list (option ShardCtrler);
  saved : list (option Persister);
  endnames : list (option (list Z));
  clerks : gmap nat (list Z);
  nextClientId : Z;
  cfg_net : Network nat;
}.

Definition set_net (rn : Network nat) (c : config) : config :=
  mkConfig (cfg_n c) (servers c) (saved c) (endnames c) (clerks c) (nextClientId c) rn.
Definition set_saved (l : list (option Persister)) (c : config) : config :=
  mkConfig (cfg_n c) (servers c) l (endnames c) (clerks c) (nextClientId c) (cfg_net c).
Definition set_servers (l : list (option ShardCtrler)) (c : config) : config :=
  mkConfig (cfg_n c) l (saved c) (endnames c) (clerks c) (nextClientId c) (cfg_net c).

Definition onNet (f : Network nat → outcome (Network nat)) (c : config) : outcome config :=
  rn ← f (cfg_net c); mret (set_net rn c).

(** [cfg.saved[i]]: the Raft peer of a running server writes to the same object. *)
Definition savedState (i : Z) (c : config) : outcome (option Persister) :=
  ps ← ofOption (idx (saved c) i);
  sc ← ofOption (idx (servers c) i);
  mret (match ps, sc with
        | Some _, Some sc => Some (persister (sc_rf sc))
        | _, _ => ps
        end).

(** [func (cfg *config) cleanup()] *)
Definition cleanup (c : config) : option config :=
  rn ← Cleanup (cfg_net c); Some (set_net rn (set_servers (option_map Kill <$> servers c) c)).

(** [func (cfg *config) LogSize() int]: the call on a nil persister panics. *)
Definition LogSize (c : config) : outcome Z :=
  foldO (λ logsize i,
    ps ← savedState i c;
    ps ← ofOption ps;
    mret (if logsize <? RaftStateSize ps then RaftStateSize ps else logsize)) (range 0 (cfg_n c)) 0.

(** [connectUnlocked], [disconnectUnlocked], [All], [ConnectAll] and [partition]. *)
Definition connectUnlocked (i : Z) (to : list Z) (c : config) : outcome config :=
  onNet (KvHarness.connectUnlocked (endnames c) i to) c.
Definition disconnectUnlocked (i : Z) (from : list Z) (c : config) : outcome config :=
  onNet (KvHarness.disconnectUnlocked (endnames c) i from) c.
Definition All (c : config) : list Z := KvHarness.All (cfg_n c).
Definition ConnectAll (c : config) : outcome config :=
  foldO (λ c i, connectUnlocked i (All c) c) (range 0 (cfg_n c)) c.
Definition partition (p1 p2 : list Z) (c : config) : outcome config :=
  c ← foldO (λ c i, c ← disconnectUnlocked i p2 c; connectUnlocked i p1 c) p1 c;
  foldO (λ c i, c ← disconnectUnlocked i p1 c; connectUnlocked i p2 c) p2 c.

(** [func (cfg *config) ConnectClient(ck, to)] and [DisconnectClient(ck, from)] *)
Definition ConnectClient (ck : nat) (to : list Z) (c : config) : outcome config :=
  onNet (switchClient true (default [] (clerks c !! ck)) to) c.
Definition DisconnectClient (ck : nat) (from : list Z) (c : config) : outcome config :=
  onNet (switchClient false (default [] (clerks c !! ck)) from) c.

(** [func (cfg *config) makeClient(to []int) *Clerk]: the clerk and its ends in the
    order [random_handles] put them. *)
Definition makeClient (to row : list Z) (rnd : Z → Z) (c : config) : outcome (nat * list Z * config) :=
  c ← onNet (makeRow row) c;
  handles ← ofOption (random_handles rnd row);
  let ck := fresh (dom (clerks c)) in
  let c := mkConfig (cfg_n c) (servers c) (saved c) (endnames c) (<[ck := row]> (clerks c)) (nextClientId c + 1) (cfg_net c) in
  c ← ConnectClient ck to c;
  mret (ck, handles, c).

(** [func (cfg *config) deleteClient(ck *Clerk)] *)
Definition deleteClient (ck : nat) (c : config) : config :=
  mkConfig (cfg_n c) (servers c) (saved c) (endnames c) (delete ck (clerks c)) (nextClientId c) (cfg_net c).

(** [func (cfg *config) ShutdownServer(i int)]; the killed server is dropped. *)
Definition ShutdownServer (i : Z) (c : config) : outcome config :=
  c ← disconnectUnlocked i (All c) c;
  let c := set_net (DeleteServer i (cfg_net c)) c in
  ps ← savedState i c;
  saved' ← ofOption (upd (saved c) i (Copy <$> ps));
  let c := set_saved saved' c in
  scs ← ofOption (upd (servers c) i None);
  mret (set_servers scs c).

(** The services of a server on the network. *)
Context (ctrlerService raftService : Z → Service nat).

(** [func (cfg *config) StartServer(i int)] with the [cfg.n] names of its ends. *)
Definition StartServer (i : Z) (row : list Z) (c : config) : outcome config :=
  ens ← ofOption (upd (endnames c) i (Some row));
  let c := mkConfig (cfg_n c) (servers c) (saved c) ens (clerks c) (nextClientId c) (cfg_net c) in
  c ← onNet (makeRow row) c;
  ps ← savedState i c;
  let ps := match ps with Some ps => Copy ps | None => MakePersister end in
  saved' ← ofOption (upd (saved c) i (Some ps));
  let c := set_saved saved' c in
  sc ← ofOption (ShardCtrler.StartServer (cfg_n c) i ps);
  scs ← ofOption (upd (servers c) i (Some sc));
  let c := set_servers scs c in
  mret (set_net (addServices i [ctrlerService i; raftService i] (Z.to_nat i) (cfg_net c)) c).

(** [func (cfg *config) Leader() (bool, int)]: a server that is down is passed over. *)
Definition Leader (c : config) : outcome (bool * Z) :=
  foldO (λ (acc : bool * Z) i,
    if acc.1 then mret acc else
    sc ← ofOption (idx (servers c) i);
    mret (match sc with
          | Some sc => if (GetState (sc_rf sc)).2 then (true, i) else acc
          | None => acc
          end)) (range 0 (cfg_n c)) (false, 0).

(** [func (cfg *config) make_partition() ([]int, []int)] *)
Definition make_partition (c : config) : outcome (list Z * list Z) :=
  '(_, l) ← Leader c; ofOption (KvHarness.make_partition (cfg_n c) l).

(** [func make_config(t, n, unreliable) *config]: [rows i] are the names of the ends of server [i]. *)
Definition make_config (n : Z) (unreliable : bool) (rows : Z → list Z) : outcome config :=
  let N := Z.to_nat n in
  let c := mkConfig n (replicate N None) (replicate N None) (replicate N None) ∅ (n + 1000) MakeNetwork in
  c ← foldO (λ c i, StartServer i (rows i) c) (range 0 n) c;
  c ← ConnectAll c;
  mret (set_net (Reliable (negb unreliable) (cfg_net c)) c).
End harness.
End CtrlerHarness.

(** ** [shardkv/config.go] *)

Module ShardKvHarness.
Import ShardKv.
Section harness.
Context `{!Gob (PersistentStatus ShardCtrler.Op)}.

(** The names of servers are strings. *)
Context (nameOf : string → Z).

(** [type group struct], [type ctrler struct], [type config struct]; the clerk of a [ctrler]
    is the number of its servers, and the name [None] of an end is the empty string. *)
Record group := mkGroup {
  gid : Z;
  g_servers : list (option ShardKV);
  g_saved : list (option Persister);
  g_endnames : list (option (list Z));
  g_mendnames : list (option (list Z));
}.
Record ctrler := mkCtrler {
  ctl_n : Z;
  ctl_servers : list (option ShardCtrler.ShardCtrler);
  ctl_names : list Z;
  ctl_ck : Z;
}.
Record config := mkConfig {
  cfg_net : Network nat;
  cfg_ctl : ctrler;
  ngroups : Z;
  cfg_n : Z;
  groups : list group;
  clerks : gmap nat (list (option Z));
  nextClientId : Z;
  cfg_maxraftstate : Z;
}.

Definition set_net (rn : Network nat) (c : config) : config :=
  mkConfig rn (cfg_ctl c) (ngroups c) (cfg_n c) (groups c) (clerks c) (nextClientId c) (cfg_maxraftstate c).
Definition set_groups (gs : list group) (c : config) : config :=
  mkConfig (cfg_net c) (cfg_ctl c) (ngroups c) (cfg_n c) gs (clerks c) (nextClientId c) (cfg_maxraftstate c).

(** [gg.saved[i]]: the Raft peer of a running server writes to the same object. *)
Definition savedState (i : Z) (gg : group) : outcome (option Persister) :=
  ps ← ofOption (idx (g_saved gg) i);
  kv ← ofOption (idx (g_servers gg) i);
  mret (match ps, kv with
        | Some _, Some kv => Some (persister (kv_rf kv))
        | _, _ => ps
        end).

(** [func (cfg *config) checklogs()] *)
Definition checklogs (c : config) : outcome unit :=
  foldO (λ _ gi,
    gg ← ofOption (idx (groups c) gi);
    foldO (λ _ i,
      ps ← savedState i gg;
      ps ← ofOption ps;
      if (0 <=? cfg_maxraftstate c) && (8 * cfg_maxraftstate c <? RaftStateSize ps)
      then Fatal (ErrLogSize (RaftStateSize ps) (cfg_maxraftstate c))
      else if (cfg_maxraftstate c <? 0) && (0 <? zlen (ReadSnapshot ps)) then Fatal ErrSnapshot
      else mret tt) (range 0 (cfg_n c)) tt) (range 0 (ngroups c)) tt.

(** [func (cfg *config) servername(gid int, i int) string] *)
Definition servername (gid i : Z) : string := "server-" +:+ pretty gid +:+ "-" +:+ pretty i.

(** [func (ctl *ctrler) ctrlername(i int) string] *)
Definition ctrlername (ctl : ctrler) (i : Z) : option Z := idx (ctl_names ctl) i.

(** The loops that make ends to the servers of a controller. *)
Definition ctrlerEnds (ctl : ctrler) (row : list Z) (rn : Network nat) : outcome (Network nat) :=
  foldO (λ rn j,
    e ← ofOption (idx row j);
    server ← ofOption (ctrlername ctl j);
    openEnabled e server rn) (range 0 (ctl_n ctl)) rn.

(** [make_end] of clerks and servers: an end to a server by its name. *)
Definition make_end (name : Z) (server : string) (rn : Network nat) : outcome (Network nat) :=
  openEnabled name (nameOf server) rn.

(** [func (cfg *config) makeClient(ctl *ctrler) *Clerk]: the slice of names has [cfg.n]
    places, the loop runs to [ctl.n]. *)
Definition makeClient (ctl : ctrler) (row : list Z) (c : config) : outcome (nat * config) :=
  '(endnames, rn) ← foldO (λ (acc : list (option Z) * Network nat) j,
      e ← ofOption (idx row j);
      endnames ← ofOption (upd acc.1 j (Some e));
      server ← ofOption (ctrlername ctl j);
      rn ← openEnabled e server acc.2;
      mret (endnames, rn)) (range 0 (ctl_n ctl)) (replicate (Z.to_nat (cfg_n c)) None, cfg_net c);
  let ck := fresh (dom (clerks c)) in
  mret (ck, mkConfig rn (cfg_ctl c) (ngroups c) (cfg_n c) (groups c) (<[ck := endnames]> (clerks c))
              (nextClientId c + 1) (cfg_maxraftstate c)).

(** [func (cfg *config) deleteClient(ck *Clerk)] *)
Definition deleteClient (ck : nat) (c : config) : config :=
  mkConfig (cfg_net c) (cfg_ctl c) (ngroups c) (cfg_n c) (groups c) (delete ck (clerks c)) (nextClientId c) (cfg_maxraftstate c).

(** [cfg.net.Enable(names[i][j], false)] for [j < n]. *)
Definition disableRow (names : list (option (list Z))) (i n : Z) (rn : Network nat) : outcome (Network nat) :=
  foldO (λ rn j, switch names false i j rn) (range 0 n) rn.

(** [func (cfg *config) ShutdownServer(gi int, i int)]; the killed server is dropped. *)
Definition ShutdownServer (gi i : Z) (c : config) : outcome config :=
  gg ← ofOption (idx (groups c) gi);
  rn ← disableRow (g_endnames gg) i (zlen (g_servers gg)) (cfg_net c);
  mrow ← ofOption (idx (g_mendnames gg) i);
  rn ← disableRow (g_mendnames gg) i (zlen (default [] mrow)) rn;
  let rn := DeleteServer (nameOf (servername (gid gg) i)) rn in
  ps ← savedState i gg;
  saved' ← ofOption (upd (g_saved gg) i (Copy <$> ps));
  servers' ← ofOption (upd (g_servers gg) i None);
  gs ← ofOption (upd (groups c) gi (mkGroup (gid gg) servers' saved' (g_endnames gg) (g_mendnames gg)));
  mret (set_groups gs (set_net rn c)).

(** [func (cfg *config) ShutdownGroup(gi int)] *)
Definition ShutdownGroup (gi : Z) (c : config) : outcome config :=
  foldO (λ c i, ShutdownServer gi i c) (range 0 (cfg_n c)) c.

(** The services of a server on the network. *)
Context (kvService raftService : Z → Service nat) (ctrlerService : Z → Service nat).

(** [func (cfg *config) StartServer(gi int, i int)]: [row] are the names of its ends to the
    servers of the group, [mrow] to the controllers. *)
Definition StartServer (gi i : Z) (row mrow : list Z) (c : config) : outcome config :=
  gg ← ofOption (idx (groups c) gi);
  endnames' ← ofOption (upd (g_endnames gg) i (Some row));
  rn ← foldO (λ rn j, e ← ofOption (idx row j); openEnabled e (nameOf (servername (gid gg) j)) rn)
         (range 0 (cfg_n c)) (cfg_net c);
  mendnames' ← ofOption (upd (g_mendnames gg) i (Some mrow));
  rn ← ctrlerEnds (cfg_ctl c) mrow rn;
  ps ← savedState i gg;
  let ps := match ps with Some ps => Copy ps | None => MakePersister end in
  saved' ← ofOption (upd (g_saved gg) i (Some ps));
  kv ← ofOption (ShardKv.StartServer (cfg_n c) i ps (cfg_maxraftstate c) (gid gg));
  servers' ← ofOption (upd (g_servers gg) i (Some kv));
  gs ← ofOption (upd (groups c) gi (mkGroup (gid gg) servers' saved' endnames' mendnames'));
  mret (set_groups gs (set_net (addServices (nameOf (servername (gid gg) i)) [kvService i; raftService i] (Z.to_nat i) rn) c)).

(** [func (cfg *config) StartGroup(gi int)] *)
Definition StartGroup (gi : Z) (rows mrows : Z → list Z) (c : config) : outcome config :=
  foldO (λ c i, StartServer gi i (rows i) (mrows i) c) (range 0 (cfg_n c)) c.

(** [func (cfg *config) StartCtrlerServer(ctl *ctrler, i int)] *)
Definition StartCtrlerServer (i : Z) (row : list Z) (ctl : ctrler) (rn : Network nat) : outcome (ctrler * Network nat) :=
  rn ← ctrlerEnds ctl row rn;
  sc ← ofOption (ShardCtrler.StartServer (ctl_n ctl) i MakePersister);
  scs ← ofOption (upd (ctl_servers ctl) i (Some sc));
  name ← ofOption (ctrlername ctl i);
  mret (mkCtrler (ctl_n ctl) scs (ctl_names ctl) (ctl_ck ctl),
        addServices name [ctrlerService i; raftService i] (Z.to_nat i) rn).

(** [func (cfg *config) ctrlerclerk(ctl *ctrler) *shardctrler.Clerk] *)
Definition ctrlerclerk (row : list Z) (ctl : ctrler) (rn : Network nat) : outcome (Z * Network nat) :=
  rn ← ctrlerEnds ctl row rn; mret (ctl_n ctl, rn).

(** [func (cfg *config) StartCtrlerService() *ctrler]: [names] are the names of the three
    servers, [rows i] those of the ends of server [i], [row] those of the clerk. *)
Definition StartCtrlerService (names : list Z) (rows : Z → list Z) (row : list Z) (rn : Network nat)
    : outcome (ctrler * Network nat) :=
  let ctl := mkCtrler 3 (replicate 3 None) names 0 in
  '(ctl, rn) ← foldO (λ (acc : ctrler * Network nat) i, StartCtrlerServer i (rows i) acc.1 acc.2)
                 (range 0 (ctl_n ctl)) (ctl, rn);
  '(ck, rn) ← ctrlerclerk row ctl rn;
  mret (mkCtrler (ctl_n ctl) (ctl_servers ctl) (ctl_names ctl) ck, rn).

(** [func make_config(t, n, unreliable, maxraftstate) *config]: [g_mendnames] has a place
    for every controller, not for every server of the group. *)
Definition make_config (n : Z) (unreliable : bool) (maxraftstate : Z) (names : list Z) (ctlRows : Z → list Z) (ckRow : list Z)
    (rows mrows : Z → Z → list Z) : outcome config :=
  '(ctl, rn) ← StartCtrlerService names ctlRows ckRow MakeNetwork;
  let N := Z.to_nat n in
  c ← foldO (λ c gi,
        let gg := mkGroup (100 + gi) (replicate N None) (replicate N None) (replicate N None)
                    (replicate (Z.to_nat (ctl_n ctl)) None) in
        gs ← ofOption (upd (groups c) gi gg);
        foldO (λ c i, StartServer gi i (rows gi i) (mrows gi i) c) (range 0 n) (set_groups gs c))
      (range 0 3) (mkConfig rn ctl 3 n (replicate 3 (mkGroup 0 [] [] [] [])) ∅ 0 maxraftstate);
  mret (mkConfig (Reliable (negb unreliable) (cfg_net c)) (cfg_ctl c) (ngroups c) (cfg_n c) (groups c) ∅ (n + 1000)
          (cfg_maxraftstate c)).

(** [func (cfg *config) cleanup()]: the call on a controller that is nil panics. *)
Definition cleanup (c : config) : outcome config :=
  c ← foldO (λ c gi, ShutdownGroup gi c) (range 0 (ngroups c)) c;
  _ ← foldO (λ _ i, sc ← ofOption (idx (ctl_servers (cfg_ctl c)) i); _ ← ofOption sc; mret tt) (range 0 (ctl_n (cfg_ctl c))) tt;
  rn ← ofOption (Cleanup (cfg_net c));
  mret (set_net rn c).

(** The map of [joinm] and the slice of [leavem]. *)
Definition joinGroups (gis : list Z) (c : config) : option (gmap Z (list string)) :=
  foldM (λ m g,
    gg ← idx (groups c) g;
    Some (<[gid gg := servername (gid gg) <$> range 0 (cfg_n c)]> m)) gis ∅.
Definition leaveGids (gis : list Z) (c : config) : option (list Z) :=
  mapM (λ g, gid <$> idx (groups c) g) gis.

(** [joinm], [join], [leavem] and [leave]: [call] and [fuel] are those of the controller's clerk. *)
Definition joinm (gis : list Z) (ctl : ctrler) (call : ShardCtrler.JoinArgs → nat → Z → option ShardCtrler.Reply) (fuel : nat)
    (c : config) : outcome (result ShardCtrler.Reply) :=
  m ← ofOption (joinGroups gis c); mret (ShardCtrler.clerkJoin (ctl_ck ctl) m call fuel).
Definition join (gi : Z) call fuel (c : config) := joinm [gi] (cfg_ctl c) call fuel c.
Definition leavem (gis : list Z) (call : ShardCtrler.LeaveArgs → nat → Z → option ShardCtrler.Reply) (fuel : nat)
    (c : config) : outcome (result ShardCtrler.Reply) :=
  gids ← ofOption (leaveGids gis c); mret (ShardCtrler.clerkLeave (ctl_ck (cfg_ctl c)) gids call fuel).
Definition leave (gi : Z) call fuel (c : config) := leavem [gi] call fuel c.
End harness.
End ShardKvHarness.
