(* ===== verification/ServiceHarnessFacts.v ===== *)
(** * What the harnesses of the services do

    Every clerk of the [kvsrv] harness reaches the server; the controller's harness
    partitions its servers also while some are down; a server of [shardkv] that is
    shut down is cut off, and comes back with the state it had saved and with
    ends that lead to its group and to the controllers; and the harness of [shardkv] only
    works for groups of three. *)

From S2P Require Import Prelude Persister KvRaft RaftNode RaftLeader RaftApplier RaftCluster LabRpc RaftHarness RaftHarnessFacts RaftWiring KvHarness KvHarnessFacts Shard ServiceHarness.
From S2P Require KvSrv.
Open Scope go_scope.

(** ** Loops *)

(** An invariant that speaks of the elements done, in a loop that went through. *)
Lemma foldO_prefix {A B} (P : list A → B → Prop) (f : B → A → outcome B) l b b' :
  P [] b → (∀ X x Y c c', l = X ++ x :: Y → P X c → f c x = Done c' → P (X ++ [x]) c') → foldO f l b = Done b' → P l b'.
Proof.
  intros H0 Hs. assert (∀ Y X c, l = X ++ Y → P X c → foldO f Y c = Done b' → P l b') as H; [|by apply (H l [] b)].
  induction Y as [|y Y IH]; intros X c -> HP H; simpl in H.
  - injection H as <-. by rewrite app_nil_r in *.
  - apply bind_Done in H as (c' & Hc' & H). apply (IH (X ++ [y]) c'); [by rewrite <-app_assoc| |done]. by eapply Hs.
Qed.

(** A loop that went through ran its body on every element. *)
Lemma foldO_each {A B} (P : B → Prop) (f : B → A → outcome B) l b b' x :
  P b → (∀ y c c', P c → f c y = Done c' → P c') → foldO f l b = Done b' → x ∈ l → ∃ c c', P c ∧ f c x = Done c'.
Proof.
  intros H0 Hs H Hx. apply list_elem_of_split in Hx as (X & Y & ->). revert b H0 H.
  induction X as [|y X IH]; intros b H0 H; simpl in H; apply bind_Done in H as (c & Hc & H); [eauto|].
  eapply IH; [|exact H]. by eapply Hs.
Qed.

(** Opened ends are new, enabled, and lead to their servers. *)
Lemma openEnabled_spec {S} e s (rn rn' : Network S) :
  openEnabled e s rn = Done rn' → (e ∉ ends rn) ∧ ends rn' = {[e]} ∪ ends rn ∧
    enabled rn' = <[e := true]> (<[e := false]> (enabled rn)) ∧ connections rn' = <[e := Some s]> (<[e := None]> (connections rn)) ∧
    servers rn' = servers rn ∧ heap rn' = heap rn.
Proof.
  unfold openEnabled, openEnd, MakeEnd. destruct (decide (e ∈ ends rn)); [done|]. intros [= <-]. done.
Qed.

(** The ends of a row: [target j] is where the [j]-th leads. *)
Definition opened {S} (row : list Z) (target : Z → option Z) (js : list Z) (rn rn' : Network S) : Prop :=
  (∀ j, j ∈ js → ∃ e s, idx row j = Some e ∧ target j = Some s ∧ (e ∉ ends rn) ∧ e ∈ ends rn' ∧
     enabled rn' !! e = Some true ∧ connections rn' !! e = Some (Some s)) ∧
  (∀ e, e ∈ ends rn → enabled rn' !! e = enabled rn !! e ∧ connections rn' !! e = connections rn !! e) ∧
  ends rn ⊆ ends rn' ∧ servers rn' = servers rn ∧ heap rn' = heap rn.

Lemma open_row {S} (row : list Z) target js (rn rn' : Network S) (f : Network S → Z → outcome (Network S)) :
  (∀ rn j rn', f rn j = Done rn' → ∃ e s, idx row j = Some e ∧ target j = Some s ∧ openEnabled e s rn = Done rn') →
  foldO f js rn = Done rn' → opened row target js rn rn'.
Proof.
  intros Hf. apply (foldO_prefix (λ X c, opened row target X rn c)).
  - split_and!; [|done..]. by intros j Hj%elem_of_nil.
  - intros X x Y c c' _ (Hj & Hfr & Hsub & Hsv & Hhp) Hc. destruct (Hf _ _ _ Hc) as (e & s & He & Hs & Ho).
    apply openEnabled_spec in Ho as (Hn & Ee & En & Ec & Es & Eh). split_and!; [| |set_solver|congruence|congruence].
    + intros j [Hin| ->%list_elem_of_singleton]%elem_of_app.
      * destruct (Hj j Hin) as (e' & s' & ? & ? & ? & ? & ? & ?). assert (e ≠ e') by set_solver.
        exists e', s'. rewrite En, Ec, !lookup_insert_ne by done. split_and!; try done. set_solver.
      * exists e, s. rewrite En, Ec, !lookup_insert_eq. split_and!; try done; set_solver.
    + intros e' He'. assert (e ≠ e') by set_solver. rewrite En, Ec, !lookup_insert_ne by done. by apply Hfr.
Qed.

(** ** [kvsrv] *)

Section kvsrv.
Import KvSrvHarness.
Context (kvService : Service KvSrv.KVServer) (emptyName : Z).

(** What a test does with clerks; a random name is not empty. *)
Inductive clerkOp := CMake (endname : Z) | CDelete (ck : nat).
Definition clerkStep (c : KvSrvHarness.config) (op : clerkOp) : outcome KvSrvHarness.config :=
  match op with
  | CMake e => '(_, c) ← KvSrvHarness.makeClient emptyName e c; mret c
  | CDelete ck => KvSrvHarness.deleteClient emptyName ck c
  end.

Definition nonEmpty (op : clerkOp) : Prop := match op with CMake e => e ≠ emptyName | _ => True end.

(** The clerks have ends of their own, enabled and leading to the server. *)
Definition reaching (c : KvSrvHarness.config) : Prop :=
  (∀ ck e, clerks c !! ck = Some e → e ≠ emptyName ∧ e ∈ ends (net c) ∧ enabled (net c) !! e = Some true ∧
     connections (net c) !! e = Some (Some SERVERID)) ∧
  (∀ ck ck' e, clerks c !! ck = Some e → clerks c !! ck' = Some e → ck = ck') ∧
  ∃ k, serverOf SERVERID (net c) = Some k ∧
    heap (net c) !! k = Some (AddService kvService MakeServer, KvSrv.StartKVServer).

Lemma make_config_reaching unreliable : reaching (KvSrvHarness.make_config kvService unreliable).
Proof. split_and!; [done|done|]. by exists 0%nat. Qed.

Lemma clerkStep_reaching op c c' : reaching c → nonEmpty op → clerkStep c op = Done c' → reaching c'.
Proof.
  intros (Hc & Hd & k & Hk & Hh) Hne. destruct op as [e|ck]; simpl.
  - intros ([ck c1] & H & [= <-])%bind_Done. unfold KvSrvHarness.makeClient in H.
    apply bind_Done in H as (rn & Hrn & [= <- <-]). unfold openEnd, MakeEnd in Hrn.
    destruct (decide (e ∈ ends (net c))) as [|Hn]; [done|]. injection Hrn as <-. set (ck := fresh (dom (clerks c))).
    assert (clerks c !! ck = None) as Hck by (apply not_elem_of_dom, is_fresh).
    unfold KvSrvHarness.ConnectClientUnlocked, reaching. simpl. rewrite lookup_insert_eq. simpl. split_and!.
    + intros ck' e' [[<- <-]|[Hck' He']]%lookup_insert_Some; [rewrite !lookup_insert_eq; set_solver|].
      destruct (Hc _ _ He') as (? & ? & ? & ?). assert (e ≠ e') by set_solver. rewrite !lookup_insert_ne by done. set_solver.
    + intros ck1 ck2 e' [[<- <-]|[? H1]]%lookup_insert_Some [[<- ?]|[? H2]]%lookup_insert_Some; try done; [| |by eapply Hd].
      * by destruct (Hc _ _ H2) as (_ & ? & _).
      * subst. by destruct (Hc _ _ H1) as (_ & ? & _).
    + by exists k.
  - unfold KvSrvHarness.deleteClient, DeleteEnd. destruct (decide _) as [Hin|]; [|done]. intros [= <-]. unfold reaching. simpl. split_and!.
    + intros ck' e [Hck He]%lookup_delete_Some. destruct (Hc _ _ He) as (? & ? & ? & ?).
      assert (default emptyName (clerks c !! ck) ≠ e) as Hv.
      { destruct (clerks c !! ck) as [v|] eqn:E; simpl; [|done]. intros ->. by apply Hck, (Hd _ _ e). }
      rewrite !lookup_delete_ne by done. set_solver.
    + intros ck1 ck2 e [_ H1]%lookup_delete_Some [_ H2]%lookup_delete_Some. by eapply Hd.
    + by exists k.
Qed.

(** The tests of [kvsrv] talk to the server.  After [make_config] and any
    sequence of made and deleted clerks, a call of any clerk that was made and not deleted finds
    its end enabled and leading to the server object with the handlers of
    [KVServer], and no two clerks share an end. *)
Theorem kvsrv_clerks_reach_server unreliable ops c :
  Forall nonEmpty ops → foldO clerkStep ops (KvSrvHarness.make_config kvService unreliable) = Done c →
  ∃ k, heap (net c) !! k = Some (AddService kvService MakeServer, KvSrv.StartKVServer) ∧
    ∀ ck e, clerks c !! ck = Some e →
      (∃ rel lr, readEndnameInfo e (net c) = (true, Some SERVERID, Some k, rel, lr)) ∧
      ∀ ck', clerks c !! ck' = Some e → ck' = ck.
Proof.
  intros Hops Hrun. rewrite Forall_forall in Hops.
  assert (reaching c) as (Hc & Hd & k & Hk & Hh).
  { revert Hrun. apply foldO_inv; [|apply make_config_reaching]. intros op c1 c2 Hin Hr. by apply clerkStep_reaching; [|apply Hops]. }
  exists k. split; [done|]. intros ck e He. destruct (Hc ck e He) as (_ & _ & Hen & Hco). split; [|by intros ck' ?; eapply Hd].
  unfold readEndnameInfo. rewrite Hen, Hco. simpl. rewrite Hk. by eexists _, _.
Qed.
End kvsrv.

(** ** [shardctrler] *)

Section ctrler.
Import ShardCtrler CtrlerHarness.
Context `{!Gob (PersistentStatus Op)} (ctrlerService raftService : Z → Service nat).
Implicit Types (c : CtrlerHarness.config).

Inductive ctrlerOp := CShutdown (i : Z) | CStart (i : Z) (row : list Z) | CPartition (p1 p2 : list Z) | CConnectAll.
Definition ctrlerStep c (op : ctrlerOp) : outcome CtrlerHarness.config :=
  match op with
  | CShutdown i => CtrlerHarness.ShutdownServer i c
  | CStart i row => CtrlerHarness.StartServer ctrlerService raftService i row c
  | CPartition p1 p2 => CtrlerHarness.partition p1 p2 c
  | CConnectAll => CtrlerHarness.ConnectAll c
  end.

(** As many places as servers. *)
Definition sized (n : Z) c : Prop := CtrlerHarness.cfg_n c = n ∧ zlen (servers c) = n.

Lemma onNet_sized n f c c' : sized n c → CtrlerHarness.onNet f c = Done c' → sized n c'.
Proof. intros H (rn & _ & [= <-])%bind_Done. done. Qed.

Lemma wiring_sized n (f : CtrlerHarness.config → Z → outcome CtrlerHarness.config) l c c' :
  (∀ c i c', sized n c → f c i = Done c' → sized n c') → sized n c → foldO f l c = Done c' → sized n c'.
Proof. intros Hf Hc. by apply foldO_inv; [intros x c1 c2 _; apply Hf|]. Qed.

Lemma ctrlerStep_sized n op c c' : sized n c → ctrlerStep c op = Done c' → sized n c'.
Proof.
  intros Hc. destruct op as [i|i row|p1 p2|]; simpl.
  - intros (c1 & H1%(onNet_sized n _ _ _ Hc) & H)%bind_Done. apply bind_Done in H as (ps & _ & H).
    apply bind_Done in H as (sv & _ & H). apply bind_Done in H as (scs & [_ ->]%ofOption_Done%upd_Some & [= <-]).
    destruct H1 as [? ?]. split; [done|]. simpl. by rewrite zlen_insert.
  - unfold CtrlerHarness.StartServer. intros (ens & _ & H)%bind_Done. apply bind_Done in H as (c1 & H1 & H).
    apply (onNet_sized n) in H1 as [? ?]; [|done]. apply bind_Done in H as (ps & _ & H). apply bind_Done in H as (sv & _ & H).
    apply bind_Done in H as (sc & _ & H). apply bind_Done in H as (scs & [_ ->]%ofOption_Done%upd_Some & [= <-]).
    split; [done|]. simpl. by rewrite zlen_insert.
  - intros (c1 & H1 & H2)%bind_Done. eapply wiring_sized; [| |exact H2]; [|eapply wiring_sized; [|exact Hc|exact H1]];
      intros c2 i c3 Hs (c4 & H3 & H4)%bind_Done; (eapply onNet_sized; [|exact H4]; by eapply onNet_sized).
  - apply wiring_sized; [|done]. intros c1 i c2 Hs. by apply onNet_sized.
Qed.

(** [Leader] finds a leader among the servers that run, or none, and never panics. *)
Lemma Leader_sized n c : sized n c → 1 ≤ n → ∃ b l, CtrlerHarness.Leader c = Done (b, l) ∧ 0 ≤ l < n ∧
  (b = true → ∃ sc, idx (servers c) l = Some (Some sc) ∧ state (sc_rf sc) = RaftNode.Leader).
Proof.
  intros [En Hs] Hn. unfold CtrlerHarness.Leader. rewrite En.
  destruct (foldO_Done (λ _ (acc : bool * Z), 0 ≤ acc.2 < n ∧ (acc.1 = true → ∃ sc, idx (servers c) acc.2 = Some (Some sc) ∧ state (sc_rf sc) = RaftNode.Leader))
    (λ (acc : bool * Z) i, if acc.1 then mret acc else sc ← ofOption (idx (servers c) i);
       mret (match sc with Some sc => if (GetState (sc_rf sc)).2 then (true, i) else acc | None => acc end)) (range 0 n) (false, 0))
    as ([b l] & E & Hl & Hb).
  - split; [simpl; lia|done].
  - intros X i [b l] (rest & Er) [Hl Hb]. assert (0 ≤ i < n) as Hi by (apply elem_of_range; rewrite Er; set_solver).
    destruct b; [eexists; split; [done|by split]|]. simpl in *. destruct (idx_is_Some (servers c) i) as [sc Hsc]; [lia|]. rewrite Hsc. simpl.
    eexists. split; [done|]. destruct sc as [sc|]; [|by split]. case_match eqn:Es; [|by split]. simpl. split; [lia|].
    intros _. exists sc. split; [done|]. unfold GetState in Es. simpl in Es. by apply bool_decide_eq_true in Es.
  - exists b, l. split; [exact E|]. done.
Qed.

(** The parts of [make_partition], with servers down or not. *)
Lemma ctrler_partition n unreliable rows c ops c' :
  CtrlerHarness.make_config ctrlerService raftService n unreliable rows = Done c → foldO ctrlerStep ops c = Done c' →
  3 ≤ n → Z.odd n = true → ∃ b l p1 p2,
    CtrlerHarness.Leader c' = Done (b, l) ∧ CtrlerHarness.make_partition c' = Done (p1, p2) ∧
    p1 ++ p2 ≡ₚ range 0 n ∧ l ∈ p2 ∧ n ÷ 2 < zlen p1 ∧
    (b = true → ∃ sc, idx (servers c') l = Some (Some sc) ∧ state (sc_rf sc) = RaftNode.Leader).
Proof.
  intros Hmk Hrun Hn Hodd.
  assert (sized n c) as Hc.
  { apply bind_Done in Hmk as (c1 & H1 & Hmk). apply bind_Done in Hmk as (c2 & H2 & [= <-]).
    apply (ctrlerStep_sized n CConnectAll c1 c2); [|done]. eapply wiring_sized; [| |exact H1].
    - intros c3 i c4 Hs H3. by apply (ctrlerStep_sized n (CStart i (rows i)) c3 c4).
    - split; [done|]. unfold zlen. simpl. rewrite length_replicate. lia. }
  assert (sized n c') as Hc'.
  { revert Hrun. apply foldO_inv; [|done]. intros op c1 c2 _ Hs. by apply ctrlerStep_sized. }
  destruct (Leader_sized n c' Hc' ltac:(lia)) as (b & l & El & Hl & Hb).
  destruct (make_partition_spec n l) as (p1 & p2 & Emp & L1 & L2 & Ea); [lia|lia|].
  rewrite <- Z.negb_odd, Hodd in Ea. simpl in Ea. rewrite app_nil_r in Ea.
  exists b, l, p1, (p2 ++ [l]). split; [done|]. split_and!; [|rewrite app_assoc, Ea; apply others_perm; lia|set_solver|lia|done].
  unfold CtrlerHarness.make_partition. rewrite El. destruct Hc' as [-> _]. simpl. by rewrite Emp.
Qed.
End ctrler.

(** ** [shardkv] *)

Section shardkv.
Import ShardKv ShardKvHarness.
Context `{!Gob (PersistentStatus ShardCtrler.Op)} (nameOf : string → Z).
Context (kvService raftService ctrlerService : Z → Service nat).
Implicit Types (c : ShardKvHarness.config) (gg : group).

Lemma Make_persister (n i : Z) (ps : Persister) (rf : Raft ShardCtrler.Op) : Make n i ps = Some rf → persister rf = ps.
Proof.
  unfold Make. destruct (readPersist _ _) as [[[u rf1] es]|] eqn:E; [|done]. intros [= <-]. unfold readPersist in E.
  destruct (_ <? 1); [by minv E|]. destruct (gob_decode _) as [st|]; by minv E.
Qed.

(** The ends [js] of row [i] are disabled, and nothing else changes. *)
Definition disabled (names : list (option (list Z))) (i : Z) (js : list Z) (rn rn' : Network nat) : Prop :=
  (∀ j, j ∈ js → ∃ e, endAt names i j = Some e ∧ enabled rn' !! e = Some false) ∧
  (∀ e, enabled rn !! e = Some false → enabled rn' !! e = Some false) ∧
  (∀ e, (∀ j, endAt names i j ≠ Some e) → enabled rn' !! e = enabled rn !! e) ∧
  ends rn' = ends rn ∧ servers rn' = servers rn.

Lemma disableRow_spec names i n (rn rn' : Network nat) :
  disableRow names i n rn = Done rn' → disabled names i (range 0 n) rn rn'.
Proof.
  apply (foldO_prefix (λ X r, disabled names i X rn r)).
  - split_and!; try done. by intros j Hj%elem_of_nil.
  - intros X x Y r r' _ (Hj & Hf & Hk & ? & ?) (e & He%ofOption_Done & [= <-])%bind_Done.
    unfold disabled. simpl. split_and!; try done.
    + intros j [Hin| ->%list_elem_of_singleton]%elem_of_app; [|exists e; by rewrite lookup_insert_eq].
      destruct (Hj j Hin) as (e' & ? & ?). exists e'. split; [done|].
      destruct (decide (e = e')) as [->|?]; [by rewrite lookup_insert_eq|by rewrite lookup_insert_ne].
    + intros e' He'. destruct (decide (e = e')) as [->|?]; [by rewrite lookup_insert_eq|rewrite lookup_insert_ne; auto].
    + intros e' He'. rewrite lookup_insert_ne; [by apply Hk|]. intros ->. by eapply He'.
Qed.

(** Server [i] of group [gi] is cut off and its saved state is a copy of what its peer saved. *)
Record cutOff (gi i : Z) gg kv c c' : Prop := {
  co_row j : 0 ≤ j < zlen (g_servers gg) → ∃ e, endAt (g_endnames gg) i j = Some e ∧ enabled (cfg_net c') !! e = Some false;
  co_mrow j e : endAt (g_mendnames gg) i j = Some e → enabled (cfg_net c') !! e = Some false;
  co_name : serverOf (nameOf (servername (gid gg) i)) (cfg_net c') = None;
  co_others e : (∀ j, endAt (g_endnames gg) i j ≠ Some e) → (∀ j, endAt (g_mendnames gg) i j ≠ Some e) →
    enabled (cfg_net c') !! e = enabled (cfg_net c) !! e;
  co_group : ∃ gg', idx (groups c') gi = Some gg' ∧ gid gg' = gid gg ∧ idx (g_servers gg') i = Some None ∧
    idx (g_saved gg') i = Some (Some (Copy (persister (kv_rf kv))));
  co_n : ShardKvHarness.cfg_n c' = ShardKvHarness.cfg_n c ∧ cfg_ctl c' = cfg_ctl c;
}.

Lemma ShutdownServer_cutOff gi i c c' gg kv ps :
  idx (groups c) gi = Some gg → idx (g_servers gg) i = Some (Some kv) → idx (g_saved gg) i = Some (Some ps) →
  ShardKvHarness.ShutdownServer nameOf gi i c = Done c' → cutOff gi i gg kv c c'.
Proof.
  intros Hg Hkv Hps H. unfold ShardKvHarness.ShutdownServer in H. rewrite Hg in H. cbn [ofOption mbind outcome_bind] in H.
  apply bind_Done in H as (rn1 & (D1 & D2 & D3 & _ & _)%disableRow_spec & H). apply bind_Done in H as (mrow & Hm%ofOption_Done & H).
  apply bind_Done in H as (rn2 & (M1 & M2 & M3 & _ & _)%disableRow_spec & H). apply bind_Done in H as (ps' & Hs & H).
  unfold ShardKvHarness.savedState in Hs. rewrite Hps, Hkv in Hs. injection Hs as <-.
  apply bind_Done in H as (sv & Hsv%ofOption_Done & H). apply bind_Done in H as (srv & Hsrv%ofOption_Done & H).
  apply bind_Done in H as (gs & Hgs%ofOption_Done & [= <-]). apply upd_Some in Hsv as [Hi ->], Hsrv as [Hi' ->], Hgs as [Hgi ->].
  split; simpl; try done.
  - intros j Hj. destruct (D1 j) as (e & ? & ?); [by apply elem_of_range|]. exists e. auto.
  - intros j e He. pose proof He as He'. unfold endAt in He. rewrite Hm in He. simpl in He. destruct mrow as [mrow|]; [|done]. simpl in *.
    apply idx_lt, elem_of_range in He. destruct (M1 j He) as (e' & He2 & ?). by simplify_eq.
  - unfold serverOf. simpl. by rewrite lookup_insert_eq.
  - intros e He1 He2. rewrite M3, D3; done.
  - eexists. rewrite idx_insert_eq by done. split_and!; [done..| |]; simpl; by rewrite idx_insert_eq.
Qed.

Lemma Copy_eq ps : Copy ps = ps.
Proof. by destruct ps. Qed.

(** Server [i] of group [gi] runs with the saved state [ps], its ends enabled and leading to
    the servers of its group and to the controllers, and its name to the server. *)
Record wired (gi i : Z) (row mrow : list Z) gg ps c' : Prop := {
  wi_group : ∃ gg' kv, idx (groups c') gi = Some gg' ∧ gid gg' = gid gg ∧ idx (g_servers gg') i = Some (Some kv) ∧
    kv_gid kv = gid gg ∧ persister (kv_rf kv) = ps ∧ idx (g_endnames gg') i = Some (Some row) ∧
    idx (g_mendnames gg') i = Some (Some mrow);
  wi_row j : 0 ≤ j < ShardKvHarness.cfg_n c' → ∃ e, idx row j = Some e ∧ enabled (cfg_net c') !! e = Some true ∧
    connections (cfg_net c') !! e = Some (Some (nameOf (servername (gid gg) j)));
  wi_mrow j : 0 ≤ j < ctl_n (cfg_ctl c') → ∃ e s, idx mrow j = Some e ∧ ctrlername (cfg_ctl c') j = Some s ∧
    enabled (cfg_net c') !! e = Some true ∧ connections (cfg_net c') !! e = Some (Some s);
  wi_name : ∃ k, serverOf (nameOf (servername (gid gg) i)) (cfg_net c') = Some k ∧
    heap (cfg_net c') !! k = Some (AddService (raftService i) (AddService (kvService i) MakeServer), Z.to_nat i);
}.

Lemma StartServer_wired gi i row mrow c c' gg ps :
  idx (groups c) gi = Some gg → idx (g_servers gg) i = Some None → idx (g_saved gg) i = Some (Some ps) →
  ShardKvHarness.StartServer nameOf kvService raftService gi i row mrow c = Done c' → wired gi i row mrow gg ps c'.
Proof.
  intros Hg Hkv Hps H. unfold ShardKvHarness.StartServer in H. rewrite Hg in H. cbn [ofOption mbind outcome_bind] in H.
  apply bind_Done in H as (ens & Hens%ofOption_Done & H). apply bind_Done in H as (rn1 & H1 & H).
  apply bind_Done in H as (mens & Hmens%ofOption_Done & H). apply bind_Done in H as (rn2 & H2 & H).
  apply bind_Done in H as (ps' & Hs & H). unfold ShardKvHarness.savedState in Hs. rewrite Hps, Hkv in Hs. injection Hs as <-.
  apply bind_Done in H as (sv & Hsv%ofOption_Done & H). apply bind_Done in H as (kv & Hst%ofOption_Done & H).
  apply bind_Done in H as (srv & Hsrv%ofOption_Done & H). apply bind_Done in H as (gs & Hgs%ofOption_Done & [= <-]).
  apply upd_Some in Hens as [Hi ->], Hmens as [Hi2 ->], Hsrv as [Hi3 ->], Hgs as [Hgi ->].
  assert (opened row (λ j, Some (nameOf (servername (gid gg) j))) (range 0 (ShardKvHarness.cfg_n c)) (cfg_net c) rn1) as (R1 & _).
  { eapply open_row; [|exact H1]. intros rn j rn' (e & He%ofOption_Done & Ho)%bind_Done. eauto 6. }
  assert (opened mrow (ctrlername (cfg_ctl c)) (range 0 (ctl_n (cfg_ctl c))) rn1 rn2) as (R2 & F2 & _ & _).
  { eapply open_row; [|exact H2]. intros rn j rn' (e & He%ofOption_Done & Hj)%bind_Done.
    apply bind_Done in Hj as (s & Hs%ofOption_Done & Ho). eauto 6. }
  unfold StartServer in Hst. apply bind_Some in Hst as (rf & Hmk & [= <-]). split; simpl.
  - rewrite idx_insert_eq by done. eexists _, _. split; [done|]. simpl. rewrite !idx_insert_eq by done.
    split_and!; try done. simpl. rewrite (Make_persister _ _ _ _ Hmk). apply Copy_eq.
  - intros j Hj. destruct (R1 j) as (e & s & He & [= <-] & _ & Hin & Hen & Hco); [by apply elem_of_range|].
    destruct (F2 e Hin) as [E1 E2]. exists e. rewrite E1, E2. done.
  - intros j Hj. destruct (R2 j) as (e & s & He & Hs & _ & _ & Hen & Hco); [by apply elem_of_range|]. eauto 7.
  - exists (length (heap rn2)). unfold serverOf. simpl. rewrite lookup_insert_eq. split; [done|]. by apply list_lookup_middle.
Qed.

(** A restart in the tests of [shardkv].  [ShutdownServer] leaves every end of the
    server, to its group and to the controllers, disabled and its name without
    a server, and changes no other end.  [StartServer] then starts the server
    for the same group, with the state its Raft peer had saved, with new ends that
    are enabled and lead to the servers of the group and to the controllers, and puts the
    new server under the old name. *)
Theorem shardkv_server_restart gi i row mrow c c1 c2 gg kv ps :
  idx (groups c) gi = Some gg → idx (g_servers gg) i = Some (Some kv) → idx (g_saved gg) i = Some (Some ps) →
  ShardKvHarness.ShutdownServer nameOf gi i c = Done c1 →
  ShardKvHarness.StartServer nameOf kvService raftService gi i row mrow c1 = Done c2 →
  cutOff gi i gg kv c c1 ∧ wired gi i row mrow gg (persister (kv_rf kv)) c2.
Proof.
  intros Hg Hkv Hps H1 H2. pose proof (ShutdownServer_cutOff _ _ _ _ _ _ _ Hg Hkv Hps H1) as Hc. split; [done|].
  destruct (co_group _ _ _ _ _ _ Hc) as (gg' & Hg' & Egid & Hdown & Hsaved).
  pose proof (StartServer_wired _ _ _ _ _ _ _ _ Hg' Hdown Hsaved H2) as [W1 W2 W3 W4]. rewrite Copy_eq in W1.
  split; rewrite <-?Egid; done.
Qed.

(** ** Groups of three *)

(** A server is started at a place of [mendnames]. *)
Lemma StartServer_place gi i row mrow c c' :
  ShardKvHarness.StartServer nameOf kvService raftService gi i row mrow c = Done c' →
  ∃ gg gg', idx (groups c) gi = Some gg ∧ idx (groups c') gi = Some gg' ∧ 0 ≤ i < zlen (g_mendnames gg) ∧
    zlen (g_mendnames gg') = zlen (g_mendnames gg) ∧ cfg_ctl c' = cfg_ctl c ∧ ShardKvHarness.cfg_n c' = ShardKvHarness.cfg_n c.
Proof.
  intros H. unfold ShardKvHarness.StartServer in H. apply bind_Done in H as (gg & Hg%ofOption_Done & H).
  apply bind_Done in H as (ens & _ & H). apply bind_Done in H as (rn1 & _ & H).
  apply bind_Done in H as (mens & Hmens%ofOption_Done & H). apply bind_Done in H as (rn2 & _ & H).
  apply bind_Done in H as (ps' & _ & H). apply bind_Done in H as (sv & _ & H). apply bind_Done in H as (kv & _ & H).
  apply bind_Done in H as (srv & _ & H). apply bind_Done in H as (gs & [Hgi ->]%ofOption_Done%upd_Some & [= <-]).
  apply upd_Some in Hmens as [Hi ->]. eexists gg, _. split; [done|]. simpl. rewrite idx_insert_eq by done.
  split; [done|]. simpl. by rewrite zlen_insert.
Qed.

Lemma StartCtrlerService_n names rows row rn ctl rn' :
  StartCtrlerService raftService ctrlerService names rows row rn = Done (ctl, rn') → ctl_n ctl = 3.
Proof.
  unfold StartCtrlerService. intros ([ctl1 rn1] & H1 & H)%bind_Done. apply bind_Done in H as ([ck rn2] & _ & [= <- _]). simpl.
  revert H1. apply (foldO_inv (λ acc : ctrler * Network nat, ctl_n acc.1 = 3)); [|done].
  intros i [ctl2 rn2'] [ctl3 rn3] _ E H. unfold StartCtrlerServer in H. apply bind_Done in H as (? & _ & H).
  apply bind_Done in H as (? & _ & H). apply bind_Done in H as (? & _ & H). apply bind_Done in H as (? & _ & [= <- _]). done.
Qed.

(** [makeClient] needs a place for every controller. *)
Lemma makeClient_places ctl row c ck c' :
  makeClient ctl row c = Done (ck, c') → 0 ≤ ShardKvHarness.cfg_n c → ctl_n ctl ≤ ShardKvHarness.cfg_n c.
Proof.
  intros ([names rn] & H & _)%bind_Done Hn. destruct (decide (ctl_n ctl ≤ ShardKvHarness.cfg_n c)) as [|Hlt]; [done|exfalso].
  eapply (foldO_each (λ acc : list (option Z) * Network nat, zlen acc.1 = ShardKvHarness.cfg_n c) _ _ _ _ (ShardKvHarness.cfg_n c)) in H
    as ([l r] & acc' & El & Hb).
  - apply bind_Done in Hb as (e & _ & Hb). apply bind_Done in Hb as (l' & [Hi _]%ofOption_Done%upd_Some & _). simpl in *. lia.
  - unfold zlen. simpl. rewrite length_replicate. lia.
  - intros j [l r] [l' r'] El Hb. apply bind_Done in Hb as (e & _ & Hb).
    apply bind_Done in Hb as (l1 & [_ ->]%ofOption_Done%upd_Some & Hb). apply bind_Done in Hb as (sv & _ & Hb).
    apply bind_Done in Hb as (rn1 & _ & [= <- <-]). simpl in *. by rewrite zlen_insert.
  - apply elem_of_range. lia.
Qed.

(** The loop of [make_config] over the servers of a group. *)
Lemma startGroup_places n gi (rows mrows : Z → list Z) c c' gg :
  foldO (λ c i, ShardKvHarness.StartServer nameOf kvService raftService gi i (rows i) (mrows i) c) (range 0 n) c = Done c' →
  idx (groups c) gi = Some gg → (n ≤ zlen (g_mendnames gg) ∨ n ≤ 0) ∧ cfg_ctl c' = cfg_ctl c ∧
  ShardKvHarness.cfg_n c' = ShardKvHarness.cfg_n c.
Proof.
  intros H Hg. split.
  - destruct (decide (n ≤ zlen (g_mendnames gg) ∨ n ≤ 0)) as [|Hlt]; [done|exfalso].
    eapply (foldO_each (λ x, ∃ g, idx (groups x) gi = Some g ∧ zlen (g_mendnames g) = zlen (g_mendnames gg)) _ _ _ _
      (zlen (g_mendnames gg))) in H as (c1 & c2 & (g & Hg1 & El) & Hs).
    + destruct (StartServer_place _ _ _ _ _ _ Hs) as (g' & _ & Hg' & _ & Hi & _). simplify_eq. lia.
    + eauto.
    + intros i c1 c2 (g & Hg1 & El) Hs. destruct (StartServer_place _ _ _ _ _ _ Hs) as (g' & g2 & Hg' & Hg2 & _ & E & _).
      simplify_eq. exists g2. split; [done|congruence].
    + apply elem_of_range. pose proof (zlen_nonneg (g_mendnames gg)). lia.
  - revert H. apply (foldO_inv (λ x, cfg_ctl x = cfg_ctl c ∧ ShardKvHarness.cfg_n x = ShardKvHarness.cfg_n c)); [|done].
    intros i c1 c2 _ [E1 E2] Hs. destruct (StartServer_place _ _ _ _ _ _ Hs) as (_ & _ & _ & _ & _ & _ & -> & ->). done.
Qed.

(** The harness of [shardkv] needs groups of exactly three servers.  [make_config] does
    not go through for groups of more than three, since [mendnames] has a place
    for each of the three controllers and is indexed by the server, and for fewer than three
    no clerk can be made, since the slice of names of its ends to the controllers has a
    place for each server of a group. *)
Theorem shardkv_harness_groups_of_three n unreliable max names ctlRows ckRow rows mrows c :
  1 ≤ n →
  ShardKvHarness.make_config nameOf kvService raftService ctrlerService n unreliable max names ctlRows ckRow rows mrows = Done c →
  n ≤ 3 ∧ ∀ row ck c', ShardKvHarness.makeClient (cfg_ctl c) row c = Done (ck, c') → n = 3.
Proof.
  intros Hn ([ctl rn] & Hctl%StartCtrlerService_n & H)%bind_Done. apply bind_Done in H as (c1 & H & [= <-]).
  set (body := λ (c : ShardKvHarness.config) (gi : Z), _) in H.
  assert (∀ gi x x', body x gi = Done x' → n ≤ 3 ∧ cfg_ctl x' = cfg_ctl x ∧ ShardKvHarness.cfg_n x' = ShardKvHarness.cfg_n x) as Hbody.
  { intros gi x x' (gs & [Hgi ->]%ofOption_Done%upd_Some & Hb)%bind_Done.
    eapply startGroup_places in Hb; [|simpl; by rewrite idx_insert_eq]. destruct Hb as ([Hb|Hb] & E1 & E2); [|lia].
    unfold zlen in Hb. simpl in Hb. rewrite length_replicate, Hctl in Hb. split; [lia|done]. }
  assert (cfg_ctl c1 = ctl ∧ ShardKvHarness.cfg_n c1 = n) as [E1 E2].
  { revert H. apply (foldO_inv (λ x, cfg_ctl x = ctl ∧ ShardKvHarness.cfg_n x = n)); [|done].
    intros gi x x' _ [E1 E2] (_ & E3 & E4)%Hbody. split; congruence. }
  assert (n ≤ 3) as Hle.
  { eapply (foldO_each (λ _, True) _ _ _ _ 0) in H as (x & x' & _ & [Hx _]%Hbody); [done..|]. apply elem_of_range. lia. }
  split; [done|]. intros row ck c' Hmk%makeClient_places; simpl in *; rewrite ?E1, ?Hctl in *; lia.
Qed.
End shardkv.

(** ** Concrete harnesses *)

Section examples.
Import ShardKv ShardKvHarness.

#[local] Instance unit_status_gob : Gob (PersistentStatus ShardCtrler.Op) := countable_gob (PersistentStatus ShardCtrler.Op).

Definition namedService {S} (name : string) (i : Z) : Service S := mkService name ∅.

(** A clerk is made, another one, and the first is deleted. *)
Definition clerkRun : list clerkOp := [CMake 7; CMake 8; CDelete 0].
Definition clerkEnd : KvSrvHarness.config :=
  match foldO (clerkStep 0) clerkRun (KvSrvHarness.make_config (namedService "KVServer" 0) true) with
  | Done c => c
  | _ => KvSrvHarness.make_config (namedService "KVServer" 0) true
  end.

Lemma kvsrv_clerks_reach_server_witness :
  KvSrvHarness.clerks clerkEnd = {[ 1%nat := 8 ]} ∧
  ∃ k, heap (KvSrvHarness.net clerkEnd) !! k = Some (AddService (namedService "KVServer" 0) MakeServer, KvSrv.StartKVServer) ∧
    ∀ ck e, KvSrvHarness.clerks clerkEnd !! ck = Some e →
      (∃ rel lr, readEndnameInfo e (KvSrvHarness.net clerkEnd) = (true, Some KvSrvHarness.SERVERID, Some k, rel, lr)) ∧
      ∀ ck', KvSrvHarness.clerks clerkEnd !! ck' = Some e → ck' = ck.
Proof.
  split; [vm_compute; reflexivity|].
  apply (kvsrv_clerks_reach_server (namedService "KVServer" 0) 0 true clerkRun clerkEnd); [repeat constructor; done|].
  vm_compute. reflexivity.
Defined.

(** Names of servers as integers, and names of ends that do not repeat. *)
Definition stringName (s : string) : Z := Zpos (encode s).
Definition threeNames (k : Z) : list Z := [k; k + 1; k + 2].
Definition shardConfigOf (n : Z) : outcome ShardKvHarness.config :=
  ShardKvHarness.make_config stringName (namedService "ShardKV") (namedService "Raft") (namedService "ShardCtrler") n false (-1)
    [-1; -2; -3] (λ i, threeNames (10 * i)) (threeNames 30) (λ gi i, threeNames (100 + 30 * gi + 10 * i))
    (λ gi i, threeNames (200 + 30 * gi + 10 * i)).
Definition shardConfig : outcome ShardKvHarness.config := shardConfigOf 3.

(** Server 2 of group 1 is shut down and started again. *)
Definition shardDown : outcome ShardKvHarness.config := c ← shardConfig; ShardKvHarness.ShutdownServer stringName 1 2 c.
Definition shardUp : outcome ShardKvHarness.config :=
  c ← shardDown;
  ShardKvHarness.StartServer stringName (namedService "ShardKV") (namedService "Raft") 1 2 (threeNames 300) (threeNames 310) c.

Definition finished {A} (o : outcome A) : bool := match o with Done _ => true | _ => false end.
Lemma finished_Done {A} (o : outcome A) : finished o = true → ∃ a, o = Done a.
Proof. destruct o; [eauto|done..]. Qed.

(** Server [i] of group [gi] with its saved state. *)
Definition serverIn (o : outcome ShardKvHarness.config) (gi i : Z) : option (group * ShardKV * Persister) :=
  match o with
  | Done c => gg ← idx (groups c) gi; kv ← idx (g_servers gg) i; kv ← kv; ps ← idx (g_saved gg) i; ps ← ps; Some (gg, kv, ps)
  | _ => None
  end.

Lemma shardkv_server_restart_witness : ∃ c c1 c2 gg kv,
  shardConfig = Done c ∧ shardDown = Done c1 ∧ shardUp = Done c2 ∧ gid gg = 101 ∧
  cutOff stringName 1 2 gg kv c c1 ∧
  wired stringName (namedService "ShardKV") (namedService "Raft") 1 2 (threeNames 300) (threeNames 310) gg (persister (kv_rf kv)) c2.
Proof.
  destruct (finished_Done shardConfig) as [c Hc]; [vm_compute; reflexivity|].
  destruct (finished_Done shardDown) as [c1 H1]; [vm_compute; reflexivity|].
  destruct (finished_Done shardUp) as [c2 H2]; [vm_compute; reflexivity|].
  assert (((λ x : group * ShardKV * Persister, gid x.1.1) <$> serverIn shardConfig 1 2) = Some 101) as Hs by (vm_compute; reflexivity).
  pose proof H1 as H1'. pose proof H2 as H2'. unfold shardDown in H1'. unfold shardUp in H2'. rewrite Hc in H1', Hs. rewrite H1 in H2'. simpl in H1', H2'.
  apply fmap_Some in Hs as ([[gg kv] ps] & Hs & Egid). cbn [serverIn] in Hs.
  apply bind_Some in Hs as (gg' & Hg & Hs). apply bind_Some in Hs as (kv' & Hkv & Hs). apply bind_Some in Hs as (kv2 & -> & Hs).
  apply bind_Some in Hs as (ps' & Hps & Hs). apply bind_Some in Hs as (ps2 & -> & [= -> -> ->]).
  pose proof (shardkv_server_restart stringName (namedService "ShardKV") (namedService "Raft") 1 2 (threeNames 300) (threeNames 310)
    c c1 c2 gg kv ps Hg Hkv Hps H1' H2') as Hr.
  exists c, c1, c2, gg, kv. exact (conj Hc (conj H1 (conj H2 (conj (eq_sym Egid) Hr)))).
Defined.

(** Groups of two: the harness is made, and makes no clerk. *)
Lemma shardkv_harness_groups_of_three_witness : ∃ c, shardConfigOf 2 = Done c ∧
  ∀ row ck c', ShardKvHarness.makeClient (cfg_ctl c) row c ≠ Done (ck, c').
Proof.
  destruct (finished_Done (shardConfigOf 2)) as [c Hc]; [vm_compute; reflexivity|]. exists c. split; [exact Hc|]. intros row ck c' H.
  unfold shardConfigOf in Hc. apply shardkv_harness_groups_of_three in Hc as [_ Hc]; [|lia]. specialize (Hc row ck c' H). lia.
Defined.
End examples.
