(* ===== verification/HarnessStats.v ===== *)
(** * The statistics and the time limit of the test harnesses

    [begin], [op], [end], [checkTimeout] and [cleanup] of [raft/config.go],
    [kvraft/config.go] and [kvsrv/config.go]: what a passing test prints, and the two minutes a
    test may take.  The counters of RPCs and bytes are those of the network
    ([LabRpc]); times are nanoseconds.  [t.Failed()] is an argument. *)

From S2P Require Import Prelude Persister RaftNode LabRpc LabRpcFacts.
From S2P Require KvRaft KvHarness RaftHarness ServiceHarness.
Open Scope go_scope.

(** What a test reports when it ends: nothing when it has failed before. *)
Inductive report (A : Type) := TookTooLong | Silent | Passed (a : A).
Arguments TookTooLong {_}.
Arguments Silent {_}.
Arguments Passed {_}.

Definition second : Z := 1000000000.

(** ** [raft/config.go] *)

Module RaftStats.
Section stats.
Context {C : Type}.

(** The fields [finished], [start] and the [begin()/end()] statistics of [type config struct]. *)
Record stats := mkStats { finished : Z; start : Z; t0 : Z; rpcs0 : Z; cmds0 : Z; bytes0 : Z; maxIndex0 : Z }.

(** [func (cfg *config) checkTimeout()]: [true] is [t.Fatal]. *)
Definition checkTimeout (failed : bool) (now : Z) (st : stats) : bool :=
  negb failed && (120 * second <? now - start st).

(** [func (cfg *config) checkFinished() bool] *)
Definition checkFinished (st : stats) : bool := negb (finished st =? 0).

(** [rpcCount], [rpcTotal], [bytesTotal], [setunreliable] and [setlongreordering] *)
Definition rpcCount (server : Z) (cfg : RaftHarness.config C) : option Z := GetCount server (RaftHarness.cfg_net cfg).
Definition rpcTotal (cfg : RaftHarness.config C) : Z := GetTotalCount (RaftHarness.cfg_net cfg).
Definition bytesTotal (cfg : RaftHarness.config C) : Z := GetTotalBytes (RaftHarness.cfg_net cfg).
Definition setunreliable (unrel : bool) (cfg : RaftHarness.config C) : RaftHarness.config C :=
  RaftHarness.set_net (Reliable (negb unrel) (RaftHarness.cfg_net cfg)) cfg.
Definition setlongreordering (longrel : bool) (cfg : RaftHarness.config C) : RaftHarness.config C :=
  RaftHarness.set_net (LongReordering longrel (RaftHarness.cfg_net cfg)) cfg.

(** [func (cfg *config) begin(description string)] *)
Definition begin (now : Z) (cfg : RaftHarness.config C) (st : stats) : stats :=
  mkStats (finished st) (start st) now (rpcTotal cfg) 0 (bytesTotal cfg) (RaftHarness.maxIndex cfg).

(** [func (cfg *config) end()]: time, peers, RPCs, bytes and agreements. *)
Definition end_ (failed : bool) (now : Z) (cfg : RaftHarness.config C) (st : stats) : report (Z * Z * Z * Z * Z) :=
  if checkTimeout failed now st then TookTooLong
  else if failed then Silent
  else Passed (now - t0 st, RaftHarness.cfg_n cfg, rpcTotal cfg - rpcs0 st,
               wrapS 64 (bytesTotal cfg - bytes0 st), RaftHarness.maxIndex cfg - maxIndex0 st).

(** [func (cfg *config) cleanup()]: [None] is the panic of a second [close]; the flag is [t.Fatal]. *)
Definition cleanup (failed : bool) (now : Z) (cfg : RaftHarness.config C) (st : stats) : option (RaftHarness.config C * stats * bool) :=
  let st := mkStats 1 (start st) (t0 st) (rpcs0 st) (cmds0 st) (bytes0 st) (maxIndex0 st) in
  let killed := option_map (set_dead true) <$> RaftHarness.rafts cfg in
  rn ← Cleanup (RaftHarness.cfg_net cfg);
  Some (RaftHarness.set_net rn (RaftHarness.set_rafts killed cfg), st, checkTimeout failed now st).
End stats.
End RaftStats.

(** ** [kvraft/config.go] *)

Module KvStats.
(** [start], [t0], [rpcs0] and [ops] of [type config struct]. *)
Record stats := mkStats { start : Z; t0 : Z; rpcs0 : Z; ops : Z }.

Definition checkTimeout (failed : bool) (now : Z) (st : stats) : bool :=
  negb failed && (120 * second <? now - start st).

Definition rpcTotal (cfg : KvHarness.config) : Z := GetTotalCount (KvHarness.cfg_net cfg).

(** [func (cfg *config) begin(description string)] *)
Definition begin (now : Z) (cfg : KvHarness.config) (st : stats) : stats := mkStats (start st) now (rpcTotal cfg) 0.

(** [func (cfg *config) op()]: [atomic.AddInt32] *)
Definition op (st : stats) : stats := mkStats (start st) (t0 st) (rpcs0 st) (wrapS 32 (ops st + 1)).

(** [func (cfg *config) end()]: time, peers, RPCs and clerk calls. *)
Definition end_ (failed : bool) (now : Z) (cfg : KvHarness.config) (st : stats) : report (Z * Z * Z * Z) :=
  if checkTimeout failed now st then TookTooLong
  else if failed then Silent
  else Passed (now - t0 st, KvHarness.cfg_n cfg, rpcTotal cfg - rpcs0 st, ops st).

(** [func (cfg *config) cleanup()]: [kv.Kill()] kills the server and its peer. *)
Definition killServer (kv : KvHarness.kvserver) : KvHarness.kvserver :=
  KvHarness.mkKvserver (KvRaft.Kill (KvHarness.kvs_kv kv)) (set_dead true (KvHarness.kvs_rf kv)).
Definition cleanup (failed : bool) (now : Z) (cfg : KvHarness.config) (st : stats) : option (KvHarness.config * bool) :=
  let killed := option_map killServer <$> KvHarness.kvservers cfg in
  rn ← Cleanup (KvHarness.cfg_net cfg);
  Some (KvHarness.set_net rn (KvHarness.set_kvservers killed cfg), checkTimeout failed now st).
End KvStats.

(** ** [kvsrv/config.go] *)

Module KvSrvStats.
Record stats := mkStats { start : Z; t0 : Z; rpcs0 : Z; ops : Z }.

Definition checkTimeout (failed : bool) (now : Z) (st : stats) : bool :=
  negb failed && (120 * second <? now - start st).

Definition rpcTotal (cfg : ServiceHarness.KvSrvHarness.config) : Z := GetTotalCount (ServiceHarness.KvSrvHarness.net cfg).

Definition begin (now : Z) (cfg : ServiceHarness.KvSrvHarness.config) (st : stats) : stats :=
  mkStats (start st) now (rpcTotal cfg) 0.
Definition op (st : stats) : stats := mkStats (start st) (t0 st) (rpcs0 st) (wrapS 32 (ops st + 1)).
Definition end_ (failed : bool) (now : Z) (cfg : ServiceHarness.KvSrvHarness.config) (st : stats) : report (Z * Z * Z) :=
  if checkTimeout failed now st then TookTooLong
  else if failed then Silent
  else Passed (now - t0 st, rpcTotal cfg - rpcs0 st, ops st).
End KvSrvStats.

(** ** What is counted *)

Section counts.
Context {S : Type}.
Implicit Types (n : netState S) (e : event S).

Definition isAccept e : bool := match e with EvAccept _ => true | _ => false end.

Lemma config_rcount (op : configOp S) rn rn' : config op rn = Some rn' → rcount rn' = rcount rn.
Proof.
  intros H. destruct op; simpl in H; try by injection H as <-.
  - unfold Cleanup in H. destruct (rdone rn); [done|]. by injection H as <-.
  - unfold MakeEnd in H. case_decide; [done|]. by injection H as <-.
  - unfold DeleteEnd in H. case_decide; [|done]. by injection H as <-.
Qed.

(** The counter of RPCs moves when the network accepts a request, and only then. *)
Lemma step_rcount e n n' :
  step e n = Some n' → rcount (net n') = if isAccept e then wrapS 32 (rcount (net n) + 1) else rcount (net n).
Proof.
  intros H. destruct e as [m|k|k|k|k|k|k|k|k d|k|k|op]; unfold_step H; cbn [isAccept].
  { by injection H as <-. }
  11:{ inv_bind H. injection H as <-. by eapply config_rcount. }
  all: destruct (reqs n !! k) as [q|] eqn:Hk; [|done]; simpl in H.
  5:{ destruct (q_exec q) as [|srv|r] eqn:He; try done. inv_bind H. destruct x as [sv s]. inv_bind H.
      destruct x as [[r sv'] s']. by injection H as <-. }
  all: destruct (q_pc q) as [|rt|rt|rt r|r| |r] eqn:Hpc; try done.
  all: split_step H.
  all: by injection H as <-.
Qed.

(** A test runs: steps of the network, and calls of [op] ([None]). *)
Definition testStep (n : netState S) (st : KvStats.stats) (e : option (event S)) : option (netState S * KvStats.stats) :=
  match e with
  | Some e => n' ← step e n; Some (n', st)
  | None => Some (n, KvStats.op st)
  end.
Definition testSteps (es : list (option (event S))) (n : netState S) (st : KvStats.stats) : option (netState S * KvStats.stats) :=
  foldM (λ x (oe : option (event S)), testStep x.1 x.2 oe) es (n, st).

Definition accepts (es : list (option (event S))) : Z := zlen (filter (λ oe : option (event S), from_option isAccept false oe = true) es).
Definition opCalls (es : list (option (event S))) : Z := zlen (filter (λ oe : option (event S), oe = None) es).

Lemma accepts_cons oe es : accepts (oe :: es) = (if from_option isAccept false oe then 1 else 0) + accepts es.
Proof.
  unfold accepts. rewrite filter_cons. destruct (from_option isAccept false oe);
    [rewrite decide_True, zlen_cons by done|rewrite decide_False by done]; lia.
Qed.
Lemma opCalls_cons oe es : opCalls (oe :: es) = (match oe with None => 1 | Some _ => 0 end) + opCalls es.
Proof.
  unfold opCalls. rewrite filter_cons. destruct oe; [rewrite decide_False by done|rewrite decide_True, zlen_cons by done]; lia.
Qed.
Lemma counts_nonneg es : 0 ≤ accepts es ∧ 0 ≤ opCalls es.
Proof. split; apply zlen_nonneg. Qed.

Lemma testSteps_counts es n st n' st' :
  testSteps es n st = Some (n', st') → 0 ≤ rcount (net n) → 0 ≤ KvStats.ops st →
  rcount (net n) + accepts es < 2 ^ 31 → KvStats.ops st + opCalls es < 2 ^ 31 →
  rcount (net n') = rcount (net n) + accepts es ∧
  st' = KvStats.mkStats (KvStats.start st) (KvStats.t0 st) (KvStats.rpcs0 st) (KvStats.ops st + opCalls es).
Proof.
  unfold testSteps. revert n st. induction es as [|oe es IH]; intros n st H Hr Ho Hlr Hlo; simpl in H.
  - injection H as <- <-. unfold accepts, opCalls, zlen. simpl. destruct st. by rewrite !Z.add_0_r.
  - rewrite accepts_cons in *. rewrite opCalls_cons in *. pose proof (counts_nonneg es) as [Ha0 Ho0].
    apply bind_Some in H as ([n1 st1] & H1 & H). destruct oe as [e|]; simpl in H1.
    + apply bind_Some in H1 as (n2 & Hst & [= -> ->]). apply step_rcount in Hst. simpl in *.
      destruct (isAccept e); [rewrite wrapS_small in Hst by lia|];
        (destruct (IH n1 st1 H) as [-> ->]; [lia|lia|lia|lia|]); rewrite Hst; (split; [lia|done]).
    + injection H1 as <- <-. simpl in *.
      destruct (IH n (KvStats.op st) H) as [-> ->]; simpl; rewrite ?wrapS_small by lia; try lia. split; [done|]. f_equal. lia.
Qed.
End counts.

(** What a passing test of [kvraft] prints: the time since [begin], the number of
    servers, the RPCs the network accepted since [begin], and the calls of [op], while the
    counters fit in 32 bits and two minutes have not passed. *)
Theorem kv_stats_exact (cfg : KvHarness.config) st now0 es n n' st' now :
  net n = KvHarness.cfg_net cfg → testSteps es n (KvStats.begin now0 cfg st) = Some (n', st') →
  0 ≤ rcount (net n) → rcount (net n) + accepts es < 2 ^ 31 → opCalls es < 2 ^ 31 → now - KvStats.start st ≤ 120 * second →
  KvStats.end_ false now (KvHarness.set_net (net n') cfg) st' = Passed (now - now0, KvHarness.cfg_n cfg, accepts es, opCalls es).
Proof.
  intros Hn Hst Hr Hl Ho Ht. destruct (testSteps_counts _ _ _ _ _ Hst) as [Hc ->]; [done|done|done|done|].
  unfold KvStats.end_, KvStats.checkTimeout, KvStats.rpcTotal, GetTotalCount. simpl.
  rewrite (proj2 (Z.ltb_ge _ _)) by lia. rewrite Hc, Hn. simpl.
  unfold KvStats.rpcTotal, GetTotalCount. do 2 f_equal. f_equal. lia.
Qed.
