(* ===== verification/KvSrvNet.v ===== *)
(** * The single-server store on the simulated network

    The clerks of [kvsrv/client.go] and the server of [kvsrv/server.go] on the network of
    [labrpc] ([LabRpc]): [Call] encodes its arguments and waits for its request, which
    the network delays, drops, executes once, and answers; meanwhile the requests of other
    clerks run.  [KvSrv] treats a call as one step; here its parts interleave, and the
    clients still see an atomic map: the calls and returns of every run are those of a run of
    [KvSrv.Spec].  [labgob] is the parameter [Gob] for the four argument and reply types. *)

From S2P Require Import Prelude Persister LabRpc LabRpcFacts.
From S2P Require Import KvSrv.
From S2P Require RaftHarness RaftHarnessFacts KvHarness ServiceHarness.
Import KvSrv.Spec.
Open Scope go_scope.

(** ** Reads that are tried again *)

Section retries.
Implicit Types s : Spec.state.

(** A run of the atomic map in which a read may also forget its value and read again:
    the request was executed, but its reply is lost. *)
Inductive rtrace s : list action → Spec.state → Prop :=
  | rt_refl : rtrace s [] s
  | rt_step acts s1 acts' s' : astep s acts s1 → rtrace s1 acts' s' → rtrace s (acts ++ acts') s'
  | rt_retry i key v acts s' : aclerks s !! i = Some (ADone (AGet key) v) →
      rtrace (mkState (amap s) (<[i := APending (AGet key)]> (aclerks s))) acts s' → rtrace s acts s'.

Lemma rt_trans s acts s1 acts' s' : rtrace s acts s1 → rtrace s1 acts' s' → rtrace s (acts ++ acts') s'.
Proof.
  induction 1 as [|? ? ? ? ? Hs _ IH|? ? ? ? ? ? Hi _ IH]; [done| |].
  - intros H'. rewrite <-app_assoc. eapply rt_step; eauto.
  - intros H'. eapply rt_retry; eauto.
Qed.

Lemma rt_once s acts s' : astep s acts s' → rtrace s acts s'.
Proof. intros H. rewrite <-(app_nil_r acts). by eapply rt_step; [|apply rt_refl]. Qed.

(** The clerk with its read still to come. *)
Definition unread (c c0 : aclerk) : Prop := c0 = c ∨ ∃ key v, c = ADone (AGet key) v ∧ c0 = APending (AGet key).
Definition unreads s s0 : Prop := amap s0 = amap s ∧ Forall2 unread (aclerks s) (aclerks s0).

Lemma unreads_refl s : unreads s s.
Proof. split; [done|]. apply Forall_Forall2_diag, Forall_forall. intros c _. by left. Qed.

(** A state that differs at clerk [i] from one whose reads are undone in [s0]. *)
Lemma unreads_before m s s0 i c c1 :
  unreads (mkState m (<[i := c1]> (aclerks s))) s0 → aclerks s !! i = Some c →
  (∃ c0, aclerks s0 !! i = Some c0 ∧ unread c1 c0) ∧
  ∀ m' cx, amap s = m' → unread c cx → unreads s (mkState m' (<[i := cx]> (aclerks s0))).
Proof.
  intros [_ Hf] Hi. simpl in Hf. pose proof (lookup_lt_Some _ _ _ Hi) as Hlt. split.
  - eapply Forall2_lookup_l; [exact Hf|]. by apply list_lookup_insert_eq.
  - intros m' cx <- Hc. split; [done|]. simpl. rewrite <- (list_insert_id (aclerks s) i c Hi).
    rewrite <- (list_insert_insert_eq (aclerks s) i c c1). by apply Forall2_insert.
Qed.

Lemma put_back s i c c' : aclerks s !! i = Some c → mkState (amap s) (<[i := c]> (<[i := c']> (aclerks s))) = s.
Proof. intros Hi. rewrite list_insert_insert_eq, list_insert_id by done. by destruct s. Qed.

(** The reads that are tried again can be left out. *)
Lemma rtrace_unread s acts s' : rtrace s acts s' → ∃ s0, unreads s s0 ∧ atrace s0 acts s'.
Proof.
  induction 1 as [s|s acts s1 acts' s' Hst _ (s0 & Hu & Htr)|s i key v acts s' Hi _ (s0 & Hu & Htr)].
  - exists s. split; [apply unreads_refl|apply at_refl].
  - destruct Hst as [i o r Hi|i o Hi|i o v Hi]; destruct (unreads_before _ _ _ _ _ _ Hu Hi) as [(c0 & H0 & Hc0) Hb];
      pose proof Hu as [Hm _]; simpl in Hm; pose proof (lookup_lt_Some _ _ _ H0) as Hlt.
    + destruct Hc0 as [->|(? & ? & [=] & _)]. exists (mkState (amap s0) (<[i := AIdle r]> (aclerks s0))).
      split; [apply Hb; [done|by left]|]. eapply at_step; [|exact Htr].
      pose proof (a_invoke (mkState (amap s0) (<[i := AIdle r]> (aclerks s0))) i o r) as Hst. simpl in Hst.
      rewrite put_back in Hst by done. apply Hst. by apply list_lookup_insert_eq.
    + destruct Hc0 as [->|(key & v & [= -> _] & ->)].
      * exists (mkState (amap s) (<[i := APending o]> (aclerks s0))). split; [apply Hb; [done|by left]|].
        eapply at_step; [|exact Htr].
        pose proof (a_apply (mkState (amap s) (<[i := APending o]> (aclerks s0))) i o) as Hst. simpl in Hst.
        rewrite <-Hm, put_back in Hst by done. apply Hst. by apply list_lookup_insert_eq.
      * exists s0. split; [|done]. rewrite <-(put_back s0 i _ (APending (AGet key)) H0), list_insert_insert_eq.
        apply Hb; [by rewrite Hm|by left].
    + destruct Hc0 as [->|(? & ? & [=] & _)]. exists (mkState (amap s0) (<[i := ADone o v]> (aclerks s0))).
      split; [apply Hb; [done|by left]|]. eapply at_step; [|exact Htr].
      pose proof (a_return (mkState (amap s0) (<[i := ADone o v]> (aclerks s0))) i o v) as Hst. simpl in Hst.
      rewrite put_back in Hst by done. apply Hst. by apply list_lookup_insert_eq.
  - destruct (unreads_before _ _ _ _ _ _ Hu Hi) as [(c0 & H0 & [->|(? & ? & [=] & _)]) Hb]. exists s0. split; [|done].
    rewrite <-(put_back s0 i _ (APending (AGet key)) H0), list_insert_insert_eq.
    apply Hb; [by destruct Hu|]. right. eauto.
Qed.

Lemma rtrace_atrace n acts s' : rtrace (ainit n) acts s' → atrace (ainit n) acts s'.
Proof.
  intros (s0 & [Hm Hf] & Htr)%rtrace_unread. replace (ainit n) with s0; [done|].
  destruct s0 as [m l]. simpl in *. subst m. unfold ainit. f_equal. symmetry. apply list_eq. intros i.
  destruct (replicate n (AIdle None) !! i) as [c|] eqn:Hi.
  - apply lookup_replicate in Hi as Hr. destruct Hr as [-> _].
    destruct (Forall2_lookup_l _ _ _ _ _ Hf Hi) as (c0 & -> & [->|(? & ? & [=] & _)]). done.
  - symmetry. apply lookup_ge_None. rewrite <-(Forall2_length _ _ _ Hf). by apply lookup_ge_None.
Qed.
End retries.

(** ** The service and its clerks *)

Section system.
Context `{!Gob GetArgs, !Gob GetReply, !Gob PutAppendArgs, !Gob PutAppendReply}.

(** A handler behind [Service.dispatch]: the arguments are decoded into a zero value,
    whose error is ignored, and the reply is encoded. *)
Definition rpcMethod {A R} `{!Gob A, !Gob R} (zero : A) (handler : A → KVServer → R * KVServer) : method KVServer :=
  λ b kv, let '(reply, kv') := handler (default zero (gob_decode b)) kv in (default [] (gob_encode reply), kv').

Definition zeroPutAppend : PutAppendArgs := mkPutAppendArgs EmptyString EmptyString 0 0.

(** [labrpc.MakeService(kv)]: the methods of [*KVServer]. *)
Definition kvService : Service KVServer :=
  MakeService "KVServer"
    [mkReflectMethod "Append" true 3 true 0 (rpcMethod zeroPutAppend Append);
     mkReflectMethod "Get" true 3 true 0 (rpcMethod (mkGetArgs EmptyString) (λ args kv, (Get args kv, kv)));
     mkReflectMethod "Put" true 3 true 0 (rpcMethod zeroPutAppend Put)].

Definition opString (op : opName) : string := match op with OpPut => "Put" | OpAppend => "Append" end.

(** The request of the [Call] a clerk is in: [None] is the panic of [Encode]. *)
Definition callMsg (e : Z) (c : clerk) : option reqMsg :=
  match c with
  | Idle _ => None
  | CallGet args => b ← gob_encode args; Some (mkReq e "KVServer.Get" b)
  | CallModify op args | CallReport op args _ => b ← gob_encode args; Some (mkReq e ("KVServer." +:+ opString op) b)
  end.

(** A clerk, the name of its end, and the number of the request its [Call] waits for. *)
Record nclerk := mkNclerk { nc_end : Z; nc_clerk : clerk; nc_req : nat }.
Record netsys := mkNetsys { ns_net : netState KVServer; ns_clerks : list nclerk }.

(** The state of the server object, which is the first on the heap. *)
Definition server (n : netState KVServer) : KVServer :=
  match heap (net n) with (_, kv) :: _ => kv | [] => StartKVServer end.
Definition flat (s : netsys) : system := mkSystem (server (ns_net s)) (nc_clerk <$> ns_clerks s).

(** [Call] at the state [c] of the clerk: the request is sent. *)
Definition startCall (i : nat) (nc : nclerk) (c : clerk) (s : netsys) : option netsys :=
  m ← callMsg (nc_end nc) c;
  n' ← callSend m (ns_net s);
  Some (mkNetsys n' (<[i := mkNclerk (nc_end nc) c (length (reqs (ns_net s)))]> (ns_clerks s))).

(** [Call] returned to the clerk: false repeats it, true goes on with the decoded reply
    ([None] is [log.Fatalf]). *)
Definition callReturned (i : nat) (nc : nclerk) (r : option bytes) (s : netsys) : option netsys :=
  let finish v := Some (mkNetsys (ns_net s) (<[i := mkNclerk (nc_end nc) (Idle (Some v)) (nc_req nc)]> (ns_clerks s))) in
  match r with
  | None => startCall i nc (nc_clerk nc) s
  | Some b =>
      match nc_clerk nc with
      | Idle _ => None
      | CallGet _ => reply ← gob_decode b; finish (gr_Value reply)
      | CallModify op args =>
          reply ← gob_decode b;
          startCall i nc (CallReport op (mkPutAppendArgs (pa_Key args) (pa_Value args) (pa_RequestId args) Report) reply) s
      | CallReport op args reply => (gob_decode b : option PutAppendReply) ≫= λ _, finish (par_Value reply)
      end
  end.

(** The configuration calls of a test while its clients run. *)
Definition tuning {S} (op : configOp S) : bool :=
  match op with OpReliable _ | OpLongReordering _ | OpLongDelays _ | OpCleanup => true | _ => false end.

Inductive nevent :=
  | NInvokeGet (i : nat) (key : string)
  | NInvokePutAppend (i : nat) (op : opName) (key value : string) (id : Z)
  | NReturn (i : nat)                    (* Call returns *)
  | NNet (e : LabRpc.event KVServer).    (* a step of the network *)

Definition nstep (ev : nevent) (s : netsys) : option netsys :=
  match ev with
  | NInvokeGet i key =>
      nc ← ns_clerks s !! i;
      match nc_clerk nc with Idle _ => startCall i nc (beginGet key) s | _ => None end
  | NInvokePutAppend i op key value id =>
      nc ← ns_clerks s !! i;
      match nc_clerk nc with
      | Idle _ => if fresh id (flat s) then startCall i nc (beginPutAppend op key value id) s else None
      | _ => None
      end
  | NReturn i =>
      nc ← ns_clerks s !! i;
      q ← reqs (ns_net s) !! nc_req nc;
      match q_pc q with QReturned r => callReturned i nc r s | _ => None end
  | NNet e =>
      match e with
      | EvCall _ => None
      | EvConfig op => if tuning op then n' ← LabRpc.step e (ns_net s); Some (mkNetsys n' (ns_clerks s)) else None
      | _ => n' ← LabRpc.step e (ns_net s); Some (mkNetsys n' (ns_clerks s))
      end
  end.

Definition nsteps (es : list nevent) (s : netsys) : option netsys := foldM (λ s e, nstep e s) es s.

(** What the clients see of an event. *)
Definition nobserve (ev : nevent) (s' : netsys) : list action :=
  match ev with
  | NInvokeGet i key => [ACall i (AGet key)]
  | NInvokePutAppend i op key value id => [ACall i (absOp op (mkPutAppendArgs key value id Modify))]
  | NReturn i => match nc_clerk <$> ns_clerks s' !! i with Some (Idle (Some v)) => [AReturn i v] | _ => [] end
  | NNet _ => []
  end.

Fixpoint ntrace (es : list nevent) (s : netsys) : list action :=
  match es with
  | [] => []
  | e :: es' => match nstep e s with Some s' => nobserve e s' ++ ntrace es' s' | None => [] end
  end.

(** A network with the server, and a clerk with each of the ends. *)
Definition ninit (rn : Network KVServer) (ends : list Z) : netsys :=
  mkNetsys (mkNet rn [] []) ((λ e, mkNclerk e (Idle None) 0) <$> ends).
End system.

(** ** The abstraction and the invariant *)

Section refinement.
Context `{!Gob GetArgs, !Gob GetReply, !Gob PutAppendArgs, !Gob PutAppendReply}.
Context `{!GobLaws GetArgs, !GobLaws GetReply, !GobLaws PutAppendArgs, !GobLaws PutAppendReply}.
Implicit Types (s : netsys) (n : netState KVServer) (q : request) (nc : nclerk).

(** A read has happened when its request has been executed; the rest is as in [KvSrv]. *)
Definition nabsClerk (rs : list request) (mm : gmap Z string) nc : aclerk :=
  match nc_clerk nc with
  | CallGet args =>
      match q_exec <$> rs !! nc_req nc with
      | Some (XDone r) => ADone (AGet (ga_Key args)) (from_option gr_Value EmptyString (gob_decode (rbytes r)))
      | _ => APending (AGet (ga_Key args))
      end
  | c => absClerk mm c
  end.
Definition nabs s : Spec.state :=
  mkState (data (server (ns_net s)))
    (nabsClerk (reqs (ns_net s)) (MessageMap (server (ns_net s))) <$> ns_clerks s).

Definition busy (c : clerk) : Prop := match c with Idle _ => False | _ => True end.

(** What the execution of a clerk's request has left at the server and in the reply. *)
Definition answered (kv : KVServer) (c : clerk) (r : replyMsg) : Prop :=
  match c with
  | CallModify op args =>
      ∃ v, MessageMap kv !! pa_RequestId args = Some v ∧ gob_decode (rbytes r) = Some (mkPutAppendReply (recorded op v))
  | CallReport op args _ => MessageMap kv !! pa_RequestId args = None
  | _ => True
  end.

Definition returned q : Prop := ∃ r, q_pc q = QReturned r.

Record netinv s : Prop := {
  ni_flat : inv (flat s);
  ni_net : ninv (ns_net s);
  ni_stable : stable (ns_net s);
  ni_heap : ∃ sv kv, heap (net (ns_net s)) = [(sv, kv)] ∧ services sv !! "KVServer" = Some kvService;
  ni_current i nc : ns_clerks s !! i = Some nc → busy (nc_clerk nc) →
    ∃ q, reqs (ns_net s) !! nc_req nc = Some q ∧ callMsg (nc_end nc) (nc_clerk nc) = Some (q_msg q) ∧
      ∀ r, q_exec q = XDone r → answered (server (ns_net s)) (nc_clerk nc) r;
  ni_live k q : reqs (ns_net s) !! k = Some q → returned q ∨
    ∃ i nc, ns_clerks s !! i = Some nc ∧ busy (nc_clerk nc) ∧ nc_req nc = k;
  ni_apart i j nc nc' : ns_clerks s !! i = Some nc → ns_clerks s !! j = Some nc' →
    busy (nc_clerk nc) → busy (nc_clerk nc') → nc_req nc = nc_req nc' → i = j;
}.

Lemma flat_update n i nc' (cs : list nclerk) :
  flat (mkNetsys n (<[i := nc']> cs)) = mkSystem (server n) (<[i := nc_clerk nc']> (nc_clerk <$> cs)).
Proof. unfold flat. simpl. by rewrite list_fmap_insert. Qed.

(** A change at clerk [i] that leaves the others as they are. *)
Lemma nabs_update s n' i nc nc' :
  ns_clerks s !! i = Some nc →
  (∀ j x, j ≠ i → ns_clerks s !! j = Some x →
     nabsClerk (reqs n') (MessageMap (server n')) x = nabsClerk (reqs (ns_net s)) (MessageMap (server (ns_net s))) x) →
  nabs (mkNetsys n' (<[i := nc']> (ns_clerks s))) =
  mkState (data (server n')) (<[i := nabsClerk (reqs n') (MessageMap (server n')) nc']> (aclerks (nabs s))).
Proof.
  intros Hi Hj. unfold nabs. simpl. f_equal. apply list_eq. intros j. pose proof (lookup_lt_Some _ _ _ Hi).
  rewrite list_lookup_fmap. destruct (decide (i = j)) as [<-|Hne].
  - by rewrite !list_lookup_insert_eq by (rewrite ?length_fmap; done).
  - rewrite !list_lookup_insert_ne, list_lookup_fmap by done. destruct (ns_clerks s !! j) as [x|] eqn:Hx; [|done].
    simpl. f_equal. by apply (Hj j).
Qed.

Lemma nabs_lookup s i nc :
  ns_clerks s !! i = Some nc →
  aclerks (nabs s) !! i = Some (nabsClerk (reqs (ns_net s)) (MessageMap (server (ns_net s))) nc).
Proof. intros Hi. unfold nabs. simpl. by rewrite list_lookup_fmap, Hi. Qed.

Lemma nabsClerk_busy rs rs' mm nc :
  (busy (nc_clerk nc) → rs' !! nc_req nc = rs !! nc_req nc) → nabsClerk rs' mm nc = nabsClerk rs mm nc.
Proof. intros H. unfold nabsClerk. destruct (nc_clerk nc); try done. by rewrite H. Qed.

(** The records at another id do not matter to a clerk. *)
Lemma nabsClerk_records rs mm mm' nc :
  (∀ id, idOf (nc_clerk nc) = Some id → mm' !! id = mm !! id) → nabsClerk rs mm' nc = nabsClerk rs mm nc.
Proof. intros H. unfold nabsClerk. destruct (nc_clerk nc); try done. simpl. by rewrite H. Qed.

(** ** Calls begin *)

(** The abstract clerk at the start of a call. *)
Definition calling (mm : gmap Z string) (c : clerk) : aclerk :=
  match c with CallGet args => APending (AGet (ga_Key args)) | _ => absClerk mm c end.

Lemma startCall_inv s i nc c s' :
  netinv s → ns_clerks s !! i = Some nc → busy c →
  (busy (nc_clerk nc) → ∀ q, reqs (ns_net s) !! nc_req nc = Some q → returned q) →
  inv (mkSystem (server (ns_net s)) (<[i := c]> (nc_clerk <$> ns_clerks s))) →
  startCall i nc c s = Some s' →
  netinv s' ∧
  nabs s' = mkState (amap (nabs s)) (<[i := calling (MessageMap (server (ns_net s))) c]> (aclerks (nabs s))) ∧
  nc_clerk <$> ns_clerks s' !! i = Some c.
Proof.
  intros [Hf Hn Hs Hh Hc Hl Ha] Hi Hb Hold Hflat H. pose proof (lookup_lt_Some _ _ _ Hi) as Hlt. unfold startCall in H.
  apply bind_Some in H as (m & Hm & H). unfold callSend in H. simpl in H. injection H as <-.
  set (k := length (reqs (ns_net s))).
  assert (∀ j x, ns_clerks s !! j = Some x → busy (nc_clerk x) →
            nc_req x < k ∧ (reqs (ns_net s) ++ [mkRequest m QSent XNone]) !! nc_req x = reqs (ns_net s) !! nc_req x)%nat as Hk.
  { intros j x Hx Hbx. destruct (Hc _ _ Hx Hbx) as (q & Hq & _). apply lookup_lt_Some in Hq as ?. split; [done|]. by apply lookup_app_l. }
  split_and!.
  - assert (LabRpc.step (EvCall m) (ns_net s) = Some (mkNet (net (ns_net s)) (reqs (ns_net s) ++ [mkRequest m QSent XNone]) (ran (ns_net s)))) as Hst by done.
    split; simpl.
    + by rewrite flat_update.
    + by eapply step_ninv.
    + eapply step_stable; [exact Hn|exact Hs| |exact Hst]. by intros ? [=].
    + done.
    + intros j x Hx Hbx. destruct (decide (i = j)) as [<-|Hne].
      * rewrite list_lookup_insert_eq in Hx by done. injection Hx as <-. simpl in *.
        eexists. rewrite lookup_app_r, Nat.sub_diag by done. split_and!; [done|done|by intros ? [=]].
      * rewrite list_lookup_insert_ne in Hx by done. destruct (Hk _ _ Hx Hbx) as [_ ->]. by apply Hc with j.
    + intros k' q [Hq|[Hge Hq]]%lookup_app_Some.
      * destruct (Hl _ _ Hq) as [?|(j & x & Hx & Hbx & <-)]; [by left|].
        destruct (decide (i = j)) as [<-|Hne]; [left; simplify_eq; by apply Hold|]. right. exists j, x.
        by rewrite list_lookup_insert_ne.
      * apply list_lookup_singleton_Some in Hq as [Hq <-]. right. exists i. eexists.
        rewrite list_lookup_insert_eq by done. split_and!; [done|done|]. simpl. fold k in Hge. unfold k in *. lia.
    + intros j j' x x' Hx Hx' Hbx Hbx' E. destruct (decide (i = j)) as [<-|?], (decide (i = j')) as [<-|?]; [done| | |];
        rewrite ?list_lookup_insert_eq, ?list_lookup_insert_ne in * by done; simplify_eq/=.
      * destruct (Hk _ _ Hx' Hbx'). lia.
      * destruct (Hk _ _ Hx Hbx). lia.
      * by eapply (Ha j j').
  - erewrite nabs_update; [|exact Hi|].
    + simpl. f_equal. f_equal. unfold nabsClerk, calling. simpl. destruct c; try done. by rewrite lookup_app_r, Nat.sub_diag.
    + simpl. intros j x _ Hx. apply nabsClerk_busy. intros Hbx. by destruct (Hk _ _ Hx Hbx) as [_ ->].
  - simpl. by rewrite list_lookup_insert_eq.
Qed.

(** ** Calls return for good *)

Lemma finish_inv s i nc v :
  netinv s → ns_clerks s !! i = Some nc → busy (nc_clerk nc) →
  (∀ q, reqs (ns_net s) !! nc_req nc = Some q → returned q) →
  (∀ id, idOf (nc_clerk nc) = Some id → MessageMap (server (ns_net s)) !! id = None) →
  let s' := mkNetsys (ns_net s) (<[i := mkNclerk (nc_end nc) (Idle (Some v)) (nc_req nc)]> (ns_clerks s)) in
  netinv s' ∧ nabs s' = mkState (amap (nabs s)) (<[i := AIdle (Some v)]> (aclerks (nabs s))).
Proof.
  intros [Hf Hn Hs Hh Hc Hl Ha] Hi Hb Hold Hid s'. subst s'. pose proof (lookup_lt_Some _ _ _ Hi) as Hlt. split.
  - split; simpl; try done.
    + rewrite flat_update. eapply (inv_update (flat s)); simpl; [done|by rewrite list_lookup_fmap, Hi|by right|done|].
      intros id u Hu. right. split; [eauto|]. intros E. by rewrite (Hid _ E) in Hu.
    + intros j x Hx Hbx. destruct (decide (i = j)) as [<-|Hne].
      * rewrite list_lookup_insert_eq in Hx by done. by injection Hx as <-.
      * rewrite list_lookup_insert_ne in Hx by done. by apply Hc with j.
    + intros k q Hq. destruct (Hl _ _ Hq) as [?|(j & x & Hx & Hbx & <-)]; [by left|].
      destruct (decide (i = j)) as [<-|Hne]; [left; simplify_eq; by apply Hold|]. right. exists j, x. by rewrite list_lookup_insert_ne.
    + intros j j' x x' Hx Hx' Hbx Hbx' E. destruct (decide (i = j)) as [<-|?], (decide (i = j')) as [<-|?]; [done| | |];
        rewrite ?list_lookup_insert_eq, ?list_lookup_insert_ne in * by done; simplify_eq/=; try done. by eapply (Ha j j').
  - erewrite nabs_update; [done|exact Hi|done].
Qed.

(** ** Steps of the network that run no handler *)

Definition runsNothing (e : LabRpc.event KVServer) : bool :=
  match e with EvCall _ | EvRun _ => false | EvConfig op => tuning op | _ => true end.

(** Such a step moves at most one request, which has not returned, and executes nothing. *)
Lemma net_quiet e n n' :
  ninv n → LabRpc.step e n = Some n' → runsNothing e = true →
  heap (net n') = heap (net n) ∧
  (reqs n' = reqs n ∨
   ∃ k q q', reqs n !! k = Some q ∧ reqs n' = <[k := q']> (reqs n) ∧ q_msg q' = q_msg q ∧ ¬ returned q ∧
     (q_exec q' = q_exec q ∨ (∀ r, q_exec q ≠ XDone r) ∧ (∀ r, q_exec q' ≠ XDone r))).
Proof.
  intros Hn H Hr. destruct e as [m|k|k|k|k|k|k|k|k d|k|k|op]; try done; unfold_step H.
  10:{ apply bind_Some in H as (rn & Hc & [= <-]). simpl. split; [|by left].
       destruct op; simpl in *; try done; unfold Cleanup in Hc; try case_match; by simplify_eq. }
  all: destruct (reqs n !! k) as [q|] eqn:Hk; [|done]; simpl in H; pose proof (n_reqs _ Hn _ _ Hk) as Hc; unfold consistent in Hc.
  all: destruct (q_pc q) as [|rt|rt|rt r|r| |r] eqn:Hpc; try done.
  all: split_step H; injection H as <-; simpl; (split; [done|right]); exists k, q; eexists; 
    (split_and!; [done|done|done|intros [? Hret]; congruence|]).
  all: try (by left). right. split; [|done]. intros r E. rewrite E in Hc. tauto.
Qed.

Lemma runsNothing_keeps e n n' :
  runsNothing e = true → LabRpc.step e n = Some n' → ∀ op, e = EvConfig op → keeps (net n) (net n').
Proof.
  intros Hr H op ->. simpl in H. apply bind_Some in H as (rn & Hc & [= <-]).
  eapply keeping_keeps; [|exact Hc]. by destruct op.
Qed.

Lemma server_heap n n' : heap (net n') = heap (net n) → server n' = server n.
Proof. unfold server. by intros ->. Qed.

Lemma quiet_inv s e n' :
  netinv s → LabRpc.step e (ns_net s) = Some n' → runsNothing e = true →
  netinv (mkNetsys n' (ns_clerks s)) ∧ nabs (mkNetsys n' (ns_clerks s)) = nabs s.
Proof.
  intros [Hf Hn Hs Hh Hc Hl Ha] Hst Hr. destruct (net_quiet _ _ _ Hn Hst Hr) as [Hheap Hreq].
  pose proof (server_heap _ _ Hheap) as Hsv.
  assert (∀ k q, reqs (ns_net s) !! k = Some q → ∃ q', reqs n' !! k = Some q' ∧ q_msg q' = q_msg q ∧
    (q_exec q' = q_exec q ∨ (∀ r, q_exec q ≠ XDone r) ∧ (∀ r, q_exec q' ≠ XDone r)) ∧ (returned q → returned q')) as Hold.
  { intros k q Hk. destruct Hreq as [->|(k0 & q0 & q' & Hk0 & -> & Hmsg & Hret & Hex)]; [eauto 10|].
    destruct (decide (k0 = k)) as [->|?].
    - simplify_eq. exists q'. rewrite list_lookup_insert_eq by (by eapply lookup_lt_Some). by split_and!.
    - rewrite list_lookup_insert_ne by done. eauto 10. }
  split.
  - split; simpl; [|by eapply step_ninv|eapply step_stable; eauto using runsNothing_keeps|by rewrite Hheap| | |done].
    + unfold flat in *. simpl. by rewrite Hsv.
    + intros i nc Hi Hb. destruct (Hc _ _ Hi Hb) as (q & Hq & Hm & Hx). destruct (Hold _ _ Hq) as (q' & Hq' & Hm' & Hx' & _).
      exists q'. rewrite Hm', Hsv. split_and!; [done|done|]. intros r E. destruct Hx' as [E'|[_ E']]; [|by destruct (E' r)].
      apply Hx. congruence.
    + intros k q' Hq'. assert (∃ q, reqs (ns_net s) !! k = Some q) as [q Hq].
      { apply lookup_lt_is_Some. apply lookup_lt_Some in Hq'. destruct Hreq as [E|(? & ? & ? & _ & E & _)]; rewrite E in Hq'; by rewrite ?length_insert in Hq'. }
      destruct (Hl _ _ Hq) as [?|?]; [left|by right]. destruct (Hold _ _ Hq) as (? & ? & _ & _ & Hret). simplify_eq. auto.
  - unfold nabs. simpl. rewrite Hsv. f_equal. apply list_fmap_ext. intros i nc Hi. unfold nabsClerk.
    destruct (nc_clerk nc) eqn:Ec; try done. destruct (Hc _ _ Hi) as (q & Hq & _ & _); [by rewrite Ec|].
    destruct (Hold _ _ Hq) as (q' & Hq' & _ & Hx & _). rewrite Hq, Hq'. simpl. destruct Hx as [->|[Hx Hx']]; [done|].
    destruct (q_exec q) eqn:E, (q_exec q') eqn:E'; try done; by destruct (Hx r) + destruct (Hx' r).
Qed.

(** ** The handler runs *)

(** What [Server.dispatch] does with the request of a clerk. *)
Lemma dispatch_call sv e c m kv r sv' kv' :
  services sv !! "KVServer" = Some kvService → callMsg e c = Some m →
  LabRpc.dispatch sv m kv = Some (r, sv', kv') →
  services sv' = services sv ∧
  match c with
  | Idle _ => False
  | CallGet args => kv' = kv ∧ gob_decode (rbytes r) = Some (Get args kv)
  | CallModify op args | CallReport op args _ =>
      kv' = (dispatch op args kv).2 ∧ gob_decode (rbytes r) = Some (dispatch op args kv).1
  end.
Proof.
  intros Hsv Hm H.
  assert (∀ (A R : Type) `{!Gob A, !GobLaws A, !Gob R, !GobLaws R} (zero a : A) (f : A → KVServer → R * KVServer) b,
    gob_encode a = Some b → rpcMethod zero f b kv = (default [] (gob_encode (f a kv).1), (f a kv).2) ∧
    gob_decode (default [] (gob_encode (f a kv).1)) = Some (f a kv).1) as Hrpc.
  { clear. intros A R ? ? ? ? zero a f b Hb. unfold rpcMethod. rewrite (gob_roundtrip _ _ Hb). simpl. destruct (f a kv) as [reply kv']. simpl.
    destruct (gob_total reply) as [x Hx]. rewrite Hx. split; [done|]. by apply gob_roundtrip. }
  assert (∀ name (f : method KVServer) b, m = mkReq e ("KVServer." +:+ name) b → splitLastDot ("KVServer." +:+ name) = Some ("KVServer", name) →
    methods kvService !! name = Some f → services sv' = services sv ∧ f b kv = (rbytes r, kv')) as Hcall.
  { revert Hsv. generalize kvService as svc. intros svc Hsv name f b -> Hdot Hf. unfold LabRpc.dispatch in H. simpl svcMeth in H. rewrite Hdot in H. simpl in H. rewrite Hsv in H. simpl in H.
    unfold serviceDispatch in H. rewrite Hf in H. simpl in H. destruct (f b kv) as [rb kv1]. simpl in H. by injection H as <- <- <-. }
  destruct c as [|args|op args|op args reply]; simpl in Hm; [done| | |]; apply bind_Some in Hm as (b & Hb & [= <-]).
  - destruct (Hcall "Get" (rpcMethod (mkGetArgs EmptyString) (λ args kv, (Get args kv, kv))) b eq_refl eq_refl eq_refl) as [? E].
    destruct (Hrpc _ _ _ _ _ _ (mkGetArgs EmptyString) args (λ args kv, (Get args kv, kv)) b Hb) as [E' Hd]. rewrite E' in E.
    by injection E as <- <-.
  - assert (services sv' = services sv ∧ rpcMethod zeroPutAppend (dispatch op) b kv = (rbytes r, kv')) as [? E]
      by (apply (Hcall (opString op)); by destruct op).
    destruct (Hrpc _ _ _ _ _ _ zeroPutAppend args (dispatch op) b Hb) as [E' Hd]. rewrite E' in E. by injection E as <- <-.
  - assert (services sv' = services sv ∧ rpcMethod zeroPutAppend (dispatch op) b kv = (rbytes r, kv')) as [? E]
      by (apply (Hcall (opString op)); by destruct op).
    destruct (Hrpc _ _ _ _ _ _ zeroPutAppend args (dispatch op) b Hb) as [E' Hd]. rewrite E' in E. by injection E as <- <-.
Qed.

(** The request of clerk [i] ran and left the server in [kv']. *)
Lemma run_update s k q i nc sv kv sv' kv' r :
  netinv s → reqs (ns_net s) !! k = Some q → ns_clerks s !! i = Some nc → busy (nc_clerk nc) → nc_req nc = k →
  heap (net (ns_net s)) = [(sv, kv)] → services sv !! "KVServer" = Some kvService → services sv' = services sv →
  inv (mkSystem kv' (nc_clerk <$> ns_clerks s)) →
  (∀ id, idOf (nc_clerk nc) ≠ Some id → MessageMap kv' !! id = MessageMap kv !! id) →
  answered kv' (nc_clerk nc) r →
  let q' := mkRequest (q_msg q) (q_pc q) (XDone r) in
  let n' := mkNet (setHeap [(sv', kv')] (net (ns_net s))) (<[k := q']> (reqs (ns_net s))) (ran (ns_net s) ++ [(k, rbytes r)]) in
  ninv n' → stable n' →
  netinv (mkNetsys n' (ns_clerks s)) ∧
  nabs (mkNetsys n' (ns_clerks s)) =
    mkState (data kv') (<[i := nabsClerk (reqs n') (MessageMap kv') nc]> (aclerks (nabs s))).
Proof.
  intros [Hf Hn Hs Hh Hc Hl Ha] Hk Hi Hb Hnk Hheap Hsvc Hsvc' Hinv Hm Hans q' n' Hn' Hs'.
  assert (server (ns_net s) = kv) as Hkv by (unfold server; by rewrite Hheap).
  pose proof (lookup_lt_Some _ _ _ Hk) as Hlt.
  assert (∀ j x, j ≠ i → ns_clerks s !! j = Some x → busy (nc_clerk x) → nc_req x ≠ k) as Hother.
  { intros j x Hne Hx Hbx E. apply Hne. eapply (Ha j i); [done|done|done|done|congruence]. }
  assert (∀ j x id, j ≠ i → ns_clerks s !! j = Some x → idOf (nc_clerk x) = Some id → MessageMap kv' !! id = MessageMap kv !! id) as Hids.
  { intros j x id Hne Hx Hid. apply Hm. intros E. apply Hne.
    eapply (inv_ids _ Hf j i); simpl; rewrite ?list_lookup_fmap, ?Hx, ?Hi; done. }
  split.
  - split; simpl; [done|done|done| | | |done].
    + exists sv', kv'. by rewrite Hsvc'.
    + intros j x Hx Hbx. destruct (decide (j = i)) as [->|Hne].
      * assert (x = nc) as -> by congruence. destruct (Hc _ _ Hi Hb) as (q0 & Hq0 & Hmsg & _). exists q'. rewrite Hnk, list_lookup_insert_eq by done.
        split_and!; [done|simpl; congruence|]. unfold server. simpl. by intros ? [= <-].
      * destruct (Hc _ _ Hx Hbx) as (q0 & Hq0 & Hmsg & Hans0). exists q0.
        rewrite list_lookup_insert_ne by (symmetry; by eapply Hother). split_and!; [done|done|].
        intros r0 E. specialize (Hans0 _ E). rewrite Hkv in Hans0. unfold server. simpl.
        destruct (nc_clerk x) eqn:Ex; simpl in *; rewrite ?(Hids j x) by (try done; by rewrite Ex); done.
    + intros k' q0. destruct (decide (k = k')) as [<-|?]; [|rewrite list_lookup_insert_ne by done; apply Hl].
      intros _. right. eauto.
  - rewrite <-(list_insert_id (ns_clerks s) i nc) at 1 by done. erewrite nabs_update; [|exact Hi|]; [done|].
    intros j x Hne Hx. change (server n') with kv'. rewrite Hkv. rewrite (nabsClerk_records _ (MessageMap kv)) by eauto.
    apply nabsClerk_busy. intros Hbx. simpl. apply list_lookup_insert_ne. symmetry. by eapply Hother.
Qed.

Lemma run_inv s k n' :
  netinv s → LabRpc.step (EvRun k) (ns_net s) = Some n' →
  netinv (mkNetsys n' (ns_clerks s)) ∧ rtrace (nabs s) [] (nabs (mkNetsys n' (ns_clerks s))).
Proof.
  intros Hinv Hst. pose proof Hinv as [Hf Hn Hs (sv & kv & Hheap & Hsvc) Hc Hl Ha].
  assert (server (ns_net s) = kv) as Hkv by (unfold server; by rewrite Hheap).
  assert (ninv n') as Hn' by by eapply step_ninv.
  assert (stable n') as Hs' by (eapply step_stable; [exact Hn|exact Hs| |exact Hst]; by intros ? [=]).
  unfold_step Hst. destruct (reqs (ns_net s) !! k) as [q|] eqn:Hk; [|done]. simpl in Hst.
  destruct (q_exec q) as [|x|] eqn:Hx; try done. rewrite Hheap in Hst.
  destruct x as [|x]; [|done]. simpl in Hst. apply bind_Some in Hst as ([[r sv'] kv'] & Hd & [= Heq]).
  assert (n' = mkNet (setHeap [(sv', kv')] (net (ns_net s)))
                 (<[k := mkRequest (q_msg q) (q_pc q) (XDone r)]> (reqs (ns_net s))) (ran (ns_net s) ++ [(k, rbytes r)])) as -> by by symmetry.
  destruct (Hl _ _ Hk) as [[r' Hret]|(i & nc & Hi & Hb & Hnk)].
  { specialize (Hs _ _ Hk). rewrite Hret in Hs. by destruct (Hs 0%nat). }
  destruct (Hc _ _ Hi Hb) as (q0 & Hq0 & Hmsg & _). assert (q0 = q) as -> by congruence.
  destruct (dispatch_call _ _ _ _ _ _ _ _ Hsvc Hmsg Hd) as [Hsvc' Hcase].
  assert (clerks (flat s) !! i = Some (nc_clerk nc)) as Hfi by (simpl; by rewrite list_lookup_fmap, Hi).
  pose proof (nabs_lookup _ _ _ Hi) as Habs. rewrite Hkv in Habs.
  assert (∀ kv', (∀ id v, MessageMap kv' !! id = Some v → idOf (nc_clerk nc) = Some id ∨ is_Some (MessageMap kv !! id) ∧ idOf (nc_clerk nc) ≠ Some id) →
    inv (mkSystem kv' (nc_clerk <$> ns_clerks s))) as Hsys.
  { intros kv1 H1. rewrite <-(list_insert_id (nc_clerk <$> ns_clerks s) i (nc_clerk nc)) by done.
    eapply (inv_update (flat s)); [done|done|by left|by eapply (inv_types _ Hf)|]. simpl. by rewrite Hkv. }
  pose proof (λ Hinv' Hrec Hans, run_update s k q i nc sv kv sv' kv' r Hinv Hk Hi Hb Hnk Hheap Hsvc Hsvc' Hinv' Hrec Hans Hn' Hs') as Hup.
  assert (amap (nabs s) = data kv) as Hmap by (simpl; by rewrite Hkv).
  set (a := nabs s) in *. clearbody a. simpl in Hup |- *. unfold nabsClerk in Hup, Habs. rewrite Hnk in Hup, Habs.
  rewrite list_lookup_insert_eq in Hup by by eapply lookup_lt_Some. rewrite Hk in Habs. simpl in Hup, Habs. rewrite Hx in Habs.
  assert (∀ c, aclerks a !! i = Some c → mkState (data kv) (<[i := c]> (aclerks a)) = a) as Hsame.
  { intros c E. rewrite list_insert_id, <-Hmap by done. by destruct a. }
  pose proof (inv_types _ Hf _ _ Hfi) as Hty. destruct (nc_clerk nc) as [|args|op args|op args reply]; [done| | |].
  - destruct Hcase as [-> Hdec]. destruct Hup as [Hi' ->]; [apply Hsys; simpl; intros id v Hv; right; split; [eauto|done]|done|done|].
    split; [done|]. rewrite Hdec. apply rt_once. pose proof (a_apply a i _ Habs) as Ha'. rewrite Hmap in Ha'. exact Ha'.
  - destruct Hcase as [Hkv' Hdec]. destruct (dispatch_modify op args kv Hty) as [(v & Hv & E)|(Hno & w & Hw & E)]; rewrite E in *; simpl in Hkv', Hdec; subst kv'.
    + destruct Hup as [Hi' ->]; [apply Hsys; simpl|done|by exists v|].
      { intros id u Hu. destruct (decide (pa_RequestId args = id)) as [->|?]; [by left|right; split; [eauto|congruence]]. }
      split; [done|]. rewrite Hsame by done. apply rt_refl.
    + destruct Hup as [Hi' ->]; simpl.
      { apply Hsys. simpl. intros id u. destruct (decide (pa_RequestId args = id)) as [->|?]; [by left|].
        rewrite lookup_insert_ne by done. intros Hu. right. split; [eauto|congruence]. }
      { intros id ?. rewrite lookup_insert_ne by congruence. done. }
      { exists w. by rewrite lookup_insert_eq. }
      split; [done|]. simpl in Habs. rewrite Hno in Habs. rewrite lookup_insert_eq, Hw. apply rt_once.
      pose proof (a_apply a i _ Habs) as Ha'. rewrite Hmap in Ha'. exact Ha'.
  - destruct Hcase as [Hkv' _]. rewrite (dispatch_report op args kv Hty) in Hkv'. subst kv'. destruct Hup as [Hi' ->]; simpl.
    { apply Hsys. simpl. intros id u [? ?]%lookup_delete_Some. right. split; [eauto|congruence]. }
    { intros id ?. rewrite lookup_delete_ne by congruence. done. }
    { apply lookup_delete_eq. }
    split; [done|]. rewrite Hsame by done. apply rt_refl.
Qed.

(** ** Every step is a sequence of atomic steps *)

Definition nsimulated s (acts : list action) s' : Prop := netinv s' ∧ rtrace (nabs s) acts (nabs s').

Lemma state_eta (a : Spec.state) i c : aclerks a !! i = Some c → mkState (amap a) (<[i := c]> (aclerks a)) = a.
Proof. intros Hi. rewrite list_insert_id by done. by destruct a. Qed.

Lemma flat_lookup s i nc : ns_clerks s !! i = Some nc → clerks (flat s) !! i = Some (nc_clerk nc).
Proof. intros Hi. simpl. by rewrite list_lookup_fmap, Hi. Qed.

Lemma invoke_simulated s i nc r c o e s' :
  netinv s → ns_clerks s !! i = Some nc → nc_clerk nc = Idle r → busy c →
  step e (flat s) = Some (mkSystem (srv (flat s)) (<[i := c]> (clerks (flat s)))) →
  calling (MessageMap (server (ns_net s))) c = APending o →
  startCall i nc c s = Some s' → nsimulated s [ACall i o] s'.
Proof.
  intros Hinv Hi Hc Hb Hst Ho H. pose proof (nabs_lookup _ _ _ Hi) as Habs. unfold nabsClerk in Habs. rewrite Hc in Habs.
  destruct (startCall_inv s i nc c s' Hinv Hi Hb) as (Hinv' & Hab & _); [by rewrite Hc| |done|].
  { by destruct (step_simulated _ _ _ (ni_flat _ Hinv) Hst) as [? _]. }
  split; [done|]. rewrite Hab, Ho. apply rt_once. by eapply a_invoke.
Qed.

(** A call that failed is made again. *)
Lemma retry_simulated s i nc q s' :
  netinv s → ns_clerks s !! i = Some nc → reqs (ns_net s) !! nc_req nc = Some q → returned q →
  startCall i nc (nc_clerk nc) s = Some s' →
  nsimulated s [] s' ∧ nc_clerk <$> ns_clerks s' !! i = Some (nc_clerk nc) ∧ busy (nc_clerk nc).
Proof.
  intros Hinv Hi Hq Hret H. assert (busy (nc_clerk nc)) as Hb.
  { unfold startCall in H. destruct (nc_clerk nc); [|done..]. by apply bind_Some in H as (? & ? & _). }
  pose proof (nabs_lookup _ _ _ Hi) as Habs.
  destruct (startCall_inv s i nc (nc_clerk nc) s' Hinv Hi Hb) as (Hinv' & Hab & Hc'); [by intros _ ? ?; simplify_eq| |done|].
  { rewrite list_insert_id by (by rewrite list_lookup_fmap, Hi). apply Hinv. }
  split_and!; [split; [done|]|done|done]. rewrite Hab. set (a := nabs s) in *. clearbody a. unfold nabsClerk in Habs.
  destruct (nc_clerk nc) as [|args| |] eqn:Ec; [done| |rewrite state_eta by done; apply rt_refl..].
  simpl. rewrite Hq in Habs. simpl in Habs. destruct (q_exec q) as [|?|r]; [rewrite state_eta by done; apply rt_refl..|].
  eapply rt_retry; [exact Habs|apply rt_refl].
Qed.

Lemma reply_simulated s i nc q b s' :
  netinv s → ns_clerks s !! i = Some nc → reqs (ns_net s) !! nc_req nc = Some q → q_pc q = QReturned (Some b) →
  callReturned i nc (Some b) s = Some s' →
  nsimulated s (nobserve (NReturn i) s') s'.
Proof.
  intros Hinv Hi Hq Hpc H. pose proof (n_reqs _ (ni_net _ Hinv) _ _ Hq) as Hcons. unfold consistent in Hcons. rewrite Hpc in Hcons.
  destruct (q_exec q) as [|?|r] eqn:Hx; [tauto|tauto|]. destruct Hcons as (_ & _ & ->).
  pose proof (nabs_lookup _ _ _ Hi) as Habs. pose proof (lookup_lt_Some _ _ _ Hi) as Hlt.
  assert (∀ q', reqs (ns_net s) !! nc_req nc = Some q' → returned q') as Hret by (intros q' Hq'; simplify_eq; by eexists).
  assert (busy (nc_clerk nc) → answered (server (ns_net s)) (nc_clerk nc) r) as Hans.
  { intros Hb. destruct (ni_current _ Hinv _ _ Hi Hb) as (q' & Hq' & _ & Ha). simplify_eq. auto. }
  pose proof (λ v, finish_inv s i nc v Hinv Hi) as Hfin. simpl in H. unfold nsimulated.
  pose proof (λ c s', startCall_inv s i nc c s' Hinv Hi) as Hcall.
  set (a := nabs s) in *. clearbody a. unfold nabsClerk in Habs.
  destruct (nc_clerk nc) as [|args|op args|op args reply] eqn:Ec; [done| | |]; specialize (Hans I).
  - apply bind_Some in H as (reply & Hdec & [= <-]). destruct (Hfin (gr_Value reply) I Hret) as [Hinv' Hab]; [done|].
    split; [done|]. rewrite Hab. simpl. rewrite list_lookup_insert_eq by done. simpl. apply rt_once.
    rewrite Hq in Habs. simpl in Habs. rewrite Hx in Habs. simpl in Habs. rewrite Hdec in Habs. by eapply (a_return a).
  - apply bind_Some in H as (reply & Hdec & H). destruct Hans as (v & Hv & Hdec').
    assert (reply = mkPutAppendReply (recorded op v)) as -> by congruence.
    eapply Hcall in H as (Hinv' & Hab & Hc'); [|done|done|].
    + split; [done|]. rewrite Hab. simpl in Habs |- *. rewrite Hc'. simpl. rewrite Hv in Habs.
      assert (absOp op (mkPutAppendArgs (pa_Key args) (pa_Value args) (pa_RequestId args) Report) = absOp op args) as -> by by destruct op.
      rewrite state_eta by done. apply rt_refl.
    + eapply (inv_update (flat s)); [apply Hinv|by apply flat_lookup|rewrite Ec; by left|done|].
      intros id u Hu. rewrite Ec. simpl. destruct (decide (pa_RequestId args = id)) as [->|?]; [by left|right; split; [eauto|congruence]].
  - apply bind_Some in H as (reply' & _ & [= <-]). destruct (Hfin (par_Value reply) I Hret) as [Hinv' Hab].
    { simpl in Hans |- *. by intros id [= <-]. }
    split; [done|]. rewrite Hab. simpl. rewrite list_lookup_insert_eq by done. simpl. apply rt_once. by eapply (a_return a).
Qed.

Lemma nstep_simulated s ev s' : netinv s → nstep ev s = Some s' → nsimulated s (nobserve ev s') s'.
Proof.
  intros Hinv H. destruct ev as [i key|i op key value id|i|e]; simpl in H.
  - apply bind_Some in H as (nc & Hi & H). destruct (nc_clerk nc) as [r| | |] eqn:Ec; try done.
    apply (invoke_simulated s i nc r (beginGet key) (AGet key) (InvokeGet i key)); try done. simpl. rewrite list_lookup_fmap, Hi. simpl. by rewrite Ec.
  - apply bind_Some in H as (nc & Hi & H). destruct (nc_clerk nc) as [r| | |] eqn:Ec; try done.
    destruct (fresh id (flat s)) eqn:Hf; [|done].
    apply (invoke_simulated s i nc r (beginPutAppend op key value id) _ (InvokePutAppend i op key value id)); try done.
    + unfold step. rewrite (flat_lookup _ _ _ Hi), Ec. simpl mbind. by rewrite Hf.
    + unfold fresh in Hf. apply andb_true_iff in Hf as [Hn%bool_decide_eq_true _]. simpl in *. by rewrite Hn.
  - apply bind_Some in H as (nc & Hi & H). apply bind_Some in H as (q & Hq & H). destruct (q_pc q) as [| | | | | |[b|]] eqn:Hpc; try done.
    + by eapply reply_simulated.
    + destruct (retry_simulated s i nc q s' Hinv Hi Hq) as (Hs & Hc & Hb); [by eexists|done|]. simpl. rewrite Hc.
      by destruct (nc_clerk nc).
  - assert ((∃ k, e = EvRun k) ∨ runsNothing e = true) as [[k ->]|Hr].
    { destruct e; try (by right); try (left; by eexists). destruct (tuning op) eqn:E; [by right|done]. }
    + apply bind_Some in H as (n' & Hn & [= <-]). by eapply run_inv.
    + assert (∃ n', LabRpc.step e (ns_net s) = Some n' ∧ s' = mkNetsys n' (ns_clerks s)) as (n' & Hn & ->).
      { destruct e; simpl in Hr; try done; simpl in H; try rewrite Hr in H; apply bind_Some in H as (n' & Hn & [= <-]); by exists n'. }
      destruct (quiet_inv _ _ _ Hinv Hn Hr) as [? E]. split; [done|]. rewrite E. apply rt_refl.
Qed.

Lemma nsteps_simulated es s s' : netinv s → nsteps es s = Some s' → nsimulated s (ntrace es s) s'.
Proof.
  unfold nsteps. revert s. induction es as [|e es IH]; intros s Hinv H; simpl in H |- *.
  - injection H as <-. split; [done|apply rt_refl].
  - destruct (nstep e s) as [s1|] eqn:E; [|done]. simpl in H. destruct (nstep_simulated _ _ _ Hinv E) as [Hinv' Hs].
    destruct (IH _ Hinv' H) as [? ?]. split; [done|by eapply rt_trans].
Qed.
End refinement.

(** ** The test and its network *)

(** [cfg := make_config(t, unreliable)], and [cfg.makeClient()] for each client. *)
Definition makeClients (svc : Service KVServer) (emptyName : Z) (unreliable : bool) (ends : list Z)
    : RaftHarness.outcome ServiceHarness.KvSrvHarness.config :=
  RaftHarness.foldO (λ c e,
    match ServiceHarness.KvSrvHarness.makeClient emptyName e c with
    | RaftHarness.Done (_, c) => RaftHarness.Done c
    | RaftHarness.Fatal err => RaftHarness.Fatal err
    | RaftHarness.Panic => RaftHarness.Panic
    end) ends (ServiceHarness.KvSrvHarness.make_config svc unreliable).

Section theorem.
Context `{!Gob GetArgs, !Gob GetReply, !Gob PutAppendArgs, !Gob PutAppendReply}.
Context `{!GobLaws GetArgs, !GobLaws GetReply, !GobLaws PutAppendArgs, !GobLaws PutAppendReply}.

(** The clients at the start of the test. *)
Definition testStart (cfg : ServiceHarness.KvSrvHarness.config) (ends : list Z) : netsys :=
  ninit (ServiceHarness.KvSrvHarness.net cfg) ends.

Lemma makeClients_heap emptyName unreliable ends cfg :
  makeClients kvService emptyName unreliable ends = RaftHarness.Done cfg →
  heap (ServiceHarness.KvSrvHarness.net cfg) = [(AddService kvService MakeServer, StartKVServer)].
Proof.
  unfold makeClients.
  apply (RaftHarnessFacts.foldO_inv (λ c, heap (ServiceHarness.KvSrvHarness.net c) = [(AddService kvService MakeServer, StartKVServer)])); [|done]. intros e c c' _ Hc H.
  unfold ServiceHarness.KvSrvHarness.makeClient, ServiceHarness.openEnd, MakeEnd in H. case_decide; [done|].
  by injection H as <-.
Qed.

Lemma netinv_start rn sv ends :
  heap rn = [(sv, StartKVServer)] → services sv !! "KVServer" = Some kvService → netinv (ninit rn ends).
Proof.
  intros Hh Hsv. assert (∀ i nc, ns_clerks (ninit rn ends) !! i = Some nc → ¬ busy (nc_clerk nc)) as Hidle.
  { intros i nc. simpl. rewrite list_lookup_fmap. destruct (ends !! i); [|done]. simpl. intros [= <-] []. }
  split; simpl; try done.
  - assert (flat (ninit rn ends) = init (length ends)) as ->; [|apply inv_init].
    unfold flat, init, server. simpl. rewrite Hh. f_equal. rewrite <-list_fmap_compose. symmetry. apply list_eq. intros i.
    rewrite list_lookup_fmap. destruct (ends !! i) eqn:E; simpl; [by apply lookup_replicate_2; eapply lookup_lt_Some|].
    apply lookup_ge_None. rewrite length_replicate. by apply lookup_ge_None.
  - split; simpl; [constructor|done|]. by intros k b []%not_elem_of_nil.
  - eauto.
  - intros i nc Hi Hb. by destruct (Hidle i nc).
  - intros i j nc nc' Hi _ Hb. by destruct (Hidle i nc).
Qed.

Lemma nabs_start rn sv ends : heap rn = [(sv, StartKVServer)] → nabs (ninit rn ends) = ainit (length ends).
Proof.
  intros Hh. unfold nabs, ainit, server. simpl. rewrite Hh. simpl. f_equal. rewrite <-list_fmap_compose. symmetry. apply list_eq. intros i.
  rewrite list_lookup_fmap. destruct (ends !! i) eqn:E; simpl; [by apply lookup_replicate_2; eapply lookup_lt_Some|].
  apply lookup_ge_None. rewrite length_replicate. by apply lookup_ge_None.
Qed.

Lemma test_simulated emptyName unreliable ends cfg es s :
  makeClients kvService emptyName unreliable ends = RaftHarness.Done cfg →
  nsteps es (testStart cfg ends) = Some s →
  netinv s ∧ atrace (ainit (length ends)) (ntrace es (testStart cfg ends)) (nabs s).
Proof.
  intros Hc%makeClients_heap Hst.
  assert (netinv (testStart cfg ends)) as Hinv by (eapply netinv_start; [exact Hc|by apply lookup_insert_eq]).
  destruct (nsteps_simulated _ _ _ Hinv Hst) as [? Htr]. split; [done|]. unfold testStart in *.
  erewrite nabs_start in Htr by exact Hc. by apply rtrace_atrace.
Qed.
End theorem.

(** C10: the single-server store on its network refines an atomic map.  On the network its
    harness makes, reliable or not, with requests and replies delayed, reordered and dropped
    and the handlers of other clerks running in between: what the clients see of a run, their
    calls and the values returned, they see of a run of a map with atomic operations, each
    applied once, after its call and before its return; and the requests the server
    remembers are those of operations in progress.  No two requests draw the same number
    from [nrand]. *)
Theorem kvsrv_net_refines_atomic_map
    `{!Gob GetArgs, !Gob GetReply, !Gob PutAppendArgs, !Gob PutAppendReply}
    `{!GobLaws GetArgs, !GobLaws GetReply, !GobLaws PutAppendArgs, !GobLaws PutAppendReply}
    emptyName unreliable ends cfg es s :
  makeClients kvService emptyName unreliable ends = RaftHarness.Done cfg →
  nsteps es (testStart cfg ends) = Some s →
  atrace (ainit (length ends)) (ntrace es (testStart cfg ends)) (nabs s) ∧
  amap (nabs s) = data (server (ns_net s)) ∧
  ∀ id, is_Some (MessageMap (server (ns_net s)) !! id) →
    ∃ i nc, ns_clerks s !! i = Some nc ∧ idOf (nc_clerk nc) = Some id.
Proof.
  intros Hc Hst. destruct (test_simulated _ _ _ _ _ _ Hc Hst) as [Hinv Htr]. split_and!; [done|done|].
  intros id [v Hv]. destruct (inv_messages _ (ni_flat _ Hinv) _ _ Hv) as (i & c & Hi & Hid).
  simpl in Hi. rewrite list_lookup_fmap in Hi. destruct (ns_clerks s !! i) as [nc|] eqn:E; [|done]. simplify_eq/=. eauto.
Qed.

(** ** A run *)

#[export] Instance GetArgs_eq_dec : EqDecision GetArgs.
Proof. solve_decision. Defined.
#[export] Instance GetReply_eq_dec : EqDecision GetReply.
Proof. solve_decision. Defined.
#[export] Instance PutAppendArgs_eq_dec : EqDecision PutAppendArgs.
Proof. solve_decision. Defined.
#[export] Instance PutAppendReply_eq_dec : EqDecision PutAppendReply.
Proof. solve_decision. Defined.

#[export] Instance GetArgs_countable : Countable GetArgs :=
  inj_countable' ga_Key mkGetArgs (λ a, match a with mkGetArgs _ => eq_refl end).
#[export] Instance GetReply_countable : Countable GetReply :=
  inj_countable' gr_Value mkGetReply (λ a, match a with mkGetReply _ => eq_refl end).
#[export] Instance PutAppendArgs_countable : Countable PutAppendArgs :=
  inj_countable' (λ a, (pa_Key a, pa_Value a, pa_RequestId a, pa_RequestType a))
    (λ p, match p with (k, v, i, t) => mkPutAppendArgs k v i t end)
    (λ a, match a with mkPutAppendArgs _ _ _ _ => eq_refl end).
#[export] Instance PutAppendReply_countable : Countable PutAppendReply :=
  inj_countable' par_Value mkPutAppendReply (λ a, match a with mkPutAppendReply _ => eq_refl end).

#[export] Instance GetArgs_gob : Gob GetArgs := countable_gob GetArgs.
#[export] Instance GetReply_gob : Gob GetReply := countable_gob GetReply.
#[export] Instance PutAppendArgs_gob : Gob PutAppendArgs := countable_gob PutAppendArgs.
#[export] Instance PutAppendReply_gob : Gob PutAppendReply := countable_gob PutAppendReply.
#[export] Instance GetArgs_gob_laws : GobLaws GetArgs := countable_gob_laws GetArgs.
#[export] Instance GetReply_gob_laws : GobLaws GetReply := countable_gob_laws GetReply.
#[export] Instance PutAppendArgs_gob_laws : GobLaws PutAppendArgs := countable_gob_laws PutAppendArgs.
#[export] Instance PutAppendReply_gob_laws : GobLaws PutAppendReply := countable_gob_laws PutAppendReply.

(** Request [k] is executed and answered; it is executed and the answer is dropped. *)
Definition answeredCall (k : nat) : list nevent :=
  NNet <$> [EvAccept k; EvExecute k; EvRun k; EvGotReply k; EvFinish k false; EvReturn k].
Definition droppedReply (k : nat) : list nevent :=
  NNet <$> [EvAccept k; EvExecute k; EvRun k; EvGotReply k; EvFinish k true].

(** Clerk 0 appends, its reply is dropped and it sends the request again; clerk 1 reads while
    the second answer is on its way, and its first read is lost. *)
Definition exampleNetRun : list nevent :=
  [NInvokePutAppend 0 OpAppend "k" "a" 7] ++ droppedReply 0 ++ [NReturn 0; NInvokeGet 1 "k"] ++
  droppedReply 2 ++ [NReturn 1] ++ answeredCall 1 ++ answeredCall 3 ++ [NReturn 1; NReturn 0] ++ answeredCall 4 ++ [NReturn 0].

Definition exampleCfg : ServiceHarness.KvSrvHarness.config :=
  match makeClients kvService 0 true [11; 12] with
  | RaftHarness.Done cfg => cfg
  | _ => ServiceHarness.KvSrvHarness.make_config kvService true
  end.

Definition exampleNetEnd : netsys :=
  default (testStart exampleCfg [11; 12]) (nsteps exampleNetRun (testStart exampleCfg [11; 12])).

(** A computation that has a result has the one named by its default. *)
Lemma has_result {A} (x : option A) (d : A) : (if x then true else false) = true → x = Some (default d x).
Proof. by destruct x. Qed.
Lemma done_result {A} (x : RaftHarness.outcome A) (d : A) :
  (match x with RaftHarness.Done _ => true | _ => false end) = true → x = RaftHarness.Done (match x with RaftHarness.Done a => a | _ => d end).
Proof. by destruct x. Qed.

Lemma kvsrv_net_refines_atomic_map_witness :
  ntrace exampleNetRun (testStart exampleCfg [11; 12]) =
    [ACall 0 (AAppend "k" "a"); ACall 1 (AGet "k"); AReturn 1 "a"; AReturn 0 ""]%string ∧
  nsteps exampleNetRun (testStart exampleCfg [11; 12]) = Some exampleNetEnd ∧
  atrace (ainit 2) (ntrace exampleNetRun (testStart exampleCfg [11; 12])) (nabs exampleNetEnd).
Proof.
  assert (nsteps exampleNetRun (testStart exampleCfg [11; 12]) = Some exampleNetEnd) as Hrun
    by (apply has_result; vm_compute; reflexivity).
  split; [vm_compute; reflexivity|]. split; [exact Hrun|].
  refine (proj1 (kvsrv_net_refines_atomic_map 0 true [11; 12] exampleCfg exampleNetRun exampleNetEnd _ Hrun)).
  apply done_result. vm_compute. reflexivity.
Defined.
