(* ===== verification/Bitset.v ===== *)
(** * Bit sets of the linearizability checker

    [porcupine/bitset.go]: a set of positions stored in 64-bit words.  The
    operations are translated with their bit arithmetic; [member] is the set a
    slice of words stands for, and the lemmas show that every operation acts on
    it as the operation of the same name on sets. *)

From S2P Require Import Prelude.
Open Scope go_scope.

(** [type bitset []uint64] *)
Abbreviation bitset := (list Z) (only parsing).

(** [func newBitset(bits uint) bitset] *)
Definition newBitset (bits : Z) : bitset :=
  let extra := if negb (bits mod 64 =? 0) then 1 else 0 in
  replicate (Z.to_nat (bits / 64 + extra)) 0.

(** [func (b bitset) clone() bitset]: a slice of its own with the same words;
    slices are values here, so writing to the copy leaves the original alone. *)
Definition clone (b : bitset) : bitset := take (length b) b.

(** [func bitsetIndex(pos uint) (uint, uint)] *)
Definition bitsetIndex (pos : Z) : Z * Z := (pos / 64, pos mod 64).

(** [func (b bitset) set(pos uint) bitset]: [None] is the index panic. *)
Definition set (b : bitset) (pos : Z) : option bitset :=
  let '(major, minor) := bitsetIndex pos in
  w ← idx b major; upd b major (Z.lor w (Z.shiftl 1 minor)).

(** [func (b bitset) clear(pos uint) bitset] *)
Definition clear (b : bitset) (pos : Z) : option bitset :=
  let '(major, minor) := bitsetIndex pos in
  w ← idx b major; upd b major (Z.ldiff w (Z.shiftl 1 minor)).

(** [func (b bitset) get(pos uint) bool] *)
Definition get (b : bitset) (pos : Z) : option bool :=
  let '(major, minor) := bitsetIndex pos in
  w ← idx b major; Some (negb (Z.land w (Z.shiftl 1 minor) =? 0)).

(** [bits.OnesCount64] *)
Definition onesCount64 (w : Z) : Z := foldl (λ acc i, acc + Z.b2z (Z.testbit w i)) 0 (seqZ 0 64).

(** [func (b bitset) popcnt() uint] *)
Definition popcnt (b : bitset) : Z := foldl (λ total v, total + onesCount64 v) 0 b.

(** [func (b bitset) hash() uint64] *)
Definition hash (b : bitset) : Z := foldl Z.lxor (popcnt b) b.

(** [func (b bitset) equals(b2 bitset) bool] *)
Definition equals (b b2 : bitset) : bool :=
  if negb (zlen b =? zlen b2) then false
  else forallb (λ i, bool_decide (idx b i = idx b2 i)) (range 0 (zlen b)).

(** ** The set a slice stands for *)

Definition member (b : bitset) (i : Z) : bool :=
  match idx b (i / 64) with Some w => Z.testbit w (i mod 64) | None => false end.

(** Words of 64 bits. *)
Definition wf (b : bitset) : Prop := Forall (λ w, 0 ≤ w < 2 ^ 64) b.

(** Positions the slice has room for. *)
Definition room (b : bitset) (i : Z) : Prop := 0 ≤ i < 64 * zlen b.

(** ** Words *)

Lemma word_bound w : 0 ≤ w → (∀ i, 64 ≤ i → Z.testbit w i = false) → w < 2 ^ 64.
Proof.
  intros H0 H. destruct (Z.lt_ge_cases w (2 ^ 64)) as [?|Hge]; [done|exfalso].
  pose proof (proj1 (Z.log2_le_pow2 w 64 ltac:(lia)) Hge) as Hl.
  pose proof (Z.bit_log2 w ltac:(lia)). rewrite H in *; [done|lia].
Qed.

Lemma word_high w i : 0 ≤ w < 2 ^ 64 → 64 ≤ i → Z.testbit w i = false.
Proof.
  intros Hw Hi. destruct (decide (w = 0)) as [->|?]; [apply Z.bits_0|].
  apply Z.bits_above_log2; [lia|]. apply Z.log2_lt_pow2; [lia|].
  pose proof (Z.pow_le_mono_r 2 64 i). lia.
Qed.

Lemma bit_shift1 m i : 0 ≤ m → 0 ≤ i → Z.testbit (Z.shiftl 1 m) i = (i =? m).
Proof.
  intros Hm Hi. rewrite Z.shiftl_1_l. destruct (Z.eqb_spec i m) as [->|Hne].
  - by apply Z.pow2_bits_true.
  - by apply Z.pow2_bits_false; lia.
Qed.

Lemma minor_bound i : 0 ≤ i mod 64 < 64.
Proof. apply Z.mod_pos_bound. lia. Qed.

Lemma lor_word w m : 0 ≤ w < 2 ^ 64 → 0 ≤ m < 64 → 0 ≤ Z.lor w (Z.shiftl 1 m) < 2 ^ 64.
Proof.
  intros Hw Hm. assert (0 ≤ Z.shiftl 1 m) by (apply Z.shiftl_nonneg; lia).
  split; [apply Z.lor_nonneg; lia|]. apply word_bound; [apply Z.lor_nonneg; lia|].
  intros i Hi. rewrite Z.lor_spec, word_high, bit_shift1 by lia. simpl. lia.
Qed.

Lemma ldiff_word w m : 0 ≤ w < 2 ^ 64 → 0 ≤ Z.ldiff w (Z.shiftl 1 m) < 2 ^ 64.
Proof.
  intros Hw. assert (0 ≤ Z.ldiff w (Z.shiftl 1 m)) by (apply Z.ldiff_nonneg; lia).
  split; [done|]. apply word_bound; [done|]. intros i Hi. by rewrite Z.ldiff_spec, word_high by lia.
Qed.

(** ** The operations on the set *)

Lemma room_idx b i : room b i → is_Some (idx b (i / 64)).
Proof. intros [H0 H1]. apply idx_is_Some. split; [apply Z.div_pos; lia|]. apply Z.div_lt_upper_bound; lia. Qed.

Lemma member_insert b i w x j :
  room b i → idx b (i / 64) = Some w →
  member (<[Z.to_nat (i / 64) := x]> b) j = if (j / 64 =? i / 64) then Z.testbit x (j mod 64) else member b j.
Proof.
  intros [H0 H1] Hw. apply idx_lt in Hw. unfold member. destruct (Z.eqb_spec (j / 64) (i / 64)) as [E|E].
  - by rewrite E, idx_insert_eq.
  - rewrite idx_insert_ne; [done|lia|congruence].
Qed.

Lemma same_pos i j : (j =? i) = (j / 64 =? i / 64) && (j mod 64 =? i mod 64).
Proof.
  pose proof (Z.div_mod i 64 ltac:(lia)). pose proof (Z.div_mod j 64 ltac:(lia)).
  destruct (Z.eqb_spec j i) as [->|]; [by rewrite !Z.eqb_refl|].
  destruct (Z.eqb_spec (j / 64) (i / 64)); [|done]. destruct (Z.eqb_spec (j mod 64) (i mod 64)); [|done].
  exfalso. lia.
Qed.

(** The shape of [set] and [clear]: one word replaced. *)
Lemma update_spec (f : Z → Z → Z) (g : bool → bool → bool) b i :
  (∀ w j, Z.testbit (f w (Z.shiftl 1 (i mod 64))) j = g (Z.testbit w j) (Z.testbit (Z.shiftl 1 (i mod 64)) j)) →
  (∀ w, 0 ≤ w < 2 ^ 64 → 0 ≤ f w (Z.shiftl 1 (i mod 64)) < 2 ^ 64) → (∀ x, g x false = x) →
  wf b → room b i →
  ∃ b', (w ← idx b (i / 64); upd b (i / 64) (f w (Z.shiftl 1 (i mod 64)))) = Some b' ∧ wf b' ∧ length b' = length b ∧
        ∀ j, member b' j = if j =? i then g (member b j) true else member b j.
Proof.
  intros Hf Hw Hg Hwf Hr. destruct (room_idx _ _ Hr) as [w Hi]. rewrite Hi. simpl.
  unfold upd. pose proof (idx_lt _ _ _ Hi) as Hlt.
  replace ((0 <=? i / 64) && (i / 64 <? zlen b)) with true by (symmetry; bool_simpl; lia).
  eexists. split_and!; [done| | |].
  - apply Forall_insert; [done|]. apply Hw. apply idx_elem_of in Hi. unfold wf in Hwf. by eapply Forall_forall in Hwf.
  - by rewrite length_insert.
  - intros j. rewrite (member_insert _ _ w) by done. rewrite (same_pos i j). unfold member.
    destruct (Z.eqb_spec (j / 64) (i / 64)) as [E|E]; simpl; [|done]. rewrite E, Hi, Hf, bit_shift1 by (apply minor_bound).
    destruct (j mod 64 =? i mod 64); [done|apply Hg].
Qed.

Lemma set_spec b i : wf b → room b i →
  ∃ b', set b i = Some b' ∧ wf b' ∧ length b' = length b ∧ ∀ j, member b' j = (j =? i) || member b j.
Proof.
  intros Hwf Hr.
  destruct (update_spec Z.lor orb b i) as (b' & H & ? & ? & Hm); [intros; apply Z.lor_spec| |by intros []|done|done|].
  { intros. apply lor_word; [done|apply minor_bound]. }
  exists b'. split_and!; [done..|]. intros j. rewrite Hm. destruct (j =? i); [by destruct (member b j)|done].
Qed.

Lemma clear_spec b i : wf b → room b i →
  ∃ b', clear b i = Some b' ∧ wf b' ∧ length b' = length b ∧ ∀ j, member b' j = negb (j =? i) && member b j.
Proof.
  intros Hwf Hr.
  destruct (update_spec Z.ldiff (λ x y, x && negb y) b i) as (b' & H & ? & ? & Hm);
    [intros; apply Z.ldiff_spec| |by intros []|done|done|].
  { intros. by apply ldiff_word. }
  exists b'. split_and!; [done..|]. intros j. rewrite Hm. destruct (j =? i); [by destruct (member b j)|done].
Qed.

Lemma get_spec b i : room b i → get b i = Some (member b i).
Proof.
  intros Hr. destruct (room_idx _ _ Hr) as [w Hi]. unfold get, bitsetIndex, member. rewrite Hi. simpl. f_equal.
  pose proof (minor_bound i) as Hm. destruct (Z.testbit w (i mod 64)) eqn:E.
  - apply negb_true_iff, Z.eqb_neq. intros H0. apply (f_equal (λ z, Z.testbit z (i mod 64))) in H0.
    rewrite Z.land_spec, E, bit_shift1, Z.eqb_refl, Z.bits_0 in H0 by lia. done.
  - apply negb_false_iff, Z.eqb_eq. apply Z.bits_inj'. intros j Hj. rewrite Z.land_spec, bit_shift1, Z.bits_0 by lia.
    destruct (Z.eqb_spec j (i mod 64)) as [->|]; [by rewrite E|by rewrite andb_false_r].
Qed.

Lemma newBitset_spec n : 0 ≤ n →
  wf (newBitset n) ∧ (∀ i, 0 ≤ i < n → room (newBitset n) i) ∧ ∀ i, member (newBitset n) i = false.
Proof.
  intros Hn. unfold newBitset. set (k := Z.to_nat _). split_and!.
  - apply Forall_replicate. lia.
  - intros i Hi. unfold room, zlen. rewrite length_replicate. subst k.
    pose proof (Z.div_mod n 64 ltac:(lia)). pose proof (minor_bound n). pose proof (Z.div_pos n 64 ltac:(lia) ltac:(lia)).
    destruct (Z.eqb_spec (n mod 64) 0); simpl; lia.
  - intros i. unfold member. destruct (idx _ _) as [w|] eqn:E; [|done].
    apply idx_elem_of, elem_of_replicate in E as [-> _]. apply Z.bits_0.
Qed.

Lemma equals_eq b b' : equals b b' = true ↔ b = b'.
Proof.
  unfold equals. destruct (Z.eqb_spec (zlen b) (zlen b')) as [El|El]; simpl.
  - rewrite forallb_forall. split.
    + intros H. apply list_eq. intros i. destruct (decide (i < length b)%nat) as [Hi|Hi].
      * specialize (H (Z.of_nat i)). rewrite bool_decide_eq_true, !idx_of_nat in H. apply H.
        apply list_elem_of_In, elem_of_seqZ. unfold zlen in *. lia.
      * unfold zlen in El. rewrite !lookup_ge_None_2 by lia. done.
    + intros -> i _. by apply bool_decide_eq_true.
  - split; [done|]. intros ->. done.
Qed.

Lemma member_ext b b' : wf b → wf b' → length b = length b' → (∀ i, 0 ≤ i → member b i = member b' i) → b = b'.
Proof.
  intros Hb Hb' Hl Hm. apply list_eq_same_length with (length b); [done|done|].
  intros k x y Hk Hx Hy. apply Z.bits_inj'. intros j Hj.
  unfold wf in *. rewrite Forall_lookup in Hb, Hb'. specialize (Hb _ _ Hx). specialize (Hb' _ _ Hy).
  destruct (Z.lt_ge_cases j 64) as [Hlt|Hge]; [|by rewrite !word_high].
  specialize (Hm (64 * Z.of_nat k + j) ltac:(lia)). unfold member in Hm.
  replace ((64 * Z.of_nat k + j) / 64) with (Z.of_nat k) in Hm by (apply Z.div_unique with j; lia).
  replace ((64 * Z.of_nat k + j) mod 64) with j in Hm by (apply Z.mod_unique with (Z.of_nat k); lia).
  by rewrite !idx_of_nat, Hx, Hy in Hm.
Qed.

(** ** Counting *)

(** The positions of a set, in order. *)
Definition positions (b : bitset) : list Z := filter (λ i, member b i = true) (seqZ 0 (64 * zlen b)).

Lemma foldl_add {A} (f : A → Z) l a : foldl (λ t x, t + f x) a l = a + foldl (λ t x, t + f x) 0 l.
Proof. revert a. induction l as [|x l IH]; intros a; cbn [foldl]; [lia|]. rewrite IH, (IH (0 + f x)). lia. Qed.

Lemma count_filter (P : Z → bool) l : foldl (λ t i, t + Z.b2z (P i)) 0 l = zlen (filter (λ i, P i = true) l).
Proof.
  induction l as [|x l IH]; [done|]. cbn [foldl]. rewrite foldl_add, IH, filter_cons.
  destruct (P x); simpl; rewrite ?zlen_cons; lia.
Qed.

Lemma member_cons w b i : 0 ≤ i → member (w :: b) i = if i <? 64 then Z.testbit w i else member b (i - 64).
Proof.
  intros Hi. unfold member. destruct (Z.ltb_spec i 64).
  - by rewrite Z.div_small, Z.mod_small, idx_cons_0 by lia.
  - assert (1 ≤ i / 64) by (apply Z.div_le_lower_bound; lia).
    rewrite idx_cons_pos by lia. replace (i - 64) with (i + (-1) * 64) by lia.
    rewrite Z.div_add, Z.mod_add by lia. done.
Qed.

Lemma filter_ext_in {A} (P Q : A → bool) (l : list A) :
  (∀ x, x ∈ l → P x = Q x) → filter (λ x, P x = true) l = filter (λ x, Q x = true) l.
Proof.
  induction l as [|x l IH]; intros H; [done|]. rewrite !filter_cons, (H x) by set_solver.
  rewrite IH by set_solver. done.
Qed.

Lemma filter_fmap_comm {A B} (f : A → B) (P : B → bool) (l : list A) :
  filter (λ x, P x = true) (f <$> l) = f <$> filter (λ x, P (f x) = true) l.
Proof.
  induction l as [|x l IH]; [done|]. rewrite fmap_cons, !filter_cons, IH. by destruct (P (f x)).
Qed.

Lemma positions_cons w b :
  positions (w :: b) = filter (λ i, Z.testbit w i = true) (seqZ 0 64) ++ (Z.add 64 <$> positions b).
Proof.
  unfold positions. rewrite zlen_cons. pose proof (zlen_nonneg b).
  replace (64 * (1 + zlen b)) with (64 + 64 * zlen b) by lia. rewrite seqZ_app, filter_app by lia. apply f_equal2.
  - apply filter_ext_in. intros i [? ?]%elem_of_seqZ.
    rewrite member_cons by lia. replace (i <? 64) with true by lia. done.
  - rewrite Z.add_comm, <-fmap_add_seqZ, filter_fmap_comm. f_equal.
    apply filter_ext_in. intros i [? ?]%elem_of_seqZ.
    rewrite member_cons by lia. replace (64 + i <? 64) with false by lia. by replace (64 + i - 64) with i by lia.
Qed.

Lemma popcnt_positions b : popcnt b = zlen (positions b).
Proof.
  unfold popcnt. induction b as [|w b IH]; [done|]. cbn [foldl]. rewrite foldl_add, IH, positions_cons, zlen_app.
  unfold onesCount64. rewrite count_filter. unfold zlen. rewrite length_fmap. lia.
Qed.

(** ** Refinement of finite sets *)

Inductive bop := BSet (i : Z) | BClear (i : Z).
Definition bop_pos (op : bop) : Z := match op with BSet i | BClear i => i end.

Definition runWords (ops : list bop) (b : bitset) : option bitset :=
  foldM (λ b op, match op with BSet i => set b i | BClear i => clear b i end) ops b.
Definition runSet (ops : list bop) (s : gset Z) : gset Z :=
  foldl (λ s op, match op with BSet i => {[i]} ∪ s | BClear i => s ∖ {[i]} end) s ops.

(** The words [b] hold the set [s]. *)
Definition holds (b : bitset) (s : gset Z) : Prop := wf b ∧ ∀ i, member b i = bool_decide (i ∈ s).

Lemma runWords_holds ops b s :
  holds b s → Forall (λ op, room b (bop_pos op)) ops →
  ∃ b', runWords ops b = Some b' ∧ length b' = length b ∧ holds b' (runSet ops s).
Proof.
  revert b s. induction ops as [|op ops IH]; intros b s [Hw Hm] Hr; [by exists b|].
  apply Forall_cons in Hr as [Hop Hr]. unfold runWords. simpl.
  assert (∃ b1, (match op with BSet i => set b i | BClear i => clear b i end) = Some b1 ∧ length b1 = length b ∧
    holds b1 (match op with BSet i => {[i]} ∪ s | BClear i => s ∖ {[i]} end)) as (b1 & -> & Hl & Hh).
  { destruct op as [i|i]; simpl in Hop.
    - destruct (set_spec b i) as (b1 & ? & ? & ? & H); [done..|]. exists b1. split_and!; [done..|].
      split; [done|]. intros j. rewrite H, Hm. destruct (Z.eqb_spec j i); repeat case_bool_decide; set_solver.
    - destruct (clear_spec b i) as (b1 & ? & ? & ? & H); [done..|]. exists b1. split_and!; [done..|].
      split; [done|]. intros j. rewrite H, Hm. destruct (Z.eqb_spec j i); repeat case_bool_decide; set_solver. }
  destruct (IH b1 _ Hh) as (b' & ? & ? & ?).
  { eapply Forall_impl; [done|]. unfold room, zlen. by rewrite Hl. }
  exists b'. split_and!; [done|congruence|done].
Qed.

Lemma holds_popcnt b s : holds b s → popcnt b = Z.of_nat (size s).
Proof.
  intros [_ Hm]. rewrite popcnt_positions. replace s with (list_to_set (positions b) : gset Z).
  - rewrite size_list_to_set; [done|]. apply NoDup_filter, NoDup_seqZ.
  - apply set_eq. intros i. rewrite elem_of_list_to_set. unfold positions. rewrite list_elem_of_filter, elem_of_seqZ, Hm.
    rewrite bool_decide_eq_true. split; [tauto|]. intros Hi. split; [done|].
    specialize (Hm i). rewrite bool_decide_true in Hm by done. unfold member in Hm.
    destruct (idx b (i / 64)) eqn:E; [|done]. apply idx_lt in E. pose proof (Z.div_mod i 64). pose proof (minor_bound i). lia.
Qed.

(** Sets in words.  Any sequence of [set] and [clear] on positions below
    the size given to [newBitset] runs without an index panic, and the words then
    answer [get] as the mathematical set the sequence builds, [popcnt] is its
    size, and [equals] decides equality of the sets of two such sequences. *)
Theorem bitset_refines_sets n ops ops' :
  0 ≤ n → Forall (λ op, 0 ≤ bop_pos op < n) (ops ++ ops') →
  ∃ b b', runWords ops (newBitset n) = Some b ∧ runWords ops' (newBitset n) = Some b' ∧
    (∀ i, 0 ≤ i < n → get b i = Some (bool_decide (i ∈ runSet ops ∅))) ∧
    popcnt b = Z.of_nat (size (runSet ops ∅)) ∧
    (equals b b' = true ↔ runSet ops ∅ = runSet ops' ∅).
Proof.
  intros Hn [Ho Ho']%Forall_app. destruct (newBitset_spec n Hn) as (Hw & Hroom & Hm).
  assert (holds (newBitset n) ∅) as H0.
  { split; [done|]. intros i. rewrite Hm. symmetry. apply bool_decide_eq_false. set_solver. }
  assert (∀ l, Forall (λ op, 0 ≤ bop_pos op < n) l → Forall (λ op, room (newBitset n) (bop_pos op)) l) as Hl.
  { intros l Hl. eapply Forall_impl; [exact Hl|]. intros op. apply Hroom. }
  destruct (runWords_holds ops _ _ H0) as (b & Hb & Hlb & Hhb); [auto|].
  destruct (runWords_holds ops' _ _ H0) as (b' & Hb' & Hlb' & Hhb'); [auto|].
  exists b, b'. split_and!; [done|done| |by apply holds_popcnt|].
  - intros i Hi. rewrite get_spec; [by rewrite (proj2 Hhb)|]. unfold room, zlen. rewrite Hlb. by apply Hroom.
  - rewrite equals_eq. split.
    + intros <-. apply set_eq. intros i. destruct Hhb as [_ H1], Hhb' as [_ H2]. specialize (H1 i). specialize (H2 i).
      rewrite H1 in H2. by apply bool_decide_ext in H2 || (repeat case_bool_decide; naive_solver).
    + intros E. destruct Hhb as [? H1], Hhb' as [? H2].
      apply member_ext; [done|done|congruence|]. intros i _. by rewrite H1, H2, E.
Qed.

Lemma bitset_refines_sets_witness : ∃ b b',
  runWords [BSet 3; BSet 70; BClear 3] (newBitset 100) = Some b ∧ runWords [BSet 70] (newBitset 100) = Some b' ∧
  get b 70 = Some true ∧ popcnt b = 1 ∧ equals b b' = true.
Proof.
  destruct (bitset_refines_sets 100 [BSet 3; BSet 70; BClear 3] [BSet 70]) as (b & b' & H1 & H2 & H3 & H4 & H5);
    [lia|by repeat constructor; simpl|].
  exists b, b'. split_and!; [exact H1|exact H2| | |].
  - rewrite (H3 70 ltac:(lia)). vm_compute. reflexivity.
  - rewrite H4. vm_compute. reflexivity.
  - apply H5. vm_compute. reflexivity.
Defined.
