(* ===== verification/Porcupine.v ===== *)
(** * The linearizability checker

    [porcupine/checker.go], [porcupine/model.go] and [porcupine/porcupine.go]:
    histories as entries, the doubly linked list of nodes on a heap, the
    backtracking search [checkSingle] with its cache, and [checkParallel] over the
    partitions.  [V] is [interface{}], [nilV] its [nil]; a state of the model has
    decidable equality, which is what [==] on comparable values gives.  [None] is
    a panic.  The descriptions of operations and states and the information
    collected for the visualization are in [Visualization]. *)

From S2P Require Import Prelude Bitset.
Open Scope go_scope.

(** [const (callEntry entryKind = false; returnEntry = true)] *)
Abbreviation entryKind := bool (only parsing).
Definition callEntry : entryKind := false.
Definition returnEntry : entryKind := true.

(** [type EventKind bool] *)
Abbreviation EventKind := bool (only parsing).
Definition CallEvent : EventKind := false.
Definition ReturnEvent : EventKind := true.

(** [type CheckResult string] *)
Inductive CheckResult := Unknown | Ok | Illegal.

Section porcupine.
Context {V St : Type} (nilV : V) `{!EqDecision St}.

(** [type Operation struct], [type Event struct], [type entry struct] *)
Record Operation := mkOperation { ClientId : Z; Input : V; Call : Z; Output : V; Return : Z }.
Record Event := mkEvent { ev_ClientId : Z; Kind : EventKind; Value : V; Id : Z }.
Record entry := mkEntry { kind : entryKind; value : V; id : Z; time : Z; clientId : Z }.

(** [type Model struct]: a field that is [None] is a [nil] function; the functions
    may panic, for instance on a failed type assertion. *)
Record Model := mkModel {
  Partition : option (list Operation → option (list (list Operation)));
  PartitionEvent : option (list Event → option (list (list Event)));
  Init : St;
  Step : St → V → V → option (bool * St);
  Equal : option (St → St → bool);
}.

Definition NoPartition (history : list Operation) : option (list (list Operation)) := Some [history].
Definition NoPartitionEvent (history : list Event) : option (list (list Event)) := Some [history].
Definition ShallowEqual (state1 state2 : St) : bool := bool_decide (state1 = state2).

(** [func fillDefault(model Model) Model] *)
Definition fillDefault (m : Model) : Model :=
  mkModel
    (Some (match Partition m with None => NoPartition | Some f => f end))
    (Some (match PartitionEvent m with None => NoPartitionEvent | Some f => f end))
    (Init m) (Step m)
    (Some (match Equal m with None => ShallowEqual | Some f => f end)).

(** ** Entries *)

(** [func (a byTime) Less(i, j int) bool] *)
Definition less (a b : entry) : bool :=
  if negb (time a =? time b) then time a <? time b
  else bool_decide (kind a = callEntry) && bool_decide (kind b = returnEntry).

(** [a] may stand before [b] in a sorted slice. *)
Definition entryLe (a b : entry) : Prop := less b a = false.
#[global] Instance entryLe_dec a b : Decision (entryLe a b) := bool_eq_dec (less b a) false.

(** [sort.Sort(byTime(entries))]: some sorted permutation; the order of entries
    none of which is [Less] than the other is not specified. *)
Class EntrySort := go_sort_entries : list entry → list entry.
Class EntrySortLaws (GS : EntrySort) : Prop := {
  entries_perm l : go_sort_entries l ≡ₚ l;
  entries_sorted l : StronglySorted entryLe (go_sort_entries l);
}.

(** The loop of [makeEntries]. *)
Definition opEntries (history : list Operation) : list entry :=
  mjoin (imap (λ i o,
    [mkEntry callEntry (Input o) (Z.of_nat i) (Call o) (ClientId o);
     mkEntry returnEntry (Output o) (Z.of_nat i) (Return o) (ClientId o)]) history).

(** [func makeEntries(history []Operation) []entry] with [sort.Sort] as [go_sort_entries]. *)
Definition makeEntries {GS : EntrySort} (history : list Operation) : list entry := go_sort_entries (opEntries history).

(** [func renumber(events []Event) []Event] *)
Definition renumberStep (acc : list Event * gmap Z Z * Z) (v : Event) : list Event * gmap Z Z * Z :=
  let '(e, m, n) := acc in
  match m !! Id v with
  | Some r => (e ++ [mkEvent (ev_ClientId v) (Kind v) (Value v) r], m, n)
  | None => (e ++ [mkEvent (ev_ClientId v) (Kind v) (Value v) n], <[Id v := n]> m, n + 1)
  end.
Definition renumber (events : list Event) : list Event := (foldl renumberStep ([], ∅, 0) events).1.1.

(** [func convertEntries(events []Event) []entry] *)
Definition convertEntries (events : list Event) : list entry :=
  imap (λ i elem,
    mkEntry (if bool_decide (Kind elem = ReturnEvent) then returnEntry else callEntry)
      (Value elem) (Id elem) (Z.of_nat i) (ev_ClientId elem)) events.

(** ** The linked list *)

(** [type node struct]; a pointer is an index into the heap. *)
Record node := mkNode { nvalue : V; nmatch : option nat; nid : Z; next : option nat; prev : option nat }.
Abbreviation heap := (list node).

Definition setNext (a : nat) (v : option nat) (h : heap) : heap :=
  alter (λ n, mkNode (nvalue n) (nmatch n) (nid n) v (prev n)) a h.
Definition setPrev (a : nat) (v : option nat) (h : heap) : heap :=
  alter (λ n, mkNode (nvalue n) (nmatch n) (nid n) (next n) v) a h.

(** [func insertBefore(n *node, mark *node) *node] *)
Definition insertBefore (n : nat) (mark : option nat) (h : heap) : option heap :=
  match mark with
  | None => Some h
  | Some mk =>
      mkn ← h !! mk;
      let beforeMark := prev mkn in
      let h := setPrev mk (Some n) h in
      let h := setNext n (Some mk) h in
      match beforeMark with
      | Some b => Some (setNext b (Some n) (setPrev n (Some b) h))
      | None => Some h
      end
  end.

(** [func length(n *node) int], with fuel for the walk. *)
Fixpoint lengthFrom (fuel : nat) (n : option nat) (h : heap) : option Z :=
  match n with
  | None => Some 0
  | Some a =>
      match fuel with
      | O => None
      | S fuel => nd ← h !! a; l ← lengthFrom fuel (next nd) h; Some (l + 1)
      end
  end.

(** One iteration of [makeLinkedEntries]: the heap, [match], [root]. *)
Definition linkEntry (elem : entry) (st : heap * gmap Z nat * option nat) : option (heap * gmap Z nat * option nat) :=
  let '(h, mt, root) := st in
  let a := length h in
  if kind elem then
    h' ← insertBefore a root (h ++ [mkNode (value elem) None (id elem) None None]);
    Some (h', <[id elem := a]> mt, Some a)
  else
    h' ← insertBefore a root (h ++ [mkNode (value elem) (mt !! id elem) (id elem) None None]);
    Some (h', mt, Some a).

(** [func makeLinkedEntries(entries []entry) *node]: from the last entry to the first. *)
Definition makeLinkedEntries (entries : list entry) : option (heap * gmap Z nat * option nat) :=
  foldr (λ elem st, st ≫= linkEntry elem) (Some ([], ∅, None)) entries.

(** [x.f.g = v] dereferences [x.f]. *)
Definition nextOf (a : nat) (h : heap) : option (option nat) := next <$> h !! a.
Definition prevOf (a : nat) (h : heap) : option (option nat) := prev <$> h !! a.

(** [func lift(entry *node)] *)
Definition lift (e : nat) (h : heap) : option heap :=
  p ← mjoin (prevOf e h); n ← nextOf e h;
  let h := setNext p n h in
  s ← mjoin (nextOf e h); p' ← prevOf e h;
  let h := setPrev s p' h in
  m ← nmatch <$> h !! e; m ← m;
  q ← mjoin (prevOf m h); t ← nextOf m h;
  let h := setNext q t h in
  t ← nextOf m h;
  match t with
  | Some t => q ← prevOf m h; Some (setPrev t q h)
  | None => Some h
  end.

(** [func unlift(entry *node)] *)
Definition unlift (e : nat) (h : heap) : option heap :=
  m ← nmatch <$> h !! e; m ← m;
  q ← mjoin (prevOf m h);
  let h := setNext q (Some m) h in
  t ← nextOf m h;
  let h := match t with Some t => setPrev t (Some m) h | None => h end in
  p ← mjoin (prevOf e h);
  let h := setNext p (Some e) h in
  s ← mjoin (nextOf e h);
  Some (setPrev s (Some e) h).

(** ** The search *)

(** [type cacheEntry struct], [type callsEntry struct] *)
Record cacheEntry := mkCacheEntry { ce_linearized : bitset; ce_state : St }.
Record callsEntry := mkCallsEntry { cl_entry : nat; cl_state : St }.

Definition modelEqual (m : Model) : St → St → bool := default ShallowEqual (Equal m).

(** [func cacheContains(model, cache, entry) bool] *)
Definition cacheContains (m : Model) (cache : gmap Z (list cacheEntry)) (e : cacheEntry) : bool :=
  existsb (λ elem, equals (ce_linearized e) (ce_linearized elem) && modelEqual m (ce_state e) (ce_state elem))
    (default [] (cache !! hash (ce_linearized e))).

(** The variables of [checkSingle] in its loop. *)
Record search := mkSearch {
  s_heap : heap;
  s_entry : option nat;
  s_state : St;
  s_linearized : bitset;
  s_cache : gmap Z (list cacheEntry);
  s_calls : list callsEntry;
  s_longest : list (option (list Z));
}.

(** [uint(entry.id)] *)
Definition toUint (x : Z) : Z := x mod 2 ^ 64.

(** [seq], the ids of [calls]. *)
Definition callIds (h : heap) (calls : list callsEntry) : option (list Z) :=
  mapM (λ c, nid <$> h !! cl_entry c) calls.

(** The block [if computePartial]. *)
Definition updateLongest (h : heap) (calls : list callsEntry) (longest : list (option (list Z)))
    : option (list (option (list Z))) :=
  seq ← callIds h calls;
  foldM (λ longest i,
    old ← idx longest i;
    if match old with None => true | Some l => zlen l <? zlen calls end
    then upd longest i (Some seq) else Some longest) seq longest.

(** An iteration of the loop: go on, or return. *)
Inductive outcome := Continue (s : search) | Returned (ok : bool) (longest : list (option (list Z))).

(** The branch of a call entry [e] with node [en] and match [mt]. *)
Definition tryCall (m : Model) (head e : nat) (en : node) (mt : nat) (s : search) : option outcome :=
  mn ← s_heap s !! mt;
  stepped ← Step m (s_state s) (nvalue en) (nvalue mn);
  let (ok, newState) := (stepped : bool * St) in
  let skip := mkSearch (s_heap s) (next en) (s_state s) (s_linearized s) (s_cache s) (s_calls s) (s_longest s) in
  if ok then
    newLinearized ← set (clone (s_linearized s)) (toUint (nid en));
    let newCacheEntry := mkCacheEntry newLinearized newState in
    if negb (cacheContains m (s_cache s) newCacheEntry) then
      let h := hash newLinearized in
      let cache := <[h := default [] (s_cache s !! h) ++ [newCacheEntry]]> (s_cache s) in
      let calls := s_calls s ++ [mkCallsEntry e (s_state s)] in
      linearized ← set (s_linearized s) (toUint (nid en));
      hp ← lift e (s_heap s);
      first ← nextOf head hp;
      Some (Continue (mkSearch hp first newState linearized cache calls (s_longest s)))
    else Some (Continue skip)
  else Some (Continue skip).

(** The branch of a return entry. *)
Definition backtrack (computePartial : bool) (s : search) : option outcome :=
  match last (s_calls s) with
  | None => Some (Returned false (s_longest s))
  | Some callsTop =>
      longest ← (if computePartial then updateLongest (s_heap s) (s_calls s) (s_longest s) else Some (s_longest s));
      let e := cl_entry callsTop in
      en ← s_heap s !! e;
      linearized ← clear (s_linearized s) (toUint (nid en));
      let calls := take (length (s_calls s) - 1) (s_calls s) in
      hp ← unlift e (s_heap s);
      nx ← nextOf e hp;
      Some (Continue (mkSearch hp nx (cl_state callsTop) linearized (s_cache s) calls longest))
  end.

(** The body of [for headEntry.next != nil], its condition and what follows the loop. *)
Definition iterate (m : Model) (computePartial : bool) (n : Z) (head : nat) (kill : bool) (s : search)
    : option outcome :=
  first ← nextOf head (s_heap s);
  match first with
  | None =>
      seq ← callIds (s_heap s) (s_calls s);
      longest ← foldM (λ l i, upd l i (Some seq)) (range 0 n) (s_longest s);
      Some (Returned true longest)
  | Some _ =>
      if kill then Some (Returned false (s_longest s)) else
      e ← s_entry s;
      en ← s_heap s !! e;
      match nmatch en with
      | Some mt => tryCall m head e en mt s
      | None => backtrack computePartial s
      end
  end.

(** The loop: [kill i] is the value of the flag at iteration [i]; [None] is out of fuel. *)
Fixpoint searchLoop (m : Model) (computePartial : bool) (n : Z) (head : nat) (kill : nat → bool)
    (fuel : nat) (s : search) : option (option (bool * list (option (list Z)))) :=
  match fuel with
  | O => None
  | S fuel =>
      match iterate m computePartial n head (kill O) s with
      | None => Some None
      | Some (Returned ok longest) => Some (Some (ok, longest))
      | Some (Continue s') => searchLoop m computePartial n head (λ i, kill (S i)) fuel s'
      end
  end.

(** Before the loop: the list, its length, the head; [None] is a panic. *)
Definition startSearch (m : Model) (history : list entry) : option (Z * nat * search) :=
  '(h, _, e) ← makeLinkedEntries history;
  len ← lengthFrom (length h) e h;
  let n := len / 2 in
  let head := length h in
  h ← insertBefore head e (h ++ [mkNode nilV None (-1) None None]);
  Some (n, head, mkSearch h e (Init m) (newBitset n) ∅ [] (replicate (Z.to_nat n) None)).

(** [func checkSingle(model, history, computePartial, kill) (bool, []*[]int)]:
    [None] is out of fuel, [Some None] a panic. *)
Definition checkSingle (fuel : nat) (m : Model) (history : list entry) (computePartial : bool) (kill : nat → bool)
    : option (option (bool * list (option (list Z)))) :=
  match startSearch m history with
  | None => Some None
  | Some (n, head, s) => searchLoop m computePartial n head kill fuel s
  end.

(** ** Partitions *)

(** What the loop of [checkParallel] receives: a result of a goroutine, or the timeout. *)
Inductive arrival := Result (ok : bool) | TimedOut.

(** [checkParallel] from the values received, in order: [None] when they run out,
    that is, when the loop waits for another one. *)
Fixpoint collect (len : Z) (computeInfo : bool) (count : Z) (ok : bool) (arrivals : list arrival) : option CheckResult :=
  match arrivals with
  | [] => None
  | TimedOut :: _ => Some (if negb ok then Illegal else Unknown)
  | Result r :: rest =>
      let count := count + 1 in
      let ok := ok && r in
      if negb ok && negb computeInfo then Some Illegal
      else if len <=? count then Some (if negb ok then Illegal else Ok)
      else collect len computeInfo count ok rest
  end.

(** [func checkParallel(model, history, computeInfo, timeout)], its result. *)
Definition checkParallel (history : list (list entry)) (computeInfo : bool) (arrivals : list arrival) : option CheckResult :=
  collect (zlen history) computeInfo 0 true arrivals.

(** The histories [checkOperations] and [checkEvents] give to [checkParallel]. *)
Definition operationPartitions {GS : EntrySort} (m : Model) (history : list Operation) : option (list (list entry)) :=
  match Partition (fillDefault m) with
  | Some f => (λ partitions : list (list _), makeEntries <$> partitions) <$> f history
  | None => None
  end.
Definition eventPartitions (m : Model) (history : list Event) : option (list (list entry)) :=
  match PartitionEvent (fillDefault m) with
  | Some f => (λ partitions : list (list _), (λ h, convertEntries (renumber h)) <$> partitions) <$> f history
  | None => None
  end.

(** [func checkOperations(model, history, verbose, timeout)] and [checkEvents], on
    what arrives from the goroutines: [None] is a panic, [Some None] the wait for
    another arrival. *)
Definition checkOperations {GS : EntrySort} (m : Model) (history : list Operation) (verbose : bool) (arrivals : list arrival)
    : option (option CheckResult) :=
  l ← operationPartitions m history; Some (checkParallel l verbose arrivals).
Definition checkEvents (m : Model) (history : list Event) (verbose : bool) (arrivals : list arrival)
    : option (option CheckResult) :=
  l ← eventPartitions m history; Some (checkParallel l verbose arrivals).

(** [res == Ok] *)
Definition isOk (r : CheckResult) : bool := match r with Ok => true | _ => false end.

(** The entry points: without a timeout nothing but results arrives. *)
Definition CheckOperations {GS : EntrySort} (m : Model) (history : list Operation) (results : list bool) : option (option bool) :=
  option_map (option_map isOk) (checkOperations m history false (map Result results)).
Definition CheckOperationsTimeout {GS : EntrySort} (m : Model) (history : list Operation) (arrivals : list arrival)
    : option (option CheckResult) := checkOperations m history false arrivals.
Definition CheckOperationsVerbose {GS : EntrySort} (m : Model) (history : list Operation) (arrivals : list arrival)
    : option (option CheckResult) := checkOperations m history true arrivals.
Definition CheckEvents (m : Model) (history : list Event) (results : list bool) : option (option bool) :=
  option_map (option_map isOk) (checkEvents m history false (map Result results)).
Definition CheckEventsTimeout (m : Model) (history : list Event) (arrivals : list arrival)
    : option (option CheckResult) := checkEvents m history false arrivals.
Definition CheckEventsVerbose (m : Model) (history : list Event) (arrivals : list arrival)
    : option (option CheckResult) := checkEvents m history true arrivals.

End porcupine.
Arguments Operation : clear implicits.
Arguments Event : clear implicits.
Arguments entry : clear implicits.
Arguments Model : clear implicits.
Arguments node : clear implicits.
Arguments search : clear implicits.
Arguments outcome : clear implicits.
Arguments EntrySort : clear implicits.

