(* ===== verification/PorcupineSpec.v ===== *)
(** * Linearizability of a history of entries

    [linearization]: an order of the operations that the model accepts and that
    keeps the order of operations that do not overlap.  [linz] is the same
    property built one operation at a time, the way the checker searches: the
    next operation is one whose call comes before every remaining return. *)

From S2P Require Import Prelude Bitset Porcupine.
Open Scope go_scope.

(** ** Filtered lists *)

Lemma filter_split {A} (P : A → Prop) `{∀ x, Decision (P x)} (l : list A) X x Y :
  filter P l = X ++ x :: Y → ∃ X' Y', l = X' ++ x :: Y' ∧ P x ∧ filter P X' = X ∧ filter P Y' = Y.
Proof.
  revert X. induction l as [|a l IH]; intros X E; [by destruct X|].
  rewrite filter_cons in E. destruct (decide (P a)) as [Ha|Ha].
  - destruct X as [|b X]; simpl in E; injection E as -> E.
    + exists [], l. done.
    + destruct (IH X E) as (X' & Y' & -> & ? & <- & <-). exists (b :: X'), Y'. by rewrite filter_cons_True.
  - destruct (IH X E) as (X' & Y' & -> & ? & <- & <-). exists (a :: X'), Y'. by rewrite filter_cons_False.
Qed.

Lemma filter_all {A} (P : A → Prop) `{∀ x, Decision (P x)} (l : list A) : (∀ x, x ∈ l → P x) → filter P l = l.
Proof.
  induction l as [|a l IH]; intros Hl; [done|]. rewrite filter_cons_True by (apply Hl; set_solver).
  rewrite IH; [done|]. intros x Hx. apply Hl. set_solver.
Qed.

Lemma NoDup_fmap_split {A B} (f : A → B) (P : A → Prop) `{∀ x, Decision (P x)} (l : list A) x y :
  NoDup (f <$> filter P l) → x ∈ l → y ∈ l → P x → P y → f x = f y → x = y.
Proof.
  intros Hnd Hx Hy HPx HPy E.
  assert (x ∈ filter P l) as [i Hi]%list_elem_of_lookup by (by apply list_elem_of_filter).
  assert (y ∈ filter P l) as [j Hj]%list_elem_of_lookup by (by apply list_elem_of_filter).
  assert (i = j) as <-; [|congruence].
  eapply NoDup_lookup; [exact Hnd| |]; rewrite list_lookup_fmap, ?Hi, ?Hj; simpl; [done|by rewrite E].
Qed.

(** [i] stands before [j]. *)
Definition before {A} (l : list A) (i j : A) : Prop := ∃ P Q, l = P ++ i :: Q ∧ j ∈ Q.

Lemma before_cons {A} (l : list A) i j k : before l i j → before (k :: l) i j.
Proof. intros (P & Q & -> & ?). by exists (k :: P), Q. Qed.

Lemma before_inv {A} (l : list A) i j k : before (k :: l) i j → (i = k ∧ j ∈ l) ∨ before l i j.
Proof.
  intros (P & Q & E & Hj). destruct P as [|p P]; simpl in E; injection E as -> ->; [by left|].
  right. by exists P, Q.
Qed.

Lemma before_elem {A} (l : list A) i j : before l i j → i ∈ l ∧ j ∈ l.
Proof. intros (P & Q & -> & ?). set_solver. Qed.

Section spec.
Context {V St : Type} (mstep : St → V → V → option (bool * St)).
Implicit Types (R X Y : list (entry V)) (c r x : entry V) (i j : Z) (st : St) (π : list Z).

Definition isCall x : Prop := kind x = callEntry.
Definition isReturn x : Prop := kind x = returnEntry.
#[global] Instance isCall_dec x : Decision (isCall x) := bool_eq_dec _ _.
#[global] Instance isReturn_dec x : Decision (isReturn x) := bool_eq_dec _ _.

Lemma call_or_return x : isCall x ∨ isReturn x.
Proof. unfold isCall, isReturn, callEntry, returnEntry. destruct (kind x); auto. Qed.

Lemma call_not_return x : isCall x → isReturn x → False.
Proof. unfold isCall, isReturn, callEntry, returnEntry. congruence. Qed.

Definition callsOf R : list Z := id <$> filter isCall R.
Definition returnsOf R : list Z := id <$> filter isReturn R.

(** Every operation has one call and one return, the call first. *)
Record wfHistory R : Prop := {
  wf_calls : NoDup (callsOf R);
  wf_returns : NoDup (returnsOf R);
  wf_match X c Y : R = X ++ c :: Y → isCall c → ∃ r, r ∈ Y ∧ isReturn r ∧ id r = id c;
  wf_back r : r ∈ R → isReturn r → ∃ c, c ∈ R ∧ isCall c ∧ id c = id r;
}.

(** Input and output of operation [i]. *)
Definition isOp R i (v w : V) : Prop :=
  ∃ c r, c ∈ R ∧ r ∈ R ∧ isCall c ∧ isReturn r ∧ id c = i ∧ id r = i ∧ value c = v ∧ value r = w.

(** Operation [i] returns before [j] is called. *)
Definition precedes R i j : Prop :=
  ∃ X r Y c, R = X ++ r :: Y ∧ isReturn r ∧ id r = i ∧ c ∈ Y ∧ isCall c ∧ id c = j.

(** The model accepts the operations in this order. *)
Inductive legal R : St → list Z → Prop :=
  | legal_nil st : legal R st []
  | legal_cons i v w st st' π : isOp R i v w → mstep st v w = Some (true, st') → legal R st' π → legal R st (i :: π).

Definition linearization R st π : Prop :=
  π ≡ₚ callsOf R ∧ (∀ i j, precedes R i j → before π i j) ∧ legal R st π.

(** The history without the entries of operation [i]. *)
Definition without i R : list (entry V) := filter (λ x, id x ≠ i) R.

Inductive linz : list (entry V) → St → list Z → Prop :=
  | linz_nil st : linz [] st []
  | linz_cons X c Y r st st' π :
      isCall c → Forall isCall X → r ∈ Y → isReturn r → id r = id c →
      mstep st (value c) (value r) = Some (true, st') →
      linz (without (id c) (X ++ c :: Y)) st' π → linz (X ++ c :: Y) st (id c :: π).

(** ** Well-formed histories *)

(** Of the calls before every return, each stands before any given return. *)
Lemma call_before_return pre x suf X c Y :
  pre ++ x :: suf = X ++ c :: Y → Forall isCall X → isCall c → isReturn x → c ∈ pre.
Proof.
  revert X. induction pre as [|y pre IH]; intros X E HX Hc Hx; simpl in E.
  - exfalso. destruct X as [|z X]; simpl in E; injection E as -> _; [by destruct (call_not_return c)|].
    apply Forall_cons in HX as [Hz _]. by destruct (call_not_return z).
  - destruct X as [|z X]; simpl in E; injection E as -> E; [set_solver|].
    apply Forall_cons in HX as [_ HX]. apply elem_of_cons. right. by apply (IH X).
Qed.

(** A call and its return taken out. *)
Lemma without_split R c pre mid r post :
  wfHistory R → R = pre ++ c :: mid ++ r :: post → isCall c → isReturn r → id r = id c →
  without (id c) R = pre ++ mid ++ post.
Proof.
  intros [H1 H2 _ _] -> Hc Hr Hid.
  assert (∀ x, x ∈ pre ++ mid ++ post → id x ≠ id c) as Hx.
  { intros x Hx E. assert (callsOf (pre ++ c :: mid ++ r :: post) ≡ₚ callsOf (c :: r :: pre ++ mid ++ post)) as P1.
    { unfold callsOf. f_equiv. f_equiv. solve_Permutation. }
    assert (returnsOf (pre ++ c :: mid ++ r :: post) ≡ₚ returnsOf (r :: c :: pre ++ mid ++ post)) as P2.
    { unfold returnsOf. f_equiv. f_equiv. solve_Permutation. }
    rewrite P1 in H1. rewrite P2 in H2. unfold callsOf, returnsOf in *. rewrite filter_cons_True in H1, H2 by done.
    apply NoDup_cons in H1 as [H1 _], H2 as [H2 _]. destruct (call_or_return x).
    - apply H1. apply list_elem_of_fmap. exists x. split; [done|]. apply list_elem_of_filter. set_solver.
    - apply H2. apply list_elem_of_fmap. exists x. split; [congruence|]. apply list_elem_of_filter. set_solver. }
  unfold without. rewrite filter_app, filter_cons_False, filter_app, filter_cons_False by (intros H; congruence).
  rewrite !filter_all; [done|intros x ?; apply Hx; set_solver..].
Qed.

Lemma elem_without i R x : x ∈ without i R ↔ x ∈ R ∧ id x ≠ i.
Proof. unfold without. rewrite list_elem_of_filter. tauto. Qed.

Lemma without_sublist i R : without i R `sublist_of` R.
Proof. apply sublist_filter. Qed.

Lemma callsOf_without i R : callsOf (without i R) = filter (λ j, j ≠ i) (callsOf R).
Proof.
  unfold callsOf, without. induction R as [|x R IH]; [done|]. rewrite !filter_cons.
  destruct (decide (id x ≠ i)), (decide (isCall x)); rewrite ?filter_cons_True, ?filter_cons_False, ?fmap_cons by done;
    rewrite ?filter_cons_True, ?filter_cons_False by done; congruence.
Qed.

Lemma wf_sublist_ids (P : entry V → Prop) `{∀ x, Decision (P x)} i R :
  NoDup (id <$> filter P R) → NoDup (id <$> filter P (without i R)).
Proof.
  intros H0. eapply sublist_NoDup; [exact H0|]. apply fmap_sublist. unfold without.
  clear H0. induction R as [|x R IH]; [done|]. rewrite filter_cons.
  destruct (decide (id x ≠ i)); rewrite ?filter_cons; destruct (decide (P x)).
  - by apply sublist_skip.
  - done.
  - by apply sublist_cons.
  - done.
Qed.

Lemma wf_without i R : wfHistory R → wfHistory (without i R).
Proof.
  intros [H1 H2 H3 H4]. split.
  - by apply wf_sublist_ids.
  - by apply wf_sublist_ids.
  - intros X c Y E Hc. apply filter_split in E as (X' & Y' & -> & Hci & <- & <-).
    destruct (H3 X' c Y' eq_refl Hc) as (r & Hr & Hret & Hid).
    exists r. split; [|done]. apply list_elem_of_filter. split; [congruence|done].
  - intros r [Hr Hi]%elem_without Hret. destruct (H4 r Hr Hret) as (c & ? & ? & ?).
    exists c. split; [|done]. apply elem_without. split; [done|congruence].
Qed.

Lemma isOp_without i j R v w : i ≠ j → isOp (without i R) j v w ↔ isOp R j v w.
Proof.
  intros Hij. split; intros (c & r & Hc & Hr & Hrest).
  - apply elem_without in Hc as [? _], Hr as [? _]. by exists c, r.
  - destruct Hrest as (? & ? & <- & Hr' & ? & ?). exists c, r. rewrite !elem_without. split_and!; first [done|congruence].
Qed.

Lemma legal_without i R st π : i ∉ π → legal (without i R) st π ↔ legal R st π.
Proof.
  intros Hi. split; intros Hl; induction Hl as [|j v w st st' π Hop Hs Hl IH]; [constructor| |constructor|].
  - apply not_elem_of_cons in Hi as [Hij Hi]. econstructor; [by apply (isOp_without i)|done|auto].
  - apply not_elem_of_cons in Hi as [Hij Hi]. econstructor; [by apply (isOp_without i)|done|auto].
Qed.

Lemma precedes_without i R j k : precedes (without i R) j k → precedes R j k ∧ j ≠ i ∧ k ≠ i.
Proof.
  intros (X & r & Y & c & E & Hr & Hj & Hc & Hcc & Hk).
  apply filter_split in E as (X' & Y' & -> & Hri & <- & <-). apply list_elem_of_filter in Hc as [Hci Hc].
  split; [by exists X', r, Y', c|]. split; congruence.
Qed.

Lemma precedes_keep i R j k : precedes R j k → j ≠ i → k ≠ i → precedes (without i R) j k.
Proof.
  intros (X & r & Y & c & -> & Hr & Hj & Hc & Hcc & Hk) Hji Hki. subst.
  exists (without i X), r, (without i Y), c. split_and!; try done.
  - unfold without. rewrite filter_app, filter_cons_True; done.
  - by apply elem_without.
Qed.

(** The entries of an operation are the ones found. *)
Lemma isOp_eq R c r v w : wfHistory R → isCall c → isReturn r → c ∈ R → r ∈ R → id r = id c →
  isOp R (id c) v w → v = value c ∧ w = value r.
Proof.
  intros [H1 H2 _ _] Hc Hr Hcin Hrin Hid (c' & r' & ? & ? & ? & ? & Ec & Er & <- & <-). split; f_equal.
  - by apply (NoDup_fmap_split id isCall R).
  - apply (NoDup_fmap_split id isReturn R); try done. congruence.
Qed.

Lemma perm_without i R π : NoDup (callsOf R) → i :: π ≡ₚ callsOf R → π ≡ₚ callsOf (without i R).
Proof.
  intros Hnd Hp. rewrite callsOf_without, <-Hp, filter_cons_False by (intros H; by apply H).
  rewrite <-Hp in Hnd. apply NoDup_cons in Hnd as [Hi _].
  rewrite filter_all; [done|]. intros j Hj ->. done.
Qed.

Lemma perm_with i R π : NoDup (callsOf R) → i ∈ callsOf R → π ≡ₚ callsOf (without i R) → i :: π ≡ₚ callsOf R.
Proof.
  intros Hnd Hi Hp. apply NoDup_Permutation.
  - apply NoDup_cons. split.
    + rewrite Hp, callsOf_without, list_elem_of_filter. tauto.
    + rewrite Hp, callsOf_without. by apply NoDup_filter.
  - done.
  - intros j. rewrite elem_of_cons, Hp, callsOf_without, list_elem_of_filter.
    destruct (decide (j = i)) as [->|]; tauto.
Qed.

Lemma elem_callsOf R i : i ∈ callsOf R ↔ ∃ c, c ∈ R ∧ isCall c ∧ id c = i.
Proof.
  unfold callsOf. rewrite list_elem_of_fmap. split.
  - intros (c & -> & [? ?]%list_elem_of_filter). by exists c.
  - intros (c & ? & ? & <-). exists c. split; [done|]. by apply list_elem_of_filter.
Qed.

(** ** The two forms agree *)

Lemma linz_linearization R st π : wfHistory R → linz R st π → linearization R st π.
Proof.
  intros Hwf H. induction H as [st|X c Y r st st' π Hc HX HrY Hr Hid Hs Hl IH].
  { split_and!; [done| |constructor]. intros i j (X & r & Y & c & E & _). by destruct X. }
  set (R := X ++ c :: Y) in *. assert (c ∈ R) by (subst R; set_solver). assert (r ∈ R) by (subst R; set_solver).
  destruct (IH (wf_without _ _ Hwf)) as (Hp & Hbef & Hleg).
  assert (id c :: π ≡ₚ callsOf R) as Hp'.
  { apply perm_with; [apply Hwf| |done]. apply elem_callsOf. eauto. }
  split_and!; [done| |].
  - intros i j Hij. destruct (decide (j = id c)) as [->|Hj].
    + exfalso. destruct Hij as (X1 & r1 & Y1 & c1 & E & Hr1 & _ & Hc1 & Hcc1 & Hidc).
      assert (c1 = c) as ->.
      { apply (NoDup_fmap_split id isCall R); try done; [apply Hwf|]. rewrite E. set_solver. }
      assert (r1 ∈ X) as Hin.
      { assert (NoDup (filter isCall R)) as Hnd by (eapply NoDup_fmap_1, Hwf).
        clear - E Hc1 Hr1 Hc Hnd R. revert X1 E Hnd. subst R. induction X as [|x X IHX]; intros X1 E Hnd; simpl in *.
        - destruct X1 as [|x1 X1]; simpl in E; injection E as -> ->; [by destruct (call_not_return r1)|].
          rewrite filter_cons_True in Hnd by done. apply NoDup_cons in Hnd as [Hn _]. destruct Hn.
          apply list_elem_of_filter. set_solver.
        - destruct X1 as [|x1 X1]; simpl in E; injection E as -> E; [set_solver|].
          apply elem_of_cons. right. apply (IHX X1); [done|]. rewrite filter_cons in Hnd.
          destruct (decide (isCall x1)); [by apply NoDup_cons in Hnd as [_ ?]|done]. }
      rewrite Forall_forall in HX. by destruct (call_not_return r1); [apply HX|].
    + destruct (decide (i = id c)) as [->|Hi].
      * exists [], π. split; [done|]. rewrite Hp. destruct Hij as (X1 & r1 & Y1 & c1 & E & _ & _ & Hc1 & Hcc1 & <-).
        apply elem_callsOf. exists c1. split; [|done]. apply elem_without. rewrite E. set_solver.
      * apply before_cons, Hbef. by apply precedes_keep.
  - econstructor; [|exact Hs|].
    + exists c, r. split_and!; done.
    + eapply legal_without; [|exact Hleg]. assert (NoDup (id c :: π)) as Hnd by (rewrite Hp'; apply Hwf).
      by apply NoDup_cons in Hnd as [? _].
Qed.

Lemma linearization_linz R st π : wfHistory R → linearization R st π → linz R st π.
Proof.
  revert R st. induction π as [|i π IH]; intros R st Hwf (Hp & Hbef & Hleg).
  - assert (R = []) as ->; [|constructor]. destruct R as [|x R]; [done|exfalso].
    apply Permutation_nil_l in Hp. destruct (call_or_return x) as [Hx|Hx].
    + assert (id x ∈ callsOf (x :: R)) as Hin by (apply elem_callsOf; exists x; set_solver). rewrite <-Hp in Hin. set_solver.
    + destruct (wf_back _ Hwf x) as (c & Hc & Hcc & Hid); [set_solver|done|].
      assert (id c ∈ callsOf (x :: R)) as Hin by (apply elem_callsOf; eauto). rewrite <-Hp in Hin. set_solver.
  - assert (NoDup (i :: π)) as Hnd by (rewrite Hp; apply Hwf). apply NoDup_cons in Hnd as [Hi Hnd].
    inversion Hleg as [|? v w ? st' ? Hop Hs Hleg']; subst.
    assert (i ∈ callsOf R) as (c & Hc & Hcc & <-)%elem_callsOf by (rewrite <-Hp; set_solver).
    apply list_elem_of_split in Hc as (X & Y & ->).
    destruct (wf_match _ Hwf X c Y eq_refl Hcc) as (r & HrY & Hr & Hid).
    destruct (isOp_eq _ c r v w Hwf) as [-> ->]; try done; [set_solver..|].
    apply (linz_cons X c Y r st st'); try done.
    + apply Forall_forall. intros x Hx. destruct (call_or_return x) as [|Hxr]; [done|exfalso].
      assert (before (id c :: π) (id x) (id c)) as Hb.
      { apply Hbef. apply list_elem_of_split in Hx as (X1 & X2 & ->). rewrite <-app_assoc.
        exists X1, x, (X2 ++ c :: Y), c. split_and!; [done..|set_solver|done|done]. }
      apply before_inv in Hb as [[_ Hb]|Hb]; [done|]. by apply before_elem in Hb as [_ ?].
    + apply IH; [by apply wf_without|]. split_and!.
      * apply perm_without; [apply Hwf|done].
      * intros j k (Hjk & Hj & Hk)%precedes_without. apply Hbef in Hjk as [[? _]|?]%before_inv; done.
      * by apply legal_without.
Qed.
End spec.
