(* ===== verification/PorcupineHeap.v ===== *)
(** * The linked list of the checker

    [lift] unlinks a call and its return from the doubly linked list and
    [unlift] puts them back: the nodes keep their own pointers while they are
    out, so restoring them in the opposite order gives the old heap, exactly.
    The second part is about [makeLinkedEntries], which builds the list. *)

From S2P Require Import Prelude Bitset Porcupine PorcupineSpec.
Open Scope go_scope.

Section heap.
Context {V : Type}.
Implicit Types (h : list (node V)) (a b x p m e : nat) (n : node V) (L A B : list nat).

(** ** Writing a field *)

Lemma setNext_eq a v h n : h !! a = Some n →
  setNext a v h !! a = Some (mkNode (nvalue n) (nmatch n) (nid n) v (prev n)).
Proof. intros H. unfold setNext. by rewrite list_lookup_alter_eq, H. Qed.

Lemma setNext_ne a b v h : a ≠ b → setNext a v h !! b = h !! b.
Proof. intros. unfold setNext. by rewrite list_lookup_alter_ne. Qed.

Lemma setPrev_eq a v h n : h !! a = Some n →
  setPrev a v h !! a = Some (mkNode (nvalue n) (nmatch n) (nid n) (next n) v).
Proof. intros H. unfold setPrev. by rewrite list_lookup_alter_eq, H. Qed.

Lemma setPrev_ne a b v h : a ≠ b → setPrev a v h !! b = h !! b.
Proof. intros. unfold setPrev. by rewrite list_lookup_alter_ne. Qed.

(** The fields that no operation on the list changes. *)
Definition static n : V * option nat * Z := (nvalue n, nmatch n, nid n).
Definition sameStatic h h' : Prop := ∀ a, static <$> h !! a = static <$> h' !! a.

Lemma sameStatic_set a v h : sameStatic (setNext a v h) h ∧ sameStatic (setPrev a v h) h.
Proof.
  split; intros b; (destruct (decide (a = b)) as [<-|?]; [|by rewrite ?setNext_ne, ?setPrev_ne]);
    destruct (h !! a) as [n|] eqn:E.
  - by rewrite (setNext_eq _ _ _ n).
  - unfold setNext. by rewrite list_lookup_alter_eq, E.
  - by rewrite (setPrev_eq _ _ _ n).
  - unfold setPrev. by rewrite list_lookup_alter_eq, E.
Qed.

Lemma sameStatic_trans h1 h2 h3 : sameStatic h1 h2 → sameStatic h2 h3 → sameStatic h1 h3.
Proof. intros H1 H2 a. by rewrite H1, H2. Qed.

Lemma sameStatic_lookup h h' a n' : sameStatic h h' → h' !! a = Some n' → ∃ n, h !! a = Some n ∧ static n = static n'.
Proof.
  intros H Hn. specialize (H a). rewrite Hn in H. destruct (h !! a) as [n|]; [|done]. injection H as H1 H2 H3.
  exists n. split; [done|]. unfold static. congruence.
Qed.

(** ** One node out of the list, and back *)

(** [p.next = n; if n != nil { n.prev = p }] for the neighbours of a node. *)
Definition join p (n : option nat) h : list (node V) :=
  match n with Some b => setPrev b (Some p) (setNext p n h) | None => setNext p n h end.

(** [p.next = x; if n != nil { n.prev = x }]. *)
Definition rejoin x p (n : option nat) h : list (node V) :=
  match n with Some b => setPrev b (Some x) (setNext p (Some x) h) | None => setNext p (Some x) h end.

Lemma join_static p nx h : sameStatic (join p nx h) h.
Proof.
  destruct nx as [b|]; simpl.
  - eapply sameStatic_trans; apply sameStatic_set.
  - apply sameStatic_set.
Qed.

Lemma join_other p nx h x : x ≠ p → nx ≠ Some x → join p nx h !! x = h !! x.
Proof.
  intros Hp Hn. destruct nx as [b|]; simpl.
  - rewrite setPrev_ne by congruence. by rewrite setNext_ne.
  - by rewrite setNext_ne.
Qed.

(** The neighbours point to [x], and are other nodes. *)
Definition between h x p (n : option nat) : Prop :=
  p ≠ x ∧ n ≠ Some x ∧ (∃ np, h !! p = Some np ∧ next np = Some x) ∧
  ∀ b, n = Some b → ∃ nb, h !! b = Some nb ∧ prev nb = Some x.

Lemma node_eta n : n = mkNode (nvalue n) (nmatch n) (nid n) (next n) (prev n).
Proof. by destruct n. Qed.

Lemma rejoin_join h x p nx : between h x p nx → rejoin x p nx (join p nx h) = h.
Proof.
  intros (Hp & Hn & (np & Hnp & Hx) & Hb). apply list_eq. intros a. destruct nx as [b|]; simpl.
  - destruct (Hb b eq_refl) as (nb & Hnb & Hpx).
    destruct (decide (b = a)) as [<-|Hba]; destruct (decide (p = b)) as [<-|Hpb].
    + simplify_eq. erewrite setPrev_eq by (eapply setNext_eq, setPrev_eq, setNext_eq; done). simpl.
      rewrite Hnp. f_equal. by rewrite (node_eta np), Hx, Hpx.
    + erewrite setPrev_eq; [|rewrite setNext_ne by done; eapply setPrev_eq; by rewrite setNext_ne]. simpl.
      rewrite Hnb. f_equal. by rewrite (node_eta nb), Hpx.
    + by rewrite setPrev_ne, setNext_ne, setPrev_ne, setNext_ne by done.
    + rewrite setPrev_ne by done. destruct (decide (p = a)) as [<-|Hpa].
      * erewrite setNext_eq; [|rewrite setPrev_ne by done; by eapply setNext_eq]. simpl.
        rewrite Hnp. f_equal. by rewrite (node_eta np), Hx.
      * by rewrite setNext_ne, setPrev_ne, setNext_ne by done.
  - destruct (decide (p = a)) as [<-|Hpa]; [|by rewrite !setNext_ne].
    erewrite setNext_eq by (by eapply setNext_eq). simpl. rewrite Hnp. f_equal. by rewrite (node_eta np), Hx.
Qed.

(** ** The list *)

(** The nodes [L], entered from [prv] and left to [nxt]. *)
Fixpoint dseg h (prv : option nat) L (nxt : option nat) : Prop :=
  match L with
  | [] => True
  | a :: L' => (∃ n, h !! a = Some n ∧ prev n = prv ∧ next n = match L' with b :: _ => Some b | [] => nxt end) ∧
               dseg h (Some a) L' nxt
  end.

Definition first L (nxt : option nat) : option nat := match L with b :: _ => Some b | [] => nxt end.
Definition lastOr L (prv : option nat) : option nat := match last L with Some a => Some a | None => prv end.

Lemma dseg_app h prv A B nxt :
  dseg h prv (A ++ B) nxt ↔ dseg h prv A (first B nxt) ∧ dseg h (lastOr A prv) B nxt.
Proof.
  revert prv. induction A as [|a A IH]; intros prv; simpl; [tauto|].
  rewrite IH. replace (lastOr (a :: A) prv) with (lastOr A (Some a)).
  - destruct A; simpl; tauto.
  - unfold lastOr. destruct A as [|c A]; [done|]. rewrite (last_cons a (c :: A)).
    by destruct (last (c :: A)) eqn:E; [|apply last_None in E].
Qed.

Lemma dseg_ext h h' prv L nxt : (∀ a, a ∈ L → h' !! a = h !! a) → dseg h prv L nxt → dseg h' prv L nxt.
Proof.
  revert prv. induction L as [|a L IH]; intros prv H; simpl; [done|]. intros [(n & Hn & Hr) Hs].
  split; [exists n; rewrite H by set_solver; done|]. apply IH; [|done]. set_solver.
Qed.

Definition dll h L : Prop := dseg h None L None ∧ NoDup L.

(** A node of the list between its neighbours. *)
Lemma dll_middle h A p x B : dll h (A ++ p :: x :: B) →
  (∃ n, h !! x = Some n ∧ prev n = Some p ∧ next n = head B) ∧ between h x p (head B).
Proof.
  intros [Hd Hnd]. apply dseg_app in Hd as [_ Hd]. simpl in Hd. destruct Hd as [(np & Hp & _ & Hpx) [(n & Hx & Hxp & Hxn) Hd]].
  apply NoDup_app in Hnd as (_ & _ & Hnd). apply NoDup_cons in Hnd as [H1 Hnd]. apply NoDup_cons in Hnd as [H2 Hnd].
  split; [exists n; by destruct B|]. split_and!.
  - set_solver.
  - destruct B; [done|]. simpl. intros [= ->]. set_solver.
  - exists np. by destruct B.
  - intros b. destruct B as [|c B]; [done|]. intros [= ->]. simpl in Hd. destruct Hd as [(nb & ? & ? & ?) _]. eauto.
Qed.

(** Joining the neighbours takes the node out. *)
Lemma dll_join h A p x B : dll h (A ++ p :: x :: B) → dll (join p (head B) h) (A ++ p :: B).
Proof.
  intros [Hd Hnd]. assert (NoDup (A ++ p :: B)) as Hnd'.
  { eapply sublist_NoDup; [exact Hnd|]. apply sublist_app; [done|]. apply sublist_skip. by apply sublist_cons. }
  split; [|done].
  apply dseg_app in Hd as [HA [(np & Hp & Hpp & Hpx) [(n & Hx & Hxp & Hxn) HB]]].
  apply NoDup_app in Hnd' as (_ & HAB & Hnd'). apply NoDup_cons in Hnd' as [HpB HndB].
  assert (head B = first B None) as HhB by (by destruct B).
  apply dseg_app. split.
  - eapply dseg_ext; [|exact HA]. intros a Ha. apply join_other.
    + intros ->. apply (HAB p); [done|set_solver].
    + intros E. apply (HAB a); [done|]. destruct B; [done|]. injection E as ->. set_solver.
  - destruct B as [|c B]; simpl.
    + split; [|done]. eexists. split; [by eapply setNext_eq|]. done.
    + assert (p ≠ c) by set_solver. split.
      * eexists. split; [rewrite setPrev_ne by done; by eapply setNext_eq|]. done.
      * destruct HB as [(nc & Hc & Hcp & Hcn) HB]. split.
        -- eexists. split; [eapply setPrev_eq; rewrite setNext_ne by done; exact Hc|]. done.
        -- apply NoDup_cons in HndB as [HcB _]. eapply dseg_ext; [|exact HB].
           intros a Ha. rewrite setPrev_ne, setNext_ne; [done|set_solver|set_solver].
Qed.

(** ** [lift] and [unlift] *)

#[local] Arguments join : simpl never.
#[local] Arguments rejoin : simpl never.

(** [lift] as two joins, in terms of what it reads. *)
Lemma lift_joins h e p s m q t ne nm :
  h !! e = Some ne → prev ne = Some p → next ne = Some s → nmatch ne = Some m → e ≠ p → e ≠ s →
  join p (Some s) h !! m = Some nm → prev nm = Some q → next nm = t → m ≠ q →
  lift e h = Some (join q t (join p (Some s) h)).
Proof.
  intros He Hp Hs Hm Hep Hes Hnm Hq Ht Hmq. unfold lift, prevOf, nextOf.
  rewrite He. simpl. rewrite Hp, Hs. simpl.
  rewrite (setNext_ne p e), He by done. simpl. rewrite Hs. simpl. rewrite Hp.
  change (setPrev s (Some p) (setNext p (Some s) h)) with (join p (Some s) h).
  rewrite (join_other p (Some s) h e), He by congruence. simpl. rewrite Hm. simpl.
  rewrite Hnm. simpl. rewrite Hq, Ht. simpl. rewrite setNext_ne, Hnm by done. simpl. rewrite Ht.
  destruct t as [t|]; simpl; [|done]. rewrite Hq. done.
Qed.

Lemma unlift_rejoins h e p s m q t ne nm :
  h !! e = Some ne → prev ne = Some p → next ne = Some s → nmatch ne = Some m →
  h !! m = Some nm → prev nm = Some q → next nm = t → m ≠ q →
  rejoin m q t h !! e = Some ne → e ≠ p →
  unlift e h = Some (rejoin e p (Some s) (rejoin m q t h)).
Proof.
  intros He Hp Hs Hm Hnm Hq Ht Hmq He' Hep. unfold unlift, prevOf, nextOf.
  rewrite He. simpl. rewrite Hm. simpl. rewrite Hnm. simpl. rewrite Hq. simpl.
  rewrite setNext_ne, Hnm by done. simpl. rewrite Ht.
  change (match t with Some t0 => setPrev t0 (Some m) (setNext q (Some m) h) | None => setNext q (Some m) h end)
    with (rejoin m q t h).
  rewrite He'. simpl. rewrite Hp. simpl. rewrite setNext_ne, He' by done. simpl. rewrite Hs. done.
Qed.

Lemma cons_snoc a L : ∃ A p, a :: L = A ++ [p].
Proof. destruct (exists_last (l := a :: L)) as (A & p & E); [done|]. by exists A, p. Qed.

Lemma head_cons_app B m C : ∃ s, head (B ++ m :: C) = Some s ∧ s ∈ B ++ m :: C.
Proof. destruct B as [|b B]; eexists; (split; [done|]); simpl; set_solver. Qed.

(** Taking the call [e] and its return [m] out of the list, and putting them back. *)
Lemma lift_unlift h hd pre e mid m post ne :
  dll h (hd :: pre ++ e :: mid ++ m :: post) → h !! e = Some ne → nmatch ne = Some m →
  ∃ h', lift e h = Some h' ∧ dll h' (hd :: pre ++ mid ++ post) ∧ sameStatic h' h ∧ unlift e h' = Some h.
Proof.
  intros Hd He Hm. destruct (cons_snoc hd pre) as (A & p & EA).
  replace (hd :: pre ++ e :: mid ++ m :: post) with (A ++ p :: e :: (mid ++ m :: post)) in Hd.
  2:{ rewrite (app_comm_cons pre), EA. by rewrite <-app_assoc. }
  replace (hd :: pre ++ mid ++ post) with (A ++ p :: mid ++ post).
  2:{ rewrite (app_comm_cons pre), EA. by rewrite <-app_assoc. }
  destruct (dll_middle _ _ _ _ _ Hd) as [(ne' & He' & Hp & Hs) Hbe]. simplify_eq.
  destruct (head_cons_app mid m post) as (s & Hhs & _). rewrite Hhs in *.
  pose proof (dll_join _ _ _ _ _ Hd) as Hd1. rewrite Hhs in Hd1.
  destruct (cons_snoc p mid) as (A2 & q & EA2).
  replace (A ++ p :: mid ++ m :: post) with ((A ++ A2) ++ q :: m :: post) in Hd1.
  2:{ rewrite (app_comm_cons mid), EA2. by rewrite <-!app_assoc. }
  replace (A ++ p :: mid ++ post) with ((A ++ A2) ++ q :: post).
  2:{ rewrite (app_comm_cons mid), EA2. by rewrite <-!app_assoc. }
  destruct (dll_middle _ _ _ _ _ Hd1) as [(nm & Hnm & Hq & Ht) Hbm].
  pose proof (dll_join _ _ _ _ _ Hd1) as Hd2.
  assert (e ∉ (A ++ A2) ++ q :: m :: post) as Hout.
  { destruct Hd as [_ Hnd]. replace ((A ++ A2) ++ q :: m :: post) with (A ++ p :: mid ++ m :: post).
    - apply NoDup_app in Hnd as (_ & HA & Hnd). apply NoDup_cons in Hnd as [H1 Hnd]. apply NoDup_cons in Hnd as [H2 _].
      intros [H|[->|H]%elem_of_cons]%elem_of_app; [|set_solver..]. apply (HA e H). set_solver.
    - rewrite (app_comm_cons mid), EA2. by rewrite <-!app_assoc. }
  destruct Hbe as (Hpe & Hse & Hbe). assert (e ≠ q) by set_solver.
  assert (head post ≠ Some e) by (destruct post; [done|]; set_solver).
  assert (m ≠ q) by (by destruct Hbm as (? & _)). assert (head post ≠ Some m) by (by destruct Hbm as (_ & ? & _)).
  exists (join q (head post) (join p (Some s) h)). split_and!.
  - eapply lift_joins; eauto; congruence.
  - done.
  - eapply sameStatic_trans; apply join_static.
  - assert (join p (Some s) h !! e = Some ne) as He1 by (rewrite join_other; [done|congruence|done]).
    rewrite (unlift_rejoins _ e p s m q (head post) ne nm), !rejoin_join by (done || by rewrite ?rejoin_join, ?(join_other q)).
    done.
Qed.
End heap.

(** ** Building the linked list of a history

    [makeLinkedEntries] gives a doubly linked list with one node per entry in
    the order of the history, in which the match of a call is the node of the
    return with the same id; the head node of [checkSingle] goes in front of it. *)

Lemma Forall2_impl_in {A B} (P Q : A → B → Prop) (l : list A) (k : list B) :
  Forall2 P l k → (∀ x y, y ∈ k → P x y → Q x y) → Forall2 Q l k.
Proof. induction 1; intros H'; constructor; set_solver. Qed.

Section link.
Context {V : Type}.
Implicit Types (R : list (entry V)) (h : list (node V)) (L : list nat) (x : entry V) (ret : gmap Z nat).

(** The node [a] stands for the entry [x]; [ret] maps ids to return nodes. *)
Definition nodeFor h ret (a : nat) x : Prop :=
  ∃ n, h !! a = Some n ∧ nvalue n = value x ∧ nid n = id x ∧
       nmatch n = (if kind x then None else ret !! id x) ∧ (kind x = true → ret !! id x = Some a).

Lemma nodeFor_static h h' ret a x : sameStatic h' h → nodeFor h ret a x → nodeFor h' ret a x.
Proof.
  intros Hs (n & Hn & H1 & H2 & H3 & H4). destruct (sameStatic_lookup _ _ _ _ Hs Hn) as (n' & Hn' & E).
  unfold static in E. injection E as E1 E2 E3. exists n'. split_and!; congruence || done.
Qed.

Lemma nodes_static h h' ret L R : sameStatic h' h → Forall2 (nodeFor h ret) L R → Forall2 (nodeFor h' ret) L R.
Proof. intros Hs H. eapply Forall2_impl; [exact H|]. intros a x. by apply nodeFor_static. Qed.

(** A node pushed in front of the list. *)
Lemma push_front h L v mt i :
  dll h L → Forall (λ a, a < length h)%nat L →
  ∃ h', insertBefore (length h) (head L) (h ++ [mkNode v mt i None None]) = Some h' ∧
        dll h' (length h :: L) ∧ sameStatic h' (h ++ [mkNode v mt i None None]) ∧ length h' = S (length h).
Proof.
  intros [Hd Hnd] Hlt. set (nw := mkNode v mt i None None). set (a := length h).
  assert (∀ b, b ∈ L → (h ++ [nw]) !! b = h !! b) as Hold.
  { intros b Hb. apply lookup_app_l. rewrite Forall_forall in Hlt. by apply Hlt. }
  assert ((h ++ [nw]) !! a = Some nw) as Hnew by (subst a; by apply list_lookup_middle).
  assert (a ∉ L) as Ha by (intros Ha; rewrite Forall_forall in Hlt; specialize (Hlt a Ha); lia).
  assert (NoDup (a :: L)) as Hnd' by (by apply NoDup_cons).
  destruct L as [|b L]; simpl.
  - exists (h ++ [nw]). split_and!; [done| |done|rewrite length_app; simpl; lia].
    split; [|done]. simpl. split; [|done]. by exists nw.
  - destruct Hd as [(nb & Hb & Hpb & Hnb) Hd]. rewrite (Hold b), Hb by set_solver. simpl. rewrite Hpb.
    assert (a ≠ b) by set_solver. apply NoDup_cons in Hnd as [HbL _].
    eexists. split; [done|]. split_and!.
    + split; [|done]. simpl. split; [|split].
      * eexists. split; [apply setNext_eq; rewrite setPrev_ne by done; exact Hnew|]. done.
      * eexists. split; [rewrite setNext_ne by done; apply setPrev_eq; rewrite Hold, Hb by set_solver; done|]. done.
      * eapply dseg_ext; [|exact Hd]. intros c Hc. rewrite setNext_ne, setPrev_ne by set_solver. apply Hold. set_solver.
    + eapply sameStatic_trans; apply sameStatic_set.
    + unfold setNext, setPrev. rewrite !length_alter, length_app. simpl. lia.
Qed.

(** What is needed of a history, or of a suffix of it. *)
Definition linkable R : Prop :=
  NoDup (returnsOf R) ∧ ∀ X c Y, R = X ++ c :: Y → isCall c → ∃ r, r ∈ Y ∧ isReturn r ∧ id r = id c.

Lemma wf_linkable R : wfHistory R → linkable R.
Proof. intros [? ? ? ?]. by split. Qed.

Lemma linkable_tail x R : linkable (x :: R) → linkable R.
Proof.
  intros [H1 H2]. split.
  - unfold returnsOf in *. rewrite filter_cons in H1. destruct (decide (isReturn x)); [|done]. by apply NoDup_cons in H1 as [_ ?].
  - intros X c Y ->. by apply (H2 (x :: X)).
Qed.

Lemma linkable_return_fresh x R y : linkable (x :: R) → isReturn x → y ∈ R → id y ≠ id x.
Proof.
  intros [H1 H2] Hx Hy E. unfold returnsOf in H1. rewrite filter_cons_True in H1 by done.
  apply NoDup_cons in H1 as [H1 _]. apply H1. apply list_elem_of_fmap.
  destruct (call_or_return y) as [Hc|Hr].
  - apply list_elem_of_split in Hy as (X & Y & ->). destruct (H2 (x :: X) y Y eq_refl Hc) as (r & Hr & Hret & Hid).
    exists r. split; [congruence|]. apply list_elem_of_filter. set_solver.
  - exists y. split; [done|]. by apply list_elem_of_filter.
Qed.

Lemma nodeFor_insert h ret a x i b : id x ≠ i → nodeFor h ret a x → nodeFor h (<[i := b]> ret) a x.
Proof.
  intros Hi (n & Hn & H1 & H2 & H3 & H4). exists n. rewrite lookup_insert_ne by done. done.
Qed.

Lemma nodeFor_app h nw ret a x : nodeFor h ret a x → nodeFor (h ++ [nw]) ret a x.
Proof.
  intros (n & Hn & ?). exists n. split; [|done]. by apply lookup_app_l_Some.
Qed.

Lemma makeLinkedEntries_spec R : linkable R → ∃ h ret L,
  makeLinkedEntries R = Some (h, ret, head L) ∧ length h = length R ∧
  dll h L ∧ Forall (λ a, a < length h)%nat L ∧ Forall2 (nodeFor h ret) L R.
Proof.
  induction R as [|x R IH]; intros Hl.
  { exists [], ∅, []. split_and!; try done. split; [done|constructor]. }
  destruct (IH (linkable_tail _ _ Hl)) as (h & ret & L & E & Hlen & Hd & Hlt & Hn).
  unfold makeLinkedEntries in *. cbn [foldr]. rewrite E. cbn. unfold linkEntry. simpl in *.
  destruct (call_or_return x) as [Hx|Hx]; unfold isCall, isReturn, callEntry, returnEntry in Hx; rewrite Hx.
  - destruct (push_front h L (value x) (ret !! id x) (id x) Hd Hlt) as (h' & -> & Hd' & Hs & Hlen'). simpl.
    exists h', ret, (length h :: L). split_and!; [done|lia|done| |].
    + constructor; [lia|]. eapply Forall_impl; [exact Hlt|]. simpl. lia.
    + constructor.
      * eapply nodeFor_static; [exact Hs|]. eexists. split; [by apply list_lookup_middle|]. simpl. by rewrite Hx.
      * eapply nodes_static; [exact Hs|]. eapply Forall2_impl; [exact Hn|]. intros. by apply nodeFor_app.
  - destruct (push_front h L (value x) None (id x) Hd Hlt) as (h' & -> & Hd' & Hs & Hlen'). simpl.
    exists h', (<[id x := length h]> ret), (length h :: L). split_and!; [done|lia|done| |].
    + constructor; [lia|]. eapply Forall_impl; [exact Hlt|]. simpl. lia.
    + constructor.
      * eapply nodeFor_static; [exact Hs|]. eexists. split; [by apply list_lookup_middle|]. simpl. rewrite Hx.
        by rewrite lookup_insert_eq.
      * eapply nodes_static; [exact Hs|]. eapply Forall2_impl_in; [exact Hn|].
        intros a y Hy Hay. apply nodeFor_insert; [by eapply linkable_return_fresh|by apply nodeFor_app].
Qed.

Lemma lengthFrom_dseg h prv L fuel : dseg h prv L None → (length L ≤ fuel)%nat → lengthFrom fuel (head L) h = Some (zlen L).
Proof.
  revert prv fuel. induction L as [|a L IH]; intros prv fuel Hd Hf; [by destruct fuel|].
  destruct fuel as [|fuel]; simpl in Hf; [lia|]. destruct Hd as [(n & Hn & _ & Hnx) Hd]. simpl. rewrite Hn. simpl.
  replace (next n) with (head L) by (by destruct L). rewrite (IH _ _ Hd) by lia. simpl. f_equal. rewrite zlen_cons. lia.
Qed.
End link.
