(* ===== verification/PorcupineSearch.v ===== *)
(** * The search of [checkSingle]

    From a level of the search, that is, a set of operations already linearized
    and the state they lead to, the loop either returns true, with a
    linearization of the remaining operations, or comes to the first return entry
    of the level with the same list, state and stack, and then no linearization of
    the remaining operations exists.  The cache only ever holds configurations
    below the current level that are known to be dead. *)

From S2P Require Import Prelude Bitset Porcupine PorcupineHeap PorcupineSpec.
Open Scope go_scope.

(** ** The lists of partial linearizations *)

Lemma fill_all {A} (x : A) l n : zlen l = n → foldM (λ l i, upd l i x) (range 0 n) l = Some (replicate (Z.to_nat n) x).
Proof.
  intros Hl. unfold range. rewrite Z.sub_0_r.
  assert (∀ k : nat, Z.of_nat k ≤ n →
    foldM (λ l i, upd l i x) (seqZ 0 (Z.of_nat k)) l = Some (replicate k x ++ drop k l)) as H.
  { intros k Hk. assert (∀ l1 l2 (b : list A), foldM (λ l i, upd l i x) (l1 ++ l2) b
      = foldM (λ l i, upd l i x) l1 b ≫= foldM (λ l i, upd l i x) l2) as Happ.
    { induction l1 as [|y l1 IH1]; intros l2 b; [done|]. simpl. destruct (upd b y x); [apply IH1|done]. }
    induction k as [|k IH]; [by rewrite drop_0|].
    rewrite seqZ_S, Happ, IH by lia. simpl. unfold upd. rewrite zlen_app.
    unfold zlen. rewrite length_replicate, length_drop. unfold zlen in Hl.
    replace ((0 <=? Z.of_nat k) && _) with true by (symmetry; bool_simpl; lia). simpl. f_equal.
    replace (Z.to_nat (0 + Z.of_nat k)) with k by lia.
    rewrite insert_app_r_alt by (rewrite length_replicate; lia).
    rewrite length_replicate, Nat.sub_diag. destruct (drop k l) as [|y l'] eqn:Ed.
    - apply (f_equal length) in Ed. rewrite length_drop in Ed. simpl in Ed. lia.
    - rewrite app_comm_cons. change (x :: replicate k x) with (replicate (S k) x).
      rewrite replicate_S_end, <-app_assoc. simpl. f_equal. f_equal.
      rewrite <-Nat.add_1_r, <-drop_drop, Ed. done. }
  pose proof (zlen_nonneg l). specialize (H (Z.to_nat n) ltac:(lia)). rewrite Z2Nat.id in H by lia. rewrite H.
  rewrite drop_ge by (unfold zlen in *; lia). by rewrite app_nil_r.
Qed.

Section search.
Context {V St : Type} `{!EqDecision St} (m : Model V St) (computePartial : bool).
Context (R0 : list (entry V)) (ret : gmap Z nat) (hd : nat) (n : Z) (nb : nat).

(** The model's equality only equates equal states. *)
Context (Hequal : ∀ s t, modelEqual m s t = true → s = t).
Context (Hwf : wfHistory R0) (Hids : ∀ x, x ∈ R0 → 0 ≤ id x < n).
Context (Hstep : ∀ c r st, c ∈ R0 → r ∈ R0 → isCall c → isReturn r → id r = id c → is_Some (Step m st (value c) (value r))).
Context (Hroom : n ≤ 64 * Z.of_nat nb) (Hn64 : n ≤ 2 ^ 64).

Implicit Types (R pre suf : list (entry V)) (c r x : entry V) (s : search V St) (b : bitset).

Local Abbreviation linz := (linz (Step m)).
Local Abbreviation loop := (searchLoop m computePartial n hd (λ _, false)).

(** The entries of the operations that [b] does not have. *)
Definition rem b : list (entry V) := filter (λ x, member b (id x) = false) R0.
Definition dead R (st : St) : Prop := ∀ π, ¬ linz R st π.

Definition cacheOK (cache : gmap Z (list (cacheEntry (St := St)))) (k : nat) : Prop :=
  ∀ hsh l ce, cache !! hsh = Some l → ce ∈ l →
    (length (rem (ce_linearized ce)) < k)%nat → dead (rem (ce_linearized ce)) (ce_state ce).

(** A level of the search: the remaining list [L] stands for [R]; [ids] are linearized. *)
Record level s (L : list nat) R (ids : list Z) : Prop := {
  lv_dll : dll (s_heap s) (hd :: L);
  lv_nodes : Forall2 (nodeFor (s_heap s) ret) L R;
  lv_rem : R = rem (s_linearized s);
  lv_wf : wf (s_linearized s);
  lv_len : length (s_linearized s) = nb;
  lv_cache : cacheOK (s_cache s) (length R);
  lv_longest : zlen (s_longest s) = n;
  lv_calls : callIds (s_heap s) (s_calls s) = Some ids;
  lv_ids : Forall (λ i, 0 ≤ i < n) ids;
}.

(** ** Removing an operation *)

Lemma rem_wf b : wfHistory (rem b).
Proof.
  unfold rem. destruct Hwf as [H1 H2 H3 H4]. split.
  - eapply sublist_NoDup; [exact H1|]. unfold callsOf. apply fmap_sublist.
    rewrite list_filter_filter. rewrite (list_filter_iff _ (λ x, member b (id x) = false ∧ isCall x)) by naive_solver.
    rewrite <-list_filter_filter. apply sublist_filter.
  - eapply sublist_NoDup; [exact H2|]. unfold returnsOf. apply fmap_sublist.
    rewrite list_filter_filter. rewrite (list_filter_iff _ (λ x, member b (id x) = false ∧ isReturn x)) by naive_solver.
    rewrite <-list_filter_filter. apply sublist_filter.
  - intros X c Y E Hc. apply filter_split in E as (X' & Y' & -> & Hci & <- & <-).
    destruct (H3 X' c Y' eq_refl Hc) as (r & Hr & Hret & Hid). exists r. split; [|done].
    apply list_elem_of_filter. split; [congruence|done].
  - intros r [Hm Hr]%list_elem_of_filter Hret. destruct (H4 r Hr Hret) as (c & ? & ? & ?).
    exists c. split; [|done]. apply list_elem_of_filter. split; [congruence|done].
Qed.

Lemma rem_set b b' i : (∀ j, member b' j = (j =? i) || member b j) → rem b' = without i (rem b).
Proof.
  intros H. unfold rem, without. rewrite list_filter_filter. apply list_filter_iff. intros x. rewrite H.
  destruct (Z.eqb_spec (id x) i); simpl; naive_solver.
Qed.

Lemma room_id b i : length b = nb → 0 ≤ i < n → room b i ∧ toUint i = i.
Proof. intros Hb Hi. unfold room, toUint, zlen. rewrite Hb. split; [lia|]. apply Z.mod_small. lia. Qed.

(** ** Dead levels *)

(** Linearizing [c] next leads nowhere. *)
Definition tried R (st : St) c : Prop := ∀ r st',
  r ∈ R → isReturn r → id r = id c → Step m st (value c) (value r) = Some (true, st') → dead (without (id c) R) st'.

Lemma all_tried_dead R st pre x suf :
  R = pre ++ x :: suf → isReturn x → (∀ c, c ∈ pre → tried R st c) → dead R st.
Proof.
  intros E Hx Ht π Hl. destruct Hl as [st|X c Y r st st' π Hc HX HrY Hr Hid Hs Hl].
  { by destruct pre. }
  assert (c ∈ pre) as Hcp by (by eapply call_before_return).
  eapply (Ht c Hcp r st'); [set_solver|done|done|done|exact Hl].
Qed.

(** ** One iteration *)

Lemma dll_next h (L1 : list nat) a L2 : dll h (hd :: L1 ++ a :: L2) → ∃ nd : node V, h !! a = Some nd ∧ next nd = head L2.
Proof.
  intros [Hd _]. rewrite app_comm_cons in Hd. apply dseg_app in Hd as [_ [(nd & ? & _ & ?) _]].
  exists nd. split; [done|]. by destruct L2.
Qed.

Lemma dll_first (h : list (node V)) (L : list nat) : dll h (hd :: L) → nextOf hd h = Some (@head nat L).
Proof. intros [[(nd & Hn & _ & Hx) _] _]. unfold nextOf. rewrite Hn. simpl. rewrite Hx. by destruct L. Qed.

Lemma callIds_static h h' cs : sameStatic h' h → callIds (V := V) (St := St) h' cs = callIds h cs.
Proof.
  intros Hs. unfold callIds. induction cs as [|cl cs IH]; [done|]. simpl. rewrite IH.
  specialize (Hs (cl_entry cl)). destruct (h' !! _) as [x|], (h !! _) as [y|]; simpl in *; try done.
  injection Hs as _ _ ->. done.
Qed.

Lemma callIds_snoc h cs cl ids nd : callIds (V := V) (St := St) h cs = Some ids → h !! cl_entry cl = Some nd →
  callIds h (cs ++ [cl]) = Some (ids ++ [nid nd]).
Proof.
  unfold callIds. revert ids. induction cs as [|c0 cs IH]; intros ids H Hn; simpl in *.
  - injection H as <-. by rewrite Hn.
  - destruct (h !! cl_entry c0); simpl in *; [|done]. destruct (mapM _ cs) eqn:E; simpl in *; [|done].
    injection H as <-. by rewrite (IH _ eq_refl Hn).
Qed.

Lemma updateLongest_ok h (cs : list (callsEntry (St := St))) ids lg :
  callIds (V := V) h cs = Some ids → Forall (λ i, 0 ≤ i < n) ids → zlen lg = n →
  ∃ lg', updateLongest h cs lg = Some lg' ∧ zlen lg' = n.
Proof.
  intros Hc Hi Hl. unfold updateLongest. rewrite Hc. simpl. clear Hc. generalize (Some ids) as sq. intros sq.
  revert lg Hl. induction Hi as [|i is_ Hi _ IH]; intros lg Hl; simpl; [by exists lg|].
  destruct (idx_is_Some lg i) as [old ->]; [lia|]. simpl.
  destruct (match old with None => true | _ => _ end); simpl; [|by apply IH].
  destruct (upd_is_Some lg i sq) as [lg1 E]; [lia|]. rewrite E. simpl. apply IH.
  apply upd_Some in E as [_ ->]. by rewrite zlen_insert.
Qed.

Lemma cacheContains_dead cache b (st : St) k :
  cacheOK cache k → cacheContains m cache (mkCacheEntry b st) = true → (length (rem b) < k)%nat → dead (rem b) st.
Proof.
  intros Hok Hc Hk. unfold cacheContains in Hc. simpl in Hc. apply existsb_exists in Hc as (ce & Hin & [Heq Hst]%andb_true_iff).
  apply list_elem_of_In in Hin. destruct (cache !! hash b) as [l|] eqn:E; simpl in Hin; [|set_solver].
  apply equals_eq in Heq. apply Hequal in Hst. subst. by apply (Hok _ _ _ E Hin).
Qed.

(** A call with its return, in the list and in the history. *)
Record matched (L : list nat) R preL a midL mm postL pre c mid r post : Prop := {
  mt_L : L = preL ++ a :: midL ++ mm :: postL;
  mt_R : R = pre ++ c :: mid ++ r :: post;
  mt_ret : isReturn r;
  mt_id : id r = id c;
  mt_a : ret !! id c = Some mm;
}.

Lemma find_match h L R pre c suf :
  Forall2 (nodeFor h ret) L R → wfHistory R → R = pre ++ c :: suf → isCall c →
  ∃ preL a midL mm postL mid r post, matched L R preL a midL mm postL pre c mid r post ∧ suf = mid ++ r :: post ∧
    length preL = length pre ∧ nodeFor h ret a c ∧ nodeFor h ret mm r ∧
    Forall2 (nodeFor h ret) (preL ++ midL ++ postL) (pre ++ mid ++ post).
Proof.
  intros HF HR E Hc. destruct (wf_match _ HR pre c suf E Hc) as (r & Hr & Hret & Hid). subst R.
  apply list_elem_of_split in Hr as (mid & post & ->).
  apply Forall2_app_inv_r in HF as (preL & L1 & HF1 & HF & ->).
  apply Forall2_cons_inv_r in HF as (a & L2 & Ha & HF & ->).
  apply Forall2_app_inv_r in HF as (midL & L3 & HF2 & HF & ->).
  apply Forall2_cons_inv_r in HF as (mm & postL & Hm & HF3 & ->).
  exists preL, a, midL, mm, postL, mid, r, post. split_and!; try done.
  - split; try done. destruct Hm as (? & _ & _ & _ & _ & Hm). rewrite <-Hid. by apply Hm.
  - by apply Forall2_length in HF1.
  - by repeat apply Forall2_app.
Qed.

(** Two states of the loop that agree on the level; only entry, cache and [longest] may differ. *)
Definition sameLevel s s' : Prop :=
  s_heap s' = s_heap s ∧ s_state s' = s_state s ∧ s_linearized s' = s_linearized s ∧ s_calls s' = s_calls s.

(** New cache entries belong to smaller remainders. *)
Definition grows s s' (k : nat) : Prop := ∀ hsh l ce, s_cache s' !! hsh = Some l → ce ∈ l →
  (∃ l', s_cache s !! hsh = Some l' ∧ ce ∈ l') ∨ (length (rem (ce_linearized ce)) < k)%nat.

Lemma level_same s s' L R ids :
  level s L R ids → sameLevel s s' → cacheOK (s_cache s') (length R) → zlen (s_longest s') = n → level s' L R ids.
Proof. intros [] (E1 & E2 & E3 & E4) ? ?. split; rewrite ?E1, ?E3, ?E4; done. Qed.

Lemma unique_return R c r r' : wfHistory R → r ∈ R → r' ∈ R → isReturn r → isReturn r' → id r = id c → id r' = id c → r' = r.
Proof. intros HR ? ? ? ? ? ?. apply (NoDup_fmap_split id isReturn R); [apply HR|done..|congruence]. Qed.

(** What an iteration at a call entry does when it does not go deeper. *)
Definition skips R c s s' : Prop := sameLevel s s' ∧ s_cache s' = s_cache s ∧ s_longest s' = s_longest s ∧ tried R (s_state s) c.

(** What it does when it goes deeper, and that backtracking undoes it. *)
Record deepens (L : list nat) R ids c (nxt : option nat) s s1 L1 : Prop := {
  dp_level : level s1 L1 (without (id c) R) (ids ++ [id c]);
  dp_entry : s_entry s1 = L1 !! 0%nat;
  dp_cache hsh l ce : s_cache s1 !! hsh = Some l → ce ∈ l →
    (∃ l', s_cache s !! hsh = Some l' ∧ ce ∈ l') ∨
    (rem (ce_linearized ce) = without (id c) R ∧ ce_state ce = s_state s1);
  dp_step r : r ∈ R → isReturn r → id r = id c → Step m (s_state s) (value c) (value r) = Some (true, s_state s1);
  dp_back s2 : sameLevel s1 s2 → zlen (s_longest s2) = n → ∃ s3, backtrack computePartial s2 = Some (Continue s3) ∧
    sameLevel s s3 ∧ s_entry s3 = nxt ∧ s_cache s3 = s_cache s2 ∧ zlen (s_longest s3) = n;
}.

Lemma length_without R c pre mid r post : R = pre ++ c :: mid ++ r :: post →
  length R = S (S (length (pre ++ mid ++ post))).
Proof. intros ->. rewrite !length_app. simpl. rewrite !length_app. simpl. lia. Qed.

Lemma backtrack_undo s s2 h1 b b1 calls a nd st nxt ids :
  s_heap s2 = h1 → s_linearized s2 = b1 → s_calls s2 = calls ++ [mkCallsEntry a st] →
  zlen (s_longest s2) = n → callIds h1 (calls ++ [mkCallsEntry a st]) = Some ids → Forall (λ i, 0 ≤ i < n) ids →
  h1 !! a = Some nd → clear b1 (toUint (nid nd)) = Some b → unlift a h1 = Some (s_heap s) → nextOf a (s_heap s) = Some nxt →
  s_state s = st → s_linearized s = b → s_calls s = calls →
  ∃ s3, backtrack computePartial s2 = Some (Continue s3) ∧
    sameLevel s s3 ∧ s_entry s3 = nxt ∧ s_cache s3 = s_cache s2 ∧ zlen (s_longest s3) = n.
Proof.
  intros Hh Hb Hc Hl Hci Hi Hnd Hcl Hun Hnx Es El Ec. unfold backtrack. rewrite Hc, last_snoc, Hh, Hb.
  destruct (updateLongest_ok h1 _ _ _ Hci Hi Hl) as (lg & Hup & Hlg). cbn [cl_entry cl_state].
  assert (∃ lg', (if computePartial then updateLongest h1 (calls ++ [mkCallsEntry a st]) (s_longest s2)
    else Some (s_longest s2)) = Some lg' ∧ zlen lg' = n) as (lg' & -> & Hlg') by (destruct computePartial; eauto).
  simpl. rewrite Hnd. simpl. rewrite Hcl. simpl. rewrite Hun. simpl. rewrite Hnx. simpl.
  eexists. split; [done|]. simpl. split_and!; [|done..]. unfold sameLevel. simpl. split_and!; [done|done|done|].
  rewrite length_app. simpl. replace (length calls + 1 - 1)%nat with (length calls) by lia. rewrite take_app_length. done.
Qed.

(** The iteration stands at the call [c]: its node, its return, and the set with [c] added. *)
Record callAt s (L : list nat) R pre c preL a midL mm postL mid r post (nd nm : node V) b1 : Prop := {
  ca_R : R = pre ++ c :: mid ++ r :: post;
  ca_wf : wfHistory R;
  ca_ret : isReturn r;
  ca_id : id r = id c;
  ca_dll : dll (s_heap s) (hd :: preL ++ a :: midL ++ mm :: postL);
  ca_next : L !! S (length pre) = head (midL ++ mm :: postL);
  ca_rest : Forall2 (nodeFor (s_heap s) ret) (preL ++ midL ++ postL) (pre ++ mid ++ post);
  ca_nd : s_heap s !! a = Some nd ∧ nvalue nd = value c ∧ nid nd = id c ∧ nmatch nd = Some mm;
  ca_ndnext : next nd = L !! S (length pre);
  ca_nm : s_heap s !! mm = Some nm ∧ nvalue nm = value r;
  ca_in : c ∈ R0 ∧ r ∈ R0;
  ca_out : member (s_linearized s) (id c) = false;
  ca_set : set (s_linearized s) (id c) = Some b1;
  ca_set_wf : wf b1 ∧ length b1 = nb;
  ca_member j : member b1 j = (j =? id c) || member (s_linearized s) j;
  ca_rem : rem b1 = without (id c) R;
  ca_without : without (id c) R = pre ++ mid ++ post;
}.

Lemma locate s L R ids pre c suf :
  level s L R ids → R = pre ++ c :: suf → isCall c → s_entry s = L !! length pre →
  ∃ preL a midL mm postL mid r post nd nm b1,
    callAt s L R pre c preL a midL mm postL mid r post nd nm b1 ∧
    iterate m computePartial n hd false s = tryCall m hd a nd mm s.
Proof.
  intros Hlv ER Hc He. pose proof (rem_wf (s_linearized s)) as HR. rewrite <-(lv_rem _ _ _ _ Hlv) in HR.
  destruct (find_match _ _ _ pre c suf (lv_nodes _ _ _ _ Hlv) HR ER Hc)
    as (preL & a & midL & mm & postL & mid & r & post & [EL ER' Hret Hid Hmm] & _ & Hlen & Hna & Hnm & HF).
  pose proof (lv_dll _ _ _ _ Hlv) as Hd. rewrite EL in Hd.
  destruct (dll_next _ _ _ _ Hd) as (nd & Hnd & Hnx).
  destruct Hna as (nd' & Hnd' & Hval & Hnid & Hmt & _). assert (nd' = nd) as -> by congruence. clear Hnd'.
  destruct Hnm as (nm & Hnmm & Hvalm & _).
  assert (L !! length pre = Some a) as Ha by (rewrite EL, <-Hlen; by apply list_lookup_middle).
  assert (L !! S (length pre) = head (midL ++ mm :: postL)) as Hs.
  { rewrite EL, lookup_app_r, <-Hlen by lia. replace (S (length preL) - length preL)%nat with 1%nat by lia. by destruct midL. }
  assert (nmatch nd = Some mm) as Hmt' by (rewrite Hmt, <-Hmm; unfold isCall, callEntry in Hc; by rewrite Hc).
  assert (c ∈ R0 ∧ member (s_linearized s) (id c) = false) as [Hc0 Hcm].
  { assert (c ∈ rem (s_linearized s)) as Hin by (rewrite <-(lv_rem _ _ _ _ Hlv), ER'; set_solver).
    apply list_elem_of_filter in Hin. tauto. }
  assert (r ∈ R0) as Hr0.
  { assert (r ∈ rem (s_linearized s)) as Hin by (rewrite <-(lv_rem _ _ _ _ Hlv), ER'; set_solver).
    apply list_elem_of_filter in Hin. tauto. }
  destruct (room_id (s_linearized s) (id c)) as [Hrm _]; [apply Hlv|by apply Hids|].
  destruct (set_spec (s_linearized s) (id c)) as (b1 & Hb1 & Hwb1 & Hlb1 & Hmb1); [apply Hlv|done|].
  exists preL, a, midL, mm, postL, mid, r, post, nd, nm, b1. split.
  - split; try done; try congruence.
    + split; [done|]. rewrite Hlb1. apply Hlv.
    + rewrite (rem_set _ _ _ Hmb1). by rewrite <-(lv_rem _ _ _ _ Hlv).
    + by apply (without_split R c pre mid r post).
  - unfold iterate. rewrite (dll_first _ _ Hd).
    replace (head (preL ++ a :: midL ++ mm :: postL)) with (Some (default a (head preL))) by (by destruct preL). simpl.
    rewrite He, Ha. simpl. rewrite Hnd. simpl. by rewrite Hmt'.
Qed.

(** The cache after the insertion of a configuration. *)
Lemma cache_insert (cache : gmap Z (list (cacheEntry (St := St)))) k e hsh l ce :
  <[k := default [] (cache !! k) ++ [e]]> cache !! hsh = Some l → ce ∈ l →
  (∃ l', cache !! hsh = Some l' ∧ ce ∈ l') ∨ ce = e.
Proof.
  intros [[<- <-]|[_ Hl]]%lookup_insert_Some Hin; [|by left; exists l].
  apply elem_of_app in Hin as [Hin|Hin%list_elem_of_singleton]; [|by right]. left.
  destruct (cache !! k) as [l'|]; [by exists l'|set_solver].
Qed.

(** Going deeper: the operation leaves the list, and backtracking puts it back. *)
Lemma call_deepen s L R ids pre c preL a midL mm postL mid r post nd nm b1 st' h1 :
  level s L R ids → callAt s L R pre c preL a midL mm postL mid r post nd nm b1 → isCall c →
  Step m (s_state s) (value c) (value r) = Some (true, st') →
  lift a (s_heap s) = Some h1 → dll h1 (hd :: preL ++ midL ++ postL) → sameStatic h1 (s_heap s) →
  unlift a h1 = Some (s_heap s) →
  deepens L R ids c (L !! S (length pre)) s
    (mkSearch h1 (head (preL ++ midL ++ postL)) st' b1
       (<[hash b1 := default [] (s_cache s !! hash b1) ++ [mkCacheEntry b1 st']]> (s_cache s))
       (s_calls s ++ [mkCallsEntry a (s_state s)]) (s_longest s))
    (preL ++ midL ++ postL).
Proof.
  intros Hlv Hca Hc Hst Hlift Hd1 Hst1 Hunl.
  destruct Hca as [ER HR Hret Hid Hd Hs HF (Hnd & Hval & Hnid & Hmt) Hnx _ [Hc0 _] Hcm Hb1 [Hwb1 Hlb1] Hmb1 Hrem1 Hwo].
  destruct (room_id (s_linearized s) (id c)) as [Hrm Hu]; [apply Hlv|by apply Hids|].
  pose proof (length_without _ _ _ _ _ _ ER) as HlenR.
  destruct (sameStatic_lookup _ _ _ _ Hst1 Hnd) as (nd1 & Hnd1 & Est).
  assert (nid nd1 = id c) as Hnid1 by (unfold static in Est; congruence).
  assert (callIds h1 (s_calls s ++ [mkCallsEntry a (s_state s)]) = Some (ids ++ [id c])) as Hci.
  { rewrite <-Hnid1. eapply callIds_snoc; [|done]. rewrite (callIds_static (s_heap s) h1) by done. apply Hlv. }
  assert (Forall (λ i, 0 ≤ i < n) (ids ++ [id c])) as Hir.
  { apply Forall_app. split; [apply Hlv|]. constructor; [by apply Hids|constructor]. }
  split; simpl.
  - split; simpl; try done.
    + rewrite Hwo. by eapply nodes_static.
    + intros hsh l ce Hl Hin Hlt. destruct (cache_insert _ _ _ _ _ _ Hl Hin) as [(l' & Hl' & Hin')|E].
      * eapply (lv_cache _ _ _ _ Hlv); [done|done|]. rewrite Hwo in Hlt. lia.
      * subst ce. simpl in Hlt. rewrite Hrem1 in Hlt. lia.
    + apply Hlv.
  - by destruct (preL ++ midL ++ postL).
  - intros hsh l ce Hl Hin. destruct (cache_insert _ _ _ _ _ _ Hl Hin) as [?| ->]; [by left|by right].
  - intros r' Hr' Hret' Hid'. rewrite (unique_return R c r r'); try done. rewrite ER. set_solver.
  - intros s2 (E1 & E2 & E3 & E4) Hlg. simpl in *.
    destruct (clear_spec b1 (id c)) as (b2 & Hb2 & Hwb2 & Hlb2 & Hmb2); [done| |].
    { unfold room, zlen in *. rewrite Hlb1, <-(lv_len _ _ _ _ Hlv). done. }
    eapply (backtrack_undo s s2 h1 b2 b1 (s_calls s) a nd1); try done.
    + by rewrite Hnid1, Hu.
    + unfold nextOf. rewrite Hnd. simpl. by rewrite Hnx.
    + symmetry. apply member_ext; [done|apply Hlv|rewrite Hlb2, Hlb1; symmetry; apply Hlv|]. intros j _. rewrite Hmb2, Hmb1.
      destruct (Z.eqb_spec j (id c)) as [->|]; [by rewrite Hcm|done].
Qed.

Lemma call_step s L R ids pre c suf :
  level s L R ids → R = pre ++ c :: suf → isCall c → s_entry s = L !! length pre →
  (∃ s', iterate m computePartial n hd false s = Some (Continue s') ∧ skips R c s s' ∧ s_entry s' = L !! S (length pre)) ∨
  (∃ s1 L1, iterate m computePartial n hd false s = Some (Continue s1) ∧ deepens L R ids c (L !! S (length pre)) s s1 L1).
Proof.
  intros Hlv ER0 Hc He.
  destruct (locate _ _ _ _ _ _ _ Hlv ER0 Hc He)
    as (preL & a & midL & mm & postL & mid & r & post & nd & nm & b1 & Hca & ->).
  pose proof Hca as [ER HR Hret Hid Hd Hs _ (Hnd & Hval & Hnid & Hmt) Hnx (Hnm & Hvalm) [Hc0 Hr0] _ Hb1 _ _ Hrem1 Hwo].
  assert (∀ r', r' ∈ R → isReturn r' → id r' = id c → r' = r) as Hur.
  { intros r' ? ? ?. eapply (unique_return R c); try done. rewrite ER. set_solver. }
  destruct (room_id (s_linearized s) (id c)) as [_ Hu]; [apply Hlv|by apply Hids|].
  unfold tryCall. rewrite Hnm. simpl. rewrite Hval, Hvalm, Hnid, Hu. unfold clone. rewrite take_ge, Hb1 by done.
  destruct (Step m (s_state s) (value c) (value r)) as [[ok st']|] eqn:Hst; simpl.
  2:{ destruct (Hstep c r (s_state s)) as [? E]; [done|done|done|done|done|congruence]. }
  destruct ok.
  2:{ left. eexists. split; [done|]. split; [|done]. unfold skips. split_and!; [done..|].
      intros r' st'' Hr' Hret' Hid' Hst'. rewrite (Hur r' Hr' Hret' Hid') in Hst'. congruence. }
  destruct (cacheContains m (s_cache s) (mkCacheEntry b1 st')) eqn:Hcc; simpl.
  { left. eexists. split; [done|]. split; [|done]. unfold skips. split_and!; [done..|].
    intros r' st'' Hr' Hret' Hid' Hst'. rewrite (Hur r' Hr' Hret' Hid') in Hst'. replace st'' with st' by congruence.
    rewrite <-Hrem1. eapply cacheContains_dead; [apply Hlv|exact Hcc|].
    rewrite Hrem1, Hwo, (length_without _ _ _ _ _ _ ER). lia. }
  destruct (lift_unlift _ hd preL a midL mm postL nd Hd Hnd Hmt) as (h1 & Hlift & Hd1 & Hst1 & Hunl).
  rewrite Hlift. simpl. rewrite (dll_first _ _ Hd1). simpl. right.
  eexists _, _. split; [done|]. by eapply call_deepen.
Qed.

(** ** The loop *)

Lemma loop_continue f s s' : iterate m computePartial n hd false s = Some (Continue s') → loop (S f) s = loop f s'.
Proof. intros E. simpl. by rewrite E. Qed.

(** The loop returns true with a linearization of the level. *)
Definition succeeds s R ids : Prop := ∃ π f, linz R (s_state s) π ∧
  ∀ f', loop (f + f') s = Some (Some (true, replicate (Z.to_nat n) (Some (ids ++ π)))).

(** The loop comes to a return entry of the level, which is dead. *)
Definition exhausts s L R ids : Prop := ∃ s' f a nd, dead R (s_state s) ∧ level s' L R ids ∧ sameLevel s s' ∧
  grows s s' (length R) ∧ s_entry s' = Some a ∧ s_heap s' !! a = Some nd ∧ nmatch nd = None ∧
  ∀ f', loop (f + f') s = loop f' s'.

Lemma succeeds_later s s' R ids : iterate m computePartial n hd false s = Some (Continue s') →
  s_state s' = s_state s → succeeds s' R ids → succeeds s R ids.
Proof.
  intros E Es (π & f & Hl & Hf). exists π, (S f). split; [by rewrite <-Es|]. intros f'. simpl plus.
  rewrite (loop_continue _ _ s') by done. apply Hf.
Qed.

Lemma exhausts_later s s' f0 L R ids : (∀ f', loop (f0 + f') s = loop f' s') → sameLevel s s' → grows s s' (length R) →
  exhausts s' L R ids → exhausts s L R ids.
Proof.
  intros E (E1 & E2 & E3 & E4) Hg (s2 & f & a & nd & Hd & Hlv & (F1 & F2 & F3 & F4) & Hg2 & Ha & Hnd & Hm & Hf).
  exists s2, (f0 + f)%nat, a, nd. split_and!; try done.
  - by rewrite <-E2.
  - unfold sameLevel. split_and!; congruence.
  - intros hsh l ce Hl Hin. destruct (Hg2 hsh l ce Hl Hin) as [(l' & Hl' & Hin')|?]; [|by right]. by apply (Hg hsh l').
  - intros f'. rewrite <-Nat.add_assoc, E. apply Hf.
Qed.

Lemma done_true s ids : level s [] [] ids → succeeds s [] ids.
Proof.
  intros Hlv. exists [], 1%nat. split; [constructor|]. intros f'. simpl. unfold iterate.
  rewrite (dll_first _ _ (lv_dll _ _ _ _ Hlv)). simpl. rewrite (lv_calls _ _ _ _ Hlv). simpl.
  rewrite fill_all by (apply Hlv). simpl. by rewrite app_nil_r.
Qed.

Lemma without_shorter R c : c ∈ R → (length (without (id c) R) < length R)%nat.
Proof.
  intros (X & Y & ->)%list_elem_of_split. unfold without. rewrite filter_app, filter_cons_False by (intros H; by apply H).
  rewrite !length_app. simpl. pose proof (length_filter (λ x, id x ≠ id c) X). pose proof (length_filter (λ x, id x ≠ id c) Y). lia.
Qed.

(** Coming back from a dead level below. *)
Lemma return_from s s1 s2 L L1 R ids c nxt a nd :
  level s L R ids → deepens L R ids c nxt s s1 L1 → wfHistory R → c ∈ R → isCall c → L1 ≠ [] →
  dead (without (id c) R) (s_state s1) → level s2 L1 (without (id c) R) (ids ++ [id c]) → sameLevel s1 s2 →
  grows s1 s2 (length (without (id c) R)) → s_entry s2 = Some a → s_heap s2 !! a = Some nd → nmatch nd = None →
  ∃ s3, iterate m computePartial n hd false s2 = Some (Continue s3) ∧ level s3 L R ids ∧ sameLevel s s3 ∧
    s_entry s3 = nxt ∧ grows s s3 (length R) ∧ tried R (s_state s) c.
Proof.
  intros Hlv Hdp HR Hc Hcc HL1 Hdead Hlv2 Hsame Hg Ha Hnd Hmt.
  destruct (dp_back _ _ _ _ _ _ _ _ Hdp s2 Hsame (lv_longest _ _ _ _ Hlv2)) as (s3 & Hb & Hs3 & He3 & Hc3 & Hl3).
  pose proof (without_shorter R c Hc) as Hlt.
  assert (∀ hsh l ce, s_cache s3 !! hsh = Some l → ce ∈ l →
    (∃ l', s_cache s !! hsh = Some l' ∧ ce ∈ l') ∨
    ((length (rem (ce_linearized ce)) < length R)%nat ∧ dead (rem (ce_linearized ce)) (ce_state ce))) as Hcache.
  { intros hsh l ce Hl Hin. rewrite Hc3 in Hl.
    destruct (decide (length (rem (ce_linearized ce)) < length (without (id c) R))%nat) as [Hsm|Hsm].
    - right. split; [lia|]. by eapply (lv_cache _ _ _ _ Hlv2).
    - destruct (Hg hsh l ce Hl Hin) as [(l' & Hl' & Hin')|?]; [|done].
      destruct (dp_cache _ _ _ _ _ _ _ _ Hdp hsh l' ce Hl' Hin') as [?|[-> ->]]; [by left|]. right. by split. }
  exists s3. split_and!; [| |done|done| |].
  - unfold iterate. rewrite (dll_first _ _ (lv_dll _ _ _ _ Hlv2)). destruct L1 as [|b L1]; [done|]. simpl.
    rewrite Ha. simpl. rewrite Hnd. simpl. rewrite Hmt. done.
  - eapply level_same; [done|done| |done]. intros hsh l ce Hl Hin Hk.
    destruct (Hcache hsh l ce Hl Hin) as [(l' & Hl' & Hin')|[_ ?]]; [|done]. by eapply (lv_cache _ _ _ _ Hlv).
  - intros hsh l ce Hl Hin. destruct (Hcache hsh l ce Hl Hin) as [?|[? _]]; [by left|by right].
  - intros r st' Hr Hret Hid Hst. rewrite (dp_step _ _ _ _ _ _ _ _ Hdp r Hr Hret Hid) in Hst. by injection Hst as <-.
Qed.

(** The loop from an entry of a level whose earlier calls have been tried. *)
Definition explored (k : nat) : Prop := ∀ suf pre R L s ids,
  (length R < k)%nat → level s L R ids → R = pre ++ suf → Forall isCall pre →
  (∀ c, c ∈ pre → tried R (s_state s) c) → s_entry s = L !! length pre → R ≠ [] →
  succeeds s R ids ∨ exhausts s L R ids.

(** Linearizing a call, exploring the level below, and coming back. *)
Lemma deepen_explored k s s1 L L1 R ids pre c suf nxt :
  explored k → (length R < S k)%nat → level s L R ids → R = pre ++ c :: suf → Forall isCall pre → isCall c →
  deepens L R ids c nxt s s1 L1 → iterate m computePartial n hd false s = Some (Continue s1) →
  succeeds s R ids ∨ ∃ s3 f, (∀ f', loop (f + f') s = loop f' s3) ∧ level s3 L R ids ∧ sameLevel s s3 ∧
    s_entry s3 = nxt ∧ grows s s3 (length R) ∧ tried R (s_state s) c.
Proof.
  intros IH Hk Hlv ER Hpre Hcc Hdp Hit. pose proof (dp_level _ _ _ _ _ _ _ _ Hdp) as Hlv1.
  pose proof (rem_wf (s_linearized s)) as HR. rewrite <-(lv_rem _ _ _ _ Hlv) in HR.
  assert (c ∈ R) as Hc by (rewrite ER; set_solver). pose proof (without_shorter R c Hc) as Hlt.
  assert (succeeds s1 (without (id c) R) (ids ++ [id c]) → succeeds s R ids) as Hup.
  { intros (π & f & Hl & Hf). destruct (wf_match _ HR pre c suf ER Hcc) as (r & Hr & Hret & Hid).
    exists (id c :: π), (S f). split.
    - rewrite ER in Hl |- *. eapply (linz_cons _ pre c suf r); try done.
      rewrite ER in Hdp. apply (dp_step _ _ _ _ _ _ _ _ Hdp); [set_solver|done|done].
    - intros f'. simpl plus. rewrite (loop_continue _ _ s1), Hf by done. by rewrite <-app_assoc. }
  destruct (decide (without (id c) R = [])) as [Hnil|Hnil].
  - left. apply Hup. rewrite Hnil in *. pose proof (Forall2_length _ _ _ (lv_nodes _ _ _ _ Hlv1)) as HL1.
    destruct L1; [|done]. by apply done_true.
  - destruct (IH (without (id c) R) [] (without (id c) R) L1 s1 (ids ++ [id c])) as [Hs|Hx]; try done.
    + lia.
    + set_solver.
    + by rewrite (dp_entry _ _ _ _ _ _ _ _ Hdp).
    + left. by apply Hup.
    + right. destruct Hx as (s2 & f & a & nd & Hdead & Hlv2 & Hsame & Hg & Ha & Hnd & Hmt & Hf).
      destruct (return_from s s1 s2 L L1 R ids c nxt a nd) as (s3 & Hit3 & Hlv3 & Hs3 & He3 & Hg3 & Ht3); try done.
      { intros ->. apply Hnil. by eapply Forall2_nil_inv_l, (lv_nodes _ _ _ _ Hlv1). }
      exists s3, (S (f + 1)). split_and!; try done. intros f'. simpl plus.
      rewrite (loop_continue _ _ s1), <-Nat.add_assoc, Hf by done. simpl plus. by rewrite (loop_continue _ _ s3).
Qed.

Lemma explore k : explored k.
Proof.
  induction k as [|k IHk]; [intros suf pre R L s ids Hk; lia|].
  intros suf. induction suf as [|x suf IHsuf]; intros pre R L s ids Hk Hlv ER Hpre Ht He Hne.
  { exfalso. rewrite app_nil_r in ER. subst pre. pose proof (rem_wf (s_linearized s)) as HR.
    rewrite <-(lv_rem _ _ _ _ Hlv) in HR. destruct R as [|x R]; [done|]. apply Forall_cons in Hpre as [Hx Hpre].
    destruct (wf_match _ HR [] x R eq_refl Hx) as (r & Hr & Hret & _). rewrite Forall_forall in Hpre.
    by destruct (call_not_return r); [apply Hpre|]. }
  assert (R = (pre ++ [x]) ++ suf) as ER' by (by rewrite <-app_assoc).
  destruct (call_or_return x) as [Hx|Hx].
  - assert (∀ s', sameLevel s s' → tried R (s_state s) x → ∀ c, c ∈ pre ++ [x] → tried R (s_state s') c) as Ht'.
    { intros s' (_ & Es & _) Htx c [Hc| ->%list_elem_of_singleton]%elem_of_app; rewrite Es; [by apply Ht|done]. }
    assert (Forall isCall (pre ++ [x])) as Hpre' by (apply Forall_app; split; [done|by constructor]).
    destruct (call_step s L R ids pre x suf Hlv ER Hx He) as [(s' & Hit & Hsk & He')|(s1 & L1 & Hit & Hdp)].
    + destruct Hsk as (Hsame & Hc & Hlg & Htx).
      destruct (IHsuf (pre ++ [x]) R L s' ids) as [Hs|Hs]; auto.
      * eapply level_same; [done|done|rewrite Hc; apply Hlv|rewrite Hlg; apply Hlv].
      * rewrite He', length_app. simpl. f_equal. lia.
      * left. eapply succeeds_later; [done|apply Hsame|done].
      * right. eapply (exhausts_later s s' 1); [intros f'; by apply loop_continue|done| |done].
        intros hsh l ce Hl Hin. rewrite Hc in Hl. left. by exists l.
    + destruct (deepen_explored k s s1 L L1 R ids pre x suf _ IHk Hk Hlv ER Hpre Hx Hdp Hit)
        as [Hs|(s3 & f & Hf & Hlv3 & Hs3 & He3 & Hg3 & Ht3)]; [by left|].
      destruct (IHsuf (pre ++ [x]) R L s3 ids) as [Hs|Hs]; auto.
      * rewrite He3, length_app. simpl. f_equal. lia.
      * left. destruct Hs as (π & f2 & Hl & Hf2). exists π, (f + f2)%nat. split; [by rewrite (proj1 (proj2 Hs3)) in Hl|].
        intros f'. by rewrite <-Nat.add_assoc, Hf, Hf2.
      * right. by eapply exhausts_later.
  - right. pose proof (lv_nodes _ _ _ _ Hlv) as HF. rewrite ER in HF.
    apply Forall2_app_inv_r in HF as (preL & L2 & HF1 & HF2 & EL).
    apply Forall2_cons_inv_r in HF2 as (a & sufL & (nd & Hnd & _ & _ & Hmt & _) & _ & ->).
    unfold isReturn, returnEntry in Hx. rewrite Hx in Hmt.
    exists s, 0%nat, a, nd. split_and!; try done.
    + by apply (all_tried_dead R _ pre x suf).
    + intros hsh l ce Hl Hin. left. by exists l.
    + rewrite He, EL. apply Forall2_length in HF1. rewrite <-HF1. by apply list_lookup_middle.
Qed.

(** A whole level, from its first entry, at the bottom of the stack. *)
Lemma explore_root s L R :
  level s L R [] → s_entry s = L !! 0%nat → s_calls s = [] →
  (∃ π f, linz R (s_state s) π ∧ ∀ f', loop (f + f') s = Some (Some (true, replicate (Z.to_nat n) (Some π)))) ∨
  (∃ f lg, dead R (s_state s) ∧ ∀ f', loop (f + f') s = Some (Some (false, lg))).
Proof.
  intros Hlv He Hcalls. destruct (decide (R = [])) as [->|Hne].
  { left. pose proof (Forall2_nil_inv_r _ _ (lv_nodes _ _ _ _ Hlv)) as ->. by apply (done_true s []). }
  destruct (explore (S (length R)) R [] R L s []) as [Hs|Hx]; try done; [lia|set_solver|by left|].
  right. destruct Hx as (s' & f & a & nd & Hd & Hlv' & (_ & _ & _ & Ec) & _ & Ha & Hnd & Hmt & Hf).
  exists (f + 1)%nat, (s_longest s'). split; [done|]. intros f'. rewrite <-Nat.add_assoc, Hf. simpl. unfold iterate.
  rewrite (dll_first _ _ (lv_dll _ _ _ _ Hlv')). destruct L as [|b L].
  { by destruct Hne; eapply Forall2_nil_inv_l, (lv_nodes _ _ _ _ Hlv). }
  simpl. rewrite Ha. simpl. rewrite Hnd. simpl. rewrite Hmt. unfold backtrack. by rewrite Ec, Hcalls.
Qed.
End search.
