(* ===== verification/PorcupineFacts.v ===== *)
(** * Correctness of the checker

    [checkSingle] decides linearizability: on a well-formed history it returns,
    and it returns true exactly when a linearization exists, which is then the one
    reported.  [makeEntries] turns operations with their times into such a history,
    and [checkParallel] combines the partitions. *)

From S2P Require Import Prelude Bitset Porcupine PorcupineHeap PorcupineSpec PorcupineSearch.
Open Scope go_scope.

Section facts.
Context {V St : Type} (nilV : V) `{!EqDecision St}.
Implicit Types (m : Model V St) (R : list (entry V)) (ops : list (Operation V)).

(** The documented contract of [Equal]: it is an equality on states. *)
Definition equalIsEquality m : Prop := ∀ s t, modelEqual m s t = true → s = t.

(** Ids are numbered from 0 and the length of a slice is an [int]. *)
Definition numbered R : Prop := zlen R < 2 ^ 63 ∧ ∀ x, x ∈ R → 0 ≤ id x < zlen R / 2.

(** The model accepts the types of the values of the history. *)
Definition stepDefined m R : Prop := ∀ c r st,
  c ∈ R → r ∈ R → isCall c → isReturn r → id r = id c → is_Some (Step m st (value c) (value r)).

Lemma startSearch_level m R :
  wfHistory R → numbered R → ∃ s head L ret,
    startSearch nilV m R = Some (zlen R / 2, head, s) ∧
    level m R ret head (zlen R / 2) (length (newBitset (zlen R / 2))) s L R [] ∧
    s_entry s = L !! 0%nat ∧ s_calls s = [] ∧ s_state s = Init m.
Proof.
  intros Hwf [Hlen Hids]. unfold startSearch.
  destruct (makeLinkedEntries_spec R (wf_linkable R Hwf)) as (h & ret & L & -> & Hh & Hd & Hlt & HF). simpl.
  rewrite (lengthFrom_dseg h None L (length h)); [|apply Hd|apply Forall2_length in HF; lia]. simpl.
  replace (zlen L) with (zlen R) by (unfold zlen; by rewrite (Forall2_length _ _ _ HF)).
  destruct (push_front h L nilV None (-1) Hd Hlt) as (h' & -> & Hd' & Hs & _). simpl.
  assert (0 ≤ zlen R / 2) by (apply Z.div_pos; [apply zlen_nonneg|lia]).
  destruct (newBitset_spec (zlen R / 2)) as (Hw & _ & Hm); [done|].
  eexists _, _, L, ret. split; [done|]. split_and!; [|by destruct L|done|done]. split; simpl; try done.
  - eapply nodes_static; [exact Hs|]. eapply Forall2_impl; [exact HF|]. intros. by apply nodeFor_app.
  - unfold rem. rewrite filter_all; [done|]. intros. apply Hm.
  - unfold zlen at 1. rewrite length_replicate. lia.
Qed.

Lemma newBitset_room n : 0 ≤ n → n ≤ 64 * Z.of_nat (length (newBitset n)).
Proof.
  intros Hn. destruct (decide (n = 0)) as [->|]; [lia|]. destruct (newBitset_spec n Hn) as (_ & Hr & _).
  specialize (Hr (n - 1) ltac:(lia)). unfold room, zlen in Hr. lia.
Qed.

(** The two ways the loop ends. *)
Lemma checkSingle_runs m R computePartial :
  equalIsEquality m → wfHistory R → numbered R → stepDefined m R → ∃ fuel,
    (∃ π, linearization (Step m) R (Init m) π ∧ ∀ f, checkSingle nilV (fuel + f) m R computePartial (λ _, false)
       = Some (Some (true, replicate (Z.to_nat (zlen R / 2)) (Some π)))) ∨
    (∃ longest, (∀ π, ¬ linearization (Step m) R (Init m) π) ∧
       ∀ f, checkSingle nilV (fuel + f) m R computePartial (λ _, false) = Some (Some (false, longest))).
Proof.
  intros Heq Hwf Hnum Hst. destruct (startSearch_level m R Hwf Hnum) as (s & hd & L & ret & Hstart & Hlv & He & Hc & Hs).
  destruct Hnum as [Hlen Hids]. pose proof (zlen_nonneg R). assert (0 ≤ zlen R / 2) by (apply Z.div_pos; lia).
  assert (zlen R / 2 ≤ 2 ^ 64) by (transitivity (zlen R); [apply Z.div_le_upper_bound|]; lia).
  unfold checkSingle. rewrite Hstart.
  destruct (explore_root m computePartial R ret hd (zlen R / 2) (length (newBitset (zlen R / 2))) Heq Hwf Hids Hst
    (newBitset_room _ ltac:(done)) ltac:(done) s L R Hlv He Hc) as [(π & f & Hl & Hf)|(f & lg & Hd & Hf)]; rewrite Hs in *;
    exists f.
  - left. exists π. split; [by apply linz_linearization|done].
  - right. exists lg. split; [|done]. intros π Hl. by destruct (Hd π); apply linearization_linz.
Qed.

(** The flag [kill] only makes the loop return false. *)
Lemma searchLoop_kill m cp n hd kill fuel s lg :
  searchLoop m cp n hd kill fuel s = Some (Some (true, lg)) →
  searchLoop m cp n hd (λ _, false) fuel s = Some (Some (true, lg)).
Proof.
  revert kill s. induction fuel as [|fuel IH]; intros kill s; simpl; [done|].
  destruct (kill 0%nat) eqn:E.
  - unfold iterate. destruct (nextOf hd (s_heap s)) as [[a|]|]; simpl; [done| |done].
    destruct (callIds _ _); simpl; [|done]. destruct (foldM _ _ _); done.
  - destruct (iterate m cp n hd false s) as [[s'|ok lg']|]; [apply IH|done|done].
Qed.

Lemma searchLoop_fuel m cp n hd kill fuel g s x :
  searchLoop m cp n hd kill fuel s = Some x → searchLoop m cp n hd kill (fuel + g) s = Some x.
Proof.
  revert kill s. induction fuel as [|fuel IH]; intros kill s; simpl; [done|].
  destruct (iterate m cp n hd (kill 0%nat) s) as [[s'|ok lg']|]; [apply IH|done|done].
Qed.

(** A positive answer, with any flag, is the answer of the search that is not killed. *)
Lemma checkSingle_unkilled m R cp kill fuel g longest :
  checkSingle nilV fuel m R cp kill = Some (Some (true, longest)) →
  checkSingle nilV (fuel + g) m R cp (λ _, false) = Some (Some (true, longest)).
Proof.
  unfold checkSingle. destruct (startSearch nilV m R) as [[[n hd] s]|]; [|done].
  intros H%searchLoop_kill. by apply searchLoop_fuel.
Qed.

(** C12: the checker decides linearizability.  On a well-formed history, for any
    model whose [Equal] only equates equal states, the loop of [checkSingle]
    terminates without a panic; it returns true exactly when some order of the
    operations is accepted by the model and keeps the order of operations that do
    not overlap, and then every entry of the result is such an order. *)
Theorem checkSingle_decides m R computePartial :
  equalIsEquality m → wfHistory R → numbered R → stepDefined m R →
  ∃ fuel ok longest,
    (∀ f, checkSingle nilV (fuel + f) m R computePartial (λ _, false) = Some (Some (ok, longest))) ∧
    (ok = true ↔ ∃ π, linearization (Step m) R (Init m) π) ∧
    (ok = true → ∃ π, linearization (Step m) R (Init m) π ∧
       longest = replicate (Z.to_nat (zlen R / 2)) (Some π)).
Proof.
  intros Heq Hwf Hnum Hst. destruct (checkSingle_runs m R computePartial Heq Hwf Hnum Hst) as (f & [(π & Hl & Hf)|(lg & Hd & Hf)]).
  - exists f, true. eexists. split; [exact Hf|]. split; [|by eauto]. split; [by eauto|done].
  - exists f, false, lg. split; [exact Hf|]. split; [|done]. split; [done|]. intros (π & Hl). by destruct (Hd π).
Qed.

(** A positive answer can be trusted whenever it comes.  Whatever happens to
    the kill flag during the search, if [checkSingle] returns true then the history
    is linearizable. *)
Theorem checkSingle_sound m R computePartial kill fuel longest :
  equalIsEquality m → wfHistory R → numbered R → stepDefined m R →
  checkSingle nilV fuel m R computePartial kill = Some (Some (true, longest)) →
  ∃ π, linearization (Step m) R (Init m) π ∧ longest = replicate (Z.to_nat (zlen R / 2)) (Some π).
Proof.
  intros Heq Hwf Hnum Hst H.
  destruct (checkSingle_runs m R computePartial Heq Hwf Hnum Hst) as (f & [(π & Hl & Hf)|(lg & _ & Hf)]);
    specialize (Hf fuel); rewrite Nat.add_comm, (checkSingle_unkilled _ _ _ _ _ _ _ H) in Hf; simplify_eq; eauto.
Qed.
End facts.
