(* ===== verification/PorcupineOps.v ===== *)
(** * Checking operations

    [makeEntries] on operations with call and return times gives a well-formed
    history, whose linearizations are the orders of the operations that respect
    the times; [checkParallel] combines the answers of the goroutines. *)

From S2P Require Import Prelude Bitset Porcupine PorcupineSpec PorcupineFacts.
Open Scope go_scope.

Section ops.
Context {V St : Type} (nilV : V) `{!EqDecision St} {GS : EntrySort V} {GSL : EntrySortLaws GS}.
Implicit Types (m : Model V St) (ops : list (Operation V)) (x c r : entry V).

(** ** Linearizability of operations *)

(** The model run on the operations in the order [π]. *)
Definition runOps m ops (π : list Z) (st : St) : option St :=
  foldM (λ st i,
    match idx ops i with
    | Some o => match Step m st (Input o) (Output o) with Some (true, st') => Some st' | _ => None end
    | None => None
    end) π st.

(** Some order of all operations is accepted by the model and keeps the order of
    operations where one returns before the other is called. *)
Definition linearizable m ops : Prop := ∃ π,
  π ≡ₚ range 0 (zlen ops) ∧
  (∀ i j oi oj, idx ops i = Some oi → idx ops j = Some oj → Return oi < Call oj → before π i j) ∧
  is_Some (runOps m ops π (Init m)).

(** ** The entries of operations *)

Definition callE (i : Z) (o : Operation V) : entry V := mkEntry callEntry (Input o) i (Call o) (ClientId o).
Definition returnE (i : Z) (o : Operation V) : entry V := mkEntry returnEntry (Output o) i (Return o) (ClientId o).

Lemma elem_opEntries ops x :
  x ∈ opEntries ops ↔ ∃ i o, idx ops i = Some o ∧ (x = callE i o ∨ x = returnE i o).
Proof.
  unfold opEntries. rewrite list_elem_of_join. split.
  - intros (l & Hx & (k & o & -> & Ho)%elem_of_lookup_imap). exists (Z.of_nat k), o. rewrite idx_of_nat. split; [done|].
    unfold callE, returnE. set_solver.
  - intros (i & o & [Hi Ho]%idx_Some & Hx). eexists. split; [|apply elem_of_lookup_imap; exists (Z.to_nat i), o; done].
    rewrite Z2Nat.id by lia. unfold callE, returnE in Hx. set_solver.
Qed.

Lemma ids_opEntries ops (g : nat → Z) (P : entry V → Prop) `{∀ x, Decision (P x)} :
  (∀ i o, P (callE i o) ∧ ¬ P (returnE i o)) ∨ (∀ i o, ¬ P (callE i o) ∧ P (returnE i o)) →
  id <$> filter P (mjoin (imap (λ i o, [callE (g i) o; returnE (g i) o]) ops)) = imap (λ i _, g i) ops.
Proof.
  intros HP. revert g. induction ops as [|o ops IH]; intros g; [done|]. rewrite !imap_cons. simpl.
  destruct HP as [HP|HP]; destruct (HP (g 0%nat) o) as [H1 H2].
  - rewrite filter_cons_True, filter_cons_False by done. simpl. f_equal. apply (IH (g ∘ S)).
  - rewrite filter_cons_False, filter_cons_True by done. simpl. f_equal. apply (IH (g ∘ S)).
Qed.

Lemma NoDup_indices ops : NoDup (imap (λ i (_ : Operation V), Z.of_nat i) ops).
Proof.
  apply NoDup_alt. intros i j x. rewrite !list_lookup_imap.
  destruct (ops !! i), (ops !! j); simpl; try done. intros [= <-] [= ?]. lia.
Qed.

Lemma indices_range ops : imap (λ i (_ : Operation V), Z.of_nat i) ops = range 0 (zlen ops).
Proof.
  apply list_eq. intros k. rewrite list_lookup_imap. unfold range, zlen. rewrite Z.sub_0_r.
  destruct (ops !! k) as [o|] eqn:E; simpl.
  - apply lookup_lt_Some in E. rewrite lookup_seqZ_lt by lia. done.
  - apply lookup_ge_None in E. rewrite lookup_seqZ_ge by lia. done.
Qed.

Lemma calls_opEntries ops : callsOf (opEntries ops) = range 0 (zlen ops).
Proof. unfold callsOf, opEntries. rewrite <-indices_range. apply (ids_opEntries ops Z.of_nat). left. by split. Qed.

Lemma returns_opEntries ops : returnsOf (opEntries ops) = range 0 (zlen ops).
Proof. unfold returnsOf, opEntries. rewrite <-indices_range. apply (ids_opEntries ops Z.of_nat). right. by split. Qed.

Lemma zlen_join_imap {A B} (F : nat → A → list B) (l : list A) :
  (∀ i o, zlen (F i o) = 2) → zlen (mjoin (imap F l)) = 2 * zlen l.
Proof.
  revert F. induction l as [|o l IH]; intros F HF; [done|].
  rewrite imap_cons. simpl. rewrite zlen_app, zlen_cons, HF, IH; [lia|]. intros. apply HF.
Qed.

Lemma length_opEntries ops : zlen (opEntries ops) = 2 * zlen ops.
Proof. by apply zlen_join_imap. Qed.

(** ** Sorted entries *)

(** Every operation returns no earlier than it is called. *)
Definition timed ops : Prop := Forall (λ o, Call o ≤ Return o) ops.

Lemma entries_elem ops x : x ∈ makeEntries ops ↔ ∃ i o, idx ops i = Some o ∧ (x = callE i o ∨ x = returnE i o).
Proof. unfold makeEntries. rewrite entries_perm. apply elem_opEntries. Qed.

Lemma sorted_split (Rel : entry V → entry V → Prop) X x Y y :
  StronglySorted Rel (X ++ x :: Y) → (y ∈ Y → Rel x y) ∧ (y ∈ X → Rel y x).
Proof.
  intros (HX & _ & H)%StronglySorted_app. split.
  - intros Hy. inversion H as [|? ? _ Hall]; subst. rewrite Forall_forall in Hall. by apply Hall.
  - intros Hy. apply HX; set_solver.
Qed.

(** A call at most as late as a return stands before it; a return before a later call. *)
Lemma call_not_after_return ops X c Y r :
  makeEntries ops = X ++ c :: Y → isCall c → isReturn r → time c ≤ time r → r ∉ X.
Proof.
  intros E Hc Hr Ht Hin. pose proof (entries_sorted (opEntries ops)) as Hs. unfold makeEntries in E. rewrite E in Hs.
  destruct (sorted_split _ _ _ _ r Hs) as [_ H]. specialize (H Hin). unfold entryLe, less in H.
  unfold isCall, isReturn in *. rewrite Hc, Hr in H.
  destruct (Z.eqb_spec (time c) (time r)); simpl in H; [done|]. apply Z.ltb_ge in H. lia.
Qed.

Lemma makeEntries_wf ops : timed ops → wfHistory (makeEntries ops).
Proof.
  intros Ht. unfold timed in Ht. rewrite Forall_forall in Ht. split.
  - unfold callsOf, makeEntries. rewrite entries_perm. fold (callsOf (opEntries ops)). rewrite calls_opEntries. apply NoDup_seqZ.
  - unfold returnsOf, makeEntries. rewrite entries_perm. fold (returnsOf (opEntries ops)). rewrite returns_opEntries. apply NoDup_seqZ.
  - intros X c Y E Hc. assert (c ∈ makeEntries ops) as (i & o & Ho & Hx)%entries_elem by (rewrite E; set_solver).
    destruct Hx as [->| ->]; [|done]. exists (returnE i o). split; [|done].
    assert (returnE i o ∈ makeEntries ops) as Hr by (apply entries_elem; eauto). rewrite E in Hr.
    apply elem_of_app in Hr as [Hr|[Hr|Hr]%elem_of_cons]; [|done|done]. exfalso.
    apply (call_not_after_return ops X (callE i o) Y (returnE i o)); try done. apply Ht. by eapply idx_elem_of.
  - intros r (i & o & Ho & Hx)%entries_elem Hr. destruct Hx as [->| ->]; [done|].
    exists (callE i o). split; [|done]. apply entries_elem. eauto.
Qed.

Lemma zlen_makeEntries ops : zlen (makeEntries ops) = 2 * zlen ops.
Proof. unfold makeEntries, zlen at 1. rewrite entries_perm. apply length_opEntries. Qed.

Lemma makeEntries_numbered ops : zlen ops < 2 ^ 62 → numbered (makeEntries ops).
Proof.
  intros Hl. unfold numbered. rewrite zlen_makeEntries. split; [lia|].
  replace (2 * zlen ops / 2) with (zlen ops) by (apply Z.div_unique with 0; lia).
  intros x (i & o & Ho & Hx)%entries_elem. apply idx_lt in Ho. destruct Hx as [->| ->]; simpl; lia.
Qed.

(** The model accepts the types of the operations. *)
Definition opsDefined m ops : Prop := ∀ o st, o ∈ ops → is_Some (Step m st (Input o) (Output o)).

Lemma makeEntries_defined m ops : opsDefined m ops → stepDefined m (makeEntries ops).
Proof.
  intros H c r st (i & o & Ho & Hc)%entries_elem (j & o' & Ho' & Hr)%entries_elem Hcc Hrr E.
  destruct Hc as [->| ->]; [|done]. destruct Hr as [->| ->]; [done|]. simpl in *. subst j. simplify_eq.
  apply H. by eapply idx_elem_of.
Qed.

Lemma precedes_makeEntries ops i j :
  precedes (makeEntries ops) i j ↔ ∃ oi oj, idx ops i = Some oi ∧ idx ops j = Some oj ∧ Return oi < Call oj.
Proof.
  split.
  - intros (X & r & Y & c & E & Hr & <- & Hc & Hcc & <-).
    assert (r ∈ makeEntries ops) as (i & oi & Hi & Hri)%entries_elem by (rewrite E; set_solver).
    assert (c ∈ makeEntries ops) as (j & oj & Hj & Hcj)%entries_elem by (rewrite E; set_solver).
    destruct Hri as [->| ->]; [done|]. destruct Hcj as [->| ->]; [|done]. exists oi, oj. split_and!; [done..|].
    destruct (Z.lt_ge_cases (Return oi) (Call oj)) as [?|Hge]; [done|exfalso].
    apply list_elem_of_split in Hc as (Y1 & Y2 & ->).
    apply (call_not_after_return ops (X ++ returnE i oi :: Y1) (callE j oj) Y2 (returnE i oi)); [|done|done|done|set_solver].
    rewrite E. by rewrite <-app_assoc.
  - intros (oi & oj & Hi & Hj & Hlt).
    assert (returnE i oi ∈ makeEntries ops) as Hr by (apply entries_elem; eauto).
    assert (callE j oj ∈ makeEntries ops) as Hc by (apply entries_elem; eauto).
    apply list_elem_of_split in Hr as (X & Y & E). rewrite E in Hc. exists X, (returnE i oi), Y, (callE j oj).
    split_and!; try done. apply elem_of_app in Hc as [Hc|[Hc|Hc]%elem_of_cons]; [exfalso|done|done].
    pose proof (entries_sorted (opEntries ops)) as Hs. unfold makeEntries in E. rewrite E in Hs.
    destruct (sorted_split _ _ _ _ (callE j oj) Hs) as [_ H]. specialize (H Hc). unfold entryLe, less in H. simpl in H.
    destruct (Z.eqb_spec (Return oi) (Call oj)); simpl in H; [lia|]. apply Z.ltb_ge in H. lia.
Qed.

Lemma isOp_makeEntries ops i v w :
  isOp (makeEntries ops) i v w ↔ ∃ o, idx ops i = Some o ∧ v = Input o ∧ w = Output o.
Proof.
  split.
  - intros (c & r & (k & o & Ho & Hc)%entries_elem & (k' & o' & Ho' & Hr)%entries_elem & Hcc & Hrr & E1 & E2 & <- & <-).
    destruct Hc as [->| ->]; [|done]. destruct Hr as [->| ->]; [done|]. simpl in *. subst. simplify_eq. eauto.
  - intros (o & Ho & -> & ->). exists (callE i o), (returnE i o). split_and!; try done; apply entries_elem; eauto.
Qed.

Lemma legal_makeEntries m ops st π : legal (Step m) (makeEntries ops) st π ↔ is_Some (runOps m ops π st).
Proof.
  unfold runOps. revert st. induction π as [|i π IH]; intros st; [split; [by eexists|constructor]|]. split.
  - intros H. inversion H as [|? v w ? st' ? Hop Hs Hl]; subst. apply isOp_makeEntries in Hop as (o & Ho & -> & ->).
    simpl. rewrite Ho, Hs. simpl. by apply IH.
  - simpl. destruct (idx ops i) as [o|] eqn:Ho; [|by intros [? ?]].
    destruct (Step m st (Input o) (Output o)) as [[[] st']|] eqn:Hs; [|by intros [? ?]..]. simpl. intros Hl%IH.
    econstructor; [|exact Hs|exact Hl]. apply isOp_makeEntries. eauto.
Qed.

Lemma linearizable_entries m ops :
  (∃ π, linearization (Step m) (makeEntries ops) (Init m) π) ↔ linearizable m ops.
Proof.
  assert (callsOf (makeEntries ops) ≡ₚ range 0 (zlen ops)) as Hcalls.
  { unfold callsOf, makeEntries. rewrite entries_perm. fold (callsOf (opEntries ops)). by rewrite calls_opEntries. }
  unfold linearization, linearizable. setoid_rewrite Hcalls. setoid_rewrite legal_makeEntries.
  setoid_rewrite precedes_makeEntries. split; intros (π & Hp & Hb & Hl); exists π; split_and!; try done.
  - intros i j oi oj Hi Hj Hlt. apply Hb. eauto.
  - intros i j (oi & oj & Hi & Hj & Hlt). eauto.
Qed.

(** ** Partitions *)

Lemma collect_results len ci count ok rs :
  len = count + zlen rs → rs ≠ [] →
  collect len ci count ok (Result <$> rs) = Some (if ok && forallb (λ b, b) rs then Ok else Illegal).
Proof.
  revert count ok. induction rs as [|r rs IH]; intros count ok Hl Hne; [done|]. rewrite zlen_cons in Hl. simpl.
  rewrite andb_assoc. destruct (negb (ok && r) && negb ci) eqn:E1.
  { apply andb_true_iff in E1 as [E1 _]. apply negb_true_iff in E1. by rewrite E1. }
  pose proof (zlen_nonneg rs). destruct (Z.leb_spec len (count + 1)).
  - destruct rs as [|r' rs]; [|rewrite zlen_cons in *; pose proof (zlen_nonneg rs); lia].
    simpl. rewrite andb_true_r. by destruct (ok && r).
  - apply IH; [lia|]. intros ->. rewrite zlen_nil in *. lia.
Qed.

(** The partitions of a history of operations. *)
Definition partitionsOf m (history : list (Operation V)) : option (list (list (Operation V))) :=
  default NoPartition (Partition m) history.

Definition checkable m ops : Prop := timed ops ∧ zlen ops < 2 ^ 62 ∧ opsDefined m ops.

(** The answer of the goroutine of a partition, once it has had enough time. *)
Definition answers m verbose ops (v : bool) : Prop := ∃ fuel longest, ∀ f,
  checkSingle nilV (fuel + f) (fillDefault m) (makeEntries ops) verbose (λ _, false) = Some (Some (v, longest)).

Lemma partition_answer m verbose ops : equalIsEquality m → checkable m ops →
  ∃ v, answers m verbose ops v ∧ (v = true ↔ linearizable m ops).
Proof.
  intros Heq (Ht & Hl & Hd).
  assert (equalIsEquality (fillDefault m)) as Heq'.
  { intros s t. unfold modelEqual. simpl. specialize (Heq s t). unfold modelEqual in Heq. by destruct (Equal m). }
  destruct (checkSingle_runs nilV (fillDefault m) (makeEntries ops) verbose Heq' (makeEntries_wf _ Ht)
    (makeEntries_numbered _ Hl) (makeEntries_defined m _ Hd)) as (f & [(π & Hlin & Hf)|(lg & Hno & Hf)]);
    simpl in *.
  - exists true. split; [eexists _, _; exact Hf|]. rewrite <-linearizable_entries. split; [by eauto|done].
  - exists false. split; [eexists _, _; exact Hf|]. rewrite <-linearizable_entries. split; [done|]. intros (π & Hlin). by destruct (Hno π).
Qed.

(** Whatever the order in which the goroutines answer. *)
Lemma checkOperations_partitions m history parts verbose :
  equalIsEquality m → partitionsOf m history = Some parts → parts ≠ [] → Forall (checkable m) parts →
  ∃ verdicts, Forall2 (answers m verbose) parts verdicts ∧
    ∀ rs, rs ≡ₚ verdicts → ∃ res, checkOperations m history verbose (Result <$> rs) = Some (Some res) ∧
      (res = Ok ↔ Forall (linearizable m) parts) ∧ (res = Illegal ↔ ¬ Forall (linearizable m) parts).
Proof.
  intros Heq Hp Hne Hc.
  assert (∃ verdicts, Forall2 (answers m verbose) parts verdicts ∧
    (forallb (λ b, b) verdicts = true ↔ Forall (linearizable m) parts)) as (vs & Hvs & Hall).
  { clear Hp Hne. induction Hc as [|p parts Hp _ (vs & Hvs & Hall)]; [by exists []|].
    destruct (partition_answer m verbose p Heq Hp) as (v & Hv & Hlin). exists (v :: vs). split; [by constructor|].
    simpl. rewrite andb_true_iff, Forall_cons, Hlin, Hall. done. }
  exists vs. split; [done|]. intros rs Hrs.
  assert (forallb (λ b, b) rs = forallb (λ b, b) vs) as Hfb.
  { clear -Hrs. induction Hrs; simpl; try congruence. destruct x, y; done. }
  assert (length rs = length parts) as Hlen by (rewrite Hrs; symmetry; by eapply Forall2_length).
  unfold checkOperations, operationPartitions. simpl. unfold partitionsOf in Hp.
  assert (match Partition m with Some f => f | None => NoPartition end history = Some parts) as Hp'
    by (by destruct (Partition m)).
  rewrite Hp'. simpl. unfold checkParallel. rewrite collect_results.
  - eexists. split; [done|]. rewrite Hfb, <-Hall. simpl. destruct (forallb (λ b, b) vs); naive_solver.
  - unfold zlen. rewrite length_fmap. lia.
  - intros ->. by destruct parts.
Qed.
End ops.
