(* ===== verification/PorcupineKv.v ===== *)
(** * The key/value model of the checker

    [models/kv.go]: the model the tests of the key/value servers give to the
    checker.  A history is partitioned by key, and each key is a string on which
    get, put, append and append with the old value as result are checked. *)

From S2P Require Import Prelude Bitset Porcupine PorcupineSpec PorcupineFacts PorcupineOps.
Open Scope go_scope.

(** [type KvInput struct], [type KvOutput struct] *)
Record KvInput := mkKvInput { Op : Z; Key : string; KValue : string }.
Record KvOutput := mkKvOutput { OValue : string }.

(** The values of the histories: [interface{}] holding one of them, or [nil]. *)
Inductive kvValue := KNil | KIn (i : KvInput) | KOut (o : KvOutput).

(** [input.(KvInput)], [output.(KvOutput)]: [None] is the panic. *)
Definition asInput (v : kvValue) : option KvInput := match v with KIn i => Some i | _ => None end.
Definition asOutput (v : kvValue) : option KvOutput := match v with KOut o => Some o | _ => None end.

(** [KvModel.Step] *)
Definition kvStep (st : string) (input output : kvValue) : option (bool * string) :=
  inp ← asInput input; out ← asOutput output;
  Some (if Op inp =? 0 then (bool_decide (OValue out = st), st)
        else if Op inp =? 1 then (true, KValue inp)
        else if Op inp =? 2 then (true, st +:+ KValue inp)
        else (bool_decide (OValue out = st), st +:+ KValue inp)).

(** The loop of [KvModel.Partition]: [m[key] = append(m[key], v)]. *)
Definition addToKey (m : gmap string (list (Operation kvValue))) (v : Operation kvValue)
    : option (gmap string (list (Operation kvValue))) :=
  inp ← asInput (Input v); Some (<[Key inp := default [] (m !! Key inp) ++ [v]]> m).

(** [sort.Strings] of the keys of a map: the keys are distinct, so the result is determined. *)
Definition sortedKeys {A} (m : gmap string A) : list string := merge_sort String.le (elements (dom m)).

(** [KvModel.Partition] *)
Definition kvPartition (history : list (Operation kvValue)) : option (list (list (Operation kvValue))) :=
  m ← foldM addToKey history ∅; Some ((λ k, default [] (m !! k)) <$> sortedKeys m).

(** [KvModel.DescribeOperation] *)
Definition kvDescribeOperation (input output : kvValue) : option string :=
  inp ← asInput input; out ← asOutput output;
  Some (if Op inp =? 0 then "get('" +:+ Key inp +:+ "') -> '" +:+ OValue out +:+ "'"
        else if Op inp =? 1 then "put('" +:+ Key inp +:+ "', '" +:+ KValue inp +:+ "')"
        else if Op inp =? 2 then "append('" +:+ Key inp +:+ "', '" +:+ KValue inp +:+ "')"
        else "<invalid>").

(** [var KvModel = porcupine.Model{...}] *)
Definition KvModel : Model kvValue string := mkModel (Some kvPartition) None ""%string kvStep None.

(** ** A sort *)

Lemma less_rank {V} (a b : entry V) :
  less a b = true ↔ time a < time b ∨ (time a = time b ∧ kind a = false ∧ kind b = true).
Proof.
  unfold less, callEntry, returnEntry. destruct (Z.eqb_spec (time a) (time b)) as [E|E]; simpl.
  - rewrite andb_true_iff, !bool_decide_eq_true. split; [intros H; by right|intros [?|[_ H]]; [lia|done]].
  - rewrite Z.ltb_lt. lia.
Qed.

Lemma entryLe_rank {V} (a b : entry V) :
  entryLe a b ↔ time a < time b ∨ (time a = time b ∧ (kind a = true → kind b = true)).
Proof.
  unfold entryLe. rewrite <-not_true_iff_false, less_rank. destruct (kind a), (kind b); intuition (try done; lia).
Qed.

#[export] Instance entryLe_trans {V} : Transitive (entryLe (V := V)).
Proof. intros a b c. rewrite !entryLe_rank. intuition lia. Qed.
#[export] Instance entryLe_total {V} : Total (entryLe (V := V)).
Proof. intros a b. rewrite !entryLe_rank. destruct (kind a), (kind b); intuition lia. Qed.

(** A merge sort: one of the sorts the laws of [EntrySort] allow.  The theorems are
    about every such sort; only the examples run this one. *)
Definition merge_entries {V} : EntrySort V := merge_sort entryLe.
Lemma merge_entries_laws {V} : EntrySortLaws (merge_entries (V := V)).
Proof. split; intros; [apply merge_sort_Permutation|apply StronglySorted_merge_sort; apply _]. Qed.

(** ** The partition by key *)

Definition hasKey (k : string) (o : Operation kvValue) : Prop := Key <$> asInput (Input o) = Some k.
#[export] Instance hasKey_dec k o : Decision (hasKey k o) := option_eq_dec _ _.

(** The operations on one key, in the order of the history. *)
Definition onKey (k : string) (history : list (Operation kvValue)) : list (Operation kvValue) := filter (hasKey k) history.

(** Operations with an input, an output, and times in order. *)
Definition kvHistory (history : list (Operation kvValue)) : Prop :=
  Forall (λ o, (∃ i w, Input o = KIn i ∧ Output o = KOut w) ∧ Call o ≤ Return o) history ∧ zlen history < 2 ^ 62.

(** The map of [kvPartition] holds the operations of each key. *)
Definition keyed (m : gmap string (list (Operation kvValue))) (history : list (Operation kvValue)) : Prop :=
  ∀ k, m !! k = if bool_decide (onKey k history = []) then None else Some (onKey k history).

Lemma addToKey_keyed m history o :
  keyed m history → is_Some (asInput (Input o)) → ∃ m', addToKey m o = Some m' ∧ keyed m' (history ++ [o]).
Proof.
  intros Hm [i Hi]. unfold addToKey. rewrite Hi. simpl. eexists. split; [done|]. intros k. unfold onKey. rewrite filter_app.
  destruct (decide (hasKey k o)) as [Hk|Hk].
  - rewrite filter_cons_True by done. rewrite bool_decide_false by (by destruct (filter (hasKey k) history)).
    unfold hasKey in Hk. rewrite Hi in Hk. injection Hk as <-. rewrite lookup_insert_eq, (Hm (Key i)). f_equal.
    case_bool_decide as E; simpl; unfold onKey in E; [by rewrite E|done].
  - rewrite filter_cons_False by done. simpl. rewrite app_nil_r, lookup_insert_ne; [apply Hm|].
    intros <-. apply Hk. unfold hasKey. by rewrite Hi.
Qed.

Lemma foldM_keyed history done m :
  keyed m done → Forall (λ o, is_Some (asInput (Input o))) history →
  ∃ m', foldM addToKey history m = Some m' ∧ keyed m' (done ++ history).
Proof.
  revert done m. induction history as [|o history IH]; intros dn m Hm Ho; [exists m; by rewrite app_nil_r|].
  apply Forall_cons in Ho as [Ho Hrest]. destruct (addToKey_keyed m dn o Hm Ho) as (m1 & E1 & Hm1). simpl. rewrite E1. simpl.
  destruct (IH (dn ++ [o]) m1 Hm1 Hrest) as (m' & E & H'). exists m'. split; [done|]. by rewrite <-app_assoc in H'.
Qed.

Lemma kvPartition_spec history :
  Forall (λ o, is_Some (asInput (Input o))) history → ∃ keys,
    kvPartition history = Some ((λ k, onKey k history) <$> keys) ∧ NoDup keys ∧ StronglySorted String.le keys ∧
    ∀ k, k ∈ keys ↔ onKey k history ≠ [].
Proof.
  intros Ho. unfold kvPartition. destruct (foldM_keyed history [] ∅) as (m & -> & Hm); [done|done|]. simpl in *.
  exists (sortedKeys m). unfold sortedKeys.
  assert (∀ k, k ∈ merge_sort String.le (elements (dom m)) ↔ onKey k history ≠ []) as Hk.
  { intros k. rewrite merge_sort_Permutation, elem_of_elements, elem_of_dom, (Hm k). case_bool_decide; [|by naive_solver].
    split; [by intros [? ?]|done]. }
  split_and!; [|rewrite merge_sort_Permutation; apply NoDup_elements|apply StronglySorted_merge_sort; apply _|done].
  f_equal. apply list_fmap_ext. intros i k Hi. apply list_elem_of_lookup_2, Hk in Hi. rewrite (Hm k). by rewrite bool_decide_false.
Qed.

Lemma onKey_checkable history k : kvHistory history → checkable KvModel (onKey k history).
Proof.
  intros [Hh Hl]. unfold onKey. rewrite Forall_forall in Hh. split_and!.
  - apply Forall_forall. intros o [_ Ho]%list_elem_of_filter. by apply Hh.
  - pose proof (length_filter (hasKey k) history). unfold zlen in *. lia.
  - intros o st [_ Ho]%list_elem_of_filter. destruct (Hh o Ho) as ((i & w & Ei & Ew) & _). simpl. unfold kvStep.
    rewrite Ei, Ew. simpl. by eexists.
Qed.

Lemma KvModel_equal : equalIsEquality KvModel.
Proof. intros s t. unfold modelEqual, ShallowEqual. simpl. apply bool_decide_eq_true. Qed.

Lemma linearizable_nil : linearizable KvModel [].
Proof. exists []. split_and!; [done| |by eexists]. intros i j oi oj Hi. unfold idx in Hi. by destruct (0 <=? i). Qed.

(** The result of the check in terms of the single keys. *)
Lemma kv_check_keys {GS : EntrySort kvValue} {GSL : EntrySortLaws GS} history verbose :
  kvHistory history → history ≠ [] →
  ∃ parts verdicts, partitionsOf KvModel history = Some parts ∧
    Forall2 (answers KNil KvModel verbose) parts verdicts ∧
    ∀ rs, rs ≡ₚ verdicts → ∃ res, checkOperations KvModel history verbose (Result <$> rs) = Some (Some res) ∧
      (res = Ok ↔ ∀ k, linearizable KvModel (onKey k history)) ∧
      (res = Illegal ↔ ¬ ∀ k, linearizable KvModel (onKey k history)).
Proof.
  intros Hh Hne. destruct (kvPartition_spec history) as (keys & Hp & _ & _ & Hk).
  { eapply Forall_impl; [apply Hh|]. intros o ((i & w & -> & _) & _). by eexists. }
  assert (Forall (linearizable KvModel) ((λ k, onKey k history) <$> keys) ↔ ∀ k, linearizable KvModel (onKey k history)) as Hall.
  { rewrite Forall_fmap, Forall_forall. split; [|naive_solver]. intros H k.
    destruct (decide (onKey k history = [])) as [->|Hnk]; [apply linearizable_nil|]. by apply H, Hk. }
  destruct (checkOperations_partitions KNil KvModel history _ verbose KvModel_equal Hp) as (vs & Hvs & Hres).
  - destruct history as [|o history]; [done|]. destruct Hh as [Hh _]. apply Forall_cons in Hh as [((i & w & Ei & _) & _) _].
    assert (Key i ∈ keys) as Hin; [|destruct keys; set_solver]. apply Hk. unfold onKey.
    rewrite filter_cons_True; [done|]. unfold hasKey. by rewrite Ei.
  - apply Forall_fmap, Forall_forall. intros k _. by apply onKey_checkable.
  - exists ((λ k, onKey k history) <$> keys), vs. split_and!; [done|done|]. intros rs Hrs.
    destruct (Hres rs Hrs) as (res & ? & ? & ?). exists res. by rewrite <-Hall.
Qed.

#[local] Existing Instance merge_entries.
#[local] Existing Instance merge_entries_laws.

(** Two clients on one key: a put of [x] and an overlapping get. *)
Definition exampleOps (out : string) : list (Operation kvValue) :=
  [mkOperation 0 (KIn (mkKvInput 1 "k" "x")) 0 (KOut (mkKvOutput "")) 10;
   mkOperation 1 (KIn (mkKvInput 0 "k" "")) 5 (KOut (mkKvOutput out)) 15;
   mkOperation 1 (KIn (mkKvInput 2 "k" "y")) 20 (KOut (mkKvOutput "")) 30;
   mkOperation 0 (KIn (mkKvInput 0 "k" "")) 40 (KOut (mkKvOutput "xy")) 50].

Lemma exampleOps_kv out : kvHistory (exampleOps out).
Proof. split; [|done]. repeat constructor; simpl; eauto; lia. Qed.

(** The verdict of a search, without the partial linearizations. *)
Definition verdict (r : option (option (bool * list (option (list Z))))) : option bool :=
  match r with Some (Some (ok, _)) => Some ok | _ => None end.

(** The search accepts the value before or after the put, and nothing else. *)
Example exampleOps_checked :
  (λ out, verdict (checkSingle KNil 50 KvModel (makeEntries (exampleOps out)) true (λ _, false))) <$> ["x"; ""; "z"]%string
  = [Some true; Some true; Some false].
Proof. vm_compute. reflexivity. Qed.

(** ** Witnesses of the theorems on [checkSingle] *)

Definition exampleEntries : list (entry kvValue) := makeEntries (exampleOps "x").

Lemma exampleEntries_wf : wfHistory exampleEntries ∧ numbered exampleEntries ∧ stepDefined KvModel exampleEntries.
Proof.
  destruct (exampleOps_kv "x") as [Hh Hl]. split_and!.
  - apply makeEntries_wf. eapply Forall_impl; [exact Hh|]. by intros o [_ ?].
  - by apply makeEntries_numbered.
  - apply makeEntries_defined. intros o st Ho. rewrite Forall_forall in Hh. destruct (Hh o Ho) as ((i & w & Ei & Ew) & _).
    simpl. unfold kvStep. rewrite Ei, Ew. simpl. by eexists.
Qed.

Lemma checkSingle_decides_witness : ∃ fuel ok longest,
  (∀ f, checkSingle KNil (fuel + f) KvModel exampleEntries true (λ _, false) = Some (Some (ok, longest))) ∧
  (ok = true ↔ ∃ π, linearization (Step KvModel) exampleEntries (Init KvModel) π) ∧
  (ok = true → ∃ π, linearization (Step KvModel) exampleEntries (Init KvModel) π ∧
     longest = replicate (Z.to_nat (zlen exampleEntries / 2)) (Some π)).
Proof.
  apply (checkSingle_decides KNil KvModel exampleEntries true KvModel_equal); apply exampleEntries_wf.
Defined.

(** Operation 0, then 1, then 2, then 3. *)
Lemma checkSingle_sound_witness : ∃ π, linearization (Step KvModel) exampleEntries (Init KvModel) π ∧
  replicate 4 (Some [0; 1; 2; 3]) = replicate (Z.to_nat (zlen exampleEntries / 2)) (Some π).
Proof.
  apply (checkSingle_sound KNil KvModel exampleEntries false (λ i, (20 <=? i)%nat) 50 (replicate 4 (Some [0; 1; 2; 3])) KvModel_equal);
    [apply exampleEntries_wf..|]. vm_compute. reflexivity.
Defined.

(** ** An empty history *)

(** An empty history is never answered.  [KvModel.Partition] gives no
    partition, [checkOperations] starts no goroutine, and without a timeout its
    loop waits for a result that cannot come: it does not return, although the
    empty history is linearizable. *)
Theorem kv_check_empty_waits {GS : EntrySort kvValue} verbose : ∃ parts,
  partitionsOf KvModel [] = Some parts ∧ length parts = 0%nat ∧
  linearizable KvModel [] ∧
  ∀ rs, length rs = length parts → checkOperations KvModel [] verbose (Result <$> rs) = Some None.
Proof.
  exists []. split_and!; [vm_compute; reflexivity|done|apply linearizable_nil|].
  intros [|r rs] Hl; [|done]. vm_compute. reflexivity.
Qed.
