(* ===== verification/PorcupineEvents.v ===== *)
(** * Histories of events

    [CheckEvents] takes calls and returns as they happened, with ids of the client's
    choice.  [renumber] gives the operations the numbers 0, 1, ... in the order of
    their first event, which the checker needs to index its bit sets, and changes
    nothing else: linearizations are the same up to the numbering, so
    [checkEvents] decides whether the events are linearizable. *)

From S2P Require Import Prelude Bitset Porcupine PorcupineHeap PorcupineSpec PorcupineSearch PorcupineFacts PorcupineOps PorcupineKv.
Open Scope go_scope.

(** ** Renaming operations *)

Section rename.
Context {V St : Type} (mstep : St → V → V → option (bool * St)) (r : Z → Z).
Implicit Types (R : list (entry V)) (x c : entry V) (st : St) (π : list Z).

Definition rename x : entry V := mkEntry (kind x) (value x) (r (id x)) (time x) (clientId x).

Lemma isOp_rename R i v w : isOp R i v w → isOp (rename <$> R) (r i) v w.
Proof.
  intros (c & x & Hc & Hx & Hcc & Hxx & <- & Hi & <- & <-). exists (rename c), (rename x).
  split_and!; try done; [by apply list_elem_of_fmap_2..|]. simpl. by rewrite Hi.
Qed.

Lemma legal_rename R st π : legal mstep R st π → legal mstep (rename <$> R) st (r <$> π).
Proof. induction 1; [constructor|]. rewrite fmap_cons. econstructor; eauto using isOp_rename. Qed.

Lemma ids_renamed (P : entry V → Prop) `{∀ x, Decision (P x)} R :
  (∀ x, P (rename x) ↔ P x) → id <$> filter P (rename <$> R) = r <$> (id <$> filter P R).
Proof.
  intros HP. induction R as [|x R IH]; [done|]. rewrite fmap_cons, !filter_cons.
  destruct (decide (P x)) as [Hx|Hx]; [rewrite decide_True by (by apply HP)|rewrite decide_False by (by rewrite HP)]; [|exact IH].
  rewrite !fmap_cons. by rewrite IH.
Qed.

Lemma callsOf_rename R : callsOf (rename <$> R) = r <$> callsOf R.
Proof. by apply ids_renamed. Qed.

Lemma returnsOf_rename R : returnsOf (rename <$> R) = r <$> returnsOf R.
Proof. by apply ids_renamed. Qed.

Lemma rename_split R X' x' Y' : rename <$> R = X' ++ x' :: Y' →
  ∃ X x Y, R = X ++ x :: Y ∧ X' = rename <$> X ∧ x' = rename x ∧ Y' = rename <$> Y.
Proof.
  intros (X & Z' & -> & E & ->)%fmap_app_inv. symmetry in E. apply fmap_cons_inv in E as (x & Y & -> & -> & ->). eauto 8.
Qed.

Lemma precedes_rename R i' j' : precedes (rename <$> R) i' j' → ∃ i j, i' = r i ∧ j' = r j ∧ precedes R i j.
Proof.
  intros (X' & x' & Y' & c' & E & Hx & <- & Hc' & Hcc & <-). apply rename_split in E as (X & x & Y & -> & -> & -> & ->).
  apply list_elem_of_fmap in Hc' as (c & -> & Hc). exists (id x), (id c). split_and!; try done. by exists X, x, Y, c.
Qed.

Lemma before_fmap π i j : before π i j → before (r <$> π) (r i) (r j).
Proof.
  intros (P & Q & -> & Hj). exists (r <$> P), (r <$> Q). rewrite fmap_app, fmap_cons. split; [done|].
  by apply list_elem_of_fmap_2.
Qed.

Lemma linearization_rename R st π :
  linearization mstep R st π → linearization mstep (rename <$> R) st (r <$> π).
Proof.
  intros (Hp & Hb & Hl). split_and!; [by rewrite Hp, callsOf_rename| |by apply legal_rename].
  intros i' j' (i & j & -> & -> & Hij)%precedes_rename. by apply before_fmap, Hb.
Qed.

(** Distinct operations keep distinct names. *)
Definition injectiveOn R : Prop := ∀ x y, x ∈ R → y ∈ R → r (id x) = r (id y) → id x = id y.

Lemma ids_rename (P : entry V → Prop) `{∀ x, Decision (P x)} R :
  injectiveOn R → NoDup (id <$> filter P R) → NoDup (r <$> (id <$> filter P R)).
Proof.
  intros Hr Hnd. apply NoDup_fmap_2_strong; [|done]. intros i j (x & -> & [_ Hx]%list_elem_of_filter)%list_elem_of_fmap
    (y & -> & [_ Hy]%list_elem_of_filter)%list_elem_of_fmap. by apply Hr.
Qed.

Lemma wf_rename R : injectiveOn R → wfHistory R → wfHistory (rename <$> R).
Proof.
  intros Hr [H1 H2 H3 H4]. split.
  - rewrite callsOf_rename. by apply ids_rename.
  - rewrite returnsOf_rename. by apply ids_rename.
  - intros X' c' Y' (X & c & Y & E & -> & -> & ->)%rename_split Hc. destruct (H3 X c Y E Hc) as (x & Hx & Hxx & Hi).
    exists (rename x). split_and!; [by apply list_elem_of_fmap_2|done|]. simpl. by rewrite Hi.
  - intros x' (x & -> & Hx)%list_elem_of_fmap Hxx. destruct (H4 x Hx Hxx) as (c & Hc & Hcc & Hi).
    exists (rename c). split_and!; [by apply list_elem_of_fmap_2|done|]. simpl. by rewrite Hi.
Qed.
End rename.

(** Linearizability does not depend on the names. *)
Lemma linearizable_rename {V St} (mstep : St → V → V → option (bool * St)) r (R : list (entry V)) st :
  injectiveOn r R →
  (∃ π, linearization mstep (rename r <$> R) st π) ↔ (∃ π, linearization mstep R st π).
Proof.
  intros Hr. split; [|intros (π & H); eexists; by apply linearization_rename].
  intros (π & H). set (back := λ j, default 0 (head (filter (λ i, r i = j) (id <$> R)))).
  assert (rename back <$> (rename r <$> R) = R) as <-; [|eexists; by apply linearization_rename].
  rewrite <-list_fmap_compose. rewrite <-(list_fmap_id R) at 2. apply list_fmap_ext. intros k x Hx%list_elem_of_lookup_2. simpl.
  assert (back (r (id x)) = id x) as E; [|unfold rename; simpl; rewrite E; by destruct x]. unfold back.
  destruct (filter (λ i, r i = r (id x)) (id <$> R)) as [|i l] eqn:El.
  - assert (id x ∈ filter (λ i, r i = r (id x)) (id <$> R)) as Hin; [|rewrite El in Hin; by apply elem_of_nil in Hin].
    apply list_elem_of_filter. split; [done|]. by apply list_elem_of_fmap_2.
  - assert (i ∈ filter (λ i, r i = r (id x)) (id <$> R)) as [Ei (y & -> & Hy)%list_elem_of_fmap]%list_elem_of_filter by (rewrite El; set_solver).
    simpl. by apply Hr.
Qed.

(** ** [renumber] *)

Section renumber.
Context {V : Type}.
Implicit Types (evs done : list (Event V)) (v : Event V) (mp : gmap Z Z).

Definition renamed mp v : Event V := mkEvent (ev_ClientId v) (Kind v) (Value v) (default 0 (mp !! Id v)).

(** The state of the loop after the events [done]. *)
Record numbering done (acc : list (Event V) * gmap Z Z * Z) : Prop := {
  nu_events : acc.1.1 = renamed acc.1.2 <$> done;
  nu_dom i : i ∈ dom acc.1.2 ↔ ∃ v, v ∈ done ∧ Id v = i;
  nu_inj i j k : acc.1.2 !! i = Some k → acc.1.2 !! j = Some k → i = j;
  nu_range i k : acc.1.2 !! i = Some k → 0 ≤ k < acc.2;
  nu_size : acc.2 = Z.of_nat (size acc.1.2);
}.

Lemma renumberStep_numbering done acc v : numbering done acc → numbering (done ++ [v]) (renumberStep acc v).
Proof.
  destruct acc as [[e mp] n]. intros [He Hd Hi Hr Hn]. simpl in *. unfold renumberStep.
  destruct (mp !! Id v) as [k|] eqn:E; split; simpl; try done.
  - rewrite fmap_app. subst e. f_equal. simpl. unfold renamed. by rewrite E.
  - intros i. rewrite Hd. split; [intros (w & ? & ?); exists w; set_solver|].
    intros (w & [Hw| ->%list_elem_of_singleton]%elem_of_app & <-); [eauto|]. apply Hd, elem_of_dom. eauto.
  - rewrite fmap_app. subst e. f_equal; [|simpl; unfold renamed; by rewrite lookup_insert_eq].
    apply list_fmap_ext. intros i w Hw%list_elem_of_lookup_2. unfold renamed. rewrite lookup_insert_ne; [done|].
    intros Ei. assert (Id v ∈ dom mp) as Hin by (apply Hd; eauto). by apply elem_of_dom in Hin as [? ?]; simplify_eq.
  - intros i. rewrite dom_insert, elem_of_union, elem_of_singleton, Hd. split.
    + intros [->|(w & ? & ?)]; [exists v; set_solver|exists w; set_solver].
    + intros (w & [Hw| ->%list_elem_of_singleton]%elem_of_app & <-); eauto.
  - intros i j k [[<- <-]|[? H1]]%lookup_insert_Some [[<- ?]|[? H2]]%lookup_insert_Some; try done; [| |by eapply Hi].
    + apply Hr in H2. lia.
    + subst. apply Hr in H1. lia.
  - intros i k [[<- <-]|[? H1]]%lookup_insert_Some; [lia|]. apply Hr in H1. lia.
  - rewrite map_size_insert_None by done. lia.
Qed.

Lemma renumber_numbering evs : ∃ mp n, numbering evs (renumber evs, mp, n).
Proof.
  unfold renumber. assert (∀ done acc, numbering done acc → numbering (done ++ evs) (foldl renumberStep acc evs)) as H.
  { induction evs as [|v evs IH]; intros done acc Hn; [by rewrite app_nil_r|]. simpl.
    rewrite cons_middle, app_assoc. by apply IH, renumberStep_numbering. }
  destruct (foldl renumberStep ([], ∅, 0) evs) as [[e mp] n] eqn:E. exists mp, n. simpl. rewrite <-E. apply (H []).
  split; simpl; try done. intros i. rewrite dom_empty. set_solver.
Qed.

Lemma convertEntries_renamed mp evs :
  convertEntries (renamed mp <$> evs) = rename (λ i, default 0 (mp !! i)) <$> convertEntries evs.
Proof.
  unfold convertEntries. apply list_eq. intros k. rewrite list_lookup_fmap, !list_lookup_imap, list_lookup_fmap.
  by destruct (evs !! k).
Qed.

Lemma elem_convertEntries evs x : x ∈ convertEntries evs → ∃ v, v ∈ evs ∧ id x = Id v.
Proof.
  unfold convertEntries. intros [k Hk]%list_elem_of_lookup. rewrite list_lookup_imap in Hk.
  apply fmap_Some in Hk as (v & Hv%list_elem_of_lookup_2 & ->). eauto.
Qed.

Lemma convertEntries_elem evs v : v ∈ evs → ∃ x, x ∈ convertEntries evs ∧ id x = Id v.
Proof.
  intros [k Hk]%list_elem_of_lookup. eexists. split; [|shelve]. apply (list_elem_of_lookup_2 _ k).
  unfold convertEntries. rewrite list_lookup_imap, Hk. done.
  Unshelve. done.
Qed.

(** A well-formed history has as many returns as calls. *)
Lemma wf_zlen (R : list (entry V)) : wfHistory R → zlen R = 2 * zlen (callsOf R).
Proof.
  intros [H1 H2 H3 H4]. assert (callsOf R ≡ₚ returnsOf R) as Hp.
  { apply NoDup_Permutation; [done..|]. intros i. unfold callsOf, returnsOf. rewrite !list_elem_of_fmap. split.
    - intros (c & -> & [Hc Hin]%list_elem_of_filter). apply list_elem_of_split in Hin as (X & Y & ->).
      destruct (H3 X c Y eq_refl Hc) as (x & Hx & Hxx & Hi). exists x. split; [done|]. apply list_elem_of_filter. set_solver.
    - intros (x & -> & [Hx Hin]%list_elem_of_filter). destruct (H4 x Hin Hx) as (c & Hc & Hcc & Hi). exists c.
      split; [done|]. by apply list_elem_of_filter. }
  assert (zlen R = zlen (callsOf R) + zlen (returnsOf R)) as ->; [|unfold zlen; rewrite Hp; lia].
  clear. unfold callsOf, returnsOf, zlen. rewrite !length_fmap. induction R as [|x R IH]; [done|]. rewrite !filter_cons.
  destruct (call_or_return x) as [Hx|Hx].
  - rewrite decide_True, decide_False by (done || by intros ?; eapply call_not_return). simpl. lia.
  - rewrite decide_False, decide_True by (done || by intros ?; eapply call_not_return). simpl. lia.
Qed.

(** What the checker is given is well-formed, numbered, and the same history up to names. *)
Lemma renumber_spec evs : wfHistory (convertEntries evs) → zlen evs < 2 ^ 63 → ∃ r,
  convertEntries (renumber evs) = rename r <$> convertEntries evs ∧ injectiveOn r (convertEntries evs) ∧
  wfHistory (convertEntries (renumber evs)) ∧ numbered (convertEntries (renumber evs)).
Proof.
  intros Hwf Hlen. destruct (renumber_numbering evs) as (mp & n & [He Hd Hi Hr Hn]). simpl in *.
  set (r := λ i, default 0 (mp !! i)). exists r.
  assert (∀ x, x ∈ convertEntries evs → mp !! id x = Some (r (id x))) as Hmp.
  { intros x (v & Hv & ->)%elem_convertEntries. assert (Id v ∈ dom mp) as [k Hk]%elem_of_dom by (apply Hd; eauto).
    unfold r. by rewrite Hk. }
  assert (injectiveOn r (convertEntries evs)) as Hinj.
  { intros x y Hx%Hmp Hy%Hmp E. eapply Hi; [exact Hx|]. by rewrite Hy, E. }
  assert (convertEntries (renumber evs) = rename r <$> convertEntries evs) as Econv by (by rewrite He, convertEntries_renamed).
  split_and!; [done|done|rewrite Econv; by apply wf_rename|]. rewrite Econv. unfold numbered.
  assert (zlen (rename r <$> convertEntries evs) = zlen (convertEntries evs)) as -> by (unfold zlen; by rewrite length_fmap).
  split; [unfold zlen, convertEntries in *; by rewrite length_imap|].
  intros x' (x & -> & Hx)%list_elem_of_fmap. simpl. pose proof (Hr _ _ (Hmp x Hx)) as Hb. rewrite Hn in Hb.
  assert (zlen (callsOf (convertEntries evs)) = Z.of_nat (size mp)) as Hs.
  { rewrite <-size_dom. assert (dom mp = list_to_set (callsOf (convertEntries evs))) as ->.
    { apply set_eq. intros i. rewrite Hd, elem_of_list_to_set, elem_callsOf. split.
      - intros (v & Hv & <-). destruct (convertEntries_elem evs v Hv) as (y & Hy & <-).
        destruct (call_or_return y) as [|Hyr]; [eauto|]. by apply (wf_back _ Hwf).
      - intros (c & (v & ? & ?)%elem_convertEntries & _ & <-). eauto. }
    rewrite size_list_to_set by apply Hwf. done. }
  rewrite (wf_zlen _ Hwf), Hs. by rewrite Z.mul_comm, Z.div_mul by lia.
Qed.
End renumber.

(** ** [checkEvents] *)

Section events.
Context {V St : Type} (nilV : V) `{!EqDecision St}.
Implicit Types (m : Model V St) (evs : list (Event V)).

Lemma stepDefined_rename m r (R : list (entry V)) :
  injectiveOn r R → stepDefined m R → stepDefined m (rename r <$> R).
Proof.
  intros Hr Hd c' x' st (c & -> & Hc)%list_elem_of_fmap (x & -> & Hx)%list_elem_of_fmap Hcc Hxx Hi. simpl in *.
  apply Hd; try done. by apply Hr.
Qed.

(** C19: the check of events.  For a history of calls and returns with ids of any kind,
    each operation called once and then returned once, and a model that does not
    partition events, the goroutine [checkEvents] starts on the renumbered
    history comes to an answer, [checkEvents] returns [Ok] or [Illegal] accordingly,
    and the answer is [Ok] exactly when the events as they were given are linearizable. *)
Theorem events_check_correct m evs verbose :
  PartitionEvent m = None → equalIsEquality m → wfHistory (convertEntries evs) → zlen evs < 2 ^ 63 →
  stepDefined m (convertEntries evs) → ∃ ok,
    (∃ fuel longest, ∀ f, checkSingle nilV (fuel + f) (fillDefault m) (convertEntries (renumber evs)) verbose (λ _, false)
       = Some (Some (ok, longest))) ∧
    checkEvents m evs verbose [Result ok] = Some (Some (if ok then Ok else Illegal)) ∧
    (ok = true ↔ ∃ π, linearization (Step m) (convertEntries evs) (Init m) π).
Proof.
  intros Hpe Heq Hwf Hlen Hst. destruct (renumber_spec evs Hwf Hlen) as (r & E & Hr & Hwf' & Hnum').
  assert (equalIsEquality (fillDefault m)) as Heq'.
  { intros s t. unfold modelEqual. simpl. specialize (Heq s t). unfold modelEqual in Heq. by destruct (Equal m). }
  assert (stepDefined (fillDefault m) (convertEntries (renumber evs))) as Hst'.
  { rewrite E. by apply (stepDefined_rename m). }
  assert (∀ ok, checkEvents m evs verbose [Result ok] = Some (Some (if ok then Ok else Illegal))) as Hres.
  { intros ok. unfold checkEvents, eventPartitions. simpl. rewrite Hpe. by destruct ok, verbose. }
  pose proof (linearizable_rename (Step m) r _ (Init m) Hr) as Hiff. rewrite <-E in Hiff.
  destruct (checkSingle_runs nilV (fillDefault m) (convertEntries (renumber evs)) verbose Heq' Hwf' Hnum' Hst')
    as (fuel & [(π & Hl & Hf)|(lg & Hno & Hf)]); simpl in *.
  - exists true. rewrite <-Hiff. split_and!; [eexists _, _; exact Hf|apply Hres|]. split; [by eauto|done].
  - exists false. rewrite <-Hiff. split_and!; [eexists _, _; exact Hf|apply Hres|]. split; [done|]. intros (π & Hl). by destruct (Hno π).
Qed.
End events.

(** ** Concrete events *)

(** Client 0 puts [x], client 1 reads it; the ids are 7 and 3. *)
Definition kvEvents : list (Event kvValue) :=
  [mkEvent 0 CallEvent (KIn (mkKvInput 1 "k" "x")) 7; mkEvent 1 CallEvent (KIn (mkKvInput 0 "k" "")) 3;
   mkEvent 1 ReturnEvent (KOut (mkKvOutput "x")) 3; mkEvent 0 ReturnEvent (KOut (mkKvOutput "")) 7].

Example kvEvents_renumbered : Id <$> renumber kvEvents = [0; 1; 1; 0].
Proof. vm_compute. reflexivity. Qed.

Lemma kvEvents_wf : wfHistory (convertEntries kvEvents) ∧ stepDefined KvModel (convertEntries kvEvents).
Proof.
  split; [split|].
  - vm_compute. repeat constructor; set_solver.
  - vm_compute. repeat constructor; set_solver.
  - intros X c Y E Hc. destruct X as [|? [|? [|? [|? X]]]]; vm_compute in E; simplify_eq; try done.
    + eexists. split; [right; right; left|]; done.
    + eexists. split; [left|]; done.
    + by destruct X.
  - intros x Hx Hxx. repeat (apply elem_of_cons in Hx as [->|Hx]); try done; [..|by apply elem_of_nil in Hx].
    + eexists. split; [right; left|]; done.
    + eexists. split; [left|]; done.
  - intros c x st Hc Hx Hcc Hxx _.
    repeat (apply elem_of_cons in Hc as [->|Hc]); try done; try (by apply elem_of_nil in Hc);
      repeat (apply elem_of_cons in Hx as [->|Hx]); try done; try (by apply elem_of_nil in Hx); by eexists.
Qed.

Lemma events_check_correct_witness : ∃ ok,
  (∃ fuel longest, ∀ f, checkSingle KNil (fuel + f) (fillDefault KvModel) (convertEntries (renumber kvEvents)) true (λ _, false)
     = Some (Some (ok, longest))) ∧
  checkEvents KvModel kvEvents true [Result ok] = Some (Some (if ok then Ok else Illegal)) ∧
  (ok = true ↔ ∃ π, linearization (Step KvModel) (convertEntries kvEvents) (Init KvModel) π).
Proof.
  apply (events_check_correct KNil KvModel kvEvents true); [done|exact KvModel_equal|apply kvEvents_wf|reflexivity|apply kvEvents_wf].
Defined.

(** [KvModel] partitions operations by key but not events: a put on one key and a later read of
    another one that finds it empty are accepted as operations and rejected as events. *)
Definition twoKeys : list (Operation kvValue) :=
  [mkOperation 0 (KIn (mkKvInput 1 "a" "x")) 0 (KOut (mkKvOutput "")) 10;
   mkOperation 0 (KIn (mkKvInput 0 "b" "")) 20 (KOut (mkKvOutput "")) 30].
Definition twoKeyEvents : list (Event kvValue) :=
  [mkEvent 0 CallEvent (KIn (mkKvInput 1 "a" "x")) 0; mkEvent 0 ReturnEvent (KOut (mkKvOutput "")) 0;
   mkEvent 0 CallEvent (KIn (mkKvInput 0 "b" "")) 1; mkEvent 0 ReturnEvent (KOut (mkKvOutput "")) 1].

Definition verdicts (parts : list (list (entry kvValue))) : list (option bool) :=
  (λ R, verdict (checkSingle KNil 50 KvModel R false (λ _, false))) <$> parts.

#[local] Existing Instance merge_entries.

Example kv_events_merge_keys :
  verdicts <$> operationPartitions KvModel twoKeys = Some [Some true; Some true] ∧
  verdicts <$> eventPartitions KvModel twoKeyEvents = Some [Some false].
Proof. split; vm_compute; reflexivity. Qed.
