(* ===== verification/PorcupineLocal.v ===== *)
(** * Checking key by key is checking the whole map

    The comment on [Partition] in [porcupine/model.go] asks that a history be
    linearizable if and only if each partition is.  For the partition by key of
    [models/kv.go] and the map of all keys this is the locality of
    linearizability: the linearizations of the keys are merged by giving every
    operation a point between its call and its return. *)

From S2P Require Import Prelude Bitset Porcupine PorcupineSpec PorcupineFacts PorcupineOps PorcupineKv.
Open Scope go_scope.

(** ** Linearizations as lists of operations *)

Section tagged.
Context {V St : Type} `{!EqDecision St}.
Implicit Types (m : Model V St) (T l : list (Z * Operation V)) (a b : Z * Operation V) (π : list Z).

(** The model run on operations. *)
Definition runList m (os : list (Operation V)) (st : St) : option St :=
  foldM (λ st o, match Step m st (Input o) (Output o) with Some (true, st') => Some st' | _ => None end) os st.

(** The order [l] keeps the order of operations that do not overlap. *)
Definition respects l : Prop := ∀ a b, a ∈ l → b ∈ l → Return a.2 < Call b.2 → before l a b.

(** Linearizability of operations told apart by tags. *)
Definition tlin m T : Prop := ∃ l, l ≡ₚ T ∧ respects l ∧ is_Some (runList m l.*2 (Init m)).

Lemma omap_range T : omap (idx T) (range 0 (zlen T)) = T.
Proof.
  unfold range. rewrite Z.sub_0_r.
  assert (∀ k : nat, (k ≤ length T)%nat → omap (idx T) (seqZ 0 (Z.of_nat k)) = take k T) as H.
  { induction k as [|k IH]; intros Hk; [by rewrite take_0|].
    destruct (lookup_lt_is_Some_2 T k) as [a Ha]; [lia|].
    rewrite seqZ_S, omap_app, IH by lia. simpl. rewrite Z.add_0_l, idx_of_nat, Ha. by erewrite take_S_r. }
  unfold zlen. rewrite H by lia. by apply take_ge.
Qed.

Lemma runOps_omap m T π st : (∀ i, i ∈ π → is_Some (idx T i)) → runOps m T.*2 π st = runList m (omap (idx T) π).*2 st.
Proof.
  unfold runOps, runList. revert st. induction π as [|i π IH]; intros st Hi; [done|].
  destruct (Hi i) as [a Ha]; [set_solver|]. simpl. rewrite Ha. simpl.
  replace (idx T.*2 i) with (Some a.2).
  - destruct (Step m st _ _) as [[[] st']|]; simpl; [|done..]. apply IH. set_solver.
  - apply idx_Some in Ha as [? Ha]. symmetry. apply idx_Some. split; [done|]. by rewrite list_lookup_fmap, Ha.
Qed.

Lemma before_omap T π i j a b : idx T i = Some a → idx T j = Some b → before π i j → before (omap (idx T) π) a b.
Proof.
  intros Ha Hb (P & Q & -> & Hj). exists (omap (idx T) P), (omap (idx T) Q).
  rewrite omap_app. simpl. rewrite Ha. split; [done|]. apply list_elem_of_omap. by exists j.
Qed.

Lemma idx_snd T i o : idx T.*2 i = Some o → ∃ a, idx T i = Some a ∧ a.2 = o.
Proof.
  intros [Hi H]%idx_Some. rewrite list_lookup_fmap in H. destruct (T !! Z.to_nat i) as [a|] eqn:E; [|done].
  exists a. split; [by apply idx_Some|]. by injection H.
Qed.

Lemma idx_inj T i j a : NoDup T.*1 → idx T i = Some a → idx T j = Some a → i = j.
Proof.
  intros Hnd [? Hi]%idx_Some [? Hj]%idx_Some. assert (Z.to_nat i = Z.to_nat j); [|lia].
  eapply NoDup_lookup; [exact Hnd|by rewrite list_lookup_fmap, Hi|by rewrite list_lookup_fmap, Hj].
Qed.

(** The position of an operation. *)
Definition posOf T a : Z := match list_find (λ x, x.1 = a.1) T with Some (i, _) => Z.of_nat i | None => 0 end.

Lemma idx_posOf T a : NoDup T.*1 → a ∈ T → idx T (posOf T a) = Some a.
Proof.
  intros Hnd [k Hk]%list_elem_of_lookup. unfold posOf.
  destruct (list_find (λ x, x.1 = a.1) T) as [[i x]|] eqn:E.
  - apply list_find_Some in E as (Hi & Hx & _). rewrite idx_of_nat.
    replace i with k; [done|]. eapply NoDup_lookup; [exact Hnd|by rewrite list_lookup_fmap, Hk|by rewrite list_lookup_fmap, Hi; simpl; rewrite Hx].
  - apply list_find_None in E. rewrite Forall_forall in E. destruct (E a); [by eapply list_elem_of_lookup_2|done].
Qed.

Lemma omap_posOf T l : NoDup T.*1 → (∀ a, a ∈ l → a ∈ T) → omap (idx T) (posOf T <$> l) = l.
Proof.
  intros Hnd. induction l as [|a l IH]; intros Hl; [done|]. simpl. rewrite idx_posOf by set_solver.
  f_equal. apply IH. set_solver.
Qed.

Lemma posOf_range T : NoDup T.*1 → posOf T <$> T = range 0 (zlen T).
Proof.
  intros Hnd. apply list_eq. intros k. unfold range. rewrite Z.sub_0_r, list_lookup_fmap.
  destruct (T !! k) as [a|] eqn:E; simpl.
  - pose proof (lookup_lt_Some _ _ _ E). rewrite lookup_seqZ_lt by (unfold zlen; lia). f_equal. rewrite Z.add_0_l.
    eapply (idx_inj T); [done|by apply idx_posOf; [|eapply list_elem_of_lookup_2]|by rewrite idx_of_nat].
  - apply lookup_ge_None in E. by rewrite lookup_seqZ_ge by (unfold zlen; lia).
Qed.

Lemma linearizable_tlin m T : NoDup T.*1 → linearizable m T.*2 ↔ tlin m T.
Proof.
  intros Hnd. assert (zlen T.*2 = zlen T) as Hz by (unfold zlen; by rewrite length_fmap). split.
  - intros (π & Hp & Hb & Hr). rewrite Hz in Hp.
    assert (omap (idx T) π ≡ₚ T) as HpT by (rewrite Hp; by rewrite omap_range).
    exists (omap (idx T) π). split_and!; [done| |].
    + intros a b Ha Hb' Hlt. rewrite HpT in Ha, Hb'.
      apply list_elem_of_lookup in Ha as [i Hi], Hb' as [j Hj].
      apply (before_omap T π (Z.of_nat i) (Z.of_nat j)); rewrite ?idx_of_nat; [done|done|].
      apply (Hb _ _ a.2 b.2); [| |done]; rewrite idx_of_nat, list_lookup_fmap; [by rewrite Hi|by rewrite Hj].
    + rewrite <-runOps_omap; [done|]. intros i Hi. rewrite Hp in Hi. apply idx_is_Some. by apply elem_of_range.
  - intros (l & Hp & Hb & Hr). assert (∀ a, a ∈ l → a ∈ T) as Hin by (intros a; by rewrite Hp).
    assert (posOf T <$> l ≡ₚ range 0 (zlen T)) as HpT by (rewrite Hp; by rewrite posOf_range).
    exists (posOf T <$> l). rewrite Hz. split_and!; [done| |].
    + intros i j oi oj (a & Ha & <-)%idx_snd (b & Hb' & <-)%idx_snd Hlt.
      assert (a ∈ l ∧ b ∈ l) as [Hal Hbl] by (rewrite Hp; eauto using idx_elem_of).
      destruct (Hb a b Hal Hbl Hlt) as (P & Q & -> & HQ).
      replace i with (posOf T a) by (eapply (idx_inj T); [done|apply idx_posOf; auto|done]).
      replace j with (posOf T b) by (eapply (idx_inj T); [done|apply idx_posOf; auto|done]).
      exists (posOf T <$> P), (posOf T <$> Q). rewrite fmap_app. split; [done|]. by apply list_elem_of_fmap_2.
    + rewrite runOps_omap, omap_posOf; [done..|]. intros i Hi. rewrite HpT in Hi. apply idx_is_Some. by apply elem_of_range.
Qed.
End tagged.

(** ** Points of linearization *)

Section points.
Context {V : Type}.
Implicit Types (l : list (Z * Operation V)) (s : list (Z * (Z * Operation V))) (a b : Z * Operation V).

(** Every operation at the latest call so far. *)
Fixpoint stampFrom (acc : Z) l : list (Z * (Z * Operation V)) :=
  match l with
  | [] => []
  | a :: l' => let t := Z.max acc (Call a.2) in (t, a) :: stampFrom t l'
  end.

Definition earlier (x y : Z * (Z * Operation V)) : Prop := x.1 ≤ y.1.
#[global] Instance earlier_dec : RelDecision earlier := λ x y, Z_le_dec x.1 y.1.
#[global] Instance earlier_total : Total earlier.
Proof. intros x y. unfold earlier. lia. Qed.
#[global] Instance earlier_trans : Transitive earlier.
Proof. intros x y z. unfold earlier. lia. Qed.

Lemma stampFrom_snd acc l : (stampFrom acc l).*2 = l.
Proof. revert acc. induction l as [|a l IH]; intros acc; [done|]. simpl. by rewrite IH. Qed.

Lemma stampFrom_sorted acc l : Forall (λ x, acc ≤ x.1) (stampFrom acc l) ∧ StronglySorted earlier (stampFrom acc l).
Proof.
  revert acc. induction l as [|a l IH]; intros acc; simpl; [split; constructor|].
  destruct (IH (Z.max acc (Call a.2))) as [H1 H2]. split.
  - constructor; [simpl; lia|]. eapply Forall_impl; [exact H1|]. simpl. lia.
  - constructor; [done|]. done.
Qed.

Definition inside (x : Z * (Z * Operation V)) : Prop := Call x.2.2 ≤ x.1 ≤ Return x.2.2.

(** The points of an order that respects the times lie inside the operations. *)
Lemma stampFrom_inside acc l :
  NoDup l → respects l → Forall (λ a, acc ≤ Return a.2 ∧ Call a.2 ≤ Return a.2) l → Forall inside (stampFrom acc l).
Proof.
  revert acc. induction l as [|a l IH]; intros acc Hnd Hr Hl; simpl; [constructor|].
  apply NoDup_cons in Hnd as [Ha Hnd]. apply Forall_cons in Hl as [[H1 H2] Hl]. constructor; [unfold inside; simpl; lia|].
  apply IH; [done| |].
  - intros x y Hx Hy Hlt. destruct (before_inv l x y a) as [[-> _]|?]; [apply Hr; set_solver|done|done].
  - apply Forall_forall. intros b Hb. rewrite Forall_forall in Hl. destruct (Hl b Hb) as [H3 H4]. split; [|done].
    destruct (Z.lt_ge_cases (Return b.2) (Call a.2)) as [Hlt|?]; [|lia]. exfalso.
    destruct (before_inv l b a a) as [[-> _]|Hbe]; [apply Hr; set_solver|done|]. by apply before_elem in Hbe as [_ ?].
Qed.

(** Sorted points keep the order of operations that do not overlap. *)
Lemma sorted_respects s : StronglySorted earlier s → Forall inside s → respects s.*2.
Proof.
  intros Hs Hin a b Ha Hb Hlt. apply list_elem_of_fmap in Ha as (x & -> & Hx), Hb as (y & -> & Hy).
  rewrite Forall_forall in Hin. pose proof (Hin x Hx) as Ix. pose proof (Hin y Hy) as Iy. unfold inside in *.
  apply list_elem_of_split in Hx as (X & Y & ->). exists X.*2, Y.*2. rewrite fmap_app. split; [done|].
  apply list_elem_of_fmap_2. apply elem_of_app in Hy as [Hy|[->|Hy]%elem_of_cons]; [exfalso|exfalso; lia|done].
  apply StronglySorted_app in Hs as (Hs & _ & _). specialize (Hs y x Hy ltac:(set_solver)). unfold earlier in Hs. lia.
Qed.

(** Merging keeps the part that has a property, when only one side has it. *)
Lemma filter_merge_r (P : Z * (Z * Operation V) → Prop) `{∀ x, Decision (P x)} s1 s2 :
  (∀ x, x ∈ s1 → ¬ P x) → filter P (list_merge earlier s1 s2) = filter P s2.
Proof.
  revert s2. induction s1 as [|x1 s1 IH1]; intros s2 Hs1; [by rewrite list_merge_nil_l|].
  induction s2 as [|x2 s2 IH2].
  - rewrite list_merge_nil_r, !filter_cons_False by (apply Hs1; set_solver).
    rewrite <-(list_merge_nil_r earlier s1). apply IH1. set_solver.
  - rewrite list_merge_cons. destruct (decide (earlier x1 x2)).
    + rewrite filter_cons_False by (apply Hs1; set_solver). apply IH1. set_solver.
    + rewrite !(filter_cons P x2). destruct (decide (P x2)); [f_equal|]; exact IH2.
Qed.

Lemma filter_merge_l (P : Z * (Z * Operation V) → Prop) `{∀ x, Decision (P x)} s1 s2 :
  (∀ x, x ∈ s2 → ¬ P x) → filter P (list_merge earlier s1 s2) = filter P s1.
Proof.
  revert s2. induction s1 as [|x1 s1 IH1]; intros s2 Hs2.
  - rewrite list_merge_nil_l. induction s2 as [|x2 s2 IH2]; [done|]. rewrite filter_cons_False by (apply Hs2; set_solver).
    apply IH2. set_solver.
  - induction s2 as [|x2 s2 IH2]; [by rewrite list_merge_nil_r|].
    rewrite list_merge_cons. destruct (decide (earlier x1 x2)).
    + rewrite !(filter_cons P x1). destruct (decide (P x1)); [f_equal|]; by apply IH1.
    + rewrite filter_cons_False by (apply Hs2; set_solver). apply IH2. set_solver.
Qed.
End points.

(** ** The map of all keys *)

(** One step of a map from keys to strings, [""] when absent. *)
Definition mapStep (st : gmap string string) (input output : kvValue) : option (bool * gmap string string) :=
  match asInput input with
  | Some inp =>
      match kvStep (default EmptyString (st !! Key inp)) input output with
      | Some (ok, v) => Some (ok, <[Key inp := v]> st)
      | None => None
      end
  | None => None
  end.

Definition MapModel : Model kvValue (gmap string string) := mkModel None None ∅ mapStep None.

Definition typed (o : Operation kvValue) : Prop := ∃ i w, Input o = KIn i ∧ Output o = KOut w.

#[local] Arguments kvStep : simpl never.
#[local] Arguments mapStep : simpl never.

(** A run of the map is a run of every key. *)
Lemma runList_keys os st : Forall typed os →
  is_Some (runList MapModel os st) ↔
  ∀ k, is_Some (runList KvModel (filter (hasKey k) os) (default EmptyString (st !! k))).
Proof.
  unfold runList. intros Hos. revert st. induction Hos as [|o os (i & w & Ei & Ew) _ IH]; intros st.
  { split; intros; by eexists. }
  assert (∀ k, hasKey k o ↔ k = Key i) as Hk by (intros k; unfold hasKey; rewrite Ei; naive_solver).
  set (cur := default EmptyString (st !! Key i)).
  destruct (kvStep cur (KIn i) (KOut w)) as [[ok v]|] eqn:Es; [|done].
  assert (mapStep st (KIn i) (KOut w) = Some (ok, <[Key i := v]> st)) as Em.
  { unfold mapStep. cbn [asInput]. fold cur. by rewrite Es. }
  simpl. rewrite Ei, Ew, Em. destruct ok; simpl.
  - rewrite IH. split; intros H k; specialize (H k); destruct (decide (k = Key i)) as [->|Hne].
    + rewrite filter_cons_True by (by apply Hk). rewrite lookup_insert_eq in H. simpl. rewrite Ei, Ew. fold cur. by rewrite Es.
    + rewrite filter_cons_False by (by rewrite Hk). by rewrite lookup_insert_ne in H.
    + rewrite filter_cons_True in H by (by apply Hk). rewrite lookup_insert_eq. simpl in H. rewrite Ei, Ew in H.
      fold cur in H. by rewrite Es in H.
    + rewrite filter_cons_False in H by (by rewrite Hk). by rewrite lookup_insert_ne.
  - split; [by intros [? ?]|]. intros H. specialize (H (Key i)). rewrite filter_cons_True in H by (by apply Hk).
    simpl in H. rewrite Ei, Ew in H. fold cur in H. rewrite Es in H. by destruct H.
Qed.

(** ** Locality *)

Definition tkey (k : string) (a : Z * Operation kvValue) : Prop := hasKey k a.2.
#[export] Instance tkey_dec k a : Decision (tkey k a) := hasKey_dec k a.2.

Lemma fmap_filter_key k (l : list (Z * Operation kvValue)) : (filter (tkey k) l).*2 = filter (hasKey k) l.*2.
Proof.
  induction l as [|a l IH]; [done|]. rewrite fmap_cons, !filter_cons.
  change (decide (tkey k a)) with (decide (hasKey k a.2)). destruct (decide (hasKey k a.2)); [|done]. by rewrite fmap_cons, IH.
Qed.

Lemma fmap_filter_stamp k (s : list (Z * (Z * Operation kvValue))) :
  (filter (λ x, tkey k x.2) s).*2 = filter (tkey k) s.*2.
Proof.
  induction s as [|x s IH]; [done|]. rewrite fmap_cons, !filter_cons.
  destruct (decide (tkey k x.2)); [|done]. by rewrite fmap_cons, IH.
Qed.

Lemma tkey_inj k k' a : tkey k a → tkey k' a → k = k'.
Proof. unfold tkey, hasKey. congruence. Qed.

(** The operations on some keys. *)
Definition onKeys (ks : list string) (T : list (Z * Operation kvValue)) : list (Z * Operation kvValue) :=
  filter (λ a, Exists (λ k, tkey k a) ks) T.

Lemma onKeys_cons k ks T : k ∉ ks → onKeys (k :: ks) T ≡ₚ filter (tkey k) T ++ onKeys ks T.
Proof.
  intros Hk. unfold onKeys. induction T as [|a T IH]; [done|]. rewrite !filter_cons.
  destruct (decide (tkey k a)) as [Ha|Ha].
  - rewrite decide_True by (by left). rewrite decide_False; [by rewrite IH|].
    intros (k' & Hk' & Ha')%Exists_exists. by rewrite (tkey_inj k k' a) in Hk.
  - destruct (decide (Exists (λ k0, tkey k0 a) ks)) as [He|He].
    + rewrite decide_True by (by right). rewrite IH. by rewrite Permutation_middle.
    + rewrite decide_False; [done|]. by intros [?|?]%Exists_cons.
Qed.

(** Points for the operations on some keys, each key in an accepted order. *)
Definition merged (T : list (Z * Operation kvValue)) (ks : list string) (s : list (Z * (Z * Operation kvValue))) : Prop :=
  s.*2 ≡ₚ onKeys ks T ∧ StronglySorted earlier s ∧ Forall inside s ∧
  ∀ k, k ∈ ks → is_Some (runList KvModel (filter (tkey k) s.*2).*2 EmptyString).

Lemma merge_key T k ks s :
  NoDup T → Forall (λ a, Call a.2 ≤ Return a.2) T → k ∉ ks → tlin KvModel (filter (tkey k) T) → merged T ks s →
  ∃ s', merged T (k :: ks) s'.
Proof.
  intros Hnd HT Hk (l & Hp & Hr & Hrun) (Hps & Hss & His & Hrs).
  assert (∃ acc, Forall (λ a, acc ≤ Return a.2 ∧ Call a.2 ≤ Return a.2) l) as [acc Hacc].
  { assert (∀ a, a ∈ l → Call a.2 ≤ Return a.2) as Hle.
    { intros a Ha. rewrite Hp in Ha. apply list_elem_of_filter in Ha as [_ Ha]. rewrite Forall_forall in HT. by apply HT. }
    clear -Hle. induction l as [|a l IH]; [by exists 0|]. destruct IH as [acc IH]; [set_solver|]. exists (Z.min acc (Return a.2)).
    constructor; [split; [lia|apply Hle; set_solver]|]. eapply Forall_impl; [exact IH|]. simpl. lia. }
  assert (Forall inside (stampFrom acc l)) as Hin.
  { apply stampFrom_inside; [|done|done]. rewrite Hp. by apply NoDup_filter. }
  assert (∀ x, x ∈ stampFrom acc l → tkey k x.2) as Hk1.
  { intros x Hx. assert (x.2 ∈ l) as Hl by (rewrite <-(stampFrom_snd acc l); by apply list_elem_of_fmap_2).
    rewrite Hp in Hl. by apply list_elem_of_filter in Hl as [? _]. }
  assert (∀ x, x ∈ s → ∃ k', k' ∈ ks ∧ tkey k' x.2) as Hk2.
  { intros x Hx. assert (x.2 ∈ onKeys ks T) as Hl by (rewrite <-Hps; by apply list_elem_of_fmap_2).
    unfold onKeys in Hl. apply list_elem_of_filter in Hl as [Hl _]. by apply Exists_exists in Hl. }
  exists (list_merge earlier (stampFrom acc l) s). split_and!.
  - rewrite merge_Permutation, fmap_app, stampFrom_snd, Hps, Hp. by rewrite onKeys_cons.
  - apply Sorted_StronglySorted; [apply _|]. apply Sorted_list_merge; [apply _| |]; apply StronglySorted_Sorted; [apply stampFrom_sorted|done].
  - rewrite merge_Permutation. by apply Forall_app.
  - intros k' [->|Hk']%elem_of_cons; rewrite <-fmap_filter_stamp.
    + rewrite filter_merge_l, filter_all, stampFrom_snd; [done|done|].
      intros x Hx Hkx. destruct (Hk2 x Hx) as (k' & Hk' & Hx'). by rewrite (tkey_inj k k' x.2) in Hk.
    + rewrite filter_merge_r, fmap_filter_stamp; [by apply Hrs|].
      intros x Hx Hkx. rewrite (tkey_inj k k' x.2) in Hk; auto.
Qed.

Lemma onKeys_nil T : onKeys [] T = [].
Proof. unfold onKeys. induction T as [|a T IH]; [done|]. rewrite filter_cons_False; [done|]. by intros []%Exists_nil. Qed.

Lemma merge_keys T ks :
  NoDup T → Forall (λ a, Call a.2 ≤ Return a.2) T → NoDup ks → (∀ k, tlin KvModel (filter (tkey k) T)) → ∃ s, merged T ks s.
Proof.
  intros HT Ht Hks Hl. induction Hks as [|k ks Hk Hks (s & IH)]; [|by eapply merge_key].
  exists []. split_and!; [by rewrite onKeys_nil|constructor|constructor|]. intros k Hk. set_solver.
Qed.

(** The keys of the operations. *)
Definition keysOf (T : list (Z * Operation kvValue)) : list string :=
  remove_dups (omap (λ a, Key <$> asInput (Input a.2)) T).

Lemma onKeys_all T : Forall (λ a, typed a.2) T → onKeys (keysOf T) T = T.
Proof.
  intros HT. unfold onKeys. apply filter_all. intros a Ha. rewrite Forall_forall in HT.
  destruct (HT a Ha) as (i & w & Ei & _). apply Exists_exists. exists (Key i). unfold keysOf, tkey, hasKey. rewrite Ei.
  split; [|done]. rewrite elem_of_remove_dups, list_elem_of_omap. exists a. by rewrite Ei.
Qed.

Lemma tlin_local T :
  NoDup T → Forall (λ a, typed a.2 ∧ Call a.2 ≤ Return a.2) T →
  tlin MapModel T ↔ ∀ k, tlin KvModel (filter (tkey k) T).
Proof.
  intros Hnd HT. apply Forall_and in HT as [Hty Ht]. split.
  - intros (l & Hp & Hr & Hrun) k. exists (filter (tkey k) l). split_and!; [by rewrite Hp| |].
    + intros a b [Hka Ha]%list_elem_of_filter [Hkb Hb]%list_elem_of_filter Hlt.
      destruct (Hr a b Ha Hb Hlt) as (P & Q & -> & HQ). exists (filter (tkey k) P), (filter (tkey k) Q).
      rewrite filter_app, filter_cons_True by done. split; [done|]. by apply list_elem_of_filter.
    + rewrite runList_keys in Hrun; [|rewrite Hp; by apply Forall_fmap]. specialize (Hrun k).
      by rewrite fmap_filter_key.
  - intros Hl. destruct (merge_keys T (keysOf T) Hnd Ht (NoDup_remove_dups _) Hl) as (s & Hps & Hss & His & Hrs).
    rewrite onKeys_all in Hps by done. exists s.*2. split_and!; [done|by apply sorted_respects|].
    apply runList_keys; [rewrite Hps; by apply Forall_fmap|]. intros k. rewrite <-fmap_filter_key. simpl.
    destruct (decide (k ∈ keysOf T)) as [Hk|Hk]; [by apply Hrs|].
    replace (filter (tkey k) s.*2) with (@nil (Z * Operation kvValue)); [by eexists|]. symmetry.
    destruct (filter (tkey k) s.*2) as [|a l] eqn:E; [done|exfalso]. apply Hk.
    assert (a ∈ filter (tkey k) s.*2) as [Ha Hin]%list_elem_of_filter by (rewrite E; set_solver). rewrite Hps in Hin.
    unfold keysOf. rewrite elem_of_remove_dups, list_elem_of_omap. by exists a.
Qed.

(** Linearizability of a map is linearizability of every key. *)
Lemma kv_local history : kvHistory history →
  linearizable MapModel history ↔ ∀ k, linearizable KvModel (onKey k history).
Proof.
  intros [Hh _]. set (T := enumerate history).
  pose proof (enumerate_snd history : T.*2 = history) as ET. pose proof (enumerate_NoDup history : NoDup T.*1) as Hnd.
  rewrite <-ET at 1. rewrite linearizable_tlin by done. rewrite tlin_local.
  - apply forall_proper. intros k. rewrite <-linearizable_tlin.
    + rewrite fmap_filter_key, ET. done.
    + eapply sublist_NoDup; [exact Hnd|]. apply fmap_sublist, sublist_filter.
  - by apply NoDup_fmap_1 in Hnd.
  - rewrite <-ET in Hh. by apply Forall_fmap in Hh.
Qed.

(** C18: the check of a key/value history is a check of the whole map.  For a
    non-empty history of fewer than 2^62 well-typed operations that do not return
    before they are called, and for every sort of the entries that meets the contract
    of [sort.Sort] (entries of equal rank in any order), the goroutines that [checkOperations] starts on the keys of [KvModel] all
    answer, and in whatever order the answers arrive the result is [Ok] exactly when
    the whole history is linearizable as a map of strings with get, put and append,
    and [Illegal] otherwise. *)
Theorem kv_check_correct {GS : EntrySort kvValue} {GSL : EntrySortLaws GS} history verbose :
  kvHistory history → history ≠ [] →
  ∃ parts verdicts, partitionsOf KvModel history = Some parts ∧
    Forall2 (answers KNil KvModel verbose) parts verdicts ∧
    ∀ rs, rs ≡ₚ verdicts → ∃ res, checkOperations KvModel history verbose (Result <$> rs) = Some (Some res) ∧
      (res = Ok ↔ linearizable MapModel history) ∧ (res = Illegal ↔ ¬ linearizable MapModel history).
Proof.
  intros Hh Hne. destruct (kv_check_keys history verbose Hh Hne) as (parts & vs & Hp & Hvs & Hres).
  exists parts, vs. split_and!; [done|done|]. intros rs Hrs. destruct (Hres rs Hrs) as (res & ? & ? & ?).
  exists res. by rewrite kv_local.
Qed.

(** A history on two keys. *)
Definition twoKeys : list (Operation kvValue) :=
  mkOperation 2 (KIn (mkKvInput 1 "a" "v")) 3 (KOut (mkKvOutput "")) 45 :: exampleOps "x".

Lemma twoKeys_kv : kvHistory twoKeys.
Proof. split; [|done]. repeat constructor; simpl; eauto; lia. Qed.

#[local] Existing Instance merge_entries.

Lemma kv_check_correct_witness : ∃ parts verdicts,
  partitionsOf KvModel twoKeys = Some parts ∧ Forall2 (answers KNil KvModel false) parts verdicts ∧
  ∀ rs, rs ≡ₚ verdicts → ∃ res, checkOperations KvModel twoKeys false (Result <$> rs) = Some (Some res) ∧
    (res = Ok ↔ linearizable MapModel twoKeys) ∧ (res = Illegal ↔ ¬ linearizable MapModel twoKeys).
Proof. apply (kv_check_correct (GSL := merge_entries_laws) twoKeys false twoKeys_kv). discriminate. Defined.
