(* ===== verification/KvHistory.v ===== *)
(** * The histories the tests of the key/value services record

    The functions [Get], [Put] and [Append] of [kvsrv/test_test.go] and
    [kvraft/test_test.go] read the clock before and after the call of the clerk and log
    an operation of the checker.  [record] is that log as a function of the calls
    and returns of the clients; the rest says when it is linearizable and that the
    checker then accepts it. *)

From S2P Require Import Prelude Bitset Porcupine PorcupineSpec PorcupineFacts PorcupineOps PorcupineKv PorcupineLocal.
Open Scope go_scope.

(** A client calls an operation, or its call returns a value. *)
Inductive observation :=
  | Called (i : nat) (inp : KvInput)
  | Returned (i : nat) (out : string).

(** The operations logged for timed observations; [opened] holds the calls that have not returned. *)
Fixpoint record (opened : gmap nat (Z * KvInput)) (obs : list (Z * observation)) : list (Operation kvValue) :=
  match obs with
  | [] => []
  | (t, Called i inp) :: obs' => record (<[i := (t, inp)]> opened) obs'
  | (t, Returned i out) :: obs' =>
      match opened !! i with
      | Some (start, inp) =>
          mkOperation (Z.of_nat i) (KIn inp) start (KOut (mkKvOutput out)) t :: record (delete i opened) obs'
      | None => record opened obs'
      end
  end.

(** The clock does not run backwards. *)
Definition clocked {A} (obs : list (Z * A)) : Prop := StronglySorted Z.le obs.*1.

(** ** Linearizability of a log *)

Section order.
Context {V St : Type} `{!EqDecision St}.
Implicit Types (m : Model V St) (l history : list (Operation V)).

(** No operation of the order is called after a later one has returned. *)
Definition inOrder l : Prop := StronglySorted (λ a b, Call a ≤ Return b) l.

Lemma inOrder_respects (T : list (Z * Operation V)) : timed T.*2 → inOrder T.*2 → respects T.
Proof.
  intros Ht Hs a b Ha Hb Hlt. unfold timed in Ht. rewrite Forall_fmap, Forall_forall in Ht.
  apply list_elem_of_split in Ha as (P & Q & ->). exists P, Q. split; [done|].
  apply elem_of_app in Hb as [Hb|[->|Hb]%elem_of_cons]; [exfalso|exfalso|done].
  - unfold inOrder in Hs. rewrite fmap_app in Hs. apply StronglySorted_app in Hs as (Hs & _ & _).
    specialize (Hs b.2 a.2 (list_elem_of_fmap_2 _ _ _ Hb) ltac:(apply list_elem_of_fmap_2; set_solver)). lia.
  - specialize (Ht a ltac:(set_solver)). simpl in Ht. lia.
Qed.

(** A history is linearizable when the model accepts its operations in an order
    in which none is called after a later one has returned. *)
Lemma ordered_linearizable m l history :
  l ≡ₚ history → timed l → inOrder l → is_Some (runList m l (Init m)) → linearizable m history.
Proof.
  intros Hp Ht Hs Hr. rewrite <-(enumerate_snd history) in Hp.
  apply Permutation_map_inv in Hp as (T & -> & HT). change (map snd T) with (T.*2) in *.
  rewrite <-(enumerate_snd history). apply linearizable_tlin; [apply enumerate_NoDup|].
  exists T. split_and!; [done|by apply inOrder_respects|done].
Qed.
End order.

(** ** The map the checker runs *)

(** Two maps with the same value of every key, [""] when absent. *)
Definition sameValues (st st' : gmap string string) : Prop :=
  ∀ k, default EmptyString (st !! k) = default EmptyString (st' !! k).

#[export] Instance sameValues_equiv : Equivalence sameValues.
Proof. split; [by intros ? ?|by intros ? ? H k; rewrite H|intros ? ? ? H H' k; by rewrite H]. Qed.

(** An operation the model accepts, by what it does to the value of its key. *)
Lemma mapStep_accepts st inp out st' :
  (Op inp = 0 ∨ Op inp = 3 → out = default EmptyString (st !! Key inp)) →
  sameValues st' (<[Key inp :=
    if Op inp =? 0 then default EmptyString (st !! Key inp)
    else if Op inp =? 1 then KValue inp
    else default EmptyString (st !! Key inp) +:+ KValue inp]> st) → 0 ≤ Op inp ≤ 3 →
  ∃ st1, mapStep st (KIn inp) (KOut (mkKvOutput out)) = Some (true, st1) ∧ sameValues st1 st'.
Proof.
  intros Hout Hst Hop. unfold mapStep, kvStep. simpl. destruct (Z.eqb_spec (Op inp) 0) as [E|?].
  { rewrite bool_decide_true by auto. (eexists; split; [done|by symmetry]). }
  destruct (Z.eqb_spec (Op inp) 1); [(eexists; split; [done|by symmetry])|].
  destruct (Z.eqb_spec (Op inp) 2); [(eexists; split; [done|by symmetry])|].
  rewrite bool_decide_true by (apply Hout; lia). (eexists; split; [done|by symmetry]).
Qed.

Lemma mapStep_same st st0 input output st1 :
  sameValues st st0 → mapStep st input output = Some (true, st1) →
  ∃ st2, mapStep st0 input output = Some (true, st2) ∧ sameValues st1 st2.
Proof.
  intros Hs. unfold mapStep. destruct (asInput input) as [inp|]; [|done]. rewrite <-Hs.
  destruct (kvStep _ input output) as [[ok v]|]; [|done]. intros [= -> <-]. eexists. split; [done|].
  intros k. destruct (decide (Key inp = k)) as [->|?]; [by rewrite !lookup_insert_eq|by rewrite !lookup_insert_ne].
Qed.

Lemma runList_same l st st0 :
  sameValues st st0 → is_Some (runList MapModel l st) → is_Some (runList MapModel l st0).
Proof.
  unfold runList. revert st st0. induction l as [|o l IH]; intros st st0 Hs; [by eexists|]. simpl.
  destruct (mapStep st (Input o) (Output o)) as [[[] st1]|] eqn:E; [|by intros [? ?]..].
  destruct (mapStep_same _ _ _ _ _ Hs E) as (st2 & -> & Hs'). by apply IH.
Qed.

(** The operation as the model sees it runs first. *)
Lemma runList_cons i inp t0 out t l st st' :
  (Op inp = 0 ∨ Op inp = 3 → out = default EmptyString (st !! Key inp)) →
  sameValues st' (<[Key inp :=
    if Op inp =? 0 then default EmptyString (st !! Key inp)
    else if Op inp =? 1 then KValue inp
    else default EmptyString (st !! Key inp) +:+ KValue inp]> st) → 0 ≤ Op inp ≤ 3 →
  is_Some (runList MapModel l st') →
  is_Some (runList MapModel (mkOperation i (KIn inp) t0 (KOut (mkKvOutput out)) t :: l) st).
Proof.
  intros Hout Hst Hop Hr. destruct (mapStep_accepts st inp out st' Hout Hst Hop) as (st1 & E & Hs).
  unfold runList in *. simpl. rewrite E. simpl. eapply (runList_same l st' st1); [by symmetry|exact Hr].
Qed.

(** ** The verdict *)

(** What the tests ask of the checker: however the sort of the entries treats those
    that compare equal, and whatever the order in which the goroutines of the keys
    answer, the result is [Ok]. *)
Definition checksOk (history : list (Operation kvValue)) : Prop :=
  ∀ (GS : EntrySort kvValue) (GSL : EntrySortLaws GS) verbose, ∃ parts verdicts, partitionsOf KvModel history = Some parts ∧
    Forall2 (answers KNil KvModel verbose) parts verdicts ∧
    ∀ rs, rs ≡ₚ verdicts → checkOperations KvModel history verbose (Result <$> rs) = Some (Some Ok).

Lemma linearizable_checksOk history :
  kvHistory history → history ≠ [] → linearizable MapModel history → checksOk history.
Proof.
  intros Hh Hne Hlin GS GSL verbose. destruct (kv_check_keys history verbose Hh Hne) as (parts & vs & Hp & Hvs & Hres).
  exists parts, vs. split_and!; [done|done|]. intros rs Hrs. destruct (Hres rs Hrs) as (res & -> & Hok & _).
  do 2 f_equal. apply Hok. by apply kv_local.
Qed.

(** ** The log is well formed *)

Lemma record_kvHistory opened obs :
  clocked obs → (∀ i start inp, opened !! i = Some (start, inp) → Forall (λ t, start ≤ t) obs.*1) →
  Forall (λ o, typed o ∧ Call o ≤ Return o) (record opened obs).
Proof.
  revert opened. induction obs as [|[t [i inp|i out]] obs IH]; intros opened Hc Ho; simpl; [done| |];
    inversion Hc as [|? ? Hs Hall]; subst.
  - apply IH; [done|]. intros j start inp'. destruct (decide (i = j)) as [<-|?].
    + rewrite lookup_insert_eq. by intros [= <- <-].
    + rewrite lookup_insert_ne by done. intros Hj%Ho. by inversion Hj.
  - destruct (opened !! i) as [[start inp]|] eqn:E.
    + constructor; [|apply IH; [done|]].
      * split; [by eexists _, _|]. simpl. apply Ho in E. by inversion E.
      * intros j start' inp' [_ Hj]%lookup_delete_Some. apply Ho in Hj. by inversion Hj.
    + apply IH; [done|]. intros j start' inp' Hj%Ho. by inversion Hj.
Qed.

Lemma record_length opened obs : (length (record opened obs) ≤ length obs)%nat.
Proof.
  revert opened. induction obs as [|[t [i inp|i out]] obs IH]; intros opened; simpl; [done| |].
  - etrans; [apply IH|lia].
  - destruct (opened !! i) as [[start inp]|]; simpl; [specialize (IH (delete i opened))|specialize (IH opened)]; lia.
Qed.

Lemma recorded_kvHistory obs : clocked obs → zlen obs < 2 ^ 62 → kvHistory (record ∅ obs).
Proof.
  intros Hc Hl. split; [|pose proof (record_length ∅ obs); unfold zlen in *; lia].
  eapply Forall_impl; [apply record_kvHistory; [done|by intros i start inp ?%lookup_empty_Some]|]. by intros o [? ?].
Qed.
