(* ===== verification/PorcupinePartial.v ===== *)
(** * The partial linearizations of [checkSingle]

    Every sequence [checkSingle] leaves in [longest], whatever it answers and
    whenever it is killed, is accepted by the model from its initial state, and
    has the operation it is kept for.  The invariant is on the stack of calls:
    the states on it are the states of the model along the sequence. *)

From S2P Require Import Prelude Bitset Porcupine PorcupineHeap PorcupineSpec PorcupineSearch.
Open Scope go_scope.

(** ** The static part of the heap *)

Section static.
Context {V : Type}.
Implicit Types (R : list (entry V)) (h : list (node V)) (mt : gmap Z nat).

Lemma sameStatic_refl h : sameStatic h h.
Proof. by intros a. Qed.

Lemma lift_static e h h' : lift e h = Some h' → sameStatic h' h.
Proof.
  unfold lift. intros H. inv_bind H. case_match; [inv_bind H|]; injection H as <-;
    repeat first [apply sameStatic_refl | eapply sameStatic_trans; [apply sameStatic_set|]].
Qed.

Lemma unlift_static e h h' : unlift e h = Some h' → sameStatic h' h.
Proof.
  unfold unlift. intros H. inv_bind H. injection H as <-. case_match;
    repeat first [apply sameStatic_refl | eapply sameStatic_trans; [apply sameStatic_set|]].
Qed.

Lemma insertBefore_static a mark h h' : insertBefore a mark h = Some h' → sameStatic h' h.
Proof.
  unfold insertBefore. intros H. case_match; [|injection H as <-; apply sameStatic_refl].
  inv_bind H. case_match; injection H as <-;
    repeat first [apply sameStatic_refl | eapply sameStatic_trans; [apply sameStatic_set|]].
Qed.

(** The node [b] holds the output of operation [i] of [R]. *)
Definition outputAt R h i (b : nat) : Prop :=
  ∃ r nr, r ∈ R ∧ isReturn r ∧ id r = i ∧ h !! b = Some nr ∧ nvalue nr = value r.

(** Every node with a match holds the input of an operation, and its match the output. *)
Definition inputAt R h (nd : node V) : Prop :=
  ∀ b, nmatch nd = Some b → ∃ c, c ∈ R ∧ isCall c ∧ id c = nid nd ∧ nvalue nd = value c ∧ outputAt R h (nid nd) b.

Definition heapFor R h mt : Prop :=
  (∀ a nd, h !! a = Some nd → inputAt R h nd) ∧ (∀ i b, mt !! i = Some b → outputAt R h i b).

Lemma outputAt_mono R R' h h' i b :
  R ⊆ R' → (∀ nr, h !! b = Some nr → ∃ nr', h' !! b = Some nr' ∧ static nr' = static nr) →
  outputAt R h i b → outputAt R' h' i b.
Proof.
  intros HR Hh (r & nr & Hr & ? & ? & Hb & Hv). destruct (Hh _ Hb) as (nr' & Hb' & [= E _ _]).
  exists r, nr'. split_and!; [set_solver|done..|congruence].
Qed.

Lemma static_app h h' nw : sameStatic h' (h ++ [nw]) → ∀ b nr, h !! b = Some nr → ∃ nr', h' !! b = Some nr' ∧ static nr' = static nr.
Proof. intros Hs b nr Hb. eapply sameStatic_lookup; [exact Hs|]. by apply lookup_app_l_Some. Qed.

(** A node added to the heap, and links changed. *)
Lemma inputs_grow R R' h h' nw :
  R ⊆ R' → sameStatic h' (h ++ [nw]) → (∀ a nd, h !! a = Some nd → inputAt R h nd) → inputAt R' h' nw →
  ∀ a nd, h' !! a = Some nd → inputAt R' h' nd.
Proof.
  intros HR Hs Hin Hnw a nd Ha. pose proof (Hs a) as Ea. rewrite Ha in Ea.
  destruct (decide (a < length h)%nat) as [Hlt|Hge]; [|destruct (decide (a = length h)) as [->|Hne]].
  - rewrite lookup_app_l in Ea by done. destruct (h !! a) as [nd0|] eqn:E0; [|done]. simpl in Ea. injection Ea as E1 E2 E3.
    intros b Hb. destruct (Hin a nd0 E0 b) as (c & ? & ? & ? & ? & Ho); [congruence|]. exists c. rewrite E1, E3.
    split_and!; [set_solver|done..|]. eapply outputAt_mono; [done|by apply (static_app h h' nw)|done].
  - rewrite list_lookup_middle in Ea by done. simpl in Ea. injection Ea as E1 E2 E3. intros b Hb.
    rewrite E1, E3. apply Hnw. congruence.
  - rewrite lookup_ge_None_2 in Ea by (rewrite length_app; simpl; lia). done.
Qed.

(** What [makeLinkedEntries] builds, from any slice of entries. *)
Lemma makeLinkedEntries_heap R h mt root : makeLinkedEntries R = Some (h, mt, root) → heapFor R h mt.
Proof.
  revert h mt root. induction R as [|x R IH]; intros h mt root H.
  { injection H as <- <- <-. split; [|done]. intros a nd Ha. by rewrite lookup_nil in Ha. }
  cbn [makeLinkedEntries foldr] in H. fold (makeLinkedEntries R) in H.
  apply bind_Some in H as ([[h0 mt0] root0] & H0 & H). destruct (IH _ _ _ H0) as [Hin Hout]. clear IH H0.
  assert (∀ nw h1 i b, sameStatic h1 (h0 ++ [nw]) → mt0 !! i = Some b → outputAt (x :: R) h1 i b) as Hold.
  { intros nw h1 i b Hs Hb. eapply outputAt_mono; [|by apply (static_app h0 h1 nw)|by apply Hout]. set_solver. }
  unfold linkEntry in H. destruct (call_or_return x) as [Hx|Hx]; pose proof Hx as Hk;
    unfold isCall, isReturn, callEntry, returnEntry in Hk; rewrite Hk in H.
  - inv_bind H. injection H as <- <- <-. pose proof (insertBefore_static _ _ _ _ H0) as Hs. split.
    + eapply inputs_grow; [|exact Hs|exact Hin|]; [set_solver|]. intros b Hb. simpl in *. exists x. split_and!; [set_solver|done..|by eapply Hold].
    + intros i b Hb. by eapply Hold.
  - inv_bind H. injection H as <- <- <-. pose proof (insertBefore_static _ _ _ _ H0) as Hs. split.
    + eapply inputs_grow; [|exact Hs|exact Hin|]; [set_solver|]. intros b Hb. done.
    + intros i b Hb. destruct (decide (i = id x)) as [->|Hne].
      * rewrite lookup_insert_eq in Hb. injection Hb as <-. pose proof (Hs (length h0)) as E.
        rewrite list_lookup_middle in E by done. destruct (x0 !! length h0) as [nr|] eqn:En; [|done]. simpl in E. injection E as E1 _ _.
        exists x, nr. split_and!; [set_solver|done..].
      * rewrite lookup_insert_ne in Hb by done. by eapply Hold.
Qed.
End static.

Lemma idx_upd {A} (l : list A) i x l' j : upd l i x = Some l' → idx l' j = if decide (i = j) then Some x else idx l j.
Proof.
  intros [Hi ->]%upd_Some. unfold idx, zlen in *. destruct (0 <=? j) eqn:E; bool_simpl; case_decide as D; try (done || lia).
  - subst. apply list_lookup_insert_eq. lia.
  - apply list_lookup_insert_ne. lia.
Qed.

(** ** The stack of calls *)

Section partial.
Context {V St : Type} (nilV : V) `{!EqDecision St} (m : Model V St) (R : list (entry V)) (h0 : list (node V)).
Context (Hheap : ∀ a nd, h0 !! a = Some nd → inputAt R h0 nd).
Implicit Types (s : search V St) (cs : list (callsEntry (St := St))) (st : St) (lg : list (option (list Z))).

(** The calls, pushed one after the other, are accepted from [st] on and lead to [st']. *)
Inductive accepted : St → list (callsEntry (St := St)) → St → Prop :=
  | accepted_nil st : accepted st [] st
  | accepted_cons st st1 st' e nd b nb cs :
      h0 !! e = Some nd → nmatch nd = Some b → h0 !! b = Some nb →
      Step m st (nvalue nd) (nvalue nb) = Some (true, st1) → accepted st1 cs st' →
      accepted st (mkCallsEntry e st :: cs) st'.

Lemma accepted_snoc st cs st1 e nd b nb st' :
  accepted st cs st1 → h0 !! e = Some nd → nmatch nd = Some b → h0 !! b = Some nb →
  Step m st1 (nvalue nd) (nvalue nb) = Some (true, st') → accepted st (cs ++ [mkCallsEntry e st1]) st'.
Proof. induction 1; intros; simpl; econstructor; eauto using accepted_nil. Qed.

Lemma accepted_init st cs c st' : accepted st (cs ++ [c]) st' → accepted st cs (cl_state c).
Proof.
  revert st. induction cs as [|c0 cs IH]; intros st H; inversion H; subst; simpl.
  - constructor.
  - econstructor; eauto.
Qed.

Lemma accepted_legal st cs st' ids : accepted st cs st' → callIds h0 cs = Some ids → legal (Step m) R st ids.
Proof.
  unfold callIds. intros H. revert ids. induction H as [|st st1 st' e nd b nb cs He Hb Hnb Hs Ha IH]; intros ids E; simpl in E.
  { injection E as <-. constructor. }
  rewrite He in E. simpl in E. inv_bind E. injection E as <-.
  destruct (Hheap e nd He b Hb) as (c & Hc & Hcc & Hi & Hv & r & nr & Hr & Hrr & Hir & Hnr & Hvr).
  econstructor; [|exact Hs|by apply IH]. exists c, r. rewrite Hnr in Hnb. injection Hnb as ->. split_and!; congruence || done.
Qed.

(** What is kept in [longest]. *)
Definition kept lg : Prop := ∀ i π, idx lg i = Some (Some π) → legal (Step m) R (Init m) π ∧ i ∈ π.

Record pinv s : Prop := {
  p_heap : sameStatic (s_heap s) h0;
  p_calls : accepted (Init m) (s_calls s) (s_state s);
  p_longest : kept (s_longest s);
}.

Lemma kept_upd lg i π lg' : kept lg → legal (Step m) R (Init m) π → i ∈ π → upd lg i (Some π) = Some lg' → kept lg'.
Proof.
  intros Hk Hl Hi Hu j π' Hj. rewrite (idx_upd _ _ _ _ _ Hu) in Hj. case_decide as D; [by simplify_eq|by apply Hk].
Qed.

Lemma updateLongest_kept h cs lg lg' st :
  sameStatic h h0 → accepted (Init m) cs st → kept lg → updateLongest h cs lg = Some lg' → kept lg'.
Proof.
  intros Hs Ha Hk H. unfold updateLongest in H. rewrite (callIds_static _ _ _ Hs) in H. inv_bind H.
  pose proof (accepted_legal _ _ _ _ Ha H0) as Hl. revert H. apply foldM_inv; [|done].
  intros i lg1 lg2 Hi Hk1 H. inv_bind H. case_match; [|by simplify_eq]. by eapply kept_upd.
Qed.

Lemma static_node h a nd : sameStatic h h0 → h !! a = Some nd → ∃ nd0, h0 !! a = Some nd0 ∧ static nd0 = static nd.
Proof. intros Hs Ha. eapply sameStatic_lookup; [|exact Ha]. intros b. symmetry. apply Hs. Qed.

Lemma tryCall_pinv hd e en mt s s' :
  pinv s → s_heap s !! e = Some en → nmatch en = Some mt → tryCall m hd e en mt s = Some (Continue s') → pinv s'.
Proof.
  intros [Hh Hc Hl] He Hm H. unfold tryCall in H. inv_bind H. destruct x0 as [[|] st'].
  - inv_bind H. case_match; [|injection H as <-; by split]. inv_bind H. injection H as <-.
    destruct (static_node _ _ _ Hh He) as (nd0 & He0 & [= E1 E2 E3]). destruct (static_node _ _ _ Hh H0) as (nb0 & Hb0 & [= E4 E5 E6]).
    split; simpl; [|eapply accepted_snoc; try done; congruence|done].
    eapply sameStatic_trans; [by eapply lift_static|done].
  - injection H as <-. by split.
Qed.

Lemma backtrack_pinv cp s s' : pinv s → backtrack cp s = Some (Continue s') → pinv s'.
Proof.
  intros [Hh Hc Hl] H. unfold backtrack in H. destruct (last (s_calls s)) as [top|] eqn:Et; [|done].
  apply last_Some in Et as [cs Ecs]. inv_bind H. injection H as <-. split; simpl.
  - eapply sameStatic_trans; [by eapply unlift_static|done].
  - rewrite Ecs, length_app, Nat.add_sub, take_app_length. rewrite Ecs in Hc. by eapply accepted_init.
  - destruct cp; [by eapply updateLongest_kept|by simplify_eq].
Qed.

(** An iteration keeps the invariant; a negative answer returns what is kept. *)
Lemma iterate_pinv cp n hd kill s o : pinv s → iterate m cp n hd kill s = Some o →
  match o with
  | Continue s' => pinv s'
  | Returned false lg => kept lg
  | Returned true lg => ∃ π, legal (Step m) R (Init m) π ∧ foldM (λ l i, upd l i (Some π)) (range 0 n) (s_longest s) = Some lg
  end.
Proof.
  intros Hp H. unfold iterate in H. inv_bind H. destruct x as [f|].
  - destruct kill; [injection H as <-; apply Hp|]. inv_bind H. destruct (nmatch x0) as [mt|] eqn:Em.
    + destruct o as [s'|ok lg]; [by eapply tryCall_pinv|]. exfalso. unfold tryCall in H. inv_bind H.
      destruct x2 as [[] st']; [inv_bind H; case_match; [inv_bind H|]|]; done.
    + destruct o as [s'|ok lg]; [by eapply backtrack_pinv|]. unfold backtrack in H. case_match; [by inv_bind H|].
      injection H as <- <-. apply Hp.
  - inv_bind H. injection H as <-. exists x. split; [|done].
    eapply accepted_legal; [apply Hp|]. rewrite <- H1. symmetry. apply callIds_static, Hp.
Qed.

Lemma searchLoop_partials cp n hd kill fuel s ok lg :
  pinv s → searchLoop m cp n hd kill fuel s = Some (Some (ok, lg)) →
  ∀ i π, idx lg i = Some (Some π) → legal (Step m) R (Init m) π ∧ (ok = false → i ∈ π).
Proof.
  revert kill s. induction fuel as [|fuel IH]; intros kill s Hp H; [done|]. simpl in H.
  destruct (iterate m cp n hd (kill 0%nat) s) as [o|] eqn:E; [|done]. pose proof (iterate_pinv _ _ _ _ _ _ Hp E) as Ho.
  destruct o as [s'|ok' lg']; [by eapply IH|]. injection H as -> ->. destruct ok.
  - destruct Ho as (π0 & Hl0 & Hf). assert (∀ i π, idx lg i = Some (Some π) → legal (Step m) R (Init m) π) as Hall; [|intros i π Hi; split; [by eapply Hall|done]].
    revert Hf. apply (foldM_inv (λ lg, ∀ i π, idx lg i = Some (Some π) → legal (Step m) R (Init m) π)).
    + intros j l1 l2 _ Hl1 Hu i π Hi. rewrite (idx_upd _ _ _ _ _ Hu) in Hi. case_decide; [by simplify_eq|by eauto].
    + intros i π Hi. by destruct (p_longest _ Hp i π Hi).
  - intros i π Hi. destruct (Ho i π Hi). done.
Qed.
End partial.

(** Every sequence [checkSingle] returns is accepted by the model, for every history. *)
Lemma checkSingle_partials {V St} (nilV : V) `{!EqDecision St} (m : Model V St) R cp kill fuel ok lg :
  checkSingle nilV fuel m R cp kill = Some (Some (ok, lg)) →
  ∀ i π, idx lg i = Some (Some π) → legal (Step m) R (Init m) π ∧ (ok = false → i ∈ π).
Proof.
  unfold checkSingle. destruct (startSearch nilV m R) as [[[n hd] s]|] eqn:E; [|done]. intros H.
  unfold startSearch in E. apply bind_Some in E as ([[h mt] root] & Hlink & E). inv_bind E. injection E as <- <- <-.
  destruct (makeLinkedEntries_heap _ _ _ _ Hlink) as [Hin _]. set (nw := mkNode nilV None (-1) None None) in *.
  pose proof (insertBefore_static _ _ _ _ H1) as Hs.
  refine (searchLoop_partials m R x0 _ cp _ _ kill fuel _ ok lg _ H).
  - by apply (inputs_grow R R h x0 nw).
  - split; simpl; [apply sameStatic_refl|constructor|]. intros i π [_ Hi]%idx_Some.
    by apply lookup_replicate in Hi as [? _].
Qed.
