(* ===== verification/PorcupineOrder.v ===== *)
(** * The partial linearizations keep the order of the history

    Every sequence [checkSingle] leaves in [longest] has each operation once, and an
    operation only after all those that returned before its call.  The invariant
    is on the list of entries: an operation is tried only when every entry before its
    call is a call, and backtracking puts the entries back. *)

From S2P Require Import Prelude Bitset Porcupine PorcupineHeap PorcupineSpec PorcupineSearch PorcupineFacts PorcupinePartial.
Open Scope go_scope.

Section order.
Context {V St : Type} `{!EqDecision St} (m : Model V St) (R0 : list (entry V)) (ret : gmap Z nat) (hd : nat).
Context (Hwf : wfHistory R0).
Implicit Types (R pre suf : list (entry V)) (c r x : entry V) (s : search V St) (h : list (node V)) (L : list nat).
Implicit Types (cs : list (callsEntry (St := St))) (ids π : list Z).

(** What stands in [π] stands after everything that returned before its call. *)
Definition keepsOrder π : Prop :=
  NoDup π ∧ ∀ X j Y i, π = X ++ j :: Y → precedes R0 i j → i ∈ X.

(** The list [L] of the entries [R] that are left after the calls of the stack. *)
Inductive stacked : list (node V) → list nat → list (entry V) → list (callsEntry (St := St)) → list Z → Prop :=
  | st_nil h L : dll h (hd :: L) → Forall2 (nodeFor h ret) L R0 → stacked h L R0 [] []
  | st_push h L R cs ids pre c suf a st h1 L1 :
      stacked h L R cs ids → R = pre ++ c :: suf → Forall isCall pre → isCall c →
      nodeFor h1 ret a c → unlift a h1 = Some h → nextOf a h = Some (L !! S (length pre)) →
      dll h1 (hd :: L1) → Forall2 (nodeFor h1 ret) L1 (without (id c) R) → sameStatic h1 h →
      stacked h1 L1 (without (id c) R) (cs ++ [mkCallsEntry a st]) (ids ++ [id c]).

Lemma stacked_list h L R cs ids : stacked h L R cs ids → dll h (hd :: L) ∧ Forall2 (nodeFor h ret) L R.
Proof. by destruct 1. Qed.

Lemma stacked_rem h L R cs ids : stacked h L R cs ids → R = filter (λ x, id x ∉ ids) R0 ∧ wfHistory R.
Proof.
  induction 1 as [h L Hd HF|h L R cs ids pre c suf a st h1 L1 Hst [IH HR] E]; [split; [|done]; by rewrite filter_all by set_solver|].
  split; [|by apply wf_without]. rewrite IH. unfold without. rewrite list_filter_filter. apply list_filter_iff. set_solver.
Qed.

Lemma stacked_ids h L R cs ids : stacked h L R cs ids → callIds h cs = Some ids.
Proof.
  induction 1 as [h L Hd HF|h L R cs ids pre c suf a st h1 L1 Hst IH E Hpre Hc Hn Hu Hnx Hd HF Hs]; [done|].
  destruct Hn as (nd & Hnd & _ & <- & _). eapply callIds_snoc; [|done]. by rewrite (callIds_static h).
Qed.

(** The operation whose call comes next returned after nothing that is left. *)
Lemma next_order R ids pre c suf i : R = filter (λ x, id x ∉ ids) R0 → wfHistory R → R = pre ++ c :: suf →
  Forall isCall pre → isCall c → precedes R0 i (id c) → i ∈ ids.
Proof.
  intros ER HR E Hpre Hc (X & r & Y & c' & E0 & Hr & <- & Hc' & Hcc' & Hid). destruct (decide (id r ∈ ids)) as [|Hni]; [done|exfalso].
  assert (c ∈ R) as HcR by (rewrite E; set_solver). pose proof HcR as HcR0. rewrite ER in HcR0. apply list_elem_of_filter in HcR0 as [Hcn HcR0].
  assert (c' = c) as ->.
  { apply (NoDup_fmap_split id isCall R0); [apply Hwf|rewrite E0; set_solver|done|done|done|done]. }
  rewrite E0, filter_app, filter_cons_True in ER by done. rewrite E in ER. symmetry in ER.
  pose proof (call_before_return _ _ _ _ _ _ ER Hpre Hc Hr) as Hin.
  pose proof (wf_calls _ HR) as Hnd. rewrite E, <-ER in Hnd. unfold callsOf in Hnd. rewrite filter_app, fmap_app in Hnd.
  apply NoDup_app in Hnd as (_ & Hnd & _). apply (Hnd (id c)).
  - apply list_elem_of_fmap_2, list_elem_of_filter. done.
  - apply list_elem_of_fmap_2, list_elem_of_filter. split; [done|]. apply elem_of_cons. right. by apply list_elem_of_filter.
Qed.

Lemma stacked_order h L R cs ids : stacked h L R cs ids → keepsOrder ids.
Proof.
  induction 1 as [h L Hd HF|h L R cs ids pre c suf a st h1 L1 Hst [Hnd IH] E Hpre Hc _ _ _ _ _ _].
  { split; [constructor|]. intros X j Y i E. by destruct X. }
  destruct (stacked_rem _ _ _ _ _ Hst) as [ER HR]. split.
  - apply NoDup_app. split; [done|]. split; [|apply NoDup_singleton]. intros x Hx ->%list_elem_of_singleton.
    assert (c ∈ R) as HcR by (rewrite E; set_solver). rewrite ER in HcR. apply list_elem_of_filter in HcR as [? _]. done.
  - intros X j Y i EX Hi. destruct Y as [|y Y _] using rev_ind.
    + apply app_inj_tail in EX as [<- <-]. by eapply next_order.
    + rewrite app_comm_cons, app_assoc in EX. apply app_inj_tail in EX as [-> _]. by eapply IH.
Qed.

(** The top of the stack can be undone. *)
Lemma stacked_top h L R cs top ids : stacked h L R (cs ++ [top]) ids →
  ∃ h0 L0 R' ids0 pre c suf, stacked h0 L0 R' cs ids0 ∧ R' = (pre ++ [c]) ++ suf ∧ Forall isCall (pre ++ [c]) ∧
    unlift (cl_entry top) h = Some h0 ∧ nextOf (cl_entry top) h0 = Some (L0 !! length (pre ++ [c])).
Proof.
  remember (cs ++ [top]) as cs' eqn:Ecs. destruct 1 as [|h L R cs0 ids pre c suf a st h1 L1 Hst E Hpre Hc Hn Hu Hnx]; [by destruct cs|].
  apply app_inj_tail in Ecs as [-> <-]. exists h, L, R, ids, pre, c, suf. cbn [cl_entry]. rewrite length_app, Nat.add_1_r.
  split_and!; [done|by rewrite <-app_assoc|apply Forall_app; auto|done|done].
Qed.

(** ** The loop *)

Definition allInOrder (lg : list (option (list Z))) : Prop := ∀ i π, idx lg i = Some (Some π) → π ≠ [] ∧ keepsOrder π.

Record oinv s : Prop := {
  o_list : ∃ L R ids pre suf, stacked (s_heap s) L R (s_calls s) ids ∧ R = pre ++ suf ∧ Forall isCall pre ∧
    s_entry s = L !! length pre;
  o_longest : allInOrder (s_longest s);
}.

Lemma inOrder_upd lg i π lg' : allInOrder lg → π ≠ [] → keepsOrder π → upd lg i (Some π) = Some lg' → allInOrder lg'.
Proof. intros Hk Hne Hπ Hu j π' Hj. rewrite (idx_upd _ _ _ _ _ Hu) in Hj. case_decide; [by simplify_eq|by eapply Hk]. Qed.

Lemma inOrder_longest h cs ids lg lg' : callIds h cs = Some ids → keepsOrder ids → allInOrder lg →
  updateLongest (St := St) h cs lg = Some lg' → allInOrder lg'.
Proof.
  intros Hc Ho Hk H. unfold updateLongest in H. rewrite Hc in H. cbn [mbind option_bind] in H. revert H.
  apply (foldM_inv allInOrder); [|done]. intros i l1 l2 Hi H1 H. inv_bind H. case_match; [|by simplify_eq].
  eapply inOrder_upd; [done| |done|done]. intros ->. by apply elem_of_nil in Hi.
Qed.

Lemma backtrack_oinv cp s o : oinv s → backtrack cp s = Some o →
  match o with Continue s' => oinv s' | Returned _ lg => allInOrder lg end.
Proof.
  intros [(L & R & ids & pre & suf & Hst & _) Hlg] H. unfold backtrack in H. destruct (last (s_calls s)) as [top|] eqn:Et; [|by simplify_eq].
  apply last_Some in Et as [cs Ecs]. inv_bind H. injection H as <-. rewrite Ecs in Hst.
  destruct (stacked_top _ _ _ _ _ _ Hst) as (h0 & L0 & R' & ids0 & pre' & c & suf' & Hst0 & ER & Hpre & Hu & Hnx).
  simplify_eq. split; cbn [s_heap s_entry s_calls s_longest].
  - rewrite Ecs, length_app, Nat.add_sub, take_app_length. exists L0. eauto 10.
  - destruct cp; [|by simplify_eq]. rewrite Ecs in *.
    exact (inOrder_longest _ _ _ _ _ (stacked_ids _ _ _ _ _ Hst) (stacked_order _ _ _ _ _ Hst) Hlg H0).
Qed.

Lemma tryCall_oinv a nd mm s o : oinv s → s_entry s = Some a → s_heap s !! a = Some nd → nmatch nd = Some mm →
  tryCall m hd a nd mm s = Some o → match o with Continue s' => oinv s' | Returned _ lg => allInOrder lg end.
Proof.
  intros [(L & R & ids & pre & suf & Hst & ER & Hpre & He) Hlg] Ha Hnd Hm H. rewrite Ha in He. symmetry in He.
  destruct (stacked_list _ _ _ _ _ Hst) as [Hd HF]. destruct (stacked_rem _ _ _ _ _ Hst) as [_ HR].
  destruct (Forall2_lookup_l _ _ _ _ _ HF He) as (c & Hc & nd' & Hnd' & Hval & Hid & Hmt & _). simplify_eq.
  rewrite lookup_app_r, Nat.sub_diag in Hc by done. destruct suf as [|c' suf]; [done|]. injection Hc as ->.
  assert (isCall c) as Hcall by (unfold isCall, callEntry; destruct (kind c); [congruence|done]).
  destruct (find_match ret _ _ _ pre c suf HF HR eq_refl Hcall)
    as (preL & a' & midL & mm' & postL & mid & r & post & [EL ER' Hret Hrid Hmm] & Esuf & Hlen & Hna & Hnm & HF').
  assert (a' = a) as -> by (rewrite EL, <-Hlen, list_lookup_middle in He by done; congruence).
  assert (mm' = mm) as -> by (unfold isCall, callEntry in Hcall; rewrite Hcall in Hmt; congruence).
  rewrite EL in Hd. destruct (lift_unlift _ _ _ _ _ _ _ _ Hd Hnd Hm) as (h1 & Hlift & Hd1 & Hs1 & Hu1).
  destruct (dll_next _ _ _ _ _ Hd) as (nd1 & Hnd1 & Hnx). assert (nd1 = nd) as -> by congruence.
  assert (L !! S (length pre) = next nd) as Hnext.
  { rewrite Hnx, EL, lookup_app_r, <-Hlen by lia. replace (S (length preL) - length preL)%nat with 1%nat by lia. by destruct midL. }
  set (skip := mkSearch (s_heap s) (next nd) (s_state s) (s_linearized s) (s_cache s) (s_calls s) (s_longest s)).
  assert (oinv skip) as Hskip.
  { split; [|done]. exists L, (pre ++ c :: suf), ids, (pre ++ [c]), suf. cbn [skip s_heap s_calls s_entry].
    rewrite length_app, Nat.add_1_r. split_and!; [done|by rewrite <-app_assoc|apply Forall_app; auto|done]. }
  unfold tryCall in H. inv_bind H. destruct x0 as [[] st']; [|by injection H as <-].
  inv_bind H. destruct (negb (cacheContains _ _ _)); [|by injection H as <-]. inv_bind H. injection H as <-.
  assert (x2 = h1) as -> by congruence. split; cbn [s_heap s_calls s_entry s_longest]; [|done].
  exists (preL ++ midL ++ postL), (without (id c) (pre ++ c :: suf)), (ids ++ [id c]), [], (without (id c) (pre ++ c :: suf)).
  split; [|split; [done|split; [by apply Forall_nil|by rewrite (dll_first _ _ _ Hd1) in H5; injection H5 as <-; rewrite head_lookup]]].
  eapply st_push; [done|done|done|done|by eapply nodeFor_static|done|unfold nextOf; by rewrite Hnd; simpl; rewrite Hnext|done| |done].
  rewrite (without_split (pre ++ c :: suf) c pre mid r post) by (done || by rewrite Esuf). by eapply nodes_static.
Qed.

Lemma iterate_oinv cp n kill s o : (0 < n → R0 ≠ []) → oinv s → iterate m cp n hd kill s = Some o →
  match o with Continue s' => oinv s' | Returned _ lg => allInOrder lg end.
Proof.
  intros Hn Ho H. unfold iterate in H. inv_bind H. destruct x as [f|].
  - destruct kill; [injection H as <-; apply Ho|]. inv_bind H. destruct (nmatch x0) as [mt|] eqn:Em.
    + by eapply tryCall_oinv.
    + by eapply backtrack_oinv.
  - inv_bind H. injection H as <-. destruct Ho as [(L & R & ids & pre & suf & Hst & _) Hlg].
    rewrite (stacked_ids _ _ _ _ _ Hst) in H1. injection H1 as <-. pose proof (stacked_order _ _ _ _ _ Hst) as Hord.
    destruct (stacked_list _ _ _ _ _ Hst) as [Hd HF]. destruct (stacked_rem _ _ _ _ _ Hst) as [ER _].
    rewrite (dll_first _ _ _ Hd) in H0. destruct L as [|? ?]; [|done]. apply Forall2_nil_inv_l in HF. rewrite HF in ER.
    revert H2. apply (foldM_inv allInOrder); [|done]. intros i l1 l2 Hi Hl1 Hu. eapply inOrder_upd; [done| |done|done].
    intros ->. apply elem_of_range in Hi. apply Hn; [lia|]. rewrite filter_all in ER by set_solver. done.
Qed.

Lemma searchLoop_order cp n kill fuel s ok lg : (0 < n → R0 ≠ []) → oinv s → searchLoop m cp n hd kill fuel s = Some (Some (ok, lg)) → allInOrder lg.
Proof.
  intros Hn. revert kill s. induction fuel as [|fuel IH]; intros kill s Hs H; [done|]. simpl in H.
  destruct (iterate m cp n hd (kill 0%nat) s) as [o|] eqn:E; [|done]. pose proof (iterate_oinv _ _ _ _ _ Hn Hs E) as Ho.
  destruct o as [s'|ok' lg']; [by eapply IH|by simplify_eq].
Qed.
End order.

(** Every sequence [checkSingle] returns, whatever it answers and whenever it is killed, keeps
    the order of the history. *)
Lemma checkSingle_keepsOrder {V St} (nilV : V) `{!EqDecision St} (m : Model V St) R cp kill fuel ok lg :
  wfHistory R → numbered R → checkSingle nilV fuel m R cp kill = Some (Some (ok, lg)) →
  ∀ i π, idx lg i = Some (Some π) → π ≠ [] ∧ keepsOrder R π.
Proof.
  intros Hwf Hnum. destruct (startSearch_level nilV m R Hwf Hnum) as (s & hd & L & ret & Hstart & Hlv & He & Hc & Hs).
  unfold checkSingle. rewrite Hstart. apply (searchLoop_order m R ret hd Hwf); [by intros H ->|]. split.
  - exists L, R, [], [], R. rewrite Hc. split_and!; [apply st_nil; apply Hlv|done|constructor|done].
  - intros i π Hi. unfold startSearch in Hstart. inv_bind Hstart. destruct x as [[h ?] ?]. inv_bind Hstart.
    injection Hstart as _ _ <-. cbn [s_longest] in Hi. apply idx_Some in Hi as [_ [? _]%lookup_replicate]. done.
Qed.
