(* ===== verification/Visualization.v ===== *)
(** * The data of the visualization

    The information [checkParallel] collects when it is asked for it
    ([porcupine/checker.go]), and [computeVisualizationData]
    ([porcupine/visualization.go]), which turns it into the data of the page: the
    operations with their times, the partial linearizations with the state after each
    step, and for each operation the largest partial linearization that has
    it.  The two functions of a [Model] that only this code calls are a
    record of their own; [%v] of [fmt] is a parameter, [None] a panic.  The page itself
    is a constant. *)

From S2P Require Import Prelude Bitset Porcupine.
Open Scope go_scope.

(** [sort.Slice(partials, func(i, j int) bool { return len(partials[i]) > len(partials[j]) })]:
    some permutation in which the lengths do not increase. *)
Class PartialSort := go_sort_partials : list (list Z) → list (list Z).
Class PartialSortLaws (PS : PartialSort) : Prop := {
  partials_perm l : go_sort_partials l ≡ₚ l;
  partials_sorted l : StronglySorted (λ a b, length b ≤ length a)%nat (go_sort_partials l);
}.

(** ** What [checkParallel] collects *)

(** [for k := range set]: the pointers in some order. *)
Class PointerOrder := go_range_pointers : gset nat → list nat.
Class PointerOrderLaws (PO : PointerOrder) : Prop := {
  pointers_perm s : go_range_pointers s ≡ₚ elements s;
}.

(** The pointers of [longest[i]] without repetition and without [nil], and a copy of
    what each points to. *)
Definition uniquePartials {PO : PointerOrder} (deref : nat → list Z) (longest : list (option nat)) : list (list Z) :=
  deref <$> go_range_pointers (list_to_set (omap (λ p, p) longest)).

Section visualization.
Context {V St : Type} `{!EqDecision St} (nilV : V).
Context (sprintV : V → string) (sprintSt : St → string).

(** [type linearizationInfo struct] *)
Record linearizationInfo := mkInfo {
  i_history : list (list (entry V));
  i_partials : list (list (list Z));
}.

(** The block [if computeInfo]: [longest] are the slices of pointers the goroutines stored. *)
Definition collectInfo {PO : PointerOrder} (computeInfo : bool) (history : list (list (entry V)))
    (deref : nat → list Z) (longest : list (list (option nat))) : linearizationInfo :=
  if computeInfo then mkInfo history (uniquePartials deref <$> longest) else mkInfo [] [].

(** ** The functions that describe operations and states *)

(** The fields [DescribeOperation] and [DescribeState] of [Model]. *)
Record Describer := mkDescriber {
  DescribeOperation : option (V → V → option string);
  DescribeState : option (St → option string);
}.

Definition DefaultDescribeOperation (input output : V) : option string := Some (sprintV input +:+ " -> " +:+ sprintV output).
Definition DefaultDescribeState (state : St) : option string := Some (sprintSt state).

(** [fillDefault] on them. *)
Definition describeOperation (d : Describer) : V → V → option string := default DefaultDescribeOperation (DescribeOperation d).
Definition describeState (d : Describer) : St → option string := default DefaultDescribeState (DescribeState d).

(** ** The data *)

(** [type historyElement struct], [type linearizationStep struct],
    [type partitionVisualizationData struct] *)
Record historyElement := mkElement { he_ClientId : Z; he_Start : Z; he_End : Z; he_Description : string }.
Record linearizationStep := mkStep { Index : Z; StateDescription : string }.
Record partitionVisualizationData := mkData {
  d_History : list historyElement;
  d_PartialLinearizations : list (list linearizationStep);
  d_Largest : gmap Z Z;
}.

(** The zero value of an element. *)
Definition zeroElement : historyElement := mkElement 0 0 0 EmptyString.

(** [history], [callValue] and [returnValue]. *)
Record visElements := mkElements {
  els : list historyElement;
  callValue : gmap Z V;
  returnValue : gmap Z V;
}.

(** [m[k]] of a map of interfaces. *)
Definition mapValue (mp : gmap Z V) (k : Z) : V := default nilV (mp !! k).

(** The switch of the first loop. *)
Definition addElement (d : Describer) (acc : visElements) (elem : entry V) : option visElements :=
  old ← idx (els acc) (id elem);
  if kind elem then
    desc ← describeOperation d (mapValue (callValue acc) (id elem)) (value elem);
    l ← upd (els acc) (id elem) (mkElement (he_ClientId old) (he_Start old) (time elem) desc);
    Some (mkElements l (callValue acc) (<[id elem := value elem]> (returnValue acc)))
  else
    l ← upd (els acc) (id elem) (mkElement (clientId elem) (time elem) (he_End old) (he_Description old));
    Some (mkElements l (<[id elem := value elem]> (callValue acc)) (returnValue acc)).

(** [largestIndex] and [largestSize]. *)
Abbreviation largest := (gmap Z Z * gmap Z Z)%type.

(** The test of [largestSize] for operation [histId] of partial linearization [i] with [len] operations. *)
Definition noteLargest (i len histId : Z) (lg : largest) : largest :=
  if default 0 (lg.2 !! histId) <? len then (<[histId := i]> lg.1, <[histId := len]> lg.2) else lg.

(** The body of the loop over a partial linearization. *)
Definition describeStep (m : Model V St) (d : Describer) (acc : visElements) (i len : Z)
    (a : list linearizationStep * St * largest) (histId : Z) : option (list linearizationStep * St * largest) :=
  let '(steps, state, lg) := a in
  stepped ← Step m state (mapValue (callValue acc) histId) (mapValue (returnValue acc) histId);
  let (ok, state') := (stepped : bool * St) in
  if negb ok then None else
  stateDesc ← describeState d state';
  Some (steps ++ [mkStep histId stateDesc], state', noteLargest i len histId lg).

(** The body of [for i, partial := range partials]. *)
Definition describePartial (m : Model V St) (d : Describer) (acc : visElements)
    (a : list (list linearizationStep) * largest) (ip : Z * list Z) : option (list (list linearizationStep) * largest) :=
  let (i, partial) := ip in
  '(steps, _, lg) ← foldM (describeStep m d acc i (zlen partial)) partial ([], Init m, a.2);
  Some (a.1 ++ [steps], lg).

(** The body of the loop over the partitions; the sort is in place, so the slice of
    [info] is left sorted. *)
Definition computePartition {PS : PartialSort} (m : Model V St) (d : Describer) (history : list (entry V))
    (partials : list (list Z)) : option partitionVisualizationData :=
  let n := zlen history ÷ 2 in
  acc ← foldM (addElement d) history (mkElements (replicate (Z.to_nat n) zeroElement) ∅ ∅);
  '(linearizations, lg) ← foldM (describePartial m d acc) (enumerate (go_sort_partials partials)) ([], (∅, ∅));
  Some (mkData (els acc) linearizations lg.1).

(** [func computeVisualizationData(model Model, info linearizationInfo) visualizationData] *)
Definition computeVisualizationData {PS : PartialSort} (m : Model V St) (d : Describer) (info : linearizationInfo)
    : option (list partitionVisualizationData) :=
  let m := fillDefault m in
  mapM (λ p : Z,
    history ← idx (i_history info) p;
    partials ← idx (i_partials info) p;
    computePartition m d history partials) (range 0 (zlen (i_history info))).
End visualization.

Arguments linearizationInfo : clear implicits.
Arguments Describer : clear implicits.
Arguments visElements : clear implicits.
