(* ===== verification/VisualizationFacts.v ===== *)
(** * The visualization shows what the checker found

    On the information of a check, [computeVisualizationData] never panics: the
    partial linearizations are accepted by the model.  Its data are the operations with
    their times, the partial linearizations with the states of the model, and
    for each operation a largest partial linearization that has it. *)

From S2P Require Import Prelude Bitset Porcupine PorcupineHeap PorcupineSpec PorcupineSearch PorcupineFacts PorcupineOps PorcupineKv PorcupinePartial Visualization.
Open Scope go_scope.

(** A loop whose invariant speaks of the elements done. *)
Lemma foldM_prefix {A B} (P : list A → B → Prop) (f : B → A → option B) l b :
  P [] b → (∀ X x Y c, l = X ++ x :: Y → P X c → ∃ c', f c x = Some c' ∧ P (X ++ [x]) c') →
  ∃ b', foldM f l b = Some b' ∧ P l b'.
Proof.
  intros H0 Hs. assert (∀ Y X c, l = X ++ Y → P X c → ∃ b', foldM f Y c = Some b' ∧ P l b') as H; [|by apply (H l [] b)].
  induction Y as [|y Y IH]; intros X c -> HP; [exists c; rewrite app_nil_r in *; done|].
  destruct (Hs X y Y c eq_refl HP) as (c' & E & HP'). simpl. rewrite E. simpl. apply (IH (X ++ [y])); [|done].
  by rewrite <-app_assoc.
Qed.

Lemma enumerate_split {A} (l : list A) X p Y : enumerate l = X ++ p :: Y → p.1 = zlen X ∧ p.2 ∈ l.
Proof.
  intros E. assert (enumerate l !! length X = Some p) as H by (rewrite E; by apply list_lookup_middle).
  unfold enumerate in H. rewrite list_lookup_imap in H. apply fmap_Some in H as (x & Hx & ->). split; [done|].
  by eapply list_elem_of_lookup_2.
Qed.

Section facts.
Context {V St : Type} (nilV : V) `{!EqDecision St}.
Context (sprintV : V → string) (sprintSt : St → string) (m : Model V St) (d : Describer V St).
Implicit Types (R X Y : list (entry V)) (c r x : entry V) (acc : visElements V) (π : list Z) (lg : gmap Z Z * gmap Z Z).

Local Abbreviation describeOp := (describeOperation sprintV d).
Local Abbreviation describeSt := (describeState sprintSt d).

(** ** The operations *)

Section operations.
Context (R : list (entry V)) (Hwf : wfHistory R) (Hnum : numbered R).
Context (Hdesc : ∀ i v w, isOp R i v w → is_Some (describeOp v w)).

Lemma returns_unique X Y r : R = X ++ Y → r ∈ X → r ∈ Y → isReturn r → False.
Proof.
  intros E HX HY Hr. pose proof (wf_returns _ Hwf) as Hnd. unfold returnsOf in Hnd.
  rewrite E, filter_app, fmap_app in Hnd. apply NoDup_app in Hnd as (_ & Hnd & _).
  apply (Hnd (id r)); by apply list_elem_of_fmap_2, list_elem_of_filter.
Qed.

Lemma same_return r r' : r ∈ R → r' ∈ R → isReturn r → isReturn r' → id r = id r' → r = r'.
Proof. intros. by apply (NoDup_fmap_split id isReturn R); [apply Hwf|..]. Qed.

Lemma same_call c c' : c ∈ R → c' ∈ R → isCall c → isCall c' → id c = id c' → c = c'.
Proof. intros. by apply (NoDup_fmap_split id isCall R); [apply Hwf|..]. Qed.

(** The call of an operation comes before its return. *)
Lemma call_first X c Y r : R = X ++ c :: Y → isCall c → r ∈ X → isReturn r → id r ≠ id c.
Proof.
  intros E Hc HX Hr Hid. destruct (wf_match _ Hwf X c Y E Hc) as (r' & HY & Hr' & Hid').
  assert (r = r') as <- by (apply same_return; [rewrite E; set_solver|rewrite E; set_solver|done|done|congruence]).
  apply (returns_unique X (c :: Y) r); [done|done|set_solver|done].
Qed.

Lemma return_has_call X r Y : R = X ++ r :: Y → isReturn r → ∃ c, c ∈ X ∧ isCall c ∧ id c = id r.
Proof.
  intros E Hr. destruct (wf_back _ Hwf r) as (c & Hc & Hcc & Hid); [rewrite E; set_solver|done|].
  exists c. split; [|done]. rewrite E in Hc. apply elem_of_app in Hc as [?|[-> |HY]%elem_of_cons]; [done|by destruct (call_not_return r)|].
  exfalso. apply list_elem_of_split in HY as (Y1 & Y2 & ->).
  apply (call_first (X ++ r :: Y1) c Y2 r); [by rewrite E, <-app_assoc|done|set_solver|done|done].
Qed.

(** The entries [X] are entered. *)
Record entered X acc : Prop := {
  en_len : zlen (els acc) = zlen R / 2;
  en_call c : c ∈ X → isCall c → callValue acc !! id c = Some (value c) ∧
    ∃ el, idx (els acc) (id c) = Some el ∧ he_ClientId el = clientId c ∧ he_Start el = time c;
  en_return r : r ∈ X → isReturn r → returnValue acc !! id r = Some (value r) ∧
    ∃ el, idx (els acc) (id r) = Some el ∧ he_End el = time r ∧
      ∀ c, c ∈ X → isCall c → id c = id r → describeOp (value c) (value r) = Some (he_Description el);
}.

Lemma addElement_call X c Y acc : R = X ++ c :: Y → isCall c → entered X acc →
  ∃ acc', addElement nilV sprintV d acc c = Some acc' ∧ entered (X ++ [c]) acc'.
Proof.
  intros E Hc [Hl Hca Hre]. assert (c ∈ R) as Hin by (rewrite E; set_solver).
  destruct Hnum as [_ Hid]. specialize (Hid c Hin). unfold addElement.
  destruct (idx_is_Some (els acc) (id c)) as [old Hold]; [lia|]. rewrite Hold. simpl.
  pose proof Hc as Hk. unfold isCall, callEntry in Hk. rewrite Hk.
  destruct (upd_is_Some (els acc) (id c) (mkElement (clientId c) (time c) (he_End old) (he_Description old))) as [l Hu]; [lia|].
  rewrite Hu. simpl. eexists. split; [done|]. split; simpl.
  - apply upd_Some in Hu as [_ ->]. by rewrite zlen_insert.
  - intros c' [Hc'| ->%list_elem_of_singleton]%elem_of_app Hcc'; rewrite (idx_upd _ _ _ _ _ Hu).
    + assert (c' ∈ R) by (rewrite E; set_solver). destruct (decide (id c = id c')) as [Ei|Ei].
      * assert (c = c') as <- by (by apply same_call). rewrite lookup_insert_eq. eauto.
      * rewrite lookup_insert_ne by done. auto.
    + rewrite lookup_insert_eq, decide_True by done. eauto.
  - intros r [Hr| ->%list_elem_of_singleton]%elem_of_app Hrr; [|by destruct (call_not_return c)].
    pose proof (call_first X c Y r E Hc Hr Hrr) as Hne. destruct (Hre r Hr Hrr) as (Hv & el & Hel & He & Hd).
    split; [done|]. exists el. rewrite (idx_upd _ _ _ _ _ Hu), decide_False by done. split_and!; [done..|].
    intros c' [Hc'| ->%list_elem_of_singleton]%elem_of_app Hcc' Hi; [auto|done].
Qed.

Lemma addElement_return X r Y acc : R = X ++ r :: Y → isReturn r → entered X acc →
  ∃ acc', addElement nilV sprintV d acc r = Some acc' ∧ entered (X ++ [r]) acc'.
Proof.
  intros E Hr [Hl Hca Hre]. assert (r ∈ R) as Hin by (rewrite E; set_solver).
  destruct Hnum as [_ Hid]. specialize (Hid r Hin). unfold addElement.
  destruct (idx_is_Some (els acc) (id r)) as [old Hold]; [lia|]. rewrite Hold. simpl.
  pose proof Hr as Hk. unfold isReturn, returnEntry in Hk. rewrite Hk.
  destruct (return_has_call X r Y E Hr) as (c & Hc & Hcc & Hi). destruct (Hca c Hc Hcc) as (Hv & el & Hel & H1 & H2).
  assert (c ∈ R) as HcR by (rewrite E; set_solver).
  unfold mapValue. rewrite <-Hi, Hv. simpl. destruct (Hdesc (id c) (value c) (value r)) as [desc Hds]; [by exists c, r|].
  rewrite Hds. simpl. rewrite Hi in *.
  destruct (upd_is_Some (els acc) (id r) (mkElement (he_ClientId old) (he_Start old) (time r) desc)) as [l Hu]; [lia|].
  rewrite Hu. simpl. eexists. split; [done|]. split; simpl.
  - apply upd_Some in Hu as [_ ->]. by rewrite zlen_insert.
  - intros c' [Hc'| ->%list_elem_of_singleton]%elem_of_app Hcc'; [|by destruct (call_not_return r)].
    destruct (Hca c' Hc' Hcc') as (? & el' & Hel' & ? & ?). split; [done|]. rewrite (idx_upd _ _ _ _ _ Hu).
    case_decide as D; [|eauto]. rewrite <-D, Hold in Hel'. injection Hel' as ->. eexists. split; [done|]. done.
  - intros r' [Hr'| ->%list_elem_of_singleton]%elem_of_app Hrr'; rewrite (idx_upd _ _ _ _ _ Hu).
    + assert (id r ≠ id r') as Hne.
      { intros Ei. assert (r' ∈ R) by (rewrite E; set_solver). assert (r = r') as <- by (by apply same_return).
        apply (returns_unique X (r :: Y) r); [done|done|set_solver|done]. }
      rewrite lookup_insert_ne, decide_False by done. destruct (Hre r' Hr' Hrr') as (? & el' & ? & ? & Hd').
      split; [done|]. exists el'. split_and!; [done..|].
      intros c' [Hc'| ->%list_elem_of_singleton]%elem_of_app Hcc'; [by apply Hd'|by destruct (call_not_return r)].
    + rewrite lookup_insert_eq, decide_True by done. split; [done|]. eexists. split_and!; [done..|]. simpl.
      intros c' [Hc'| ->%list_elem_of_singleton]%elem_of_app Hcc' Hi'; [|by destruct (call_not_return r)].
      assert (c' = c) as ->; [|done]. apply same_call; [rewrite E; set_solver|done..|congruence].
Qed.

Lemma elements_entered : ∃ acc,
  foldM (addElement nilV sprintV d) R (mkElements (replicate (Z.to_nat (zlen R ÷ 2)) zeroElement) ∅ ∅) = Some acc ∧ entered R acc.
Proof.
  apply foldM_prefix.
  - split; simpl; [|set_solver..]. unfold zlen at 1. rewrite length_replicate. pose proof (zlen_nonneg R).
    rewrite Z.quot_div_nonneg by lia. assert (0 ≤ zlen R / 2) by (apply Z.div_pos; lia). lia.
  - intros X x Y acc E Hen. destruct (call_or_return x); [by eapply addElement_call|by eapply addElement_return].
Qed.

(** The values of an operation are found under its id. *)
Lemma entered_op acc i v w : entered R acc → isOp R i v w →
  mapValue nilV (callValue acc) i = v ∧ mapValue nilV (returnValue acc) i = w.
Proof.
  intros [_ Hca Hre] (c & r & Hc & Hr & Hcc & Hrr & <- & Hi & <- & <-). unfold mapValue.
  destruct (Hca c Hc Hcc) as [-> _], (Hre r Hr Hrr) as [Hv _]. rewrite Hi in Hv. by rewrite Hv.
Qed.

(** ** The partial linearizations *)

(** [steps] shows the operations [π] in order, each with the state of the model after it. *)
Inductive shows : St → list Z → list linearizationStep → Prop :=
  | shows_nil st : shows st [] []
  | shows_cons st i v w st' desc π steps :
      isOp R i v w → Step m st v w = Some (true, st') → describeSt st' = Some desc →
      shows st' π steps → shows st (i :: π) (mkStep i desc :: steps).

Lemma describe_legal (Hst : ∀ st, is_Some (describeSt st)) acc i len st π steps0 lg :
  entered R acc → legal (Step m) R st π → ∃ steps st',
    foldM (describeStep nilV sprintSt m d acc i len) π (steps0, st, lg)
      = Some (steps0 ++ steps, st', foldl (λ lg h, noteLargest i len h lg) lg π) ∧ shows st π steps.
Proof.
  intros Hen Hl. revert steps0 lg. induction Hl as [st|h v w st st' π Hop Hs Hl IH]; intros steps0 lg.
  - exists [], st. rewrite app_nil_r. split; [done|constructor].
  - destruct (Hst st') as [desc Hd]. destruct (IH (steps0 ++ [mkStep h desc]) (noteLargest i len h lg)) as (steps & st2 & E & Hsh).
    exists (mkStep h desc :: steps), st2. split; [|by econstructor].
    cbn [foldM]. assert (describeStep nilV sprintSt m d acc i len (steps0, st, lg) h
      = Some (steps0 ++ [mkStep h desc], st', noteLargest i len h lg)) as ->.
    { unfold describeStep. destruct (entered_op acc h v w Hen Hop) as [-> ->]. rewrite Hs. simpl. by rewrite Hd. }
    cbn [mbind option_bind]. rewrite E. by rewrite <-app_assoc.
Qed.
End operations.

(** ** The largest one for each operation *)

Lemma noteAll_spec i len π lg h :
  let lg' := foldl (λ lg h, noteLargest i len h lg) lg π in
  (lg'.1 !! h, lg'.2 !! h) =
    if decide (h ∈ π ∧ default 0 (lg.2 !! h) < len) then (Some i, Some len) else (lg.1 !! h, lg.2 !! h).
Proof.
  revert lg. induction π as [|x π IH]; intros lg; cbn zeta; cbn [foldl].
  { rewrite decide_False; [done|]. intros [[]%elem_of_nil _]. }
  cbn zeta in IH. rewrite IH. unfold noteLargest. destruct (Z.ltb_spec (default 0 (lg.2 !! x)) len) as [Hlt|Hge]; cbn [fst snd].
  - destruct (decide (x = h)) as [->|Hne].
    + assert (h ∈ h :: π) by set_solver. rewrite (decide_True (P := h ∈ h :: π ∧ default 0 (lg.2 !! h) < len)) by done.
      destruct (decide (h ∈ π ∧ _)); [done|by rewrite !lookup_insert_eq].
    + destruct (decide (h ∈ π ∧ _)) as [D1|D1], (decide (h ∈ x :: π ∧ _)) as [D2|D2]; rewrite ?lookup_insert_ne in * by done;
        first [done|set_solver].
  - destruct (decide (h ∈ π ∧ _)) as [D1|D1], (decide (h ∈ x :: π ∧ _)) as [D2|D2]; try done; [set_solver|].
    destruct D2 as [[->|?]%elem_of_cons ?]; [lia|by destruct D1].
Qed.

(** After the partial linearizations [ps]. *)
Definition largestOf (ps : list (list Z)) lg : Prop := ∀ h,
  match lg.1 !! h with
  | Some k => ∃ π, idx ps k = Some π ∧ h ∈ π ∧ lg.2 !! h = Some (zlen π) ∧ ∀ π', π' ∈ ps → h ∈ π' → zlen π' ≤ zlen π
  | None => lg.2 !! h = None ∧ ∀ π, π ∈ ps → h ∉ π
  end.

Lemma largestOf_snoc ps lg π :
  largestOf ps lg → largestOf (ps ++ [π]) (foldl (λ lg h, noteLargest (zlen ps) (zlen π) h lg) lg π).
Proof.
  intros Hl h. pose proof (noteAll_spec (zlen ps) (zlen π) π lg h) as E. cbn zeta in E.
  specialize (Hl h). destruct (decide (h ∈ π ∧ _)) as [D|D]; injection E as E1 E2; rewrite E1, E2.
  - destruct D as [Hh Hlt]. exists π. split_and!; [|done|done|].
    + rewrite idx_app_r by lia. by rewrite Z.sub_diag.
    + intros π' [Hπ| ->%list_elem_of_singleton]%elem_of_app Hh'; [|done]. destruct (lg.1 !! h) as [k|].
      * destruct Hl as (π0 & _ & _ & E & Hmax). rewrite E in Hlt. simpl in Hlt. specialize (Hmax π' Hπ Hh'). lia.
      * by destruct (proj2 Hl π' Hπ).
  - destruct (lg.1 !! h) as [k|].
    + destruct Hl as (π0 & Hk & Hh & E & Hmax). exists π0. split_and!; [|done|done|].
      * rewrite idx_app_l; [done|]. by apply idx_lt in Hk as [_ ?].
      * intros π' [Hπ| ->%list_elem_of_singleton]%elem_of_app Hh'; [by apply Hmax|]. rewrite E in D. simpl in D.
        destruct (decide (zlen π0 < zlen π)) as [?|?]; [by destruct D|lia].
    + destruct Hl as [E Hno]. split; [done|]. intros π' [Hπ| ->%list_elem_of_singleton]%elem_of_app Hh'; [by apply (Hno π')|].
      apply D. split; [done|]. rewrite E. simpl. destruct π; [by apply elem_of_nil in Hh'|]. rewrite zlen_cons.
      pose proof (zlen_nonneg π). lia.
Qed.

(** ** A partition *)

(** The data [part] of a partition with history [R] show its operations, and the
    sequences [partials], longest first, with for each operation a longest one that has it. *)
Record pictures (R : list (entry V)) (partials : list (list Z)) (part : partitionVisualizationData) : Prop := {
  pic_len : zlen (d_History part) = zlen R / 2;
  pic_op c r : c ∈ R → r ∈ R → isCall c → isReturn r → id c = id r → ∃ desc,
    describeOp (value c) (value r) = Some desc ∧
    idx (d_History part) (id c) = Some (mkElement (clientId c) (time c) (time r) desc);
  pic_partials : ∃ ps, ps ≡ₚ partials ∧ StronglySorted (λ a b, length b ≤ length a)%nat ps ∧
    Forall2 (shows R (Init m)) ps (d_PartialLinearizations part) ∧
    ∀ i, match d_Largest part !! i with
         | Some k => ∃ π, idx ps k = Some π ∧ i ∈ π ∧ ∀ π', π' ∈ ps → i ∈ π' → zlen π' ≤ zlen π
         | None => ∀ π, π ∈ ps → i ∉ π
         end;
}.

Lemma describePartials (Hst : ∀ st, is_Some (describeSt st)) R acc ps :
  entered R R acc → Forall (legal (Step m) R (Init m)) ps → ∃ lins lg,
    foldM (describePartial nilV sprintSt m d acc) (enumerate ps) ([], (∅, ∅)) = Some (lins, lg) ∧
    Forall2 (shows R (Init m)) ps lins ∧ largestOf ps lg.
Proof.
  intros Hen Hps. rewrite Forall_forall in Hps.
  destruct (foldM_prefix (λ (X : list (Z * list Z)) (a : list (list linearizationStep) * (gmap Z Z * gmap Z Z)),
    Forall2 (shows R (Init m)) X.*2 a.1 ∧ largestOf X.*2 a.2) (describePartial nilV sprintSt m d acc) (enumerate ps)
    ([], (∅, ∅))) as ([lins lg] & E & Hs & Hl).
  - split; [constructor|]. intros h. simpl. rewrite !lookup_empty. split; [done|]. set_solver.
  - intros X [i π] Y [lins lg] E [Hs Hl]. destruct (enumerate_split _ _ _ _ E) as [Hi Hin]. simpl in Hi, Hin. subst i.
    destruct (describe_legal R Hst acc (zlen X) (zlen π) (Init m) π [] lg Hen (Hps π Hin)) as (steps & st' & Ed & Hsh).
    unfold describePartial. cbn [snd]. rewrite Ed. simpl. eexists. split; [done|]. simpl. rewrite fmap_app. split.
    + apply Forall2_app; [done|]. by constructor.
    + replace (zlen X) with (zlen X.*2) by (unfold zlen; by rewrite length_fmap). by apply largestOf_snoc.
  - rewrite enumerate_snd in Hs, Hl. eauto.
Qed.

Lemma computePartition_pictures {PS : PartialSort} {PSL : PartialSortLaws PS} R partials :
  wfHistory R → numbered R → (∀ i v w, isOp R i v w → is_Some (describeOp v w)) → (∀ st, is_Some (describeSt st)) →
  Forall (legal (Step m) R (Init m)) partials →
  ∃ part, computePartition nilV sprintV sprintSt (fillDefault m) d R partials = Some part ∧ pictures R partials part.
Proof.
  intros Hwf Hnum Hd Hst Hl. destruct (elements_entered R Hwf Hnum Hd) as (acc & Ea & Hen).
  destruct (describePartials Hst R acc (go_sort_partials partials) Hen) as (lins & lg & Ep & Hs & Hlg).
  { by rewrite partials_perm. }
  unfold computePartition. rewrite Ea. cbn [mbind option_bind].
  change (describePartial nilV sprintSt (fillDefault m) d acc) with (describePartial nilV sprintSt m d acc). rewrite Ep.
  eexists. split; [done|]. split; simpl.
  - apply Hen.
  - intros c r Hc Hr Hcc Hrr Hi. destruct (en_call _ _ _ Hen c Hc Hcc) as (_ & el & Hel & E1 & E2).
    destruct (en_return _ _ _ Hen r Hr Hrr) as (_ & el' & Hel' & E3 & E4). rewrite <-Hi, Hel in Hel'. injection Hel' as <-.
    exists (he_Description el). split; [by apply E4|]. rewrite Hel. destruct el. simpl in *. by subst.
  - exists (go_sort_partials partials). split_and!; [apply partials_perm|apply partials_sorted|done|].
    intros i. specialize (Hlg i). destruct (lg.1 !! i); naive_solver.
Qed.

Lemma elem_uniquePartials {PO : PointerOrder} {POL : PointerOrderLaws PO} deref (ptrs : list (option nat)) π :
  π ∈ uniquePartials deref ptrs ↔ ∃ a, Some a ∈ ptrs ∧ deref a = π.
Proof.
  unfold uniquePartials. rewrite list_elem_of_fmap. setoid_rewrite pointers_perm. setoid_rewrite elem_of_elements.
  setoid_rewrite elem_of_list_to_set. setoid_rewrite list_elem_of_omap. naive_solver.
Qed.

Lemma visualization_data {PO : PointerOrder} {POL : PointerOrderLaws PO} {PS : PartialSort} {PSL : PartialSortLaws PS}
    (hs : list (list (entry V))) (deref : nat → list Z) (ptrs : list (list (option nat))) :
  (∀ st, is_Some (describeSt st)) →
  (∀ R, R ∈ hs → wfHistory R ∧ numbered R ∧ ∀ i v w, isOp R i v w → is_Some (describeOp v w)) →
  Forall2 (λ R (l : list (option nat)), ∃ fuel kill ok,
    checkSingle nilV fuel (fillDefault m) R true kill = Some (Some (ok, option_map deref <$> l))) hs ptrs →
  ∃ data, computeVisualizationData nilV sprintV sprintSt m d (collectInfo true hs deref ptrs) = Some data ∧
    length data = length hs ∧
    ∀ p R l, hs !! p = Some R → ptrs !! p = Some l → ∃ part partials, data !! p = Some part ∧
      pictures R partials part ∧ ∀ π, π ∈ partials ↔ ∃ a, Some a ∈ l ∧ deref a = π.
Proof.
  intros Hst Hhs Hrun.
  assert (∀ p R l, hs !! p = Some R → ptrs !! p = Some l → ∃ part,
    computePartition nilV sprintV sprintSt (fillDefault m) d R (uniquePartials deref l) = Some part ∧
    pictures R (uniquePartials deref l) part) as Hpart.
  { intros p R l HR Hl. destruct (Hhs R) as (Hwf & Hnum & Hd); [by eapply list_elem_of_lookup_2|].
    apply computePartition_pictures; try done. apply Forall_forall. intros π (a & Ha & <-)%elem_uniquePartials.
    destruct (Forall2_lookup_lr _ _ _ _ _ _ Hrun HR Hl) as (fuel & kill & ok & Hc). apply list_elem_of_lookup in Ha as [i Hi].
    eapply (checkSingle_partials nilV (fillDefault m) R true kill fuel ok _ Hc (Z.of_nat i)).
    by rewrite idx_of_nat, list_lookup_fmap, Hi. }
  change (collectInfo true hs deref ptrs) with (mkInfo hs (uniquePartials deref <$> ptrs)).
  unfold computeVisualizationData. cbn [i_history i_partials].
  set (body := λ p : Z, _). assert (∃ data, mapM body (range 0 (zlen hs)) = Some data) as [data Hdata].
  { apply mapM_is_Some_2, Forall_forall. intros p Hp%elem_of_range. change (is_Some (body p)). unfold body.
    destruct (idx_is_Some hs p) as [R HR]; [lia|]. rewrite HR. cbn [mbind option_bind]. apply idx_Some in HR as [_ HR].
    destruct (Forall2_lookup_l _ _ _ _ _ Hrun HR) as (l & Hl & _).
    assert (idx (uniquePartials deref <$> ptrs) p = Some (uniquePartials deref l)) as ->.
    { apply idx_Some. split; [lia|]. by rewrite list_lookup_fmap, Hl. }
    cbn [mbind option_bind]. destruct (Hpart _ _ _ HR Hl) as (part & -> & _). done. }
  exists data. split; [done|]. apply mapM_Some in Hdata. pose proof (Forall2_length _ _ _ Hdata) as Hlen.
  unfold range in Hlen. rewrite length_seqZ in Hlen. unfold zlen in Hlen. split; [lia|].
  intros p R l HR Hl. destruct (Hpart _ _ _ HR Hl) as (part & E & Hp). exists part, (uniquePartials deref l).
  split_and!; [|done|by intros; apply elem_uniquePartials].
  assert (range 0 (zlen hs) !! p = Some (Z.of_nat p)) as Hi.
  { apply lookup_lt_Some in HR. unfold range. rewrite lookup_seqZ_lt by (unfold zlen; lia). f_equal. }
  destruct (Forall2_lookup_l _ _ _ _ _ Hdata Hi) as (part' & Hd' & E'). unfold body in E'. cbv beta in E'.
  rewrite !idx_of_nat, list_lookup_fmap, HR, Hl in E'. cbn in E'. rewrite E in E'. by injection E' as <-.
Qed.

(** C29: the visualization shows what the checker found.  [hs] are the histories of the
    partitions, [ptrs] the slices of pointers the goroutines stored, whatever they
    answered and whenever the kill flag was set.  Then [computeVisualizationData]
    returns, in particular the model accepts every step of every partial
    linearization again, and the data of each partition show every operation
    with its client, its times and its description, and exactly the sequences found,
    longest first, with the state of the model after each step; [Largest] gives, for
    exactly the operations that are in a sequence, a longest one that has it. *)
Theorem visualization_correct {PO : PointerOrder} {POL : PointerOrderLaws PO} {PS : PartialSort} {PSL : PartialSortLaws PS}
    (hs : list (list (entry V))) (deref : nat → list Z) (ptrs : list (list (option nat))) :
  (∀ st, is_Some (describeSt st)) →
  (∀ R, R ∈ hs → wfHistory R ∧ numbered R ∧ ∀ i v w, isOp R i v w → is_Some (describeOp v w)) →
  Forall2 (λ R (l : list (option nat)), ∃ fuel kill ok,
    checkSingle nilV fuel (fillDefault m) R true kill = Some (Some (ok, option_map deref <$> l))) hs ptrs →
  ∃ data, computeVisualizationData nilV sprintV sprintSt m d (collectInfo true hs deref ptrs) = Some data ∧
    length data = length hs ∧
    ∀ p R l, hs !! p = Some R → ptrs !! p = Some l → ∃ part partials, data !! p = Some part ∧
      pictures R partials part ∧ ∀ π, π ∈ partials ↔ ∃ a, Some a ∈ l ∧ deref a = π.
Proof. apply visualization_data. Qed.
End facts.

(** ** A concrete page *)

(** The fields of [KvModel] that describe operations and states. *)
Definition KvDescriber : Describer kvValue string := mkDescriber (Some kvDescribeOperation) None.

(** [%v] of a string is the string; the values of a history are described by [kvDescribeOperation]. *)
Definition sprintKv (v : kvValue) : string := EmptyString.
Definition sprintString (s : string) : string := s.

Definition longer (a b : list Z) : Prop := (length b ≤ length a)%nat.
#[export] Instance longer_dec a b : Decision (longer a b) := le_dec (length b) (length a).
#[export] Instance longer_trans : Transitive longer.
Proof. intros a b c. unfold longer. lia. Qed.
#[export] Instance longer_total : Total longer.
Proof. intros a b. unfold longer. lia. Qed.
#[export] Instance merge_partials : PartialSort := merge_sort longer.
#[export] Instance merge_partials_laws : PartialSortLaws merge_partials.
Proof. split; intros; [apply merge_sort_Permutation|apply (StronglySorted_merge_sort longer)]. Qed.
#[export] Instance pointers_in_order : PointerOrder := elements.
#[export] Instance pointers_in_order_laws : PointerOrderLaws pointers_in_order.
Proof. done. Qed.

#[local] Existing Instance merge_entries.
#[local] Existing Instance merge_entries_laws.

(** Two partitions: a history that is not linearizable, of which the first put can be
    linearized, and one that is. *)
Definition pageHistories : list (list (entry kvValue)) := [makeEntries (exampleOps "z"); makeEntries (exampleOps "x")].
Definition pagePointers : list (list (option nat)) := [[Some 0%nat; None; None; None]; replicate 4 (Some 1%nat)].
Definition pageDeref (a : nat) : list Z := if decide (a = 0%nat) then [0] else [0; 1; 2; 3].

Example page_first :
  (λ data, d_History <$> head data) <$>
    computeVisualizationData KNil sprintKv sprintString KvModel KvDescriber (collectInfo true pageHistories pageDeref pagePointers)
  = Some (Some [mkElement 0 0 10 "put('k', 'x')"; mkElement 1 5 15 "get('k') -> 'z'";
                mkElement 1 20 30 "append('k', 'y')"; mkElement 0 40 50 "get('k') -> 'xy'"]).
Proof. vm_compute. reflexivity. Qed.

(** An append that returns the old value, as the tests of [kvsrv] record it, is shown as invalid. *)
Example append_shown_invalid key v old :
  kvDescribeOperation (KIn (mkKvInput 3 key v)) (KOut (mkKvOutput old)) = Some "<invalid>"%string.
Proof. done. Qed.

Lemma example_described out R : R = makeEntries (exampleOps out) →
  wfHistory R ∧ numbered R ∧ ∀ i v w, isOp R i v w → is_Some (describeOperation sprintKv KvDescriber v w).
Proof.
  intros ->. destruct (exampleOps_kv out) as [Hh Hl]. split_and!.
  - apply makeEntries_wf. eapply Forall_impl; [exact Hh|]. by intros o [_ ?].
  - by apply makeEntries_numbered.
  - intros i v w (o & Ho & -> & ->)%isOp_makeEntries. apply idx_Some in Ho as [_ Ho%list_elem_of_lookup_2].
    rewrite Forall_forall in Hh. destruct (Hh o Ho) as ((inp & res & -> & ->) & _). by eexists.
Qed.

Lemma visualization_correct_witness : ∃ data,
  computeVisualizationData KNil sprintKv sprintString KvModel KvDescriber (collectInfo true pageHistories pageDeref pagePointers)
    = Some data ∧ length data = 2%nat ∧
  ∀ p R l, pageHistories !! p = Some R → pagePointers !! p = Some l → ∃ part partials, data !! p = Some part ∧
    pictures sprintKv sprintString KvModel KvDescriber R partials part ∧ ∀ π, π ∈ partials ↔ ∃ a, Some a ∈ l ∧ pageDeref a = π.
Proof.
  apply (visualization_correct KNil sprintKv sprintString KvModel KvDescriber pageHistories pageDeref pagePointers).
  - intros st. by eexists.
  - intros R [->|[->|[]%elem_of_nil]%elem_of_cons]%elem_of_cons; by eapply example_described.
  - constructor; [|constructor; [|constructor]]; exists 50%nat, (λ _, false); eexists; vm_compute; reflexivity.
Defined.
