(* ===== verification/VisualizationJson.v ===== *)
(** * The page of the visualization as text

    [Visualize] and [VisualizePath] ([porcupine/visualization.go]): the data of
    [computeVisualizationData] are marshalled to JSON and written in the place of
    the one [%s] of the constant [html]: fields in the order of the structs, maps by
    sorted keys.  A JSON reader gets the data back, and the text cannot end the script
    element it is in.  The page, the file system and the writer are parameters. *)

From Stdlib Require Import Ascii.
From stdpp Require Import pretty.
From S2P Require Import Prelude Runes Decimal Json Bitset Porcupine PorcupineOps PorcupineKv Visualization VisualizationFacts.
Open Scope go_scope.

(** ** The data as JSON *)

Definition ofElement (e : historyElement) : json :=
  JObj [("ClientId", JNum (he_ClientId e)); ("Start", JNum (he_Start e)); ("End", JNum (he_End e));
        ("Description", JStr (he_Description e))]%string.

Definition ofStep (s : linearizationStep) : json :=
  JObj [("Index", JNum (Index s)); ("StateDescription", JStr (StateDescription s))]%string.

(** A map: its keys as strings, in the order of the strings. *)
Definition memberLe (a b : string * json) : Prop := String.le a.1 b.1.
#[export] Instance memberLe_dec : RelDecision memberLe := λ a b, decide (String.le a.1 b.1).
Definition ofMap (m : gmap Z Z) : json :=
  JObj (merge_sort memberLe ((λ kv, (Itoa kv.1, JNum kv.2)) <$> map_to_list m)).

Definition ofPartition (p : partitionVisualizationData) : json :=
  JObj [("History", JArr (ofElement <$> d_History p));
        ("PartialLinearizations", JArr ((λ l, JArr (ofStep <$> l)) <$> d_PartialLinearizations p));
        ("Largest", ofMap (d_Largest p))]%string.

(** [json.Marshal(data)]; it fails on no value of these types. *)
Definition Marshal (data : list partitionVisualizationData) : string :=
  MarshalJson (JArr (ofPartition <$> data)).

(** ** [Visualize] *)

(** [fmt.Sprintf] on a format whose only verb is [%s]; [None]: another verb, or a
    number of arguments that does not fit. *)
Fixpoint formatS (format : string) (args : list string) : option string :=
  match format with
  | EmptyString => match args with [] => Some EmptyString | _ => None end
  | String c f' =>
      if Ascii.eqb c "%"%char then
        match f', args with
        | String v f'', a :: args' =>
            if Ascii.eqb v "s"%char then t ← formatS f'' args'; Some (a +:+ t) else None
        | _, _ => None
        end
      else t ← formatS f' args; Some (String c t)
  end.

Section page.
Context {V St : Type} `{!EqDecision St} (nilV : V).
Context (sprintV : V → string) (sprintSt : St → string).
Context (html : string).

(** The world of the writer: [w.Write(p)] and the error it returns, [os.Create] and [f.Close]. *)
Context {F W E : Type} (Write : W → string → F → option E * F).
Context (Create : string → F → (E + W) * F) (Close : W → F → F).

(** [func Visualize(model Model, info linearizationInfo, output io.Writer) error]; [None]: a panic. *)
Definition Visualize {PS : PartialSort} (m : Model V St) (d : Describer V St) (info : linearizationInfo V)
    (output : W) (fs : F) : option (option E * F) :=
  data ← computeVisualizationData nilV sprintV sprintSt m d info;
  let jsonData := Marshal data in
  text ← formatS html [jsonData];
  Some (Write output text fs).

(** [func VisualizePath(model Model, info linearizationInfo, path string) error]; the file is
    closed by the deferred call. *)
Definition VisualizePath {PS : PartialSort} (m : Model V St) (d : Describer V St) (info : linearizationInfo V)
    (path : string) (fs : F) : option (option E * F) :=
  match Create path fs with
  | (inl err, fs') => Some (Some err, fs')
  | (inr f, fs') =>
      '(err, fs'') ← Visualize m d info f fs';
      Some (err, Close f fs'')
  end.
End page.

(** ** Reading the data *)

Definition readElement (j : json) : option historyElement :=
  c ← field "ClientId" j ≫= asNum; s ← field "Start" j ≫= asNum; e ← field "End" j ≫= asNum;
  d ← field "Description" j ≫= asStr; Some (mkElement c s e d).

Definition readStep (j : json) : option linearizationStep :=
  i ← field "Index" j ≫= asNum; d ← field "StateDescription" j ≫= asStr; Some (mkStep i d).

Definition readKey (kv : string * json) : option (Z * Z) :=
  '(k, r) ← readInt kv.1; v ← asNum kv.2; if bool_decide (r = EmptyString) then Some (k, v) else None.

Definition readPartition (j : json) : option partitionVisualizationData :=
  h ← field "History" j ≫= asArr; h ← mapM readElement h;
  p ← field "PartialLinearizations" j ≫= asArr; p ← mapM (λ l, l ← asArr l; mapM readStep l) p;
  m ← field "Largest" j ≫= asObj; m ← mapM readKey m;
  Some (mkData h p (list_to_map m)).

Definition readData (s : string) : option (list partitionVisualizationData) :=
  j ← readJson s; l ← asArr j; mapM readPartition l.

(** The data with the descriptions as UTF-8. *)
Definition validElement (e : historyElement) : historyElement :=
  mkElement (he_ClientId e) (he_Start e) (he_End e) (toValid (he_Description e)).
Definition validStep (s : linearizationStep) : linearizationStep := mkStep (Index s) (toValid (StateDescription s)).
Definition validPartition (p : partitionVisualizationData) : partitionVisualizationData :=
  mkData (map validElement (d_History p)) (map (map validStep) (d_PartialLinearizations p)) (d_Largest p).

Lemma readElement_of e : readElement (validJson (ofElement e)) = Some (validElement e).
Proof. reflexivity. Qed.

Lemma readStep_of s : readStep (validJson (ofStep s)) = Some (validStep s).
Proof. reflexivity. Qed.

Lemma readKey_of kv : readKey (toValid (Itoa kv.1), JNum kv.2) = Some kv.
Proof.
  unfold toValid. rewrite sanitize_low by (done || by apply Itoa_bytes). unfold readKey. cbn [fst snd].
  rewrite <-(append_nil (Itoa kv.1)), readInt_Itoa by done. by destruct kv.
Qed.

Lemma readMap_of (m : gmap Z Z) : ∃ o l, validJson (ofMap m) = JObj o ∧ mapM readKey o = Some l ∧ list_to_map l = m.
Proof.
  unfold ofMap. set (f := λ kv : Z * Z, (Itoa kv.1, JNum kv.2)).
  destruct (Permutation_map_inv f (map_to_list m) (l1 := merge_sort memberLe (map f (map_to_list m)))) as (l & E & Hl);
    [apply merge_sort_Permutation|].
  eexists _, l. change (f <$> map_to_list m) with (map f (map_to_list m)). rewrite E. cbn [validJson]. split; [done|]. split.
  - rewrite map_map. rewrite (mapM_map _ _ (λ kv, kv)); [by rewrite map_id|]. intros kv. apply readKey_of.
  - rewrite <-(list_to_map_to_list m). apply list_to_map_proper; [|done]. rewrite <-Hl. apply NoDup_fst_map_to_list.
Qed.

Lemma readPartition_of p : readPartition (validJson (ofPartition p)) = Some (validPartition p).
Proof.
  destruct (readMap_of (d_Largest p)) as (o & m & Eo & Em & El). unfold ofPartition. cbn [validJson map].
  unfold readPartition.
  change (field "History" _ ≫= asArr) with (Some (map validJson (map ofElement (d_History p)))).
  change (field "PartialLinearizations" _ ≫= asArr)
    with (Some (map validJson (map (λ l, JArr (map ofStep l)) (d_PartialLinearizations p)))).
  change (field "Largest" _ ≫= asObj) with (asObj (validJson (ofMap (d_Largest p)))). rewrite Eo. cbn [asObj mbind option_bind].
  rewrite !map_map, (mapM_map _ _ validElement) by apply readElement_of. cbn [mbind option_bind].
  rewrite (mapM_map _ _ (map validStep)).
  - cbn [mbind option_bind]. rewrite Em. cbn [mbind option_bind]. by rewrite El.
  - intros l. cbn [validJson asArr mbind option_bind]. rewrite map_map. apply mapM_map, readStep_of.
Qed.

Lemma readData_Marshal data : readData (Marshal data) = Some (map validPartition data).
Proof.
  unfold readData, Marshal. rewrite readJson_Marshal. cbn [validJson asArr mbind option_bind].
  change (ofPartition <$> data) with (map ofPartition data). rewrite map_map. apply mapM_map, readPartition_of.
Qed.

(** ** The page *)

Definition noPercent (c : ascii) : bool := negb (Ascii.eqb c "%"%char).

Lemma formatS_plain after : allBytes noPercent after = true → formatS after [] = Some after.
Proof.
  induction after as [|c s IH]; [done|]. simpl. intros [Hc Hs]%andb_true_iff. unfold noPercent in Hc. apply negb_true_iff in Hc.
  by rewrite Hc, IH.
Qed.

Lemma formatS_page before after text :
  allBytes noPercent before = true → allBytes noPercent after = true →
  formatS (before +:+ "%s" +:+ after) [text] = Some (before +:+ text +:+ after).
Proof.
  intros Hb Ha. induction before as [|c s IH]; [simpl; by rewrite formatS_plain|].
  simpl in *. apply andb_true_iff in Hb as [Hc Hs]. unfold noPercent in Hc. apply negb_true_iff in Hc. by rewrite Hc, IH.
Qed.

Section page.
Context {V St : Type} `{!EqDecision St} (nilV : V) (sprintV : V → string) (sprintSt : St → string).
Context {F W E : Type} (Write : W → string → F → option E * F).
Context (Create : string → F → (E + W) * F) (Close : W → F → F).

(** C31: [VisualizePath] on a page whose only verb is the [%s] of the script
    ([html]) writes the page with the data in its place, in one write, and closes
    the file; it returns the error of [os.Create] or of the write.  The text of
    the data reads back as the data, descriptions as UTF-8, and has no byte that
    could end the script element. *)
Theorem visualizePath_writes_data {PS : PartialSort} before after (m : Model V St) (d : Describer V St) info data path fs :
  allBytes noPercent before = true → allBytes noPercent after = true →
  computeVisualizationData nilV sprintV sprintSt m d info = Some data →
  ∃ text, readData text = Some (map validPartition data) ∧ allBytes htmlSafe text = true ∧
    VisualizePath nilV sprintV sprintSt (before +:+ "%s" +:+ after) Write Create Close m d info path fs
    = Some (match Create path fs with
            | (inl err, fs') => (Some err, fs')
            | (inr f, fs') =>
                let '(err, fs'') := Write f (before +:+ text +:+ after) fs' in (err, Close f fs'')
            end).
Proof.
  intros Hb Ha Hdata. exists (Marshal data). split; [apply readData_Marshal|]. split; [apply MarshalJson_safe|].
  unfold VisualizePath, Visualize. destruct (Create path fs) as [[err|f] fs']; [done|].
  rewrite Hdata. cbn [mbind option_bind]. rewrite formatS_page by done. simpl. by destruct (Write _ _ _).
Qed.
End page.

(** A file system of files by name, and the page of the example. *)
Definition exampleWrite (f text : string) (fs : gmap string string) : option unit * gmap string string :=
  (None, <[f := default EmptyString (fs !! f) +:+ text]> fs).
Definition exampleCreate (path : string) (fs : gmap string string) : (unit + string) * gmap string string :=
  if decide (path = EmptyString) then (inl tt, fs) else (inr path, <[path := EmptyString]> fs).

Lemma visualizePath_writes_data_witness : ∃ text,
  readData text = Some (map validPartition (default []
    (computeVisualizationData KNil sprintKv sprintString KvModel KvDescriber (collectInfo true pageHistories pageDeref pagePointers)))) ∧
  allBytes htmlSafe text = true ∧
  VisualizePath KNil sprintKv sprintString "const data = %s;" exampleWrite exampleCreate (λ _ fs, fs) KvModel KvDescriber
    (collectInfo true pageHistories pageDeref pagePointers) "out.html" ∅
  = Some (None, {["out.html" := "const data = " +:+ text +:+ ";"]}).
Proof.
  destruct (visualizePath_writes_data KNil sprintKv sprintString exampleWrite exampleCreate (λ _ fs, fs) "const data = " ";"
    KvModel KvDescriber (collectInfo true pageHistories pageDeref pagePointers) (default []
    (computeVisualizationData KNil sprintKv sprintString KvModel KvDescriber (collectInfo true pageHistories pageDeref pagePointers)))
    "out.html" ∅) as (text & H1 & H2 & H3); [reflexivity|reflexivity|vm_compute; reflexivity|].
  exists text. split; [exact H1|]. split; [exact H2|]. etrans; [exact H3|]. reflexivity.
Defined.
