(* ===== verification/VisPage.v ===== *)
(** * The script of the visualization page: the layout

    The page of [porcupine/visualization.go] ([html]) is a script that draws the
    data [Visualize] writes into it.  This file models the first half of its
    function [render]: the global numbers of the operations, the set of times, the
    tweak of the ends that coincide with a start, and the left-to-right scan that
    maps times to positions so that boxes hold their text and the linearization points.

    A number of the script is an integer here; the script itself rounds times beyond [2^53].  Times are counted in halves of
    the unit of the data, which makes the one division exact, and positions in
    parts of a pixel ([px] of them), so that the width of a text is a whole number
    of them.  [None] is a [TypeError] or arithmetic with an undefined position. *)

From S2P Require Import Prelude Bitset Porcupine Visualization.
Open Scope go_scope.

(** An element of a history with what the script adds to it. *)
Record pageEl := mkEl {
  el_ClientId : Z; el_Start : Z; el_End : Z; el_OriginalEnd : Z; el_Description : string; el_Gid : Z }.

Definition set_End (e : Z) (el : pageEl) : pageEl :=
  mkEl (el_ClientId el) (el_Start el) e (el_OriginalEnd el) (el_Description el) (el_Gid el).

(** An entry of [byEnd]. *)
Record event := mkEvent { ev_start : Z; ev_end : Z; ev_width : Z; ev_gid : Z }.

(** [maxClient] and [nClient] *)
Definition maxClient (data : list partitionVisualizationData) : Z :=
  foldl (λ m p, foldl (λ m el, Z.max m (he_ClientId el)) m (d_History p)) (-1) data.
Definition nClient (data : list partitionVisualizationData) : Z := maxClient data + 1.

(** ** Numbers and times *)

(** The loop that gives the elements their numbers, from [gid]. *)
Fixpoint giveGids (gid : Z) (hs : list (list historyElement)) : list (list pageEl) :=
  match hs with
  | [] => []
  | h :: hs' =>
      imap (λ i e, mkEl (he_ClientId e) (2 * he_Start e) (2 * he_End e) (2 * he_End e) (he_Description e)
                     (gid + Z.of_nat i)) h
      :: giveGids (gid + zlen h) hs'
  end.

Definition startTimestamps (els : list pageEl) : gset Z := list_to_set (el_Start <$> els).
Definition allTimestamps (els : list pageEl) : gset Z := startTimestamps els ∪ list_to_set (el_End <$> els).

(** [Array.from(s).sort((a, b) => a - b)] *)
Definition sortTimestamps (s : gset Z) : list Z := merge_sort Z.le (elements s).

(** [nextTs]: the time that follows, for all but the last. *)
Definition nextTs (ts : list Z) : gmap Z Z := list_to_map (zip ts (tail ts)).

(** An end that is also a start moves to the middle of the time up to the next. *)
Definition tweak (starts : gset Z) (next : gmap Z Z) (el : pageEl) : pageEl :=
  if bool_decide (el_End el ∈ starts) then
    match next !! el_End el with Some n => set_End ((el_End el + n) / 2) el | None => el end
  else el.

(** The histories after the tweak, and [sortedTimestamps] after its update. *)
Definition prepare (hs : list (list historyElement)) : list (list pageEl) * list Z :=
  let els := giveGids 0 hs in
  let all := allTimestamps (concat els) in
  let starts := startTimestamps (concat els) in
  let tweaked := map (map (tweak starts (nextTs (sortTimestamps all)))) els in
  (tweaked, sortTimestamps (all ∪ list_to_set (el_End <$> concat tweaked))).

(** ** The linearizations by event *)

(** [eventToLinearizations], [eventIllegalLast] and [allLinearizations]; [lgid] is the
    length of the last. *)
Record linTables := mkTables {
  eventToLinearizations : list (list (Z * Z));
  eventIllegalLast : list (list Z);
  allLinearizations : list (list Z);
}.

(** [l[i].push(x)] *)
Definition pushAt {A} (l : list (list A)) (i : Z) (x : A) : option (list (list A)) :=
  old ← idx l i; upd l i (old ++ [x]).

(** The elements of a history, with their indices, that a linearization does not include. *)
Definition notIncluded {A} (hist : list A) (lin : list linearizationStep) : list (Z * A) :=
  filter (λ p, p.1 ∉ (list_to_set (Index <$> lin) : gset Z)) (enumerate hist).

(** [minEnd] over them; [None]: [Infinity]. *)
Definition minEnd (l : list (Z * pageEl)) : option Z :=
  foldl (λ m p, Some (match m with None => el_End p.2 | Some e => Z.min e (el_End p.2) end)) None l.

(** [el['Start'] < minEnd] *)
Definition startsBefore (el : pageEl) (m : option Z) : bool :=
  match m with None => true | Some e => el_Start el <? e end.

(** The body of the loop over the linearizations of a partition. *)
Definition noteLinearization (hist : list pageEl) (t : linTables) (lin : list linearizationStep) : option linTables :=
  let lgid := zlen (allLinearizations t) in
  globalized ← mapM (λ s, el ← idx hist (Index s); Some (el_Gid el)) lin;
  e2l ← foldM (λ e2l (pg : Z * Z), pushAt e2l pg.2 (lgid, pg.1)) (enumerate globalized) (eventToLinearizations t);
  let rest := notIncluded hist lin in
  illegal ← foldM (λ ill (p : Z * pageEl),
      if startsBefore p.2 (minEnd rest) then pushAt ill (el_Gid p.2) lgid else Some ill) rest (eventIllegalLast t);
  Some (mkTables e2l illegal (allLinearizations t ++ [globalized])).

Definition noteLinearizations (els : list (list pageEl)) (lins : list (list (list linearizationStep))) : option linTables :=
  let n := length (concat els) in
  foldM (λ t (p : list pageEl * list (list linearizationStep)), foldM (noteLinearization p.1) p.2 t)
    (zip els lins) (mkTables (replicate n []) (replicate n []) []).

(** ** The scan *)

Section layout.
Context (px : Z) (textWidth : string → Z).

Definition PADDING : Z := 10 * px.
Definition XOFF : Z := 20 * px.
Definition EPSILON : Z := 20 * px.
Definition BOX_GAP : Z := 20 * px.
Definition BOX_TEXT_PADDING : Z := 10 * px.

(** [byEnd]: the boxes in the order of their ends, equal ends in the order of the elements. *)
Definition boxWidth (el : pageEl) : Z := textWidth (el_Description el) + 2 * BOX_TEXT_PADDING.
Definition boxOf (el : pageEl) : event := mkEvent (el_Start el) (el_End el) (boxWidth el) (el_Gid el).
Fixpoint insertByEnd (e : event) (l : list event) : list event :=
  match l with
  | [] => [e]
  | e' :: l' => if ev_end e <=? ev_end e' then e :: l else e' :: insertByEnd e l'
  end.
Definition byEnd (els : list pageEl) : list event := foldr insertByEnd [] (boxOf <$> els).

Section scan.
Context (els : list pageEl) (t : linTables).

(** One round of the loop that places the points of a linearization: [els] is
    [byGid], [lin] the linearization and [ps] the points placed so far. *)
Definition placePoint (xPos : gmap Z Z) (lin ps : list Z) : option (list Z) :=
  nextGid ← idx lin (zlen ps);
  el ← idx els nextGid;
  x ← xPos !! el_Start el;
  Some (ps ++ [match last ps with None => x | Some prev => Z.max x (prev + EPSILON) end]).

Fixpoint placePoints (n : nat) (xPos : gmap Z Z) (lin ps : list Z) : option (list Z) :=
  match n with
  | O => Some ps
  | S n' => ps' ← placePoint xPos lin ps; placePoints n' xPos lin ps'
  end.

(** The body of [forEach(li => ...)]: the points up to [position], then the position pushed
    up to the point of the event. *)
Definition fitPoint (xPos : gmap Z Z) (s : Z * list (list Z)) (li : Z * Z) : option (Z * list (list Z)) :=
  let '(pos, points) := s in
  let '(index, position) := li in
  ps ← idx points index;
  lin ← idx (allLinearizations t) index;
  ps' ← placePoints (Z.to_nat (position + 1 - zlen ps)) xPos lin ps;
  points' ← upd points index ps';
  here ← idx ps' position;
  Some (Z.max pos here, points').

(** The body of the [while] loop: what the box of [ev] needs. *)
Definition fitEvent (xPos : gmap Z Z) (ev : event) (s : Z * list (list Z)) : option (Z * list (list Z)) :=
  let '(pos, points) := s in
  x ← xPos !! ev_start ev;
  through ← idx (eventToLinearizations t) (ev_gid ev);
  illegal ← idx (eventIllegalLast t) (ev_gid ev);
  lasts ← mapM (λ index, lin ← idx (allLinearizations t) index; Some (index, zlen lin - 1)) illegal;
  '(pos, points) ← foldM (fitPoint xPos) (through ++ lasts) (Z.max pos (x + ev_width ev), points);
  pos ← foldM (λ pos li, ps ← idx points li; prev ← last ps; Some (Z.max pos (prev + EPSILON))) illegal pos;
  Some (pos, points).

(** The [while] loop: the events that end by [ts]; what is left of [byEnd] is returned. *)
Fixpoint fitEvents (xPos : gmap Z Z) (ts : Z) (evs : list event) (s : Z * list (list Z))
    : option (list event * (Z * list (list Z))) :=
  match evs with
  | ev :: evs' => if ev_end ev <=? ts then s' ← fitEvent xPos ev s; fitEvents xPos ts evs' s' else Some (evs, s)
  | [] => Some ([], s)
  end.

(** The [for] loop over the times after the first. *)
Record scanState := mkScan { xPos : gmap Z Z; restByEnd : list event; linearizationPositions : list (list Z) }.

Definition scanTime (s : scanState) (tt : Z * Z) : option scanState :=
  let '(before, ts) := tt in
  p ← xPos s !! before;
  '(evs, (pos, points)) ← fitEvents (xPos s) ts (restByEnd s) (p + BOX_GAP, linearizationPositions s);
  Some (mkScan (<[ts := pos]> (xPos s)) evs points).

Definition scan (ts : list Z) : option scanState :=
  let s0 := mkScan (match ts with t0 :: _ => {[t0 := 0]} | [] => ∅ end) (byEnd els)
              (replicate (length (allLinearizations t)) []) in
  foldM scanTime (zip ts (tail ts)) s0.
End scan.

(** The layout of the data. *)
Record pageLayout := mkLayout {
  lay_els : list (list pageEl); lay_ts : list Z; lay_tables : linTables; lay_scan : scanState }.

Definition layout (data : list partitionVisualizationData) : option pageLayout :=
  let '(els, ts) := prepare (d_History <$> data) in
  t ← noteLinearizations els (d_PartialLinearizations <$> data);
  s ← scan (concat els) t ts;
  Some (mkLayout els ts t s).
End layout.
