(* ===== verification/VisPageFacts.v ===== *)
(** * The layout of the visualization page meets its criteria

    The comments of the script ask for a map from times to positions that is
    increasing with a minimum distance, with boxes wide enough for their text and for the
    linearization points that go through them, and call the scan optimal.  Here
    [fits] states the criteria; the positions of the scan satisfy them and are
    the least ones that do. *)

From S2P Require Import Prelude Bitset Porcupine Visualization VisPage.
Open Scope go_scope.

Section scan.
Context (px : Z) (textWidth : string → Z).
Context (els : list pageEl) (t : linTables) (ts : list Z).

Local Abbreviation EPS := (EPSILON px).
Local Abbreviation GAP := (BOX_GAP px).
Local Abbreviation width := (boxWidth px textWidth).

(** ** The points of a linearization *)

(** The start of the event with number [g]. *)
Definition startOf (g : Z) : Z := match idx els g with Some el => el_Start el | None => 0 end.
Definition startsOf (lin : list Z) : list Z := startOf <$> lin.

(** The leftmost points for the positions [x] of the starts: each not before its start,
    and [EPSILON] after the previous one. *)
Definition pointAfter (prev : option Z) (x : Z) : Z :=
  match prev with None => x | Some q => Z.max x (q + EPS) end.
Fixpoint greedy (x : Z → Z) (prev : option Z) (starts : list Z) : list Z :=
  match starts with
  | [] => []
  | s :: starts' => let p := pointAfter prev (x s) in p :: greedy x (Some p) starts'
  end.

Lemma length_greedy x prev l : length (greedy x prev l) = length l.
Proof. revert prev. induction l as [|s l IH]; intros prev; simpl; [done|]. by rewrite IH. Qed.

Lemma greedy_snoc x prev l s :
  greedy x prev (l ++ [s]) = greedy x prev l ++ [pointAfter (match last (greedy x prev l) with None => prev | q => q end) (x s)].
Proof.
  revert prev. induction l as [|a l IH]; intros prev; [done|]. simpl. rewrite IH. f_equal.
  set (p := pointAfter prev (x a)). change (last (p :: greedy x (Some p) l)) with
    (match greedy x (Some p) l with [] => Some p | _ => last (greedy x (Some p) l) end).
  destruct (greedy x (Some p) l) as [|q r]; [done|]. destruct (last (q :: r)) eqn:El; [done|by apply last_None in El].
Qed.

Lemma greedy_take x prev l n : take n (greedy x prev l) = greedy x prev (take n l).
Proof. revert prev n. induction l as [|a l IH]; intros prev [|n]; simpl; try done. by rewrite IH. Qed.

Lemma greedy_ext x y prev l : (∀ s, s ∈ l → x s = y s) → greedy x prev l = greedy y prev l.
Proof.
  revert prev. induction l as [|a l IH]; intros prev H; [done|]. simpl. rewrite (H a) by set_solver.
  f_equal. apply IH. set_solver.
Qed.

Lemma greedy_mono x y prev prev' l : (∀ s, s ∈ l → x s ≤ y s) →
  match prev, prev' with None, None => True | Some p, Some p' => p ≤ p' | _, _ => False end →
  Forall2 Z.le (greedy x prev l) (greedy y prev' l).
Proof.
  revert prev prev'. induction l as [|a l IH]; intros prev prev' H Hp; [constructor|]. simpl.
  assert (pointAfter prev (x a) ≤ pointAfter prev' (y a)) as Ha.
  { pose proof (H a ltac:(set_solver)). destruct prev, prev'; simpl; try done; lia. }
  constructor; [done|]. apply IH; [set_solver|done].
Qed.

(** Point [k] of a linearization. *)
Definition point (x : Z → Z) (lin : list Z) (k : nat) : option Z := greedy x None (startsOf lin) !! k.

Lemma point_take x lin k n : (k < n)%nat → point x lin k = greedy x None (take n (startsOf lin)) !! k.
Proof. intros Hk. unfold point. by rewrite <-greedy_take, lookup_take_lt. Qed.

(** ** The criteria *)

(** Linearization [l] goes through event [g] at its point [k]; [g] could come next in [l]. *)
Definition through (l k : nat) (g : Z) : Prop := ∃ lin, allLinearizations t !! l = Some lin ∧ lin !! k = Some g.
Definition mayFollow (l : nat) (g : Z) : Prop := ∃ ls, idx (eventIllegalLast t) g = Some ls ∧ Z.of_nat l ∈ ls.

(** What the box of event [g] asks of the position [B] of its end, for the positions [y] of
    earlier times: room for the text, for its linearization points, and for the point it would have
    next. *)
Record needs (y : Z → Z) (g : Z) (el : pageEl) (B : Z) : Prop := {
  n_text : y (el_Start el) + width el ≤ B;
  n_point : ∀ l lin k p, allLinearizations t !! l = Some lin → lin !! k = Some g → point y lin k = Some p → p ≤ B;
  n_next : ∀ l lin p, allLinearizations t !! l = Some lin → mayFollow l g →
    last (greedy y None (startsOf lin)) = Some p → p + EPS ≤ B;
}.

Record fits (y : Z → Z) : Prop := {
  f_pos : ∀ a, a ∈ ts → 0 ≤ y a;
  f_gap : ∀ a b, a ∈ ts → b ∈ ts → a < b → y a + GAP ≤ y b;
  f_box : ∀ g el, idx els g = Some el → needs y g el (y (el_End el));
}.

(** What the scan needs of the data: events end after they start, at a time of
    [ts]; the tables list the linearizations through an event; and whatever stands in a linearization up
    to an event, or in one that the event could follow, starts before the event ends. *)
Record scannable : Prop := {
  sc_sorted : StronglySorted Z.lt ts;
  sc_gid : ∀ g el, idx els g = Some el → el_Gid el = g;
  sc_start : ∀ el, el ∈ els → el_Start el ∈ ts;
  sc_end : ∀ el, el ∈ els → el_End el ∈ ts;
  sc_lasts : ∀ el, el ∈ els → el_Start el < el_End el;
  sc_through : ∀ g el, idx els g = Some el → ∃ lks, idx (eventToLinearizations t) g = Some lks ∧
    ∀ l k, (l, k) ∈ lks ↔ 0 ≤ l ∧ 0 ≤ k ∧ through (Z.to_nat l) (Z.to_nat k) g;
  sc_illegal : ∀ g el, idx els g = Some el → ∃ ls, idx (eventIllegalLast t) g = Some ls ∧
    ∀ l, l ∈ ls → 0 ≤ l ∧ ∃ lin, allLinearizations t !! Z.to_nat l = Some lin ∧ lin ≠ [] ∧
      ∀ g', g' ∈ lin → startOf g' < el_End el;
  sc_known : ∀ l lin g, allLinearizations t !! l = Some lin → g ∈ lin → is_Some (idx els g);
  sc_order : ∀ l lin j k g g' el, allLinearizations t !! l = Some lin → lin !! j = Some g' → lin !! k = Some g →
    (j ≤ k)%nat → idx els g = Some el → startOf g' < el_End el;
}.

(** ** Placing points *)

Definition posAt (m : gmap Z Z) (a : Z) : Z := default 0 (m !! a).

(** [ps] are the first points of [lin], at starts that have positions. *)
Record placed (m : gmap Z Z) (lin ps : list Z) : Prop := {
  pl_len : (length ps ≤ length lin)%nat;
  pl_eq : ps = greedy (posAt m) None (take (length ps) (startsOf lin));
  pl_dom : ∀ s, s ∈ take (length ps) (startsOf lin) → is_Some (m !! s);
}.

Lemma placed_nil m lin : placed m lin [].
Proof. split; simpl; [lia|done|]. set_solver. Qed.

(** The starts of a linearization from [a] up to [n] have positions. *)
Definition ready (m : gmap Z Z) (lin : list Z) (a n : nat) : Prop :=
  (n ≤ length lin)%nat ∧ ∀ k g, (a ≤ k < n)%nat → lin !! k = Some g → is_Some (idx els g) ∧ is_Some (m !! startOf g).

Lemma length_startsOf lin : length (startsOf lin) = length lin.
Proof. unfold startsOf. by rewrite length_fmap. Qed.

Lemma startsOf_lookup lin k g : lin !! k = Some g → startsOf lin !! k = Some (startOf g).
Proof. intros H. unfold startsOf. by rewrite list_lookup_fmap, H. Qed.

Lemma placePoint_ok m lin ps : placed m lin ps → ready m lin (length ps) (S (length ps)) →
  ∃ ps', placePoint px els m lin ps = Some ps' ∧ placed m lin ps' ∧ length ps' = S (length ps) ∧ ps `prefix_of` ps'.
Proof.
  intros Hp [Hlen Hr]. destruct (lookup_lt_is_Some_2 lin (length ps)) as [g Hg]; [lia|].
  destruct (Hr (length ps) g) as [[el Hel] [x Hx]]; [lia|done|]. unfold placePoint, zlen. rewrite idx_of_nat, Hg. simpl.
  rewrite Hel. simpl. assert (startOf g = el_Start el) as E by (unfold startOf; by rewrite Hel). rewrite <-E, Hx. simpl.
  eexists. split; [done|]. rewrite length_app. simpl. rewrite Nat.add_1_r.
  assert (take (S (length ps)) (startsOf lin) = take (length ps) (startsOf lin) ++ [startOf g]) as Et
    by (apply take_S_r; by apply startsOf_lookup).
  split; [|split; [done|by eexists]]. split; rewrite length_app; simpl; rewrite Nat.add_1_r, ?Et.
  - lia.
  - rewrite greedy_snoc, <-(pl_eq _ _ _ Hp). do 2 f_equal. unfold pointAfter, posAt. rewrite Hx. by destruct (last ps).
  - intros s [Hs| ->%list_elem_of_singleton]%elem_of_app; [by apply (pl_dom _ _ _ Hp)|by eexists].
Qed.

Lemma placePoints_ok n m lin ps : placed m lin ps → ready m lin (length ps) (length ps + n) →
  ∃ ps', placePoints px els n m lin ps = Some ps' ∧ placed m lin ps' ∧ length ps' = (length ps + n)%nat ∧ ps `prefix_of` ps'.
Proof.
  revert ps. induction n as [|n IH]; intros ps Hp Hr; simpl.
  { exists ps. rewrite Nat.add_0_r. done. }
  destruct (placePoint_ok m lin ps Hp) as (ps1 & E1 & Hp1 & Hl1 & Hpre1).
  { destruct Hr as [H1 H2]. split; [lia|]. intros k g Hk. apply H2. lia. }
  rewrite E1. simpl. destruct (IH ps1 Hp1) as (ps2 & E2 & Hp2 & Hl2 & Hpre2); [destruct Hr as [H1 H2]; split; [lia|]; intros k g Hk; apply H2; lia|].
  exists ps2. split; [done|]. split; [done|]. split; [lia|]. by etrans.
Qed.

Lemma placed_point m lin ps k p : placed m lin ps → ps !! k = Some p → point (posAt m) lin k = Some p.
Proof.
  intros Hp Hk. rewrite (point_take _ _ _ (length ps)) by (by eapply lookup_lt_Some).
  by rewrite <-(pl_eq _ _ _ Hp).
Qed.

Lemma placed_full m lin ps : placed m lin ps → (∀ k g, lin !! k = Some g → (k < length ps)%nat) →
  ps = greedy (posAt m) None (startsOf lin).
Proof.
  intros [Hl Heq _] Hk. rewrite Heq, take_ge; [done|]. rewrite length_startsOf.
  destruct (decide (length lin = 0%nat)); [lia|]. destruct (lookup_lt_is_Some_2 lin (pred (length lin))) as [g Hg]; [lia|].
  apply Hk in Hg. lia.
Qed.

(** ** What one event needs *)

Definition pointsOk (m : gmap Z Z) (points : list (list Z)) : Prop := Forall2 (placed m) (allLinearizations t) points.
Definition morePoints : relation (list (list Z)) := Forall2 prefix.
Definition placedAt (points : list (list Z)) (l k : nat) : Prop := ∃ ps, points !! l = Some ps ∧ (k < length ps)%nat.

#[local] Instance morePoints_preorder : PreOrder morePoints.
Proof. unfold morePoints. split; apply _. Qed.

Lemma placedAt_grows points points' l k : morePoints points points' → placedAt points l k → placedAt points' l k.
Proof.
  intros Hg (ps & Hps & Hk). destruct (Forall2_lookup_l _ _ _ _ _ Hg Hps) as (ps' & Hps' & Hpre).
  exists ps'. split; [done|]. apply prefix_length in Hpre. lia.
Qed.

Lemma fitPoint_ok m pos points l k lin :
  pointsOk m points → allLinearizations t !! l = Some lin → ready m lin 0 (S k) →
  ∃ here points', fitPoint px els t m (pos, points) (Z.of_nat l, Z.of_nat k) = Some (Z.max pos here, points') ∧
    pointsOk m points' ∧ morePoints points points' ∧ placedAt points' l k ∧ point (posAt m) lin k = Some here.
Proof.
  intros Hok Hl Hr. destruct (Forall2_lookup_l _ _ _ _ _ Hok Hl) as (ps & Hps & Hp). unfold fitPoint.
  rewrite !idx_of_nat, Hps, Hl. cbn [mbind option_bind]. set (n := Z.to_nat _).
  assert (n ≠ 0%nat → length ps + n = S k)%nat as Hn by (unfold n, zlen; lia).
  assert (n = 0%nat → k < length ps)%nat as Hn0 by (unfold n, zlen; lia).
  destruct (placePoints_ok n m lin ps Hp) as (ps' & E & Hp' & Hlen & Hpre).
  { destruct Hr as [H1 H2]. pose proof (pl_len _ _ _ Hp). split; [destruct (decide (n = 0%nat)); lia|].
    intros k' g Hk'. apply H2. lia. }
  rewrite E. cbn [mbind option_bind].
  assert (upd points (Z.of_nat l) ps' = Some (<[l := ps']> points)) as ->.
  { apply upd_Some. apply lookup_lt_Some in Hps. rewrite Nat2Z.id. unfold zlen. split; [lia|done]. }
  assert (k < length ps')%nat as Hk by (destruct (decide (n = 0%nat)); lia).
  destruct (lookup_lt_is_Some_2 ps' k Hk) as [here Hh]. cbn [mbind option_bind]. rewrite idx_of_nat, Hh. simpl.
  apply lookup_lt_Some in Hps as Hlt. exists here, (<[l := ps']> points). split; [done|]. split.
  { unfold pointsOk. rewrite <-(list_insert_id (allLinearizations t) l lin) by done. by apply Forall2_insert. }
  split; [unfold morePoints; rewrite <-(list_insert_id points l ps) at 1 by done; by apply Forall2_insert|].
  split; [exists ps'; split; [by apply list_lookup_insert_eq|done]|by eapply placed_point].
Qed.

(** The points of a list of linearizations at given positions. *)
Lemma fitPoints_ok m (lks : list (Z * Z)) pos points :
  (∀ l k, (l, k) ∈ lks → ∃ l' k' lin, l = Z.of_nat l' ∧ k = Z.of_nat k' ∧
     allLinearizations t !! l' = Some lin ∧ ready m lin 0 (S k')) →
  pointsOk m points → ∃ pos' points', foldM (fitPoint px els t m) lks (pos, points) = Some (pos', points') ∧
    pointsOk m points' ∧ morePoints points points' ∧
    (∀ l k, (Z.of_nat l, Z.of_nat k) ∈ lks → placedAt points' l k) ∧
    ∀ B, pos' ≤ B ↔ pos ≤ B ∧ ∀ l k lin p, (Z.of_nat l, Z.of_nat k) ∈ lks →
      allLinearizations t !! l = Some lin → point (posAt m) lin k = Some p → p ≤ B.
Proof.
  revert pos points. induction lks as [|[l k] lks IH]; intros pos points Hlks Hok; cbn [foldM].
  { exists pos, points. split_and!; [done|done|done|set_solver|]. intros B. set_solver. }
  destruct (Hlks l k) as (l' & k' & lin & -> & -> & Hl & Hr); [set_solver|].
  destruct (fitPoint_ok m pos points l' k' lin Hok Hl Hr) as (here & points1 & E & Hok1 & Hg1 & Hat & Hpt).
  rewrite E. cbn [mbind option_bind]. destruct (IH (Z.max pos here) points1) as (pos2 & points2 & E2 & Hok2 & Hg2 & Hat2 & HB); [set_solver|done|].
  exists pos2, points2. split; [done|]. split; [done|]. split; [by etrans|]. split.
  - intros l k [H|H]%elem_of_cons; [simplify_eq; by eapply placedAt_grows|by apply Hat2].
  - intros B. rewrite HB, Z.max_lub_iff. clear HB. split.
    + intros [[HB1 HB2] H]. split; [done|]. intros l k lin' p [Hin|Hin]%elem_of_cons Hl' Hp; [|by eapply H]. by simplify_eq.
    + intros [HB1 H]. split; [split; [done|]|]; [eapply (H l' k'); [set_solver|done|done]|].
      intros l k lin' p Hin. apply H. set_solver.
Qed.

(** The loop over the linearizations an event could follow. *)
Lemma fitNext_ok m (ls : list Z) pos points :
  pointsOk m points →
  (∀ l, l ∈ ls → ∃ l' lin, l = Z.of_nat l' ∧ allLinearizations t !! l' = Some lin ∧ lin ≠ [] ∧
     placedAt points l' (pred (length lin))) →
  ∃ pos', foldM (λ pos li, ps ← idx points li; prev ← last ps; Some (Z.max pos (prev + EPS))) ls pos = Some pos' ∧
    ∀ B, pos' ≤ B ↔ pos ≤ B ∧ ∀ l lin p, Z.of_nat l ∈ ls → allLinearizations t !! l = Some lin →
      last (greedy (posAt m) None (startsOf lin)) = Some p → p + EPS ≤ B.
Proof.
  intros Hok. revert pos. induction ls as [|l ls IH]; intros pos Hls; cbn [foldM].
  { exists pos. split; [done|]. set_solver. }
  destruct (Hls l) as (l' & lin & -> & Hl & Hne & ps & Hps & Hlen); [set_solver|].
  destruct (Forall2_lookup_lr _ _ _ _ _ _ Hok Hl Hps) as [Hpl Hpeq _].
  assert (length ps = length lin) as Hfull by (destruct lin; [done|]; simpl in Hlen, Hpl |- *; lia).
  assert (ps = greedy (posAt m) None (startsOf lin)) as Eps.
  { rewrite Hpeq, Hfull, take_ge; [done|]. by rewrite length_startsOf. }
  rewrite idx_of_nat, Hps. cbn [mbind option_bind].
  destruct (last ps) as [prev|] eqn:El; [|apply last_None in El; rewrite El in Hlen; simpl in Hlen; lia]. cbn [mbind option_bind].
  destruct (IH (Z.max pos (prev + EPS))) as (pos' & E & HB); [set_solver|]. exists pos'. split; [done|].
  intros B. rewrite HB, Z.max_lub_iff. clear HB. rewrite Eps in El. split.
  - intros [[HB1 HB2] H]. split; [done|]. intros l lin' p [Hin|Hin]%elem_of_cons Hl' Hp; [|by eapply H]. by simplify_eq.
  - intros [HB1 H]. split; [split; [done|by eapply (H l'); [set_solver|..]]|]. intros l lin' p Hin. apply H. set_solver.
Qed.

Context (Hpx : 0 < px) (Hsc : scannable).

(** Before its end, everything an event looks at has a position. *)
Section event.
Context (g : Z) (el : pageEl) (m : gmap Z Z).
Context (Hel : idx els g = Some el) (Hdom : ∀ a, a ∈ ts → a < el_End el → is_Some (m !! a)).

Lemma start_placed l lin g' : allLinearizations t !! l = Some lin → g' ∈ lin → startOf g' < el_End el →
  is_Some (idx els g') ∧ is_Some (m !! startOf g').
Proof.
  intros Hl Hin Hlt. destruct (sc_known Hsc l lin g' Hl Hin) as [el' Hel']. split; [by eexists|]. apply Hdom; [|done].
  unfold startOf. rewrite Hel'. apply (sc_start Hsc). by eapply idx_elem_of.
Qed.

Lemma through_ready l k lin : allLinearizations t !! l = Some lin → lin !! k = Some g → ready m lin 0 (S k).
Proof.
  intros Hl Hk. split; [by apply lookup_lt_Some in Hk|]. intros j g' Hj Hg'.
  eapply start_placed; [exact Hl|by eapply list_elem_of_lookup_2|]. eapply (sc_order Hsc); [exact Hl|exact Hg'|exact Hk|lia|done].
Qed.

Lemma next_ready l lin : allLinearizations t !! l = Some lin → lin ≠ [] →
  (∀ g', g' ∈ lin → startOf g' < el_End el) → ready m lin 0 (S (pred (length lin))).
Proof.
  intros Hl Hne Hst. split; [destruct lin; simpl; [done|lia]|]. intros j g' Hj Hg'.
  apply list_elem_of_lookup_2 in Hg'. eapply start_placed; eauto.
Qed.

Lemma fitEvent_ok pos points : pointsOk m points →
  ∃ pos' points', fitEvent px els t m (boxOf px textWidth el) (pos, points) = Some (pos', points') ∧
    pointsOk m points' ∧ morePoints points points' ∧ (∀ l k, through l k g → placedAt points' l k) ∧
    ∀ B, pos' ≤ B ↔ pos ≤ B ∧ needs (posAt m) g el B.
Proof.
  intros Hok. apply idx_elem_of in Hel as Hin. unfold fitEvent. cbn [boxOf ev_start ev_width ev_gid].
  rewrite (sc_gid Hsc g el Hel).
  destruct (Hdom (el_Start el)) as [x Hx]; [by apply (sc_start Hsc)|by apply (sc_lasts Hsc)|]. rewrite Hx.
  destruct (sc_through Hsc g el Hel) as (lks & Elks & Hlks). destruct (sc_illegal Hsc g el Hel) as (ls & Els & Hls).
  rewrite Elks, Els. cbn [mbind option_bind].
  set (lastOf := λ index, match allLinearizations t !! Z.to_nat index with Some lin => zlen lin - 1 | None => 0 end).
  assert (mapM (λ index, lin ← idx (allLinearizations t) index; Some (index, zlen lin - 1)) ls = Some ((λ i, (i, lastOf i)) <$> ls)) as ->.
  { apply mapM_Some, Forall2_fmap_r, Forall_Forall2_diag, Forall_forall. intros l Hl. destruct (Hls l Hl) as (H0 & lin & Hlin & _).
    rewrite (proj2 (idx_Some _ _ _) (conj H0 Hlin)). simpl. unfold lastOf. by rewrite Hlin. }
  cbn [mbind option_bind].
  assert (∀ l k, (l, k) ∈ lks ++ ((λ i, (i, lastOf i)) <$> ls) → ∃ l' k' lin, l = Z.of_nat l' ∧ k = Z.of_nat k' ∧
    allLinearizations t !! l' = Some lin ∧ ready m lin 0 (S k')) as Hready.
  { intros l k [Hlk|(i & [= -> ->] & Hi)%list_elem_of_fmap]%elem_of_app.
    - apply Hlks in Hlk as (Hl0 & Hk0 & lin & Hlin & Hk). exists (Z.to_nat l), (Z.to_nat k), lin.
      split_and!; [lia|lia|done|by eapply through_ready].
    - destruct (Hls i Hi) as (H0 & lin & Hlin & Hne & Hst). exists (Z.to_nat i), (pred (length lin)), lin.
      split_and!; [lia| |done|by eapply next_ready]. unfold lastOf, zlen. rewrite Hlin. destruct lin; [done|]. simpl. lia. }
  destruct (fitPoints_ok m _ (Z.max pos (x + boxWidth px textWidth el)) points Hready Hok)
    as (pos1 & points1 & -> & Hok1 & Hg1 & Hat1 & HB1). cbn [mbind option_bind].
  destruct (fitNext_ok m ls pos1 points1 Hok1) as (pos2 & -> & HB2).
  { intros l Hl. destruct (Hls l Hl) as (H0 & lin & Hlin & Hne & _). exists (Z.to_nat l), lin. split_and!; [lia|done|done|].
    apply Hat1, elem_of_app. right. apply list_elem_of_fmap. exists l. split; [|done]. rewrite Z2Nat.id by done. f_equal.
    unfold lastOf, zlen. rewrite Hlin. destruct lin; [done|]. simpl. lia. }
  cbn [mbind option_bind]. exists pos2, points1. split; [done|]. split; [done|]. split; [done|]. split.
  { intros l k Hlk. apply Hat1, elem_of_app. left. apply Hlks. rewrite !Nat2Z.id. split_and!; [lia|lia|done]. }
  assert (posAt m (el_Start el) = x) as Ex by (unfold posAt; by rewrite Hx).
  assert (∀ l, Z.of_nat l ∈ ls ↔ mayFollow l g) as Hmay by (intros l; unfold mayFollow; rewrite Els; naive_solver).
  intros B. rewrite HB2, HB1, Z.max_lub_iff. clear HB1 HB2. split.
  - intros [[[H0 Htext] Hp] Hn]. split; [done|]. split; [by rewrite Ex| |].
    + intros l lin k p Hl Hk Hpt. eapply (Hp l k); [|done|done]. apply elem_of_app. left. apply Hlks. rewrite !Nat2Z.id.
      split_and!; [lia|lia|by exists lin].
    + intros l lin p Hl Hm Hlast. eapply Hn; [by apply Hmay|done|done].
  - intros [H0 [Htext Hp Hn]]. rewrite Ex in Htext. split; [split; [done|]|intros l lin p Hl Hlin; apply (Hn l lin); [done|by apply Hmay]].
    intros l k lin p [Hlk|(i & E & Hi)%list_elem_of_fmap]%elem_of_app Hlin Hpt.
    + apply Hlks in Hlk as (_ & _ & lin' & Hlin' & Hk). rewrite !Nat2Z.id in *. simplify_eq. by eapply Hp.
    + injection E as <- E. enough (p + EPSILON px ≤ B) by (unfold EPSILON in *; lia).
      eapply (Hn l lin); [done|by apply Hmay|]. rewrite last_lookup, length_greedy, length_startsOf.
      unfold lastOf in E. rewrite Nat2Z.id, Hlin in E. rewrite <-Hpt. unfold point. f_equal. unfold zlen in E. lia.
Qed.
End event.

(** The needs of a box only look at times before its end, and grow with the positions. *)
Lemma needs_mono x y g el B : idx els g = Some el → (∀ a, a ∈ ts → a < el_End el → x a ≤ y a) →
  needs y g el B → needs x g el B.
Proof.
  intros Hel Hxy [Htext Hpt Hn]. assert (∀ l lin g', allLinearizations t !! l = Some lin → g' ∈ lin →
    startOf g' < el_End el → x (startOf g') ≤ y (startOf g')) as Hst.
  { intros l lin g' Hl Hin Hlt. apply Hxy; [|done]. destruct (sc_known Hsc l lin g' Hl Hin) as [el' Hel'].
    unfold startOf. rewrite Hel'. apply (sc_start Hsc). by eapply idx_elem_of. }
  split.
  - apply idx_elem_of in Hel. pose proof (Hxy _ (sc_start Hsc el Hel) (sc_lasts Hsc el Hel)). lia.
  - intros l lin k p Hl Hk Hp. rewrite (point_take _ _ _ (S k)) in Hp by lia.
    assert (Forall2 Z.le (greedy x None (take (S k) (startsOf lin))) (greedy y None (take (S k) (startsOf lin)))) as Hle.
    { apply greedy_mono; [|done]. intros s Hs. apply elem_of_take in Hs as (j & Hs & Hj). unfold startsOf in Hs.
      rewrite list_lookup_fmap in Hs. apply fmap_Some in Hs as (g' & Hg' & ->).
      eapply Hst; [done|by eapply list_elem_of_lookup_2|]. eapply (sc_order Hsc); [exact Hl|exact Hg'|exact Hk|lia|done]. }
    destruct (Forall2_lookup_l _ _ _ _ _ Hle Hp) as (p' & Hp' & ?). etrans; [done|]. eapply (Hpt l lin k); [done|done|].
    by rewrite (point_take _ _ _ (S k)) by lia.
  - intros l lin p Hl Hm Hp. rewrite last_lookup, length_greedy in Hp.
    assert (Forall2 Z.le (greedy x None (startsOf lin)) (greedy y None (startsOf lin))) as Hle.
    { apply greedy_mono; [|done]. intros s (g' & -> & Hg')%list_elem_of_fmap. eapply Hst; [done|done|].
      destruct Hm as (ls & Els & Hin). destruct (sc_illegal Hsc g el Hel) as (ls' & Els' & Hls). simplify_eq.
      destruct (Hls _ Hin) as (_ & lin' & Hl' & _ & H). rewrite Nat2Z.id in Hl'. simplify_eq. by apply H. }
    destruct (Forall2_lookup_l _ _ _ _ _ Hle Hp) as (p' & Hp' & ?).
    enough (p' + EPS ≤ B) by lia. eapply (Hn l lin); [done|done|]. by rewrite last_lookup, length_greedy.
Qed.

(** ** The events that end at a time *)

Local Abbreviation box := (boxOf px textWidth).

Lemma box_inj g g' el el' : idx els g = Some el → idx els g' = Some el' → box el = box el' → g = g' ∧ el = el'.
Proof.
  intros H H' E. apply (f_equal ev_gid) in E. simpl in E. rewrite (sc_gid Hsc g el H), (sc_gid Hsc g' el' H') in E. by simplify_eq.
Qed.

Definition endsBefore (a b : event) : Prop := ev_end a ≤ ev_end b.

Lemma fitEvents_ok m τ evs pos points :
  StronglySorted endsBefore evs → (∀ ev, ev ∈ evs → ∃ g el, idx els g = Some el ∧ ev = box el ∧ τ ≤ el_End el) →
  (∀ a, a ∈ ts → a < τ → is_Some (m !! a)) → pointsOk m points →
  ∃ evs' pos' points', fitEvents px els t m τ evs (pos, points) = Some (evs', (pos', points')) ∧
    StronglySorted endsBefore evs' ∧ (∀ ev, ev ∈ evs' ↔ ev ∈ evs ∧ τ < ev_end ev) ∧ pointsOk m points' ∧ morePoints points points' ∧
    (∀ g el l k, idx els g = Some el → box el ∈ evs → el_End el = τ → through l k g → placedAt points' l k) ∧
    ∀ B, pos' ≤ B ↔ pos ≤ B ∧ ∀ g el, idx els g = Some el → box el ∈ evs → el_End el = τ → needs (posAt m) g el B.
Proof.
  intros Hs. revert pos points. induction Hs as [|ev evs Hs IH Hev]; intros pos points Hevs Hdom Hok; cbn [fitEvents].
  { exists [], pos, points. split_and!; try done; [constructor|set_solver..]. }
  destruct (Hevs ev) as (g & el & Hel & -> & Hend); [set_solver|]. cbn [boxOf ev_end].
  destruct (el_End el <=? τ) eqn:Ht; bool_simpl.
  - assert (el_End el = τ) as Et by lia.
    destruct (fitEvent_ok g el m Hel ltac:(intros a ? ?; apply Hdom; [done|lia]) pos points Hok)
      as (pos1 & points1 & -> & Hok1 & Hg1 & Hat1 & HB1). cbn [mbind option_bind].
    destruct (IH pos1 points1) as (evs' & pos2 & points2 & -> & Hs' & Hin & Hok2 & Hg2 & Hat2 & HB2); [set_solver|done|done|].
    exists evs', pos2, points2. split; [done|]. split; [done|]. split.
    { intros ev. rewrite Hin, elem_of_cons. split; [naive_solver|]. intros [[->|?] ?]; [simpl in *; lia|done]. }
    split; [done|]. split; [by etrans|]. split.
    { intros g' el' l k Hel' [E|Hin']%elem_of_cons He' Hth; [|by eapply Hat2].
      destruct (box_inj g' g el' el) as [-> ->]; [done..|]. eapply placedAt_grows; [done|by apply Hat1]. }
    intros B. rewrite HB2, HB1. clear HB1 HB2. split.
    + intros [[H0 Hn] Hr]. split; [done|]. intros g' el' Hel' [E|Hin']%elem_of_cons He'; [|by eapply Hr].
      by destruct (box_inj g' g el' el) as [-> ->].
    + intros [H0 Hr]. split; [split; [done|apply Hr; [done|set_solver|done]]|]. intros g' el' Hel' Hin'. apply Hr; set_solver.
  - exists (box el :: evs), pos, points. assert (∀ ev, ev ∈ box el :: evs → τ < ev_end ev) as Hlt.
    { intros ev [->|Hin]%elem_of_cons; [done|]. rewrite Forall_forall in Hev. apply Hev in Hin. unfold endsBefore in Hin. simpl in Hin. lia. }
    split; [done|]. split; [by constructor|]. split; [naive_solver|]. split; [done|]. split; [done|]. split.
    { intros g' el' l k _ Hin He. apply Hlt in Hin. simpl in Hin. lia. }
    intros B. split; [|naive_solver]. intros H0. split; [done|]. intros g' el' _ Hin He. apply Hlt in Hin. simpl in Hin. lia.
Qed.

(** ** The scan *)

(** After the times [P]. *)
Record scanned (P : list Z) (s : scanState) : Prop := {
  in_dom : ∀ a, is_Some (xPos s !! a) ↔ a ∈ P;
  in_pos : ∀ a, a ∈ P → 0 ≤ posAt (xPos s) a;
  in_gap : ∀ a b, a ∈ P → b ∈ P → a < b → posAt (xPos s) a + GAP ≤ posAt (xPos s) b;
  in_box : ∀ g el, idx els g = Some el → el_End el ∈ P → needs (posAt (xPos s)) g el (posAt (xPos s) (el_End el));
  in_placed : ∀ g el l k, idx els g = Some el → el_End el ∈ P → through l k g → placedAt (linearizationPositions s) l k;
  in_sorted : StronglySorted endsBefore (restByEnd s);
  in_rest : ∀ ev, ev ∈ restByEnd s ↔ ∃ g el, idx els g = Some el ∧ ev = box el ∧ el_End el ∉ P;
  in_points : pointsOk (xPos s) (linearizationPositions s);
  in_least : ∀ y, fits y → ∀ a, a ∈ P → posAt (xPos s) a ≤ y a;
}.

Lemma posAt_insert (m : gmap Z Z) τ v a : posAt (<[τ := v]> m) a = if decide (a = τ) then v else posAt m a.
Proof. unfold posAt. case_decide as E; [subst; by rewrite lookup_insert_eq|by rewrite lookup_insert_ne by done]. Qed.

Lemma placed_insert (m : gmap Z Z) τ v lin ps : m !! τ = None → placed m lin ps → placed (<[τ := v]> m) lin ps.
Proof.
  intros Hτ [H1 H2 H3]. split; [done| |].
  - rewrite H2 at 1. apply greedy_ext. intros s Hs. destruct (H3 s Hs) as [x Hx]. rewrite posAt_insert, decide_False; [done|].
    intros ->. congruence.
  - intros s Hs. destruct (H3 s Hs) as [x Hx]. rewrite lookup_insert_is_Some'. right. by eexists.
Qed.

Lemma times_split P τ T : ts = P ++ τ :: T → ∀ a, a ∈ ts → (a < τ → a ∈ P) ∧ (a ∈ P → a < τ).
Proof.
  intros E a Ha. pose proof (sc_sorted Hsc) as Hs. rewrite E in Hs, Ha. clear E.
  induction P as [|p P IH]; simpl in *.
  - apply StronglySorted_inv in Hs as [_ Hall]. rewrite Forall_forall in Hall. split; [|set_solver].
    apply elem_of_cons in Ha as [->|Ha]; [lia|]. specialize (Hall a Ha). lia.
  - apply StronglySorted_inv in Hs as [Hs Hall]. rewrite Forall_forall in Hall.
    assert (p < τ) by (apply Hall; set_solver). apply elem_of_cons in Ha as [->|Ha]; [set_solver|].
    destruct (IH Ha Hs) as [IH1 IH2]. split; [set_solver|]. intros [->|?]%elem_of_cons; auto.
Qed.

Lemma last_greatest P T a b : ts = P ++ T → last P = Some b → a ∈ P → a ≠ b → a < b.
Proof.
  intros E Hb Ha Hne. apply last_Some in Hb as [P' ->]. apply elem_of_app in Ha as [Ha|Ha]; [|set_solver].
  rewrite <-app_assoc in E. simpl in E. apply (times_split P' b T E); [rewrite E; set_solver|done].
Qed.

(** The elements left after time [τ]. *)
Lemma scanned_rest P τ T s ev : ts = P ++ τ :: T → scanned P s →
  ev ∈ restByEnd s ∧ τ < ev_end ev ↔ ∃ g el, idx els g = Some el ∧ ev = box el ∧ el_End el ∉ P ++ [τ].
Proof.
  intros E Hin. pose proof (times_split P τ T E) as Hlt. rewrite (in_rest _ _ Hin). split.
  - intros [(g & el & Hel & -> & He) Hlt']. exists g, el. simpl in Hlt'. split_and!; [done|done|]. set_unfold. intros [?|?]; [done|lia].
  - intros (g & el & Hel & -> & He). split; [exists g, el; set_solver|]. simpl.
    assert (el_End el ∈ ts) as Het by (apply (sc_end Hsc); by eapply idx_elem_of).
    destruct (decide (el_End el < τ)) as [H|]; [apply Hlt in H; [set_solver|done]|]. assert (el_End el ≠ τ) by set_solver. lia.
Qed.

(** Any layout [y] that fits gives [τ] the place the scan asks for. *)
Lemma scanned_least P τ T s y : ts = P ++ τ :: T → scanned P s → fits y →
  (∀ b, b ∈ P → posAt (xPos s) b + GAP ≤ y τ) ∧
  ∀ g el, idx els g = Some el → el_End el = τ → needs (posAt (xPos s)) g el (y τ).
Proof.
  intros E Hin Hy. pose proof (times_split P τ T E) as Hlt. split.
  - intros b HbP. pose proof (in_least _ _ Hin y Hy b HbP). assert (b ∈ ts) by (rewrite E; set_solver).
    pose proof (f_gap _ Hy b τ ltac:(done) ltac:(rewrite E; set_solver) ltac:(by apply Hlt)). lia.
  - intros g el Hel He. rewrite <-He. eapply needs_mono; [done| |by apply (f_box _ Hy)].
    intros a Ha Hl. apply (in_least _ _ Hin y Hy). apply Hlt; [done|lia].
Qed.

Lemma scanTime_ok P b τ T s : ts = P ++ τ :: T → last P = Some b → scanned P s →
  ∃ s', scanTime px els t s (b, τ) = Some s' ∧ scanned (P ++ [τ]) s'.
Proof.
  intros E Hb Hin. pose proof (times_split P τ T E) as Hlt.
  assert (b ∈ P) as HbP by (rewrite last_lookup in Hb; by eapply list_elem_of_lookup_2).
  assert (∀ a, a ∈ P → a ∈ ts) as Hsub by (rewrite E; set_solver). assert (τ ∈ ts) as Hτ by (rewrite E; set_solver).
  assert (τ ∉ P) as HτP by (intros H; apply (Hlt τ Hτ) in H; lia).
  assert (xPos s !! τ = None) as Hnone by (apply eq_None_not_Some; by rewrite (in_dom _ _ Hin)).
  assert (∀ a, a ∈ ts → a < τ → is_Some (xPos s !! a)) as Hdom by (intros a Ha Hl; apply (in_dom _ _ Hin); by apply Hlt).
  destruct (proj2 (in_dom _ _ Hin b) HbP) as [pb Hpb]. unfold scanTime. rewrite Hpb. cbn [mbind option_bind].
  destruct (fitEvents_ok (xPos s) τ (restByEnd s) (pb + GAP) (linearizationPositions s) (in_sorted _ _ Hin))
    as (evs' & pos & points' & -> & Hs' & Hin' & Hok' & Hg' & Hat' & HB); [|done|apply Hin|].
  { intros ev (g & el & Hel & -> & Hn)%(in_rest _ _ Hin). exists g, el. split; [done|]. split; [done|].
    destruct (decide (el_End el < τ)) as [H|]; [|lia]. exfalso. apply Hn, Hlt; [|done]. apply (sc_end Hsc). by eapply idx_elem_of. }
  cbn [mbind option_bind]. eexists. split; [done|].
  assert (∀ a, a ∈ P → posAt (<[τ := pos]> (xPos s)) a = posAt (xPos s) a) as HP
    by (intros a Ha; rewrite posAt_insert, decide_False; [done|by intros ->]).
  assert (posAt (<[τ := pos]> (xPos s)) τ = pos) as Hpos by (by rewrite posAt_insert, decide_True).
  assert (posAt (xPos s) b = pb) as Eb by (unfold posAt; by rewrite Hpb).
  destruct (proj1 (HB pos) (Z.le_refl _)) as [Hge Hneeds].
  assert (∀ g el, idx els g = Some el → el_End el = τ → box el ∈ restByEnd s) as Hrest
    by (intros g el Hel Et; apply (in_rest _ _ Hin); exists g, el; by rewrite Et).
  assert (∀ a, a ∈ P → posAt (xPos s) a ≤ pb) as Hmax.
  { intros a Ha. rewrite <-Eb. destruct (decide (a = b)) as [->|]; [done|].
    pose proof (in_gap _ _ Hin a b Ha HbP ltac:(by eapply last_greatest)). unfold BOX_GAP in *. lia. }
  assert (∀ g el B, idx els g = Some el → el_End el ≤ τ → needs (posAt (xPos s)) g el B →
    needs (posAt (<[τ := pos]> (xPos s))) g el B) as Hneed'.
  { intros g el B Hel He. apply needs_mono; [done|]. intros a Ha Hl. rewrite HP; [done|]. apply Hlt; [done|lia]. }
  split; cbn [xPos restByEnd linearizationPositions].
  - intros a. rewrite lookup_insert_is_Some', (in_dom _ _ Hin). set_solver.
  - intros a [Ha| ->%list_elem_of_singleton]%elem_of_app; [rewrite HP by done; by apply Hin|].
    rewrite Hpos. pose proof (in_pos _ _ Hin b HbP). unfold BOX_GAP in *. lia.
  - intros a c [Ha| ->%list_elem_of_singleton]%elem_of_app [Hc| ->%list_elem_of_singleton]%elem_of_app Hac.
    + rewrite !HP by done. by apply Hin.
    + rewrite HP, Hpos by done. specialize (Hmax a Ha). lia.
    + apply (Hlt c (Hsub c Hc)) in Hc. lia.
    + lia.
  - intros g el Hel [He|He%list_elem_of_singleton]%elem_of_app.
    + rewrite HP by done. apply Hneed'; [done| |by apply Hin]. apply (Hlt _ (Hsub _ He)) in He. lia.
    + rewrite He, Hpos. apply Hneed'; [done|lia|]. apply Hneeds; [done|by eapply Hrest|done].
  - intros g el l k Hel [He|He%list_elem_of_singleton]%elem_of_app Hth.
    + eapply placedAt_grows; [done|]. by eapply (in_placed _ _ Hin).
    + eapply Hat'; [done|by eapply Hrest|done|done].
  - done.
  - intros ev. by rewrite Hin', (scanned_rest P τ T s ev E Hin).
  - eapply Forall2_impl; [exact Hok'|]. intros lin ps. by apply placed_insert.
  - intros y Hy a [Ha| ->%list_elem_of_singleton]%elem_of_app; [rewrite HP by done; by apply (in_least _ _ Hin)|].
    rewrite Hpos. apply HB. rewrite <-Eb. destruct (scanned_least P τ T s y E Hin Hy) as [H1 H2]. split; [by apply H1|].
    intros g el Hel _ He. by apply H2.
Qed.

Lemma insertByEnd_perm e l : insertByEnd e l ≡ₚ e :: l.
Proof. induction l as [|e' l IH]; simpl; [done|]. case_match; [done|]. rewrite IH. apply Permutation_swap. Qed.

Lemma insertByEnd_sorted e l : StronglySorted endsBefore l → StronglySorted endsBefore (insertByEnd e l).
Proof.
  induction 1 as [|e' l Hs IH Hall]; simpl; [by repeat constructor|]. case_match; bool_simpl.
  - constructor; [by constructor|]. constructor; [done|]. eapply Forall_impl; [exact Hall|]. unfold endsBefore. lia.
  - constructor; [done|]. rewrite insertByEnd_perm. constructor; [unfold endsBefore; lia|done].
Qed.

Lemma byEnd_perm : byEnd px textWidth els ≡ₚ box <$> els.
Proof. unfold byEnd. induction (box <$> els) as [|e l IH]; simpl; [done|]. by rewrite insertByEnd_perm, IH. Qed.

Lemma byEnd_sorted : StronglySorted endsBefore (byEnd px textWidth els).
Proof. unfold byEnd. induction (box <$> els) as [|e l IH]; simpl; [constructor|]. by apply insertByEnd_sorted. Qed.

Lemma byEnd_elem ev : ev ∈ byEnd px textWidth els ↔ ∃ g el, idx els g = Some el ∧ ev = box el.
Proof.
  rewrite byEnd_perm, list_elem_of_fmap. split.
  - intros (el & -> & [i Hi]%list_elem_of_lookup). exists (Z.of_nat i), el. by rewrite idx_of_nat.
  - intros (g & el & Hel & ->). exists el. split; [done|]. by eapply idx_elem_of.
Qed.

Lemma points_none m : pointsOk m (replicate (length (allLinearizations t)) []).
Proof. unfold pointsOk. induction (allLinearizations t) as [|lin l IH]; constructor; [apply placed_nil|done]. Qed.

(** The state before the loop. *)
Lemma scanned_nil : ts = [] → scanned [] (mkScan ∅ (byEnd px textWidth els) (replicate (length (allLinearizations t)) [])).
Proof.
  intros E. assert (∀ g el, idx els g ≠ Some el) as Hno.
  { intros g el Hel%idx_elem_of%(sc_start Hsc). rewrite E in Hel. set_solver. }
  split; cbn [xPos restByEnd linearizationPositions]; try (by intros ? ? ?%Hno); try set_solver.
  - intros a. rewrite lookup_empty. split; [by intros [? ?]|set_solver].
  - apply byEnd_sorted.
  - intros ev. rewrite byEnd_elem. naive_solver.
  - apply points_none.
Qed.

Lemma scanned_first t0 T : ts = t0 :: T →
  scanned [t0] (mkScan {[t0 := 0]} (byEnd px textWidth els) (replicate (length (allLinearizations t)) [])).
Proof.
  intros E. assert (∀ el, el ∈ els → el_End el ∉ [t0]) as Hend.
  { intros el Hel H%list_elem_of_singleton. pose proof (sc_lasts Hsc el Hel) as Hl. rewrite H in Hl.
    pose proof (times_split [] t0 T E _ (sc_start Hsc el Hel)) as [Hn _]. specialize (Hn Hl). set_solver. }
  assert (∀ a, a ∈ [t0] → posAt {[t0 := 0]} a = 0) as H0
    by (intros a ->%list_elem_of_singleton; unfold posAt; by rewrite lookup_singleton_eq).
  split; cbn [xPos restByEnd linearizationPositions].
  - intros a. rewrite lookup_singleton_is_Some. set_solver.
  - intros a Ha. by rewrite H0.
  - intros a b ->%list_elem_of_singleton ->%list_elem_of_singleton. lia.
  - intros g el Hel%idx_elem_of He. by destruct (Hend el Hel).
  - intros g el l k Hel%idx_elem_of He. by destruct (Hend el Hel).
  - apply byEnd_sorted.
  - intros ev. rewrite byEnd_elem. split; [|naive_solver]. intros (g & el & Hel & ->). exists g, el. split_and!; [done|done|].
    apply Hend. by eapply idx_elem_of.
  - apply points_none.
  - intros y Hy a Ha. rewrite H0 by done. apply (f_pos _ Hy). rewrite E. set_solver.
Qed.

Lemma scan_loop T : ∀ P b s, ts = P ++ T → last P = Some b → scanned P s →
  ∃ s', foldM (scanTime px els t) (zip (b :: T) T) s = Some s' ∧ scanned ts s'.
Proof.
  induction T as [|τ T IH]; intros P b s E Hb Hs; [exists s; split; [done|]; by rewrite E, app_nil_r|].
  destruct (scanTime_ok P b τ T s E Hb Hs) as (s1 & E1 & Hs1).
  change (zip (b :: τ :: T) (τ :: T)) with ((b, τ) :: zip (τ :: T) T). cbn [foldM]. rewrite E1. cbn [mbind option_bind].
  apply (IH (P ++ [τ])); [by rewrite <-app_assoc|by rewrite last_snoc|done].
Qed.

(** The scan terminates with a position for every time, meets the criteria with the
    points it placed, and no positions that meet them are smaller. *)
Lemma scan_fits : ∃ s, scan px textWidth els t ts = Some s ∧ (∀ a, is_Some (xPos s !! a) ↔ a ∈ ts) ∧
  fits (posAt (xPos s)) ∧
  linearizationPositions s = (λ lin, greedy (posAt (xPos s)) None (startsOf lin)) <$> allLinearizations t ∧
  ∀ y, fits y → ∀ a, a ∈ ts → posAt (xPos s) a ≤ y a.
Proof.
  assert (∃ s, scan px textWidth els t ts = Some s ∧ scanned ts s) as (s & Es & Hs).
  { assert (ts = [] ∨ ∃ t0 T, ts = t0 :: T) as [E|(t0 & T & E)] by (clear; destruct ts; eauto).
    - eexists. unfold scan. rewrite E. split; [done|]. by apply scanned_nil.
    - destruct (scan_loop T [t0] t0 _ E eq_refl (scanned_first t0 T E)) as (s & Es & Hs).
      exists s. split; [|done]. unfold scan. by rewrite E. }
  exists s. split; [done|]. split; [apply Hs|]. split; [|split; [|apply Hs]].
  - split; [apply Hs|apply Hs|]. intros g el Hel. apply Hs; [done|]. apply (sc_end Hsc). by eapply idx_elem_of.
  - apply list_eq. intros l. rewrite list_lookup_fmap. destruct (allLinearizations t !! l) as [lin|] eqn:Hl; simpl.
    + destruct (Forall2_lookup_l _ _ _ _ _ (in_points _ _ Hs) Hl) as (ps & Hps & Hp). rewrite Hps. f_equal.
      apply placed_full; [done|]. intros k g Hk. destruct (sc_known Hsc l lin g Hl) as [el Hel]; [by eapply list_elem_of_lookup_2|].
      destruct (in_placed _ _ Hs g el l k Hel) as (ps' & Hps' & ?); [apply (sc_end Hsc); by eapply idx_elem_of|by exists lin|].
      by simplify_eq.
    + apply lookup_ge_None. apply lookup_ge_None in Hl. by rewrite <-(Forall2_length _ _ _ (in_points _ _ Hs)).
Qed.
End scan.
