(* ===== verification/VisPageLayout.v ===== *)
(** * The layout of the data

    The data of a page are [drawable] when operations do not end before they
    start, the last time is no start, and linearizations keep the order of
    operations that do not overlap.  On such data the script computes a layout, the
    least one that meets its criteria. *)

From S2P Require Import Prelude Bitset Porcupine Visualization VisualizationFacts VisPage VisPageFacts.
Open Scope go_scope.

Lemma elem_concat {A} (x : A) ls : x ∈ concat ls ↔ ∃ l, l ∈ ls ∧ x ∈ l.
Proof. induction ls as [|l ls IH]; simpl; [set_solver|]. rewrite elem_of_app, IH. set_solver. Qed.

(** ** Tables filled by [push] *)

Lemma pushAt_ok {A} (l : list (list A)) i x : 0 ≤ i < zlen l →
  ∃ l', pushAt l i x = Some l' ∧ length l' = length l ∧
    ∀ j ys', idx l' j = Some ys' → ∃ ys, idx l j = Some ys ∧ ∀ z, z ∈ ys' ↔ z ∈ ys ∨ (j = i ∧ z = x).
Proof.
  intros Hi. unfold pushAt. destruct (idx_is_Some l i Hi) as [old Hold]. rewrite Hold. simpl.
  exists (<[Z.to_nat i := old ++ [x]]> l). split; [by apply upd_Some|]. split; [by rewrite length_insert|].
  intros j ys' Hj. destruct (decide (i = j)) as [->|Hne].
  - rewrite idx_insert_eq in Hj by done. injection Hj as <-. exists old. split; [done|]. intros z. set_solver.
  - rewrite idx_insert_ne in Hj by (done || lia). exists ys'. split; [done|]. intros z. naive_solver.
Qed.

(** A loop that pushes [val p] at [at p] for the [p] that pass the test. *)
Lemma pushes_ok {A B} (test : B → bool) (place : B → Z) (val : B → A) (ps : list B) (l : list (list A)) :
  (∀ p, p ∈ ps → test p = true → 0 ≤ place p < zlen l) →
  ∃ l', foldM (λ l p, if test p then pushAt l (place p) (val p) else Some l) ps l = Some l' ∧ length l' = length l ∧
    ∀ j ys', idx l' j = Some ys' → ∃ ys, idx l j = Some ys ∧
      ∀ z, z ∈ ys' ↔ z ∈ ys ∨ ∃ p, p ∈ ps ∧ test p = true ∧ place p = j ∧ z = val p.
Proof.
  revert l. induction ps as [|p ps IH]; intros l Hps; cbn [foldM].
  { exists l. split; [done|]. split; [done|]. intros j ys Hj. exists ys. split; [done|]. set_solver. }
  destruct (test p) eqn:Hp; cbn [mbind option_bind].
  - destruct (pushAt_ok l (place p) (val p)) as (l1 & E1 & Hl1 & H1); [apply Hps; [set_solver|done]|]. rewrite E1. cbn [mbind option_bind].
    destruct (IH l1) as (l2 & E2 & Hl2 & H2); [intros q Hq Ht; unfold zlen in *; rewrite Hl1; apply Hps; [set_solver|done]|].
    exists l2. split; [done|]. split; [congruence|]. intros j ys2 Hj. destruct (H2 j ys2 Hj) as (ys1 & Hj1 & Hz1).
    destruct (H1 j ys1 Hj1) as (ys & Hj0 & Hz0). exists ys. split; [done|]. intros z. rewrite Hz1, Hz0. split.
    + intros [[?|[-> ->]]|(q & Hq & ?)]; [by left|right; exists p; set_solver|right; exists q; set_solver].
    + intros [?|(q & [->|Hq]%elem_of_cons & Ht & <- & ->)]; [by left; left|by left; right|right; exists q; done].
  - destruct (IH l) as (l2 & E2 & Hl2 & H2); [intros q Hq; apply Hps; set_solver|].
    exists l2. split; [done|]. split; [done|]. intros j ys2 Hj. destruct (H2 j ys2 Hj) as (ys & Hj0 & Hz). exists ys. split; [done|].
    intros z. rewrite Hz. split; [intros [?|(q & Hq & ?)]; [by left|right; exists q; set_solver]|].
    intros [?|(q & [->|Hq]%elem_of_cons & Ht & <- & ->)]; [by left|congruence|right; exists q; done].
Qed.

(** ** The tables *)

(** A linearization with the history it belongs to. *)
Abbreviation located := (list pageEl * list linearizationStep)%type.
Definition locateAll (els : list (list pageEl)) (lins : list (list (list linearizationStep))) : list located :=
  concat ((λ p : list pageEl * list (list linearizationStep), pair p.1 <$> p.2) <$> zip els lins).

(** The number of an element of a linearization. *)
Definition gidIn (hist : list pageEl) (s : linearizationStep) : Z :=
  match idx hist (Index s) with Some el => el_Gid el | None => -1 end.
Definition gidsIn (loc : located) : list Z := gidIn loc.1 <$> loc.2.

Lemma foldM_concat {A B} (f : B → A → option B) (ls : list (list A)) b :
  foldM f (concat ls) b = foldM (λ b l, foldM f l b) ls b.
Proof. revert b. induction ls as [|l ls IH]; intros b; cbn [concat foldM]; [done|]. rewrite foldM_app. destruct (foldM f l b); [apply IH|done]. Qed.

Lemma foldM_fmap {A B D} (f : B → A → option B) (g : D → A) l b : foldM f (g <$> l) b = foldM (λ b x, f b (g x)) l b.
Proof. revert b. induction l as [|x l IH]; intros b; cbn [fmap list_fmap foldM]; [done|]. destruct (f b (g x)); [apply IH|done]. Qed.

Lemma noteLinearizations_located els lins :
  noteLinearizations els lins =
  foldM (λ t loc, noteLinearization loc.1 t loc.2) (locateAll els lins)
    (mkTables (replicate (length (concat els)) []) (replicate (length (concat els)) []) []).
Proof.
  unfold noteLinearizations, locateAll. rewrite foldM_concat, foldM_fmap. set (t0 := mkTables _ _ _). clearbody t0. revert t0.
  induction (zip els lins) as [|[h ls] l IH]; intros t0; cbn [foldM]; [done|]. cbn [fst snd]. rewrite foldM_fmap. simpl.
  change (λ (b : linTables) (x : list linearizationStep), noteLinearization h b x) with (noteLinearization h).
  destruct (foldM (noteLinearization h) ls t0); [apply IH|done].
Qed.

(** The element [el] of [hist], not in [lin], could come next. *)
Definition couldFollow (loc : located) (g : Z) : Prop :=
  ∃ p, p ∈ notIncluded loc.1 loc.2 ∧ startsBefore p.2 (minEnd (notIncluded loc.1 loc.2)) = true ∧ el_Gid p.2 = g.

Record tablesOk (n : nat) (X : list located) (t : linTables) : Prop := {
  to_len : length (eventToLinearizations t) = n ∧ length (eventIllegalLast t) = n;
  to_all : allLinearizations t = gidsIn <$> X;
  to_through : ∀ g lks, idx (eventToLinearizations t) g = Some lks → ∀ l k,
    (l, k) ∈ lks ↔ 0 ≤ l ∧ 0 ≤ k ∧ through t (Z.to_nat l) (Z.to_nat k) g;
  to_next : ∀ g ls, idx (eventIllegalLast t) g = Some ls → ∀ l,
    l ∈ ls ↔ 0 ≤ l ∧ ∃ loc, X !! Z.to_nat l = Some loc ∧ couldFollow loc g;
}.

(** The indices of the linearization are in its history, whose numbers are below [n]. *)
Definition locOk (n : nat) (loc : located) : Prop :=
  (∀ s, s ∈ loc.2 → is_Some (idx loc.1 (Index s))) ∧ ∀ el, el ∈ loc.1 → 0 ≤ el_Gid el < Z.of_nat n.

Lemma elem_enumerate {A} (l : list A) i x : (i, x) ∈ enumerate l ↔ idx l i = Some x.
Proof.
  unfold enumerate. rewrite elem_of_lookup_imap. rewrite idx_Some. split.
  - intros (j & y & [= -> ->] & Hj). rewrite Nat2Z.id. split; [lia|done].
  - intros [Hi Hx]. exists (Z.to_nat i), x. rewrite Z2Nat.id by done. done.
Qed.

Lemma elem_notIncluded {A} (hist : list A) lin i x :
  (i, x) ∈ notIncluded hist lin ↔ idx hist i = Some x ∧ ∀ s, s ∈ lin → Index s ≠ i.
Proof.
  unfold notIncluded. rewrite list_elem_of_filter, elem_enumerate. cbn [fst]. rewrite elem_of_list_to_set, list_elem_of_fmap.
  naive_solver.
Qed.

Lemma noteLinearization_ok n X t loc : tablesOk n X t → locOk n loc →
  ∃ t', noteLinearization loc.1 t loc.2 = Some t' ∧ tablesOk n (X ++ [loc]) t'.
Proof.
  intros [[Hn1 Hn2] Hall Hth Hnext] [Hidx Hgid]. destruct loc as [hist lin]. cbn [fst snd] in *.
  unfold noteLinearization. set (lgid := zlen (allLinearizations t)).
  assert (lgid = zlen X) as Elg by (unfold lgid; rewrite Hall; unfold zlen; by rewrite length_fmap).
  assert (mapM (λ s, el ← idx hist (Index s); Some (el_Gid el)) lin = Some (gidsIn (hist, lin))) as ->.
  { apply mapM_Some, Forall2_fmap_r, Forall_Forall2_diag, Forall_forall. intros s Hs. destruct (Hidx s Hs) as [el Hel].
    unfold gidIn, compose. cbn [fst]. by rewrite Hel. }
  cbn [mbind option_bind]. set (gs := gidsIn (hist, lin)).
  assert (∀ g, g ∈ gs → 0 ≤ g < Z.of_nat n) as Hgs.
  { intros g (s & -> & Hs)%list_elem_of_fmap. destruct (Hidx s Hs) as [el Hel]. unfold gidIn. cbn [fst]. rewrite Hel.
    by eapply Hgid, idx_elem_of. }
  destruct (pushes_ok (λ _, true) (λ pg : Z * Z, pg.2) (λ pg, (lgid, pg.1)) (enumerate gs) (eventToLinearizations t))
    as (e2l & E1 & Hl1 & H1).
  { intros [k g] Hin _. unfold zlen. rewrite Hn1. apply elem_enumerate, idx_elem_of in Hin. by apply Hgs. }
  cbn beta iota in E1. rewrite E1. cbn [mbind option_bind].
  destruct (pushes_ok (λ p : Z * pageEl, startsBefore p.2 (minEnd (notIncluded hist lin))) (λ p, el_Gid p.2) (λ _, lgid)
    (notIncluded hist lin) (eventIllegalLast t)) as (ill & E2 & Hl2 & H2).
  { intros [i el] Hin _. unfold zlen. rewrite Hn2. apply elem_notIncluded in Hin as [Hel _]. by eapply Hgid, idx_elem_of. }
  rewrite E2. cbn [mbind option_bind]. eexists. split; [done|].
  split; cbn [eventToLinearizations eventIllegalLast allLinearizations].
  - by rewrite Hl1, Hl2.
  - by rewrite Hall, fmap_app.
  - intros g lks Hg l k. destruct (H1 g lks Hg) as (old & Hold & Hin). rewrite Hin, (Hth g old Hold). unfold through.
    cbn [allLinearizations]. setoid_rewrite lookup_snoc_Some. split.
    + intros [(Hl & Hk & lin' & Hlin & Hk')|([i g'] & Hi%elem_enumerate & _ & <- & [= -> ->])].
      * split; [done|]. split; [done|]. exists lin'. split; [|done]. left. split; [by eapply lookup_lt_Some|done].
      * apply idx_Some in Hi as [Hi0 Hi]. unfold lgid, zlen. rewrite Nat2Z.id. split; [lia|]. split; [done|]. exists gs. auto.
    + intros (Hl & Hk & lin' & [[_ Hlin]|[El <-]] & Hk'); [left; eauto|]. right. exists (k, g).
      split_and!; [apply elem_enumerate, idx_Some; done|done|done|]. unfold lgid, zlen. simpl. f_equal. lia.
  - intros g ls Hg l. destruct (H2 g ls Hg) as (old & Hold & Hin). rewrite Hin, (Hnext g old Hold).
    setoid_rewrite lookup_snoc_Some. split.
    + intros [(Hl & loc & Hloc & Hf)|(p & Hp & Hst & Hg' & ->)].
      * split; [done|]. exists loc. split; [|done]. left. split; [by eapply lookup_lt_Some|done].
      * rewrite Elg. unfold zlen. rewrite Nat2Z.id. split; [lia|]. exists (hist, lin). split; [auto|]. by exists p.
    + intros (Hl & loc & [[_ Hloc]|[El <-]] & Hf); [left; eauto|]. right. destruct Hf as (p & Hp & Hst & Hg').
      exists p. split_and!; [done..|]. rewrite Elg. unfold zlen. lia.
Qed.

Lemma noteLinearizations_ok els lins :
  (∀ loc, loc ∈ locateAll els lins → locOk (length (concat els)) loc) →
  ∃ t, noteLinearizations els lins = Some t ∧ tablesOk (length (concat els)) (locateAll els lins) t.
Proof.
  intros Hloc. rewrite noteLinearizations_located. apply (foldM_prefix (tablesOk (length (concat els)))).
  - split; cbn [eventToLinearizations eventIllegalLast allLinearizations]; [by rewrite !length_replicate|done| |].
    + intros g lks [_ [-> _]%lookup_replicate]%idx_Some l k. split; [set_solver|]. intros (_ & _ & lin & Hl & _).
      cbn [allLinearizations] in Hl. by rewrite lookup_nil in Hl.
    + intros g ls [_ [-> _]%lookup_replicate]%idx_Some l. split; [set_solver|]. intros (_ & loc & Hl & _).
      by rewrite lookup_nil in Hl.
  - intros X loc Y t E HX. apply noteLinearization_ok; [done|]. apply Hloc. rewrite E. set_solver.
Qed.

(** ** Times *)

Lemma sorted_strict (l : list Z) : StronglySorted Z.le l → NoDup l → StronglySorted Z.lt l.
Proof.
  induction 1 as [|a l Hs IH Hall]; intros Hnd; constructor; apply NoDup_cons in Hnd as [Ha Hnd]; [by apply IH|].
  rewrite Forall_forall in *. intros b Hb. specialize (Hall b Hb). assert (a ≠ b) by (by intros ->). lia.
Qed.

Lemma elem_sortTimestamps s a : a ∈ sortTimestamps s ↔ a ∈ s.
Proof. unfold sortTimestamps. by rewrite merge_sort_Permutation, elem_of_elements. Qed.

Lemma sortTimestamps_sorted s : StronglySorted Z.lt (sortTimestamps s).
Proof.
  apply sorted_strict; [apply (StronglySorted_merge_sort Z.le)|]. unfold sortTimestamps.
  rewrite merge_sort_Permutation. apply NoDup_elements.
Qed.

Lemma nextTs_after ts a b : StronglySorted Z.lt ts → a ∈ ts → b ∈ ts → a < b → ∃ n, nextTs ts !! a = Some n ∧ a < n ∧ n ∈ ts.
Proof.
  unfold nextTs. intros Hs. induction Hs as [|c l Hs IH Hall]; intros Ha Hb Hab; [set_solver|].
  rewrite Forall_forall in Hall. destruct l as [|d l]; [set_unfold; lia|].
  change (zip (c :: d :: l) (tail (c :: d :: l))) with ((c, d) :: zip (d :: l) (tail (d :: l))). rewrite list_to_map_cons.
  destruct (decide (a = c)) as [->|Hne].
  - exists d. rewrite lookup_insert_eq. split; [done|]. split; [apply Hall|]; set_solver.
  - assert (a ∈ d :: l) as Ha' by set_solver. rewrite lookup_insert_ne by done.
    assert (b ∈ d :: l) as Hb' by (apply elem_of_cons in Hb as [->|]; [specialize (Hall a Ha'); lia|done]).
    destruct (IH Ha' Hb' Hab) as (n & Hn & Hlt & Hin). exists n. set_solver.
Qed.

(** The element the script makes of [e]. *)
Definition fresh (gid : Z) (e : historyElement) : pageEl :=
  mkEl (he_ClientId e) (2 * he_Start e) (2 * he_End e) (2 * he_End e) (he_Description e) gid.

Lemma giveGids_concat gid hs : concat (giveGids gid hs) = imap (λ i e, fresh (gid + Z.of_nat i) e) (concat hs).
Proof.
  revert gid. induction hs as [|h hs IH]; intros gid; simpl; [done|]. rewrite IH, imap_app. f_equal.
  apply imap_ext. intros i e _. simpl. f_equal. unfold zlen. lia.
Qed.

Lemma giveGids_lookup gid hs p hist : giveGids gid hs !! p = Some hist →
  ∃ h off, hs !! p = Some h ∧ hist = imap (λ i e, fresh (off + Z.of_nat i) e) h.
Proof.
  revert gid p. induction hs as [|h hs IH]; intros gid [|p] Hp; simpl in Hp; [done|done|simplify_eq; by exists h, gid|by eapply IH].
Qed.

Lemma tweak_same starts next el : el_Start (tweak starts next el) = el_Start el ∧ el_Gid (tweak starts next el) = el_Gid el ∧
  el_ClientId (tweak starts next el) = el_ClientId el ∧ el_Description (tweak starts next el) = el_Description el.
Proof. unfold tweak. by repeat case_match. Qed.

Section times.
Context (hs : list (list historyElement)).
Context (Hle : ∀ e, e ∈ concat hs → he_Start e ≤ he_End e).
Context (Hmax : ∀ x, x ∈ concat hs → ∃ e, e ∈ concat hs ∧ he_Start x < he_End e).

Let els0 := concat (giveGids 0 hs).
Let all := allTimestamps els0.
Let tw := tweak (startTimestamps els0) (nextTs (sortTimestamps all)).

Lemma elem_els0 el : el ∈ els0 ↔ ∃ i e, concat hs !! i = Some e ∧ el = fresh (Z.of_nat i) e.
Proof. unfold els0. rewrite giveGids_concat, elem_of_lookup_imap. naive_solver. Qed.

Lemma elem_all a : a ∈ all ↔ ∃ e, e ∈ concat hs ∧ (a = 2 * he_Start e ∨ a = 2 * he_End e).
Proof.
  unfold all, allTimestamps, startTimestamps. rewrite elem_of_union, !elem_of_list_to_set, !list_elem_of_fmap. setoid_rewrite elem_els0.
  setoid_rewrite list_elem_of_lookup. split.
  - intros [(el & -> & i & e & Hi & ->)|(el & -> & i & e & Hi & ->)]; exists e; split; [by exists i|by left|by exists i|by right].
  - intros (e & [i Hi] & [->| ->]); [left|right]; exists (fresh (Z.of_nat i) e); (split; [done|by exists i, e]).
Qed.

(** The tweaked end of an operation comes after every start that is not after its end. *)
Lemma tweak_after e gid x : e ∈ concat hs → x ∈ concat hs → he_Start x ≤ he_End e →
  2 * he_Start x < el_End (tw (fresh gid e)).
Proof.
  intros He Hx Hxe. unfold tw, tweak. cbn [fresh el_End]. case_bool_decide as Hs.
  - unfold startTimestamps in Hs. apply elem_of_list_to_set, list_elem_of_fmap in Hs as (el & E & Hel%elem_els0).
    destruct Hel as (i & y & Hy & ->). cbn [fresh el_Start] in E.
    destruct (Hmax y) as (z & Hz & Hlt); [by eapply list_elem_of_lookup_2|].
    destruct (nextTs_after (sortTimestamps all) (2 * he_End e) (2 * he_End z)) as (n & -> & Hn & Hin);
      [apply sortTimestamps_sorted|apply elem_sortTimestamps, elem_all; eauto..|lia|].
    apply elem_sortTimestamps, elem_all in Hin as (v & _ & Hv). cbn [set_End el_End].
    assert (2 * he_End e + 2 ≤ n) by lia. pose proof (Z.div_le_lower_bound (2 * he_End e + n) 2 (2 * he_End e + 1)). lia.
  - cbn [fresh el_End]. assert (he_Start x ≠ he_End e); [|lia]. intros E. apply Hs. unfold startTimestamps.
    apply elem_of_list_to_set, list_elem_of_fmap. apply list_elem_of_lookup in Hx as [i Hi].
    exists (fresh (Z.of_nat i) x). split; [cbn [fresh el_Start]; lia|]. apply elem_els0. eauto.
Qed.
End times.

(** ** Drawable data *)

(** [lin] keeps the order of operations that do not overlap: what stands at [k] does not start
    after the end of an operation that does not stand before it. *)
Record ordered (hist : list historyElement) (lin : list linearizationStep) : Prop := {
  or_ne : lin ≠ [];
  or_nodup : NoDup (Index <$> lin);
  or_known : ∀ s, s ∈ lin → is_Some (idx hist (Index s));
  or_order : ∀ k s el i el', lin !! k = Some s → idx hist (Index s) = Some el → idx hist i = Some el' →
    i ∉ Index <$> take k lin → he_Start el ≤ he_End el';
}.

Record drawable (data : list partitionVisualizationData) : Prop := {
  dr_time : ∀ e, e ∈ concat (d_History <$> data) → he_Start e ≤ he_End e;
  dr_last : ∀ x, x ∈ concat (d_History <$> data) → ∃ e, e ∈ concat (d_History <$> data) ∧ he_Start x < he_End e;
  dr_order : ∀ p lin, p ∈ data → lin ∈ d_PartialLinearizations p → ordered (d_History p) lin;
}.

Section drawable.
Context (data : list partitionVisualizationData) (Hd : drawable data).
Let hs := d_History <$> data.
Let els := (prepare hs).1.
Let ts := (prepare hs).2.
Let locs := locateAll els (d_PartialLinearizations <$> data).

(** The element [el] shows the operation [e]. *)
Record shownAs (el : pageEl) (e : historyElement) : Prop := {
  sh_client : el_ClientId el = he_ClientId e;
  sh_desc : el_Description el = he_Description e;
  sh_start : el_Start el = 2 * he_Start e;
  sh_end : ∀ x, x ∈ concat hs → he_Start x ≤ he_End e → 2 * he_Start x < el_End el;
}.

Let tw := tweak (startTimestamps (concat (giveGids 0 hs))) (nextTs (sortTimestamps (allTimestamps (concat (giveGids 0 hs))))).

Lemma concat_els : concat els = imap (λ i e, tw (fresh (Z.of_nat i) e)) (concat hs).
Proof.
  change (concat (map (map tw) (giveGids 0 hs)) = imap (λ i e, tw (fresh (Z.of_nat i) e)) (concat hs)).
  rewrite <-concat_map, giveGids_concat. change (map ?f ?l) with (f <$> l).
  rewrite fmap_imap. apply imap_ext. intros i e _. unfold compose. by rewrite Z.add_0_l.
Qed.

Lemma tw_shown e gid : e ∈ concat hs → shownAs (tw (fresh gid e)) e.
Proof.
  intros He. destruct (tweak_same (startTimestamps (concat (giveGids 0 hs)))
    (nextTs (sortTimestamps (allTimestamps (concat (giveGids 0 hs))))) (fresh gid e)) as (Hs & _ & Hc & Hde).
  split; [exact Hc|exact Hde|exact Hs|]. intros x Hx Hxe. apply tweak_after; [apply Hd|done|done|done].
Qed.

Lemma els_gid g el : idx (concat els) g = Some el → el_Gid el = g ∧ ∃ e, idx (concat hs) g = Some e ∧ shownAs el e.
Proof.
  rewrite concat_els. intros [Hg H]%idx_Some. rewrite list_lookup_imap in H. apply fmap_Some in H as (e & He & ->).
  split; [etrans; [apply tweak_same|]; simpl; lia|]. exists e. split; [by apply idx_Some|].
  by eapply tw_shown, list_elem_of_lookup_2.
Qed.

Lemma els_own el : el ∈ concat els → idx (concat els) (el_Gid el) = Some el.
Proof.
  intros [i Hi]%list_elem_of_lookup. rewrite <-idx_of_nat in Hi. destruct (els_gid _ _ Hi) as [-> _]. done.
Qed.

Lemma locs_elem loc : loc ∈ locs → ∃ part, part ∈ data ∧ loc.2 ∈ d_PartialLinearizations part ∧
  (∀ el, el ∈ loc.1 → el ∈ concat els) ∧ length loc.1 = length (d_History part) ∧
  ∀ i el, idx loc.1 i = Some el → ∃ e, idx (d_History part) i = Some e ∧ shownAs el e.
Proof.
  unfold locs, locateAll. intros (l & ([hist ls] & -> & Hq)%list_elem_of_fmap & Hin)%elem_concat. cbn [fst snd] in Hin.
  apply list_elem_of_fmap in Hin as (lin & -> & Hlin). cbn [fst snd].
  apply list_elem_of_lookup in Hq as [i Hi]. apply lookup_zip_Some in Hi as [Hh Hl].
  rewrite list_lookup_fmap in Hl. apply fmap_Some in Hl as (part & Hpart & El). rewrite El in Hlin.
  exists part. split; [by eapply list_elem_of_lookup_2|]. split; [done|]. split.
  { intros el Hel. apply elem_concat. exists hist. split; [by eapply list_elem_of_lookup_2|done]. }
  unfold els, prepare in Hh. cbn [fst] in Hh. change (map (map tw) (giveGids 0 hs) !! i = Some hist) in Hh.
  change (map (map tw)) with (fmap (M := list) (map tw)) in Hh. rewrite list_lookup_fmap in Hh.
  apply fmap_Some in Hh as (h0 & Hh0 & ->). destruct (giveGids_lookup _ _ _ _ Hh0) as (h & off & Hhs & ->).
  unfold hs in Hhs. rewrite list_lookup_fmap, Hpart in Hhs. injection Hhs as <-. split; [by rewrite length_map, length_imap|].
  intros j el [Hj Hel]%idx_Some. change (map tw) with (fmap (M := list) tw) in Hel. rewrite list_lookup_fmap, list_lookup_imap in Hel.
  destruct (d_History part !! Z.to_nat j) as [e|] eqn:He; [|done]. injection Hel as <-.
  exists e. split; [by apply idx_Some|]. apply tw_shown. apply elem_concat. exists (d_History part).
  split; [apply list_elem_of_fmap; exists part; split; [done|by eapply list_elem_of_lookup_2]|by eapply list_elem_of_lookup_2].
Qed.

Lemma locs_ok loc : loc ∈ locs → locOk (length (concat els)) loc.
Proof.
  intros (part & Hp & Hlin & Hel & Hlen & Hsh)%locs_elem. pose proof (dr_order _ Hd part _ Hp Hlin) as Ho. split.
  - intros s Hs. destruct (or_known _ _ Ho s Hs) as [e He]. apply idx_is_Some. unfold zlen. rewrite Hlen. by eapply idx_lt.
  - intros el Hin. apply Hel, els_own in Hin. apply idx_lt in Hin. unfold zlen in Hin. lia.
Qed.

(** A step of a linearization is an element of its history. *)
Lemma step_el loc s : loc ∈ locs → s ∈ loc.2 → ∃ el, idx loc.1 (Index s) = Some el ∧
  gidIn loc.1 s = el_Gid el ∧ idx (concat els) (gidIn loc.1 s) = Some el.
Proof.
  intros Hloc Hs. destruct (proj1 (locs_ok loc Hloc) s Hs) as [el Hel]. destruct (locs_elem loc Hloc) as (part & _ & _ & Hin & _).
  exists el. unfold gidIn. rewrite Hel. split_and!; [done|done|]. apply els_own, Hin. by eapply idx_elem_of.
Qed.

(** What stands in a linearization starts before the end of an element that does not stand
    before it. *)
Lemma starts_first loc k s el i el' : loc ∈ locs → loc.2 !! k = Some s → idx loc.1 (Index s) = Some el →
  idx loc.1 i = Some el' → i ∉ Index <$> take k loc.2 → el_Start el < el_End el'.
Proof.
  intros Hloc Hk Hel Hel' Hi. destruct (locs_elem loc Hloc) as (part & Hp & Hlin & _ & _ & Hsh).
  destruct (Hsh _ _ Hel) as (e & He & Hse). destruct (Hsh _ _ Hel') as (e' & He' & Hse'). rewrite (sh_start _ _ Hse).
  apply (sh_end _ _ Hse').
  - apply elem_concat. exists (d_History part). split; [apply list_elem_of_fmap; by exists part|by eapply idx_elem_of].
  - by eapply (or_order _ _ (dr_order _ Hd part _ Hp Hlin)).
Qed.

Lemma ts_elem a : (a ∈ allTimestamps (concat (giveGids 0 hs)) ∨ ∃ el, el ∈ concat els ∧ a = el_End el) → a ∈ ts.
Proof.
  intros H. change (a ∈ sortTimestamps (allTimestamps (concat (giveGids 0 hs)) ∪ list_to_set (el_End <$> concat els))).
  apply elem_sortTimestamps, elem_of_union. destruct H as [H|(el & Hel & ->)]; [by left|right].
  apply elem_of_list_to_set, list_elem_of_fmap. eauto.
Qed.

Lemma els_shown el : el ∈ concat els → ∃ e, e ∈ concat hs ∧ shownAs el e.
Proof. intros H%els_own. apply els_gid in H as (_ & e & He & Hs). exists e. split; [by eapply idx_elem_of|done]. Qed.

Lemma all_elem loc l t : tablesOk (length (concat els)) locs t → allLinearizations t !! l = Some loc →
  ∃ loc', locs !! l = Some loc' ∧ loc = gidsIn loc' ∧ loc' ∈ locs.
Proof.
  intros Ht. rewrite (to_all _ _ _ Ht), list_lookup_fmap. intros (loc' & Hl & ->)%fmap_Some. exists loc'.
  split_and!; [done|done|by eapply list_elem_of_lookup_2].
Qed.

Lemma take_notin {A} (l : list A) j k x : NoDup l → l !! k = Some x → (j ≤ k)%nat → x ∉ take j l.
Proof.
  intros Hnd Hk Hjk (i & Hi & Hlt)%elem_of_take. assert (i = k) by (by eapply NoDup_lookup). lia.
Qed.

Lemma follow_starts loc g el g' : loc ∈ locs → couldFollow loc g → idx (concat els) g = Some el → g' ∈ gidsIn loc →
  startOf (concat els) g' < el_End el.
Proof.
  intros Hloc ([i el'] & Hnot & _ & Hgid) Hg. destruct (locs_elem loc Hloc) as (_ & _ & _ & Hin & _).
  apply elem_notIncluded in Hnot as [Hel' Hni]. cbn [snd] in Hgid.
  pose proof (els_own el' (Hin _ (idx_elem_of _ _ _ Hel'))) as Ho. rewrite Hgid in Ho. simplify_eq.
  intros (s & -> & [k Hk]%list_elem_of_lookup)%list_elem_of_fmap.
  destruct (step_el loc s Hloc) as (el1 & Hel1 & _ & Hg1); [by eapply list_elem_of_lookup_2|].
  unfold startOf. rewrite Hg1. eapply starts_first; [done..|].
  intros (s' & -> & Hs'%elem_of_take)%list_elem_of_fmap. destruct Hs' as (j & Hs' & _).
  eapply (Hni s'); [by eapply list_elem_of_lookup_2|done].
Qed.

Lemma earlier_starts loc j k g g' el : loc ∈ locs → gidsIn loc !! j = Some g' → gidsIn loc !! k = Some g → (j ≤ k)%nat →
  idx (concat els) g = Some el → startOf (concat els) g' < el_End el.
Proof.
  intros Hloc Hj Hk Hjk Hg. unfold gidsIn in Hj, Hk. rewrite list_lookup_fmap in Hj, Hk.
  apply fmap_Some in Hj as (s' & Hj & ->). apply fmap_Some in Hk as (s & Hk & ->).
  destruct (step_el loc s Hloc) as (el1 & Hel1 & _ & Hg1); [by eapply list_elem_of_lookup_2|].
  destruct (step_el loc s' Hloc) as (el2 & Hel2 & _ & Hg2); [by eapply list_elem_of_lookup_2|]. simplify_eq.
  unfold startOf. rewrite Hg2. eapply starts_first; [done|exact Hj|done|exact Hel1|].
  destruct (locs_elem loc Hloc) as (part & Hp & Hlin & _). rewrite fmap_take.
  eapply take_notin; [apply (or_nodup _ _ (dr_order _ Hd part _ Hp Hlin))|by rewrite list_lookup_fmap, Hk|done].
Qed.

Lemma drawable_scannable t : tablesOk (length (concat els)) locs t → scannable (concat els) t ts.
Proof.
  intros Ht. assert (∀ {A} (tab : list A) g el, length tab = length (concat els) → idx (concat els) g = Some el → is_Some (idx tab g)) as Hidx.
  { intros A tab g el Hlen Hg%idx_lt. apply idx_is_Some. unfold zlen in *. by rewrite Hlen. }
  split.
  - apply sortTimestamps_sorted.
  - intros g el Hg. by apply els_gid in Hg as [? _].
  - intros el (e & He & Hsh)%els_shown. apply ts_elem. left. rewrite (sh_start _ _ Hsh). apply elem_all. eauto.
  - intros el Hel. apply ts_elem. eauto.
  - intros el (e & He & Hsh)%els_shown. rewrite (sh_start _ _ Hsh). apply (sh_end _ _ Hsh); [done|by apply (dr_time _ Hd)].
  - intros g el Hg. destruct (Hidx _ _ _ _ (proj1 (to_len _ _ _ Ht)) Hg) as [lks Hlks]. exists lks. split; [done|].
    by apply (to_through _ _ _ Ht).
  - intros g el Hg. destruct (Hidx _ _ _ _ (proj2 (to_len _ _ _ Ht)) Hg) as [ls Hls]. exists ls. split; [done|].
    intros l (Hl & loc & Hloc & Hf)%(to_next _ _ _ Ht g ls Hls). split; [done|].
    exists (gidsIn loc). split; [by rewrite (to_all _ _ _ Ht), list_lookup_fmap, Hloc|].
    apply list_elem_of_lookup_2 in Hloc. destruct (locs_elem loc Hloc) as (part & Hp & Hlin & Hin & _).
    split; [unfold gidsIn; intros E%fmap_nil_inv; by apply (or_ne _ _ (dr_order _ Hd part _ Hp Hlin))|].
    intros g'. by apply follow_starts with (g := g).
  - intros l lin g Hl Hg. destruct (all_elem _ _ _ Ht Hl) as (loc & _ & -> & Hloc). apply list_elem_of_fmap in Hg as (s & -> & Hs).
    destruct (step_el loc s Hloc Hs) as (el & _ & _ & ->). by eexists.
  - intros l lin j k g g' el Hl Hj Hk Hjk Hg. destruct (all_elem _ _ _ Ht Hl) as (loc & _ & -> & Hloc).
    by apply (earlier_starts loc j k g g' el).
Qed.

(** ** The criteria on the data *)

(** The starts of the operations of a linearization. *)
Definition startsIn (loc : located) : list Z :=
  (λ s, match idx loc.1 (Index s) with Some el => el_Start el | None => 0 end) <$> loc.2.

(** Element [i] of the history is not in the linearization. *)
Definition absent (loc : located) (i : Z) : Prop := ∀ s, s ∈ loc.2 → Index s ≠ i.

Lemma startsOf_gids loc : loc ∈ locs → startsOf (concat els) (gidsIn loc) = startsIn loc.
Proof.
  intros Hloc. unfold startsOf, gidsIn, startsIn. rewrite <-list_fmap_compose. apply list_fmap_ext. intros k s Hs. unfold compose, startOf.
  destruct (step_el loc s Hloc) as (el & -> & _ & ->); [by eapply list_elem_of_lookup_2|done].
Qed.
End drawable.

Lemma minEnd_spec el l : startsBefore el (minEnd l) = true ↔ ∀ p, p ∈ l → el_Start el < el_End p.2.
Proof.
  unfold minEnd. assert (∀ m, startsBefore el (foldl (λ m p, Some (match m with None => el_End p.2 | Some e => Z.min e (el_End p.2) end)) m l) = true
    ↔ startsBefore el m = true ∧ ∀ p, p ∈ l → el_Start el < el_End p.2) as H; [|rewrite H; split; [by intros [_ ?]|done]].
  induction l as [|p l IH]; intros m; simpl; [set_solver|]. rewrite IH. setoid_rewrite elem_of_cons.
  destruct m as [e|]; simpl; rewrite Z.ltb_lt; split; [intros [H1 H2]|intros [H1 H2]|intros [H1 H2]|intros [H1 H2]].
  - split; [apply Z.ltb_lt; lia|]. intros q [->|Hq]; [lia|by apply H2].
  - apply Z.ltb_lt in H1. split; [specialize (H2 p (or_introl eq_refl)); lia|auto].
  - split; [done|]. intros q [->|Hq]; [lia|by apply H2].
  - split; [apply H2; by left|auto].
Qed.

(** The criteria of the comments of the script, for positions [y] of the times [ts]: order and
    distance; room for the text of every box; every linearization point, placed as far to the left as
    it can be, in the box of its operation; and so for the point after the last one in the box of an
    operation that could have come next. *)
Record criteria (px : Z) (textWidth : string → Z) (els : list (list pageEl)) (locs : list located) (ts : list Z) (y : Z → Z) : Prop := {
  cr_pos : ∀ a, a ∈ ts → 0 ≤ y a;
  cr_gap : ∀ a b, a ∈ ts → b ∈ ts → a < b → y a + BOX_GAP px ≤ y b;
  cr_text : ∀ el, el ∈ concat els → y (el_Start el) + boxWidth px textWidth el ≤ y (el_End el);
  cr_point : ∀ loc k s el q, loc ∈ locs → loc.2 !! k = Some s → idx loc.1 (Index s) = Some el →
    greedy px y None (startsIn loc) !! k = Some q → q ≤ y (el_End el);
  cr_next : ∀ loc i el q, loc ∈ locs → idx loc.1 i = Some el → absent loc i →
    (∀ j el', idx loc.1 j = Some el' → absent loc j → el_Start el < el_End el') →
    last (greedy px y None (startsIn loc)) = Some q → q + EPSILON px ≤ y (el_End el);
}.

Section criteria.
Context (px : Z) (textWidth : string → Z) (data : list partitionVisualizationData) (Hd : drawable data).
Let els := (prepare (d_History <$> data)).1.
Let ts := (prepare (d_History <$> data)).2.
Let locs := locateAll els (d_PartialLinearizations <$> data).
Context (t : linTables) (Ht : tablesOk (length (concat els)) locs t).

Lemma gids_starts loc : loc ∈ locs → startsOf (concat els) (gidsIn loc) = startsIn loc.
Proof. apply startsOf_gids, Hd. Qed.

Lemma step_own loc s k : loc ∈ locs → loc.2 !! k = Some s → ∃ el, idx loc.1 (Index s) = Some el ∧
  gidsIn loc !! k = Some (el_Gid el) ∧ idx (concat els) (el_Gid el) = Some el.
Proof.
  intros Hloc Hs. destruct (step_el data Hd loc s Hloc) as (el & Hel & Hg & Ho); [by eapply list_elem_of_lookup_2|].
  exists el. unfold gidsIn. rewrite list_lookup_fmap, Hs. simpl. rewrite Hg in *. done.
Qed.

Lemma loc_own loc i el : loc ∈ locs → idx loc.1 i = Some el → idx (concat els) (el_Gid el) = Some el.
Proof.
  intros Hloc Hel. destruct (locs_elem data Hd loc Hloc) as (_ & _ & _ & Hin & _).
  by eapply (els_own data Hd), Hin, idx_elem_of.
Qed.

Lemma loc_number loc : loc ∈ locs → ∃ l, locs !! l = Some loc ∧ allLinearizations t !! l = Some (gidsIn loc).
Proof. intros [l Hl]%list_elem_of_lookup. exists l. by rewrite (to_all _ _ _ Ht), list_lookup_fmap, Hl. Qed.

Lemma couldFollow_spec loc i el : loc ∈ locs → idx loc.1 i = Some el → absent loc i →
  (∀ j el', idx loc.1 j = Some el' → absent loc j → el_Start el < el_End el') → couldFollow loc (el_Gid el).
Proof.
  intros Hloc Hel Hab Hst. exists (i, el). split; [by apply elem_notIncluded|]. split; [|done]. apply minEnd_spec.
  intros [j el'] [Hel' Hab']%elem_notIncluded. by eapply Hst.
Qed.

Lemma criteria_fits y : criteria px textWidth els locs ts y ↔ fits px textWidth (concat els) t ts y.
Proof.
  split.
  - intros [H1 H2 H3 H4 H5]. split; [done|done|]. intros g el Hg. split; [by eapply H3, idx_elem_of|..].
    + intros l lin k q Hl Hk Hq. destruct (all_elem _ _ _ _ Ht Hl) as (loc & _ & -> & Hloc). unfold point in Hq.
      rewrite gids_starts in Hq by done. destruct (loc.2 !! k) as [s|] eqn:Hs.
      2:{ unfold gidsIn in Hk. by rewrite list_lookup_fmap, Hs in Hk. }
      destruct (step_own loc s k Hloc Hs) as (el1 & Hel1 & Hk1 & Ho). rewrite Hk in Hk1. injection Hk1 as ->.
      rewrite Ho in Hg. injection Hg as <-. by eapply H4.
    + intros l lin q Hl (ls & Hls & Hin) Hq. destruct (all_elem _ _ _ _ Ht Hl) as (loc & Hl' & -> & Hloc).
      rewrite gids_starts in Hq by done. apply (to_next _ _ _ Ht _ _ Hls) in Hin as (_ & loc' & Hl'' & [i el'] & Hnot & Hst & Hgid).
      rewrite Nat2Z.id in Hl''. assert (loc' = loc) as -> by (apply (inj Some); by rewrite <-Hl', <-Hl'').
      apply elem_notIncluded in Hnot as [Hel' Hab]. cbn [snd] in *. pose proof (loc_own loc i el' Hloc Hel') as Ho.
      rewrite Hgid, Hg in Ho. injection Ho as <-. eapply (H5 loc i el); [done..| |done]. intros j el2 Hj Hab2.
      apply (proj1 (minEnd_spec el (notIncluded loc.1 loc.2)) Hst (j, el2)). by apply elem_notIncluded.
  - intros [H1 H2 H3]. split; [done|done|..].
    + intros el Hel. by apply (n_text _ _ _ _ _ _ _ _ (H3 _ _ (els_own data Hd el Hel))).
    + intros loc k s el q Hloc Hk Hel Hq. destruct (loc_number loc Hloc) as (l & _ & Hl).
      destruct (step_own loc s k Hloc Hk) as (el1 & Hel1 & Hk1 & Ho). rewrite Hel in Hel1. injection Hel1 as <-.
      eapply (n_point _ _ _ _ _ _ _ _ (H3 _ _ Ho) l (gidsIn loc) k); [done|done|]. unfold point. by rewrite gids_starts.
    + intros loc i el q Hloc Hel Hab Hst Hq. pose proof (loc_own loc i el Hloc Hel) as Ho.
      destruct (loc_number loc Hloc) as (l & Hl & Hal).
      eapply (n_next _ _ _ _ _ _ _ _ (H3 _ _ Ho) l (gidsIn loc)); [done| |by rewrite gids_starts].
      destruct (idx_is_Some (eventIllegalLast t) (el_Gid el)) as [ls Hls].
      { apply idx_lt in Ho. unfold zlen in *. by rewrite (proj2 (to_len _ _ _ Ht)). }
      exists ls. split; [done|]. apply (to_next _ _ _ Ht _ _ Hls). rewrite Nat2Z.id. split; [lia|]. exists loc.
      split; [done|]. by eapply couldFollow_spec.
Qed.
End criteria.

(** ** The layout *)

(** [L] is a layout of the data: a position for every time, which meets the criteria of the
    comments of the script, the points of every linearization as far to the left as these positions allow,
    and no positions that meet the criteria put any time further to the left. *)
Record leastLayout (px : Z) (textWidth : string → Z) (data : list partitionVisualizationData) (L : pageLayout) : Prop := {
  ll_times : ∀ a, is_Some (xPos (lay_scan L) !! a) ↔ a ∈ lay_ts L;
  ll_criteria : criteria px textWidth (lay_els L) (locateAll (lay_els L) (d_PartialLinearizations <$> data)) (lay_ts L)
    (posAt (xPos (lay_scan L)));
  ll_points : linearizationPositions (lay_scan L)
    = (λ loc, greedy px (posAt (xPos (lay_scan L))) None (startsIn loc)) <$> locateAll (lay_els L) (d_PartialLinearizations <$> data);
  ll_least : ∀ y, criteria px textWidth (lay_els L) (locateAll (lay_els L) (d_PartialLinearizations <$> data)) (lay_ts L) y →
    ∀ a, a ∈ lay_ts L → posAt (xPos (lay_scan L)) a ≤ y a;
}.

Lemma layout_least px textWidth data : 0 < px → drawable data →
  ∃ L, layout px textWidth data = Some L ∧ leastLayout px textWidth data L.
Proof.
  intros Hpx Hd. unfold layout. destruct (prepare (d_History <$> data)) as [els ts] eqn:E.
  assert (els = (prepare (d_History <$> data)).1) as Eels by (by rewrite E).
  assert (ts = (prepare (d_History <$> data)).2) as Ets by (by rewrite E). rewrite Eels, Ets. clear E Eels Ets.
  destruct (noteLinearizations_ok _ _ (locs_ok data Hd)) as (t & -> & Ht). cbn [mbind option_bind].
  destruct (scan_fits px textWidth _ t _ Hpx (drawable_scannable data Hd t Ht)) as (s & -> & Hdom & Hfit & Hpts & Hleast).
  cbn [mbind option_bind]. eexists. split; [done|]. split; cbn [lay_els lay_ts lay_scan]; [done|by apply (criteria_fits px textWidth data Hd t Ht)|..].
  - rewrite Hpts, (to_all _ _ _ Ht), <-list_fmap_compose. apply list_fmap_ext. intros l loc Hloc. unfold compose.
    f_equal. eapply startsOf_gids; [done|by eapply list_elem_of_lookup_2].
  - intros y Hy. apply Hleast. by apply (criteria_fits px textWidth data Hd t Ht).
Qed.
