(* ===== verification/VisPageDraw.v ===== *)
(** * The script of the visualization page: the drawing

    The second half of [render]: the shapes the script adds to the page for the histories and
    the partial linearizations, and what it notes on the way: the operations that could come next but are
    illegal, the longest linearization each of them could follow, and the error points in order.  On the layout
    of drawable data the drawing is complete, and every point lies in the box of its operation.

    Positions are counted as in [VisPage]; the anchor of a text is given twice as large, so that
    the middle of a box is whole.  [None] is a [TypeError] or a position that is not a number. *)

From S2P Require Import Prelude Bitset Porcupine Visualization VisPage VisualizationFacts VisPageFacts VisPageLayout.
Open Scope go_scope.

(** A shape of the page with its class. *)
Inductive shape :=
  | Rect (x y width height : Z) (cls : string)
  | LineTo (x1 y1 x2 y2 : Z) (cls : string)
  | TextAt (x2 y2 : Z) (content : string).

(** A point of a linearization: where it is drawn, and the element it belongs to. *)
Record drawnPoint := mkPoint { pt_x : Z; pt_y : Z; pt_el : pageEl }.

(** An element of [errorPoints]: its place, the element to select, and the layer it is in. *)
Record errorPoint := mkErrorPoint { er_x : Z; er_partition : Z; er_index : Z; er_layer : Z }.

(** What is drawn for a linearization: the shapes of its layer, its points, and the points of the
    elements, by index, that could come next ([illegalLast]). *)
Record drawnLin := mkDrawn { dl_shapes : list shape; dl_points : list drawnPoint; dl_next : list (Z * drawnPoint) }.

Section draw.
Context (px : Z).

Definition BOX_HEIGHT : Z := 30 * px.
Definition BOX_SPACE : Z := 15 * px.
Definition LINE_BLEED : Z := 5 * px.

Section positions.
Context (xPos : gmap Z Z).

(** ** The background *)

(** [height] of the picture for [n] clients. *)
Definition pageHeight (n : Z) : Z := 2 * PADDING px + BOX_HEIGHT * n + BOX_SPACE * (n - 1).
Definition pageWidth (ts : list Z) : option Z :=
  match last ts with
  | Some t => x ← xPos !! t; Some (2 * PADDING px + XOFF px + x)
  | None => Some (2 * PADDING px + XOFF px)
  end.

(** The names of the clients and the divider. *)
Definition drawBackground (n : Z) (width : Z) (label : Z → string) : list shape :=
  Rect 0 0 width (pageHeight n) "bg" ::
  ((λ i, TextAt (XOFF px) (2 * PADDING px + BOX_HEIGHT + 2 * (i * (BOX_HEIGHT + BOX_SPACE))) (label i)) <$> range 0 n) ++
  [LineTo (PADDING px + XOFF px) (PADDING px) (PADDING px + XOFF px) (pageHeight n - PADDING px) "divider"].

(** ** The histories *)

(** The box of an element: its left side, its width and its top. *)
Definition boxAt (el : pageEl) : option (Z * Z * Z) :=
  rx ← xPos !! el_Start el;
  rend ← xPos !! el_End el;
  Some (rx + XOFF px + PADDING px, rend - rx, PADDING px + el_ClientId el * (BOX_HEIGHT + BOX_SPACE)).

(** The shapes of an element: the box and its text in the layer of its partition, and the rectangle for the mouse. *)
Definition drawElement (el : pageEl) : option (list shape * shape) :=
  '(x, width, y) ← boxAt el;
  Some ([Rect x y width BOX_HEIGHT "history-rect"; TextAt (2 * x + width) (2 * y + BOX_HEIGHT) (el_Description el)],
        Rect x y width BOX_HEIGHT "target-rect").

(** ** The linearizations *)

(** Where the point of [el] is drawn after the previous one. *)
Definition pointAt (prev : option drawnPoint) (el : pageEl) : option drawnPoint :=
  here ← xPos !! el_Start el;
  let hereX := PADDING px + XOFF px + here in
  Some (mkPoint (match prev with Some p => Z.max hereX (pt_x p + EPSILON px) | None => hereX end)
          (PADDING px + el_ClientId el * (BOX_HEIGHT + BOX_SPACE) - LINE_BLEED) el).

(** The line from the previous point and the line of the point. *)
Definition linkLine (prev p : drawnPoint) (cls : string) : shape :=
  let full := BOX_HEIGHT + 2 * LINE_BLEED in
  LineTo (pt_x prev) (if el_ClientId (pt_el p) <=? el_ClientId (pt_el prev) then pt_y prev else pt_y prev + full)
    (pt_x p) (if el_ClientId (pt_el prev) <=? el_ClientId (pt_el p) then pt_y p else pt_y p + full) cls.
Definition pointLine (p : drawnPoint) (cls : string) : shape :=
  LineTo (pt_x p) (pt_y p) (pt_x p) (pt_y p + BOX_HEIGHT + 2 * LINE_BLEED) cls.

(** The loop over the elements of a linearization. *)
Definition drawStep (hist : list pageEl) (acc : drawnLin) (s : linearizationStep) : option drawnLin :=
  el ← idx hist (Index s);
  p ← pointAt (last (dl_points acc)) el;
  let link := match last (dl_points acc) with
              | Some prev => [linkLine prev p "linearization linearization-line"]
              | None => []
              end in
  Some (mkDrawn (dl_shapes acc ++ link ++ [pointLine p "linearization linearization-point"]) (dl_points acc ++ [p]) []).

(** The loop over the elements that could come next; [prevEl] is the element of the last point. *)
Definition drawNext (m : option Z) (acc : drawnLin) (ip : Z * pageEl) : option drawnLin :=
  if startsBefore ip.2 m then
    p ← pointAt (last (dl_points acc)) ip.2;
    prev ← last (dl_points acc);
    Some (mkDrawn (dl_shapes acc ++ [linkLine prev p "linearization-invalid linearization-line";
                                     pointLine p "linearization-invalid linearization-point"])
            (dl_points acc) (dl_next acc ++ [(ip.1, p)]))
  else Some acc.

Definition drawLin (hist : list pageEl) (lin : list linearizationStep) : option drawnLin :=
  acc ← foldM (drawStep hist) lin (mkDrawn [] [] []);
  let rest := notIncluded hist lin in
  foldM (drawNext (minEnd rest)) rest acc.

(** ** Notes on the operations that could come next *)

(** [largestIllegalLength] and [largestIllegal] of a partition. *)
Definition noteIllegal (linIndex len : Z) (lg : gmap Z Z * gmap Z Z) (index : Z) : gmap Z Z * gmap Z Z :=
  if match lg.1 !! index with None => true | Some l => l <? len end
  then (<[index := len]> lg.1, <[index := linIndex]> lg.2) else lg.

Definition largestIllegal (lins : list (list linearizationStep)) (drawn : list drawnLin) : gmap Z Z :=
  (foldl (λ lg (p : Z * (list linearizationStep * drawnLin)),
     foldl (noteIllegal p.1 (zlen p.2.1)) lg (dl_next p.2.2).*1) (∅, ∅) (enumerate (zip lins drawn))).2.

(** The error points of linearization [linIndex] of [partition]; the element to select is its last one. *)
Definition errorsOf (partition linIndex : Z) (lin : list linearizationStep) (drawn : drawnLin) : option (list errorPoint) :=
  mapM (λ ip : Z * drawnPoint, s ← last lin; Some (mkErrorPoint (pt_x ip.2) partition (Index s) linIndex)) (dl_next drawn).

(** [errorPoints.sort((a, b) => a.x - b.x)] *)
Fixpoint insertByX (e : errorPoint) (l : list errorPoint) : list errorPoint :=
  match l with
  | [] => [e]
  | e' :: l' => if er_x e <=? er_x e' then e :: l else e' :: insertByX e l'
  end.

(** ** The drawing *)

(** What the script draws and notes for a partition. *)
Record drawnPartition := mkDrawnPart {
  dp_boxes : list (list shape); dp_targets : list shape; dp_lins : list drawnLin; dp_illegal : gmap Z Z; dp_errors : list errorPoint }.

Definition drawPartition (ip : Z * (list pageEl * list (list linearizationStep))) : option drawnPartition :=
  let '(partition, (hist, lins)) := ip in
  boxes ← mapM drawElement hist;
  drawn ← mapM (drawLin hist) lins;
  errors ← mapM (λ p : Z * (list linearizationStep * drawnLin), errorsOf partition p.1 p.2.1 p.2.2) (enumerate (zip lins drawn));
  Some (mkDrawnPart boxes.*1 boxes.*2 drawn (largestIllegal lins drawn) (concat errors)).
End positions.

(** The picture, the notes of the partitions and [errorPoints]. *)
Record drawing := mkDrawing { dr_background : list shape; dr_partitions : list drawnPartition; dr_errors : list errorPoint }.

Definition draw (label : Z → string) (data : list partitionVisualizationData) (L : pageLayout) : option drawing :=
  let x := xPos (lay_scan L) in
  width ← pageWidth x (lay_ts L);
  parts ← mapM (drawPartition x) (enumerate (zip (lay_els L) (d_PartialLinearizations <$> data)));
  Some (mkDrawing (drawBackground (nClient data) width label) parts
    (foldr insertByX [] (concat (dp_errors <$> parts)))).
End draw.

(** ** What the page draws

    On the layout of drawable data the drawing is complete, and every linearization point, and every point of an
    operation that could come next, is drawn inside the box of its operation. *)

(** Points [EPSILON] apart, the first on or after [x]. *)
Definition apart (px : Z) (ps : list drawnPoint) : Prop :=
  ∀ k p q, ps !! k = Some p → ps !! S k = Some q → pt_x p + EPSILON px ≤ pt_x q.

(** The point [p] is drawn in the box of its element. *)
Definition inBox (px : Z) (x : gmap Z Z) (p : drawnPoint) : Prop :=
  ∃ left width top, boxAt px x (pt_el p) = Some (left, width, top) ∧ left ≤ pt_x p ≤ left + width.

Record drawnWell (px : Z) (x : gmap Z Z) (loc : located) (d : drawnLin) : Prop := {
  dw_points : length (dl_points d) = length loc.2;
  dw_apart : apart px (dl_points d);
  dw_in : ∀ p, p ∈ dl_points d → inBox px x p;
  dw_next : ∀ i p, (i, p) ∈ dl_next d → absent loc i ∧ idx loc.1 i = Some (pt_el p) ∧ inBox px x p ∧
    ∀ q, last (dl_points d) = Some q → pt_x q + EPSILON px ≤ pt_x p;
}.

Section linearization.
Context (px : Z) (x : gmap Z Z) (loc : located).
Context (Hpos : ∀ el, el ∈ loc.1 → is_Some (x !! el_Start el) ∧ is_Some (x !! el_End el)).
Context (Hle : ∀ el, el ∈ loc.1 → posAt x (el_Start el) ≤ posAt x (el_End el)).
Context (Hknown : ∀ s, s ∈ loc.2 → is_Some (idx loc.1 (Index s))).

Local Abbreviation off := (PADDING px + XOFF px).

Lemma length_startsIn loc' : length (startsIn loc') = length loc'.2.
Proof. unfold startsIn. by rewrite length_fmap. Qed.

Lemma startsIn_snoc hist X s el : idx hist (Index s) = Some el →
  startsIn (hist, X ++ [s]) = startsIn (hist, X) ++ [el_Start el].
Proof. intros H. unfold startsIn. cbn [fst snd]. rewrite fmap_app. simpl. by rewrite H. Qed.

(** The points drawn so far are the leftmost ones. *)
Record drawnUpTo (X : list linearizationStep) (d : drawnLin) : Prop := {
  du_x : pt_x <$> dl_points d = (λ q, off + q) <$> greedy px (posAt x) None (startsIn (loc.1, X));
  du_el : ∀ k p, dl_points d !! k = Some p → ∃ s, X !! k = Some s ∧ idx loc.1 (Index s) = Some (pt_el p);
  du_next : dl_next d = [];
}.

Lemma drawStep_ok X s Y d : loc.2 = X ++ s :: Y → drawnUpTo X d →
  ∃ d', drawStep px x loc.1 d s = Some d' ∧ drawnUpTo (X ++ [s]) d'.
Proof.
  intros E [Hx Hel Hnext]. destruct (Hknown s) as [el Hs]; [rewrite E; set_solver|].
  destruct (Hpos el) as [[v Hv] _]; [by eapply idx_elem_of|]. unfold drawStep. rewrite Hs. cbn [mbind option_bind].
  unfold pointAt. rewrite Hv. cbn [mbind option_bind]. eexists. split; [done|].
  assert (length (dl_points d) = length X) as Hlen.
  { apply (f_equal length) in Hx. rewrite !length_fmap, length_greedy, length_startsIn in Hx. done. }
  split; cbn [dl_points dl_next]; [| |done].
  - rewrite fmap_app, Hx, (startsIn_snoc _ _ _ _ Hs), greedy_snoc, fmap_app. f_equal. cbn [fmap list_fmap pt_x]. f_equal.
    assert (posAt x (el_Start el) = v) as -> by (unfold posAt; by rewrite Hv).
    apply (f_equal last) in Hx. rewrite !fmap_last in Hx.
    destruct (last (dl_points d)) as [p|], (last (greedy _ _ _ _)) as [q|]; simpl in Hx; try done; unfold pointAfter;
      try (injection Hx as Hx); lia.
  - intros k p [[Hk Hp]|[-> <-]]%lookup_snoc_Some; [|exists s; by rewrite Hlen, list_lookup_middle].
    destruct (Hel k p Hp) as (s' & Hs' & ?). exists s'. split; [|done]. by apply lookup_app_l_Some.
Qed.

Lemma drawSteps_ok : ∃ d, foldM (drawStep px x loc.1) loc.2 (mkDrawn [] [] []) = Some d ∧ drawnUpTo loc.2 d.
Proof. apply foldM_prefix; [split; [done..|]; done|]. intros X s Y d E. by eapply drawStep_ok. Qed.

(** A point is not left of its box, and the boxes hold what they were laid out for. *)
Lemma greedy_lower y prev l k s q : l !! k = Some s → greedy px y prev l !! k = Some q → y s ≤ q.
Proof.
  revert prev k. induction l as [|a l IH]; intros prev [|k] Hs Hq; simpl in *; simplify_eq; [|by eapply IH].
  unfold pointAfter. destruct prev; lia.
Qed.

Lemma greedy_apart y prev l k p q : greedy px y prev l !! k = Some p → greedy px y prev l !! S k = Some q → p + EPSILON px ≤ q.
Proof.
  revert prev k. induction l as [|a l IH]; intros prev [|k] Hp Hq; simpl in *; simplify_eq; [|by eapply IH].
  destruct l as [|b l]; simpl in Hq; [done|]. injection Hq as <-. simpl. lia.
Qed.

(** The points of the elements that could come next. *)
Record nextUpTo (d0 : drawnLin) (prev : drawnPoint) (X : list (Z * pageEl)) (d : drawnLin) : Prop := {
  nu_points : dl_points d = dl_points d0;
  nu_next : ∀ i p, (i, p) ∈ dl_next d → (i, pt_el p) ∈ X ∧ startsBefore (pt_el p) (minEnd (notIncluded loc.1 loc.2)) = true ∧
    pt_x p = Z.max (off + posAt x (el_Start (pt_el p))) (pt_x prev + EPSILON px);
}.

Lemma drawNext_ok d0 prev X ip Y d : notIncluded loc.1 loc.2 = X ++ ip :: Y → last (dl_points d0) = Some prev →
  nextUpTo d0 prev X d →
  ∃ d', drawNext px x (minEnd (notIncluded loc.1 loc.2)) d ip = Some d' ∧ nextUpTo d0 prev (X ++ [ip]) d'.
Proof.
  intros E Hprev [Hp Hn]. unfold drawNext. destruct (startsBefore ip.2 _) eqn:Hst.
  2:{ exists d. split; [done|]. split; [done|]. intros i p Hin. destruct (Hn i p Hin) as (? & ? & ?). split_and!; [set_solver|done..]. }
  destruct ip as [i el]. cbn [fst snd] in *.
  assert (el ∈ loc.1) as Hel.
  { assert ((i, el) ∈ notIncluded loc.1 loc.2) as [He _]%elem_notIncluded by (rewrite E; set_solver). by eapply idx_elem_of. }
  destruct (Hpos el Hel) as [[v Hv] _]. unfold pointAt. rewrite Hv, Hp, Hprev. cbn [mbind option_bind].
  eexists. split; [done|]. split; [done|]. cbn [dl_next].
  intros j q [Hin|Hin%list_elem_of_singleton]%elem_of_app.
  - destruct (Hn j q Hin) as (? & ? & ?). split_and!; [set_solver|done..].
  - injection Hin as -> ->. cbn [pt_el pt_x]. split_and!; [set_solver|done|]. unfold posAt. by rewrite Hv.
Qed.

Lemma inBox_between p : pt_el p ∈ loc.1 →
  off + posAt x (el_Start (pt_el p)) ≤ pt_x p ≤ off + posAt x (el_End (pt_el p)) → inBox px x p.
Proof.
  intros Hel Hp. destruct (Hpos _ Hel) as [[v Hv] [w Hw]]. unfold posAt in Hp. rewrite Hv, Hw in Hp. simpl in Hp.
  unfold inBox, boxAt. rewrite Hv, Hw. cbn [mbind option_bind]. eexists _, _, _. split; [done|]. lia.
Qed.

Lemma drawLin_ok textWidth els locs ts : loc ∈ locs → loc.2 ≠ [] →
  criteria px textWidth els locs ts (posAt x) →
  ∃ d, drawLin px x loc.1 loc.2 = Some d ∧ drawnWell px x loc d.
Proof.
  intros Hloc Hne Hcr. destruct drawSteps_ok as (d0 & E0 & [Hx Hel Hnx]). unfold drawLin. rewrite E0. cbn [mbind option_bind].
  assert (length (dl_points d0) = length loc.2) as Hlen.
  { apply (f_equal length) in Hx. rewrite !length_fmap, length_greedy, length_startsIn in Hx. done. }
  assert (∃ prev, last (dl_points d0) = Some prev) as [prev Hprev].
  { destruct (last (dl_points d0)) as [q|] eqn:El; [by exists q|]. apply last_None in El. rewrite El in Hlen. by destruct loc.2. }
  assert (∀ k p, dl_points d0 !! k = Some p → ∃ q, greedy px (posAt x) None (startsIn loc) !! k = Some q ∧ pt_x p = off + q) as Hq.
  { intros k p Hp. apply (f_equal (.!! k)) in Hx. rewrite !list_lookup_fmap, Hp in Hx. destruct loc as [hist lin].
    destruct (greedy _ _ _ _ !! k) as [q|] eqn:Eq; simpl in Hx; [|done]. injection Hx as Hx. cbn [fst snd] in Eq. eauto. }
  destruct (foldM_prefix (nextUpTo d0 prev) (drawNext px x (minEnd (notIncluded loc.1 loc.2))) (notIncluded loc.1 loc.2) d0)
    as (d & -> & [Hp Hn]).
  { split; [done|]. rewrite Hnx. set_solver. }
  { intros X ip Y d E. by eapply drawNext_ok. }
  exists d. split; [done|]. split; rewrite ?Hp.
  - done.
  - intros k p q Hk Hk'. destruct (Hq k p Hk) as (a & Ha & ->), (Hq _ q Hk') as (b & Hb & ->).
    pose proof (greedy_apart _ _ _ _ _ _ Ha Hb). lia.
  - intros p [k Hk]%list_elem_of_lookup. destruct (Hel k p Hk) as (s & Hs & He). destruct (Hq k p Hk) as (a & Ha & Epx).
    apply inBox_between; [by eapply idx_elem_of|]. rewrite Epx. split.
    + apply Zplus_le_compat_l. eapply greedy_lower; [|exact Ha]. unfold startsIn. by rewrite list_lookup_fmap, Hs; simpl; rewrite He.
    + apply Zplus_le_compat_l. by eapply (cr_point _ _ _ _ _ _ Hcr).
  - intros i p Hin. destruct (Hn i p Hin) as ([He Hab]%elem_notIncluded & Hst & Epx). split; [done|]. split; [done|].
    split; [|intros q Hq'; rewrite Hprev in Hq'; injection Hq' as <-; lia].
    apply inBox_between; [by eapply idx_elem_of|]. rewrite Epx. split; [lia|].
    rewrite last_lookup in Hprev. destruct (Hq _ prev Hprev) as (a & Ha & Ep).
    pose proof (cr_next _ _ _ _ _ _ Hcr loc i (pt_el p) a Hloc He Hab) as Hnext.
    assert (a + EPSILON px ≤ posAt x (el_End (pt_el p))) as Hend.
    { apply Hnext.
      - intros j el' Hj Hab'. apply (proj1 (minEnd_spec _ _) Hst (j, el')). by apply elem_notIncluded.
      - by rewrite last_lookup, length_greedy, length_startsIn, <-Hlen. }
    pose proof (Hle (pt_el p) ltac:(by eapply idx_elem_of)). lia.
Qed.
End linearization.

(** ** A partition *)

(** The note [lg] of an operation that could come next: a longest linearization it could follow. *)
Definition notesOf (done : list (Z * (list linearizationStep * drawnLin))) (lg : gmap Z Z * gmap Z Z) : Prop := ∀ i,
  match lg.1 !! i, lg.2 !! i with
  | Some len, Some k => (∃ p, p ∈ done ∧ p.1 = k ∧ zlen p.2.1 = len ∧ i ∈ (dl_next p.2.2).*1) ∧
      ∀ p, p ∈ done → i ∈ (dl_next p.2.2).*1 → zlen p.2.1 ≤ len
  | None, None => ∀ p, p ∈ done → i ∉ (dl_next p.2.2).*1
  | _, _ => False
  end.

Lemma noteIllegal_fold k len is_ lg i :
  let lg' := foldl (noteIllegal k len) lg is_ in
  (lg'.1 !! i, lg'.2 !! i) =
    if bool_decide (i ∈ is_) && match lg.1 !! i with None => true | Some l => l <? len end
    then (Some len, Some k) else (lg.1 !! i, lg.2 !! i).
Proof.
  cbv zeta. revert lg. induction is_ as [|j is_ IH]; intros lg; cbn [foldl]; [done|]. rewrite IH. clear IH.
  unfold noteIllegal. destruct (decide (i = j)) as [->|Hne].
  - rewrite (bool_decide_eq_true_2 (j ∈ j :: is_)) by set_solver. cbn [andb].
    destruct (lg.1 !! j) as [l|] eqn:E; [destruct (l <? len) eqn:El|]; cbn [fst snd].
    + rewrite !lookup_insert_eq, Z.ltb_irrefl, andb_false_r. done.
    + by rewrite E, El, andb_false_r.
    + rewrite !lookup_insert_eq, Z.ltb_irrefl, andb_false_r. done.
  - assert (bool_decide (i ∈ j :: is_) = bool_decide (i ∈ is_)) as -> by (apply bool_decide_ext; set_solver).
    destruct (match lg.1 !! j with None => true | Some l => l <? len end); cbn [fst snd]; [|done].
    by rewrite !lookup_insert_ne by done.
Qed.

Lemma notesOf_snoc done k lin d lg : notesOf done lg →
  notesOf (done ++ [(k, (lin, d))]) (foldl (noteIllegal k (zlen lin)) lg (dl_next d).*1).
Proof.
  intros H i. specialize (H i). pose proof (noteIllegal_fold k (zlen lin) (dl_next d).*1 lg i) as E. cbv zeta in E.
  pose proof (f_equal fst E) as E1. pose proof (f_equal snd E) as E2. cbn [fst snd] in E1, E2. rewrite E1, E2. clear E E1 E2.
  assert (∀ p, p ∈ done ++ [(k, (lin, d))] ↔ p ∈ done ∨ p = (k, (lin, d))) as Hin by set_solver.
  destruct (bool_decide (i ∈ (dl_next d).*1)) eqn:Hi; cbn [andb];
    [apply bool_decide_eq_true in Hi|apply bool_decide_eq_false in Hi].
  - destruct (lg.1 !! i) as [l|] eqn:E1, (lg.2 !! i) as [k'|] eqn:E2; try done.
    + destruct H as [(p & Hp & H1 & H2 & H3) Hmax]. destruct (l <? zlen lin) eqn:El; bool_simpl; cbn [fst snd]; rewrite ?E1, ?E2.
      * split; [exists (k, (lin, d)); rewrite Hin; auto|]. intros q [Hq| ->]%Hin Hiq; [specialize (Hmax q Hq Hiq); lia|done].
      * split; [exists p; rewrite Hin; auto|]. intros q [Hq| ->]%Hin Hiq; [by apply Hmax|done].
    + cbn [fst snd]. split; [exists (k, (lin, d)); rewrite Hin; auto|]. intros q [Hq| ->]%Hin Hiq; [by destruct (H q Hq)|done].
  - cbn [fst snd]. destruct (lg.1 !! i) as [l|], (lg.2 !! i) as [k'|]; try done.
    + destruct H as [(p & Hp & H1) Hmax]. split; [exists p; rewrite Hin; auto|]. intros q [Hq| ->]%Hin Hiq; [by apply Hmax|done].
    + intros q [Hq| ->]%Hin; [by apply H|done].
Qed.

Lemma largestIllegal_spec lins drawn i :
  match largestIllegal lins drawn !! i with
  | Some k => ∃ lin d, idx lins k = Some lin ∧ idx drawn k = Some d ∧ i ∈ (dl_next d).*1 ∧
      ∀ k' lin' d', idx lins k' = Some lin' → idx drawn k' = Some d' → i ∈ (dl_next d').*1 → zlen lin' ≤ zlen lin
  | None => ∀ k lin d, idx lins k = Some lin → idx drawn k = Some d → i ∉ (dl_next d).*1
  end.
Proof.
  unfold largestIllegal. set (l := enumerate (zip lins drawn)).
  assert (∀ k lin d, (k, (lin, d)) ∈ l ↔ idx lins k = Some lin ∧ idx drawn k = Some d) as Hl.
  { intros k lin d. unfold l. rewrite elem_enumerate, !idx_Some, lookup_zip_Some. tauto. }
  assert (∀ X Y lg, l = X ++ Y → notesOf X lg → notesOf l (foldl (λ lg (p : Z * (list linearizationStep * drawnLin)),
    foldl (noteIllegal p.1 (zlen p.2.1)) lg (dl_next p.2.2).*1) lg Y)) as Hfold.
  { intros X Y. revert X. induction Y as [|[k [lin d]] Y IH]; intros X lg E HX; [by rewrite E, app_nil_r|].
    cbn [foldl]. apply (IH (X ++ [(k, (lin, d))])); [by rewrite <-app_assoc|by apply notesOf_snoc]. }
  specialize (Hfold [] l (∅, ∅) eq_refl ltac:(intros j; simpl; rewrite !lookup_empty; set_solver) i).
  destruct (foldl _ _ l) as [a b]. cbn [fst snd] in *. destruct (a !! i) as [len|], (b !! i) as [k|]; try done.
  - destruct Hfold as [([k' [lin d]] & Hp & <- & <- & Hi) Hmax]. cbn [fst snd] in *. apply Hl in Hp as [H1 H2].
    exists lin, d. split_and!; [done..|]. intros k1 lin1 d1 Hk1 Hd1 Hi1. by apply (Hmax (k1, (lin1, d1))); [apply Hl|].
  - intros k lin d Hk Hd. by apply (Hfold (k, (lin, d))), Hl.
Qed.

(** ** The drawing *)

Lemma mapM_all {A B} (f : A → option B) (P : A → B → Prop) l :
  (∀ x, x ∈ l → ∃ y, f x = Some y ∧ P x y) → ∃ ys, mapM f l = Some ys ∧ Forall2 P l ys.
Proof.
  induction l as [|x l IH]; intros H; [exists []; split; [done|constructor]|].
  destruct (H x) as (y & Ey & Hy); [set_solver|]. destruct IH as (ys & Eys & Hys); [set_solver|].
  exists (y :: ys). cbn [mapM]. rewrite Ey, Eys. split; [done|by constructor].
Qed.

(** The error points of a linearization select its last element. *)
Definition errorOf (partition : Z) (lins : list (list linearizationStep)) (e : errorPoint) : Prop :=
  er_partition e = partition ∧ ∃ lin s, idx lins (er_layer e) = Some lin ∧ last lin = Some s ∧ Index s = er_index e.

(** The partition is drawn with a point for every step, every point in its box, and its notes. *)
Record partitionDrawn (px : Z) (x : gmap Z Z) (partition : Z) (hist : list pageEl) (lins : list (list linearizationStep))
    (d : drawnPartition) : Prop := {
  pd_boxes : length (dp_boxes d) = length hist;
  pd_lins : Forall2 (λ lin, drawnWell px x (hist, lin)) lins (dp_lins d);
  pd_illegal : dp_illegal d = largestIllegal lins (dp_lins d);
  pd_errors : ∀ e, e ∈ dp_errors d → errorOf partition lins e;
}.

Lemma errorsOf_ok partition k lin d : lin ≠ [] → ∃ es, errorsOf partition k lin d = Some es ∧
  ∀ e, e ∈ es → er_partition e = partition ∧ er_layer e = k ∧ ∃ s, last lin = Some s ∧ Index s = er_index e.
Proof.
  intros Hne. destruct (last lin) as [s|] eqn:El; [|by apply last_None in El].
  destruct (mapM_all (λ ip : Z * drawnPoint, s ← last lin; Some (mkErrorPoint (pt_x ip.2) partition (Index s) k))
    (λ _ e, er_partition e = partition ∧ er_layer e = k ∧ Index s = er_index e) (dl_next d)) as (es & E & Hes).
  { intros ip _. rewrite El. cbn [mbind option_bind]. eexists. split; [done|]. done. }
  exists es. split; [exact E|]. intros e [i Hi]%list_elem_of_lookup. destruct (Forall2_lookup_r _ _ _ _ _ Hes Hi) as (_ & _ & ? & ? & ?). eauto.
Qed.

Section whole.
Context (px : Z) (textWidth : string → Z) (data : list partitionVisualizationData) (Hpx : 0 < px) (Hd : drawable data).
Context (L : pageLayout) (HL : layout px textWidth data = Some L) (Hleast : leastLayout px textWidth data L).
Let x := xPos (lay_scan L).
Let lins := d_PartialLinearizations <$> data.

Lemma layout_prepared : lay_els L = (prepare (d_History <$> data)).1 ∧ lay_ts L = (prepare (d_History <$> data)).2.
Proof. unfold layout in HL. destruct (prepare _) as [els ts]. revert HL. intros H. inv_bind H. injection H as <-. done. Qed.

Lemma layout_length : length (lay_els L) = length data.
Proof.
  destruct layout_prepared as [-> _]. unfold prepare. cbn [fst]. rewrite length_map, <-(length_fmap d_History data).
  generalize 0. induction (d_History <$> data) as [|h hs IH]; intros g; [done|]. simpl. by rewrite IH.
Qed.

Lemma el_positions el : el ∈ concat (lay_els L) → is_Some (x !! el_Start el) ∧ is_Some (x !! el_End el) ∧
  posAt x (el_Start el) ≤ posAt x (el_End el).
Proof.
  intros Hel. destruct layout_prepared as [E1 E2].
  destruct (noteLinearizations_ok _ _ (locs_ok data Hd)) as (t & _ & Ht). pose proof (drawable_scannable data Hd t Ht) as Hsc.
  rewrite <-E1, <-E2 in Hsc. pose proof (sc_start _ _ _ Hsc el Hel) as Hs. pose proof (sc_end _ _ _ Hsc el Hel) as He.
  split_and!; [by apply (ll_times _ _ _ _ Hleast)|by apply (ll_times _ _ _ _ Hleast)|].
  pose proof (cr_gap _ _ _ _ _ _ (ll_criteria _ _ _ _ Hleast) _ _ Hs He (sc_lasts _ _ _ Hsc el Hel)). unfold BOX_GAP, x in *. lia.
Qed.

Lemma drawPartition_ok p hist ls : zip (lay_els L) lins !! p = Some (hist, ls) →
  ∃ d, drawPartition px x (Z.of_nat p, (hist, ls)) = Some d ∧ partitionDrawn px x (Z.of_nat p) hist ls d.
Proof.
  intros Hp. assert (∀ lin, lin ∈ ls → (hist, lin) ∈ locateAll (lay_els L) lins) as Hloc.
  { intros lin Hlin. unfold locateAll. apply elem_concat. exists (pair hist <$> ls). split; [|by apply list_elem_of_fmap_2].
    apply list_elem_of_fmap. exists (hist, ls). split; [done|by eapply list_elem_of_lookup_2]. }
  assert (∀ el, el ∈ hist → el ∈ concat (lay_els L)) as Hin.
  { intros el Hel. apply lookup_zip_Some in Hp as [Hh _]. apply elem_concat. exists hist. split; [by eapply list_elem_of_lookup_2|done]. }
  destruct (mapM_all (drawElement px x) (λ _ _, True) hist) as (boxes & Eb & Hb).
  { intros el Hel%Hin. destruct (el_positions el Hel) as ([v Hv] & [w Hw] & _). unfold drawElement, boxAt. rewrite Hv, Hw. by eexists. }
  assert (∀ lin, lin ∈ ls → lin ≠ [] ∧ ∀ s, s ∈ lin → is_Some (idx hist (Index s))) as Hord.
  { intros lin Hlin. destruct layout_prepared as [E1 _]. pose proof (Hloc lin Hlin) as H. rewrite E1 in H.
    destruct (locs_elem data Hd _ H) as (part & Hpart & Hl & _ & _ & _). split; [apply (dr_order _ Hd part _ Hpart Hl)|].
    exact (proj1 (locs_ok data Hd _ H)). }
  destruct (mapM_all (drawLin px x hist) (λ lin, drawnWell px x (hist, lin)) ls) as (drawn & Ed & Hdrawn).
  { intros lin Hlin. destruct (Hord lin Hlin) as [Hne Hk].
    apply (drawLin_ok px x (hist, lin)) with textWidth (lay_els L) (locateAll (lay_els L) lins) (lay_ts L); [..|by apply Hloc|done|apply Hleast].
    - intros el Hel%Hin. by destruct (el_positions el Hel) as (? & ? & _).
    - intros el Hel%Hin. by destruct (el_positions el Hel) as (_ & _ & ?).
    - done. }
  destruct (mapM_all (λ q : Z * (list linearizationStep * drawnLin), errorsOf (Z.of_nat p) q.1 q.2.1 q.2.2)
    (λ q es, ∀ e, e ∈ es → errorOf (Z.of_nat p) ls e) (enumerate (zip ls drawn))) as (es & Ee & He).
  { intros [k [lin d]] [Hk Hz]%elem_enumerate%idx_Some. apply lookup_zip_Some in Hz as [Hlin _]. cbn [fst snd].
    destruct (errorsOf_ok (Z.of_nat p) k lin d) as (es & Ees & Hes); [apply Hord; by eapply list_elem_of_lookup_2|].
    exists es. split; [done|]. intros e (E1 & <- & s & Hs & Hi)%Hes. split; [done|]. exists lin, s. split; [by apply idx_Some|done]. }
  unfold drawPartition. rewrite Eb, Ed. cbn [mbind option_bind]. rewrite Ee. cbn [mbind option_bind]. eexists. split; [done|].
  split; cbn [dp_boxes dp_lins dp_illegal dp_errors]; [rewrite length_fmap; symmetry; by eapply Forall2_length|done|done|].
  intros e (l & [i Hi]%list_elem_of_lookup & Hl)%elem_concat. destruct (Forall2_lookup_r _ _ _ _ _ He Hi) as (q & _ & H). by apply H.
Qed.

Lemma insertByX_perm e l : insertByX e l ≡ₚ e :: l.
Proof. induction l as [|e' l IH]; simpl; [done|]. case_match; [done|]. rewrite IH. apply Permutation_swap. Qed.

Lemma insertByX_sorted e l : StronglySorted (λ a b, er_x a ≤ er_x b) l → StronglySorted (λ a b, er_x a ≤ er_x b) (insertByX e l).
Proof.
  induction 1 as [|e' l Hs IH Hall]; simpl; [by repeat constructor|]. case_match; bool_simpl.
  - constructor; [by constructor|]. constructor; [done|]. eapply Forall_impl; [exact Hall|]. simpl. lia.
  - constructor; [done|]. rewrite insertByX_perm. constructor; [lia|done].
Qed.

(** The whole page: every partition is drawn, and the error points come from left to right. *)
Record pageDrawn (D : drawing) : Prop := {
  pg_parts : ∀ p hist ls, lay_els L !! p = Some hist → lins !! p = Some ls →
    ∃ d, dr_partitions D !! p = Some d ∧ partitionDrawn px x (Z.of_nat p) hist ls d;
  pg_count : length (dr_partitions D) = length data;
  pg_sorted : StronglySorted (λ a b, er_x a ≤ er_x b) (dr_errors D);
  pg_errors : ∀ e, e ∈ dr_errors D ↔ ∃ d, d ∈ dr_partitions D ∧ e ∈ dp_errors d;
}.

Lemma draw_ok label : ∃ D, draw px label data L = Some D ∧ pageDrawn D.
Proof.
  unfold draw. fold x. fold lins.
  assert (∃ w, pageWidth px x (lay_ts L) = Some w) as [w ->].
  { unfold pageWidth. destruct (last (lay_ts L)) as [t|] eqn:El; [|by eexists]. rewrite last_lookup in El.
    apply list_elem_of_lookup_2, (ll_times _ _ _ _ Hleast) in El as [v Hv]. unfold x. rewrite Hv. by eexists. }
  cbn [mbind option_bind].
  destruct (mapM_all (drawPartition px x) (λ q, partitionDrawn px x q.1 q.2.1 q.2.2) (enumerate (zip (lay_els L) lins)))
    as (parts & -> & Hparts).
  { intros [k [hist ls]] [Hk Hz]%elem_enumerate%idx_Some. destruct (drawPartition_ok _ _ _ Hz) as (d & E & H).
    rewrite Z2Nat.id in E, H by done. eauto. }
  cbn [mbind option_bind]. eexists. split; [done|].
  pose proof layout_length as Hlen.
  split; cbn [dr_partitions dr_errors].
  - intros p hist ls Hh Hl. assert (enumerate (zip (lay_els L) lins) !! p = Some (Z.of_nat p, (hist, ls))) as Hp.
    { unfold enumerate. rewrite list_lookup_imap. assert (zip (lay_els L) lins !! p = Some (hist, ls)) as ->; [|done].
      by apply lookup_zip_Some. }
    destruct (Forall2_lookup_l _ _ _ _ _ Hparts Hp) as (d & Hdp & H). eauto.
  - rewrite <-(Forall2_length _ _ _ Hparts). unfold enumerate. rewrite length_imap, length_zip_with, Hlen. unfold lins. rewrite length_fmap. lia.
  - induction (concat (dp_errors <$> parts)) as [|e l IH]; simpl; [constructor|by apply insertByX_sorted].
  - intros e. assert (foldr insertByX [] (concat (dp_errors <$> parts)) ≡ₚ concat (dp_errors <$> parts)) as ->.
    { induction (concat (dp_errors <$> parts)) as [|e' l IH]; simpl; [done|]. by rewrite insertByX_perm, IH. }
    rewrite elem_concat. setoid_rewrite list_elem_of_fmap. naive_solver.
Qed.
End whole.
