(* ===== verification/VisPageView.v ===== *)
(** * The script of the visualization page: the handlers

    The rest of [render]: what the page shows and how the mouse changes it.  The state is what the handlers
    keep ([selected], [selectedIndex], [lastTooltip]) and what they write into the document: the layers
    that are hidden, the rectangles marked as selected, the tooltip and the link that jumps to an error.
    [None] is a [TypeError].  Whatever the mouse does, no handler fails and what is
    shown fits what is selected. *)

From S2P Require Import Prelude Decimal Bitset Porcupine Visualization VisPage VisPageDraw VisualizationFacts VisPageFacts VisPageLayout.
Open Scope go_scope.

(** What the handlers read: the data, [largestIllegal], [illegalLast] and [errorPoints]. *)
Record picture := mkPicture {
  pc_data : list partitionVisualizationData;
  pc_illegal : list (gmap Z Z);
  pc_next : list (list (gset Z));
  pc_errors : list errorPoint;
}.

Definition pictureOf (data : list partitionVisualizationData) (D : drawing) : picture :=
  mkPicture data (dp_illegal <$> dr_partitions D)
    ((λ d, (λ l, list_to_set (dl_next l).*1) <$> dp_lins d) <$> dr_partitions D) (dr_errors D).

(** [lastTooltip] is [None] for the array of nulls; [jump] is the point the link jumps to, [None] when it is inactive. *)
Record view := mkView {
  selected : bool;
  selectedIndex : Z * Z;
  layerHidden : list bool;
  linHidden : list (list bool);
  rectSelected : gset (Z * Z);
  tipShown : bool;
  tipText : string;
  tipAt : Z * Z;
  lastTooltip : option (Z * Z * bool * Z * Z);
  jump : option errorPoint;
}.

Definition set_layers (h : list bool) (l : list (list bool)) (v : view) : view :=
  mkView (selected v) (selectedIndex v) h l (rectSelected v) (tipShown v) (tipText v) (tipAt v) (lastTooltip v) (jump v).
Definition set_jump (j : option errorPoint) (v : view) : view :=
  mkView (selected v) (selectedIndex v) (layerHidden v) (linHidden v) (rectSelected v) (tipShown v) (tipText v) (tipAt v) (lastTooltip v) j.
Definition set_selected (b : bool) (i : Z * Z) (r : gset (Z * Z)) (v : view) : view :=
  mkView b i (layerHidden v) (linHidden v) r (tipShown v) (tipText v) (tipAt v) (lastTooltip v) (jump v).
Definition set_shown (b : bool) (last : option (Z * Z * bool * Z * Z)) (v : view) : view :=
  mkView (selected v) (selectedIndex v) (layerHidden v) (linHidden v) (rectSelected v) b (tipText v) (tipAt v) last (jump v).
Definition set_tip (t : string) (at_ : Z * Z) (last : option (Z * Z * bool * Z * Z)) (v : view) : view :=
  mkView (selected v) (selectedIndex v) (layerHidden v) (linHidden v) (rectSelected v) (tipShown v) t at_ last (jump v).

Section view.
Context (pic : picture).

(** [function linearizationIndex(partition, index)]; the inner [None] is [null]. *)
Definition linearizationIndex (partition index : Z) : option (option Z) :=
  part ← idx (pc_data pic) partition;
  match d_Largest part !! index with
  | Some k => Some (Some k)
  | None => ill ← idx (pc_illegal pic) partition; Some (ill !! index)
  end.

(** [function updateJump()]: the first error point whose layer is not hidden. *)
Definition isVisible (hidden : list (list bool)) (e : errorPoint) : bool :=
  match ls ← idx hidden (er_partition e); idx ls (er_layer e) with Some b => negb b | None => false end.
Definition firstVisible (hidden : list (list bool)) : option errorPoint :=
  List.find (isVisible hidden) (pc_errors pic).
Definition updateJump (v : view) : view := set_jump (firstVisible (linHidden v)) v.

(** [function highlight(partition, index)] *)
Definition onlyLayer {A} (partition : Z) (layers : list A) : list bool :=
  imap (λ i _, negb (Z.of_nat i =? partition)) layers.
Definition highlight (partition index : Z) (v : view) : option view :=
  let hidden := map (map (λ _, true)) (linHidden v) in
  maxIndex ← linearizationIndex partition index;
  hidden' ← match maxIndex with
            | Some k => ls ← idx hidden partition; ls' ← upd ls k false; upd hidden partition ls'
            | None => Some hidden
            end;
  Some (updateJump (set_layers (onlyLayer partition (layerHidden v)) hidden' v)).

(** [function resetHighlight()]: all histories, and the first linearization of each partition. *)
Definition resetHighlight (v : view) : view :=
  updateJump (set_layers (map (λ _, false) (layerHidden v))
    (map (imap (λ i _, negb (Nat.eqb i 0))) (linHidden v)) v).

(** [historyRects[partition][index].classList.add('selected')] and [.remove('selected')]; there is a
    rectangle for each element of a history. *)
Definition historyRect (i : Z * Z) : option historyElement := part ← idx (pc_data pic) i.1; idx (d_History part) i.2.
Definition markRect (i : Z * Z) (v : view) : option view :=
  _ ← historyRect i; Some (set_selected (selected v) (selectedIndex v) (rectSelected v ∪ {[i]}) v).
Definition unmarkRect (i : Z * Z) (v : view) : option view :=
  _ ← historyRect i; Some (set_selected (selected v) (selectedIndex v) (rectSelected v ∖ {[i]}) v).

(** [function select(partition, index)] and [function deselect()] *)
Definition select (partition index : Z) (v : view) : option view :=
  v' ← highlight partition index (set_selected true (partition, index) (rectSelected v) v);
  markRect (partition, index) v'.
Definition deselect (v : view) : option view :=
  if selected v then
    let v' := resetHighlight (set_selected false (selectedIndex v) (rectSelected v) v) in
    unmarkRect (selectedIndex v') v'
  else Some v.

(** ** The tooltip *)

(** The step of a linearization that is element [index], with the one before it. *)
Fixpoint findStep (prev : option linearizationStep) (lin : list linearizationStep) (index : Z)
    : option (option linearizationStep * linearizationStep) :=
  match lin with
  | [] => None
  | s :: lin' => if Index s =? index then Some (prev, s) else findStep (Some s) lin' index
  end.

(** The text for element [index] of [partition], when linearization [maxIndex] is shown. *)
Definition tooltipText (sel : bool) (sPartition partition index : Z) (maxIndex : option Z) : option string :=
  if sel && negb (sPartition =? partition) then Some "Not part of selected partition." else
  match maxIndex with
  | None => Some (if sel then "Selected element is not part of any partial linearization."
                  else "Not part of any partial linearization.")
  | Some k =>
      part ← idx (pc_data pic) partition;
      lin ← idx (d_PartialLinearizations part) k;
      el ← idx (d_History part) index;
      let times := "<br><br>Call: " +:+ Itoa (he_Start el) +:+ "<br><br>Return: " +:+ Itoa (he_End el) in
      match findStep None lin index with
      | Some (prev, curr) =>
          Some (match prev with
                | Some p => "<strong>Previous state:</strong><br>" +:+ StateDescription p +:+ "<br><br>"
                | None => EmptyString
                end +:+ "<strong>New state:</strong><br>" +:+ StateDescription curr +:+ times)
      | None =>
          nexts ← idx (pc_next pic) partition; next ← idx nexts k;
          if bool_decide (index ∈ next) then
            s ← last lin;
            Some ("<strong>Previous state:</strong><br>" +:+ StateDescription s +:+
                  "<br><br><strong>New state:</strong><br>&langle;invalid op&rangle;" +:+ times)
          else Some "Not part of selected element's partial linearization."
      end
  end.

(** ** The handlers *)

Definition handleMouseOver (partition index : Z) (v : view) : option view :=
  v' ← (if selected v then Some v else highlight partition index v);
  Some (set_shown true (lastTooltip v') v').

Definition handleMouseMove (partition index pageX pageY : Z) (v : view) : option view :=
  let '(sPartition, sIndex) := selectedIndex v in
  let thisTooltip := Some (partition, index, selected v, sPartition, sIndex) in
  text ← (if bool_decide (lastTooltip v = thisTooltip) then Some (tipText v) else
          maxIndex ← (if selected v then linearizationIndex sPartition sIndex else linearizationIndex partition index);
          tooltipText (selected v) sPartition partition index maxIndex);
  Some (set_tip text (pageX + 20, pageY + 20) thisTooltip v).

Definition handleMouseOut (v : view) : view :=
  set_shown false None (if selected v then v else resetHighlight v).

Definition handleClick (partition index : Z) (v : view) : option view :=
  if selected v then
    if bool_decide ((partition, index) = selectedIndex v) then deselect v
    else v' ← unmarkRect (selectedIndex v) v; select partition index v'
  else select partition index v.

Definition handleBgClick (v : view) : option view := deselect v.

(** The handler of the link, which can be clicked when it is active. *)
Definition handleJump (v : view) : option view :=
  point ← jump v;
  if selected v then Some v else select (er_partition point) (er_index point) v.

(** The page when [render] returns. *)
Definition initView : view :=
  handleMouseOut (mkView false (-1, -1) (map (λ _, false) (pc_data pic))
    (map (λ part, map (λ _, false) (d_PartialLinearizations part)) (pc_data pic)) ∅ false EmptyString (0, 0) None None).

(** What the mouse can do. *)
Inductive mouse :=
  | MouseOver (partition index : Z)
  | MouseMove (partition index pageX pageY : Z)
  | MouseOut
  | Click (partition index : Z)
  | BgClick
  | JumpClick.

Definition handle (e : mouse) (v : view) : option view :=
  match e with
  | MouseOver p i => handleMouseOver p i v
  | MouseMove p i x y => handleMouseMove p i x y v
  | MouseOut => Some (handleMouseOut v)
  | Click p i => handleClick p i v
  | BgClick => handleBgClick v
  | JumpClick => handleJump v
  end.
End view.

(** ** The handlers keep the page consistent

    For a picture whose notes point into its data, no handler fails, whatever the mouse does; a
    rectangle is marked exactly when its element is selected; the page shows either everything, with the
    first linearization of each partition, or one partition with the linearization of one element, the
    selected one if there is one; and the link jumps to the first error point that is shown. *)

Section facts.
Context (pic : picture).
Local Abbreviation data := (pc_data pic).

(** Element [i] of partition [p] is on the page. *)
Definition onPage (p i : Z) : Prop := ∃ part, idx data p = Some part ∧ is_Some (idx (d_History part) i).

Record wfPicture : Prop := {
  wp_illegal : length (pc_illegal pic) = length data;
  wp_next : ∀ p part, idx data p = Some part →
    ∃ nexts, idx (pc_next pic) p = Some nexts ∧ length nexts = length (d_PartialLinearizations part);
  wp_index : ∀ p part i k, idx data p = Some part → linearizationIndex pic p i = Some (Some k) →
    0 ≤ k < zlen (d_PartialLinearizations part);
  wp_lins : ∀ part lin, part ∈ data → lin ∈ d_PartialLinearizations part → lin ≠ [];
  wp_errors : ∀ e, e ∈ pc_errors pic → onPage (er_partition e) (er_index e);
}.

(** What is hidden when linearization [mi] of partition [p] is shown, and in the view of everything. *)
Definition hiddenBut (p : Z) (mi : option Z) : list (list bool) :=
  imap (λ q part, imap (λ k _, negb (bool_decide (Z.of_nat q = p ∧ mi = Some (Z.of_nat k)))) (d_PartialLinearizations part)) data.
Definition hiddenReset : list (list bool) :=
  map (λ part, imap (λ k _, negb (Nat.eqb k 0)) (d_PartialLinearizations part)) data.

(** Exactly the element [(p, i)] is highlighted. *)
Definition highlights (v : view) (p i : Z) : Prop := ∃ mi, onPage p i ∧ linearizationIndex pic p i = Some mi ∧
  layerHidden v = onlyLayer p data ∧ linHidden v = hiddenBut p mi.
Definition showsAll (v : view) : Prop := layerHidden v = map (λ _, false) data ∧ linHidden v = hiddenReset.

(** The text shown over element [(p, i)] when [s] tells whether [(sp, si)] is selected, and that the text
    kept for [lastTooltip] is that text. *)
Definition tipFor (p i : Z) (s : bool) (sp si : Z) : option string :=
  maxIndex ← (if s then linearizationIndex pic sp si else linearizationIndex pic p i);
  tooltipText pic s sp p i maxIndex.
Definition tipRight (v : view) : Prop :=
  match lastTooltip v with Some (p, i, s, sp, si) => tipFor p i s sp si = Some (tipText v) | None => True end.

Record viewOk (v : view) : Prop := {
  vo_rect : rectSelected v = if selected v then {[selectedIndex v]} else ∅;
  vo_show : if selected v then highlights v (selectedIndex v).1 (selectedIndex v).2
            else showsAll v ∨ ∃ p i, highlights v p i;
  vo_jump : jump v = firstVisible pic (linHidden v);
  vo_tip : tipRight v;
}.

(** ** The shape of the layers *)

Definition shaped (v : view) : Prop :=
  length (layerHidden v) = length data ∧ (length <$> linHidden v) = ((λ part, length (d_PartialLinearizations part)) <$> data).

Lemma highlights_shaped v p i : highlights v p i → shaped v.
Proof.
  intros (mi & _ & _ & Hl & Hh). split; [rewrite Hl; unfold onlyLayer; by rewrite length_imap|]. rewrite Hh. unfold hiddenBut.
  rewrite fmap_imap. apply list_eq. intros q. rewrite list_lookup_imap, list_lookup_fmap. destruct (data !! q); simpl; [|done]. by rewrite length_imap.
Qed.

Lemma showsAll_shaped v : showsAll v → shaped v.
Proof.
  intros [Hl Hh]. split; [by rewrite Hl, length_map|]. rewrite Hh. unfold hiddenReset. change (map ?f data) with (f <$> data).
  rewrite <-list_fmap_compose. apply list_fmap_ext. intros q part _. simpl. by rewrite length_imap.
Qed.

Lemma viewOk_shaped v : viewOk v → shaped v.
Proof.
  intros [_ Hs _ _]. destruct (selected v); [by eapply highlights_shaped|]. destruct Hs as [?|(p & i & ?)]; [by apply showsAll_shaped|by eapply highlights_shaped].
Qed.

Lemma reset_shape {A} (h : list (list A)) : (length <$> h) = ((λ part, length (d_PartialLinearizations part)) <$> data) →
  map (imap (λ i _, negb (Nat.eqb i 0))) h = hiddenReset.
Proof.
  unfold hiddenReset. revert h. induction data as [|part l IH]; intros [|a h] E; simpl in *; try done. injection E as E1 E2.
  f_equal; [|by apply IH]. apply list_eq. intros k. rewrite !list_lookup_imap.
  destruct (a !! k) eqn:Ea, (d_PartialLinearizations part !! k) eqn:Eb; try done.
  - apply lookup_lt_Some in Ea. apply lookup_ge_None in Eb. lia.
  - apply lookup_lt_Some in Eb. apply lookup_ge_None in Ea. lia.
Qed.

Lemma onlyLayer_shape {A} p (h : list A) : length h = length data → onlyLayer p h = onlyLayer p data.
Proof.
  intros E. apply list_eq. intros q. unfold onlyLayer. rewrite !list_lookup_imap. destruct (h !! q) eqn:Ea, (data !! q) eqn:Eb; try done.
  - apply lookup_lt_Some in Ea. apply lookup_ge_None in Eb. lia.
  - apply lookup_lt_Some in Eb. apply lookup_ge_None in Ea. lia.
Qed.

Lemma resetHighlight_ok v : shaped v →
  showsAll (resetHighlight pic v) ∧ jump (resetHighlight pic v) = firstVisible pic (linHidden (resetHighlight pic v)) ∧
  selected (resetHighlight pic v) = selected v ∧ selectedIndex (resetHighlight pic v) = selectedIndex v ∧
  rectSelected (resetHighlight pic v) = rectSelected v.
Proof.
  intros [Hl Hh]. unfold showsAll. cbn. split_and!; try done; [|by apply reset_shape].
  revert Hl. generalize data. induction (layerHidden v) as [|b l IH]; intros [|a l'] E; simpl in *; try done. f_equal. apply IH. lia.
Qed.

Lemma shape_lookup (h : list (list bool)) q : (length <$> h) = ((λ part, length (d_PartialLinearizations part)) <$> data) →
  length <$> (h !! q) = (λ part, length (d_PartialLinearizations part)) <$> (data !! q).
Proof. intros E. by rewrite <-!list_lookup_fmap, E. Qed.

(** A layer of a partition in [hiddenBut]. *)
Lemma hidden_layer (a : list bool) (lins : list (list linearizationStep)) :
  length a = length lins → map (λ _, true) a = imap (λ k _, true) lins.
Proof.
  intros E. apply list_eq. intros k. rewrite list_lookup_imap. change (map (λ _, true) a) with ((λ _ : bool, true) <$> a).
  rewrite list_lookup_fmap. destruct (a !! k) eqn:Ea, (lins !! k) eqn:Eb; try done.
  - apply lookup_lt_Some in Ea. apply lookup_ge_None in Eb. lia.
  - apply lookup_lt_Some in Eb. apply lookup_ge_None in Ea. lia.
Qed.

Lemma hiddenBut_none (h : list (list bool)) p :
  (length <$> h) = ((λ part, length (d_PartialLinearizations part)) <$> data) → map (map (λ _, true)) h = hiddenBut p None.
Proof.
  intros Hh. apply list_eq. intros q. change (map (map (λ _, true)) h) with ((map (λ _ : bool, true)) <$> h).
  unfold hiddenBut. rewrite list_lookup_fmap, list_lookup_imap. pose proof (shape_lookup h q Hh) as Hq.
  destruct (h !! q) as [a|], (data !! q) as [part|]; simpl in *; try done. injection Hq as Hq. f_equal.
  rewrite (hidden_layer a (d_PartialLinearizations part) Hq). apply imap_ext. intros k lin _.
  by rewrite bool_decide_false by naive_solver.
Qed.

Lemma hiddenBut_some p k part : idx data p = Some part → 0 ≤ k < zlen (d_PartialLinearizations part) →
  (ls ← idx (hiddenBut p None) p; ls' ← upd ls k false; upd (hiddenBut p None) p ls') = Some (hiddenBut p (Some k)).
Proof.
  intros [Hp Hpart]%idx_Some Hk. set (ls := imap (λ k _, true) (d_PartialLinearizations part)).
  assert (hiddenBut p None !! Z.to_nat p = Some ls) as Hls.
  { unfold hiddenBut. rewrite list_lookup_imap, Hpart. simpl. f_equal. apply imap_ext. intros. by rewrite bool_decide_false by naive_solver. }
  rewrite (proj2 (idx_Some _ _ _) (conj Hp Hls)). cbn [mbind option_bind].
  rewrite (proj2 (upd_Some ls k false (<[Z.to_nat k := false]> ls))) by (unfold ls, zlen in *; rewrite length_imap; done). cbn [mbind option_bind].
  apply upd_Some. split; [apply lookup_lt_Some in Hls; unfold zlen; lia|]. apply list_eq. intros q.
  destruct (decide (q = Z.to_nat p)) as [->|Hne].
  - rewrite list_lookup_insert_eq by (by eapply lookup_lt_Some). unfold hiddenBut. rewrite list_lookup_imap, Hpart. simpl. f_equal.
    apply list_eq. intros j. rewrite list_lookup_imap. destruct (decide (j = Z.to_nat k)) as [->|Hj].
    + rewrite list_lookup_insert_eq by (unfold ls; rewrite length_imap; unfold zlen in Hk; lia).
      destruct (lookup_lt_is_Some_2 (d_PartialLinearizations part) (Z.to_nat k)) as [lin ->]; [unfold zlen in Hk; lia|]. simpl.
      rewrite bool_decide_true; [done|]. split; [lia|f_equal; lia].
    + rewrite list_lookup_insert_ne by done. unfold ls. rewrite list_lookup_imap. destruct (d_PartialLinearizations part !! j); [simpl|done].
      rewrite bool_decide_false; [done|]. intros [_ [= ->]]. lia.
  - rewrite list_lookup_insert_ne by done. unfold hiddenBut. rewrite !list_lookup_imap. destruct (data !! q); simpl; [|done]. f_equal.
    apply imap_ext. intros j lin _. rewrite !bool_decide_false; [done|naive_solver|naive_solver lia].
Qed.

(** ** The operations *)

Lemma onPage_index p i : wfPicture → onPage p i → ∃ mi part, idx data p = Some part ∧ is_Some (idx (d_History part) i) ∧
  linearizationIndex pic p i = Some mi ∧ ∀ k, mi = Some k → 0 ≤ k < zlen (d_PartialLinearizations part).
Proof.
  intros Hwf (part & Hp & Hi). assert (∃ mi, linearizationIndex pic p i = Some mi) as [mi Hmi].
  { unfold linearizationIndex. rewrite Hp. cbn [mbind option_bind]. destruct (d_Largest part !! i); [by eexists|].
    apply idx_Some in Hp as [Hp0 Hp]. apply lookup_lt_Some in Hp. rewrite <-(wp_illegal Hwf) in Hp.
    apply lookup_lt_is_Some_2 in Hp as [ill Hill]. rewrite (proj2 (idx_Some _ _ _) (conj Hp0 Hill)). by eexists. }
  exists mi, part. split_and!; try done. intros k ->. by eapply wp_index.
Qed.

Lemma highlight_ok v p i : wfPicture → shaped v → onPage p i → ∃ v', highlight pic p i v = Some v' ∧ highlights v' p i ∧
  jump v' = firstVisible pic (linHidden v') ∧ selected v' = selected v ∧ selectedIndex v' = selectedIndex v ∧
  rectSelected v' = rectSelected v ∧ lastTooltip v' = lastTooltip v ∧ tipText v' = tipText v.
Proof.
  intros Hwf [Hl Hh] Hpi. destruct (onPage_index p i Hwf Hpi) as (mi & part & Hp & _ & Hmi & Hk).
  assert (match mi with
          | Some k => ls ← idx (hiddenBut p None) p; ls' ← upd ls k false; upd (hiddenBut p None) p ls'
          | None => Some (hiddenBut p None)
          end = Some (hiddenBut p mi)) as E by (destruct mi as [k|]; [by apply (hiddenBut_some p k part Hp), Hk|done]).
  unfold highlight. rewrite Hmi, (hiddenBut_none _ p Hh). cbn [mbind option_bind] in E |- *. rewrite E.
  eexists. split; [reflexivity|]. cbn. split_and!; try done. exists mi. split_and!; try done. by apply onlyLayer_shape.
Qed.

Lemma historyRect_onPage p i : onPage p i → is_Some (historyRect pic (p, i)).
Proof. intros (part & Hp & H). unfold historyRect. cbn [fst snd]. by rewrite Hp. Qed.

Lemma select_ok v p i : wfPicture → shaped v → onPage p i → rectSelected v = ∅ → tipRight v →
  ∃ v', select pic p i v = Some v' ∧ viewOk v'.
Proof.
  intros Hwf Hs Hpi Hr Ht. unfold select.
  destruct (highlight_ok (set_selected true (p, i) (rectSelected v) v) p i Hwf Hs Hpi) as (v' & -> & Hh & Hj & Hsel & Hsi & Hr' & Hl & Htt).
  cbn [mbind option_bind]. unfold markRect. destruct (historyRect_onPage p i Hpi) as [r ->]. cbn [mbind option_bind].
  eexists. split; [reflexivity|]. split; cbn; rewrite ?Hsel, ?Hsi; cbn; [|done|done|].
  - rewrite Hr'. cbn. rewrite Hr. set_solver.
  - unfold tipRight in *. cbn in *. by rewrite Hl, Htt.
Qed.

Lemma selected_onPage v : viewOk v → selected v = true → onPage (selectedIndex v).1 (selectedIndex v).2.
Proof. intros [_ Hh _ _] E. rewrite E in Hh. by destruct Hh as (mi & Ho & _). Qed.

Lemma unmarkRect_ok v v0 : viewOk v → selected v = true →
  unmarkRect pic (selectedIndex v) v0 = Some (set_selected (selected v0) (selectedIndex v0) (rectSelected v0 ∖ {[selectedIndex v]}) v0).
Proof.
  intros Hv E. pose proof (historyRect_onPage _ _ (selected_onPage v Hv E)) as [r Hr]. unfold unmarkRect.
  rewrite <-surjective_pairing in Hr. by rewrite Hr.
Qed.

Lemma deselect_ok v : viewOk v → ∃ v', deselect pic v = Some v' ∧ viewOk v'.
Proof.
  intros Hv. unfold deselect. destruct (selected v) eqn:E; [|by eexists]. cbn [resetHighlight updateJump set_jump set_layers selectedIndex set_selected].
  rewrite (unmarkRect_ok v _ Hv E). eexists. split; [reflexivity|].
  destruct (resetHighlight_ok (set_selected false (selectedIndex v) (rectSelected v) v) (viewOk_shaped v Hv)) as (Ha & Hj' & _).
  destruct Hv as [Hr _ _ Ht]. rewrite E in Hr. split; cbn; [rewrite Hr; set_solver|by left|done|done].
Qed.

(** The text of the tooltip is defined over every element. *)
Lemma tooltip_defined s sp si p i : wfPicture → (s = true → onPage sp si) → onPage p i → is_Some (tipFor p i s sp si).
Proof.
  intros Hwf Hs Hpi. unfold tipFor.
  assert (onPage (if s then sp else p) (if s then si else i)) as Hq by (destruct s; [by apply Hs|done]).
  destruct (onPage_index _ _ Hwf Hq) as (mi & part & Hp & _ & Hmi & Hk).
  replace (if s then linearizationIndex pic sp si else linearizationIndex pic p i)
    with (linearizationIndex pic (if s then sp else p) (if s then si else i)) by (by destruct s).
  rewrite Hmi. cbn [mbind option_bind]. unfold tooltipText. destruct (s && negb (sp =? p)) eqn:E; [by eexists|].
  assert ((if s then sp else p) = p) as Ep by (destruct s; [|done]; apply negb_false_iff in E; lia). rewrite Ep in Hp.
  destruct mi as [k|]; [|by eexists]. specialize (Hk k eq_refl). rewrite Hp. cbn [mbind option_bind].
  destruct (idx_is_Some (d_PartialLinearizations part) k Hk) as [lin Hlin]. rewrite Hlin. cbn [mbind option_bind].
  destruct Hpi as (part' & Hp' & [el Hel]). assert (part' = part) as -> by congruence. rewrite Hel. cbn [mbind option_bind].
  destruct (findStep None lin i) as [[prev curr]|]; [by eexists|].
  destruct (wp_next Hwf p part Hp) as (nexts & -> & Hn). cbn [mbind option_bind].
  destruct (idx_is_Some nexts k) as [next ->]; [unfold zlen in *; lia|]. cbn [mbind option_bind]. case_bool_decide; [|by eexists].
  apply idx_Some in Hlin as [_ Hlin]. apply idx_Some in Hp as [_ Hp].
  destruct lin as [|x lin']; [exfalso; by eapply (wp_lins Hwf part); [eapply list_elem_of_lookup_2|eapply list_elem_of_lookup_2|]|].
  destruct (last (x :: lin')) eqn:El; [by eexists|]. by apply last_None in El.
Qed.

(** ** Events *)

(** What the mouse can do in view [v]: move over or click an element of the page, leave it, click the
    background, and click the link when it is active. *)
Definition enabled (v : view) (e : mouse) : Prop :=
  match e with
  | MouseOver p i | MouseMove p i _ _ | Click p i => onPage p i
  | MouseOut | BgClick => True
  | JumpClick => is_Some (jump v)
  end.

(** The views the page can be in. *)
Inductive seen : view → Prop :=
  | seen_init : seen (initView pic)
  | seen_event v e v' : seen v → enabled v e → handle pic e v = Some v' → seen v'.

Lemma set_shown_ok v b : viewOk v → viewOk (set_shown b (lastTooltip v) v) ∧ viewOk (set_shown b None v).
Proof. intros [Hr Hh Hj Ht]. split; split; done. Qed.

Lemma handleMouseOver_ok v p i : wfPicture → viewOk v → onPage p i → ∃ v', handleMouseOver pic p i v = Some v' ∧ viewOk v'.
Proof.
  intros Hwf Hv Hpi. unfold handleMouseOver. destruct (selected v) eqn:E; [eexists; split; [reflexivity|by apply set_shown_ok]|].
  destruct (highlight_ok v p i Hwf (viewOk_shaped v Hv) Hpi) as (v' & -> & Hh & Hj & Hsel & Hsi & Hr & Hl & Ht). cbn [mbind option_bind].
  eexists. split; [reflexivity|]. apply set_shown_ok. destruct Hv as [Hr0 _ _ Ht0]. rewrite E in Hr0.
  split; rewrite ?Hsel, ?E; [by rewrite Hr|by right; eexists _, _|done|]. unfold tipRight in *. by rewrite Hl, Ht.
Qed.

Lemma handleMouseMove_ok v p i x y : wfPicture → viewOk v → onPage p i → ∃ v', handleMouseMove pic p i x y v = Some v' ∧ viewOk v'.
Proof.
  intros Hwf [Hr Hh Hj Ht] Hpi. unfold handleMouseMove. destruct (selectedIndex v) as [sp si] eqn:Esi.
  assert (selected v = true → onPage sp si) as Hs by (intros E; rewrite E in Hh; by destruct Hh as (mi & Ho & _)).
  destruct (tooltip_defined (selected v) sp si p i Hwf Hs Hpi) as [t Htip].
  assert ((if bool_decide (lastTooltip v = Some (p, i, selected v, sp, si)) then Some (tipText v) else tipFor p i (selected v) sp si) = Some t) as E.
  { case_bool_decide as Hc; [|done]. unfold tipRight in Ht. by rewrite Hc, Htip in Ht. }
  unfold tipFor in E. rewrite E. cbn [mbind option_bind]. eexists. split; [reflexivity|].
  split; cbn; try done; by rewrite ?Hr, ?Esi in *.
Qed.

Lemma handleMouseOut_ok v : viewOk v → viewOk (handleMouseOut pic v).
Proof.
  intros Hv. unfold handleMouseOut. destruct (selected v) eqn:E; [by apply set_shown_ok|].
  destruct (resetHighlight_ok v (viewOk_shaped v Hv)) as (Ha & Hj & Hsel & Hsi & Hr). destruct Hv as [Hr0 _ _ Ht0].
  split; cbn; cbn in *; rewrite ?E in *; [done|by left|done|done].
Qed.

Lemma handleClick_ok v p i : wfPicture → viewOk v → onPage p i → ∃ v', handleClick pic p i v = Some v' ∧ viewOk v'.
Proof.
  intros Hwf Hv Hpi. pose proof (viewOk_shaped v Hv) as Hs. unfold handleClick. destruct (selected v) eqn:E.
  - case_bool_decide; [by apply deselect_ok|]. rewrite (unmarkRect_ok v _ Hv E). cbn [mbind option_bind]. destruct Hv as [Hr _ _ Ht].
    apply select_ok; try done. cbn. rewrite Hr, E. set_solver.
  - destruct Hv as [Hr _ _ Ht]. rewrite E in Hr. by apply select_ok.
Qed.

Lemma handleJump_ok v : wfPicture → viewOk v → is_Some (jump v) → ∃ v', handleJump pic v = Some v' ∧ viewOk v'.
Proof.
  intros Hwf Hv [e He]. pose proof (viewOk_shaped v Hv) as Hs. unfold handleJump. rewrite He. cbn [mbind option_bind].
  destruct (selected v) eqn:E; [by eexists|]. pose proof Hv as [Hr _ Hj Ht]. rewrite E in Hr. rewrite Hj in He. apply List.find_some in He as [He _].
  apply select_ok; try done. apply (wp_errors Hwf). by apply list_elem_of_In.
Qed.

Lemma handle_ok v e : wfPicture → viewOk v → enabled v e → ∃ v', handle pic e v = Some v' ∧ viewOk v'.
Proof.
  intros Hwf Hv He. destruct e as [p i|p i x y| |p i| |]; simpl in *.
  - by apply handleMouseOver_ok.
  - by apply handleMouseMove_ok.
  - eexists. split; [reflexivity|by apply handleMouseOut_ok].
  - by apply handleClick_ok.
  - by apply deselect_ok.
  - by apply handleJump_ok.
Qed.

Lemma initView_ok : viewOk (initView pic).
Proof.
  unfold initView, handleMouseOut. cbn [selected].
  match goal with |- context [resetHighlight pic ?v] => destruct (resetHighlight_ok v) as (Ha & Hj & Hsel & Hsi & Hr) end.
  - split; cbn; [by rewrite length_map|]. change (map ?f data) with (f <$> data). rewrite <-list_fmap_compose.
    apply list_fmap_ext. intros q part _. simpl. by rewrite length_map.
  - split; [done|by left|done|done].
Qed.

Lemma seen_ok v : wfPicture → seen v → viewOk v.
Proof.
  intros Hwf. induction 1 as [|v e v' _ IH He E]; [apply initView_ok|].
  destruct (handle_ok v e Hwf IH He) as (v'' & E' & H). congruence.
Qed.
End facts.

(** ** The picture of drawn data *)

(** The linearization noted for an element is one of its partition. *)
Definition largestIn (data : list partitionVisualizationData) : Prop :=
  ∀ part i k, part ∈ data → d_Largest part !! i = Some k → 0 ≤ k < zlen (d_PartialLinearizations part).

Section drawn.
Context (px : Z) (data : list partitionVisualizationData) (L : pageLayout) (D : drawing).
Context (Hd : drawable data) (Hlg : largestIn data) (Hlen : length (lay_els L) = length data) (HD : pageDrawn px data L D).

Lemma partition_drawn p part : idx data p = Some part → ∃ hist d, idx (dr_partitions D) p = Some d ∧
  partitionDrawn px (xPos (lay_scan L)) p hist (d_PartialLinearizations part) d.
Proof.
  intros [Hp Hpart]%idx_Some. pose proof (lookup_lt_Some _ _ _ Hpart) as Hlt. rewrite <-Hlen in Hlt.
  apply lookup_lt_is_Some_2 in Hlt as [hist Hh].
  destruct (pg_parts _ _ _ _ HD (Z.to_nat p) hist (d_PartialLinearizations part) Hh) as (d & Hdp & H).
  { by rewrite list_lookup_fmap, Hpart. }
  rewrite Z2Nat.id in H by done. exists hist, d. split; [by apply idx_Some|done].
Qed.

Lemma partition_of p d : idx (dr_partitions D) p = Some d → ∃ part, idx data p = Some part.
Proof.
  intros [Hp Hdp]%idx_Some. apply lookup_lt_Some in Hdp. rewrite (pg_count _ _ _ _ HD) in Hdp.
  apply lookup_lt_is_Some_2 in Hdp as [part Hpart]. exists part. by apply idx_Some.
Qed.

Lemma idx_fmap {A B} (f : A → B) l i : idx (f <$> l) i = f <$> idx l i.
Proof. unfold idx. rewrite list_lookup_fmap. by destruct (0 <=? i). Qed.

Lemma picture_wf : wfPicture (pictureOf data D).
Proof.
  split; cbn [pictureOf pc_data pc_illegal pc_next pc_errors].
  - rewrite length_fmap. apply HD.
  - intros p part (hist & d & Hdp & H)%partition_drawn. eexists. rewrite idx_fmap, Hdp. split; [done|].
    rewrite length_fmap. symmetry. eapply Forall2_length, pd_lins, H.
  - intros p part i k Hp. unfold linearizationIndex. cbn [pictureOf pc_data pc_illegal]. rewrite Hp. cbn [mbind option_bind].
    destruct (d_Largest part !! i) eqn:El.
    + intros [= <-]. eapply Hlg; [by eapply idx_elem_of|done].
    + destruct (partition_drawn p part Hp) as (hist & d & Hdp & H). rewrite idx_fmap, Hdp. cbn [fmap option_fmap option_map mbind option_bind]. rewrite (pd_illegal _ _ _ _ _ _ H).
      intros [= Hk]. pose proof (largestIllegal_spec (d_PartialLinearizations part) (dp_lins d) i) as Hs. rewrite Hk in Hs.
      destruct Hs as (lin & _ & Hi & _). by eapply idx_lt.
  - intros part lin Hp Hl. apply (dr_order _ Hd part lin Hp Hl).
  - intros e (d & Hdp & He)%(pg_errors _ _ _ _ HD). apply list_elem_of_lookup in Hdp as [p Hdp].
    assert (idx (dr_partitions D) (Z.of_nat p) = Some d) as Hdp' by (by rewrite idx_of_nat).
    destruct (partition_of _ _ Hdp') as [part Hpart]. destruct (partition_drawn _ _ Hpart) as (hist & d' & Hd' & H). assert (d' = d) as -> by congruence.
    destruct (pd_errors _ _ _ _ _ _ H e He) as (-> & lin & s & Hl & Hs & <-). exists part. split; [done|].
    apply (or_known _ _ (dr_order _ Hd part lin ltac:(by eapply idx_elem_of) ltac:(by eapply idx_elem_of))). rewrite last_lookup in Hs. by eapply list_elem_of_lookup_2.
Qed.
End drawn.
