(* ===== verification/VisPageCheck.v ===== *)
(** * The page of a check

    The composition: for operations with times, whatever the checker answers
    about them, the data that [Visualize] writes can be drawn, and the script of the page
    lays them out by its criteria and keeps consistent what it shows.  One condition on the times is needed: the last
    time is not the call of an operation; the script has no position for the end of
    an operation that starts and ends at the last time. *)

From S2P Require Import Prelude Bitset Porcupine PorcupineHeap PorcupineSpec PorcupineSearch PorcupineFacts PorcupineOps PorcupineKv PorcupinePartial PorcupineOrder Visualization VisualizationFacts VisPage VisPageFacts VisPageLayout VisPageDraw VisPageView.
Open Scope go_scope.

Section page.
Context {V St : Type} (nilV : V) `{!EqDecision St} {GS : EntrySort V} {GSL : EntrySortLaws GS}.
Context (sprintV : V → string) (sprintSt : St → string) (m : Model V St) (d : Describer V St).
Context {PO : PointerOrder} {POL : PointerOrderLaws PO} {PS : PartialSort} {PSL : PartialSortLaws PS}.

Section partition.
Context (ops : list (Operation V)) (partials : list (list Z)) (part : partitionVisualizationData).
Context (Hpic : pictures sprintV sprintSt m d (makeEntries ops) partials part).
Context (Hpart : ∀ π, π ∈ partials → π ≠ [] ∧ keepsOrder (makeEntries ops) π).

(** The history shows the times of the operations. *)
Lemma history_op i o : idx ops i = Some o → ∃ e, idx (d_History part) i = Some e ∧ he_Start e = Call o ∧ he_End e = Return o.
Proof.
  intros Ho. destruct (pic_op _ _ _ _ _ _ _ Hpic (callE i o) (returnE i o)) as (desc & _ & He); try done.
  - apply entries_elem. eauto.
  - apply entries_elem. eauto.
  - eexists. split; [exact He|done].
Qed.

Lemma history_elem i e : idx (d_History part) i = Some e → ∃ o, idx ops i = Some o ∧ he_Start e = Call o ∧ he_End e = Return o.
Proof.
  intros He. destruct (idx_is_Some ops i) as [o Ho].
  { apply idx_lt in He. rewrite (pic_len _ _ _ _ _ _ _ Hpic), zlen_makeEntries in He.
    rewrite (Z.mul_comm 2), Z.div_mul in He by done. done. }
  destruct (history_op i o Ho) as (e' & He' & H). rewrite He in He'. injection He' as <-. eauto.
Qed.

Lemma shows_index R st π lin : shows sprintSt m d R st π lin → Index <$> lin = π ∧ ∀ i, i ∈ π → ∃ v w, isOp R i v w.
Proof.
  induction 1 as [|st i v w st' desc π steps Hop _ _ _ [IH1 IH2]]; [split; [done|set_solver]|]. split; [by rewrite fmap_cons, IH1|].
  intros j [->|Hj]%elem_of_cons; eauto.
Qed.

Lemma partition_ordered lin : lin ∈ d_PartialLinearizations part → ordered (d_History part) lin.
Proof.
  intros [k Hk]%list_elem_of_lookup. destruct (pic_partials _ _ _ _ _ _ _ Hpic) as (ps & Hps & _ & Hsh & _).
  destruct (Forall2_lookup_r _ _ _ _ _ Hsh Hk) as (π & Hπ & [Hidx Hops]%shows_index).
  apply list_elem_of_lookup_2 in Hπ. rewrite Hps in Hπ. destruct (Hpart π Hπ) as (Hne & Hnd & Hord). split.
  - intros ->. by subst π.
  - by rewrite Hidx.
  - intros s Hs. destruct (Hops (Index s)) as (v & w & (o & Ho & _)%isOp_makeEntries); [rewrite <-Hidx; by apply list_elem_of_fmap_2|].
    destruct (history_op _ _ Ho) as (e & -> & _). by eexists.
  - intros j s el i el' Hj Hel Hel' Hi. destruct (history_elem _ _ Hel) as (o & Ho & -> & _).
    destruct (history_elem _ _ Hel') as (o' & Ho' & _ & ->). destruct (Z.le_gt_cases (Call o) (Return o')) as [|Hlt]; [done|exfalso].
    apply Hi. rewrite fmap_take, Hidx. apply (Hord _ (Index s) (drop (S j) π)); [|apply precedes_makeEntries; eauto].
    rewrite take_drop_middle; [done|]. by rewrite <-Hidx, list_lookup_fmap, Hj.
Qed.
End partition.

Section check.
Context (opss : list (list (Operation V))) (deref : nat → list Z) (ptrs : list (list (option nat))).
Context (Hst : ∀ st, is_Some (describeState sprintSt d st)).
Context (Hdesc : ∀ ops o, ops ∈ opss → o ∈ ops → is_Some (describeOperation sprintV d (Input o) (Output o))).
Context (Hops : ∀ ops, ops ∈ opss → timed ops ∧ zlen ops < 2 ^ 62).
Context (Hlast : ∀ o, o ∈ concat opss → ∃ o', o' ∈ concat opss ∧ Call o < Return o').
Context (Hrun : Forall2 (λ ops (l : list (option nat)), ∃ fuel kill ok,
  checkSingle nilV fuel (fillDefault m) (makeEntries ops) true kill = Some (Some (ok, option_map deref <$> l))) opss ptrs).

Lemma check_histories R : R ∈ makeEntries <$> opss → wfHistory R ∧ numbered R ∧
  ∀ i v w, isOp R i v w → is_Some (describeOperation sprintV d v w).
Proof.
  intros (ops & -> & Hin)%list_elem_of_fmap. destruct (Hops ops Hin) as [Ht Hl]. split_and!.
  - by apply makeEntries_wf.
  - by apply makeEntries_numbered.
  - intros i v w (o & Ho & -> & ->)%isOp_makeEntries. apply (Hdesc ops); [done|by eapply idx_elem_of].
Qed.

(** What the data show: each partition pictures its operations, and its partial linearizations keep their order. *)
Definition picturesAll (data : list partitionVisualizationData) : Prop := length data = length opss ∧
  ∀ p ops, opss !! p = Some ops → ∃ part partials, data !! p = Some part ∧
    pictures sprintV sprintSt m d (makeEntries ops) partials part ∧
    ∀ π, π ∈ partials → π ≠ [] ∧ keepsOrder (makeEntries ops) π.

Lemma check_data : ∃ data,
  computeVisualizationData nilV sprintV sprintSt m d (collectInfo true (makeEntries <$> opss) deref ptrs) = Some data ∧ picturesAll data.
Proof.
  destruct (visualization_data nilV sprintV sprintSt m d (makeEntries <$> opss) deref ptrs Hst check_histories) as (data & Edata & Hlen & Hpics).
  { by apply Forall2_fmap_l. }
  rewrite length_fmap in Hlen. exists data. split; [done|]. split; [done|]. intros p ops Hp.
  destruct (Forall2_lookup_l _ _ _ _ _ Hrun Hp) as (l & Hl & fuel & kill & ok & Hc).
  destruct (Hpics p (makeEntries ops) l) as (part & partials & Hpart & Hpic & Hπ); [by rewrite list_lookup_fmap, Hp|done|].
  exists part, partials. split_and!; [done|done|]. intros π (a & Ha & <-)%Hπ. apply list_elem_of_lookup in Ha as [i Hi].
  destruct (check_histories (makeEntries ops)) as (Hwf & Hnum & _); [apply list_elem_of_fmap_2; by eapply list_elem_of_lookup_2|].
  eapply (checkSingle_keepsOrder nilV (fillDefault m) _ true kill fuel ok _ Hwf Hnum Hc (Z.of_nat i)).
  by rewrite idx_of_nat, list_lookup_fmap, Hi.
Qed.

Lemma picturesAll_part data p part : picturesAll data → data !! p = Some part → ∃ ops partials, opss !! p = Some ops ∧
  pictures sprintV sprintSt m d (makeEntries ops) partials part ∧ ∀ π, π ∈ partials → π ≠ [] ∧ keepsOrder (makeEntries ops) π.
Proof.
  intros [Hlen Hall] Hp. destruct (lookup_lt_is_Some_2 opss p) as [ops Hpo]; [apply lookup_lt_Some in Hp; lia|].
  destruct (Hall p ops Hpo) as (part' & partials & Hp' & H). rewrite Hp in Hp'. injection Hp' as <-. eauto.
Qed.

(** The elements of the histories are the operations. *)
Lemma picturesAll_element data e : picturesAll data → e ∈ concat (d_History <$> data) →
  ∃ o, o ∈ concat opss ∧ he_Start e = Call o ∧ he_End e = Return o ∧ Call o ≤ Return o.
Proof.
  intros Hall (h & (part & -> & [p Hp]%list_elem_of_lookup)%list_elem_of_fmap & [i Hi]%list_elem_of_lookup)%elem_concat.
  destruct (picturesAll_part data p part Hall Hp) as (ops & partials & Hpo & Hpic & _).
  destruct (history_elem ops partials part Hpic (Z.of_nat i) e) as (o & Ho & H1 & H2); [by rewrite idx_of_nat|].
  apply list_elem_of_lookup_2 in Hpo. apply idx_elem_of in Ho. exists o. split_and!; [apply elem_concat; eauto|done|done|].
  destruct (Hops ops Hpo) as [Ht _]. unfold timed in Ht. rewrite Forall_forall in Ht. by apply Ht.
Qed.

Lemma picturesAll_operation data o : picturesAll data → o ∈ concat opss →
  ∃ e, e ∈ concat (d_History <$> data) ∧ he_End e = Return o.
Proof.
  intros [_ Hall] (ops & [p Hp]%list_elem_of_lookup & [i Hi]%list_elem_of_lookup)%elem_concat.
  destruct (Hall p ops Hp) as (part & partials & Hpart & Hpic & _).
  destruct (history_op ops partials part Hpic (Z.of_nat i) o) as (e' & He' & _ & E); [by rewrite idx_of_nat|].
  exists e'. split; [|done]. apply elem_concat. exists (d_History part).
  split; [apply list_elem_of_fmap_2; by eapply list_elem_of_lookup_2|by eapply idx_elem_of].
Qed.

Lemma page_drawable data : picturesAll data → drawable data ∧ largestIn data.
Proof.
  intros Hall. split; [split|].
  - intros e (o & _ & -> & -> & ?)%(picturesAll_element data); done.
  - intros e (o & Ho & -> & _ & _)%(picturesAll_element data); [|done]. destruct (Hlast o Ho) as (o' & Ho' & Hlt).
    destruct (picturesAll_operation data o' Hall Ho') as (e' & He' & E). exists e'. split; [done|lia].
  - intros part lin [p Hp]%list_elem_of_lookup Hlin. destruct (picturesAll_part data p part Hall Hp) as (ops & partials & Hpo & Hpic & Hπ).
    exact (partition_ordered ops partials part Hpic Hπ lin Hlin).
  - intros part i k [p Hp]%list_elem_of_lookup Hi. destruct (picturesAll_part data p part Hall Hp) as (ops & partials & Hpo & Hpic & _).
    destruct (pic_partials _ _ _ _ _ _ _ Hpic) as (ps & _ & _ & Hsh & Hlg). specialize (Hlg i). rewrite Hi in Hlg.
    destruct Hlg as (π & Hπ%idx_lt & _). unfold zlen. by rewrite <-(Forall2_length _ _ _ Hsh).
Qed.

(** C30: the page of a check is drawn as the comments of its script promise.  [opss]
    are the operations of the partitions, none of which is called at the last time, [ptrs]
    the slices of pointers the goroutines stored, whatever they answered and whenever the
    kill flag was set.  Then the visualization has data, and the script computes a layout of them:
    times in order with a minimum distance, boxes that hold their text and the linearization
    points that go through them, points in the order of their linearization, and all of it as far
    to the left as possible.  On it the script draws every operation and every linearization, each
    point, and each point of an operation that could come next, inside the box of its operation. *)
Theorem page_layout (px : Z) (textWidth : string → Z) (label : Z → string) : 0 < px →
  ∃ data L D, computeVisualizationData nilV sprintV sprintSt m d (collectInfo true (makeEntries <$> opss) deref ptrs) = Some data ∧
    layout px textWidth data = Some L ∧ leastLayout px textWidth data L ∧
    draw px label data L = Some D ∧ pageDrawn px data L D.
Proof.
  intros Hpx. destruct check_data as (data & E & [Hd _]%page_drawable).
  destruct (layout_least px textWidth data Hpx Hd) as (L & EL & HL).
  destruct (draw_ok px textWidth data Hpx Hd L EL HL label) as (D & ED & HD). by exists data, L, D.
Qed.

(** C32: whatever the mouse does, the page of a check of operations none of which is called
    at the last time stays consistent.  [seen] are the views reached from
    the one [render] leaves by events on the elements of the page.  In each of them a
    rectangle is marked exactly when its element is selected; the page shows either every history, with the first, that is
    longest, linearization of each partition, or exactly one partition with the linearization of one element, the
    selected one if there is one; the link jumps to the first error point that is shown and is active when there is one; the text
    that is kept for the tooltip is the text for what it was computed for; and the handler of every
    event that can come next runs to its end, reading nothing that is not there. *)
Theorem page_consistent (px : Z) (textWidth : string → Z) (label : Z → string) : 0 < px →
  ∃ data L D, computeVisualizationData nilV sprintV sprintSt m d (collectInfo true (makeEntries <$> opss) deref ptrs) = Some data ∧
    layout px textWidth data = Some L ∧ draw px label data L = Some D ∧
    ∀ v, seen (pictureOf data D) v → viewOk (pictureOf data D) v ∧
      ∀ e, enabled (pictureOf data D) v e → is_Some (handle (pictureOf data D) e v).
Proof.
  intros Hpx. destruct check_data as (data & E & [Hd Hlg]%page_drawable).
  destruct (layout_least px textWidth data Hpx Hd) as (L & EL & HL).
  destruct (draw_ok px textWidth data Hpx Hd L EL HL label) as (D & ED & HD).
  pose proof (picture_wf px data L D Hd Hlg (layout_length px textWidth data L EL HL) HD) as Hwf.
  exists data, L, D. split_and!; try done. intros v Hv%(seen_ok _ _ Hwf). split; [done|]. intros e He.
  destruct (handle_ok _ v e Hwf Hv He) as (v' & -> & _). by eexists.
Qed.
End check.
End page.

(** ** Concrete pages *)

#[local] Existing Instance merge_entries.
#[local] Existing Instance merge_entries_laws.

Definition pageOps : list (list (Operation kvValue)) := [exampleOps "z"; exampleOps "x"].

Definition pageWidthOf (s : string) : Z := 7 * Z.of_nat (String.length s).

Lemma pageOps_described ops o : ops ∈ pageOps → o ∈ ops → is_Some (describeOperation sprintKv KvDescriber (Input o) (Output o)).
Proof.
  intros Hops Ho. assert (∃ out, ops = exampleOps out) as [out ->] by (set_unfold in Hops; naive_solver).
  set_unfold in Ho. destruct_or! Ho; subst o; by eexists.
Qed.

Lemma pageOps_timed ops : ops ∈ pageOps → timed ops ∧ zlen ops < 2 ^ 62.
Proof.
  intros Hops. assert (∃ out, ops = exampleOps out) as [out ->] by (set_unfold in Hops; naive_solver).
  split; [|done]. unfold timed, exampleOps. repeat constructor; simpl; lia.
Qed.

Lemma pageOps_last o : o ∈ concat pageOps → ∃ o', o' ∈ concat pageOps ∧ Call o < Return o'.
Proof.
  intros Ho. exists (mkOperation 0 (KIn (mkKvInput 0 "k" "")) 40 (KOut (mkKvOutput "xy")) 50).
  split; [set_solver|]. set_unfold in Ho. destruct_or! Ho; subst o; simpl; lia.
Qed.

Lemma pageOps_checked : Forall2 (λ ops (l : list (option nat)), ∃ fuel kill ok,
  checkSingle KNil fuel (fillDefault KvModel) (makeEntries ops) true kill = Some (Some (ok, option_map pageDeref <$> l))) pageOps pagePointers.
Proof. constructor; [|constructor; [|constructor]]; exists 50%nat, (λ _, false); eexists; vm_compute; reflexivity. Qed.

Lemma page_layout_witness : ∃ data L D,
  computeVisualizationData KNil sprintKv sprintString KvModel KvDescriber
    (collectInfo true (makeEntries <$> pageOps) pageDeref pagePointers) = Some data ∧
  layout 1 pageWidthOf data = Some L ∧ leastLayout 1 pageWidthOf data L ∧
  draw 1 (λ _, EmptyString) data L = Some D ∧ pageDrawn 1 data L D.
Proof.
  apply (page_layout KNil sprintKv sprintString KvModel KvDescriber pageOps pageDeref pagePointers);
    [intros st; by eexists|exact pageOps_described|exact pageOps_timed|exact pageOps_last|exact pageOps_checked|lia].
Defined.

Lemma page_consistent_witness : ∃ data L D,
  computeVisualizationData KNil sprintKv sprintString KvModel KvDescriber
    (collectInfo true (makeEntries <$> pageOps) pageDeref pagePointers) = Some data ∧
  layout 1 pageWidthOf data = Some L ∧ draw 1 (λ _, EmptyString) data L = Some D ∧
  ∀ v, seen (pictureOf data D) v → viewOk (pictureOf data D) v ∧
    ∀ e, enabled (pictureOf data D) v e → is_Some (handle (pictureOf data D) e v).
Proof.
  apply (page_consistent KNil sprintKv sprintString KvModel KvDescriber pageOps pageDeref pagePointers);
    [intros st; by eexists|exact pageOps_described|exact pageOps_timed|exact pageOps_last|exact pageOps_checked|lia].
Defined.

(** Without the condition on the last time the scan reads a position that is not there: the second
    operation starts and ends at the last time, which is no start the tweak can move its end away from. *)
Example instant_at_the_end px textWidth :
  layout px textWidth [mkData [mkElement 0 0 1 "a"; mkElement 0 5 5 "b"]%string [[mkStep 0 "a"; mkStep 1 "b"]]%string ∅] = None.
Proof. reflexivity. Qed.

(** An instant before the last time is drawn: its end is moved to the middle of the next interval. *)
Example instant_before_the_end :
  (λ L, (lay_ts L, linearizationPositions (lay_scan L))) <$>
    layout 1 (λ _, 30) [mkData [mkElement 0 5 5 "a"; mkElement 0 6 9 "b"]%string [[mkStep 0 "a"; mkStep 1 "b"]]%string ∅]
  = Some ([10; 11; 12; 18], [[0; 70]]).
Proof. vm_compute. reflexivity. Qed.
