(* ===== verification/KvSrvLinear.v ===== *)
(** * The histories of the single-server store are linearizable

    The tests of [kvsrv] log the calls of their clerks with the clock and give the
    log to the checker with the model [KvModel].  Every run of clerks and server
    refines an atomic map ([KvSrv]); a run of the atomic map, however its steps
    are timed, is logged as a linearizable history, so the checker answers [Ok]. *)

From S2P Require Import Prelude Bitset Porcupine PorcupineSpec PorcupineFacts PorcupineOps PorcupineKv PorcupineLocal KvHistory.
From S2P Require Import KvSrv.
Import KvSrv.Spec.
Open Scope go_scope.

(** ** What the tests log *)

(** The [KvInput] of [Get], [Put] and [Append] of [kvsrv/test_test.go]. *)
Definition inputOf (o : aop) : KvInput :=
  match o with
  | AGet key => mkKvInput 0 key EmptyString
  | APut key value => mkKvInput 1 key value
  | AAppend key value => mkKvInput 3 key value
  end.

Definition observed (a : action) : observation :=
  match a with
  | ACall i o => Called i (inputOf o)
  | AReturn i v => Returned i v
  end.

Definition observedAt (a : Z * action) : Z * observation := (a.1, observed a.2).

(** The actions of a run whose events happen at given times. *)
Fixpoint timedTrace (tes : list (Z * event)) (s : system) : list (Z * action) :=
  match tes with
  | [] => []
  | (t, e) :: tes' =>
      match step e s with
      | Some s' => (pair t <$> observe e s') ++ timedTrace tes' s'
      | None => []
      end
  end.

(** The log of the test after a run. *)
Definition testLog (n : nat) (tes : list (Z * event)) : list (Operation kvValue) :=
  record ∅ (observedAt <$> timedTrace tes (init n)).

Lemma timedTrace_trace tes s : (timedTrace tes s).*2 = trace tes.*2 s.
Proof.
  revert s. induction tes as [|[t e] tes IH]; intros s; [done|]. simpl. destruct (step e s) as [s'|]; [|done].
  rewrite fmap_app, IH. f_equal. rewrite <-list_fmap_compose. by rewrite list_fmap_id.
Qed.

Lemma observe_short e s : (length (observe e s) ≤ 1)%nat.
Proof. destruct e as [| |i o]; simpl; try lia. by destruct (clerks s !! i) as [[[]| | |]|]; simpl; lia. Qed.

Lemma timedTrace_length tes s : (length (timedTrace tes s) ≤ length tes)%nat.
Proof.
  revert s. induction tes as [|[t e] tes IH]; intros s; simpl; [done|]. destruct (step e s) as [s'|]; simpl; [|lia].
  rewrite length_app, length_fmap. pose proof (observe_short e s'). specialize (IH s'). lia.
Qed.

Lemma timedTrace_elem tes s x : x ∈ (timedTrace tes s).*1 → x ∈ tes.*1.
Proof.
  revert s. induction tes as [|[t e] tes IH]; intros s; simpl; [done|]. destruct (step e s) as [s'|]; [|set_solver].
  rewrite fmap_app, elem_of_app, elem_of_cons. intros [Hx|Hx]; [left|right; by eapply IH].
  rewrite <-list_fmap_compose in Hx. by apply list_elem_of_fmap in Hx as (? & -> & _).
Qed.

Lemma timedTrace_clocked tes s : clocked tes → clocked (timedTrace tes s).
Proof.
  unfold clocked. revert s. induction tes as [|[t e] tes IH]; intros s Hc; simpl in *; [done|].
  inversion Hc as [|? ? Hs Hall]; subst. destruct (step e s) as [s'|]; [|constructor].
  rewrite fmap_app, <-list_fmap_compose. pose proof (observe_short e s') as Hlen. specialize (IH s' Hs).
  destruct (observe e s') as [|a [|? ?]]; simpl in *; [done| |lia]. constructor; [done|].
  rewrite Forall_forall in Hall |- *. intros x Hx%timedTrace_elem. by apply Hall.
Qed.

(** ** The log of a run of the atomic map *)

Section atomic.
Implicit Types (s : state) (opened : gmap nat (Z * KvInput)) (A : gmap nat (Operation kvValue)).

(** The calls of the clerks in an operation are open, since [now] at the latest. *)
Definition coherent s opened (now : Z) : Prop :=
  ∀ i o, (aclerks s !! i = Some (APending o) ∨ ∃ v, aclerks s !! i = Some (ADone o v)) →
    ∃ t0, opened !! i = Some (t0, inputOf o) ∧ t0 ≤ now.

(** The operations applied and not yet returned, as they will be logged. *)
Definition toReturn s opened (now : Z) A : Prop :=
  ∀ i, match aclerks s !! i with
       | Some (ADone o v) => ∃ t0 t, opened !! i = Some (t0, inputOf o) ∧ now ≤ t ∧
           A !! i = Some (mkOperation (Z.of_nat i) (KIn (inputOf o)) t0 (KOut (mkKvOutput v)) t)
       | _ => A !! i = None
       end.

(** The operations still to be applied, at their points, and the value of the map. *)
Record points s (now : Z) (lin : list (Z * Operation kvValue)) : Prop := {
  pt_sorted : StronglySorted Z.le lin.*1;
  pt_inside : Forall (λ x, now ≤ x.1 ∧ Call x.2 ≤ x.1 ≤ Return x.2) lin;
  pt_run : is_Some (runList MapModel lin.*2 (amap s));
}.

Definition explained s opened now (obs : list (Z * action)) : Prop :=
  ∃ lin A, record opened (observedAt <$> obs) ≡ₚ lin.*2 ++ (map_to_list A).*2 ∧
    points s now lin ∧ toReturn s opened now A.

Definition idle s : Prop := Forall (λ c, ∃ r, c = AIdle r) (aclerks s).

Lemma explained_idle s opened now : idle s → explained s opened now [].
Proof.
  intros Hi. exists [], ∅. split_and!; [done|split; [constructor|constructor|by eexists]|].
  intros i. destruct (aclerks s !! i) as [c|] eqn:E; [|by rewrite lookup_empty].
  unfold idle in Hi. rewrite Forall_lookup in Hi. destruct (Hi _ _ E) as [r ->]. apply lookup_empty.
Qed.

Lemma points_mono s s' now now' lin : now ≤ now' → amap s = amap s' → points s' now' lin → points s now lin.
Proof.
  intros Hn Hm [? Hin ?]. split; [done| |by rewrite Hm]. eapply Forall_impl; [exact Hin|]. simpl. lia.
Qed.

(** The value the model computes for an operation of the map. *)
Lemma apply_runs i o t0 t l m :
  is_Some (runList MapModel l (apply o m).2) →
  is_Some (runList MapModel (mkOperation i (KIn (inputOf o)) t0 (KOut (mkKvOutput (apply o m).1)) t :: l) m).
Proof.
  intros Hr. eapply runList_cons; [| | |exact Hr].
  - destruct o; simpl; intros [|]; try done.
  - destruct o as [key|key value|key value]; simpl; try done. intros k.
    destruct (decide (key = k)) as [->|?]; [by rewrite lookup_insert_eq|by rewrite lookup_insert_ne].
  - destruct o; simpl; lia.
Qed.

Lemma lookup_update {B} (l : list B) i x y j : l !! i = Some y →
  <[i := x]> l !! j = if decide (i = j) then Some x else l !! j.
Proof.
  intros Hi. destruct (decide (i = j)) as [<-|?]; [|by rewrite list_lookup_insert_ne].
  apply list_lookup_insert_eq. by eapply lookup_lt_Some.
Qed.

Lemma explain_call s i o r opened now t obs :
  aclerks s !! i = Some (AIdle r) → now ≤ t →
  explained (mkState (amap s) (<[i := APending o]> (aclerks s))) (<[i := (t, inputOf o)]> opened) t obs →
  explained s opened now ((t, ACall i o) :: obs).
Proof.
  intros Hi Ht (lin & A & Hp & Hpt & HA). exists lin, A. split_and!; [done|by eapply points_mono; [| |exact Hpt]|].
  intros j. specialize (HA j). simpl in HA. erewrite lookup_update in HA by exact Hi.
  destruct (decide (i = j)) as [<-|Hne]; [by rewrite Hi|]. rewrite lookup_insert_ne in HA by done.
  destruct (aclerks s !! j) as [[|?|o' v]|]; try done. destruct HA as (t0 & t1 & ? & ? & ?). exists t0, t1. split_and!; [done|lia|done].
Qed.

Lemma explain_apply s i o opened now obs :
  aclerks s !! i = Some (APending o) → coherent s opened now →
  explained (mkState (apply o (amap s)).2 (<[i := ADone o (apply o (amap s)).1]> (aclerks s))) opened now obs →
  explained s opened now obs.
Proof.
  intros Hi Hco (lin & A & Hp & [Hs Hin Hr] & HA). destruct (Hco i o (or_introl Hi)) as (t0 & Ho & Ht0).
  pose proof (HA i) as Hai. simpl in Hai. erewrite lookup_update in Hai by exact Hi. rewrite decide_True in Hai by done.
  destruct Hai as (t0' & t & Ho' & Ht & HAi). simplify_eq.
  set (op := mkOperation _ _ _ _ _) in HAi. exists ((now, op) :: lin), (delete i A). split_and!.
  - rewrite Hp. rewrite <-(map_to_list_delete A i op HAi). simpl. by rewrite Permutation_middle.
  - split; simpl.
    + constructor; [done|]. apply Forall_fmap. eapply Forall_impl; [exact Hin|]. simpl. lia.
    + constructor; [|done]. simpl. lia.
    + by apply apply_runs.
  - intros j. specialize (HA j). simpl in HA. erewrite lookup_update in HA by exact Hi.
    destruct (decide (i = j)) as [<-|Hne]; [rewrite Hi; apply lookup_delete_eq|]. by rewrite lookup_delete_ne.
Qed.

Lemma explain_return s i o v opened now t obs :
  aclerks s !! i = Some (ADone o v) → coherent s opened now → now ≤ t →
  explained (mkState (amap s) (<[i := AIdle (Some v)]> (aclerks s))) (delete i opened) t obs →
  explained s opened now ((t, AReturn i v) :: obs).
Proof.
  intros Hi Hco Ht (lin & A & Hp & Hpt & HA). destruct (Hco i o (or_intror (ex_intro _ v Hi))) as (t0 & Ho & Ht0).
  pose proof (HA i) as Hai. simpl in Hai. erewrite lookup_update in Hai by exact Hi. rewrite decide_True in Hai by done.
  exists lin, (<[i := mkOperation (Z.of_nat i) (KIn (inputOf o)) t0 (KOut (mkKvOutput v)) t]> A). split_and!.
  - simpl. rewrite Ho, Hp, map_to_list_insert by done. simpl. by rewrite Permutation_middle.
  - by eapply points_mono; [| |exact Hpt].
  - intros j. specialize (HA j). simpl in HA. erewrite lookup_update in HA by exact Hi.
    destruct (decide (i = j)) as [<-|Hne].
    + rewrite Hi. exists t0, t. split_and!; [done|lia|by rewrite lookup_insert_eq].
    + rewrite lookup_delete_ne in HA by done. destruct (aclerks s !! j) as [[|?|o' v']|]; rewrite ?lookup_insert_ne by done; try done.
      destruct HA as (u0 & u1 & ? & ? & ?). exists u0, u1. split_and!; [done|lia|done].
Qed.

(** Every run of the atomic map to a state with idle clerks is explained. *)
Lemma atrace_explained s acts s' opened now obs :
  atrace s acts s' → idle s' → obs.*2 = acts → clocked obs → Forall (Z.le now) obs.*1 →
  coherent s opened now → explained s opened now obs.
Proof.
  intros Htr Hid. revert opened now obs. induction Htr as [s|s acts s1 acts' s' Hst Htr IH]; intros opened now obs Hobs Hc Hn Hco.
  { apply fmap_nil_inv in Hobs as ->. by apply explained_idle. }
  inversion Hst as [i o r Hi|i o Hi|i o v Hi]; subst acts s1.
  - destruct obs as [|[t a] obs]; [done|]. injection Hobs as -> Hobs. inversion Hc; inversion Hn; subst.
    eapply explain_call; [exact Hi|done|]. apply IH; [done..|].
    intros j o'. simpl. erewrite lookup_update by exact Hi. destruct (decide (i = j)) as [<-|?].
    + intros [[= <-]|[v [=]]]. rewrite lookup_insert_eq. exists t. done.
    + rewrite lookup_insert_ne by done. intros H. destruct (Hco j o' H) as (t0 & ? & ?). exists t0. split; [done|lia].
  - eapply explain_apply; [exact Hi|done|]. apply IH; [done..|].
    intros j o'. simpl. erewrite lookup_update by exact Hi. destruct (decide (i = j)) as [<-|?]; [|apply Hco].
    intros [[=]|[v [= <- _]]]. apply Hco. by left.
  - destruct obs as [|[t a] obs]; [done|]. injection Hobs as -> Hobs. inversion Hc; inversion Hn; subst.
    eapply explain_return; [exact Hi|done|done|]. apply IH; [done..|].
    intros j o'. simpl. erewrite lookup_update by exact Hi. destruct (decide (i = j)) as [<-|?]; [by intros [[=]|[? [=]]]|].
    rewrite lookup_delete_ne by done. intros H. destruct (Hco j o' H) as (t0 & ? & ?). exists t0. split; [done|lia].
Qed.

(** Points inside the operations, in order, are an order without inversions. *)
Lemma points_inOrder s now lin : points s now lin → timed lin.*2 ∧ inOrder lin.*2.
Proof.
  intros [Hs Hin _]. split.
  - apply Forall_fmap. eapply Forall_impl; [exact Hin|]. simpl. lia.
  - unfold inOrder. induction lin as [|x lin IH]; simpl in *; [constructor|]. inversion Hs as [|? ? Hs' Hle]; subst. inversion Hin as [|? ? Hx Hl]; subst.
    constructor; [by apply IH|]. apply Forall_fmap, Forall_forall. intros y Hy. rewrite Forall_forall in Hl. specialize (Hl y Hy).
    rewrite Forall_fmap, Forall_forall in Hle. specialize (Hle y Hy). simpl in *. lia.
Qed.

Lemma toReturn_none s opened now A : idle s → toReturn s opened now A → A = ∅.
Proof.
  intros Hid HA. apply map_empty. intros i. specialize (HA i). unfold idle in Hid. rewrite Forall_lookup in Hid.
  destruct (aclerks s !! i) as [c|] eqn:E; [|done]. destruct (Hid _ _ E) as [r ->]. done.
Qed.

Lemma atomic_linearizable n acts s obs :
  atrace (ainit n) acts s → idle s → obs.*2 = acts → clocked obs →
  linearizable MapModel (record ∅ (observedAt <$> obs)).
Proof.
  intros Htr Hid Hobs Hc.
  assert (idle (ainit n)) as Hinit by (apply Forall_replicate; eauto).
  destruct (atrace_explained _ _ _ ∅ (default 0 (head obs.*1)) obs Htr Hid Hobs Hc) as (lin & A & Hp & Hpt & HA).
  { unfold clocked in Hc. destruct obs.*1; simpl; constructor; [done|]. by inversion Hc. }
  { intros i o H. exfalso. unfold idle in Hinit. rewrite Forall_lookup in Hinit.
    destruct H as [H|[v H]]; apply Hinit in H as [r [=]]. }
  rewrite (toReturn_none _ _ _ _ Hinit HA), map_to_list_empty, app_nil_r in Hp.
  destruct (points_inOrder _ _ _ Hpt) as [Ht Ho]. eapply ordered_linearizable; [by symmetry|done|done|apply Hpt].
Qed.
End atomic.

(** ** The theorem *)

(** No clerk is in an operation: the clients are done. *)
Definition quiet (s : system) : Prop := Forall (λ c, ∃ r, c = Idle r) (clerks s).

Lemma quiet_idle s : quiet s → idle (abs s).
Proof.
  unfold quiet, idle. simpl. rewrite Forall_fmap. intros H. eapply Forall_impl; [exact H|]. intros c [r ->]. by exists r.
Qed.

(** The test of linearizability passes.  However many clerks run, whichever
    messages are lost, and however the clock advances: once the clients are done,
    the log of the test is linearizable as a map of strings with get, put and an
    append that returns the old value, and the checker with the model of
    [models/kv.go] answers [Ok] on it. *)
Theorem kvsrv_log_linearizable n tes s :
  steps tes.*2 (init n) = Some s → quiet s → clocked tes → zlen tes < 2 ^ 62 →
  linearizable MapModel (testLog n tes) ∧ (testLog n tes ≠ [] → checksOk (testLog n tes)).
Proof.
  intros Hst Hq Hc Hl. pose proof (timedTrace_clocked tes (init n) Hc) as Hc'.
  assert (linearizable MapModel (testLog n tes)) as Hlin.
  { destruct (steps_simulated _ _ _ (inv_init n) Hst) as [_ Htr]. rewrite abs_init in Htr.
    eapply atomic_linearizable; [exact Htr|by apply quiet_idle|apply timedTrace_trace|done]. }
  split; [done|]. intros Hne. apply linearizable_checksOk; [|done|done]. apply recorded_kvHistory.
  - unfold clocked. rewrite <-list_fmap_compose. exact Hc'.
  - pose proof (timedTrace_length tes (init n)). unfold zlen in *. rewrite length_fmap. lia.
Qed.

(** The run of [KvSrv], the events one unit apart. *)
Definition exampleTimed : list (Z * event) := imap (λ k e, (Z.of_nat k, e)) exampleRun.

Lemma kvsrv_log_linearizable_witness :
  testLog 2 exampleTimed =
    [mkOperation 0 (KIn (mkKvInput 3 "k" "a")) 0 (KOut (mkKvOutput "")) 7;
     mkOperation 1 (KIn (mkKvInput 3 "k" "b")) 3 (KOut (mkKvOutput "a")) 8;
     mkOperation 1 (KIn (mkKvInput 0 "k" "")) 9 (KOut (mkKvOutput "ab")) 10] ∧
  linearizable MapModel (testLog 2 exampleTimed) ∧ checksOk (testLog 2 exampleTimed).
Proof.
  split; [vm_compute; reflexivity|].
  assert (testLog 2 exampleTimed ≠ []) as Hne by (vm_compute; discriminate).
  edestruct (kvsrv_log_linearizable 2 exampleTimed) as [Hlin Hok];
    [vm_compute; reflexivity|by repeat constructor; eexists|repeat constructor; done|done|].
  split; [exact Hlin|exact (Hok Hne)].
Defined.
