(* ===== verification/KvSrvNetLinear.v ===== *)
(** * The histories of the single-server store on its network are linearizable

    The tests of [kvsrv] log the calls of their clerks with the clock and give the log to the
    checker with the model [KvModel].  A run of clerks and server on the simulated network
    ([KvSrvNet]) is seen by the clients as a run of the atomic map, and the log of such a run,
    however its steps are timed, is linearizable ([KvSrvLinear]): the checker answers [Ok]. *)

From S2P Require Import Prelude Bitset Porcupine PorcupineSpec PorcupineFacts PorcupineOps PorcupineKv PorcupineLocal KvHistory.
From S2P Require Import Persister LabRpc KvSrv KvSrvLinear KvSrvNet.
Import KvSrv.Spec.
Open Scope go_scope.

(** ** Actions with the clock *)

(** Events with the actions the clients see of them, each action at the time of its event. *)
Definition stamped (l : list (Z * list action)) : list (Z * action) := l ≫= λ x, pair x.1 <$> x.2.

Lemma stamped_actions l : (stamped l).*2 = mjoin l.*2.
Proof.
  induction l as [|[t acts] l IH]; [done|]. unfold stamped in *. rewrite bind_cons, fmap_app, IH. simpl. f_equal.
  rewrite <-list_fmap_compose. by rewrite list_fmap_id.
Qed.

Lemma stamped_times l x : x ∈ (stamped l).*1 → x ∈ l.*1.
Proof.
  induction l as [|[t acts] l IH]; [done|]. unfold stamped in *. rewrite bind_cons, fmap_app, elem_of_app. simpl.
  intros [Hx|Hx]; apply elem_of_cons; [left|right; auto]. rewrite <-list_fmap_compose in Hx. by apply list_elem_of_fmap in Hx as (? & -> & _).
Qed.

Lemma stamped_clocked l : clocked l → clocked (stamped l).
Proof.
  unfold clocked. induction l as [|[t acts] l IH]; intros Hc; [constructor|]. inversion Hc as [|? ? Hs Hall]; subst.
  unfold stamped. rewrite bind_cons, fmap_app. fold (stamped l). specialize (IH Hs). clear Hc. simpl in *.
  induction acts as [|a acts IHa]; simpl; [done|]. constructor; [done|]. rewrite Forall_forall in Hall.
  apply Forall_forall. intros x [Hx|Hx]%elem_of_app; [|by apply Hall, stamped_times].
  simpl in Hx. rewrite <-list_fmap_compose in Hx. by apply list_elem_of_fmap in Hx as (? & -> & _).
Qed.

Lemma stamped_length l : Forall (λ x, length x.2 ≤ 1)%nat l → (length (stamped l) ≤ length l)%nat.
Proof.
  induction 1 as [|[t acts] l Hx _ IH]; [done|]. unfold stamped in *. rewrite bind_cons, length_app, length_fmap. simpl in *. lia.
Qed.

(** ** The log of the test *)

Section log.
Context `{!Gob GetArgs, !Gob GetReply, !Gob PutAppendArgs, !Gob PutAppendReply}.
Context `{!GobLaws GetArgs, !GobLaws GetReply, !GobLaws PutAppendArgs, !GobLaws PutAppendReply}.

Fixpoint seen (tes : list (Z * nevent)) (s : netsys) : list (Z * list action) :=
  match tes with
  | [] => []
  | (t, e) :: tes' => match nstep e s with Some s' => (t, nobserve e s') :: seen tes' s' | None => [] end
  end.

(** The log after a run whose events happen at given times. *)
Definition netLog (s : netsys) (tes : list (Z * nevent)) : list (Operation kvValue) :=
  record ∅ (observedAt <$> stamped (seen tes s)).

Lemma seen_trace tes s : mjoin (seen tes s).*2 = ntrace tes.*2 s.
Proof.
  revert s. induction tes as [|[t e] tes IH]; intros s; [done|]. simpl. destruct (nstep e s) as [s'|]; [|done].
  simpl. by rewrite IH.
Qed.

Lemma seen_prefix tes s : ∃ k, (seen tes s).*1 = take k tes.*1.
Proof.
  revert s. induction tes as [|[t e] tes IH]; intros s; [by exists 0%nat|]. simpl. destruct (nstep e s) as [s'|]; [|by exists 0%nat].
  destruct (IH s') as [k Hk]. exists (S k). change (t :: (seen tes s').*1 = t :: take k tes.*1). by rewrite Hk.
Qed.

Lemma seen_clocked tes s : clocked tes → clocked (seen tes s).
Proof.
  unfold clocked. intros Hc. destruct (seen_prefix tes s) as [k ->].
  rewrite <-(take_drop k tes.*1) in Hc. by apply StronglySorted_app_1_l in Hc.
Qed.

Lemma seen_short tes s : Forall (λ x, length x.2 ≤ 1)%nat (seen tes s).
Proof.
  revert s. induction tes as [|[t e] tes IH]; intros s; [constructor|]. simpl. destruct (nstep e s) as [s'|]; [|constructor].
  constructor; [|apply IH]. destruct e as [| |i|]; simpl; try lia.
  by destruct (nc_clerk <$> ns_clerks s' !! i) as [[[]| | |]|]; simpl; lia.
Qed.

Lemma netLog_short tes s : (length (stamped (seen tes s)) ≤ length tes)%nat.
Proof.
  pose proof (stamped_length _ (seen_short tes s)). destruct (seen_prefix tes s) as [k Hk].
  apply (f_equal length) in Hk. rewrite length_take, !length_fmap in Hk. lia.
Qed.

Lemma quiet_nabs s : quiet (flat s) → idle (nabs s).
Proof.
  unfold quiet, idle. simpl. rewrite !Forall_fmap. intros H. eapply Forall_impl; [exact H|]. intros nc [r Hr]. simpl in *.
  unfold nabsClerk. rewrite Hr. by exists r.
Qed.
End log.

(** C11: the test of linearizability passes.  On the network the harness makes, reliable or
    not, whatever is delayed, reordered or dropped, with handlers of several clerks in between
    and however the clock advances: once the clients are done, the log of the test is
    linearizable as a map of strings with get, put and an append that returns the old value,
    and the checker with the model of [models/kv.go], with any sort of the entries, answers
    [Ok] on it unless it is empty.  No two requests draw the same number from [nrand]. *)
Theorem kvsrv_net_log_linearizable
    `{!Gob GetArgs, !Gob GetReply, !Gob PutAppendArgs, !Gob PutAppendReply}
    `{!GobLaws GetArgs, !GobLaws GetReply, !GobLaws PutAppendArgs, !GobLaws PutAppendReply}
    emptyName unreliable ends cfg tes s :
  makeClients kvService emptyName unreliable ends = RaftHarness.Done cfg →
  nsteps tes.*2 (testStart cfg ends) = Some s → quiet (flat s) → clocked tes → zlen tes < 2 ^ 62 →
  linearizable MapModel (netLog (testStart cfg ends) tes) ∧
  (netLog (testStart cfg ends) tes ≠ [] → checksOk (netLog (testStart cfg ends) tes)).
Proof.
  intros Hcfg Hst Hq Hc Hl. set (s0 := testStart cfg ends) in *.
  assert (clocked (stamped (seen tes s0))) as Hc' by by apply stamped_clocked, seen_clocked.
  assert (linearizable MapModel (netLog s0 tes)) as Hlin.
  { destruct (test_simulated _ _ _ _ _ _ Hcfg Hst) as [_ Htr].
    eapply atomic_linearizable; [exact Htr|by apply quiet_nabs| |done]. by rewrite stamped_actions, seen_trace. }
  split; [done|]. intros Hne. apply linearizable_checksOk; [|done|done]. apply recorded_kvHistory.
  - unfold clocked. rewrite <-list_fmap_compose. exact Hc'.
  - pose proof (netLog_short tes s0). unfold zlen in *. rewrite length_fmap. lia.
Qed.

(** The run of [KvSrvNet], the events one unit apart. *)
Definition exampleNetTimed : list (Z * nevent) := imap (λ k e, (Z.of_nat k, e)) exampleNetRun.

Lemma kvsrv_net_log_linearizable_witness :
  netLog (testStart exampleCfg [11; 12]) exampleNetTimed =
    [mkOperation 1 (KIn (mkKvInput 0 "k" "")) 7 (KOut (mkKvOutput "a")) 26;
     mkOperation 0 (KIn (mkKvInput 3 "k" "a")) 0 (KOut (mkKvOutput "")) 34] ∧
  checksOk (netLog (testStart exampleCfg [11; 12]) exampleNetTimed).
Proof.
  assert (netLog (testStart exampleCfg [11; 12]) exampleNetTimed =
    [mkOperation 1 (KIn (mkKvInput 0 "k" "")) 7 (KOut (mkKvOutput "a")) 26;
     mkOperation 0 (KIn (mkKvInput 3 "k" "a")) 0 (KOut (mkKvOutput "")) 34]) as E by (vm_compute; reflexivity).
  split; [exact E|].
  refine (proj2 (kvsrv_net_log_linearizable 0 true [11; 12] exampleCfg exampleNetTimed exampleNetEnd _ _ _ _ _) _).
  - apply done_result. vm_compute. reflexivity.
  - apply has_result. vm_compute. reflexivity.
  - assert (clerks (flat exampleNetEnd) = [Idle (Some ""); Idle (Some "a")]) as Ec by (vm_compute; reflexivity).
    unfold quiet. rewrite Ec. by repeat constructor; eexists.
  - repeat constructor; done.
  - done.
  - rewrite E. done.
Defined.
