(* ===== verification/KvRaftClients.v ===== *)
(** * Clients of the replicated key/value service

    The clerks of [kvraft/client.go] as threads on top of the system of
    [KvRaftCluster]: a clerk numbers its requests, calls one server after another
    until one answers as leader, and runs one operation at a time.  The functions
    [Get], [Put] and [Append] of [kvraft/test_test.go] around it read the clock and log
    the operation for the checker; the log is part of the state. *)

From S2P Require Import Prelude Bitset Porcupine PorcupineSpec PorcupineFacts PorcupineOps PorcupineKv PorcupineLocal KvHistory.
From S2P Require Import Persister RaftNode RaftApplier RaftCluster.
From S2P Require Import KvRaft KvRaftLog KvRaftServer KvRaftCluster.
Open Scope go_scope.

(** The calls of a clerk. *)
Inductive request :=
  | RGet (key : string)
  | RPut (key value : string)
  | RAppend (key value : string).

(** The RPC of a request, with the identity of the client and the number of the request. *)
Definition callEvent (req : request) (client seq : Z) : event :=
  match req with
  | RGet key => CallGet (mkGetArgs key client seq)
  | RPut key value => CallPutAppend (mkPutAppendArgs key value "Put" client seq)
  | RAppend key value => CallPutAppend (mkPutAppendArgs key value "Append" client seq)
  end.

(** What the test logs of a request, and of the reply its clerk accepted. *)
Definition requestInput (req : request) : KvInput :=
  match req with
  | RGet key => mkKvInput 0 key EmptyString
  | RPut key value => mkKvInput 1 key value
  | RAppend key value => mkKvInput 2 key value
  end.
Definition requestResult (req : request) (r : reply) : string :=
  match req with RGet _ => r_Value r | _ => EmptyString end.

(** Where a clerk is: between operations, or waiting in [Call] at [server] for
    handler number [ch]; [start] is what the test read from the clock. *)
Inductive clerk_pc :=
  | CIdle
  | CWait (req : request) (seq start server : Z) (ch : nat).

Record client := mkClient { cl_ck : Clerk; cl_pc : clerk_pc }.

(** The service, its clients, and the log of the test. *)
Record world := mkWorld {
  w_sys : system;
  w_clients : list client;
  w_log : list (Operation kvValue);
}.

(** [SystemDoes]: a step of the peers and servers.  [ClientRetries]: [Call] returned
    false, or a reply that is not from a leader. *)
Inductive wevent :=
  | ClientCalls (c : nat) (req : request)
  | ClientRetries (c : nat)
  | ClientReturns (c : nat)
  | SystemDoes (act : action).

Section world.
Context `{!Gob (PersistentStatus Op)} `{!Gob SnapshotStatus}.

(** [Call] at [server]: the request starts a handler there.  A request that is lost
    or late is a handler that takes no step, or takes it later. *)
Definition send (sys : system) (server : Z) (req : request) (client seq : Z) : option (system * nat) :=
  '(s, _) ← idx (sys_kv sys) server;
  sys' ← sysStep (KvDoes server (callEvent req client seq)) sys;
  Some (sys', length (s_handlers s)).

Definition isCall (act : action) : bool :=
  match act with KvDoes _ (CallGet _) | KvDoes _ (CallPutAppend _) => true | _ => false end.

Definition wStep (t : Z) (e : wevent) (w : world) : option world :=
  match e with
  | ClientCalls c req =>
      cl ← w_clients w !! c;
      match cl_pc cl with
      | CIdle =>
          let ck := cl_ck cl in
          '(sys', ch) ← send (w_sys w) (ck_leader ck) req (ck_clientId ck) (ck_sequenceId ck);
          Some (mkWorld sys'
            (<[c := mkClient (mkClerk (ck_servers ck) (ck_leader ck) (ck_clientId ck) (ck_sequenceId ck + 1))
                             (CWait req (ck_sequenceId ck) t (ck_leader ck) ch)]> (w_clients w)) (w_log w))
      | _ => None
      end
  | ClientRetries c =>
      cl ← w_clients w !! c;
      match cl_pc cl with
      | CWait req seq start server _ =>
          let ck := cl_ck cl in
          let server' := Z.rem (server + 1) (ck_servers ck) in
          '(sys', ch) ← send (w_sys w) server' req (ck_clientId ck) seq;
          Some (mkWorld sys' (<[c := mkClient ck (CWait req seq start server' ch)]> (w_clients w)) (w_log w))
      | _ => None
      end
  | ClientReturns c =>
      cl ← w_clients w !! c;
      match cl_pc cl with
      | CWait req seq start server ch =>
          let ck := cl_ck cl in
          '(s, _) ← idx (sys_kv (w_sys w)) server;
          h ← s_handlers s !! ch;
          match h_pc h with
          | HDone r =>
              if r_Leader r then
                Some (mkWorld (w_sys w)
                  (<[c := mkClient (mkClerk (ck_servers ck) server (ck_clientId ck) (ck_sequenceId ck)) CIdle]> (w_clients w))
                  (w_log w ++ [mkOperation (Z.of_nat c) (KIn (requestInput req)) start
                                 (KOut (mkKvOutput (requestResult req r))) t]))
              else None
          | _ => None
          end
      | _ => None
      end
  | SystemDoes act =>
      if isCall act then None else
      sys' ← sysStep act (w_sys w);
      Some (mkWorld sys' (w_clients w) (w_log w))
  end.

(** A run: events with the clock at which they happen. *)
Definition wSteps (tes : list (Z * wevent)) (w : world) : option world :=
  foldM (λ w te, wStep te.1 te.2 w) tes w.

(** [n] servers with the limit [max] on the Raft state, and a clerk with each of the identities [ids]. *)
Definition initWorld (n : nat) (max : Z) (ids : list Z) : world :=
  mkWorld (initSystem n max) ((λ id, mkClient (MakeClerk (Z.of_nat n) id) CIdle) <$> ids) [].

(** The clients are done. *)
Definition clientsDone (w : world) : Prop := Forall (λ cl, cl_pc cl = CIdle) (w_clients w).

(** ** Handlers keep their request *)

Definition opsOf (s : server) : list (kind * Op) := (λ h, (h_kind h, h_op h)) <$> s_handlers s.

(** The requests an event adds to server [i]. *)
Definition newOps (e : event) : list (kind * Op) :=
  match e with
  | CallGet args => [(KGet, h_op (beginGet args))]
  | CallPutAppend args => [(KPutAppend, h_op (beginPutAppend args))]
  | _ => []
  end.
Definition newOpsAt (act : action) (i : Z) : list (kind * Op) :=
  match act with KvDoes j e => if decide (j = i) then newOps e else [] | _ => [] end.

Lemma opsOf_insert (hs : list handler) ch h pc :
  hs !! ch = Some h →
  (λ h, (h_kind h, h_op h)) <$> <[ch := mkHandler (h_kind h) (h_op h) pc]> hs = (λ h, (h_kind h, h_op h)) <$> hs.
Proof.
  intros Hh. rewrite list_fmap_insert. simpl. apply list_insert_id. by rewrite list_lookup_fmap, Hh.
Qed.

Lemma step_opsOf e s s' : step e s = Some s' → opsOf s' = opsOf s ++ newOps e.
Proof.
  intros H. unfold opsOf. destruct e as [args|args|ch st|msg|size|size|]; simpl in H |- *; rewrite ?app_nil_r.
  - injection H as <-. simpl. by rewrite fmap_app.
  - injection H as <-. simpl. by rewrite fmap_app.
  - inv_bind H. destruct x0 as [pc kv']. injection H as <-. simpl. by apply opsOf_insert.
  - destruct (s_apply s); try done. by injection H as <-.
  - destruct (s_apply s); try done. destruct (applyMsg _ _); try done; by injection H as <-.
  - destruct (s_apply s); try done. inv_bind H. destruct (h_pc x); try done. injection H as <-. simpl. by apply opsOf_insert.
  - by injection H as <-.
Qed.

(** What a step of the system does to its servers. *)
Definition evolvedTo act (sys sys' : system) : Prop :=
  length (sys_kv sys') = length (sys_kv sys) ∧
  ∀ i s' k', idx (sys_kv sys') i = Some (s', k') →
    ∃ s k, idx (sys_kv sys) i = Some (s, k) ∧ opsOf s' = opsOf s ++ newOpsAt act i ∧ (k ≤ k')%nat.

Lemma evolvedTo_put act (sys : system) w' i s k s' k' :
  idx (sys_kv sys) i = Some (s, k) → opsOf s' = opsOf s ++ newOpsAt act i → (k ≤ k')%nat →
  (∀ j, j ≠ i → newOpsAt act j = []) → evolvedTo act sys (putKv i s' k' (mkSystem w' (sys_kv sys))).
Proof.
  intros Hi Ho Hk Hj. pose proof (idx_lt _ _ _ Hi). split; simpl; [by rewrite length_insert|].
  intros j sj kj. destruct (decide (i = j)) as [<-|?].
  - rewrite idx_insert_eq by done. intros [= <- <-]. eauto.
  - rewrite idx_insert_ne by lia. intros Hjj. exists sj, kj. rewrite Hj by done. by rewrite app_nil_r.
Qed.

Lemma evolvedTo_same act (sys : system) w' : (∀ i, newOpsAt act i = []) → evolvedTo act sys (mkSystem w' (sys_kv sys)).
Proof. intros Ha. split; [done|]. intros i s' k' Hi. exists s', k'. rewrite Ha. by rewrite app_nil_r. Qed.

Lemma newOpsAt_other i e j : j ≠ i → newOpsAt (KvDoes i e) j = [].
Proof. intros ?. simpl. by rewrite decide_False. Qed.

Lemma sysStep_evolved act sys sys' : sysStep act sys = Some sys' → evolvedTo act sys sys'.
Proof.
  intros H. destruct act as [l|i e|i]; cbn [sysStep] in H.
  - destruct l; try done; case_match; try done; apply bind_Some in H as (w' & Hw & [= <-]); by apply evolvedTo_same.
  - destruct e as [args|args|ch r|m|size|size|]; try done; apply bind_Some in H as ([s k] & Hi & H).
    3: apply bind_Some in H as (h & Hh & H); destruct (h_pc h).
    4: apply bind_Some in H as (r' & Hr & H); apply bind_Some in H as (w' & Hw & H).
    all: apply bind_Some in H as (s' & Hs & H); apply step_opsOf in Hs.
    all: first [injection H as <- | apply bind_Some in H as (w' & Hw & [= <-])].
    all: try destruct sys as [w kvs]; (eapply evolvedTo_put; [exact Hi| |done|intros; by apply newOpsAt_other]).
    all: simpl; rewrite decide_True by done; done.
  - apply bind_Some in H as ([s k] & Hi & H). apply bind_Some in H as (sv & Hv & H).
    apply bind_Some in H as (m & Hm & H). apply bind_Some in H as (s' & Hs & [= <-]). apply step_opsOf in Hs.
    destruct sys as [w kvs]. eapply evolvedTo_put; [exact Hi|exact Hs|lia|done].
Qed.

(** A request that started a handler keeps it. *)
Lemma evolved_handler act sys sys' i s k ch x :
  evolvedTo act sys sys' → idx (sys_kv sys) i = Some (s, k) → opsOf s !! ch = Some x →
  ∃ s' k', idx (sys_kv sys') i = Some (s', k') ∧ opsOf s' !! ch = Some x ∧ (k ≤ k')%nat.
Proof.
  intros [Hl He] Hi Hx. destruct (idx_is_Some (sys_kv sys') i) as [[s' k'] Hi'].
  { apply idx_lt in Hi. unfold zlen in *. lia. }
  destruct (He _ _ _ Hi') as (s0 & k0 & Hi0 & Ho & Hk). simplify_eq. exists s', k'. split_and!; [done| |done].
  rewrite Ho. by apply lookup_app_l_Some.
Qed.
End world.
