(* ===== verification/KvRaftJournal.v ===== *)
(** * Where the operations of the clients are placed in the log

    The invariant of a run of the whole stack ([KvRaftClients]).  The servers have
    received prefixes of one log ([delivered]); a completed write has the place where
    its request is first executed in that log, a completed read the prefix it read
    from ([doneOk]).  A request enters the log only after it is called, and is
    answered only by a server that has received the log up to its place, so the
    places respect the clock ([j_order]). *)

From S2P Require Import Prelude Bitset Porcupine PorcupineSpec PorcupineFacts PorcupineOps PorcupineKv PorcupineLocal KvHistory.
From S2P Require Import Persister RaftNode RaftFollower RaftLeader RaftApplier RaftCluster RaftElection RaftLog RaftDelivery RaftInvariant RaftSafety RaftProvenance.
From S2P Require Import KvRaft KvRaftLog KvRaftServer KvRaftSafety KvRaftCluster KvRaftClients.
Open Scope go_scope.

(** ** Where a request is executed in a log *)

Section places.
Implicit Types (l : list Op) (op : Op) (c q : Z).

Lemma replay_take_S l i op : l !! i = Some op → replay (take (S i) l) = applyOp (replay (take i l)) op.
Proof. intros Hi. by rewrite (take_S_r _ _ op Hi), replay_app. Qed.

Lemma replay_take_dupLe l i j :
  (i ≤ j)%nat → dupLe (ss_Duptable (replay (take i l))) (ss_Duptable (replay (take j l))).
Proof.
  intros Hij. pose proof (replay_dupLe l (Z.of_nat i) (Z.of_nat j) ltac:(lia)) as H. unfold prefix in H. by rewrite !Nat2Z.id in H.
Qed.

(** The table holds sequence numbers of the log. *)
Lemma replay_table l c m :
  ss_Duptable (replay l) !! c = Some m → ∃ op, op ∈ l ∧ op_ClientId op = c ∧ op_SequenceId op = m.
Proof.
  induction l as [|op l IH] using rev_ind; [done|]. rewrite replay_app. simpl. unfold applyOp.
  destruct (isNew _ op); simpl; [|intros (o & ? & ?)%IH; exists o; set_solver].
  intros [[<- <-]|[_ (o & ? & ?)%IH]]%lookup_insert_Some; [exists op|exists o]; set_solver.
Qed.

(** The request is the entry at [i] and takes effect there. *)
Definition executedAt l (i : nat) op : Prop := l !! i = Some op ∧ isNew (ss_Duptable (replay (take i l))) op = true.

Lemma executedAt_first l c q :
  (∃ op, op ∈ l ∧ op_ClientId op = c ∧ op_SequenceId op = q) →
  (∀ op, op ∈ l → op_ClientId op = c → op_SequenceId op ≤ q) →
  ∃ i op, executedAt l i op ∧ op_ClientId op = c ∧ op_SequenceId op = q.
Proof.
  intros (op0 & Hin & Hc0 & Hq0) Hle.
  destruct (list_find (λ op, op_ClientId op = c ∧ op_SequenceId op = q) l) as [[i op]|] eqn:E.
  - apply list_find_Some in E as (Hi & [Hc Hq] & Hfirst). exists i, op. split; [|done]. split; [done|].
    unfold isNew. rewrite Hc. destruct (_ !! c) as [m|] eqn:Em; [|done]. apply Z.ltb_lt.
    destruct (replay_table _ _ _ Em) as (op' & Hop' & Hc' & Hm). apply elem_of_take in Hop' as (j & Hj & Hji).
    pose proof (Hle op' ltac:(by eapply list_elem_of_lookup_2) Hc'). assert (m ≠ q); [|lia].
    intros ->. by apply (Hfirst j op' Hj Hji).
  - apply list_find_None in E. rewrite Forall_forall in E. by destruct (E op0 Hin).
Qed.

Lemma executedAt_before l i j op op' :
  l !! i = Some op → executedAt l j op' → op_ClientId op = op_ClientId op' → op_SequenceId op = op_SequenceId op' → (j ≤ i)%nat.
Proof.
  intros Hi [Hj Hn] Hc Hq. destruct (decide (j ≤ i)%nat) as [|Hlt]; [done|exfalso].
  pose proof (applyOp_done (replay (take i l)) op) as Hd. rewrite <-replay_take_S in Hd by done.
  apply (replay_take_dupLe l (S i) j) in Hd as (m & Hm & Hle); [|lia].
  unfold isNew in Hn. rewrite <-Hc, Hm, <-Hq in Hn. apply Z.ltb_lt in Hn. lia.
Qed.

(** A request is executed once. *)
Lemma executedAt_unique l i j op op' :
  executedAt l i op → executedAt l j op' → op_ClientId op = op_ClientId op' → op_SequenceId op = op_SequenceId op' → i = j.
Proof.
  intros Hi Hj Hc Hq. pose proof (executedAt_before l i j op op' (proj1 Hi) Hj Hc Hq).
  pose proof (executedAt_before l j i op' op (proj1 Hj) Hi (eq_sym Hc) (eq_sym Hq)). lia.
Qed.

Lemma executedAt_grow l l' i op : l `prefix_of` l' → executedAt l i op → executedAt l' i op.
Proof.
  intros [k ->] [Hi Hn]. pose proof (lookup_lt_Some _ _ _ Hi). split; [by apply lookup_app_l_Some|].
  by rewrite take_app_le by lia.
Qed.

(** The data changes only where a write is executed. *)
Lemma replay_data_step l i op :
  l !! i = Some op →
  ss_Data (replay (take (S i) l)) =
  if isNew (ss_Duptable (replay (take i l))) op then execute op (ss_Data (replay (take i l))) else ss_Data (replay (take i l)).
Proof. intros Hi. rewrite (replay_take_S l i op Hi). unfold applyOp. by destruct (isNew _ op). Qed.
End places.

(** ** The commands delivered so far *)

Section delivered.
Context `{!Gob (PersistentStatus Op)} `{!Gob SnapshotStatus} (n : nat).
Implicit Types (sys : system) (log : list Op) (msgs : list (ApplyMsg Op)).

(** [log] is the longest sequence of commands a server received; every server
    received a prefix of it. *)
Record delivered sys log : Prop := {
  d_all i s msgs : received sys i s msgs → carries log msgs ∧ fed s msgs;
  d_some : log = [] ∨ ∃ i s msgs, received sys i s msgs ∧ omap Command msgs = log;
}.

Lemma carries_length log msgs : carries log msgs → (length msgs ≤ length log)%nat.
Proof.
  intros H. destruct msgs as [|m msgs _] using rev_ind; [simpl; lia|].
  destruct (H (length msgs) m) as (op & Hop%lookup_lt_Some & _); [by rewrite lookup_app_r, Nat.sub_diag by lia|].
  rewrite length_app. simpl. lia.
Qed.

Lemma longest (kvs : list (server * nat)) :
  kvs ≠ [] → ∃ i s k, idx kvs i = Some (s, k) ∧ ∀ j s' k', idx kvs j = Some (s', k') → (k' ≤ k)%nat.
Proof.
  induction kvs as [|[s0 k0] kvs IH]; intros Hne; [done|].
  assert (∀ j s k, idx ((s0, k0) :: kvs) j = Some (s, k) → (s = s0 ∧ k = k0) ∨ idx kvs (j - 1) = Some (s, k)) as Hinv.
  { intros j s k [Hj Hl]%idx_Some. destruct (Z.to_nat j) as [|m] eqn:E; simpl in Hl; [left; by simplify_eq|right].
    apply idx_Some. split; [lia|]. by replace (Z.to_nat (j - 1)) with m by lia. }
  destruct (decide (kvs = [])) as [->|Hk].
  { exists 0, s0, k0. split; [done|]. intros j s' k' [[-> ->]|Hj]%Hinv; [done|]. by apply idx_lt in Hj; unfold zlen in Hj; simpl in Hj; lia. }
  destruct (IH Hk) as (i & s & k & Hi & Hmax). destruct (decide (k0 ≤ k)%nat).
  - exists (i + 1), s, k. split.
    + apply idx_Some in Hi as [? Hi]. apply idx_Some. split; [lia|]. by replace (Z.to_nat (i + 1)) with (S (Z.to_nat i)) by lia.
    + intros j s' k' [[-> ->]|?]%Hinv; [done|by eapply Hmax].
  - exists 0, s0, k0. split; [done|]. intros j s' k' [[-> ->]|?%Hmax]%Hinv; lia.
Qed.

Lemma received_here sys i s k : wellFed sys → idx (sys_kv sys) i = Some (s, k) →
  ∃ msgs, received sys i s msgs ∧ fed s msgs ∧ length msgs = k.
Proof.
  intros Hw Hi. destruct (Hw i s k Hi) as (msgs & Hr & Hf). exists msgs. split_and!; [done|done|].
  destruct Hr as (k' & sv & Hk & _ & Hlen & ->). simplify_eq. rewrite length_take. lia.
Qed.

Lemma received_length sys i s k msgs : received sys i s msgs → idx (sys_kv sys) i = Some (s, k) → length msgs = k.
Proof. intros (k' & sv & Hk & _ & Hlen & ->) Hi. simplify_eq. rewrite length_take. lia. Qed.

Lemma delivered_exists sys : running n sys → ∃ log, delivered sys log.
Proof.
  intros Hr. destruct (running_wellFed n sys Hr) as [_ Hw].
  destruct (decide (sys_kv sys = [])) as [E|Hne].
  { exists []. split; [|by left]. intros i s msgs (k & sv & Hk & _). rewrite E in Hk. by unfold idx in Hk; destruct (0 <=? i). }
  destruct (longest _ Hne) as (i & s & k & Hi & Hmax). destruct (received_here _ _ _ _ Hw Hi) as (msgs & Hrec & Hf & Hlen).
  exists (omap Command msgs). split; [|right; eauto]. intros j s' msgs' Hrec'.
  destruct (common_log n sys sys i j s s' msgs msgs' Hr (later_refl _) Hrec Hrec') as (log & Hc & Hc' & _ & Hf'). split; [|done].
  intros m x Hx. destruct (Hc' m x Hx) as (op & Hop & ->). exists op. split; [|done].
  rewrite (carries_take _ _ Hc). rewrite lookup_take_lt; [done|].
  pose proof Hrec' as (k' & _ & Hk' & _). apply lookup_lt_Some in Hx.
  rewrite (received_length _ _ _ _ _ Hrec' Hk') in Hx. apply Hmax in Hk'. lia.
Qed.

Lemma delivered_grows act sys sys' log :
  running n sys → delivered sys log → sysStep act sys = Some sys' → ∃ log', delivered sys' log' ∧ log `prefix_of` log'.
Proof.
  intros Hr [_ Hsome] Hst. pose proof (running_step _ _ _ _ Hr Hst) as Hr'.
  destruct (delivered_exists sys' Hr') as [log' Hd']. exists log'. split; [done|].
  destruct Hsome as [->|(i & s & msgs & Hrec & <-)]; [apply prefix_nil|].
  destruct (sysStep_evolved _ _ _ Hst) as [Hl He]. pose proof Hrec as (k & _ & Hk & _). pose proof (received_length _ _ _ _ _ Hrec Hk) as Hlen.
  destruct (idx_is_Some (sys_kv sys') i) as [[s' k'] Hi']; [apply idx_lt in Hk; unfold zlen in *; lia|].
  destruct (He _ _ _ Hi') as (s0 & k0 & Hi0 & _ & Hle). simplify_eq.
  destruct (running_wellFed n sys' Hr') as [_ Hw']. destruct (received_here _ _ _ _ Hw' Hi') as (msgs' & Hrec' & _ & Hlen').
  destruct (d_all _ _ Hd' _ _ _ Hrec') as [Hc' _].
  destruct (common_log n sys sys' i i s s' msgs msgs' Hr ltac:(eapply later_step; [apply later_refl|exact Hst]) Hrec Hrec')
    as (L & Hc & HcL & _).
  assert (omap Command msgs `prefix_of` omap Command msgs') as Hp1.
  { rewrite (carries_take _ _ Hc), (carries_take _ _ HcL). 
    replace (take (length msgs) L) with (take (length msgs) (take (length msgs') L)) by (rewrite take_take; f_equal; lia). apply prefix_take. }
  etrans; [exact Hp1|]. rewrite (carries_take _ _ Hc'). apply prefix_take.
Qed.

(** A command of the log was sent by some peer. *)
Lemma delivered_from P sys log op :
  delivered sys log → clusterFrom P (sys_raft sys) → op ∈ log → P op.
Proof.
  intros [_ [->|(i & s & msgs & (k & sv & Hk & Hsv & _ & ->) & <-)]] Hcf Hop; [by apply elem_of_nil in Hop|].
  apply list_elem_of_omap in Hop as (m & Hm & Hc). apply elem_of_take in Hm as (j & Hj%list_elem_of_lookup_2 & _).
  destruct (from_server P _ _ _ Hcf Hsv) as [_ _ _ _ Hs]. rewrite Forall_forall in Hs. by apply (Hs m).
Qed.
End delivered.

(** ** The invariant *)

(** The command a request becomes, and the kind of its handler. *)
Definition opOf (req : request) (client seq : Z) : Op :=
  match req with
  | RGet key => mkOp GET key EmptyString client seq
  | RPut key value => mkOp PUT key value client seq
  | RAppend key value => mkOp APPEND key value client seq
  end.
Definition kindOf (req : request) : kind := match req with RGet _ => KGet | _ => KPutAppend end.

Lemma newOps_call req client seq : newOps (callEvent req client seq) = [(kindOf req, opOf req client seq)].
Proof. by destruct req. Qed.

Lemma opOf_ids req client seq : op_ClientId (opOf req client seq) = client ∧ op_SequenceId (opOf req client seq) = seq.
Proof. by destruct req. Qed.

(** The place of a completed operation: its position in the log, and which
    request of which client it is. *)
Record place := mkPlace { pl_pos : nat; pl_client : nat; pl_seq : nat }.

Section invariant.
Context `{!Gob (PersistentStatus Op)} `{!Gob SnapshotStatus} (n : nat) (ids : list Z).
Implicit Types (sys : system) (log : list Op) (reqs : list (list request)) (T : list (Operation kvValue * place)).
Implicit Types (cls : list client) (now : Z).

(** A request of a client: [reqs] holds the requests each client made so far. *)
Definition issued reqs (x : kind * Op) : Prop :=
  ∃ c q id rs req, ids !! c = Some id ∧ reqs !! c = Some rs ∧ rs !! q = Some req ∧
    x = (kindOf req, opOf req id (Z.of_nat q)).
Definition issuedOp reqs (op : Op) : Prop := ∃ kd, issued reqs (kd, op).

(** The servers and peers hold only requests of the clients. *)
Record sysOk reqs sys : Prop := {
  so_run : running n sys;
  so_from : clusterFrom (issuedOp reqs) (sys_raft sys);
  so_handlers i s k x : idx (sys_kv sys) i = Some (s, k) → x ∈ opsOf s → issued reqs x;
}.

(** Where and with which result an operation completed. *)
Definition doneOk reqs log (o : Operation kvValue) (pl : place) : Prop :=
  (1 ≤ pl_pos pl ≤ length log)%nat ∧
  ∃ id rs req out, ids !! pl_client pl = Some id ∧ reqs !! pl_client pl = Some rs ∧ rs !! pl_seq pl = Some req ∧
    Input o = KIn (requestInput req) ∧ Output o = KOut (mkKvOutput out) ∧
    match req with
    | RGet key => out = r_Value (readOf (replay (take (pl_pos pl) log)) key)
    | _ => executedAt log (pl_pos pl - 1) (opOf req id (Z.of_nat (pl_seq pl)))
    end.

(** The operations that returned before [start] are placed within the first [m0] commands,
    which do not contain the request of the waiting client. *)
Definition calledAfter log T (id seq start : Z) (m0 : nat) : Prop :=
  (m0 ≤ length log)%nat ∧
  (∀ x, x ∈ T → Return x.1 < start → (pl_pos x.2 ≤ m0)%nat) ∧
  ∀ i op, (i < m0)%nat → log !! i = Some op → op_ClientId op = id → op_SequenceId op ≠ seq.

Definition waitOk now sys log T (c : nat) (id : Z) (rs : list request) (pc : clerk_pc) : Prop :=
  match pc with
  | CIdle => True
  | CWait req seq start server ch => ∃ q,
      seq = Z.of_nat q ∧ S q = length rs ∧ rs !! q = Some req ∧ start ≤ now ∧
      (∃ s k, idx (sys_kv sys) server = Some (s, k) ∧ opsOf s !! ch = Some (kindOf req, opOf req id seq)) ∧
      (∀ x, x ∈ T → pl_client x.2 = c → pl_seq x.2 ≠ q) ∧
      ∃ m0, calledAfter log T id seq start m0
  end.

Record jinv now sys cls log reqs T : Prop := {
  j_len : length reqs = length ids;
  j_clients c cl : cls !! c = Some cl → ∃ id rs, ids !! c = Some id ∧ reqs !! c = Some rs ∧
    ck_clientId (cl_ck cl) = id ∧ ck_sequenceId (cl_ck cl) = Z.of_nat (length rs) ∧
    waitOk now sys log T c id rs (cl_pc cl);
  j_done : Forall (λ x, doneOk reqs log x.1 x.2) T;
  j_tags : NoDup ((λ x, (pl_client x.2, pl_seq x.2)) <$> T);
  j_order x y : x ∈ T → y ∈ T → Return x.1 < Call y.1 → (pl_pos x.2 < pl_pos y.2)%nat;
  j_times : Forall (λ x, Call x.1 ≤ Return x.1 ≤ now) T;
  j_complete c rs q : reqs !! c = Some rs → (q < length rs)%nat →
    (∃ x, x ∈ T ∧ pl_client x.2 = c ∧ pl_seq x.2 = q) ∨
    (S q = length rs ∧ ∃ cl, cls !! c = Some cl ∧ cl_pc cl ≠ CIdle);
}.

Definition winv now (w : world) log reqs T : Prop :=
  sysOk reqs (w_sys w) ∧ delivered (w_sys w) log ∧ jinv now (w_sys w) (w_clients w) log reqs T ∧ T.*1 = w_log w.

(** ** Requests *)

Lemma issued_mono reqs reqs' x :
  (∀ c rs, reqs !! c = Some rs → ∃ rs', reqs' !! c = Some rs' ∧ rs `prefix_of` rs') → issued reqs x → issued reqs' x.
Proof.
  intros Hr (c & q & id & rs & req & Hid & Hrs & Hq & ->). destruct (Hr _ _ Hrs) as (rs' & Hrs' & Hp).
  exists c, q, id, rs', req. split_and!; [done|done|by eapply prefix_lookup_Some|done].
Qed.

(** The requests of one client, when the identities are distinct. *)
Lemma issued_client reqs op c id rs :
  NoDup ids → issuedOp reqs op → op_ClientId op = id → ids !! c = Some id → reqs !! c = Some rs →
  ∃ q req, rs !! q = Some req ∧ op = opOf req id (Z.of_nat q).
Proof.
  intros Hnd (kd & c' & q & id' & rs' & req & Hid & Hrs & Hq & [= _ ->]) Hc Hidc Hrsc.
  destruct (opOf_ids req id' (Z.of_nat q)) as [E _]. rewrite E in Hc. subst id'.
  assert (c' = c) as -> by (by eapply NoDup_lookup). simplify_eq. eauto.
Qed.

Lemma issued_seq reqs op c id rs :
  NoDup ids → issuedOp reqs op → op_ClientId op = id → ids !! c = Some id → reqs !! c = Some rs →
  op_SequenceId op < Z.of_nat (length rs).
Proof.
  intros Hnd Hi Hc Hid Hrs. destruct (issued_client _ _ _ _ _ Hnd Hi Hc Hid Hrs) as (q & req & Hq & ->).
  destruct (opOf_ids req id (Z.of_nat q)) as [_ ->]. apply lookup_lt_Some in Hq. lia.
Qed.

Lemma sysOk_mono reqs reqs' sys :
  (∀ x, issued reqs x → issued reqs' x) → sysOk reqs sys → sysOk reqs' sys.
Proof.
  intros Hm [Hr Hf Hh]. split; [done| |eauto]. eapply clusterFrom_mono; [|exact Hf]. intros op [kd ?]. exists kd. auto.
Qed.

Lemma opsOf_elem s ch h : s_handlers s !! ch = Some h → (h_kind h, h_op h) ∈ opsOf s.
Proof. intros Hh. unfold opsOf. apply list_elem_of_fmap. exists h. split; [done|by eapply list_elem_of_lookup_2]. Qed.

Lemma from_compact P i snaps w w' : clusterFrom P w → compact i snaps w = Some w' → clusterFrom P w'.
Proof.
  revert w. induction snaps as [|sn snaps IH]; intros w Hf H; unfold compact in H; simpl in H; [by injection H as <-|].
  apply bind_Some in H as (w1 & H1 & H). eapply IH; [|exact H]. by apply (from_step P (ServiceSnapshot i sn.1 sn.2) w).
Qed.

Lemma sysOk_raft reqs act sys sys' :
  sysOk reqs sys → sysStep act sys = Some sys' → clusterFrom (issuedOp reqs) (sys_raft sys').
Proof.
  intros [_ Hf Hh] H. destruct act as [l|i e|i]; cbn [sysStep] in H.
  - destruct l; try done; destruct (keeps _ _); try done;
      apply bind_Some in H as (w' & Hw & [= <-]); by eapply from_step; [| |exact Hf|exact Hw].
  - destruct e as [args|args|ch r|m|size|size|]; try done; apply bind_Some in H as ([s k] & Hi & H).
    3: apply bind_Some in H as (h & Hhc & H); destruct (h_pc h).
    4: apply bind_Some in H as (r' & Hr & H); apply bind_Some in H as (w' & Hw & H).
    all: apply bind_Some in H as (s' & Hs & H); first [injection H as <- | apply bind_Some in H as (w' & Hw & [= <-])]; try done.
    all: try by eapply from_compact.
    eapply from_step; [| |exact Hf|exact Hw]; [done|]. exists (h_kind h). eapply Hh; [exact Hi|]. by eapply opsOf_elem.
  - apply bind_Some in H as ([s k] & Hi & H). apply bind_Some in H as (sv & Hv & H).
    apply bind_Some in H as (m & Hm & H). by apply bind_Some in H as (s' & Hs & [= <-]).
Qed.

Lemma sysOk_step reqs act sys sys' :
  sysOk reqs sys → (∀ i x, x ∈ newOpsAt act i → issued reqs x) → sysStep act sys = Some sys' → sysOk reqs sys'.
Proof.
  intros Hok Hnew Hst. split; [by eapply running_step; [apply Hok|]|by eapply sysOk_raft|].
  intros i s' k' x Hi Hx. destruct (sysStep_evolved _ _ _ Hst) as [_ He].
  destruct (He _ _ _ Hi) as (s & k & Hs & Ho & _). rewrite Ho in Hx.
  apply elem_of_app in Hx as [Hx|Hx]; [by eapply (so_handlers _ _ Hok)|by eapply Hnew].
Qed.

(** ** The steps of the servers and peers *)

Lemma take_grow {A} (l l' : list A) k : l `prefix_of` l' → (k ≤ length l)%nat → take k l' = take k l.
Proof. intros [x ->] Hk. by rewrite take_app_le. Qed.

Lemma doneOk_grow reqs reqs' log log' o pl :
  log `prefix_of` log' → (∀ c rs, reqs !! c = Some rs → ∃ rs', reqs' !! c = Some rs' ∧ rs `prefix_of` rs') →
  doneOk reqs log o pl → doneOk reqs' log' o pl.
Proof.
  intros Hp Hr [Hpos (id & rs & req & out & Hid & Hrs & Hreq & Hi & Ho & Hres)].
  pose proof (prefix_length _ _ Hp). split; [lia|]. destruct (Hr _ _ Hrs) as (rs' & Hrs' & Hpr).
  exists id, rs', req, out. split_and!; try done; [by eapply prefix_lookup_Some|].
  destruct req; [rewrite (take_grow log log') by (done || lia); done|by eapply executedAt_grow..].
Qed.

Lemma calledAfter_grow log log' T id seq start m0 :
  log `prefix_of` log' → calledAfter log T id seq start m0 → calledAfter log' T id seq start m0.
Proof.
  intros Hp (Hm & Hpos & Hno). pose proof (prefix_length _ _ Hp). split_and!; [lia|done|].
  intros i op Hi Hop. apply (Hno i op Hi). destruct Hp as [k ->]. rewrite lookup_app_l in Hop by lia. done.
Qed.

Lemma waitOk_grow now now' act sys sys' log log' T c id rs pc :
  now ≤ now' → evolvedTo act sys sys' → log `prefix_of` log' →
  waitOk now sys log T c id rs pc → waitOk now' sys' log' T c id rs pc.
Proof.
  intros Hn He Hp. destruct pc as [|req seq start server ch]; [done|].
  intros (q & Hq & Hl & Hreq & Hs & (s & k & Hi & Ho) & Hnew & m0 & Hm). exists q. split_and!; try done; [lia| |].
  - destruct (evolved_handler _ _ _ _ _ _ _ _ He Hi Ho) as (s' & k' & ? & ? & _). eauto.
  - exists m0. by eapply calledAfter_grow.
Qed.

Lemma jinv_grow now now' act sys sys' cls log log' reqs T :
  now ≤ now' → evolvedTo act sys sys' → log `prefix_of` log' →
  jinv now sys cls log reqs T → jinv now' sys' cls log' reqs T.
Proof.
  intros Hn He Hp [Hlen Hcl Hdone Htags Hord Htimes Hcomp]. split; try done.
  - intros c cl Hc. destruct (Hcl c cl Hc) as (id & rs & ? & ? & ? & ? & ?). exists id, rs. split_and!; try done.
    by eapply waitOk_grow.
  - eapply Forall_impl; [exact Hdone|]. intros x Hx. eapply doneOk_grow; [exact Hp|by eauto|exact Hx].
  - eapply Forall_impl; [exact Htimes|]. simpl. lia.
Qed.

(** ** A client sends its request again *)

Lemma jinv_retry now sys cls log reqs T c ck ck' req seq start server server' ch ch' s k :
  jinv now sys cls log reqs T → cls !! c = Some (mkClient ck (CWait req seq start server ch)) →
  ck_clientId ck' = ck_clientId ck → ck_sequenceId ck' = ck_sequenceId ck →
  idx (sys_kv sys) server' = Some (s, k) → opsOf s !! ch' = Some (kindOf req, opOf req (ck_clientId ck) seq) →
  jinv now sys (<[c := mkClient ck' (CWait req seq start server' ch')]> cls) log reqs T.
Proof.
  intros [Hlen Hcl Hdone Htags Hord Htimes Hcomp] Hc Hid Hseq Hi Ho. pose proof (lookup_lt_Some _ _ _ Hc) as Hlt.
  split; try done.
  - intros j cl. destruct (decide (c = j)) as [<-|?]; [|rewrite list_lookup_insert_ne by done; apply Hcl].
    rewrite list_lookup_insert_eq by done. intros [= <-]. destruct (Hcl _ _ Hc) as (id & rs & H1 & H2 & H3 & H4 & q & H5 & H6 & H7 & H8 & _ & H9 & H10).
    simpl in *. subst id. exists (ck_clientId ck), rs. split_and!; try done; [congruence|]. exists q. split_and!; try done. eauto.
  - intros j rs q Hrs Hq. destruct (Hcomp j rs q Hrs Hq) as [?|[? (cl & Hj & Hne)]]; [by left|right]. split; [done|].
    destruct (decide (c = j)) as [<-|?]; [|exists cl; by rewrite list_lookup_insert_ne].
    eexists. split; [by apply list_lookup_insert_eq|done].
Qed.

(** ** A client calls an operation *)

Definition addReq reqs (c : nat) (rs : list request) (req : request) : list (list request) := <[c := rs ++ [req]]> reqs.

Lemma addReq_grows reqs c rs req : reqs !! c = Some rs →
  ∀ j rs0, reqs !! j = Some rs0 → ∃ rs', addReq reqs c rs req !! j = Some rs' ∧ rs0 `prefix_of` rs'.
Proof.
  intros Hc j rs0 Hj. unfold addReq. destruct (decide (c = j)) as [<-|?].
  - rewrite list_lookup_insert_eq by (by eapply lookup_lt_Some). simplify_eq. eexists. split; [done|by apply prefix_app_r].
  - rewrite list_lookup_insert_ne by done. eauto.
Qed.

Lemma jinv_call now act sys sys' cls log log' reqs T c ck rs req t ch s k :
  NoDup ids → jinv now sys cls log reqs T → (∀ op, op ∈ log → issuedOp reqs op) →
  cls !! c = Some (mkClient ck CIdle) → reqs !! c = Some rs → now ≤ t → evolvedTo act sys sys' → log `prefix_of` log' →
  idx (sys_kv sys') (ck_leader ck) = Some (s, k) →
  opsOf s !! ch = Some (kindOf req, opOf req (ck_clientId ck) (ck_sequenceId ck)) →
  jinv t sys'
    (<[c := mkClient (mkClerk (ck_servers ck) (ck_leader ck) (ck_clientId ck) (ck_sequenceId ck + 1))
                     (CWait req (ck_sequenceId ck) t (ck_leader ck) ch)]> cls)
    log' (addReq reqs c rs req) T.
Proof.
  intros Hnd Hj Hlog Hc Hrs Ht He Hp Hi Ho. pose proof (lookup_lt_Some _ _ _ Hc) as Hlt. pose proof (lookup_lt_Some _ _ _ Hrs) as Hltr.
  pose proof (jinv_grow _ _ _ _ _ _ _ _ _ _ Ht He Hp Hj) as [Hlen Hcl Hdone Htags Hord Htimes Hcomp].
  destruct (j_clients _ _ _ _ _ _ Hj _ _ Hc) as (id & rs0 & Hid & Hrs0 & Hck & Hseq & _). simpl in *. simplify_eq.
  assert (∀ x, x ∈ T → (pl_pos x.2 ≤ length log)%nat ∧ (pl_client x.2 = c → (pl_seq x.2 < length rs)%nat)) as Hold.
  { intros x Hx. pose proof (j_done _ _ _ _ _ _ Hj) as Hd. rewrite Forall_forall in Hd.
    destruct (Hd x Hx) as [? (id' & rs' & req' & ? & ? & Hrs' & Hq%lookup_lt_Some & _)]. split; [lia|]. intros Hxc. rewrite Hxc in Hrs'. by simplify_eq. }
  split; try done.
  - unfold addReq. by rewrite length_insert.
  - intros j cl. destruct (decide (c = j)) as [<-|?].
    + rewrite list_lookup_insert_eq by done. intros [= <-]. unfold addReq. exists (ck_clientId ck), (rs ++ [req]). simpl.
      rewrite list_lookup_insert_eq by done. split_and!; try done; [rewrite length_app; simpl; lia|].
      exists (length rs). rewrite Hseq. split_and!; try done; [rewrite length_app; simpl; lia|by rewrite lookup_app_r, Nat.sub_diag by lia| | |].
      * exists s, k. by rewrite <-Hseq.
      * intros x Hx Hxc. destruct (Hold x Hx) as [_ Hq]. specialize (Hq Hxc). lia.
      * exists (length log). split_and!; [by apply prefix_length|by intros x Hx _; apply Hold|].
        intros i op Hil Hop Hco Hqo. destruct Hp as [l' ->]. rewrite lookup_app_l in Hop by done.
        pose proof (issued_seq reqs op c _ rs Hnd (Hlog op ltac:(by eapply list_elem_of_lookup_2)) Hco Hid Hrs). lia.
    + rewrite list_lookup_insert_ne by done. intros (id & rs0 & ? & ? & ? & ? & ?)%Hcl. exists id, rs0. unfold addReq.
      rewrite list_lookup_insert_ne by done. done.
  - eapply Forall_impl; [exact Hdone|]. intros x Hx. eapply doneOk_grow; [reflexivity|by apply addReq_grows|exact Hx].
  - intros j rs0 q. unfold addReq. destruct (decide (c = j)) as [<-|Hne].
    + rewrite list_lookup_insert_eq by done. intros [= <-]. rewrite length_app. simpl. intros Hq.
      destruct (decide (q = length rs)) as [->|?].
      * right. split; [lia|]. eexists. split; [by apply list_lookup_insert_eq|done].
      * destruct (Hcomp c rs q Hrs ltac:(lia)) as [?|[_ (cl & Hcc & Hpc)]]; [by left|]. by simplify_eq.
    + rewrite !list_lookup_insert_ne by done. apply Hcomp.
Qed.

(** ** A client accepts a reply *)

(** A [PutAppend] that answers as leader answers [OK]. *)
Definition leaderOk (h : handler) : Prop :=
  h_kind h = KPutAppend →
  match h_pc h with
  | HClean _ r | HDone r => r_Leader r = true → r_Err r = OK
  | HRead _ => False
  | _ => True
  end.

Lemma leaderOk_handlers s msgs : fed s msgs → Forall leaderOk (s_handlers s).
Proof.
  assert (∀ e s s', Forall leaderOk (s_handlers s) → step e s = Some s' → Forall leaderOk (s_handlers s')) as Hstep.
  { clear s msgs. intros e s s' Hs H. destruct e as [args|args|ch st|msg|size|size|]; simpl in H.
    - injection H as <-. apply Forall_app. split; [done|]. by repeat constructor.
    - injection H as <-. apply Forall_app. split; [done|]. by repeat constructor.
    - inv_bind H. destruct x0 as [pc kv']. injection H as <-. simpl. apply Forall_insert; [done|]. intros Hk.
      match goal with H : s_handlers s !! ch = Some x |- _ => rename H into Hx end.
      rewrite Forall_lookup in Hs. specialize (Hs _ _ Hx Hk). unfold handlerStep in *. simpl in *.
      destruct (h_pc x); cases; simpl in *; try done.
    - destruct (s_apply s); try done. by injection H as <-.
    - destruct (s_apply s); try done. destruct (applyMsg _ _); try done; by injection H as <-.
    - destruct (s_apply s) as [| |i c r|]; try done. inv_bind H. destruct (h_pc x); try done. injection H as <-. simpl.
      apply Forall_insert; [done|]. intros Hk. simpl in *. unfold woken. rewrite Hk. by destruct (_ && _).
    - by injection H as <-. }
  induction 1; [done|by eapply Hstep|by eapply Hstep].
Qed.

(** A request of [reqs] that a prefix of the log has executed, the last one of its client. *)
Lemma done_place reqs log (p : nat) c id rs q req :
  NoDup ids → (∀ op, op ∈ log → issuedOp reqs op) → ids !! c = Some id → reqs !! c = Some rs → S q = length rs → rs !! q = Some req →
  done (ss_Duptable (replay (take p log))) id (Z.of_nat q) →
  ∃ i, (i < p)%nat ∧ executedAt log i (opOf req id (Z.of_nat q)).
Proof.
  intros Hnd Hlog Hid Hrs Hq Hreq Hd.
  assert (∀ op, op ∈ take p log → op_ClientId op = id → op_SequenceId op ≤ Z.of_nat q) as Hle.
  { intros op Hop Hc. apply elem_of_take in Hop as (j & Hj%list_elem_of_lookup_2 & _).
    pose proof (issued_seq reqs op c id rs Hnd (Hlog op Hj) Hc Hid Hrs). lia. }
  destruct (executedAt_first (take p log) id (Z.of_nat q)) as (i & op & Hex & Hc & Hs); [|done|].
  { destruct (done_in_log _ _ _ Hd) as (op & Hop & Hc & Hs). exists op. split_and!; try done. pose proof (Hle op Hop Hc). lia. }
  pose proof (executedAt_grow _ log _ _ (prefix_take log p) Hex) as Hex'.
  assert (op = opOf req id (Z.of_nat q)) as ->.
  { destruct Hex' as [Hi _]. destruct (issued_client reqs op c id rs Hnd) as (q' & req' & Hq' & ->); try done;
      [by eapply Hlog, list_elem_of_lookup_2|].
    destruct (opOf_ids req' id (Z.of_nat q')) as [_ E]. rewrite E in Hs. apply Nat2Z.inj in Hs as ->. by simplify_eq. }
  exists i. split; [|done]. destruct Hex as [Hi%lookup_lt_Some _]. rewrite length_take in Hi. lia.
Qed.

(** Where the operation of an accepted reply is placed. *)
Lemma answered_place reqs sys log c id rs q req server s k ch h r :
  NoDup ids → sysOk reqs sys → delivered sys log →
  ids !! c = Some id → reqs !! c = Some rs → S q = length rs → rs !! q = Some req →
  idx (sys_kv sys) server = Some (s, k) → s_handlers s !! ch = Some h →
  h_kind h = kindOf req → h_op h = opOf req id (Z.of_nat q) → h_pc h = HDone r → r_Leader r = true →
  ∃ p, (1 ≤ p ≤ length log)%nat ∧
    match req with
    | RGet key => r_Value r = r_Value (readOf (replay (take p log)) key)
    | _ => executedAt log (p - 1) (opOf req id (Z.of_nat q))
    end ∧
    ∃ i, (i < p)%nat ∧ log !! i = Some (opOf req id (Z.of_nat q)).
Proof.
  intros Hnd Hok Hdel Hid Hrs Hq Hreq Hi Hh Hk Ho Hpc Hl.
  assert (∀ op, op ∈ log → issuedOp reqs op) as Hlog by (intros op; eapply delivered_from; [done|apply Hok]).
  destruct (running_wellFed n sys (so_run _ _ Hok)) as [_ Hw]. destruct (received_here _ _ _ _ Hw Hi) as (msgs & Hrec & Hf & _).
  destruct (d_all _ _ Hdel _ _ _ Hrec) as [Hc _]. pose proof (carries_length _ _ Hc) as Hlen.
  pose proof (fed_rinv log s msgs Hf Hc) as [(p0 & Hp0 & Hat) Hans]. pose proof (k_acked _ _ _ _ (fed_kinv log s msgs Hf Hc) ch h Hh) as Hack.
  destruct (opOf_ids req id (Z.of_nat q)) as [Eid Eseq].
  destruct (kindOf req) eqn:Ekind.
  - specialize (Hans ch h Hh Hk). rewrite Hpc in Hans. destruct (Hans Hl) as (p & Hp & Hd & Hr).
    rewrite Ho, Eid, Eseq in Hd. destruct (done_place reqs log (Z.to_nat p) c id rs q req) as (i & Hip & Hex & _); try done.
    exists (Z.to_nat p). unfold zlen in *. split; [lia|]. split; [|eauto].
    destruct req as [key| |]; try done. rewrite Hr, Ho. done.
  - specialize (Hack Hk). rewrite Hpc in Hack. pose proof (leaderOk_handlers s msgs Hf) as Hlo. rewrite Forall_lookup in Hlo.
    specialize (Hlo ch h Hh Hk). rewrite Hpc in Hlo. specialize (Hack (Hlo Hl)). rewrite Ho, Eid, Eseq in Hack.
    unfold at_ in Hat. change (duptable (s_kv s)) with (ss_Duptable (statusOf (s_kv s))) in Hack. rewrite Hat in Hack.
    destruct (done_place reqs log (Z.to_nat p0) c id rs q req) as (i & Hip & Hex); try done.
    exists (S i). unfold zlen in *. split; [lia|]. replace (S i - 1)%nat with i by lia. split; [by destruct req|].
    exists i. split; [lia|apply Hex].
Qed.

Lemma jinv_return now t reqs sys cls log T c ck ck' req seq start server ch s k h r :
  NoDup ids → sysOk reqs sys → delivered sys log → jinv now sys cls log reqs T → now ≤ t →
  cls !! c = Some (mkClient ck (CWait req seq start server ch)) →
  ck_clientId ck' = ck_clientId ck → ck_sequenceId ck' = ck_sequenceId ck →
  idx (sys_kv sys) server = Some (s, k) → s_handlers s !! ch = Some h → h_pc h = HDone r → r_Leader r = true →
  ∃ pl, jinv t sys (<[c := mkClient ck' CIdle]> cls) log reqs
    (T ++ [(mkOperation (Z.of_nat c) (KIn (requestInput req)) start (KOut (mkKvOutput (requestResult req r))) t, pl)]).
Proof.
  intros Hnd Hok Hdel Hj Ht Hc Hid' Hseq' Hi Hh Hpc Hl. pose proof Hj as [Hlen Hcl Hdone Htags Hord Htimes Hcomp].
  pose proof (lookup_lt_Some _ _ _ Hc) as Hlt.
  destruct (Hcl _ _ Hc) as (id & rs & Hid & Hrs & Hck & Hseq & q & -> & Hq & Hreq & Hst & (s0 & k0 & Hi0 & Ho) & Hnew & m0 & Hm0 & Hpos & Hno).
  simpl in *. rewrite Hi in Hi0. injection Hi0 as <- <-. unfold opsOf in Ho. rewrite list_lookup_fmap, Hh in Ho. injection Ho as Hk Ho.
  destruct (answered_place reqs sys log c id rs q req server s k ch h r) as (p & Hp & Hres & i & Hip & Hlogi); try done.
  assert (m0 < p)%nat as Hmp.
  { destruct (opOf_ids req id (Z.of_nat q)) as [E1 E2]. destruct (decide (i < m0)%nat) as [Him|]; [|lia].
    exfalso. by apply (Hno i _ Him Hlogi). }
  rewrite Forall_forall in Htimes. exists (mkPlace p c q). split; try done.
  - intros j cl. destruct (decide (c = j)) as [<-|?].
    + rewrite list_lookup_insert_eq by done. intros [= <-]. exists id, rs. simpl. split_and!; try done; congruence.
    + rewrite list_lookup_insert_ne by done. intros Hjc. destruct (Hcl _ _ Hjc) as (id2 & rs2 & H1 & H2 & H3 & H4 & Hwait). exists id2, rs2. split_and!; try done.
      destruct (cl_pc cl) as [|req2 seq2 start2 server2 ch2]; [done|].
      destruct Hwait as (q2 & ? & ? & ? & ? & ? & Hnew2 & m2 & ? & Hpos2 & ?). exists q2. split_and!; try done; [lia| |].
      * intros x [Hx| ->%list_elem_of_singleton]%elem_of_app; [by apply Hnew2|]. simpl. by intros ->.
      * exists m2. split_and!; try done. intros x [Hx| ->%list_elem_of_singleton]%elem_of_app; [by apply Hpos2|]. simpl. lia.
  - apply Forall_app. split; [done|]. constructor; [|done]. split; [done|]. simpl.
    exists id, rs, req, (requestResult req r). split_and!; try done. by destruct req.
  - rewrite fmap_app. apply NoDup_app. split_and!; [done| |apply NoDup_singleton].
    intros tag (x & -> & Hx)%list_elem_of_fmap Hin%list_elem_of_singleton. injection Hin as Hxc Hxq. by apply (Hnew x Hx).
  - intros x y [Hx| ->%list_elem_of_singleton]%elem_of_app [Hy| ->%list_elem_of_singleton]%elem_of_app; simpl; intros Hlt'; [by apply Hord| | |lia].
    + specialize (Hpos x Hx Hlt'). lia.
    + specialize (Htimes y Hy). lia.
  - apply Forall_app. split; [|constructor; [simpl; lia|done]]. apply Forall_forall. intros x Hx. specialize (Htimes x Hx). lia.
  - intros j rs0 q0 Hrs0 Hq0. destruct (Hcomp j rs0 q0 Hrs0 Hq0) as [(x & ? & ?)|[Hql (cl & Hjc & Hpcl)]].
    + left. exists x. split; [set_solver|done].
    + destruct (decide (c = j)) as [<-|?].
      * left. eexists. split; [apply elem_of_app; right; by apply list_elem_of_singleton|]. simpl. split; [done|]. simplify_eq. lia.
      * right. split; [done|]. exists cl. by rewrite list_lookup_insert_ne.
Qed.

(** ** Every run *)

Lemma send_Some sys server req client seq sys' ch :
  send sys server req client seq = Some (sys', ch) →
  sysStep (KvDoes server (callEvent req client seq)) sys = Some sys' ∧
  ∃ s' k', idx (sys_kv sys') server = Some (s', k') ∧ opsOf s' !! ch = Some (kindOf req, opOf req client seq).
Proof.
  unfold send. intros H. apply bind_Some in H as ([s k] & Hi & H). apply bind_Some in H as (sys1 & Hst & [= <- <-]).
  split; [done|]. destruct (sysStep_evolved _ _ _ Hst) as [Hl He].
  destruct (idx_is_Some (sys_kv sys1) server) as [[s' k'] Hi']; [apply idx_lt in Hi; unfold zlen in *; lia|].
  destruct (He _ _ _ Hi') as (s0 & k0 & Hi0 & Ho & _). simplify_eq. exists s', k'. split; [done|].
  rewrite Ho. simpl. rewrite decide_True by done. rewrite newOps_call. unfold opsOf.
  rewrite lookup_app_r by (by rewrite length_fmap). by rewrite length_fmap, Nat.sub_diag.
Qed.

Lemma issued_call reqs server req c id rs i x q :
  ids !! c = Some id → reqs !! c = Some rs → rs !! q = Some req →
  x ∈ newOpsAt (KvDoes server (callEvent req id (Z.of_nat q))) i → issued reqs x.
Proof.
  intros Hid Hrs Hq Hx. simpl in Hx. destruct (decide (server = i)); [|by apply elem_of_nil in Hx].
  rewrite newOps_call in Hx. apply list_elem_of_singleton in Hx as ->. by exists c, q, id, rs, req.
Qed.

(** The servers and peers move, the log grows. *)
Lemma winv_sys reqs sys log act sys' :
  sysOk reqs sys → delivered sys log → sysStep act sys = Some sys' →
  evolvedTo act sys sys' ∧ ∃ log', delivered sys' log' ∧ log `prefix_of` log'.
Proof. intros Hok Hdel Hst. split; [by apply sysStep_evolved|]. eapply delivered_grows; [apply Hok|done|done]. Qed.

Lemma winv_step now t e w w' log reqs T :
  NoDup ids → winv now w log reqs T → now ≤ t → wStep t e w = Some w' → ∃ log' reqs' T', winv t w' log' reqs' T'.
Proof.
  intros Hnd (Hok & Hdel & Hj & HT) Ht Hst.
  assert (∀ op, op ∈ log → issuedOp reqs op) as Hlog by (intros op; eapply delivered_from; [done|apply Hok]).
  destruct e as [c req|c|c|act]; simpl in Hst.
  - apply bind_Some in Hst as ([ck pc] & Hc & Hst). simpl in Hst. destruct pc; [|done].
    apply bind_Some in Hst as ([sys' ch] & Hsend & [= <-]). destruct (send_Some _ _ _ _ _ _ _ Hsend) as (Hs & s' & k' & Hi & Ho).
    destruct (j_clients _ _ _ _ _ _ Hj _ _ Hc) as (id & rs & Hid & Hrs & Hck & Hseq & _). simpl in Hck, Hseq.
    destruct (winv_sys _ _ _ _ _ Hok Hdel Hs) as (He & log' & Hdel' & Hp).
    exists log', (addReq reqs c rs req), T. split_and!; [|done|by eapply jinv_call|done].
    eapply sysOk_step; [|intros i x Hx; eapply (issued_call (addReq reqs c rs req) _ req c id (rs ++ [req]) i x (length rs))|exact Hs].
    + eapply sysOk_mono; [|exact Hok]. intros x. apply issued_mono. by apply addReq_grows.
    + done.
    + unfold addReq. apply list_lookup_insert_eq. by eapply lookup_lt_Some.
    + by rewrite lookup_app_r, Nat.sub_diag by lia.
    + rewrite Hck, Hseq in Hx. exact Hx.
  - apply bind_Some in Hst as ([ck pc] & Hc & Hst). simpl in Hst. destruct pc as [|req seq start server ch0]; [done|].
    apply bind_Some in Hst as ([sys' ch] & Hsend & [= <-]). destruct (send_Some _ _ _ _ _ _ _ Hsend) as (Hs & s' & k' & Hi & Ho).
    destruct (j_clients _ _ _ _ _ _ Hj _ _ Hc) as (id & rs & Hid & Hrs & Hck & Hseq & q & -> & Hq & Hreq & _). simpl in Hck, Hseq.
    destruct (winv_sys _ _ _ _ _ Hok Hdel Hs) as (He & log' & Hdel' & Hp). exists log', reqs, T. split_and!; [|done| |done].
    + eapply sysOk_step; [exact Hok|intros i x Hx; by eapply (issued_call reqs _ req c id rs i x q); [| | |rewrite <-Hck]|exact Hs].
    + eapply jinv_retry; [by eapply jinv_grow|exact Hc|done|done|exact Hi|exact Ho].
  - apply bind_Some in Hst as ([ck pc] & Hc & Hst). simpl in Hst. destruct pc as [|req seq start server ch]; [done|].
    apply bind_Some in Hst as ([s k] & Hi & Hst). apply bind_Some in Hst as (h & Hh & Hst).
    destruct (h_pc h) eqn:Hpc; try done. destruct (r_Leader r) eqn:Hl; [|done]. injection Hst as <-.
    destruct (jinv_return now t reqs (w_sys w) (w_clients w) log T c ck
      (mkClerk (ck_servers ck) server (ck_clientId ck) (ck_sequenceId ck)) req seq start server ch s k h r) as [pl Hj']; try done.
    exists log, reqs, (T ++ [(mkOperation (Z.of_nat c) (KIn (requestInput req)) start (KOut (mkKvOutput (requestResult req r))) t, pl)]).
    split_and!; [done|done|done|]. simpl. by rewrite fmap_app, HT.
  - destruct (isCall act) eqn:Hact; [done|]. apply bind_Some in Hst as (sys' & Hs & [= <-]).
    destruct (winv_sys _ _ _ _ _ Hok Hdel Hs) as (He & log' & Hdel' & Hp). exists log', reqs, T.
    split_and!; [|done|by eapply jinv_grow|done]. eapply sysOk_step; [exact Hok| |exact Hs].
    intros i x Hx. destruct act as [l|j e|j]; try by apply elem_of_nil in Hx.
    simpl in Hx. destruct (decide (j = i)); [|by apply elem_of_nil in Hx]. by destruct e; try by apply elem_of_nil in Hx.
Qed.

Lemma winv_init max now : winv now (initWorld n max ids) [] (replicate (length ids) []) [].
Proof.
  split_and!; [| | |done].
  - split; simpl; [exists max; apply later_refl|apply from_init|]. intros i s k x Hi Hx.
    apply idx_Some in Hi as [_ [[= -> ->] _]%lookup_replicate]. by apply elem_of_nil in Hx.
  - split; [|by left]. intros i s msgs (k & sv & Hk & _ & _ & ->). simpl in Hk.
    apply idx_Some in Hk as [_ [[= -> ->] _]%lookup_replicate]. split; [done|apply fed_start].
  - split; simpl; [by rewrite length_replicate| |constructor|constructor|by intros x y ?%elem_of_nil|constructor|].
    + intros c cl Hc. rewrite list_lookup_fmap in Hc. destruct (ids !! c) as [id|] eqn:Hid; [|done]. injection Hc as <-.
      exists id, []. simpl. split_and!; try done. apply lookup_replicate_2. by eapply lookup_lt_Some.
    + intros c rs q [-> _]%lookup_replicate Hq. simpl in Hq. lia.
Qed.

Lemma wSteps_winv now tes w w' log reqs T :
  NoDup ids → winv now w log reqs T → clocked tes → Forall (Z.le now) tes.*1 → wSteps tes w = Some w' →
  ∃ now' log' reqs' T', winv now' w' log' reqs' T'.
Proof.
  intros Hnd. revert now w log reqs T. induction tes as [|[t e] tes IH]; intros now w log reqs T Hw Hc Hn Hst.
  { injection Hst as <-. eauto. }
  inversion Hc as [|? ? Hs Hall]; subst. inversion Hn; subst. unfold wSteps in Hst. simpl in Hst.
  destruct (wStep t e w) as [w1|] eqn:E; [|done]. simpl in Hst.
  destruct (winv_step _ _ _ _ _ _ _ _ Hnd Hw ltac:(done) E) as (log1 & reqs1 & T1 & Hw1). by eapply IH.
Qed.
End invariant.
