(* ===== verification/KvRaftLinear.v ===== *)
(** * The histories of the replicated store are linearizable

    A run of the whole stack - clerks, servers, Raft peers, a network that loses,
    delays and reorders - is logged by the test as a linearizable history: the order
    of the places of [KvRaftJournal], the write at a position before the reads
    there, respects the clock and is accepted by the model. *)

From S2P Require Import Prelude Bitset Porcupine PorcupineSpec PorcupineFacts PorcupineOps PorcupineKv PorcupineLocal KvHistory.
From S2P Require Import Persister RaftNode RaftFollower RaftLeader RaftApplier RaftCluster RaftElection RaftLog RaftDelivery RaftInvariant RaftSafety RaftProvenance.
From S2P Require Import KvRaft KvRaftLog KvRaftServer KvRaftSafety KvRaftCluster KvRaftClients KvRaftJournal.
Open Scope go_scope.

Section order.
Context `{!Gob (PersistentStatus Op)} `{!Gob SnapshotStatus} (n : nat) (ids : list Z).
Implicit Types (sys : system) (log : list Op) (reqs : list (list request)) (T : list (Operation kvValue * place)).
Implicit Types (cls : list client) (now : Z).

#[local] Abbreviation doneOk := (doneOk ids).
#[local] Abbreviation issuedOp := (issuedOp ids).
#[local] Abbreviation jinv := (jinv ids).
#[local] Abbreviation winv := (winv n ids).

(** ** The order of the log *)

Definition readOp (o : Operation kvValue) : bool :=
  match Input o with KIn i => PorcupineKv.Op i =? 0 | _ => false end.

(** The operations placed at position [S k], the write first; those in [(k, k + m]]. *)
Definition atPos T (k : nat) : list (Operation kvValue * place) :=
  filter (λ x, pl_pos x.2 = S k ∧ readOp x.1 = false) T ++ filter (λ x, pl_pos x.2 = S k ∧ readOp x.1 = true) T.
Fixpoint linFrom T (k m : nat) : list (Operation kvValue * place) :=
  match m with O => [] | S m' => atPos T k ++ linFrom T (S k) m' end.

Lemma filter_parts {A} (P Q R : A → Prop) `{∀ x, Decision (P x)} `{∀ x, Decision (Q x)} `{∀ x, Decision (R x)} (l : list A) :
  (∀ x, P x ↔ Q x ∨ R x) → (∀ x, Q x → ¬ R x) → filter P l ≡ₚ filter Q l ++ filter R l.
Proof.
  intros HP HQR. induction l as [|x l IH]; [done|]. rewrite !filter_cons.
  destruct (decide (Q x)) as [Hq|Hq]; [|destruct (decide (R x)) as [Hr|Hr]].
  - rewrite decide_True by (apply HP; by left). rewrite decide_False by auto. by rewrite IH.
  - rewrite decide_True by (apply HP; by right). rewrite IH. by rewrite Permutation_middle.
  - rewrite decide_False; [done|]. by intros [?|?]%HP.
Qed.

Lemma atPos_perm T k : atPos T k ≡ₚ filter (λ x, pl_pos x.2 = S k) T.
Proof.
  symmetry. unfold atPos. apply filter_parts; [|intros x [? Hx] [? Hy]; congruence].
  intros x. destruct (readOp x.1); naive_solver.
Qed.

Lemma linFrom_perm T k m : linFrom T k m ≡ₚ filter (λ x, (k < pl_pos x.2 ≤ k + m)%nat) T.
Proof.
  revert k. induction m as [|m IH]; intros k; simpl.
  - induction T as [|x T IHT]; [done|]. by rewrite filter_cons_False by lia.
  - rewrite atPos_perm, IH. symmetry. apply filter_parts; intros x; lia.
Qed.

Lemma atPos_elem T k x : x ∈ atPos T k → x ∈ T ∧ pl_pos x.2 = S k.
Proof. rewrite atPos_perm. intros [? ?]%list_elem_of_filter. done. Qed.

Lemma linFrom_elem T k m x : x ∈ linFrom T k m → x ∈ T ∧ (k < pl_pos x.2 ≤ k + m)%nat.
Proof. rewrite linFrom_perm. intros [? ?]%list_elem_of_filter. done. Qed.

Lemma StronglySorted_const {A} (R : A → A → Prop) (l : list A) : (∀ x y, x ∈ l → y ∈ l → R x y) → StronglySorted R l.
Proof.
  induction l as [|x l IH]; intros H; constructor; [apply IH; intros; apply H; set_solver|].
  apply Forall_forall. intros y Hy. apply H; set_solver.
Qed.

Lemma linFrom_sorted T k m : StronglySorted (λ x y, (pl_pos x.2 ≤ pl_pos y.2)%nat) (linFrom T k m).
Proof.
  revert k. induction m as [|m IH]; intros k; simpl; [constructor|]. apply StronglySorted_app. split_and!; [|apply StronglySorted_const|apply IH].
  - intros x y [_ Hx]%atPos_elem [_ Hy]%linFrom_elem. lia.
  - intros x y [_ Hx]%atPos_elem [_ Hy]%atPos_elem. lia.
Qed.

Lemma linFrom_all reqs log T : Forall (λ x, doneOk reqs log x.1 x.2) T → linFrom T 0 (length log) ≡ₚ T.
Proof.
  intros Hd. rewrite linFrom_perm. replace (filter _ T) with T; [done|]. symmetry. apply filter_all.
  intros x Hx. rewrite Forall_forall in Hd. destruct (Hd x Hx) as [? _]. lia.
Qed.

(** ** The checker accepts the order *)

Lemma readOf_value st key : r_Value (readOf st key) = default EmptyString (ss_Data st !! key).
Proof. unfold readOf. by destruct (ss_Data st !! key). Qed.

Lemma sameValues_id st k : sameValues st (<[k := default EmptyString (st !! k)]> st).
Proof. intros k'. destruct (decide (k = k')) as [<-|?]; [by rewrite lookup_insert_eq|by rewrite lookup_insert_ne]. Qed.

Lemma run_reads reqs log k xs l :
  Forall (λ x, doneOk reqs log x.1 x.2 ∧ pl_pos x.2 = S k ∧ readOp x.1 = true) xs →
  is_Some (runList MapModel l (ss_Data (replay (take (S k) log)))) →
  is_Some (runList MapModel (xs.*1 ++ l) (ss_Data (replay (take (S k) log)))).
Proof.
  intros Hxs Hl. induction Hxs as [|[o pl] xs ([_ (id & rs & req & out & _ & _ & _ & Hi & Ho & Hres)] & Hp & Hr) _ IH]; [done|].
  simpl in *. destruct o as [cid inp t0 outp t1]. simpl in *. subst inp outp. rewrite Hp in Hres.
  unfold readOp in Hr. simpl in Hr. destruct req as [key| |]; try done.
  eapply runList_cons; [| | |exact IH]; simpl; [|apply sameValues_id|lia].
  intros _. by rewrite Hres, readOf_value.
Qed.

(** A write at its place. *)
Lemma run_write reqs log k x l :
  doneOk reqs log x.1 x.2 → pl_pos x.2 = S k → readOp x.1 = false →
  is_Some (runList MapModel l (ss_Data (replay (take (S k) log)))) →
  is_Some (runList MapModel (x.1 :: l) (ss_Data (replay (take k log)))).
Proof.
  destruct x as [[cid inp t0 outp t1] pl]. simpl. intros [_ (id & rs & req & out & _ & _ & _ & Hi & Ho & Hres)] Hp Hr Hl. simpl in *. subst inp outp.
  unfold readOp in Hr. simpl in Hr. rewrite Hp in Hres. replace (S k - 1)%nat with k in Hres by lia.
  eapply runList_cons; [| | |exact Hl]; destruct req as [key|key value|key value]; simpl in *; try done; try lia;
    destruct Hres as [Hk Hn]; rewrite (replay_data_step _ _ _ Hk), Hn; unfold execute; simpl; [done|].
  destruct (ss_Data (replay (take k log)) !! key); done.
Qed.

Lemma NoDup_fmap_inj {A B} (f : A → B) (l : list A) x y : NoDup (f <$> l) → x ∈ l → y ∈ l → f x = f y → x = y.
Proof.
  intros Hnd [i Hi]%list_elem_of_lookup [j Hj]%list_elem_of_lookup E.
  assert (i = j) as ->; [|congruence]. eapply NoDup_lookup; [exact Hnd|by rewrite list_lookup_fmap, Hi|by rewrite list_lookup_fmap, Hj; simpl; rewrite E].
Qed.

(** At most one write is placed at a position. *)
Lemma write_unique now sys cls log reqs T k x y :
  NoDup ids → jinv now sys cls log reqs T → x ∈ T → y ∈ T →
  pl_pos x.2 = S k → pl_pos y.2 = S k → readOp x.1 = false → readOp y.1 = false → x = y.
Proof.
  intros Hnd Hj Hx Hy Hpx Hpy Hrx Hry. eapply NoDup_fmap_inj; [apply Hj|done|done|].
  pose proof (j_done _ _ _ _ _ _ _ Hj) as Hd. rewrite Forall_forall in Hd.
  destruct (Hd x Hx) as [_ (id & rs & req & out & Hid & _ & _ & Hi & _ & Hres)].
  destruct (Hd y Hy) as [_ (id' & rs' & req' & out' & Hid' & _ & _ & Hi' & _ & Hres')].
  unfold readOp in *. rewrite Hi in Hrx. rewrite Hi' in Hry. rewrite Hpx in Hres. rewrite Hpy in Hres'.
  assert (executedAt log (S k - 1) (opOf req id (Z.of_nat (pl_seq x.2)))) as [Hk _] by (by destruct req).
  assert (executedAt log (S k - 1) (opOf req' id' (Z.of_nat (pl_seq y.2)))) as [Hk' _] by (by destruct req').
  rewrite Hk in Hk'. injection Hk' as E. destruct (opOf_ids req id (Z.of_nat (pl_seq x.2))) as [E1 E2].
  destruct (opOf_ids req' id' (Z.of_nat (pl_seq y.2))) as [E3 E4]. rewrite E in E1, E2. rewrite E3 in E1. rewrite E4 in E2. subst id'.
  apply Nat2Z.inj in E2. rewrite <-E2. f_equal. by eapply NoDup_lookup.
Qed.

(** Where no write is placed, the data stays. *)
Lemma no_write now sys cls log reqs T k op :
  jinv now sys cls log reqs T → Forall (λ cl, cl_pc cl = CIdle) cls → issuedOp reqs op → log !! k = Some op →
  (∀ x, x ∈ T → pl_pos x.2 = S k → readOp x.1 = true) →
  ss_Data (replay (take (S k) log)) = ss_Data (replay (take k log)).
Proof.
  intros Hj Hidle (kd & c & q & id & rs & req & Hid & Hrs & Hq & [= _ ->]) Hk Hno.
  rewrite (replay_data_step _ _ _ Hk). destruct (isNew _ _) eqn:Hn; [|done].
  destruct (j_complete _ _ _ _ _ _ _ Hj c rs q Hrs (lookup_lt_Some _ _ _ Hq)) as [(x & Hx & Hxc & Hxq)|[_ (cl & Hcl & Hpc)]].
  2:{ rewrite Forall_lookup in Hidle. by destruct Hpc; eapply Hidle. }
  pose proof (j_done _ _ _ _ _ _ _ Hj) as Hd. rewrite Forall_forall in Hd.
  destruct (Hd x Hx) as [Hpos (id' & rs' & req' & out & Hid' & Hrs' & Hq' & Hi & _ & Hres)]. subst c q. simplify_eq.
  destruct (opOf_ids req id (Z.of_nat (pl_seq x.2))) as [E1 E2].
  destruct req as [key|key value|key value]; [done|exfalso..].
  all: assert (pl_pos x.2 - 1 = k)%nat as Hpk by (eapply executedAt_unique; [exact Hres|split; [exact Hk|exact Hn]|done|done]).
  all: specialize (Hno x Hx ltac:(lia)); unfold readOp in Hno; by rewrite Hi in Hno.
Qed.

Lemma linFrom_run now sys cls log reqs T k m :
  NoDup ids → jinv now sys cls log reqs T → Forall (λ cl, cl_pc cl = CIdle) cls → (∀ op, op ∈ log → issuedOp reqs op) →
  (k + m)%nat = length log → is_Some (runList MapModel (linFrom T k m).*1 (ss_Data (replay (take k log)))).
Proof.
  intros Hnd Hj Hidle Hlog. revert k. induction m as [|m IH]; intros k Hm; simpl; [by eexists|].
  specialize (IH (S k) ltac:(lia)). destruct (lookup_lt_is_Some_2 log k) as [op Hop]; [lia|].
  unfold atPos. rewrite !fmap_app, <-app_assoc.
  pose proof (j_done _ _ _ _ _ _ _ Hj) as Hd. rewrite Forall_forall in Hd.
  set (reads := filter (λ x, pl_pos x.2 = S k ∧ readOp x.1 = true) T).
  assert (is_Some (runList MapModel (reads.*1 ++ (linFrom T (S k) m).*1) (ss_Data (replay (take (S k) log))))) as Hreads.
  { apply (run_reads reqs); [|done]. apply Forall_forall. intros x [[? ?] Hx]%list_elem_of_filter. split_and!; [by apply Hd|done|done]. }
  destruct (filter (λ x, pl_pos x.2 = S k ∧ readOp x.1 = false) T) as [|x ws] eqn:Ew.
  - simpl. rewrite <-(no_write now sys cls log reqs T k op); try done; [by apply Hlog; eapply list_elem_of_lookup_2|].
    intros x Hx Hpx. destruct (readOp x.1) eqn:Er; [done|]. exfalso.
    assert (x ∈ filter (λ x, pl_pos x.2 = S k ∧ readOp x.1 = false) T) as Hin by (by apply list_elem_of_filter).
    rewrite Ew in Hin. by apply elem_of_nil in Hin.
  - assert (∀ y, y ∈ x :: ws → y ∈ T ∧ pl_pos y.2 = S k ∧ readOp y.1 = false) as Hall.
    { intros y. rewrite <-Ew. intros [[? ?] ?]%list_elem_of_filter. done. }
    destruct (Hall x) as (Hx & Hpx & Hrx); [set_solver|].
    assert (ws = []) as ->.
    { destruct ws as [|y ws]; [done|exfalso]. destruct (Hall y) as (Hy & Hpy & Hry); [set_solver|].
      assert (x = y) as -> by (by eapply write_unique).
      assert (NoDup (y :: y :: ws)) as Hnd'.
      { rewrite <-Ew. apply NoDup_filter. eapply NoDup_fmap_1. apply Hj. }
      apply NoDup_cons in Hnd' as [Hny _]. set_solver. }
    simpl. eapply run_write; [by apply Hd|done|done|done].
Qed.

Lemma winv_linearizable now w log reqs T :
  NoDup ids → winv now w log reqs T → clientsDone w →
  linearizable MapModel (w_log w) ∧ Forall (λ o, typed o ∧ Call o ≤ Return o) (w_log w).
Proof.
  intros Hnd (Hok & Hdel & Hj & <-) Hidle. pose proof Hj as [_ _ Hd _ Hord Ht _].
  assert (∀ op, op ∈ log → issuedOp reqs op) as Hlog by (intros op; eapply delivered_from; [done|apply Hok]).
  pose proof (linFrom_all _ _ _ Hd) as Hp. split.
  - apply (ordered_linearizable MapModel (linFrom T 0 (length log)).*1).
    + by rewrite Hp.
    + unfold timed. rewrite Forall_fmap, Hp. eapply Forall_impl; [exact Ht|]. simpl. lia.
    + pose proof (linFrom_sorted T 0 (length log)) as Hs. unfold KvHistory.inOrder.
      assert (∀ x, x ∈ linFrom T 0 (length log) → x ∈ T) as Hin by (intros x; by rewrite Hp).
      clear -Hs Hin Hord. induction Hs as [|x l Hs IH Hall]; simpl; constructor; [apply IH; set_solver|].
      apply Forall_fmap, Forall_forall. intros y Hy. rewrite Forall_forall in Hall. specialize (Hall y Hy). simpl in *.
      destruct (Z.le_gt_cases (Call x.1) (Return y.1)) as [|Hgt]; [done|]. pose proof (Hord y x ltac:(set_solver) ltac:(set_solver) ltac:(lia)). lia.
    + exact (linFrom_run _ _ _ _ _ _ 0 (length log) Hnd Hj Hidle Hlog eq_refl).
  - apply Forall_fmap, Forall_forall. intros x Hx. rewrite Forall_forall in Hd, Ht.
    destruct (Hd x Hx) as [_ (id & rs & req & out & _ & _ & _ & Hi & Ho & _)]. split; [by exists (requestInput req), (mkKvOutput out)|].
    specialize (Ht x Hx). simpl. lia.
Qed.
End order.

(** C2: the replicated store is linearizable.  Any number of servers and clerks with
    distinct identities; RPCs between the peers and from the clerks lost, delayed and
    retried at any server; leaders elected and deposed; handlers that time out; servers
    that compact the log of their peer whenever it has grown to the limit; no peer
    crashes or installs the snapshot of another.  However the clock advances, once the clients
    are done the log of the test is linearizable as a map of strings with get, put and append,
    and the checker with the model of [models/kv.go], with any sort of the entries, answers
    [Ok] on it unless it is empty. *)
Theorem kvraft_log_linearizable `{!Gob (PersistentStatus Op)} `{!Gob SnapshotStatus} (n : nat) (max : Z) (ids : list Z) tes w :
  NoDup ids → wSteps tes (initWorld n max ids) = Some w → clientsDone w → clocked tes → zlen (w_log w) < 2 ^ 62 →
  linearizable MapModel (w_log w) ∧ (w_log w ≠ [] → checksOk (w_log w)).
Proof.
  intros Hnd Hst Hidle Hc Hl. assert (Forall (Z.le (default 0 (head tes.*1))) tes.*1) as Hn.
  { unfold clocked in Hc. destruct tes.*1; simpl; constructor; [done|]. by inversion Hc. }
  destruct (wSteps_winv n ids _ tes _ w _ _ _ Hnd (winv_init n ids max _) Hc Hn Hst) as (now & log & reqs & T & Hw).
  destruct (winv_linearizable n ids now w log reqs T Hnd Hw Hidle) as [Hlin Hty].
  split; [done|]. intros Hne. apply linearizable_checksOk; [|done|done]. split; [|done].
  eapply Forall_impl; [exact Hty|]. intros o [? ?]. done.
Qed.

(** ** A concrete run *)

(** Peer 0 is elected; client 0 writes there; client 1 calls a read at server 0, tries
    server 1, which is not the leader, then server 2, and server 0 again. *)
Definition sysDo (acts : list action) : list wevent := SystemDoes <$> acts.

Definition clientRun : list wevent :=
  sysDo [RaftDoes (Timeout 0); RaftDoes (Deliver 0); RaftDoes (Answer 0)] ++
  [ClientCalls 0 (RPut "k" "v")] ++
  sysDo [KvDoes 0 (Handler 0 None); KvDoes 0 (Handler 0 None); KvDoes 0 (Handler 0 None)] ++
  [ClientCalls 1 (RGet "k")] ++
  sysDo ([RaftDoes (AddLog 0); RaftDoes (Deliver 4); RaftDoes (Answer 4)] ++ applies 0 ++
         [KvReceives 0; KvDoes 0 (Apply 90); KvDoes 0 (Rendezvous 90); KvDoes 0 (Handler 0 None)]) ++
  [ClientReturns 0; ClientRetries 1] ++ sysDo [KvDoes 1 (Handler 0 None)] ++
  [ClientRetries 1; ClientRetries 1] ++
  sysDo ([KvDoes 0 (Handler 2 None); KvDoes 0 (Handler 2 None);
          RaftDoes (AddLog 0); RaftDoes (Deliver 6); RaftDoes (Answer 6)] ++ applies 0 ++
         [KvReceives 0; KvDoes 0 (Apply 0); KvDoes 0 (Rendezvous 0); KvDoes 0 (Handler 2 None); KvDoes 0 (Handler 2 None)]) ++
  [ClientReturns 1].

Definition timedRun : list (Z * wevent) := imap (λ k e, (Z.of_nat k, e)) clientRun.
Definition runWorld : world := default (initWorld 3 100 [7; 8]) (wSteps timedRun (initWorld 3 100 [7; 8])).

Lemma runWorld_enabled : wSteps timedRun (initWorld 3 100 [7; 8]) = Some runWorld.
Proof.
  assert (bool_decide (is_Some (wSteps timedRun (initWorld 3 100 [7; 8]))) = true) as [w E]%bool_decide_eq_true
    by (vm_compute; reflexivity).
  unfold runWorld. by rewrite E.
Qed.

Lemma timedRun_clocked : clocked timedRun.
Proof.
  unfold clocked. replace (timedRun.*1) with (seqZ 0 43) by (vm_compute; reflexivity).
  apply Sorted_StronglySorted; [intros x y z; lia|]. vm_compute seqZ. repeat (constructor; [|constructor; lia]). constructor; constructor.
Qed.

Lemma kvraft_log_linearizable_witness :
  w_log runWorld =
    [mkOperation 0 (KIn (mkKvInput 1 "k" "v")) 3 (KOut (mkKvOutput "")) 21;
     mkOperation 1 (KIn (mkKvInput 0 "k" "")) 7 (KOut (mkKvOutput "v")) 42] ∧
  linearizable MapModel (w_log runWorld) ∧ checksOk (w_log runWorld).
Proof.
  assert (w_log runWorld =
    [mkOperation 0 (KIn (mkKvInput 1 "k" "v")) 3 (KOut (mkKvOutput "")) 21;
     mkOperation 1 (KIn (mkKvInput 0 "k" "")) 7 (KOut (mkKvOutput "v")) 42]) as E by (vm_compute; reflexivity).
  assert (cl_pc <$> w_clients runWorld = [CIdle; CIdle]) as Ec by (vm_compute; reflexivity).
  assert (clientsDone runWorld) as Hd.
  { assert (Forall (λ pc, pc = CIdle) (cl_pc <$> w_clients runWorld)) as H by (rewrite Ec; by repeat constructor).
    rewrite Forall_fmap in H. exact H. }
  assert (zlen (w_log runWorld) < 2 ^ 62) as Hl by (rewrite E; done).
  assert (NoDup [7; 8]) as Hnd by (apply (bool_decide_unpack _); vm_compute; exact I).
  split; [exact E|].
  destruct (kvraft_log_linearizable 3 100 [7; 8] timedRun runWorld Hnd runWorld_enabled Hd timedRun_clocked Hl) as [Hlin Hok].
  split; [exact Hlin|]. apply Hok. rewrite E. discriminate.
Defined.
